(* ===== verification/_CoqProject ===== *)
-Q . S2P
Prelude.v
WalFormat.v
Wal.v
WalInvariant.v
WalRecovery.v
WalTheorems.v
GroupCommit.v
GroupClose.v
WalStore.v
Engine.v
EngineInvariant.v
EngineTheorems.v
EngineTotal.v
Store.v
Streaming.v
Replication.v
ReplicationTheorems.v
Cluster.v
Restart.v
Transport.v
Node.v
Catalog.v
Backup.v
Grpc.v
Auth.v
Observability.v
Api.v
ApiTheorems.v
Services.v
Admin.v
Resp.v
RespTheorems.v
RespConnection.v
RespServer.v
Benchmark.v
Percentile.v
Flags.v
ReportText.v
Ctl.v
NodeMain.v
Lifecycle.v
BenchMain.v
Mains.v
