(* ===== verification/Prelude.v ===== *)
(** * UDDP: a verified model of a single-partition data platform

    The program (src/) is a key-value store with a change stream.  A partition is
    one write-ahead log; the engine keeps an in-memory index and a table of
    idempotency keys over it, the stream is the log itself read by position.  In
    front of the engine are gRPC services and a Redis adapter; behind it, when
    replication is on, raft drives the engine of every replica with the same
    commands.  Consumer offsets are a second log.  Backups dump the index.

    ** Files and what they model

    - Prelude: integers of fixed width with their wrap-around, bytes, the monad
      [GoM] of stateful Go code (a call returns, panics or blocks, and keeps the
      state it reached), tactics, hint databases and shared lemmas.
    - WalFormat, Wal (internal/wal/wal.go): the record codec and its CRC; files
      and [bufio.Writer] with scripted failures; [Open], [recover_], [Append] as
      its critical sections, [ReadRange], [Close].
      WalInvariant, WalRecovery, WalTheorems: the invariant that ties bytes, buffer
      and bookkeeping to a ghost list of records, recovery after any crash, and the
      properties of the log.
      GroupCommit: all interleavings of concurrent [Append] calls as a step
      relation over the same critical sections.  GroupClose: [Close] among them.
      WalStore: the contract ([log_inv]) that the log gives its clients; the class
      [Replays] of WalRecovery is what a client gives in return.
    - Engine (internal/engine/engine.go), EngineInvariant, EngineTheorems: the
      partition engine, all operations; its invariant relates the maps to the fold
      of [replay] over the acknowledged records.
      Store: the abstract store a client relies on (a list of writes, how many of
      them readers see and how many are safe), the simulation between it and the
      engine, and the types of reachable states.
      EngineTotal: every call on an idle engine returns.
    - Streaming (internal/streaming/offsets.go): committed consumer offsets.
    - Replication, ReplicationTheorems (internal/replication/command.go, fsm.go):
      commands, the state machine, snapshots.
      Cluster: nodes that apply one log, as a step relation; the log's meaning as
      a function to histories of writes.  Restart: the same nodes being killed,
      also inside an append, recovering and being given the log again.
      Node (internal/replication/node.go): a raft node over the interface [Raft].
      Transport (internal/replication/transport.go): mutual TLS between nodes.
    - Catalog (internal/catalog), Backup (internal/backup), Auth (internal/auth),
      Observability (internal/observability), Grpc (statuses and handlers).
    - Api, ApiTheorems (internal/api): the state, stream and admin services over
      one server state.  Services: every data request is answered, replicated
      writes end to end.  Admin: export, usage and deletion of the namespace.
    - Resp, RespTheorems (internal/resp): the RESP parser, writers, dispatch.
      RespConnection: a whole connection against a function from commands to
      replies.  RespServer: the listener and the goroutines of its connections,
      interleaved at every engine call, with clients that send, end and take
      replies when they do.
    - Benchmark (internal/benchmark): workload generator, recorder, percentiles in
      IEEE arithmetic, the run as a step relation, the report.  Percentile: the
      rounding of the percentile's index.  ReportText: the printed report, with
      what it uses of fmt and time.
    - Flags: the standard library's flag package and its value syntax.
    - Ctl (cmd/uddpctl), BenchMain (cmd/uddp-bench), NodeMain (cmd/uddp-node): the
      command-line client and the benchmark's executor over an interface of
      clients, and the start-up of a node.  Lifecycle: a node from serving to exit.
      Mains: the programs' [main] functions over their command lines.

    ** What the theorems show

    - Durability: an acknowledged record survives any later crash, for one caller
      and in every interleaving of group commit; calls of [Append] all return, and
      no follower is stranded; closing a log in use loses nothing and never closes
      the file under a running fsync; [Open] recovers a prefix of the log with
      everything durable; damage is detected by the checksum, or cuts the log
      (shown too).
    - Engine: its runs refine the abstract store (with crashes, restarts and
      failing disks); every mutation on every branch keeps the invariant; a restart
      rebuilds the maps; retries are idempotent; a conditional write commits
      exactly on the version a reader sees; a read is the last acknowledged live
      write; a version is the stream offset of its write; expiry.
    - Stream: a consumer that follows next_offset reads every record once in
      commit order; committed offsets never move back.
    - Replication: on disks that do not fail every replica is what the log entries
      it has applied mean, down to the bytes of its file, and answers accordingly,
      as long as no conditional write on an expiring key is among them; restarts
      keep this for unconditional writes with idempotency keys; replicas in the same state stay
      in the same state; a snapshot restores what readers see; a successful
      proposal was applied; and where this fails (local clocks, conditional writes
      replayed after a restart, renumbering by a restored snapshot).
    - RESP: the calls of all connections are one run of the abstract store, and each
      client's replies follow from its own calls; the server stops only where every
      open connection waits for its client.
    - Round trips: records, backups, snapshots, RESP commands and replies, peer
      lists, command lines, the printed report.
    - Termination: group commit and close, the parser and the connection loop on any
      complete input, all data requests but fetches above 2^63, which panic.
    - Processes: a command line that spells a configuration out runs the program
      with it; a shutdown closes the stores in order, waits for the calls, health
      streams and HTTP requests in flight and for nothing else.
    - Benchmark: percentiles are exact quantiles and in order, although computed in
      floating point; the report is the statistics of the run.
    - Services: namespace and token checks, SET/GET and put/get from the command
      line through every layer down to the log; exports, usage and deletion report
      and remove exactly what readers see.
    - Behaviour that differs from what comments or documents say is stated as
      theorems of its own, each on a concrete or a general input.

    ** Assumptions and bounds

    - Slices are values: no operation's result depends on aliasing here.  A nil
      and an empty slice are not told apart.
    - A file's [f_synced] first bytes survive a crash; a crash keeps any longer
      prefix ([crash]): it does not reorder or tear the bytes behind, and a
      truncation is durable when it returns.  A successful fsync covers the bytes written when it was
      called.  Failures of writes, syncs and other calls are arbitrary scripts.
    - A mutex makes a critical section one step.  Map iteration order is an
      argument (a permutation of the map).  Clocks are arbitrary streams of
      readings, one consumed per call.
    - encoding/gob, crypto/sha256, crypto/x509, hashicorp/raft, math/rand, the
      Prometheus registry and [strconv.ParseFloat] are classes of operations; laws
      are separate classes with instances that satisfy them.  Of raft's [Apply] the
      law is that a successful one was applied, with entries before and behind it.
      The gRPC and HTTP servers do what they document of [Serve], [GracefulStop]
      and [Shutdown].  In Lifecycle a service call is its calls on the stores.
    - Nothing is assumed of clients: a RESP client may send part of a command and
      wait, or not read; a call, health stream or HTTP request in flight need not
      end.  Theorems about progress say what is waited for.
    - A killed node runs its recovery to the end when it comes back; its process is
      killed between two engine calls or at any point of an append.
    - [fits] bounds: a record's frame is below 2^32 bytes, positions and the file
      size stay below 2^62; each theorem that needs a bound states it.
    - Loops with fuel: [recover_loop] gets one unit more than the bytes of the file,
      and each turn consumes at least four; [bufio_loop] takes at most two turns;
      [read_parts] and [handle_loop] get one unit more than the bytes left on the
      connection, and each turn consumes one; so does the loop over a duration's
      parts; decimal output has at most 20 digits, and 310 for a float64; key
      formatting has seven positions.  Running out of fuel is the outcome
      [Blocked]; appends, recovery, parsing and the connection loop are proved
      never to end that way.

    ** Not modelled

    Generated protobuf code, the record layer of TLS, TCP transports, raft's own
    protocol, the JSON encoding of a report, log lines and deadlines of calls: code
    of libraries, or output nothing depends on.

    ** Plan

    Next: membership changes over a model of raft's configuration, clusters whose
    raft log has been compacted, kills during recovery, the rate a report prints
    against the run's true rate. *)

From Stdlib Require Import ZArith Lia.
From Stdlib Require Export Strings.Byte.
From stdpp Require Export base tactics list gmap.
From stdpp Require Import strings.
Export Stdlib.Strings.String.StringSyntax.

Declare Scope go_scope.
Delimit Scope go_scope with go.
Open Scope Z_scope.

(** ** Bytes *)

(** A Go [[]byte] and a Go [string] are both byte sequences; a nil slice and an
    empty slice are not told apart (no modelled operation tells them apart). *)
Abbreviation bytes := (list byte).

#[export] Instance byte_eq_dec : EqDecision byte := Byte.byte_eq_dec.

#[export] Program Instance byte_countable : Countable byte :=
  inj_countable Byte.to_N Byte.of_N _.
Next Obligation. intros b. apply Byte.of_to_N. Qed.

#[export] Instance byte_inhabited : Inhabited byte := populate x00.

(** A Go string literal, as the bytes of its UTF-8 source text. *)
Definition str (s : String.string) : bytes := String.list_byte_of_string s.
Arguments str s%_string.

Notation "$ s" := (str s%_string) (at level 1, s at level 0, format "$ s") : go_scope.
Open Scope go_scope.

Definition byteZ (b : byte) : Z := Z.of_N (Byte.to_N b).

(** Conversion to [byte]: keeps the low eight bits. *)
Definition Zbyte (z : Z) : byte :=
  match Byte.of_N (Z.to_N (z mod 256)) with Some b => b | None => x00 end.

(** Go's [len], as an integer. *)
Definition len {A} (l : list A) : Z := Z.of_nat (length l).

(** ** Machine integers: wrap-around of the fixed-width types *)

Definition u32 (z : Z) : Z := z mod 2 ^ 32.
Definition u64 (z : Z) : Z := z mod 2 ^ 64.
(** Two's complement reading of the low 64 bits. *)
Definition i64 (z : Z) : Z := (z + 2 ^ 63) mod 2 ^ 64 - 2 ^ 63.
Definition i32 (z : Z) : Z := (z + 2 ^ 31) mod 2 ^ 32 - 2 ^ 31.

Definition is_u64 (z : Z) : Prop := 0 <= z < 2 ^ 64.
Definition is_i64 (z : Z) : Prop := - 2 ^ 63 <= z < 2 ^ 63.
Definition is_u8 (z : Z) : Prop := 0 <= z < 256.

#[global] Arguments u32 : simpl never.
#[global] Arguments u64 : simpl never.
#[global] Arguments i64 : simpl never.
#[global] Arguments i32 : simpl never.

(** ** Go results *)

(** What a call does: it returns, it panics, or it never returns because it
    waits for something no running code will do. *)
Inductive go (A : Type) : Type :=
| Ret (a : A)
| Panic (why : bytes)
| Blocked.
Arguments Ret {A} a.
Arguments Panic {A} why.
Arguments Blocked {A}.

#[export] Instance go_ret : MRet go := fun A a => Ret a.
#[export] Instance go_bind : MBind go := fun A B k m =>
  match m with Ret a => k a | Panic w => Panic w | Blocked => Blocked end.

(** Code that reads and writes a state of type [S]: the state is kept also when
    the call panics or blocks. *)
Definition GoM (S A : Type) : Type := S -> S * go A.

#[export] Instance GoM_ret S : MRet (GoM S) := fun A a s => (s, Ret a).
#[export] Instance GoM_bind S : MBind (GoM S) := fun A B k m s =>
  match m s with
  | (s', Ret a) => k a s'
  | (s', Panic w) => (s', Panic w)
  | (s', Blocked) => (s', Blocked)
  end.

Definition get_state {S} : GoM S S := fun s => (s, Ret s).
Definition gets {S A} (f : S -> A) : GoM S A := fun s => (s, Ret (f s)).
Definition modify {S} (f : S -> S) : GoM S unit := fun s => (f s, Ret tt).
Definition lift_go {S A} (m : go A) : GoM S A := fun s => (s, m).

(** Run code of a component on the part of a larger state that holds it. *)
Definition zoom {S T A} (proj : S -> T) (upd : S -> T -> S) (m : GoM T A) : GoM S A :=
  fun s => let '(t, r) := m (proj s) in (upd s t, r).

Lemma bind_ret {S A B} (m : GoM S A) (k : A -> GoM S B) s s' a :
  m s = (s', Ret a) -> mbind k m s = k a s'.
Proof. intros H. unfold mbind, GoM_bind. by rewrite H. Qed.

Lemma zoom_ret {S T A} (proj : S -> T) upd (m : GoM T A) s t r :
  m (proj s) = (t, r) -> zoom proj upd m s = (upd s t, r).
Proof. intros H. unfold zoom. by rewrite H. Qed.

Lemma with_result {A B : Type} (x : A * B) r : x.2 = r -> x = (x.1, r).
Proof. by destruct x; cbn; intros ->. Qed.

(** A Go pair [(value, error)] of which only one half is meaningful. *)
Inductive result (E A : Type) : Type :=
| Ok (a : A)
| Err (e : E).
Arguments Ok {E A} a.
Arguments Err {E A} e.

Definition is_ok {E A} (r : result E A) : bool :=
  match r with Ok _ => true | Err _ => false end.

(** The text of an error the operating system reports. *)
Abbreviation oserr := bytes.

(** ** Automation *)

Create HintDb uddp discriminated.
Create Rewrite HintDb uddp_len.

(** Split every boolean comparison in the context into its proposition. *)
Ltac bool_prop :=
  repeat match goal with
  | H : (_ && _)%bool = true |- _ => apply andb_prop in H; destruct H
  | H : (_ || _)%bool = false |- _ => apply orb_false_elim in H; destruct H
  | H : (_ <? _) = true |- _ => apply Z.ltb_lt in H
  | H : (_ <? _) = false |- _ => apply Z.ltb_ge in H
  | H : (_ <=? _) = true |- _ => apply Z.leb_le in H
  | H : (_ <=? _) = false |- _ => apply Z.leb_gt in H
  | H : (_ =? _) = true |- _ => apply Z.eqb_eq in H
  | H : (_ =? _) = false |- _ => apply Z.eqb_neq in H
  | H : negb _ = true |- _ => apply negb_true_iff in H
  | H : negb _ = false |- _ => apply negb_false_iff in H
  end.

(** Case on the scrutinee of the first [match] or [if] of the goal. *)
Ltac case_goal :=
  match goal with
  | |- context [match ?x with _ => _ end] => destruct x eqn:?
  end.

(** Prove a closed decidable proposition by evaluating it. *)
Ltac by_decide := refine (bool_decide_unpack _ _); vm_compute; exact I.

(** ** Lemmas on bytes and integers *)

Lemma byteZ_range b : 0 <= byteZ b < 256.
Proof.
  unfold byteZ. pose proof (Byte.to_N_bounded b). lia.
Qed.

Lemma byteZ_inj a b : byteZ a = byteZ b -> a = b.
Proof.
  unfold byteZ. intros H%N2Z.inj.
  pose proof (Byte.of_to_N a) as Ha. pose proof (Byte.of_to_N b) as Hb.
  rewrite H in Ha. congruence.
Qed.

Lemma byteZ_Zbyte z : byteZ (Zbyte z) = z mod 256.
Proof.
  unfold Zbyte, byteZ.
  pose proof (Z.mod_pos_bound z 256 ltac:(lia)).
  destruct (Byte.of_N (Z.to_N (z mod 256))) as [b|] eqn:E.
  - apply Byte.to_of_N in E. rewrite E, Z2N.id; lia.
  - apply Byte.of_N_None_iff in E. lia.
Qed.

Lemma Zbyte_byteZ b : Zbyte (byteZ b) = b.
Proof.
  apply byteZ_inj. rewrite byteZ_Zbyte. apply Z.mod_small, byteZ_range.
Qed.

Lemma len_nonneg {A} (l : list A) : 0 <= len l.
Proof. unfold len. lia. Qed.

Lemma len_app {A} (l k : list A) : len (l ++ k) = len l + len k.
Proof. unfold len. rewrite length_app. lia. Qed.

Lemma len_nil {A} : len (@nil A) = 0.
Proof. reflexivity. Qed.

Lemma len_cons {A} (x : A) l : len (x :: l) = 1 + len l.
Proof. unfold len. simpl length. lia. Qed.

#[export] Hint Rewrite @len_app @len_nil @len_cons : uddp_len.

Lemma u64_small z : is_u64 z -> u64 z = z.
Proof. unfold is_u64, u64. intros. apply Z.mod_small. lia. Qed.

Lemma u32_small z : 0 <= z < 2 ^ 32 -> u32 z = z.
Proof. unfold u32. intros. apply Z.mod_small. lia. Qed.

Lemma i64_small z : is_i64 z -> i64 z = z.
Proof. unfold is_i64, i64. intros. rewrite Z.mod_small; lia. Qed.

Lemma u64_range z : is_u64 (u64 z).
Proof. unfold is_u64, u64. apply Z.mod_pos_bound. lia. Qed.

Lemma i64_range z : is_i64 (i64 z).
Proof.
  unfold is_i64, i64. pose proof (Z.mod_pos_bound (z + 2 ^ 63) (2 ^ 64)). lia.
Qed.

(** Storing an int64 as uint64 bits and reading it back is the identity. *)
Lemma i64_u64 z : is_i64 z -> i64 (u64 z) = z.
Proof.
  unfold is_i64, i64, u64. intros H.
  rewrite Z.add_mod_idemp_l by lia. rewrite Z.mod_small; lia.
Qed.

Lemma Zlxor_bound a b n :
  0 <= n -> 0 <= a < 2 ^ n -> 0 <= b < 2 ^ n -> 0 <= Z.lxor a b < 2 ^ n.
Proof.
  intros Hn Ha Hb.
  assert (0 <= Z.lxor a b) by (apply Z.lxor_nonneg; lia).
  split; [done|].
  destruct (Z.eq_dec (Z.lxor a b) 0) as [->|Hne]; [lia|].
  apply Z.log2_lt_pow2; [lia|].
  pose proof (Z.log2_lxor a b ltac:(lia) ltac:(lia)) as Hlog.
  assert (Hpow : forall x, 0 <= x < 2 ^ n -> x = 0 \/ Z.log2 x < n).
  { intros x Hx. destruct (Z.eq_dec x 0); [by left|right].
    apply Z.log2_lt_pow2; lia. }
  destruct (Z.eq_dec n 0) as [->|Hn0].
  - assert (a = 0) by lia. assert (b = 0) by lia. subst. done.
  - assert (Z.log2 0 < n) by (simpl; lia).
    destruct (Hpow a Ha) as [->|], (Hpow b Hb) as [->|]; lia.
Qed.

(** ** Little-endian integers ([encoding/binary]) *)

(** [PutUint32]/[PutUint64]: the [n] low bytes of [z], least significant first. *)
Fixpoint le_bytes (n : nat) (z : Z) : bytes :=
  match n with
  | O => []
  | S n' => Zbyte z :: le_bytes n' (z / 256)
  end.

(** [Uint32]/[Uint64] on a slice of the right length. *)
Fixpoint le_value (bs : bytes) : Z :=
  match bs with
  | [] => 0
  | b :: bs' => byteZ b + 256 * le_value bs'
  end.

Lemma length_le_bytes n z : length (le_bytes n z) = n.
Proof. revert z. induction n as [|n IH]; intros z; simpl; [done|by rewrite IH]. Qed.
#[export] Hint Rewrite length_le_bytes : uddp_len.

Lemma le_value_le_bytes n z :
  0 <= z < 256 ^ Z.of_nat n -> le_value (le_bytes n z) = z.
Proof.
  revert z. induction n as [|n IH]; intros z Hz; simpl.
  - change (256 ^ Z.of_nat 0) with 1 in Hz. lia.
  - rewrite Nat2Z.inj_succ, Z.pow_succ_r in Hz by lia.
    rewrite byteZ_Zbyte, IH.
    + pose proof (Z.div_mod z 256). lia.
    + split; [apply Z.div_pos; lia|apply Z.div_lt_upper_bound; lia].
Qed.

Lemma le_value_range bs : 0 <= le_value bs < 256 ^ len bs.
Proof.
  induction bs as [|b bs IH]; simpl; [done|].
  rewrite len_cons, Z.add_comm, Z.pow_add_r by (pose proof (len_nonneg bs); lia).
  pose proof (byteZ_range b). lia.
Qed.

Lemma le_value_u32 z : 0 <= z < 2 ^ 32 -> le_value (le_bytes 4 z) = z.
Proof. intros. apply le_value_le_bytes. simpl. lia. Qed.

Lemma le_value_u64 z : is_u64 z -> le_value (le_bytes 8 z) = z.
Proof. unfold is_u64. intros. apply le_value_le_bytes. simpl. lia. Qed.

(** ** Slices and buffers *)

(** [p[off:off+n]] for an in-range slice expression. *)
Definition sub (p : bytes) (off n : Z) : bytes :=
  take (Z.to_nat n) (drop (Z.to_nat off) p).

(** [make([]byte, n)]: [n] zero bytes. *)
Definition make (n : Z) : bytes := replicate (Z.to_nat n) x00.

(** The runtime's limit on one allocation (64-bit Linux); [make] of a slice whose
    elements do not fit below it panics. *)
Definition maxAlloc : Z := 2 ^ 48.

(** [copy(buf[off:], src)]: overwrites at most the space left after [off]. *)
Definition copy_at (buf : bytes) (off : Z) (src : bytes) : bytes :=
  let o := Z.to_nat off in
  let n := Nat.min (length buf - o) (length src) in
  take o buf ++ take n src ++ drop (o + n) buf.

(** What [copy] returns: the number of bytes copied. *)
Definition copy_len (buf : bytes) (off : Z) (src : bytes) : Z :=
  Z.min (len buf - off) (len src).

Lemma sub_app_head (a b c : bytes) off n :
  off = len a -> n = len b -> sub (a ++ b ++ c) off n = b.
Proof.
  intros -> ->. unfold sub, len. rewrite !Nat2Z.id, drop_app_length.
  by rewrite take_app_length.
Qed.

(** Filling a zeroed buffer from left to right appends to the filled part. *)
Lemma copy_at_fill (pre src : bytes) (n m : Z) off :
  off = len pre -> m = n - len src -> len src <= n ->
  copy_at (pre ++ make n) off src = (pre ++ src) ++ make m.
Proof.
  intros -> -> Hn. unfold copy_at, make, len in *.
  rewrite length_app, length_replicate, Nat2Z.id.
  rewrite take_app_length.
  replace (Nat.min _ _) with (length src) by lia.
  rewrite take_ge by lia.
  rewrite drop_app_ge by lia.
  replace (length pre + length src - length pre)%nat with (length src) by lia.
  rewrite drop_replicate, <- app_assoc. do 3 f_equal. lia.
Qed.

Lemma copy_at_full (src : bytes) (n : Z) :
  n = len src -> copy_at (make n) 0 src = src.
Proof.
  intros ->.
  pose proof (copy_at_fill [] src (len src) 0 0) as H. simpl app in H.
  rewrite H by (autorewrite with uddp_len; lia).
  unfold make. simpl. apply app_nil_r.
Qed.

(** ** Lists *)

Lemma take_strict_prefix {A} k (l r : list A) :
  (k < length l)%nat -> take k (l ++ r) = take k l.
Proof. intros. rewrite take_app_le; [done|lia]. Qed.

Lemma fold_left_snoc {A B} (f : A -> B -> A) l x a :
  fold_left f (l ++ [x]) a = f (fold_left f l a) x.
Proof. by rewrite fold_left_app. Qed.

(** A list between [d] and [d ++ l] is [d] with a prefix of [l]. *)
Lemma prefix_app_take {A} (d e l x : list A) :
  e = d ++ x -> e `prefix_of` d ++ l -> e = d ++ take (length e - length d) l.
Proof.
  intros -> [k Hk]. f_equal. rewrite <- app_assoc in Hk. apply app_inv_head in Hk.
  rewrite Hk, length_app. replace (_ - _)%nat with (length x) by lia.
  by rewrite take_app_length.
Qed.

(** ** Byte strings for any countable type *)

(** A positive number as a byte string, and back; with [Countable] this encodes
    any countable value, as the instances of the codec interfaces do. *)
Fixpoint pos_bytes (p : positive) : bytes :=
  match p with
  | xH => []
  | xO p => x00 :: pos_bytes p
  | xI p => x01 :: pos_bytes p
  end.

Fixpoint bytes_pos (b : bytes) : positive :=
  match b with
  | [] => xH
  | x00 :: b => xO (bytes_pos b)
  | _ :: b => xI (bytes_pos b)
  end.

Lemma bytes_pos_bytes p : bytes_pos (pos_bytes p) = p.
Proof. induction p; cbn; by f_equal. Qed.

(** ** Sums over a list *)

Lemma sum_insert {A} (f : A -> nat) l i x y :
  l !! i = Some x -> (sum_list_with f (<[i := y]> l) + f x = sum_list_with f l + f y)%nat.
Proof.
  revert i. induction l as [|a l IH]; intros [|i] H; cbn in *; try done.
  - injection H as ->. lia.
  - rewrite <- !Nat.add_assoc. f_equal. by apply IH.
Qed.
