(* ===== verification/WalFormat.v ===== *)
(** * The write-ahead log's on-disk format (internal/wal/wal.go, first half)

    The file header, the CRC-32 checksum, the record codec ([encodePayload],
    [decodePayload]) and [readRecord], the reader every scan of the log uses.
    Theorems: the codec round trip in both directions, what a truncated record
    reads as, and which corruptions the checksum detects. *)

From Stdlib Require Import ZArith Lia.
From S2P Require Import Prelude.

(** ** Constants and the record type *)

Definition walMagic : bytes := $"UDWL".
Definition currentFormatVersion : Z := 1.
Definition headerSize : Z := 5.

(** [RecordKind] is a [uint8]; a decoded record may carry any value. *)
Definition RecordKind := Z.
Definition KindPut : RecordKind := 1.
Definition KindDelete : RecordKind := 2.

Record WalRecord := mkRecord {
  CommitPosition : Z;
  Kind : RecordKind;
  Key : bytes;
  Value : bytes;
  ExpiresAtUnixNano : Z;
  IdempotencyKey : bytes
}.

#[export] Instance WalRecord_eq_dec : EqDecision WalRecord.
Proof. solve_decision. Defined.

(** [rec.CommitPosition = pos] *)
Definition set_pos (r : WalRecord) (pos : Z) : WalRecord :=
  mkRecord pos (Kind r) (Key r) (Value r) (ExpiresAtUnixNano r) (IdempotencyKey r).

(** ** CRC-32 (hash/crc32, [ChecksumIEEE]) *)

Definition crc_poly : Z := 0xEDB88320.

(** One bit of the reflected IEEE polynomial division. *)
Definition crc_bit (c : Z) : Z :=
  if Z.odd c then Z.lxor (Z.div2 c) crc_poly else Z.div2 c.

Definition crc_byte (c : Z) (b : byte) : Z :=
  Nat.iter 8 crc_bit (Z.lxor c (byteZ b)).

Definition ChecksumIEEE (p : bytes) : Z :=
  Z.lxor (fold_left crc_byte p 0xFFFFFFFF) 0xFFFFFFFF.

(** ** [encodePayload]: writes into a buffer of the exact size *)

Definition payload_size (rec : WalRecord) : Z :=
  8 + 1 + 4 + len (Key rec) + 4 + len (Value rec) + 8 + 4 + len (IdempotencyKey rec).

Definition encodePayload (rec : WalRecord) : bytes :=
  let idLen := len (IdempotencyKey rec) in
  let payload := make (payload_size rec) in
  let off := 0 in
  let payload := copy_at payload off (le_bytes 8 (CommitPosition rec)) in
  let off := off + 8 in
  let payload := copy_at payload off [Zbyte (Kind rec)] in
  let off := off + 1 in
  let payload := copy_at payload off (le_bytes 4 (u32 (len (Key rec)))) in
  let off := off + 4 in
  let n := copy_len payload off (Key rec) in
  let payload := copy_at payload off (Key rec) in
  let off := off + n in
  let payload := copy_at payload off (le_bytes 4 (u32 (len (Value rec)))) in
  let off := off + 4 in
  let n := copy_len payload off (Value rec) in
  let payload := copy_at payload off (Value rec) in
  let off := off + n in
  let payload := copy_at payload off (le_bytes 8 (u64 (ExpiresAtUnixNano rec))) in
  let off := off + 8 in
  let payload := copy_at payload off (le_bytes 4 (u32 idLen)) in
  let off := off + 4 in
  copy_at payload off (IdempotencyKey rec).

(** ** [decodePayload] *)

Inductive decode_error :=
| PayloadTooShort | TruncatedKey | TruncatedValueLength | TruncatedValue
| TruncatedExpiry | TruncatedIdempotencyKeyLength | TruncatedIdempotencyKey.

Definition decodePayload (p : bytes) : result decode_error WalRecord :=
  if len p <? 8 + 1 + 4 then Err PayloadTooShort else
  let commitPosition := le_value (sub p 0 8) in
  let kind := le_value (sub p 8 1) in
  let off := 9 in
  let keyLen := le_value (sub p off 4) in
  let off := off + 4 in
  if len p <? off + keyLen then Err TruncatedKey else
  let key := sub p off keyLen in
  let off := off + keyLen in
  if len p <? off + 4 then Err TruncatedValueLength else
  let valLen := le_value (sub p off 4) in
  let off := off + 4 in
  if len p <? off + valLen then Err TruncatedValue else
  let value := sub p off valLen in
  let off := off + valLen in
  if len p <? off + 8 then Err TruncatedExpiry else
  let expires := i64 (le_value (sub p off 8)) in
  let off := off + 8 in
  if len p <? off + 4 then Err TruncatedIdempotencyKeyLength else
  let idLen := le_value (sub p off 4) in
  let off := off + 4 in
  if len p <? off + idLen then Err TruncatedIdempotencyKey else
  Ok (mkRecord commitPosition kind key value expires (sub p off idLen)).

(** ** Readers *)

(** A buffered reader: the bytes it still yields, then either the end of the
    input or the error the underlying read reports there. *)
Record reader := mkReader { r_rest : bytes; r_fault : option oserr }.

Inductive read_error := EOF | UnexpectedEOF | ReadFault (e : oserr).

(** [io.ReadFull] of [n] bytes. *)
Definition ReadFull (r : reader) (n : Z) : result read_error bytes * reader :=
  if n <=? len (r_rest r) then
    (Ok (take (Z.to_nat n) (r_rest r)),
     mkReader (drop (Z.to_nat n) (r_rest r)) (r_fault r))
  else
    (match r_fault r with
     | Some e => Err (ReadFault e)
     | None => match r_rest r with [] => Err EOF | _ => Err UnexpectedEOF end
     end,
     mkReader [] (r_fault r)).

(** ** [readRecord] *)

Inductive record_error :=
| RecEOF
| RecTorn                              (* errTornRecord *)
| RecChecksum (got want : Z)
| RecDecode (e : decode_error).

Definition readRecord (r : reader) : result record_error (WalRecord * Z) * reader :=
  match ReadFull r 4 with
  | (Err EOF, r) => (Err RecEOF, r)
  | (Err _, r) => (Err RecTorn, r)
  | (Ok lenBuf, r) =>
    let length := le_value lenBuf in
    match ReadFull r length with
    | (Err _, r) => (Err RecTorn, r)
    | (Ok body, r) =>
      if len body <? 4 then (Err RecTorn, r) else
      let wantCRC := le_value (sub body 0 4) in
      let payload := drop 4 body in
      let gotCRC := ChecksumIEEE payload in
      if negb (gotCRC =? wantCRC) then (Err (RecChecksum gotCRC wantCRC), r) else
      match decodePayload payload with
      | Err e => (Err (RecDecode e), r)
      | Ok rec => (Ok (rec, u32 (4 + length)), r)
      end
    end
  end.

(** ** The bytes [Append] writes for one record *)

(** [body]: checksum, then payload. *)
Definition record_body (rec : WalRecord) : bytes :=
  let payload := encodePayload rec in
  let crc := ChecksumIEEE payload in
  let body := make (4 + len payload) in
  let body := copy_at body 0 (le_bytes 4 crc) in
  copy_at body 4 payload.

Definition record_lenBuf (rec : WalRecord) : bytes :=
  le_bytes 4 (u32 (len (record_body rec))).

(** The record as it lies in the file. *)
Definition frame (rec : WalRecord) : bytes := record_lenBuf rec ++ record_body rec.

(** A record whose fields fit their Go types and whose encoding fits the
    32-bit length prefix. *)
Definition wf_record (rec : WalRecord) : Prop :=
  is_u64 (CommitPosition rec) /\ is_u8 (Kind rec) /\
  is_i64 (ExpiresAtUnixNano rec) /\ payload_size rec + 8 < 2 ^ 32.

#[export] Instance is_u64_dec z : Decision (is_u64 z).
Proof. unfold is_u64. apply _. Defined.
#[export] Instance is_u8_dec z : Decision (is_u8 z).
Proof. unfold is_u8. apply _. Defined.
#[export] Instance is_i64_dec z : Decision (is_i64 z).
Proof. unfold is_i64. apply _. Defined.
#[export] Instance wf_record_dec r : Decision (wf_record r).
Proof. unfold wf_record. apply _. Defined.

#[global] Arguments le_bytes : simpl never.
#[global] Arguments le_value : simpl never.

(** ** The encoded payload as a concatenation *)

(** The wire layout of the comment above [readRecord]. *)
Definition payload_ref (rec : WalRecord) : bytes :=
  le_bytes 8 (CommitPosition rec) ++ [Zbyte (Kind rec)] ++
  le_bytes 4 (u32 (len (Key rec))) ++ Key rec ++
  le_bytes 4 (u32 (len (Value rec))) ++ Value rec ++
  le_bytes 8 (u64 (ExpiresAtUnixNano rec)) ++
  le_bytes 4 (u32 (len (IdempotencyKey rec))) ++ IdempotencyKey rec.

Lemma len_le_bytes n z : len (le_bytes n z) = Z.of_nat n.
Proof. unfold len. by rewrite length_le_bytes. Qed.
#[export] Hint Rewrite len_le_bytes : uddp_len.

Lemma copy_len_fill (pre src : bytes) n off :
  off = len pre -> 0 <= n -> len src <= n -> copy_len (pre ++ make n) off src = len src.
Proof.
  intros -> Hn Hs. unfold copy_len. rewrite len_app.
  assert (len (make n) = n) as ->
    by (unfold make, len; rewrite length_replicate; lia).
  pose proof (len_nonneg src). lia.
Qed.

Lemma len_encode_parts (rec : WalRecord) :
  0 <= len (Key rec) /\ 0 <= len (Value rec) /\ 0 <= len (IdempotencyKey rec).
Proof. repeat split; apply len_nonneg. Qed.

(** Side conditions of the buffer lemmas are linear in the three lengths. *)
Ltac fill_side rec :=
  pose proof (len_encode_parts rec); unfold payload_size;
  autorewrite with uddp_len; cbn [Z.of_nat Pos.of_succ_nat Pos.succ]; lia.

Lemma encodePayload_ref rec : encodePayload rec = payload_ref rec.
Proof.
  unfold encodePayload; cbn zeta.
  rewrite <- (app_nil_l (make (payload_size rec))).
  set (k := len (Key rec)). set (v := len (Value rec)).
  set (i := len (IdempotencyKey rec)).
  rewrite (copy_at_fill [] _ _ (payload_size rec - 8)) by (subst k v i; fill_side rec).
  rewrite (copy_at_fill _ _ _ (payload_size rec - 9)) by (subst k v i; fill_side rec).
  rewrite (copy_at_fill _ _ _ (payload_size rec - 13)) by (subst k v i; fill_side rec).
  rewrite copy_len_fill by (subst k v i; fill_side rec).
  rewrite (copy_at_fill _ _ _ (payload_size rec - 13 - k)) by (subst k v i; fill_side rec).
  rewrite (copy_at_fill _ _ _ (payload_size rec - 17 - k)) by (subst k v i; fill_side rec).
  rewrite copy_len_fill by (subst k v i; fill_side rec).
  rewrite (copy_at_fill _ _ _ (payload_size rec - 17 - k - v))
    by (subst k v i; fill_side rec).
  rewrite (copy_at_fill _ _ _ (payload_size rec - 25 - k - v))
    by (subst k v i; fill_side rec).
  rewrite (copy_at_fill _ _ _ (payload_size rec - 29 - k - v))
    by (subst k v i; fill_side rec).
  rewrite (copy_at_fill _ _ _ 0) by (subst k v i; fill_side rec).
  unfold make, payload_ref. cbn [Z.to_nat replicate]. rewrite app_nil_r.
  by rewrite <- !app_assoc.
Qed.

Lemma len_encodePayload rec : len (encodePayload rec) = payload_size rec.
Proof. rewrite encodePayload_ref. unfold payload_ref. fill_side rec. Qed.

Lemma record_body_ref rec :
  record_body rec = le_bytes 4 (ChecksumIEEE (encodePayload rec)) ++ encodePayload rec.
Proof.
  unfold record_body; cbn zeta. set (p := encodePayload rec).
  pose proof (len_nonneg p).
  rewrite <- (app_nil_l (make (4 + len p))).
  rewrite (copy_at_fill [] _ _ (len p)) by (autorewrite with uddp_len; lia).
  rewrite (copy_at_fill _ _ _ 0) by (autorewrite with uddp_len; simpl; lia).
  unfold make. cbn [Z.to_nat replicate]. by rewrite app_nil_r.
Qed.

Lemma len_record_body rec : len (record_body rec) = 4 + payload_size rec.
Proof.
  rewrite record_body_ref. autorewrite with uddp_len. rewrite len_encodePayload. lia.
Qed.

Lemma payload_size_pos rec : 29 <= payload_size rec.
Proof. fill_side rec. Qed.

Lemma len_frame rec : len (frame rec) = 8 + payload_size rec.
Proof.
  unfold frame, record_lenBuf. autorewrite with uddp_len. rewrite len_record_body. lia.
Qed.

(** ** Range of the checksum *)

Lemma crc_bit_range c : 0 <= c < 2 ^ 32 -> 0 <= crc_bit c < 2 ^ 32.
Proof.
  intros H. unfold crc_bit.
  assert (0 <= Z.div2 c < 2 ^ 32) 
    by (rewrite Z.div2_div; split; [apply Z.div_pos|apply Z.div_lt_upper_bound]; lia).
  destruct (Z.odd c); [|done]. apply Zlxor_bound; [lia|done|unfold crc_poly; lia].
Qed.

Lemma crc_iter_range n c : 0 <= c < 2 ^ 32 -> 0 <= Nat.iter n crc_bit c < 2 ^ 32.
Proof. induction n; simpl; auto using crc_bit_range. Qed.

Lemma crc_byte_range c b : 0 <= c < 2 ^ 32 -> 0 <= crc_byte c b < 2 ^ 32.
Proof.
  intros H. apply crc_iter_range, Zlxor_bound; [lia|done|].
  pose proof (byteZ_range b). lia.
Qed.

Lemma crc_fold_range p c :
  0 <= c < 2 ^ 32 -> 0 <= fold_left crc_byte p c < 2 ^ 32.
Proof. revert c. induction p; simpl; auto using crc_byte_range. Qed.

Lemma ChecksumIEEE_range p : 0 <= ChecksumIEEE p < 2 ^ 32.
Proof. apply Zlxor_bound; [lia|apply crc_fold_range; lia|lia]. Qed.

(** ** Decoding what was encoded *)

(** Reading the next field of a payload whose unread part starts with [b]. *)
Lemma sub_step (p b c : bytes) off n :
  0 <= off <= len p -> drop (Z.to_nat off) p = b ++ c -> n = len b ->
  sub p off n = b /\ drop (Z.to_nat (off + n)) p = c /\ 0 <= off + n <= len p.
Proof.
  intros Hoff H ->. pose proof (len_nonneg b). unfold sub. rewrite H. repeat split.
  - unfold len. rewrite Nat2Z.id. apply take_app_length.
  - rewrite Z2Nat.inj_add by lia. rewrite <- drop_drop, H.
    unfold len. rewrite Nat2Z.id. apply drop_app_length.
  - lia.
  - assert (length (drop (Z.to_nat off) p) = length (b ++ c)) as E by congruence.
    rewrite length_drop, length_app in E. unfold len in *. lia.
Qed.

Lemma le_value_single z : is_u8 z -> le_value [Zbyte z] = z.
Proof. unfold is_u8. intros. unfold le_value. rewrite byteZ_Zbyte, Z.mod_small; lia. Qed.

(** Decoding an encoded record gives it back, whatever bytes follow. *)
Lemma decode_encode_trail rec trail :
  wf_record rec -> decodePayload (encodePayload rec ++ trail) = Ok rec.
Proof.
  intros (Hpos & Hkind & Hexp & Hsize).
  pose proof (len_encode_parts rec) as (Hk & Hv & Hi).
  assert (Hkl : u32 (len (Key rec)) = len (Key rec))
    by (apply u32_small; unfold payload_size in Hsize; lia).
  assert (Hvl : u32 (len (Value rec)) = len (Value rec))
    by (apply u32_small; unfold payload_size in Hsize; lia).
  assert (Hil : u32 (len (IdempotencyKey rec)) = len (IdempotencyKey rec))
    by (apply u32_small; unfold payload_size in Hsize; lia).
  rewrite encodePayload_ref. unfold payload_ref.
  set (p := (_ ++ trail)). assert (Hp : drop (Z.to_nat 0) p = p) by done.
  unfold p in Hp at 2. rewrite <- !app_assoc in Hp.
  clearbody p. pose proof (len_nonneg p).
  edestruct (sub_step p _ _ 0 8 ltac:(lia) Hp ltac:(by rewrite len_le_bytes)) as (E1 & H1 & L1).
  edestruct (sub_step p _ _ _ 1 L1 H1 ltac:(done)) as (E2 & H2 & L2).
  edestruct (sub_step p _ _ _ 4 L2 H2 ltac:(by rewrite len_le_bytes)) as (E3 & H3 & L3).
  edestruct (sub_step p _ _ _ _ L3 H3 eq_refl) as (E4 & H4 & L4).
  edestruct (sub_step p _ _ _ 4 L4 H4 ltac:(by rewrite len_le_bytes)) as (E5 & H5 & L5).
  edestruct (sub_step p _ _ _ _ L5 H5 eq_refl) as (E6 & H6 & L6).
  edestruct (sub_step p _ _ _ 8 L6 H6 ltac:(by rewrite len_le_bytes)) as (E7 & H7 & L7).
  edestruct (sub_step p _ _ _ 4 L7 H7 ltac:(by rewrite len_le_bytes)) as (E8 & H8 & L8).
  edestruct (sub_step p _ _ _ _ L8 H8 eq_refl) as (E9 & H9 & L9).
  unfold payload_size in Hsize.
  assert (V3 : le_value (sub p 9 4) = len (Key rec))
    by (etransitivity; [apply f_equal, E3|rewrite Hkl; apply le_value_u32; lia]).
  assert (V5 : le_value (sub p (9 + 4 + len (Key rec)) 4) = len (Value rec))
    by (etransitivity; [apply f_equal, E5|rewrite Hvl; apply le_value_u32; lia]).
  assert (V8 : le_value (sub p (9 + 4 + len (Key rec) + 4 + len (Value rec) + 8) 4)
               = len (IdempotencyKey rec))
    by (etransitivity; [apply f_equal, E8|rewrite Hil; apply le_value_u32; lia]).
  unfold decodePayload. cbn zeta. rewrite V3, V5, V8.
  rewrite !(proj2 (Z.ltb_ge _ _)) by lia.
  change (0 + 8 + 1 + 4) with (9 + 4) in *. change (0 + 8) with 8 in *.
  rewrite E1, E2, E4, E6, E7, E9.
  rewrite le_value_u64, le_value_single, le_value_u64, i64_u64
    by (done || apply u64_range).
  by destruct rec.
Qed.

(** [io.ReadFull] of exactly the leading part. *)
Lemma ReadFull_app (a b : bytes) fault n :
  n = len a -> ReadFull (mkReader (a ++ b) fault) n = (Ok a, mkReader b fault).
Proof.
  intros ->. unfold ReadFull. cbn [r_rest r_fault].
  rewrite (proj2 (Z.leb_le _ _)) by (rewrite len_app; pose proof (len_nonneg b); lia).
  unfold len. by rewrite Nat2Z.id, take_app_length, drop_app_length.
Qed.

Lemma record_length_value rec :
  wf_record rec -> le_value (record_lenBuf rec) = len (record_body rec).
Proof.
  intros (_ & _ & _ & Hsize). pose proof (payload_size_pos rec).
  unfold record_lenBuf. rewrite len_record_body, u32_small by lia.
  apply le_value_u32. lia.
Qed.

(** [readRecord] on a file that continues with [frame rec] returns [rec], the
    frame's length, and leaves the reader just behind it. *)
Lemma readRecord_frame rec rest fault :
  wf_record rec ->
  readRecord (mkReader (frame rec ++ rest) fault)
  = (Ok (rec, len (frame rec)), mkReader rest fault).
Proof.
  intros Hwf. pose proof Hwf as (_ & _ & _ & Hsize).
  pose proof (payload_size_pos rec) as Hpos. pose proof (len_record_body rec) as Hbody.
  unfold readRecord, frame. rewrite <- app_assoc.
  rewrite ReadFull_app by (unfold record_lenBuf; by rewrite len_le_bytes).
  cbn zeta. rewrite record_length_value by done. rewrite ReadFull_app by done.
  rewrite (proj2 (Z.ltb_ge _ _)) by lia.
  rewrite len_app, Hbody.
  rewrite record_body_ref. set (p := encodePayload rec).
  replace (drop 4 (le_bytes 4 (ChecksumIEEE p) ++ p)) with p
    by (symmetry; apply (drop_app_length' _ _ 4); by rewrite length_le_bytes).
  replace (sub (le_bytes 4 (ChecksumIEEE p) ++ p) 0 4) with (le_bytes 4 (ChecksumIEEE p))
    by (symmetry; apply (sub_app_head []); by rewrite ?len_le_bytes).
  rewrite le_value_u32 by apply ChecksumIEEE_range. rewrite Z.eqb_refl. cbn [negb].
  replace (decodePayload p) with (@Ok decode_error _ rec)
    by (symmetry; rewrite <- (app_nil_r p); by apply decode_encode_trail).
  rewrite u32_small by lia. unfold record_lenBuf. by rewrite len_le_bytes.
Qed.

(** ** Truncated records *)

(** [io.ReadFull] of more bytes than the reader has left. *)
Lemma ReadFull_short (a : bytes) n :
  len a < n ->
  ReadFull (mkReader a None) n
  = (Err (match a with [] => EOF | _ => UnexpectedEOF end), mkReader [] None).
Proof.
  intros H. unfold ReadFull. cbn [r_rest r_fault].
  rewrite (proj2 (Z.leb_gt _ _)) by done. by destruct a.
Qed.

(** A file that ends inside a record reads as torn, and a file that ends on a
    record boundary reads as the end of the log. *)
Lemma readRecord_prefix rec k :
  wf_record rec -> (k < length (frame rec))%nat ->
  readRecord (mkReader (take k (frame rec)) None)
  = (Err (if (k =? 0)%nat then RecEOF else RecTorn), mkReader [] None).
Proof.
  intros Hwf Hk. unfold readRecord, frame in *.
  assert (Hlb : length (record_lenBuf rec) = 4%nat) by apply length_le_bytes.
  destruct (decide (k < 4)%nat) as [Hk4|Hk4].
  - rewrite take_app_le by lia.
    rewrite ReadFull_short by (unfold len; rewrite length_take; lia).
    destruct k as [|k]; [done|]. cbn [Nat.eqb].
    destruct (record_lenBuf rec); done.
  - rewrite take_app_ge by lia. rewrite Hlb.
    rewrite ReadFull_app by (unfold len; lia).
    cbn zeta. rewrite record_length_value by done.
    rewrite ReadFull_short
      by (rewrite length_app in Hk; unfold len; rewrite length_take; lia).
    rewrite (proj2 (Nat.eqb_neq _ _)) by lia. done.
Qed.

(** ** What the checksum detects *)

Lemma crc_poly_bit31 : Z.testbit crc_poly 31 = true.
Proof. reflexivity. Qed.

Lemma div2_bit31 c : 0 <= c < 2 ^ 32 -> Z.testbit (Z.div2 c) 31 = false.
Proof.
  intros H. destruct (Z.eq_dec (Z.div2 c) 0) as [->|Hne]; [done|].
  assert (0 <= Z.div2 c < 2 ^ 31).
  { rewrite Z.div2_div. split; [apply Z.div_pos|apply Z.div_lt_upper_bound]; lia. }
  apply Z.bits_above_log2; [lia|]. apply Z.log2_lt_pow2; lia.
Qed.

Lemma lxor_cancel_r a b c : Z.lxor a c = Z.lxor b c -> a = b.
Proof.
  intros H%(f_equal (fun x => Z.lxor x c)).
  by rewrite !Z.lxor_assoc, !Z.lxor_nilpotent, !Z.lxor_0_r in H.
Qed.

Lemma lxor_cancel_l a b c : Z.lxor c a = Z.lxor c b -> a = b.
Proof. rewrite !(Z.lxor_comm c). apply lxor_cancel_r. Qed.

(** One division step loses no information about the register. *)
Lemma crc_bit_inj c d :
  0 <= c < 2 ^ 32 -> 0 <= d < 2 ^ 32 -> crc_bit c = crc_bit d -> c = d.
Proof.
  intros Hc Hd. unfold crc_bit.
  rewrite (Z.div2_odd c) at 4. rewrite (Z.div2_odd d) at 4.
  pose proof (div2_bit31 c Hc). pose proof (div2_bit31 d Hd).
  destruct (Z.odd c), (Z.odd d); intros E; simpl Z.b2z.
  - apply lxor_cancel_r in E. by rewrite E.
  - apply (f_equal (fun z => Z.testbit z 31)) in E.
    rewrite Z.lxor_spec, crc_poly_bit31 in E.
    destruct (Z.testbit (Z.div2 c) 31), (Z.testbit (Z.div2 d) 31); done.
  - apply (f_equal (fun z => Z.testbit z 31)) in E.
    rewrite Z.lxor_spec, crc_poly_bit31 in E.
    destruct (Z.testbit (Z.div2 c) 31), (Z.testbit (Z.div2 d) 31); done.
  - by rewrite E.
Qed.

Lemma crc_iter_inj n c d :
  0 <= c < 2 ^ 32 -> 0 <= d < 2 ^ 32 ->
  Nat.iter n crc_bit c = Nat.iter n crc_bit d -> c = d.
Proof.
  intros Hc Hd. induction n as [|n IH]; simpl; [done|].
  intros E. apply IH, crc_bit_inj; auto using crc_iter_range.
Qed.

Lemma lxor_byte_range c b : 0 <= c < 2 ^ 32 -> 0 <= Z.lxor c (byteZ b) < 2 ^ 32.
Proof.
  intros. apply Zlxor_bound; [lia|done|]. pose proof (byteZ_range b). lia.
Qed.

Lemma crc_fold_inj p c d :
  0 <= c < 2 ^ 32 -> 0 <= d < 2 ^ 32 ->
  fold_left crc_byte p c = fold_left crc_byte p d -> c = d.
Proof.
  revert c d. induction p as [|b p IH]; simpl; [done|].
  intros c d Hc Hd E%IH; auto using crc_byte_range.
  apply crc_iter_inj in E; auto using lxor_byte_range.
  by apply lxor_cancel_r in E.
Qed.

(** Changing one byte of a message always changes its checksum. *)
Lemma ChecksumIEEE_byte (p q : bytes) x y :
  x <> y -> ChecksumIEEE (p ++ x :: q) <> ChecksumIEEE (p ++ y :: q).
Proof.
  intros Hne E. unfold ChecksumIEEE in E. apply lxor_cancel_r in E.
  rewrite !fold_left_app in E. simpl in E.
  set (c := fold_left crc_byte p _) in E.
  assert (Hc : 0 <= c < 2 ^ 32) by (apply crc_fold_range; lia).
  apply crc_fold_inj in E; auto using crc_byte_range.
  apply crc_iter_inj in E; auto using lxor_byte_range.
  apply lxor_cancel_l, byteZ_inj in E. done.
Qed.

(** ** Decoding is canonical *)

Lemma le_bytes_value bs : le_bytes (length bs) (le_value bs) = bs.
Proof.
  induction bs as [|b bs IH]; [done|].
  change (le_bytes (length (b :: bs)) (le_value (b :: bs)))
    with (Zbyte (byteZ b + 256 * le_value bs)
          :: le_bytes (length bs) ((byteZ b + 256 * le_value bs) / 256)).
  pose proof (byteZ_range b).
  assert ((byteZ b + 256 * le_value bs) / 256 = le_value bs) as ->.
  { rewrite Z.mul_comm, Z.div_add, Z.div_small by lia. lia. }
  rewrite IH. f_equal. apply byteZ_inj. rewrite byteZ_Zbyte.
  rewrite Z.mul_comm, Z.mod_add, Z.mod_small by lia. done.
Qed.

Lemma length_sub p off n :
  0 <= off -> 0 <= n -> off + n <= len p -> length (sub p off n) = Z.to_nat n.
Proof.
  intros. unfold sub, len in *. rewrite length_take, length_drop. lia.
Qed.

Lemma drop_sub p off n :
  0 <= off -> 0 <= n ->
  drop (Z.to_nat off) p = sub p off n ++ drop (Z.to_nat (off + n)) p.
Proof.
  intros. unfold sub. rewrite Z2Nat.inj_add, <- drop_drop by done.
  by rewrite take_drop.
Qed.

Lemma sub_le_bytes p off n :
  0 <= off -> off + Z.of_nat n <= len p ->
  le_bytes n (le_value (sub p off (Z.of_nat n))) = sub p off (Z.of_nat n).
Proof.
  intros. rewrite <- le_bytes_value. f_equal. rewrite length_sub; lia.
Qed.

Lemma sub_value_range p off n :
  0 <= off -> 0 <= n -> off + n <= len p -> 0 <= le_value (sub p off n) < 256 ^ n.
Proof.
  intros. pose proof (le_value_range (sub p off n)) as R. unfold len in R at 1.
  rewrite length_sub, Z2Nat.id in R by done. done.
Qed.

Lemma u64_i64 z : is_u64 z -> u64 (i64 z) = z.
Proof.
  unfold is_u64, u64, i64. intros H.
  rewrite Zminus_mod_idemp_l. rewrite Z.mod_small; lia.
Qed.

(** Every payload the decoder accepts starts with the encoding of its result. *)
Lemma decodePayload_canonical p rec :
  decodePayload p = Ok rec ->
  is_u64 (CommitPosition rec) /\ is_u8 (Kind rec) /\ is_i64 (ExpiresAtUnixNano rec) /\
  exists trail, p = encodePayload rec ++ trail.
Proof.
  unfold decodePayload. cbn zeta.
  repeat (case_goal; [discriminate|]). bool_prop.
  intros [= <-]. cbn [CommitPosition Kind ExpiresAtUnixNano].
  set (kl := le_value (sub p 9 4)) in *.
  set (vl := le_value (sub p (9 + 4 + kl) 4)) in *.
  set (il := le_value (sub p (9 + 4 + kl + 4 + vl + 8) 4)) in *.
  assert (Rk : 0 <= kl < 256 ^ 4) by (apply sub_value_range; lia).
  assert (Rv : 0 <= vl < 256 ^ 4) by (apply sub_value_range; lia).
  assert (Ri : 0 <= il < 256 ^ 4) by (apply sub_value_range; lia).
  pose proof (sub_value_range p 0 8 ltac:(lia) ltac:(lia) ltac:(lia)) as Rp.
  pose proof (sub_value_range p 8 1 ltac:(lia) ltac:(lia) ltac:(lia)) as Rb.
  split; [exact Rp|]. split; [exact Rb|]. split; [apply i64_range|].
  exists (drop (Z.to_nat (9 + 4 + kl + 4 + vl + 8 + 4 + il)) p).
  rewrite encodePayload_ref. unfold payload_ref.
  cbn [CommitPosition Kind Key Value ExpiresAtUnixNano IdempotencyKey].
  assert (L : forall off n, 0 <= off -> 0 <= n -> off + n <= len p -> len (sub p off n) = n)
    by (intros; unfold len at 1; rewrite length_sub, Z2Nat.id by done; done).
  rewrite !L by lia. rewrite !u32_small by lia.
  rewrite u64_i64 by (apply (sub_value_range p _ 8); lia).
  change 8%nat with (Z.to_nat 8). change 4%nat with (Z.to_nat 4).
  assert (B : forall off n, 0 <= off -> 0 <= n -> off + n <= len p ->
              le_bytes (Z.to_nat n) (le_value (sub p off n)) = sub p off n).
  { intros. rewrite <- (le_bytes_value (sub p off n)) at 2. f_equal.
    by rewrite length_sub by done. }
  assert (le_bytes (Z.to_nat 4) kl = sub p 9 4) as -> by (apply B; lia).
  assert (le_bytes (Z.to_nat 4) vl = sub p (9 + 4 + kl) 4) as -> by (apply B; lia).
  assert (le_bytes (Z.to_nat 4) il = sub p (9 + 4 + kl + 4 + vl + 8) 4) as ->
    by (apply B; lia).
  rewrite !B by lia.
  replace [Zbyte (le_value (sub p 8 1))] with (sub p 8 1) by (symmetry; apply (B 8 1); lia).
  rewrite <- !app_assoc.
  rewrite <- !drop_sub by lia.
  done.
Qed.

(** ** A damaged payload byte *)

Lemma readRecord_flipped rec pre x y post rest fault :
  wf_record rec -> encodePayload rec = pre ++ x :: post -> x <> y ->
  exists got want,
    fst (readRecord (mkReader (record_lenBuf rec
           ++ (le_bytes 4 (ChecksumIEEE (encodePayload rec)) ++ pre ++ y :: post)
           ++ rest) fault))
    = Err (RecChecksum got want).
Proof.
  intros Hwf Hp Hne.
  set (q := pre ++ y :: post). set (b := le_bytes 4 _ ++ q).
  assert (Hlen : len b = len (record_body rec)).
  { subst b q. rewrite record_body_ref, Hp.
    autorewrite with uddp_len. lia. }
  pose proof (payload_size_pos rec). pose proof (len_record_body rec).
  unfold readRecord. rewrite ReadFull_app by (unfold record_lenBuf; by rewrite len_le_bytes).
  cbn zeta. rewrite record_length_value, <- Hlen, ReadFull_app by done.
  rewrite (proj2 (Z.ltb_ge _ _)) by lia.
  replace (drop 4 b) with q
    by (symmetry; apply (drop_app_length' _ _ 4); by rewrite length_le_bytes).
  replace (sub b 0 4) with (le_bytes 4 (ChecksumIEEE (encodePayload rec)))
    by (symmetry; apply (sub_app_head []); by rewrite ?len_le_bytes).
  rewrite le_value_u32 by apply ChecksumIEEE_range.
  rewrite (proj2 (Z.eqb_neq _ _))
    by (rewrite Hp; apply not_eq_sym, ChecksumIEEE_byte; done).
  cbn [negb]. eauto.
Qed.

(** ** Properties *)

(** C25: a record whose fields fit their types and whose frame fits the 32-bit
    length prefix is read back from the bytes [Append] writes for it, with the
    number of bytes consumed, whatever follows it in the file. *)
Theorem record_roundtrip rec rest fault :
  wf_record rec ->
  decodePayload (encodePayload rec) = Ok rec /\
  readRecord (mkReader (frame rec ++ rest) fault)
  = (Ok (rec, len (frame rec)), mkReader rest fault).
Proof.
  intros Hwf. split; [|by apply readRecord_frame].
  rewrite <- (app_nil_r (encodePayload rec)). by apply decode_encode_trail.
Qed.

Definition sample_record : WalRecord :=
  mkRecord 3 KindPut ($"session:1") ($"online") 1700000000 ($"req-1").

Lemma record_roundtrip_witness :
  wf_record sample_record /\
  readRecord (mkReader (frame sample_record ++ $"tail") None)
  = (Ok (sample_record, len (frame sample_record)), mkReader ($"tail") None).
Proof.
  assert (H : wf_record sample_record) by by_decide.
  split; [exact H|]. exact (proj2 (record_roundtrip sample_record ($"tail") None H)).
Defined.

(** The encoding is canonical: a payload the decoder accepts begins with
    the encoding of the decoded record, whose fields are in their types'
    ranges; so two different records never share an accepted payload. *)
Theorem decode_canonical p rec :
  decodePayload p = Ok rec ->
  is_u64 (CommitPosition rec) /\ is_u8 (Kind rec) /\ is_i64 (ExpiresAtUnixNano rec) /\
  exists trail, p = encodePayload rec ++ trail.
Proof. apply decodePayload_canonical. Qed.

Lemma decode_canonical_witness :
  exists trail, encodePayload sample_record ++ $"x" = encodePayload sample_record ++ trail.
Proof.
  exact (proj2 (proj2 (proj2
    (decode_canonical (encodePayload sample_record ++ $"x") sample_record eq_refl)))).
Defined.

(** A log that ends inside a record is reported as torn (and only a log
    that ends exactly on a record boundary as ended): no strict prefix of a
    frame is ever read as a record. *)
Theorem torn_record rec k :
  wf_record rec -> (k < length (frame rec))%nat ->
  fst (readRecord (mkReader (take k (frame rec)) None))
  = Err (if (k =? 0)%nat then RecEOF else RecTorn).
Proof. intros Hwf Hk. by rewrite readRecord_prefix. Qed.

Lemma torn_record_witness :
  fst (readRecord (mkReader (take 11 (frame sample_record)) None)) = Err RecTorn.
Proof.
  refine (torn_record sample_record 11 _ _);
    by_decide.
Defined.

(** Changing any one byte of a record's payload on disk is detected: the
    record is rejected with a checksum mismatch, never decoded. *)
Theorem checksum_detects_byte rec pre x y post rest fault :
  wf_record rec -> encodePayload rec = pre ++ x :: post -> x <> y ->
  exists got want,
    fst (readRecord (mkReader (record_lenBuf rec
           ++ (le_bytes 4 (ChecksumIEEE (encodePayload rec)) ++ pre ++ y :: post)
           ++ rest) fault))
    = Err (RecChecksum got want).
Proof. apply readRecord_flipped. Qed.

Lemma checksum_detects_byte_witness :
  exists got want,
    fst (readRecord (mkReader (record_lenBuf sample_record
           ++ (le_bytes 4 (ChecksumIEEE (encodePayload sample_record))
               ++ [] ++ x04 :: drop 1 (encodePayload sample_record))
           ++ []) None))
    = Err (RecChecksum got want).
Proof.
  refine (checksum_detects_byte sample_record [] x03 x04 _ [] None _ _ _).
  - by_decide.
  - by vm_compute.
  - discriminate.
Defined.
