(* ===== verification/Wal.v ===== *)
(** * The write-ahead log (internal/wal/wal.go, second half)

    The file and [bufio.Writer] the log writes through, [Open] with
    [ensureHeader] and [recover_], [Append] as its critical sections, and
    [ReadRange], [LastCommitPosition] and [Close].  A sequential call of [Append]
    is the composition of the sections; the interleaved runs are in GroupCommit. *)

From Stdlib Require Import ZArith Lia.
From S2P Require Import Prelude WalFormat.

(** ** Files *)

(** A file as the program sees it.  [f_synced] bytes of [f_data] are on stable
    storage.  The other fields are the environment: a position whose read fails,
    and the outcomes of the coming [Write] calls (a failing one writes only the
    given number of bytes) and of the coming calls of the other system calls;
    an exhausted script means success. *)
Record File := mkFile {
  f_data : bytes;
  f_synced : nat;
  f_closed : bool;
  f_bad : option (nat * oserr);
  f_writes : list (option (nat * oserr));
  f_sys : list (option oserr)
}.

Definition errClosed : oserr := $"file already closed".

Definition file_with_data (f : File) (d : bytes) (synced : nat) : File :=
  mkFile d synced (f_closed f) (f_bad f) (f_writes f) (f_sys f).

(** The next system call without a payload: its error, if any. *)
Definition syscall : GoM File (option oserr) := fun f =>
  if f_closed f then (f, Ret (Some errClosed)) else
  (mkFile (f_data f) (f_synced f) (f_closed f) (f_bad f) (f_writes f) (tail (f_sys f)),
   Ret (match f_sys f with Some e :: _ => Some e | _ => None end)).

(** [File.Write] at the end of the file. *)
Definition File_Write (p : bytes) : GoM File (nat * option oserr) := fun f =>
  if f_closed f then (f, Ret (0%nat, Some errClosed)) else
  let after d := mkFile d (f_synced f) (f_closed f) (f_bad f) (tail (f_writes f)) (f_sys f) in
  match f_writes f with
  | Some (n, e) :: _ =>
    let k := Nat.min n (length p) in
    (after (f_data f ++ take k p), Ret (k, Some e))
  | _ => (after (f_data f ++ p), Ret (length p, None))
  end.

(** [File.Sync], called when the file held [covered] bytes: on success at least
    those are on stable storage. *)
Definition File_Sync (covered : nat) : GoM File (option oserr) :=
  e ← syscall;
  match e with
  | Some e => mret (Some e)
  | None =>
    _ ← modify (fun f => file_with_data f (f_data f) (Nat.max (f_synced f) covered));
    mret None
  end.

Definition File_Truncate (n : Z) : GoM File (option oserr) :=
  e ← syscall;
  match e with
  | Some e => mret (Some e)
  | None =>
    _ ← modify (fun f => file_with_data f (take (Z.to_nat n) (f_data f))
                           (Nat.min (f_synced f) (Z.to_nat n)));
    mret None
  end.

(** The file is closed also when the system call reports an error. *)
Definition File_Close : GoM File (option oserr) :=
  e ← syscall;
  _ ← modify (fun f => mkFile (f_data f) (f_synced f) true (f_bad f) (f_writes f) (f_sys f));
  mret e.

(** A reader of the file from position [off] to its end. *)
Definition reader_at (f : File) (off : Z) : reader :=
  let rest := drop (Z.to_nat off) (f_data f) in
  match f_bad f with
  | Some (k, e) =>
    if (off <=? Z.of_nat k) && (Z.of_nat k <? len (f_data f))
    then mkReader (take (k - Z.to_nat off) rest) (Some e)
    else mkReader rest None
  | None => mkReader rest None
  end.

(** [File.ReadAt] of [n] bytes: a short read reports [io.EOF]. *)
Definition File_ReadAt (f : File) (off n : Z) : result read_error bytes :=
  match (ReadFull (reader_at f off) n).1 with
  | Err UnexpectedEOF => Err EOF
  | r => r
  end.

(** ** [bufio.Writer] *)

Definition bufSize : Z := 4096.

Record Writer := mkWriter { b_buf : bytes; b_err : option oserr }.

(** [Writer.Flush]: a failed write keeps the unwritten bytes and the error. *)
Definition bufio_Flush : GoM (File * Writer) (option oserr) := fun '(f, b) =>
  match b_err b with
  | Some e => (f, b, Ret (Some e))
  | None =>
    match b_buf b with
    | [] => (f, b, Ret None)
    | buf =>
      match File_Write buf f with
      | (f, Ret (n, Some e)) => (f, mkWriter (drop n buf) (Some e), Ret (Some e))
      | (f, Ret (n, None)) => (f, mkWriter [] None, Ret None)
      | (f, _) => (f, b, Blocked)
      end
    end
  end.

(** One turn of the loop of [Writer.Write], taken while the bytes left exceed
    the free space: a direct write when nothing is buffered, else fill the
    buffer and flush it.  Returns the bytes left. *)
Definition bufio_turn (p : bytes) : GoM (File * Writer) bytes := fun '(f, b) =>
  match b_buf b with
  | [] =>
    match File_Write p f with
    | (f, Ret (n, e)) => (f, mkWriter [] e, Ret (drop n p))
    | (f, _) => (f, b, Blocked)
    end
  | buf =>
    let n := Z.to_nat (bufSize - len buf) in
    let '(fb, _) := bufio_Flush (f, mkWriter (buf ++ take n p) None) in
    (fb, Ret (drop n p))
  end.

(** [for len(p) > b.Available() && b.err == nil] *)
Fixpoint bufio_loop (fuel : nat) (p : bytes) : GoM (File * Writer) bytes := fun '(f, b) =>
  if (bufSize - len (b_buf b) <? len p) && bool_decide (b_err b = None) then
    match fuel with
    | O => (f, b, Blocked)
    | S fuel => (p ← bufio_turn p; bufio_loop fuel p) (f, b)
    end
  else (f, b, Ret p).

(** [Writer.Write]; a full buffer is flushed and the rest written directly, so
    the loop takes at most two turns. *)
Definition bufio_Write (p : bytes) : GoM (File * Writer) (option oserr) :=
  p ← bufio_loop 2 p;
  '(f, b) ← get_state;
  match b_err b with
  | Some e => mret (Some e)
  | None => _ ← modify (fun '(f, b) => (f, mkWriter (b_buf b ++ p) None)); mret None
  end.

(** ** The WAL *)

Inductive append_error :=
| WriteLength (e : oserr) | WriteBody (e : oserr)
| FlushFailed (e : oserr) | FsyncFailed (e : oserr).

#[export] Instance append_error_eq_dec : EqDecision append_error.
Proof. solve_decision. Defined.

(** [err.Error()] of an append error. *)
Definition append_error_msg (e : append_error) : bytes :=
  match e with
  | WriteLength e => $"wal: write length: " ++ e
  | WriteBody e => $"wal: write body: " ++ e
  | FlushFailed e => $"wal: flush: " ++ e
  | FsyncFailed e => $"wal: fsync: " ++ e
  end.

Record WAL := mkWAL {
  w_path : bytes;
  w_file : File;
  w_w : Writer;
  w_next : Z;
  w_byteOffsets : list Z;
  w_pendingSeq : Z;
  w_flushedSeq : Z;
  w_flushErr : option append_error;
  w_leading : bool;
  w_writeOffset : Z
}.

Definition io_of (w : WAL) : File * Writer := (w_file w, w_w w).
Definition set_io (w : WAL) (fb : File * Writer) : WAL :=
  mkWAL (w_path w) fb.1 fb.2 (w_next w) (w_byteOffsets w) (w_pendingSeq w)
    (w_flushedSeq w) (w_flushErr w) (w_leading w) (w_writeOffset w).
Definition set_file (w : WAL) (f : File) : WAL := set_io w (f, w_w w).
(** [w.next++] *)
Definition bump_next (w : WAL) : WAL :=
  mkWAL (w_path w) (w_file w) (w_w w) (u64 (w_next w + 1)) (w_byteOffsets w)
    (w_pendingSeq w) (w_flushedSeq w) (w_flushErr w) (w_leading w) (w_writeOffset w).
(** The bookkeeping behind a buffered record of [n] bytes. *)
Definition note_buffered (w : WAL) (n : Z) : WAL :=
  mkWAL (w_path w) (w_file w) (w_w w) (w_next w)
    (w_byteOffsets w ++ [w_writeOffset w]) (u64 (w_pendingSeq w + 1)) (w_flushedSeq w)
    (w_flushErr w) (w_leading w) (i64 (w_writeOffset w + n)).
Definition set_group (w : WAL) (flushed : Z) (err : option append_error) (lead : bool) : WAL :=
  mkWAL (w_path w) (w_file w) (w_w w) (w_next w) (w_byteOffsets w)
    (w_pendingSeq w) flushed err lead (w_writeOffset w).

(** ** [Open] *)

Inductive open_error :=
| OpenFailed (e : oserr) | StatFailed (e : oserr)
| WriteHeader (e : oserr) | SyncHeader (e : oserr)
| ReadHeader (e : read_error) | BadMagic | UnsupportedVersion (v : Z)
| SeekPastHeader (e : oserr) | TruncateTornTail (e : oserr)
| CorruptRecord (offset : Z) (e : record_error)
| NonMonotonic (offset got want : Z)
| ReplayFailed (pos : Z) (e : oserr)
| SeekEnd (e : oserr).

(** The header of a fresh log. *)
Definition walHeader : bytes := walMagic ++ [Zbyte currentFormatVersion].

Definition ensureHeader : GoM File (result open_error unit) :=
  e ← syscall;                                            (* f.Stat() *)
  match e with Some e => mret (Err (StatFailed e)) | None =>
  f ← get_state;
  if len (f_data f) =? 0 then
    '(_, e) ← File_Write walHeader;                       (* f.WriteAt(header, 0) *)
    match e with Some e => mret (Err (WriteHeader e)) | None =>
    f ← get_state;
    e ← File_Sync (length (f_data f));
    match e with Some e => mret (Err (SyncHeader e)) | None => mret (Ok tt) end
    end
  else
    match File_ReadAt f 0 headerSize with                 (* f.ReadAt(header, 0) *)
    | Err e => mret (Err (ReadHeader e))
    | Ok header =>
      if bool_decide (take 4 header <> walMagic) then mret (Err BadMagic) else
      let version := le_value (drop 4 header) in
      if negb (version =? currentFormatVersion) then mret (Err (UnsupportedVersion version))
      else mret (Ok tt)
    end
  end.

(** The [replay] callback of [Open]: a store's code that folds one recovered
    record into the state it rebuilds. *)
Definition replayer (S : Type) : Type := S -> WalRecord -> go (result oserr S).

(** The loop of [recover_]; every turn that goes on consumes at least four
    bytes of the reader. *)
Fixpoint recover_loop {S} (fuel : nat) (replay : option (replayer S))
    (r : reader) (next offset : Z) (byteOffsets : list Z) (s : S)
    : GoM File (result open_error (Z * list Z * S)) :=
  match fuel with
  | O => fun f => (f, Blocked)
  | Datatypes.S fuel =>
    match readRecord r with
    | (Err RecEOF, _) => mret (Ok (next, byteOffsets, s))
    | (Err RecTorn, _) =>
      e ← File_Truncate offset;
      match e with
      | Some e => mret (Err (TruncateTornTail e))
      | None => mret (Ok (next, byteOffsets, s))
      end
    | (Err e, _) => mret (Err (CorruptRecord offset e))
    | (Ok (rec, n), r) =>
      if negb (CommitPosition rec =? next)
      then mret (Err (NonMonotonic offset (CommitPosition rec) next))
      else
        s' ← match replay with
             | None => mret (Ok s)
             | Some replay => lift_go (replay s rec)
             end;
        match s' with
        | Err e => mret (Err (ReplayFailed (CommitPosition rec) e))
        | Ok s => recover_loop fuel replay r (u64 (next + 1)) (i64 (offset + n))
                    (byteOffsets ++ [offset]) s
        end
    end
  end.

Definition recover_ {S} (replay : option (replayer S)) (s : S)
    : GoM File (result open_error (Z * list Z * S)) :=
  e ← syscall;                                            (* f.Seek(headerSize, SeekStart) *)
  match e with Some e => mret (Err (SeekPastHeader e)) | None =>
  f ← get_state;
  recover_loop (Datatypes.S (length (f_data f))) replay (reader_at f headerSize) 1
    headerSize [] s
  end.

(** The file at [path] is the state; a missing file is an empty one. *)
Definition Open {S} (path : bytes) (replay : option (replayer S)) (s : S)
    : GoM File (result open_error (WAL * S)) :=
  e ← syscall;                                            (* os.OpenFile *)
  match e with Some e => mret (Err (OpenFailed e)) | None =>
  h ← ensureHeader;
  match h with Err e => mret (Err e) | Ok _ =>
  r ← recover_ replay s;
  match r with Err e => mret (Err e) | Ok (next, byteOffsets, s) =>
  e ← syscall;                                            (* f.Seek(0, SeekEnd) *)
  match e with Some e => mret (Err (SeekEnd e)) | None =>
  f ← get_state;
  mret (Ok (mkWAL path f (mkWriter [] None) next byteOffsets 0 0 None false
              (len (f_data f)), s))
  end end end end.

Definition Path (w : WAL) : bytes := w_path w.

(** ** [Append], section by section *)

(** Where a goroutine inside [Append] is while it does not hold the mutex. *)
Inductive pc :=
| Waiting (mySeq pos : Z)                       (* follower, in [cond.Wait] *)
| Syncing (flushSeq pos : Z) (covered : nat)    (* leader, in [file.Sync] *)
| Synced (flushSeq pos : Z) (syncErr : option oserr)  (* leader, about to relock *)
| Returned (r : result append_error Z).

(** The top of the leader's loop: flush the buffer, then go on to the sync. *)
Definition leader_flush (pos : Z) (w : WAL) : WAL * pc :=
  let flushSeq := w_pendingSeq w in
  match bufio_Flush (io_of w) with
  | (fb, Ret (Some e)) =>
    (set_group (set_io w fb) (w_pendingSeq w) (Some (FlushFailed e)) false,
     Returned (Err (FlushFailed e)))
  | (fb, _) => (set_io w fb, Syncing flushSeq pos (length (f_data fb.1)))
  end.

(** From the lock to the first point the mutex is released. *)
Definition append_enter (rec : WalRecord) (w : WAL) : WAL * pc :=
  let rec := set_pos rec (w_next w) in
  let w := bump_next w in
  let body := record_body rec in
  let lenBuf := record_lenBuf rec in
  match bufio_Write lenBuf (io_of w) with
  | (fb, Ret (Some e)) => (set_io w fb, Returned (Err (WriteLength e)))
  | (fb, _) =>
    let w := set_io w fb in
    match bufio_Write body (io_of w) with
    | (fb, Ret (Some e)) => (set_io w fb, Returned (Err (WriteBody e)))
    | (fb, _) =>
      let w := note_buffered (set_io w fb) (len lenBuf + len body) in
      let mySeq := w_pendingSeq w in
      if w_leading w then (w, Waiting mySeq (CommitPosition rec))
      else leader_flush (CommitPosition rec)
             (set_group w (w_flushedSeq w) (w_flushErr w) true)
    end
  end.

(** After [file.Sync] returned [syncErr] and the mutex is taken again. *)
Definition leader_synced (flushSeq pos : Z) (syncErr : option oserr) (w : WAL) : WAL * pc :=
  match syncErr with
  | Some e =>
    (set_group w (w_pendingSeq w) (Some (FsyncFailed e)) false,
     Returned (Err (FsyncFailed e)))
  | None =>
    if w_pendingSeq w =? flushSeq
    then (set_group w flushSeq None false, Returned (Ok pos))
    else leader_flush pos (set_group w flushSeq None true)
  end.

(** A woken follower: leaves the wait loop once its record is covered. *)
Definition follower_wake (mySeq pos : Z) (w : WAL) : pc :=
  if w_flushedSeq w <? mySeq then Waiting mySeq pos
  else Returned (match w_flushErr w with Some e => Err e | None => Ok pos end).

(** [file.Sync] of a leader, run while others may hold the mutex. *)
Definition wal_sync (covered : nat) (w : WAL) : WAL * option oserr :=
  match File_Sync covered (w_file w) with
  | (f, Ret e) => (set_file w f, e)
  | (f, _) => (set_file w f, None)
  end.

(** [Append] called while no other goroutine is inside the log: a leader runs
    its sync and the section behind it; a follower would wait for a leader that
    does not exist. *)
Definition Append (rec : WalRecord) : GoM WAL (result append_error Z) := fun w =>
  match append_enter rec w with
  | (w, Returned r) => (w, Ret r)
  | (w, Waiting mySeq pos) =>
    match follower_wake mySeq pos w with
    | Returned r => (w, Ret r)
    | _ => (w, Blocked)
    end
  | (w, Synced _ _ _) => (w, Blocked)    (* not a place [append_enter] stops at *)
  | (w, Syncing flushSeq pos covered) =>
    let '(w, syncErr) := wal_sync covered w in
    match leader_synced flushSeq pos syncErr w with
    | (w, Returned r) => (w, Ret r)
    | (w, _) => (w, Blocked)
    end
  end.

(** ** [ReadRange], [LastCommitPosition], [Close] *)

Inductive range_error := RangeStat (e : oserr) | RangeRead (pos : Z) (e : record_error).

Fixpoint read_range_loop (limit : nat) (from : Z) (r : reader) (acc : list WalRecord)
    : list WalRecord * option range_error :=
  match limit with
  | O => (acc, None)
  | S limit =>
    match readRecord r with
    | (Err RecEOF, _) | (Err RecTorn, _) => (acc, None)
    | (Err e, _) => (acc, Some (RangeRead (u64 (from + len acc)) e))
    | (Ok (rec, _), r) => read_range_loop limit from r (acc ++ [rec])
    end
  end.

(** [unsafe.Sizeof(Record{})] *)
Definition sizeofRecord : Z := 88.

(** [int(from-1)] converts an unsigned to a signed 64-bit integer; indexing a
    slice past its end panics, and so does a capacity that cannot be allocated. *)
Definition ReadRange (from limit : Z) : GoM WAL (list WalRecord * option range_error) :=
  w ← get_state;
  if (from <? 1) || (len (w_byteOffsets w) <=? i64 (from - 1)) || (limit <=? 0)
  then mret ([], None)
  else if len (w_byteOffsets w) <=? from - 1 then lift_go (Panic ($"index out of range"))
  else
    let startOffset := default 0 (w_byteOffsets w !! Z.to_nat (from - 1)) in
    e ← zoom w_file set_file syscall;                     (* w.file.Stat() *)
    match e with
    | Some e => mret ([], Some (RangeStat e))
    | None =>
      f ← gets w_file;
      if maxAlloc <? limit * sizeofRecord
      then lift_go (Panic ($"makeslice: cap out of range")) else
      mret (read_range_loop (Z.to_nat limit) from (reader_at f startOffset) [])
    end.

Definition LastCommitPosition (w : WAL) : Z := u64 (w_next w - 1).

Definition Close : GoM WAL (option oserr) :=
  w ← get_state;
  if w_leading w then lift_go Blocked else
  e ← zoom io_of set_io bufio_Flush;
  match e with
  | Some e => mret (Some e)
  | None => zoom w_file set_file File_Close
  end.

(** ** Crashes *)

(** What a crash leaves of a file: the synced part, and of the bytes written
    behind it a prefix the storage happened to keep. *)
Definition crash (k : nat) (f : File) : File :=
  mkFile (take k (f_data f)) (Nat.min (f_synced f) k) false None [] [].

Definition emptyFile : File := mkFile [] 0 false None [] [].
