(* ===== verification/WalInvariant.v ===== *)
(** * The log's invariant and its preservation

    A ghost list holds the records ever handed to the stream.  The invariant
    says the bytes in the file and in the write buffer are that list's frames
    behind the header, in commit order, and that the in-memory bookkeeping
    (next position, record offsets, write offset) describes them.  A failed
    write leaves a prefix of the stream and stops every later write. *)

From Stdlib Require Import ZArith Lia.
From S2P Require Import Prelude WalFormat Wal.

(** ** The stream a list of records stands for *)

Definition stream (h : list WalRecord) : bytes := walHeader ++ concat (frame <$> h).

#[global] Arguments stream : simpl never.
#[global] Arguments frame : simpl never.
#[global] Arguments record_body : simpl never.
#[global] Arguments record_lenBuf : simpl never.
#[global] Arguments len : simpl never.

(** The byte offset of each record of the stream. *)
Fixpoint offsets_from (o : Z) (h : list WalRecord) : list Z :=
  match h with
  | [] => []
  | r :: h => o :: offsets_from (o + len (frame r)) h
  end.

(** Commit positions count up from [n]. *)
Fixpoint numbered_from (n : Z) (h : list WalRecord) : Prop :=
  match h with
  | [] => True
  | r :: h => CommitPosition r = n /\ numbered_from (n + 1) h
  end.

(** A well-formed history: what a log may contain. *)
Definition wf_history (h : list WalRecord) : Prop :=
  numbered_from 1 h /\ Forall wf_record h /\ len (stream h) < 2 ^ 62 /\ len h < 2 ^ 62.

Lemma stream_nil : stream [] = walHeader.
Proof. apply app_nil_r. Qed.

Lemma stream_app h k : stream (h ++ k) = stream h ++ concat (frame <$> k).
Proof. unfold stream. by rewrite fmap_app, concat_app, app_assoc. Qed.

Lemma stream_snoc h r : stream (h ++ [r]) = stream h ++ frame r.
Proof. rewrite stream_app. cbn. by rewrite app_nil_r. Qed.

Lemma offsets_snoc o h r :
  offsets_from o (h ++ [r]) = offsets_from o h ++ [o + len (concat (frame <$> h))].
Proof.
  revert o. induction h as [|a h IH]; intros o; cbn.
  - f_equal. rewrite len_nil. lia.
  - rewrite IH. f_equal. f_equal. rewrite len_app. f_equal. lia.
Qed.

Lemma length_offsets o h : length (offsets_from o h) = length h.
Proof. revert o. induction h; intros; cbn; auto. Qed.

Lemma numbered_snoc n h r :
  numbered_from n (h ++ [r]) <-> numbered_from n h /\ CommitPosition r = n + len h.
Proof.
  revert n. induction h as [|a h IH]; intros n; cbn.
  - rewrite len_nil, Z.add_0_r. tauto.
  - rewrite IH, len_cons.
    assert (n + 1 + len h = n + (1 + len h)) as -> by lia. tauto.
Qed.

Lemma numbered_app n h k : numbered_from n (h ++ k) -> numbered_from n h.
Proof. revert n. induction h as [|a h IH]; cbn; [done|]. intros n [? ?]. eauto. Qed.

Lemma numbered_lookup n h i r :
  numbered_from n h -> h !! i = Some r -> CommitPosition r = n + Z.of_nat i.
Proof.
  revert n i. induction h as [|a h IH]; intros n [|i]; cbn; try done.
  - intros [H _] [= ->]. lia.
  - intros [_ H] Hi. rewrite (IH _ _ H Hi). lia.
Qed.

Lemma wf_history_app h k : wf_history (h ++ k) -> wf_history h.
Proof.
  intros (Hn & Hw & Hs & Hl). repeat split.
  - by eapply numbered_app.
  - by apply Forall_app in Hw as [? _].
  - rewrite stream_app, len_app in Hs.
    pose proof (len_nonneg (concat (frame <$> k))). lia.
  - rewrite len_app in Hl. pose proof (len_nonneg k). lia.
Qed.

Lemma wf_history_take n h : wf_history h -> wf_history (take n h).
Proof. rewrite <- (take_drop n h) at 1. apply wf_history_app. Qed.

Lemma wf_history_nil : wf_history [].
Proof. repeat split; try constructor; vm_compute; done. Qed.

(** ** The buffered writer never loses or reorders bytes *)

(** A write changes only the data and the write script. *)
Definition same_env (f f' : File) : Prop :=
  f_synced f' = f_synced f /\ f_closed f' = f_closed f /\ f_bad f' = f_bad f /\
  f_sys f' = f_sys f.

#[export] Instance same_env_preorder : PreOrder same_env.
Proof. split; unfold same_env; repeat intro; intuition congruence. Qed.

Lemma File_Write_spec f p :
  exists f' n e, File_Write p f = (f', Ret (n, e)) /\ same_env f f' /\
    f_data f' = f_data f ++ take n p /\ (e = None -> n = length p).
Proof.
  unfold File_Write. destruct (f_closed f) eqn:Hc.
  { exists f, 0%nat, (Some errClosed). split_and!; try done. by rewrite app_nil_r. }
  destruct (f_writes f) as [|[[n e]|] ws]; do 3 eexists;
    (split; [reflexivity|]); (split; [by split_and!|]); cbn; try done;
    by rewrite firstn_all.
Qed.

Lemma bufio_Flush_spec f b :
  b_err b = None ->
  exists f' b', bufio_Flush (f, b) = (f', b', Ret (b_err b')) /\ same_env f f' /\
    match b_err b' with
    | None => b_buf b' = [] /\ f_data f' = f_data f ++ b_buf b
    | Some _ => exists n, f_data f' = f_data f ++ take n (b_buf b)
    end.
Proof.
  intros Hb. unfold bufio_Flush. rewrite Hb.
  destruct (b_buf b) as [|x buf] eqn:E.
  - exists f, b. rewrite Hb. split_and!; try done. by rewrite app_nil_r.
  - destruct (File_Write_spec f (x :: buf)) as (f' & n & e & -> & He & Hd & Hn).
    destruct e as [e|].
    + exists f', (mkWriter (drop n (x :: buf)) (Some e)). split; [done|]. split; [done|]. by exists n.
    + exists f', (mkWriter [] None). split; [done|]. split; [done|]. split; [done|].
      by rewrite Hd, Hn, firstn_all.
Qed.

Lemma bufio_Flush_stuck f b e :
  b_err b = Some e -> bufio_Flush (f, b) = (f, b, Ret (Some e)).
Proof. intros H. unfold bufio_Flush. by rewrite H. Qed.

Lemma bufio_turn_spec f b p :
  b_err b = None -> len (b_buf b) <= bufSize -> bufSize - len (b_buf b) < len p ->
  exists f' b' q, bufio_turn p (f, b) = (f', b', Ret q) /\ same_env f f' /\
    (exists n, f_data f' = f_data f ++ take n (b_buf b ++ p)) /\
    (b_err b' = None -> b_buf b' = [] /\ f_data f' ++ q = f_data f ++ b_buf b ++ p /\
                        (b_buf b = [] -> q = [])).
Proof.
  intros Hb Hlen Hp. unfold bufio_turn. destruct (b_buf b) as [|x buf] eqn:E.
  - destruct (File_Write_spec f p) as (f' & n & e & -> & He & Hd & Hn).
    exists f', (mkWriter [] e), (drop n p). split; [done|]. split; [done|].
    split; [by exists n|]. cbn. intros ->.
    rewrite Hd, Hn, firstn_all, drop_all by done. by rewrite app_nil_r.
  - rewrite <- E in *. set (n := Z.to_nat (bufSize - len (b_buf b))).
    assert (Hn : take (length (b_buf b) + n) (b_buf b ++ p) = b_buf b ++ take n p).
    { rewrite take_app_ge by lia. do 2 f_equal. lia. }
    destruct (bufio_Flush_spec f (mkWriter (b_buf b ++ take n p) None) eq_refl)
      as (f' & b' & -> & He & Hd). cbn [b_buf] in Hd.
    exists f', b', (drop n p). split; [done|]. split; [done|]. destruct (b_err b').
    + split; [|done]. destruct Hd as [m Hd].
      exists (Nat.min m (length (b_buf b) + n)). rewrite Hd. f_equal.
      by rewrite <- Hn, take_take.
    + destruct Hd as [Hb' Hd]. split.
      * exists (length (b_buf b) + n)%nat. by rewrite Hd, Hn.
      * intros _. rewrite Hd. split; [done|]. split; [|congruence].
        by rewrite <- !app_assoc, take_drop.
Qed.

Lemma bufio_loop_done f b p fuel :
  len p <= bufSize - len (b_buf b) -> bufio_loop fuel p (f, b) = (f, b, Ret p).
Proof. intros Hp. destruct fuel; cbn; by rewrite (proj2 (Z.ltb_ge _ _)). Qed.

Lemma bufio_loop_stuck f b p fuel e :
  b_err b = Some e -> bufio_loop fuel p (f, b) = (f, b, Ret p).
Proof. intros Hb. destruct fuel; cbn; by rewrite Hb, andb_false_r. Qed.

Lemma bufio_loop_turn f b p fuel f' b' q :
  b_err b = None -> bufSize - len (b_buf b) < len p ->
  bufio_turn p (f, b) = (f', b', Ret q) ->
  bufio_loop (S fuel) p (f, b) = bufio_loop fuel q (f', b').
Proof.
  intros Hb Hp Ht. cbn [bufio_loop].
  rewrite (proj2 (Z.ltb_lt _ _)), Hb by done. cbn [andb].
  rewrite bool_decide_true by done. by apply bind_ret.
Qed.

(** [Writer.Write] either buffers everything, in order, or reports an error
    with a prefix of the pending bytes in the file. *)
Lemma bufio_Write_spec f b p :
  b_err b = None -> len (b_buf b) <= bufSize ->
  exists f' b', bufio_Write p (f, b) = (f', b', Ret (b_err b')) /\ same_env f f' /\
    (exists n, f_data f' = f_data f ++ take n (b_buf b ++ p)) /\
    (b_err b' = None -> f_data f' ++ b_buf b' = f_data f ++ b_buf b ++ p /\
                        len (b_buf b') <= bufSize).
Proof.
  intros Hb Hlen.
  destruct (decide (len p <= bufSize - len (b_buf b))) as [Hfit|Hfit].
  - (* fits the buffer *)
    unfold bufio_Write, mbind, GoM_bind.
    rewrite bufio_loop_done by done. cbn. rewrite Hb. cbn.
    exists f, (mkWriter (b_buf b ++ p) None). split; [done|]. split; [done|]. split.
    + exists 0%nat. by rewrite take_0, app_nil_r.
    + intros _. cbn. split; [by rewrite app_assoc|]. autorewrite with uddp_len. lia.
  - (* one turn of the loop *)
    destruct (bufio_turn_spec f b p Hb Hlen ltac:(lia))
      as (f1 & b1 & q1 & E1 & Henv1 & Hpre1 & H1).
    unfold bufio_Write, mbind, GoM_bind.
    rewrite (bufio_loop_turn f b p 1 f1 b1 q1 Hb ltac:(lia) E1).
    destruct (b_err b1) as [e1|] eqn:Eb1.
    { rewrite (bufio_loop_stuck _ _ _ _ e1) by done. cbn. rewrite Eb1.
      exists f1, b1. rewrite Eb1. by split_and!. }
    destruct (H1 eq_refl) as (Hb1 & Hd1 & Hq1).
    destruct (decide (len q1 <= bufSize)) as [Hfit1|Hfit1].
    { rewrite bufio_loop_done by (rewrite Hb1, len_nil; lia). cbn. rewrite Eb1, Hb1. cbn.
      exists f1, (mkWriter q1 None). split; [done|]. split; [done|]. split; [done|].
      intros _. cbn. by rewrite Hd1. }
    (* the buffer is empty and the rest is written directly *)
    destruct (bufio_turn_spec f1 b1 q1 Eb1 ltac:(rewrite Hb1; done)
                ltac:(rewrite Hb1, len_nil; lia))
      as (f2 & b2 & q2 & E2 & Henv2 & [n2 Hpre2] & H2).
    rewrite (bufio_loop_turn f1 b1 q1 0 f2 b2 q2 Eb1 ltac:(rewrite Hb1, len_nil; lia) E2).
    assert (Hpre : exists n, f_data f2 = f_data f ++ take n (b_buf b ++ p)).
    { destruct Hpre1 as [n1 Hpre1].
      exists (length (f_data f2) - length (f_data f))%nat.
      eapply prefix_app_take; [by rewrite Hpre2, Hpre1, <- app_assoc|].
      rewrite Hpre2, Hb1. cbn. rewrite <- Hd1. apply prefix_app, prefix_take. }
    destruct (b_err b2) as [e2|] eqn:Eb2.
    + rewrite (bufio_loop_stuck _ _ _ _ e2) by done. cbn. rewrite Eb2.
      exists f2, b2. rewrite Eb2. split; [done|]. split; [by etrans|]. done.
    + destruct (H2 eq_refl) as (Hb2 & Hd2 & Hq2). rewrite (Hq2 Hb1) in *.
      rewrite bufio_loop_done by (rewrite Hb2, !len_nil; done). cbn. rewrite Eb2, Hb2. cbn.
      exists f2, (mkWriter [] None).
      split; [done|]. split; [by etrans|]. split; [done|]. intros _. cbn.
      rewrite Hd2, Hb1. done.
Qed.

Lemma bufio_Write_stuck f b p e :
  b_err b = Some e -> bufio_Write p (f, b) = (f, b, Ret (Some e)).
Proof.
  intros Hb. unfold bufio_Write, mbind, GoM_bind.
  rewrite (bufio_loop_stuck _ _ _ _ e) by done. cbn. by rewrite Hb.
Qed.

(** ** The invariant *)

Record wal_inv (w : WAL) (h : list WalRecord) : Prop := {
  wi_hist : wf_history h;
  wi_header : (5 <= length (f_data (w_file w)))%nat;
  wi_synced : (f_synced (w_file w) <= length (f_data (w_file w)))%nat;
  wi_data : f_data (w_file w) `prefix_of` stream h;
  wi_ok : b_err (w_w w) = None ->
    f_data (w_file w) ++ b_buf (w_w w) = stream h /\ len (b_buf (w_w w)) <= bufSize /\
    w_next w = len h + 1 /\ w_writeOffset w = len (stream h) /\
    w_byteOffsets w = offsets_from headerSize h
}.

(** The record [Append] puts into the stream. *)
Definition committed (h : list WalRecord) (rec : WalRecord) : WalRecord :=
  set_pos rec (len h + 1).

Definition log_of (h : list WalRecord) (rec : WalRecord) : list WalRecord :=
  h ++ [committed h rec].

(** The record's fields fit their types and the log has room for it. *)
Definition append_ok (h : list WalRecord) (rec : WalRecord) : Prop :=
  wf_history (log_of h rec).

Lemma len_stream_snoc h r : len (stream (h ++ [r])) = len (stream h) + len (frame r).
Proof. by rewrite stream_snoc, len_app. Qed.

Lemma len_stream h : len (stream h) = 5 + len (concat (frame <$> h)).
Proof. unfold stream. rewrite len_app. reflexivity. Qed.

Lemma prefix_stream h r : stream h `prefix_of` stream (h ++ [r]).
Proof. rewrite stream_snoc. by apply prefix_app_r. Qed.

(** Bookkeeping after a record was buffered behind the stream of [h]. *)
Lemma note_buffered_ok h rec w :
  append_ok h rec -> w_next w = len h + 1 -> w_writeOffset w = len (stream h) ->
  w_byteOffsets w = offsets_from headerSize h ->
  let w' := note_buffered (bump_next w) (len (frame (committed h rec))) in
  w_next w' = len (log_of h rec) + 1 /\ w_writeOffset w' = len (stream (log_of h rec)) /\
  w_byteOffsets w' = offsets_from headerSize (log_of h rec).
Proof.
  intros (_ & _ & Hs & Hl) Hn Ho Hb. unfold log_of in *. cbn.
  rewrite Hn, Ho, Hb, len_stream_snoc, len_app, len_cons, len_nil.
  rewrite len_stream_snoc in Hs. rewrite len_app, len_cons, len_nil in Hl.
  pose proof (len_nonneg h). pose proof (len_nonneg (stream h)).
  pose proof (len_nonneg (frame (committed h rec))).
  repeat split.
  - rewrite u64_small by (unfold is_u64; lia). lia.
  - rewrite i64_small by (unfold is_i64; lia). lia.
  - rewrite offsets_snoc. by rewrite len_stream.
Qed.

(** The two writes of [Append] put exactly the record's frame behind the
    bytes already in the file and the buffer. *)
Lemma append_writes_spec f b rec :
  b_err b = None -> len (b_buf b) <= bufSize ->
  exists f' b' e, same_env f f' /\
    (exists n, f_data f' = f_data f ++ take n (b_buf b ++ frame rec)) /\
    match e with
    | Some e => b_err b' <> None
    | None => b_err b' = None /\ f_data f' ++ b_buf b' = f_data f ++ b_buf b ++ frame rec /\
              len (b_buf b') <= bufSize
    end /\
    ((exists f1 b1, bufio_Write (record_lenBuf rec) (f, b) = (f1, b1, Ret None) /\
        bufio_Write (record_body rec) (f1, b1) = (f', b', Ret e)) \/
     (e <> None /\ bufio_Write (record_lenBuf rec) (f, b) = (f', b', Ret e))).
Proof.
  intros Hb Hlen.
  destruct (bufio_Write_spec f b (record_lenBuf rec) Hb Hlen)
    as (f1 & b1 & E1 & Henv1 & [n1 Hp1] & Hok1).
  unfold frame. destruct (b_err b1) as [e1|] eqn:Eb1.
  - exists f1, b1, (Some e1). split; [done|]. split; [|split; [congruence|by right]].
    exists (Nat.min n1 (length (b_buf b ++ record_lenBuf rec))).
    rewrite Hp1. f_equal.
    rewrite app_assoc, (take_app_le (b_buf b ++ record_lenBuf rec)) by lia.
    by rewrite <- take_take, firstn_all.
  - destruct (Hok1 eq_refl) as (Hd1 & Hl1).
    destruct (bufio_Write_spec f1 b1 (record_body rec) Eb1 Hl1)
      as (f2 & b2 & E2 & Henv2 & [n2 Hp2] & Hok2).
    assert (Hall : f_data f1 ++ b_buf b1 ++ record_body rec
                   = f_data f ++ b_buf b ++ record_lenBuf rec ++ record_body rec).
    { rewrite (app_assoc (f_data f1)), Hd1. by rewrite <- !app_assoc. }
    exists f2, b2, (b_err b2). split; [by etrans|]. split; [|split].
    + exists (length (f_data f2) - length (f_data f))%nat.
      eapply prefix_app_take; [by rewrite Hp2, Hp1, <- app_assoc|].
      rewrite Hp2, <- Hall. apply prefix_app, prefix_take.
    + destruct (b_err b2); [done|]. destruct (Hok2 eq_refl). by rewrite <- Hall.
    + left. eauto.
Qed.

(** The leader's flush, from a state whose buffer is sound. *)
Lemma leader_flush_spec pos w h :
  wal_inv w h -> b_err (w_w w) = None ->
  exists w' p, leader_flush pos w = (w', p) /\ wal_inv w' h /\
    w_pendingSeq w' = w_pendingSeq w /\
    f_synced (w_file w') = f_synced (w_file w) /\
    f_sys (w_file w') = f_sys (w_file w) /\
    (length (f_data (w_file w)) <= length (f_data (w_file w')))%nat /\
    match p with
    | Syncing fs pos' cov =>
      fs = w_pendingSeq w /\ pos' = pos /\ cov = length (stream h) /\
      w_leading w' = w_leading w /\ w_flushedSeq w' = w_flushedSeq w /\
      w_flushErr w' = w_flushErr w /\
      b_err (w_w w') = None /\ b_buf (w_w w') = [] /\ f_data (w_file w') = stream h
    | Returned (Err (FlushFailed e)) =>
      w_leading w' = false /\ w_flushedSeq w' = w_pendingSeq w' /\
      w_flushErr w' = Some (FlushFailed e) /\ b_err (w_w w') <> None
    | _ => False
    end.
Proof.
  intros [Hh Hhd Hsy Hda Hok] Hb. destruct (Hok Hb) as (Hs & Hl & Hn & Ho & Hbo).
  unfold leader_flush, io_of.
  destruct (bufio_Flush_spec (w_file w) (w_w w) Hb) as (f' & b' & -> & Henv & Hd).
  destruct Henv as (Esy & _ & _ & Esys).
  destruct (b_err b') as [e|] eqn:Eb'.
  - destruct Hd as [n Hd].
    assert (Hp : f_data f' `prefix_of` stream h)
      by (rewrite Hd, <- Hs; apply prefix_app, prefix_take).
    do 2 eexists. split; [reflexivity|].
    split; [|split_and!; cbn; rewrite ?Eb', ?Hd, ?length_app; (done || lia)].
    split; cbn; try done.
    + rewrite Hd, length_app. lia.
    + rewrite Hd, Esy, length_app. lia.
    + rewrite Eb'. done.
  - destruct Hd as [Hbuf Hd]. rewrite Hs in Hd.
    assert (Hle : (length (f_data (w_file w)) <= length (stream h))%nat)
      by (rewrite <- Hs, length_app; lia).
    do 2 eexists. split; [reflexivity|]. cbn. rewrite Hd, Eb', Hbuf, Esy, Esys.
    split; [|by split_and!].
    split; cbn; try done.
    + rewrite Hd. lia.
    + rewrite Hd, Esy. lia.
    + by rewrite Hd.
    + intros _. rewrite Hd, Hbuf, app_nil_r. done.
Qed.

(** What [append_enter] guarantees at each point it can stop. *)
Definition enter_post (w w' : WAL) (h : list WalRecord) (p : pc) : Prop :=
  match p with
  | Waiting s pos =>
    w_leading w = true /\ w_leading w' = true /\
    w_pendingSeq w' = u64 (w_pendingSeq w + 1) /\ s = w_pendingSeq w' /\
    pos = len h + 1 /\ b_err (w_w w') = None /\
    w_flushedSeq w' = w_flushedSeq w /\ w_flushErr w' = w_flushErr w
  | Syncing fs pos cov =>
    w_leading w = false /\ w_leading w' = true /\
    w_pendingSeq w' = u64 (w_pendingSeq w + 1) /\ fs = w_pendingSeq w' /\
    pos = len h + 1 /\ b_err (w_w w') = None /\
    w_flushedSeq w' = w_flushedSeq w /\ w_flushErr w' = w_flushErr w /\
    cov = length (f_data (w_file w')) /\ b_buf (w_w w') = []
  | Returned (Err (FlushFailed e)) =>
    w_leading w = false /\ w_leading w' = false /\
    w_pendingSeq w' = u64 (w_pendingSeq w + 1) /\ w_flushedSeq w' = w_pendingSeq w' /\
    w_flushErr w' = Some (FlushFailed e) /\ b_err (w_w w') <> None
  | Returned (Err (FsyncFailed _)) | Returned (Ok _) | Synced _ _ _ => False
  | Returned (Err _) =>
    w_leading w' = w_leading w /\ w_pendingSeq w' = w_pendingSeq w /\
    w_flushedSeq w' = w_flushedSeq w /\ w_flushErr w' = w_flushErr w /\
    b_err (w_w w') <> None
  end.

(** A failed buffered write: the file holds a prefix of the longer stream. *)
Lemma failed_write_inv w w' h rec :
  wal_inv w h -> b_err (w_w w) = None -> append_ok h rec ->
  same_env (w_file w) (w_file w') -> b_err (w_w w') <> None ->
  (exists n, f_data (w_file w')
             = f_data (w_file w) ++ take n (b_buf (w_w w) ++ frame (committed h rec))) ->
  wal_inv w' (log_of h rec).
Proof.
  intros [Hh Hhd Hsy Hda Hok] Hb Hrec (Esy & _) Hb' [n Hd].
  destruct (Hok Hb) as (Hs & _). split; try done.
  - rewrite Hd, length_app. lia.
  - rewrite Hd, length_app, Esy. lia.
  - unfold log_of. rewrite stream_snoc, <- Hs, <- app_assoc, Hd. apply prefix_app, prefix_take.
Qed.

Lemma append_enter_spec rec w h :
  wal_inv w h -> b_err (w_w w) = None -> append_ok h rec ->
  exists w' p, append_enter rec w = (w', p) /\ wal_inv w' (log_of h rec) /\
    f_synced (w_file w') = f_synced (w_file w) /\ f_sys (w_file w') = f_sys (w_file w) /\
    (length (f_data (w_file w)) <= length (f_data (w_file w')))%nat /\
    enter_post w w' h p.
Proof.
  intros Hinv Hb Hrec. pose proof (wi_ok _ _ Hinv Hb) as (Hs & Hl & Hn & Ho & Hbo).
  unfold append_enter. rewrite Hn. fold (committed h rec). set (r := committed h rec).
  cbn zeta. unfold io_of. cbn [w_file w_w bump_next].
  destruct (append_writes_spec (w_file w) (w_w w) r Hb Hl)
    as (f' & b' & e & Henv & Hpre & Hpost & [(f1 & b1 & -> & E2)|[Hne ->]]).
  all: assert (Hgrow : (length (f_data (w_file w)) <= length (f_data f'))%nat)
    by (destruct Hpre as [n ->]; rewrite length_app; lia).
  2: { destruct e as [e|]; [|done]. do 2 eexists. split; [reflexivity|].
       split; [by eapply (failed_write_inv w)|]. cbn.
       destruct Henv as (-> & _ & _ & ->). by split_and!. }
  cbn [w_file w_w set_io fst snd]. rewrite E2. clear E2.
  destruct e as [e|].
  { do 2 eexists. split; [reflexivity|]. split; [by eapply (failed_write_inv w)|]. cbn.
    destruct Henv as (-> & _ & _ & ->). by split_and!. }
  destruct Hpost as (Hb' & Hd' & Hl').
  set (w1 := note_buffered _ _).
  assert (Hinv1 : wal_inv w1 (log_of h rec)).
  { destruct (note_buffered_ok h rec w Hrec Hn Ho Hbo) as (Hn1 & Ho1 & Hbo1).
    fold r in Hn1, Ho1, Hbo1. unfold frame in Ho1. rewrite len_app in Ho1.
    destruct Hpre as [n Hpre]. destruct Henv as (Esy & _).
    pose proof (wi_header _ _ Hinv). pose proof (wi_synced _ _ Hinv).
    assert (Hst : f_data f' ++ b_buf b' = stream (log_of h rec))
      by (unfold log_of; by rewrite stream_snoc, <- Hs, Hd', app_assoc).
    split; cbn [w1 w_file w_w note_buffered set_io fst snd]; try done.
    - rewrite Hpre, length_app. lia.
    - rewrite Hpre, length_app, Esy. lia.
    - rewrite <- Hst. by apply prefix_app_r. }
  assert (Hpend : w_pendingSeq w1 = u64 (w_pendingSeq w + 1)) by done.
  change (w_leading w1) with (w_leading w).
  destruct Henv as (Esy & _ & _ & Esys).
  destruct (w_leading w) eqn:Elead.
  { do 2 eexists. split; [reflexivity|]. split; [done|]. by split_and!. }
  set (w2 := set_group w1 _ _ true).
  assert (Hinv2 : wal_inv w2 (log_of h rec)) by (by destruct Hinv1; split).
  destruct (leader_flush_spec (CommitPosition r) w2 _ Hinv2 Hb')
    as (w3 & p & -> & Hinv3 & Hp3 & Hsy3 & Hsys3 & Hgrow3 & Hpost3).
  exists w3, p. split; [done|]. split; [done|]. rewrite Hsy3, Hsys3. split; [done|].
  split; [done|]. split; [cbn in Hgrow3; lia|]. destruct p as [| | |[|[]]]; try done; cbn.
  - destruct Hpost3 as (-> & -> & -> & -> & -> & -> & -> & -> & ->).
    by rewrite Hp3.
  - destruct Hpost3 as (-> & -> & -> & ?). by rewrite Hp3.
Qed.

(** [file.Sync] changes only what is on stable storage. *)
Lemma wal_sync_spec cov w :
  exists f' e, wal_sync cov w = (set_file w f', e) /\
    f_data f' = f_data (w_file w) /\
    f_synced f' = match e with
                  | None => Nat.max (f_synced (w_file w)) cov
                  | Some _ => f_synced (w_file w)
                  end.
Proof.
  unfold wal_sync, File_Sync, syscall, mbind, GoM_bind.
  destruct (f_closed (w_file w)).
  { do 2 eexists. split; [reflexivity|]. done. }
  destruct (f_sys (w_file w)) as [|[e|] sys]; do 2 eexists; (split; [reflexivity|]); done.
Qed.

Lemma set_file_inv w h f' :
  wal_inv w h -> f_data f' = f_data (w_file w) ->
  (f_synced f' <= length (f_data (w_file w)))%nat -> wal_inv (set_file w f') h.
Proof. intros [] Hd Hs. split; cbn; rewrite ?Hd; done. Qed.

Lemma set_group_inv w h a b c : wal_inv w h -> wal_inv (set_group w a b c) h.
Proof. intros []. by split. Qed.
#[export] Hint Resolve set_group_inv : uddp.

(** ** A sequential [Append] *)

(** On an idle log whose writer is sound, [Append] returns.  Its record is in
    the stream in every case; on success it and all before it are on stable
    storage; after a failed write or flush the writer stays broken. *)
Lemma Append_spec rec w h :
  wal_inv w h -> b_err (w_w w) = None -> w_leading w = false -> append_ok h rec ->
  exists w' r, Append rec w = (w', Ret r) /\ wal_inv w' (log_of h rec) /\
    w_leading w' = false /\
    (f_synced (w_file w) <= f_synced (w_file w'))%nat /\
    match r with
    | Ok pos => pos = len h + 1 /\ b_err (w_w w') = None /\ b_buf (w_w w') = [] /\
                f_synced (w_file w') = length (stream (log_of h rec))
    | Err (FsyncFailed _) => b_err (w_w w') = None /\ b_buf (w_w w') = []
    | Err _ => b_err (w_w w') <> None
    end.
Proof.
  intros Hinv Hb Hlead Hrec. unfold Append.
  destruct (append_enter_spec rec w h Hinv Hb Hrec)
    as (w1 & p & -> & Hinv1 & Hsy1 & _ & _ & Hpost).
  destruct p as [s pos|fs pos cov| |[pos|[]]]; cbn in Hpost; try done.
  - destruct Hpost; congruence.
  - destruct Hpost as (_ & Hl1 & _ & -> & -> & Hb1 & _ & _ & -> & Hbuf1).
    pose proof (wi_ok _ _ Hinv1 Hb1) as (Hs1 & _). rewrite Hbuf1, app_nil_r in Hs1.
    pose proof (wi_synced _ _ Hinv1) as Hle.
    destruct (wal_sync_spec (length (f_data (w_file w1))) w1) as (f' & e & -> & Hd & Hsy).
    assert (Hinv2 : wal_inv (set_file w1 f') (log_of h rec)).
    { apply set_file_inv; [done..|]. rewrite Hsy. destruct e; lia. }
    unfold leader_synced. destruct e as [e|]; cbn in Hsy.
    + do 2 eexists. split; [reflexivity|]. split; [auto with uddp|]. cbn.
      rewrite Hsy, Hsy1. by split_and!.
    + change (w_pendingSeq (set_file w1 f')) with (w_pendingSeq w1). rewrite Z.eqb_refl.
      do 2 eexists. split; [reflexivity|]. split; [auto with uddp|]. cbn.
      rewrite Hsy, <- Hs1. split_and!; try done; lia.
  - do 2 eexists. split; [reflexivity|]. split; [done|]. rewrite Hsy1.
    destruct Hpost as (-> & _ & _ & _ & ?). done.
  - do 2 eexists. split; [reflexivity|]. split; [done|]. rewrite Hsy1.
    destruct Hpost as (-> & _ & _ & _ & ?). done.
  - do 2 eexists. split; [reflexivity|]. split; [done|]. rewrite Hsy1.
    destruct Hpost as (_ & -> & _ & _ & _ & ?). done.
Qed.

(** Once a write has failed, every later [Append] reports that error and
    changes nothing but the position counter. *)
Lemma Append_stuck rec w e :
  b_err (w_w w) = Some e ->
  Append rec w = (bump_next w, Ret (Err (WriteLength e))).
Proof.
  intros Hb. unfold Append, append_enter, io_of. cbn zeta. cbn [w_file w_w bump_next].
  rewrite (bufio_Write_stuck _ _ _ e) by done. by destruct w.
Qed.
