(* ===== verification/WalRecovery.v ===== *)
(** * Recovery of the log: [Open] after a crash

    Whatever prefix of the stream a crash leaves, [Open] truncates a torn tail,
    replays exactly the records that are complete in it, in order, and returns a
    log on which the invariant holds again.  Every record whose frame was on
    stable storage is among them. *)

From Stdlib Require Import ZArith Lia.
From S2P Require Import Prelude WalFormat Wal WalInvariant.

(** ** The interface between the log and the stores it rebuilds *)

(** [replay] folds a record that satisfies [P] into the store's state as [step]
    does, without an error and without a panic.  Each store that hands a
    callback to [Open] has an instance. *)
Class Replays {S} (replay : replayer S) (step : S -> WalRecord -> S)
    (P : WalRecord -> Prop) : Prop :=
  replays_ok : forall s r, P r -> replay s r = Ret (Ok (step s r)).

(** ** Complete records in a prefix of the stream *)

(** The first [m] records of [h] are complete in the first [k] bytes of its
    stream, and what follows them there is a strict part of the next one. *)
Definition complete (h : list WalRecord) (k m : nat) (tail : bytes) : Prop :=
  (m <= length h)%nat /\
  take k (stream h) = stream (take m h) ++ tail /\
  (tail = [] \/ exists r j, h !! m = Some r /\ (0 < j < length (frame r))%nat /\
                            tail = take j (frame r)).

Lemma complete_exists h k :
  (5 <= k)%nat -> exists m tail, complete h k m tail.
Proof.
  intros Hk. induction h as [|r h [m [tail (Hm & Ht & Htail)]]] using rev_ind.
  - exists 0%nat, []. split; [cbn; lia|]. rewrite stream_nil, app_nil_r.
    split; [by apply take_ge|by left].
  - destruct (decide (k < length (stream h))%nat) as [Hlt|Hge].
    + exists m, tail. split; [rewrite length_app; lia|].
      rewrite stream_snoc, take_app_le, (take_app_le h) by lia.
      split; [done|]. destruct Htail as [->|(r' & j & Hr & Hj & ->)]; [by left|right].
      exists r', j. split; [|done]. by apply lookup_app_l_Some.
    + unfold complete. rewrite stream_snoc, take_app_ge by lia.
      set (j := (k - length (stream h))%nat).
      destruct (decide (j < length (frame r))%nat) as [Hj|Hj].
      * exists (length h), (take j (frame r)). split; [rewrite length_app; lia|].
        rewrite take_app_length. split; [done|].
        destruct (decide (j = 0)%nat) as [->|Hj0]; [left; by rewrite take_0|right].
        exists r, j. split; [|split; [lia|done]]. by rewrite lookup_app_r, Nat.sub_diag by lia.
      * exists (S (length h)), []. split; [rewrite length_app; cbn; lia|].
        split; [|by left]. rewrite take_ge by lia.
        rewrite (take_ge (h ++ [r])) by (rewrite length_app; cbn; lia).
        by rewrite stream_snoc, app_nil_r.
Qed.

Lemma stream_take_length h m n :
  (m <= n)%nat -> (length (stream (take m h)) <= length (stream (take n h)))%nat.
Proof.
  intros Hmn. replace (take m h) with (take m (take n h))
    by (rewrite take_take; f_equal; lia).
  rewrite <- (take_drop m (take n h)) at 2. rewrite stream_app, length_app. lia.
Qed.

Lemma stream_take_le h n : (length (stream (take n h)) <= length (stream h))%nat.
Proof. rewrite <- (take_drop n h) at 2. rewrite stream_app, length_app. lia. Qed.

(** Records that lie wholly inside the prefix are complete in it. *)
Lemma complete_covers h k m tail n :
  complete h k m tail -> (n <= length h)%nat ->
  (length (stream (take n h)) <= k)%nat -> (n <= m)%nat.
Proof.
  intros (Hm & Ht & Htail) Hn Hk.
  destruct (decide (n <= m)%nat) as [|Hgt]; [done|exfalso].
  destruct (lookup_lt_is_Some_2 h m ltac:(lia)) as [r Hr].
  assert (Hlong : (length (stream (take m h)) + length (frame r)
                   <= length (stream (take n h)))%nat).
  { etransitivity; [|apply (stream_take_length h (S m)); lia].
    rewrite (take_S_r _ _ _ Hr), stream_snoc, length_app. lia. }
  assert (Hlen : length (take k (stream h)) = (length (stream (take m h)) + length tail)%nat)
    by (by rewrite Ht, length_app).
  assert (Hs : (length (stream (take n h)) <= length (stream h))%nat).
  { apply stream_take_le. }
  rewrite length_take in Hlen.
  destruct Htail as [->|(r' & j & Hr' & Hj & ->)].
  - cbn in Hlen. assert (0 < length (frame r))%nat; [|lia].
    pose proof (len_frame r). pose proof (payload_size_pos r). unfold len in *. lia.
  - rewrite Hr in Hr'. injection Hr' as <-. rewrite length_take in Hlen. lia.
Qed.

(** ** The recovery loop *)

Section loop.
Context {S : Type} (replay : replayer S) (step : S -> WalRecord -> S) (P : WalRecord -> Prop).
Context `{!Replays replay step P}.

(** Over complete records the loop replays them and goes on behind them. *)
Lemma recover_loop_frames hs fuel rest fault next off offs s f :
  Forall wf_record hs -> Forall P hs -> numbered_from next hs ->
  0 < next -> next + len hs < 2 ^ 63 -> 0 <= off ->
  off + len (concat (frame <$> hs)) < 2 ^ 63 ->
  recover_loop (length hs + fuel) (Some replay)
    (mkReader (concat (frame <$> hs) ++ rest) fault) next off offs s f
  = recover_loop fuel (Some replay) (mkReader rest fault) (next + len hs)
      (off + len (concat (frame <$> hs))) (offs ++ offsets_from off hs)
      (fold_left step hs s) f.
Proof.
  revert next off offs s.
  induction hs as [|r hs IH]; intros next off offs s Hwf HP Hnum Hn Hn' Ho Ho'.
  - cbn. by rewrite !len_nil, !Z.add_0_r, app_nil_r.
  - apply Forall_cons in Hwf as [Hr Hwf]. apply Forall_cons in HP as [HPr HP].
    destruct Hnum as [Hpos Hnum]. rewrite len_cons in *.
    cbn in Ho'. rewrite len_app in Ho'.
    pose proof (len_nonneg hs). pose proof (len_nonneg (frame r)).
    pose proof (len_nonneg (concat (frame <$> hs))).
    cbn [length Nat.add recover_loop fmap list_fmap concat].
    rewrite <- app_assoc, (readRecord_frame r) by done.
    rewrite Hpos, Z.eqb_refl. cbn [negb].
    rewrite (bind_ret _ _ f f (Ok (step s r)))
      by (unfold lift_go; by rewrite (replays_ok s r HPr)).
    cbn beta iota.
    rewrite u64_small by (unfold is_u64; lia). rewrite i64_small by (unfold is_i64; lia).
    rewrite IH by (done || lia). cbn [offsets_from fold_left].
    rewrite <- app_assoc, len_app, !Z.add_assoc. done.
Qed.

(** The loop on complete records followed by nothing or by a torn record. *)
Lemma recover_loop_tail hs fuel tail s f :
  wf_history hs -> Forall P hs -> (length hs < fuel)%nat ->
  f_closed f = false -> f_sys f = [] ->
  (tail = [] \/ exists r j, wf_record r /\ (0 < j < length (frame r))%nat /\
                            tail = take j (frame r)) ->
  f_data f = stream hs ++ tail ->
  recover_loop fuel (Some replay) (mkReader (concat (frame <$> hs) ++ tail) None)
    1 headerSize [] s f
  = (match tail with
     | [] => f
     | _ => file_with_data f (stream hs) (Nat.min (f_synced f) (length (stream hs)))
     end,
     Ret (Ok (1 + len hs, offsets_from headerSize hs, fold_left step hs s))).
Proof.
  intros (Hnum & Hwf & Hs & Hl) HP Hfuel Hc Hsys Htail Hd.
  replace fuel with (length hs + Datatypes.S (fuel - length hs - 1))%nat by lia.
  pose proof (len_stream hs) as Hls.
  rewrite recover_loop_frames by (done || unfold headerSize; lia).
  cbn [recover_loop app].
  destruct Htail as [->|(r & j & Hr & Hj & ->)]; [done|].
  rewrite readRecord_prefix by (done || lia).
  rewrite (proj2 (Nat.eqb_neq j 0)) by lia.
  assert (Ht : exists x t, take j (frame r) = x :: t).
  { destruct (frame r); [cbn in Hj; lia|]. destruct j; [lia|]. cbn. eauto. }
  destruct Ht as (x & t & Ht). rewrite Ht in *.
  unfold File_Truncate, syscall, mbind, GoM_bind. rewrite Hc, Hsys. cbn.
  unfold file_with_data. cbn. rewrite ?Hsys, ?Hc.
  replace (Z.to_nat (headerSize + len (concat (frame <$> hs)))) with (length (stream hs))
    by (unfold headerSize; rewrite <- Hls; unfold len; lia).
  by rewrite Hd, take_app_length.
Qed.

End loop.

(** ** [Open] *)

(** The environment does not fail: no system call, write or read error is due. *)
Definition healthy (f : File) : Prop :=
  f_closed f = false /\ f_bad f = None /\ f_writes f = [] /\ f_sys f = [].

(** The log [Open] returns on a file that holds exactly the stream of [h]. *)
Definition opened (path : bytes) (f : File) (h : list WalRecord) : WAL :=
  mkWAL path f (mkWriter [] None) (1 + len h) (offsets_from headerSize h)
    0 0 None false (len (stream h)).

Lemma healthy_syscall f : healthy f -> syscall f = (f, Ret None).
Proof.
  destruct f. unfold healthy, syscall. cbn. intros (-> & -> & -> & ->). done.
Qed.

Lemma healthy_reader f off :
  healthy f -> reader_at f off = mkReader (drop (Z.to_nat off) (f_data f)) None.
Proof. intros (_ & Hb & _). unfold reader_at. by rewrite Hb. Qed.

(** A file that starts with the header passes [ensureHeader] unchanged. *)
Lemma ensureHeader_present f rest :
  healthy f -> f_data f = walHeader ++ rest -> ensureHeader f = (f, Ret (Ok tt)).
Proof.
  intros Hf Hd. unfold ensureHeader.
  rewrite (bind_ret _ _ f f None) by (by apply healthy_syscall).
  rewrite (bind_ret _ _ f f f) by done.
  unfold File_ReadAt. rewrite healthy_reader, Hd by done.
  rewrite (proj2 (Z.eqb_neq _ _))
    by (rewrite len_app; pose proof (len_nonneg rest);
        change (len walHeader) with 5; lia).
  change (drop (Z.to_nat 0) (walHeader ++ rest)) with (walHeader ++ rest).
  by rewrite ReadFull_app by done.
Qed.

(** An empty file gets the header, on stable storage. *)
Lemma ensureHeader_fresh f :
  healthy f -> f_data f = [] ->
  ensureHeader f = (file_with_data f walHeader (Nat.max (f_synced f) 5), Ret (Ok tt)).
Proof.
  destruct f. unfold healthy. cbn. intros (-> & -> & -> & ->) ->. done.
Qed.

Lemma take_stream k h :
  (5 <= k)%nat -> take k (stream h) = walHeader ++ take (k - 5) (concat (frame <$> h)).
Proof.
  intros. unfold stream.
  by rewrite take_app_ge by (change (length walHeader) with 5%nat; lia).
Qed.

Lemma drop_stream h tail :
  drop (Z.to_nat headerSize) (stream h ++ tail) = concat (frame <$> h) ++ tail.
Proof. unfold stream. by rewrite <- app_assoc. Qed.

Lemma wf_history_lookup h i r : wf_history h -> h !! i = Some r -> wf_record r.
Proof. intros (_ & H & _). by apply Forall_lookup_1. Qed.

(** A stream is longer than its list of records. *)
Lemma stream_long h : (length h < length (stream h))%nat.
Proof.
  induction h as [|r h IH] using rev_ind; [vm_compute; lia|].
  rewrite stream_snoc, !length_app. cbn.
  pose proof (len_frame r). pose proof (payload_size_pos r). unfold len in *. lia.
Qed.

Section open.
Context {S : Type} (replay : replayer S) (step : S -> WalRecord -> S) (P : WalRecord -> Prop).
Context `{!Replays replay step P}.

Lemma Open_recovers h k path s f :
  wf_history h -> Forall P h -> healthy f ->
  f_data f = take k (stream h) -> (5 <= k)%nat -> (f_synced f <= length (f_data f))%nat ->
  exists m tail f', complete h k m tail /\ healthy f' /\
    f_data f' = stream (take m h) /\
    f_synced f' = Nat.min (f_synced f) (length (stream (take m h))) /\
    Open path (Some replay) s f
    = (f', Ret (Ok (opened path f' (take m h), fold_left step (take m h) s))).
Proof.
  intros Hh HP Hf Hd Hk Hsy.
  destruct (complete_exists h k Hk) as (m & tail & Hc).
  pose proof Hc as (Hm & Ht & Htail). rewrite Hd in Hsy.
  assert (Hbody : f_data f = stream (take m h) ++ tail) by congruence.
  set (f' := match tail with
             | [] => f
             | _ => file_with_data f (stream (take m h))
                      (Nat.min (f_synced f) (length (stream (take m h))))
             end).
  assert (Hf' : healthy f') by (subst f'; destruct tail; done).
  assert (Hd' : f_data f' = stream (take m h))
    by (subst f'; destruct tail; [by rewrite Hbody, app_nil_r|done]).
  exists m, tail, f'. split; [done|]. split; [done|]. split; [done|]. split.
  { subst f'. destruct tail; [|done]. rewrite app_nil_r in Ht. rewrite Ht in Hsy. lia. }
  unfold Open.
  rewrite (bind_ret _ _ f f None) by (by apply healthy_syscall).
  rewrite (bind_ret _ _ f f (Ok tt))
    by (eapply ensureHeader_present; [done|]; by rewrite Hd, take_stream).
  rewrite (bind_ret _ _ f f' (Ok (1 + len (take m h), offsets_from headerSize (take m h),
                                  fold_left step (take m h) s))).
  2: { unfold recover_. rewrite (bind_ret _ _ f f None) by (by apply healthy_syscall).
       rewrite (bind_ret _ _ f f f) by done.
       rewrite healthy_reader, Hbody, drop_stream by done.
       destruct Hf as (? & ? & ? & ?).
       erewrite (recover_loop_tail replay step P); try done.
       - by apply wf_history_take.
       - by apply Forall_take.
       - rewrite length_app. pose proof (stream_long (take m h)). lia.
       - destruct Htail as [->|(r & j & Hr & Hj & ->)]; [by left|right].
         exists r, j. split; [by eapply wf_history_lookup|done]. }
  rewrite (bind_ret _ _ f' f' None) by (by apply healthy_syscall).
  rewrite (bind_ret _ _ f' f' f') by done.
  unfold opened. by rewrite Hd'.
Qed.
End open.

(** ** Reading a range of the log *)

Lemma offsets_lookup o h i :
  (i < length h)%nat ->
  offsets_from o h !! i = Some (o + len (concat (frame <$> take i h))).
Proof.
  revert o i. induction h as [|r h IH]; intros o i Hi; cbn in Hi; [lia|].
  destruct i as [|i]; cbn.
  - by rewrite len_nil, Z.add_0_r.
  - rewrite IH by lia. f_equal. rewrite len_app. lia.
Qed.

Lemma read_range_frames hs limit from tail acc :
  Forall wf_record hs ->
  (tail = [] \/ exists r j, wf_record r /\ (0 < j < length (frame r))%nat /\
                            tail = take j (frame r)) ->
  read_range_loop limit from (mkReader (concat (frame <$> hs) ++ tail) None) acc
  = (acc ++ take limit hs, None).
Proof.
  intros Hwf Htail. revert limit acc.
  induction hs as [|r hs IH]; intros [|limit] acc; cbn; try by rewrite app_nil_r.
  - destruct Htail as [->|(r & j & Hr & Hj & ->)].
    + cbn. by rewrite app_nil_r.
    + rewrite readRecord_prefix by (done || lia).
      rewrite (proj2 (Nat.eqb_neq j 0)) by lia. by rewrite app_nil_r.
  - apply Forall_cons in Hwf as [Hr Hwf].
    rewrite <- app_assoc, readRecord_frame by done.
    rewrite IH by done. by rewrite <- app_assoc.
Qed.

(** What a read of the file from record [i] on sees. *)
Lemma drop_records h i m tail :
  (i <= m)%nat -> (m <= length h)%nat ->
  drop (length (stream (take i h))) (stream (take m h) ++ tail)
  = concat (frame <$> drop i (take m h)) ++ tail.
Proof.
  intros Him Hm. rewrite <- (take_drop i (take m h)) at 1.
  rewrite take_take, Nat.min_l by lia.
  rewrite stream_app, <- app_assoc. apply drop_app_length.
Qed.

(** On a log whose invariant holds, [ReadRange] returns the records from
    position [from] on that are complete in the file, at most [limit]. *)
Lemma ReadRange_spec w h from limit :
  wal_inv w h -> b_err (w_w w) = None -> healthy (w_file w) ->
  1 <= from <= len h -> 0 < limit -> limit * sizeofRecord <= maxAlloc ->
  exists m tail, complete h (length (f_data (w_file w))) m tail /\
    ReadRange from limit w
    = (w, Ret (take (Z.to_nat limit) (drop (Z.to_nat (from - 1)) (take m h)), None)).
Proof.
  intros Hinv Hb Hf Hfrom Hlimit Hcap.
  pose proof (wi_ok _ _ Hinv Hb) as (Hs & _ & _ & _ & Hoff).
  pose proof (wi_hist _ _ Hinv) as Hh. pose proof Hh as (_ & Hwf & Hsz & Hlen).
  destruct (complete_exists h _ (wi_header _ _ Hinv)) as (m & tail & Hc).
  exists m, tail. split; [done|]. pose proof Hc as (Hm & Ht & Htail).
  rewrite <- Hs, take_app_length in Ht.
  set (i := Z.to_nat (from - 1)).
  assert (Hi : (i < length h)%nat) by (unfold len in *; lia).
  assert (Hlo : len (w_byteOffsets w) = len h)
    by (rewrite Hoff; unfold len; by rewrite length_offsets).
  unfold ReadRange. rewrite (bind_ret _ _ w w w) by done. rewrite Hlo.
  rewrite i64_small by (unfold is_i64; lia).
  rewrite (proj2 (Z.ltb_ge from 1)), !(proj2 (Z.leb_gt _ _)) by lia. cbn [orb].
  rewrite (bind_ret _ _ w w None).
  2: { erewrite zoom_ret by (by apply healthy_syscall). f_equal. by destruct w. }
  rewrite (bind_ret _ _ w w (w_file w)) by done.
  rewrite (proj2 (Z.ltb_ge _ _)) by done.
  unfold mret, GoM_ret. do 2 f_equal. fold i.
  rewrite Hoff, offsets_lookup by done. cbn [default from_option id].
  rewrite healthy_reader, Ht by done. unfold headerSize.
  rewrite <- len_stream. unfold len at 1. rewrite Nat2Z.id.
  destruct (decide (i <= m)%nat) as [Him|Him].
  - rewrite drop_records by done. rewrite read_range_frames; [done| |].
    + apply Forall_drop, Forall_take. done.
    + destruct Htail as [->|(r & j & Hr & Hj & ->)]; [by left|right].
      exists r, j. split; [by eapply wf_history_lookup|done].
  - rewrite drop_ge.
    + rewrite drop_ge by (rewrite length_take; lia). rewrite take_nil.
      by destruct (Z.to_nat limit).
    + rewrite <- Ht. destruct (decide (length (stream (take i h)) <= length (f_data (w_file w)))%nat)
        as [Hle|]; [|lia].
      pose proof (complete_covers _ _ _ _ i Hc ltac:(lia) Hle). lia.
Qed.
