(* ===== verification/WalTheorems.v ===== *)
(** * Theorems about the log: durability, recovery, range reads

    The runs of a log under arbitrary I/O failures, and what holds of every
    state they reach; the branches of [Open] that refuse or cut a file; the
    behaviour of [ReadRange] on its whole input range. *)

From Stdlib Require Import ZArith Lia.
From S2P Require Import Prelude WalFormat Wal WalInvariant WalRecovery.

(** ** Runs *)

(** [wal_run w h acked]: from an opened log, calls of [Append] lead to [w]; [h]
    is what has gone into the stream and [acked] the positions returned to
    callers.  The file's scripts of failures are arbitrary. *)
Inductive wal_run : WAL -> list WalRecord -> list Z -> Prop :=
| run_start path f h :
    wf_history h -> f_data f = stream h ->
    (5 <= f_synced f <= length (stream h))%nat ->
    wal_run (opened path f h) h []
| run_append w h acked rec w' r :
    wal_run w h acked -> append_ok h rec -> Append rec w = (w', Ret r) ->
    wal_run w' (if bool_decide (b_err (w_w w) = None) then log_of h rec else h)
      (match r with Ok pos => acked ++ [pos] | Err _ => acked end).

(** Position [p] is the number of a record all of whose bytes, and those of the
    records before it, are on stable storage. *)
Definition durable (w : WAL) (h : list WalRecord) (p : Z) : Prop :=
  1 <= p <= len h /\ (length (stream (take (Z.to_nat p) h)) <= f_synced (w_file w))%nat.

Lemma opened_inv path f h :
  wf_history h -> f_data f = stream h -> (f_synced f <= length (stream h))%nat ->
  wal_inv (opened path f h) h.
Proof.
  intros Hh Hd Hsy.
  assert (5 <= length (stream h))%nat
    by (pose proof (len_stream h); pose proof (len_nonneg (concat (frame <$> h)));
        unfold len in *; lia).
  split; cbn; rewrite ?Hd, ?app_nil_r; try done.
  intros _. rewrite len_nil, Z.add_comm. by split_and!.
Qed.

(** Extending the history and syncing more keeps what is durable. *)
Lemma durable_mono w w' h k p :
  durable w h p -> (f_synced (w_file w) <= f_synced (w_file w'))%nat ->
  durable w' (h ++ k) p.
Proof.
  intros (Hp & Hs) Hle. split.
  - rewrite len_app. pose proof (len_nonneg k). lia.
  - rewrite take_app_le by (unfold len in Hp; lia). lia.
Qed.

Lemma durable_last w h :
  h <> [] -> f_synced (w_file w) = length (stream h) -> durable w h (len h).
Proof.
  intros Hne Hs. split.
  - destruct h; [done|]. rewrite len_cons. pose proof (len_nonneg h). lia.
  - unfold len. rewrite Nat2Z.id, take_ge by lia. lia.
Qed.

Lemma wal_run_inv w h acked :
  wal_run w h acked ->
  wal_inv w h /\ w_leading w = false /\ (5 <= f_synced (w_file w))%nat /\
  Forall (durable w h) acked.
Proof.
  induction 1 as [path f h Hh Hd Hsy|w h acked rec w' r Hrun (Hinv & Hl & H5 & Ha) Hrec Happ].
  - split; [apply opened_inv; (done || lia)|]. split; [done|]. split; [cbn; lia|done].
  - destruct (b_err (w_w w)) as [e|] eqn:Hb.
    + rewrite (Append_stuck _ _ e) in Happ by done. injection Happ as <- <-.
      rewrite bool_decide_false by done. split; [|done].
      destruct Hinv as [? ? ? ? Hok]. split; try done. cbn. congruence.
    + destruct (Append_spec rec w h Hinv Hb Hl Hrec)
        as (w1 & r1 & E & Hinv1 & Hl1 & Hsy1 & Hpost).
      rewrite Happ in E. injection E as <- <-.
      rewrite bool_decide_true by done. split; [done|]. split; [done|]. split; [lia|].
      assert (Ha' : Forall (durable w' (log_of h rec)) acked).
      { eapply Forall_impl; [exact Ha|]. intros p Hp. by eapply durable_mono. }
      destruct r as [pos|e]; [|done]. apply Forall_app. split; [done|].
      destruct Hpost as (-> & _ & _ & Hs). constructor; [|done].
      replace (len h + 1) with (len (log_of h rec))
        by (unfold log_of; rewrite len_app, len_cons, len_nil; lia).
      apply durable_last; [unfold log_of; by destruct h|done].
Qed.

(** ** Durability *)

(** A crash that keeps the synced bytes keeps every durable record. *)
Lemma crash_recovers {S} (replay : replayer S) step P (Hr : Replays replay step P)
    w h k path s :
  wal_inv w h -> (5 <= f_synced (w_file w))%nat -> Forall P h ->
  (f_synced (w_file w) <= k)%nat ->
  exists m f',
    Open path (Some replay) s (crash k (w_file w))
    = (f', Ret (Ok (opened path f' (take m h), fold_left step (take m h) s))) /\
    wal_inv (opened path f' (take m h)) (take m h) /\
    f_data f' = stream (take m h) /\
    (5 <= f_synced f')%nat /\
    forall p, durable w h p ->
      p <= Z.of_nat m /\ durable (opened path f' (take m h)) (take m h) p.
Proof.
  intros Hinv H5 HP Hk.
  pose proof (wi_synced _ _ Hinv) as Hsy. pose proof (wi_data _ _ Hinv) as [rest Hda].
  set (n := Nat.min k (length (f_data (w_file w)))).
  assert (Hd : f_data (crash k (w_file w)) = take n (stream h)).
  { cbn. rewrite Hda, take_app_le by lia. subst n. rewrite <- take_take.
    by rewrite firstn_all. }
  destruct (Open_recovers replay step P h n path s (crash k (w_file w)))
    as (m & tail & f' & Hc & Hf' & Hd' & Hsy' & HO); try done.
  - apply (wi_hist _ _ Hinv).
  - lia.
  - rewrite Hd, length_take. cbn. rewrite Hda, length_app in *. lia.
  - exists m, f'. split; [done|]. split; [|split; [done|split]].
    + apply opened_inv; [apply wf_history_take, (wi_hist _ _ Hinv)|done|lia].
    + pose proof (len_stream (take m h)) as Hl.
      pose proof (len_nonneg (concat (frame <$> take m h))).
      rewrite Hsy'. cbn. unfold len in *. lia.
    + intros p (Hp & Hps).
      pose proof (complete_covers h n m tail (Z.to_nat p) Hc) as Hcov.
      assert (Hpm : (Z.to_nat p <= m)%nat) by (unfold len in Hp; lia).
      pose proof (stream_take_le (take m h) (Z.to_nat p)) as Hst.
      unfold durable. cbn [opened w_file]. rewrite Hsy'. cbn.
      rewrite take_take, Nat.min_l in * by lia. pose proof Hc as (? & _).
      unfold len in *. rewrite length_take. lia.
Qed.

(** C1: no acknowledged write is lost.  After any sequence of appends under any
    I/O failures, and a crash that keeps the synced bytes and any prefix of the
    rest, [Open] succeeds; it replays a prefix of what was appended, in commit
    order, that contains every position an [Append] returned; and the reopened
    log satisfies the invariant, so the argument applies to its further life. *)
Theorem acked_survive_crash {S} (replay : replayer S) step P (Hr : Replays replay step P)
    w h acked k path s :
  wal_run w h acked -> Forall P h -> (f_synced (w_file w) <= k)%nat ->
  exists m f',
    Open path (Some replay) s (crash k (w_file w))
    = (f', Ret (Ok (opened path f' (take m h), fold_left step (take m h) s))) /\
    wal_inv (opened path f' (take m h)) (take m h) /\
    f_data f' = stream (take m h) /\
    Forall (fun p => p <= Z.of_nat m) acked.
Proof.
  intros Hrun HP Hk. destruct (wal_run_inv _ _ _ Hrun) as (Hinv & _ & H5 & Ha).
  destruct (crash_recovers replay step P Hr w h k path s Hinv H5 HP Hk)
    as (m & f' & HO & Hw & Hd & _ & Hm).
  exists m, f'. split_and!; try done. eapply Forall_impl; [exact Ha|]. intros p Hp. by apply Hm.
Qed.

(** ** What [Open] does at the first record it cannot read *)

Lemma quiet_syscall f : f_closed f = false -> f_sys f = [] -> syscall f = (f, Ret None).
Proof. destruct f. unfold syscall. cbn. by intros -> ->. Qed.

Lemma File_Truncate_quiet n f :
  syscall f = (f, Ret None) ->
  File_Truncate n f
  = (file_with_data f (take (Z.to_nat n) (f_data f)) (Nat.min (f_synced f) (Z.to_nat n)),
     Ret None).
Proof. intros H. unfold File_Truncate. by rewrite (bind_ret _ _ _ _ _ H). Qed.

Section scan.
Context {S : Type} (replay : replayer S) (step : S -> WalRecord -> S) (P : WalRecord -> Prop).
Context `{!Replays replay step P}.
Context (h : list WalRecord) (f : File) (tail : bytes) (fault : option oserr).
Hypothesis Hh : wf_history h.
Hypothesis HP : Forall P h.
Hypothesis Hclosed : f_closed f = false.
Hypothesis Hsys : f_sys f = [].
Hypothesis Hhdr : ensureHeader f = (f, Ret (Ok tt)).
Hypothesis Hlong : (length (stream h) <= length (f_data f))%nat.
Hypothesis Hreader : reader_at f headerSize = mkReader (concat (frame <$> h) ++ tail) fault.

(** Recovery reaches the bytes behind [h] with [h] replayed. *)
Lemma recover_scan s :
  exists fuel, recover_ (Some replay) s f
  = recover_loop (Datatypes.S fuel) (Some replay) (mkReader tail fault) (1 + len h)
      (len (stream h)) (offsets_from headerSize h) (fold_left step h s) f.
Proof.
  destruct Hh as (Hnum & Hwf & Hs & Hl). pose proof (stream_long h). pose proof (len_stream h).
  exists (length (f_data f) - length h)%nat. unfold recover_.
  rewrite (bind_ret _ _ f f None) by (by apply quiet_syscall).
  rewrite (bind_ret _ _ f f f) by done. rewrite Hreader.
  replace (Datatypes.S (length (f_data f)))
    with (length h + Datatypes.S (length (f_data f) - length h))%nat by lia.
  rewrite (recover_loop_frames replay step P) by (done || unfold headerSize; lia).
  f_equal; unfold headerSize; lia.
Qed.

(** Bytes that read as a torn record are cut off, and [Open] succeeds. *)
Lemma Open_torn path s :
  fst (readRecord (mkReader tail fault)) = Err RecTorn ->
  f_data f = stream h ++ drop (length (stream h)) (f_data f) ->
  exists f', f_data f' = stream h /\
    Open path (Some replay) s f = (f', Ret (Ok (opened path f' h, fold_left step h s))).
Proof.
  intros Htorn Hd.
  set (f' := file_with_data f (stream h) (Nat.min (f_synced f) (length (stream h)))).
  exists f'. split; [done|]. unfold Open.
  rewrite (bind_ret _ _ f f None) by (by apply quiet_syscall).
  rewrite (bind_ret _ _ f f (Ok tt)) by done.
  rewrite (bind_ret _ _ f f' (Ok (1 + len h, offsets_from headerSize h, fold_left step h s))).
  2: { destruct (recover_scan s) as [fuel ->]. cbn [recover_loop].
       destruct (readRecord _) as [res r]. cbn in Htorn. subst res.
       rewrite (bind_ret _ _ _ _ _ (File_Truncate_quiet (len (stream h)) f (quiet_syscall f Hclosed Hsys))).
       unfold mret, GoM_ret, f', len. rewrite Nat2Z.id. do 2 f_equal.
       rewrite Hd at 1. apply take_app_length. }
  assert (Hq : syscall f' = (f', Ret None))
    by (unfold syscall; cbn; rewrite Hclosed, Hsys; unfold f', file_with_data; by rewrite Hclosed, Hsys).
  rewrite (bind_ret _ _ f' f' None) by done. by rewrite (bind_ret _ _ f' f' f').
Qed.

(** A record that is complete but fails its checksum or does not decode stops
    [Open] with an error that names its offset; the file is not touched. *)
Lemma Open_corrupt path s e :
  fst (readRecord (mkReader tail fault)) = Err e -> e <> RecEOF -> e <> RecTorn ->
  Open path (Some replay) s f = (f, Ret (Err (CorruptRecord (len (stream h)) e))).
Proof.
  intros He Heof Htorn. unfold Open.
  rewrite (bind_ret _ _ f f None) by (by apply quiet_syscall).
  rewrite (bind_ret _ _ f f (Ok tt)) by done.
  rewrite (bind_ret _ _ f f (Err (CorruptRecord (len (stream h)) e))); [done|].
  destruct (recover_scan s) as [fuel ->]. cbn [recover_loop].
  destruct (readRecord _) as [res r]. cbn in He. subst res. by destruct e.
Qed.

(** A readable record with the wrong commit position stops [Open] too. *)
Lemma Open_misnumbered path s rec n r :
  readRecord (mkReader tail fault) = (Ok (rec, n), r) -> CommitPosition rec <> 1 + len h ->
  Open path (Some replay) s f
  = (f, Ret (Err (NonMonotonic (len (stream h)) (CommitPosition rec) (1 + len h)))).
Proof.
  intros He Hne. unfold Open.
  rewrite (bind_ret _ _ f f None) by (by apply quiet_syscall).
  rewrite (bind_ret _ _ f f (Ok tt)) by done.
  rewrite (bind_ret _ _ f f (Err (NonMonotonic (len (stream h)) (CommitPosition rec) (1 + len h))));
    [done|].
  destruct (recover_scan s) as [fuel ->]. cbn [recover_loop]. rewrite He.
  by rewrite (proj2 (Z.eqb_neq _ _) Hne).
Qed.
End scan.

(** ** Instances and data for the witnesses *)

(** A callback that collects the records it is given. *)
Definition collect : replayer (list WalRecord) := fun s r => Ret (Ok (s ++ [r])).
#[export] Instance collect_replays :
  Replays collect (fun s r => s ++ [r]) (fun _ => True).
Proof. done. Qed.

#[export] Instance numbered_from_dec n h : Decision (numbered_from n h).
Proof. revert n. induction h; intros n; cbn; apply _. Defined.
#[export] Instance wf_history_dec h : Decision (wf_history h).
Proof. unfold wf_history. apply _. Defined.
#[export] Instance append_ok_dec h r : Decision (append_ok h r).
Proof. unfold append_ok. apply _. Defined.

Definition put_a : WalRecord := mkRecord 0 KindPut ($"a") ($"1") 0 [].
Definition put_b : WalRecord := mkRecord 0 KindPut ($"b") ($"2") 0 [].
Definition log_a : list WalRecord := log_of [] put_a.
Definition log_ab : list WalRecord := log_of log_a put_b.

(** A fresh log whose second fsync fails. *)
Definition demo_file : File :=
  mkFile (stream []) 5 false None [] [None; Some ($"input/output error")].
Definition demo_wal (n : nat) : WAL :=
  match n with
  | O => opened ($"p") demo_file []
  | 1%nat => (Append put_a (opened ($"p") demo_file [])).1
  | _ => (Append put_b (Append put_a (opened ($"p") demo_file [])).1).1
  end.

Lemma demo_run : wal_run (demo_wal 2) log_ab [1].
Proof.
  change [1] with ([] ++ [1]).
  refine (run_append (demo_wal 1) log_a [1] put_b (demo_wal 2)
            (Err (FsyncFailed ($"input/output error"))) _ _ _);
    [|by_decide|vm_compute; reflexivity].
  refine (run_append (demo_wal 0) [] [] put_a (demo_wal 1) (Ok 1) _ _ _);
    [|by_decide|vm_compute; reflexivity].
  refine (run_start _ _ _ _ _ _); [by_decide|done|cbn; vm_compute; lia].
Qed.

Lemma acked_survive_crash_witness :
  exists m f',
    Open ($"p") (Some collect) [] (crash 50 (w_file (demo_wal 2)))
    = (f', Ret (Ok (opened ($"p") f' (take m log_ab),
                    fold_left (fun s r => s ++ [r]) (take m log_ab) []))) /\
    wal_inv (opened ($"p") f' (take m log_ab)) (take m log_ab) /\
    f_data f' = stream (take m log_ab) /\
    Forall (fun p => p <= Z.of_nat m) [1].
Proof.
  refine (acked_survive_crash collect _ (fun _ => True) _ (demo_wal 2) log_ab [1] 50
            ($"p") [] demo_run _ _).
  - by repeat constructor.
  - vm_compute. lia.
Defined.

(** ** What recovery refuses and what it cuts *)

Lemma healthy_scan h tail f :
  healthy f -> f_data f = stream h ++ tail ->
  ensureHeader f = (f, Ret (Ok tt)) /\
  (length (stream h) <= length (f_data f))%nat /\
  reader_at f headerSize = mkReader (concat (frame <$> h) ++ tail) None.
Proof.
  intros Hf Hd. split; [|split].
  - eapply ensureHeader_present; [done|]. rewrite Hd. unfold stream. by rewrite <- app_assoc.
  - rewrite Hd, length_app. lia.
  - by rewrite healthy_reader, Hd, drop_stream.
Qed.

(** C24: one changed payload byte anywhere in the log stops recovery with a
    checksum error that names the record's offset, and the file is left as it
    is: nothing behind the damage is silently dropped. *)
Theorem corrupt_payload_rejected {S} (replay : replayer S) step P
    (Hr : Replays replay step P) h rec pre x y post rest f path s :
  wf_history h -> Forall P h -> healthy f -> wf_record rec ->
  encodePayload rec = pre ++ x :: post -> x <> y ->
  f_data f = stream h ++ record_lenBuf rec
    ++ (le_bytes 4 (ChecksumIEEE (encodePayload rec)) ++ pre ++ y :: post) ++ rest ->
  exists got want,
    Open path (Some replay) s f
    = (f, Ret (Err (CorruptRecord (len (stream h)) (RecChecksum got want)))).
Proof.
  intros Hh HP Hf Hrec Hp Hne Hd.
  destruct (readRecord_flipped rec pre x y post rest None Hrec Hp Hne) as (got & want & E).
  destruct (healthy_scan h _ f Hf Hd) as (H1 & H2 & H3). destruct Hf as (? & ? & ? & ?).
  exists got, want. by eapply (Open_corrupt replay step P).
Qed.

Definition flipped_file : File :=
  mkFile (stream log_a ++ record_lenBuf (set_pos put_b 2)
    ++ (le_bytes 4 (ChecksumIEEE (encodePayload (set_pos put_b 2)))
        ++ [] ++ x03 :: drop 1 (encodePayload (set_pos put_b 2))) ++ []) 5 false None [] [].

Lemma corrupt_payload_rejected_witness :
  exists got want,
    Open ($"p") (Some collect) [] flipped_file
    = (flipped_file, Ret (Err (CorruptRecord (len (stream log_a)) (RecChecksum got want)))).
Proof.
  refine (corrupt_payload_rejected collect _ (fun _ => True) _ log_a (set_pos put_b 2)
            [] x02 x03 (drop 1 (encodePayload (set_pos put_b 2))) [] flipped_file ($"p") []
            _ _ _ _ _ _ _).
  - by_decide.
  - by repeat constructor.
  - done.
  - by_decide.
  - by vm_compute.
  - done.
  - reflexivity.
Defined.

(** The checksum does not cover the length prefix.  If the prefix behind
    the records [h] says fewer than four bytes, or more than are left, recovery
    takes everything from there on for a torn tail: it succeeds with [h] alone
    and cuts the file, whatever complete records follow. *)
Theorem damaged_length_cuts_log {S} (replay : replayer S) step P
    (Hr : Replays replay step P) h n rest f path s :
  wf_history h -> Forall P h -> healthy f -> 0 <= n < 2 ^ 32 ->
  (n < 4 \/ len rest < n) ->
  f_data f = stream h ++ le_bytes 4 n ++ rest ->
  exists f', f_data f' = stream h /\
    Open path (Some replay) s f = (f', Ret (Ok (opened path f' h, fold_left step h s))).
Proof.
  intros Hh HP Hf Hn Hcase Hd.
  destruct (healthy_scan h _ f Hf Hd) as (H1 & H2 & H3). destruct Hf as (? & ? & ? & ?).
  eapply (Open_torn replay step P); try done.
  - unfold readRecord. rewrite ReadFull_app by (by rewrite len_le_bytes).
    cbn zeta. rewrite le_value_u32 by done.
    destruct (decide (n <= len rest)) as [Hle|Hgt].
    + rewrite <- (take_drop (Z.to_nat n) rest) at 1.
      assert (Hl : n = len (take (Z.to_nat n) rest))
        by (unfold len in *; rewrite length_take; lia).
      rewrite ReadFull_app by done. rewrite <- Hl.
      rewrite (proj2 (Z.ltb_lt _ _)) by lia. done.
    + rewrite ReadFull_short by lia. done.
  - by rewrite Hd, drop_app_length.
Qed.

(** A log of two records whose first length prefix was zeroed. *)
Definition zeroed_file : File :=
  mkFile (stream [] ++ le_bytes 4 0 ++ drop 9 (stream log_ab)) 83 false None [] [].

Lemma damaged_length_cuts_log_witness :
  exists f', f_data f' = stream [] /\
    Open ($"p") (Some collect) [] zeroed_file
    = (f', Ret (Ok (opened ($"p") f' [], []))).
Proof.
  refine (damaged_length_cuts_log collect _ (fun _ => True) _ [] 0 (drop 9 (stream log_ab))
            zeroed_file ($"p") [] _ _ _ _ _ _).
  - by_decide.
  - constructor.
  - done.
  - lia.
  - lia.
  - reflexivity.
Defined.

(** A read error during recovery is taken for the end of the log.  If the
    device cannot read position [length (stream h)], where committed records
    [lost] lie, [Open] reports success with [h] alone and truncates the file:
    the committed records are destroyed. *)
Theorem read_error_cuts_log {S} (replay : replayer S) step P
    (Hr : Replays replay step P) h lost e f path s :
  wf_history h -> Forall P h -> lost <> [] ->
  f_data f = stream (h ++ lost) -> f_closed f = false -> f_sys f = [] ->
  f_bad f = Some (length (stream h), e) ->
  exists f', f_data f' = stream h /\
    Open path (Some replay) s f = (f', Ret (Ok (opened path f' h, fold_left step h s))).
Proof.
  intros Hh HP Hlost Hd Hc Hsys Hbad.
  assert (Hl : (length (stream h) < length (f_data f))%nat).
  { rewrite Hd, stream_app, length_app. destruct lost as [|r lost]; [done|]. cbn.
    rewrite length_app. pose proof (len_frame r). pose proof (payload_size_pos r).
    unfold len in *. lia. }
  assert (H5 : (5 <= length (stream h))%nat).
  { pose proof (len_stream h). pose proof (len_nonneg (concat (frame <$> h))).
    unfold len in *. lia. }
  assert (Hdrop : stream (h ++ lost) = stream h ++ concat (frame <$> lost))
    by apply stream_app.
  eapply (Open_torn replay step P h f [] (Some e)); try done.
  - unfold ensureHeader. rewrite (bind_ret _ _ f f None) by (by apply quiet_syscall).
    rewrite (bind_ret _ _ f f f) by done.
    rewrite (proj2 (Z.eqb_neq _ _)) by (unfold len; lia).
    unfold File_ReadAt, reader_at. rewrite Hbad.
    rewrite (proj2 (Z.leb_le _ _)), (proj2 (Z.ltb_lt _ _)) by (unfold len; lia).
    cbn [andb]. rewrite Nat.sub_0_r. change (drop (Z.to_nat 0) (f_data f)) with (f_data f).
    rewrite Hd, Hdrop, take_app_length. unfold stream. by rewrite ReadFull_app.
  - lia.
  - unfold reader_at. rewrite Hbad.
    rewrite (proj2 (Z.leb_le _ _)), (proj2 (Z.ltb_lt _ _)) by (unfold len, headerSize; lia).
    cbn [andb]. rewrite app_nil_r, Hd, Hdrop. unfold stream.
    rewrite <- app_assoc. change (Z.to_nat headerSize) with (length walHeader).
    rewrite drop_app_length, length_app.
    replace (_ - _)%nat with (length (concat (frame <$> h))) by lia.
    by rewrite take_app_length.
  - by rewrite Hd, Hdrop, drop_app_length.
Qed.

Definition bad_sector_file : File :=
  mkFile (stream log_ab) 83 false (Some (length (stream log_a), $"input/output error")) [] [].

Lemma read_error_cuts_log_witness :
  exists f', f_data f' = stream log_a /\
    Open ($"p") (Some collect) [] bad_sector_file
    = (f', Ret (Ok (opened ($"p") f' log_a, log_a))).
Proof.
  refine (read_error_cuts_log collect _ (fun _ => True) _ log_a [set_pos put_b 2]
            ($"input/output error") bad_sector_file ($"p") [] _ _ _ _ _ _ _).
  - by_decide.
  - by repeat constructor.
  - done.
  - by vm_compute.
  - done.
  - done.
  - done.
Defined.

(** A file that does not start with this build's header is refused and left
    untouched: too short, a foreign magic, or another format version are each
    reported as what they are. *)
Theorem header_checked {S} (replay : option (replayer S)) f path s :
  healthy f -> f_data f <> [] -> ~ walHeader `prefix_of` f_data f ->
  Open path replay s f
  = (f, Ret (Err (if len (f_data f) <? headerSize then ReadHeader EOF
                  else if bool_decide (take 4 (f_data f) <> walMagic) then BadMagic
                  else UnsupportedVersion (le_value (take 1 (drop 4 (f_data f))))))).
Proof.
  intros Hf Hne Hpre. unfold Open.
  rewrite (bind_ret _ _ f f None) by (by apply healthy_syscall).
  set (v := if _ <? _ then _ else _). rewrite (bind_ret _ _ f f (Err v)); [done|].
  unfold ensureHeader. rewrite (bind_ret _ _ f f None) by (by apply healthy_syscall).
  rewrite (bind_ret _ _ f f f) by done.
  rewrite (proj2 (Z.eqb_neq _ _)) by (destruct (f_data f); [done|rewrite len_cons;
    pose proof (len_nonneg l); lia]).
  unfold File_ReadAt. rewrite healthy_reader by done.
  change (drop (Z.to_nat 0) (f_data f)) with (f_data f). subst v.
  destruct (len (f_data f) <? headerSize) eqn:El; bool_prop.
  { rewrite ReadFull_short by done. by destruct (f_data f). }
  assert (ReadFull (mkReader (f_data f) None) headerSize
          = (Ok (take 5 (f_data f)), mkReader (drop 5 (f_data f)) None)) as ->.
  { rewrite <- (take_drop 5 (f_data f)) at 1.
    apply ReadFull_app. unfold len, headerSize in *. rewrite length_take. lia. }
  cbn [fst]. rewrite take_take. change (4 `min` 5)%nat with 4%nat.
  destruct (bool_decide (take 4 (f_data f) <> walMagic)) eqn:Em; [done|].
  replace (drop 4 (take 5 (f_data f))) with (take 1 (drop 4 (f_data f)))
    by apply firstn_skipn_comm.
  set (x := take 1 (drop 4 (f_data f))).
  destruct (le_value x =? currentFormatVersion) eqn:Ev; [exfalso|done].
  apply bool_decide_eq_false in Em. apply dec_stable in Em. bool_prop.
  apply Hpre. exists (drop 5 (f_data f)).
  rewrite <- (take_drop 4 (f_data f)) at 1. rewrite Em. unfold walHeader.
  rewrite <- app_assoc. f_equal.
  rewrite <- (take_drop 1 (drop 4 (f_data f))), drop_drop. fold x. f_equal.
  assert (Hx : length x = 1%nat)
    by (subst x; rewrite length_take, length_drop; unfold len, headerSize in El; lia).
  rewrite <- (le_bytes_value x), Hx, Ev. done.
Qed.

Lemma header_checked_witness :
  Open ($"p") (Some collect) [] (mkFile (walMagic ++ [x02] ++ $"later format") 0 false None [] [])
  = (mkFile (walMagic ++ [x02] ++ $"later format") 0 false None [] [],
     Ret (Err (UnsupportedVersion 2))).
Proof.
  refine (header_checked (Some collect) _ ($"p") [] _ _ _); [done|done|].
  intros [k Hk]. discriminate Hk.
Defined.

(** ** Reading ranges *)

(** A range read of a log whose buffer is flushed. *)
Lemma ReadRange_flushed w h from limit :
  wal_inv w h -> b_err (w_w w) = None -> b_buf (w_w w) = [] -> healthy (w_file w) ->
  0 <= from <= 2 ^ 63 -> limit * sizeofRecord <= maxAlloc ->
  ReadRange from limit w
  = (w, Ret (if from =? 0 then [] else
             take (Z.to_nat limit) (drop (Z.to_nat (from - 1)) h), None)).
Proof.
  intros Hinv Hb Hbuf Hf Hfrom Hcap.
  pose proof (wi_ok _ _ Hinv Hb) as (Hs & _ & _ & _ & Hoff). rewrite Hbuf, app_nil_r in Hs.
  pose proof (wi_hist _ _ Hinv) as (_ & _ & _ & Hlen).
  assert (Hlo : len (w_byteOffsets w) = len h)
    by (rewrite Hoff; unfold len; by rewrite length_offsets).
  destruct (decide (1 <= from <= len h /\ 0 < limit)) as [[Hr Hl]|Hout].
  - destruct (ReadRange_spec w h from limit Hinv Hb Hf Hr Hl Hcap) as (m & tail & Hc & ->).
    rewrite (proj2 (Z.eqb_neq _ _)) by lia. rewrite Hs in Hc.
    pose proof (complete_covers _ _ _ _ (length h) Hc ltac:(lia)) as Hm.
    rewrite firstn_all in Hm. rewrite (take_ge h m) by auto with lia. done.
  - unfold ReadRange. rewrite (bind_ret _ _ w w w) by done. rewrite Hlo.
    destruct (from =? 0) eqn:E0; bool_prop; [by subst from|].
    rewrite i64_small by (unfold is_i64; lia).
    destruct (decide (limit <= 0)) as [Hlim|Hlim].
    + rewrite (proj2 (Z.leb_le limit 0)), orb_true_r by lia.
      replace (Z.to_nat limit) with 0%nat by lia. done.
    + rewrite (proj2 (Z.leb_le (len h) (from - 1))), orb_true_r by lia. cbn [orb].
      rewrite drop_ge by (unfold len in *; lia). by rewrite take_nil.
Qed.

(** A starting position above 2^63 becomes negative in the range check. *)
Lemma ReadRange_huge w from limit :
  2 ^ 63 < from < 2 ^ 64 -> 0 < limit -> len (w_byteOffsets w) < 2 ^ 63 ->
  ReadRange from limit w = (w, Panic ($"index out of range")).
Proof.
  intros Hfrom Hl Ho. unfold ReadRange. rewrite (bind_ret _ _ w w w) by done.
  pose proof (len_nonneg (w_byteOffsets w)).
  assert (Hneg : i64 (from - 1) < 0).
  { unfold i64. replace (from - 1 + 2 ^ 63) with (from - 1 - 2 ^ 63 + 1 * 2 ^ 64) by lia.
    rewrite Z.mod_add, Z.mod_small by lia. lia. }
  rewrite (proj2 (Z.ltb_ge from 1)), (proj2 (Z.leb_gt _ (i64 _))), (proj2 (Z.leb_gt limit 0))
    by lia. cbn [orb].
  by rewrite (proj2 (Z.leb_le _ (from - 1))) by lia.
Qed.

(** C32: [ReadRange] at every 64-bit position, for a log with no bytes waiting
    in its write buffer, no sticky write error, a file whose reads do not fail
    and a limit for which the result slice can be allocated.  At positions up to
    2^63 it returns exactly the log's records from position [from] on, at most
    [limit] of them, in commit order, and none and no error past the end, at
    position 0 or with a non-positive limit; above 2^63 it panics if the limit
    is positive, and returns none otherwise.  It changes nothing. *)
Theorem read_range_exact w h from limit :
  wal_inv w h -> b_err (w_w w) = None -> b_buf (w_w w) = [] -> healthy (w_file w) ->
  0 <= from < 2 ^ 64 -> limit * sizeofRecord <= maxAlloc ->
  ReadRange from limit w
  = (w, if (2 ^ 63 <? from) && (0 <? limit) then Panic ($"index out of range")
        else Ret (if from =? 0 then [] else
                  take (Z.to_nat limit) (drop (Z.to_nat (from - 1)) h), None)).
Proof.
  intros Hinv Hb Hbuf Hf Hfrom Hcap.
  destruct (Z.ltb_spec (2 ^ 63) from) as [Hhi|Hlo]; [|by apply ReadRange_flushed; try lia].
  pose proof (wi_hist _ _ Hinv) as (_ & _ & _ & Hlen).
  destruct (Z.ltb_spec 0 limit) as [Hl|Hl]; cbn [andb].
  - apply ReadRange_huge; [lia|done|].
    pose proof (wi_ok _ _ Hinv Hb) as (_ & _ & _ & _ & ->).
    unfold len in *. rewrite length_offsets. lia.
  - unfold ReadRange. rewrite (bind_ret _ _ w w w) by done.
    rewrite (proj2 (Z.leb_le limit 0)), orb_true_r by lia.
    replace (Z.to_nat limit) with 0%nat by lia. by destruct (from =? 0).
Qed.

Lemma read_range_exact_witness :
  let w := opened ($"p") (mkFile (stream log_ab) 83 false None [] []) log_ab in
  ReadRange 2 10 w = (w, Ret ([set_pos put_b 2], None)) /\
  ReadRange (2 ^ 63 + 1) 1 w = (w, Panic ($"index out of range")).
Proof.
  assert (Hi : wal_inv (opened ($"p") (mkFile (stream log_ab) 83 false None [] []) log_ab) log_ab)
    by (apply opened_inv; [by_decide|done|vm_compute; lia]).
  split.
  - refine (read_range_exact _ log_ab 2 10 Hi _ _ _ _ _); [done|done|done|lia|done].
  - refine (read_range_exact _ log_ab (2 ^ 63 + 1) 1 Hi _ _ _ _ _); [done|done|done|lia|done].
Defined.

(** A starting position above 2^63 passes the range check, because the
    check converts it to a signed integer, and then indexes past the end of the
    offset table: the call panics, with the log's mutex held, in every state of
    the log, buffer and file. *)
Theorem read_range_panics w from limit :
  2 ^ 63 < from < 2 ^ 64 -> 0 < limit -> len (w_byteOffsets w) < 2 ^ 63 ->
  ReadRange from limit w = (w, Panic ($"index out of range")).
Proof. apply ReadRange_huge. Qed.

Lemma read_range_panics_witness :
  ReadRange (2 ^ 63 + 1) 1 (demo_wal 1) = (demo_wal 1, Panic ($"index out of range")).
Proof. refine (read_range_panics (demo_wal 1) _ _ _ _ _); [lia|lia|vm_compute; done]. Defined.
