(* ===== verification/GroupCommit.v ===== *)
(** * Group commit: concurrent calls of [Append]

    Goroutines interleave at the points where [Append] does not hold the mutex:
    a follower inside [cond.Wait], the leader inside [file.Sync] and between its
    return and the relock.  The step relation below has one step per critical
    section, taken from Wal; any number of goroutines and any failures.
    Theorems: an acknowledged record is durable in every interleaving, no
    follower is left without a leader, and every call returns. *)

From Stdlib Require Import ZArith Lia.
From S2P Require Import Prelude WalFormat Wal WalInvariant WalRecovery WalTheorems.

(** ** Configurations and steps *)

(** The shared log, where each goroutine is, and two ghosts: the records put
    into the stream, and how many of them were there when the log was opened. *)
Record config := mkConfig {
  c_wal : WAL;
  c_threads : list pc;
  c_hist : list WalRecord;
  c_base : nat
}.

Inductive step : config -> config -> Prop :=
| step_call w T h b rec w' p :
    append_ok h rec -> append_enter rec w = (w', p) ->
    step (mkConfig w T h b)
         (mkConfig w' (T ++ [p])
            (if bool_decide (b_err (w_w w) = None) then log_of h rec else h) b)
| step_sync w T h b i fs pos cov w' e :
    T !! i = Some (Syncing fs pos cov) -> wal_sync cov w = (w', e) ->
    step (mkConfig w T h b) (mkConfig w' (<[i := Synced fs pos e]> T) h b)
| step_relock w T h b i fs pos e w' p :
    T !! i = Some (Synced fs pos e) -> leader_synced fs pos e w = (w', p) ->
    step (mkConfig w T h b) (mkConfig w' (<[i := p]> T) h b)
| step_wake w T h b i s pos r :
    T !! i = Some (Waiting s pos) -> follower_wake s pos w = Returned r ->
    step (mkConfig w T h b) (mkConfig w (<[i := Returned r]> T) h b).

(** A step of a goroutine already inside [Append]. *)
Definition inner_step (c c' : config) : Prop :=
  step c c' /\ length (c_threads c') = length (c_threads c).

Definition initial (c : config) : Prop :=
  exists path f h, c = mkConfig (opened path f h) [] h (length h) /\
    wf_history h /\ f_data f = stream h /\ (5 <= f_synced f <= length (stream h))%nat.

Inductive reachable : config -> Prop :=
| reach_init c : initial c -> reachable c
| reach_step c c' : reachable c -> step c c' -> reachable c'.

(** ** The invariant *)

Definition is_leader (p : pc) : Prop :=
  match p with Syncing _ _ _ | Synced _ _ _ => True | _ => False end.

(** At most one goroutine leads, and one does exactly when the flag is set. *)
Definition leads (T : list pc) (b : bool) : Prop :=
  (forall i j p q, T !! i = Some p -> T !! j = Some q -> is_leader p -> is_leader q -> i = j) /\
  (b = true <-> exists i p, T !! i = Some p /\ is_leader p).

(** End of the record with sequence number [s] in the stream. *)
Definition seq_end (c : config) (s : Z) : nat :=
  length (stream (take (c_base c + Z.to_nat s) (c_hist c))).

Definition thread_ok (c : config) (p : pc) : Prop :=
  let w := c_wal c in
  match p with
  | Waiting s pos =>
    pos = Z.of_nat (c_base c) + s /\ 1 <= s <= w_pendingSeq w /\
    (w_flushedSeq w < s -> w_leading w = true)
  | Syncing fs pos cov =>
    Z.of_nat (c_base c) < pos <= Z.of_nat (c_base c) + fs /\ fs <= w_pendingSeq w /\
    w_flushedSeq w <= fs /\
    (seq_end c fs <= cov <= length (f_data (w_file w)))%nat
  | Synced fs pos e =>
    Z.of_nat (c_base c) < pos <= Z.of_nat (c_base c) + fs /\ fs <= w_pendingSeq w /\
    w_flushedSeq w <= fs /\
    (e = None -> (seq_end c fs <= f_synced (w_file w))%nat)
  | Returned (Ok pos) => durable w (c_hist c) pos
  | Returned (Err _) => True
  end.

Record gc_inv (c : config) : Prop := {
  gi_wal : wal_inv (c_wal c) (c_hist c);
  gi_header : (5 <= f_synced (w_file (c_wal c)))%nat;
  gi_pend : 0 <= w_pendingSeq (c_wal c) /\
            w_pendingSeq (c_wal c) + Z.of_nat (c_base c) <= len (c_hist c);
  gi_seq : b_err (w_w (c_wal c)) = None ->
           w_pendingSeq (c_wal c) + Z.of_nat (c_base c) = len (c_hist c);
  gi_flushed : 0 <= w_flushedSeq (c_wal c) <= w_pendingSeq (c_wal c);
  gi_durable : w_flushErr (c_wal c) = None -> 0 < w_flushedSeq (c_wal c) ->
               (seq_end c (w_flushedSeq (c_wal c)) <= f_synced (w_file (c_wal c)))%nat;
  gi_lead : leads (c_threads c) (w_leading (c_wal c));
  gi_threads : Forall (thread_ok c) (c_threads c)
}.

(** [seq_end] grows with the sequence number and is fixed once written. *)
Lemma seq_end_mono c s t : s <= t -> (seq_end c s <= seq_end c t)%nat.
Proof. intros. apply stream_take_length. lia. Qed.

Lemma seq_end_grow w T h b w' T' k s :
  Z.of_nat b + s <= len h -> 0 <= s ->
  seq_end (mkConfig w' T' (h ++ k) b) s = seq_end (mkConfig w T h b) s.
Proof.
  intros Hs H0. unfold seq_end. cbn. rewrite take_app_le; [done|]. unfold len in Hs. lia.
Qed.

(** ** How steps change who leads *)

Lemma leads_keep T b i p p' :
  leads T b -> T !! i = Some p -> (is_leader p <-> is_leader p') -> leads (<[i := p']> T) b.
Proof.
  intros [Hu Hb] Hi Hp.
  assert (Hback : forall j q, <[i := p']> T !! j = Some q -> is_leader q ->
                  exists q', T !! j = Some q' /\ is_leader q').
  { intros j q Hj Hq. destruct (decide (i = j)) as [<-|Hne].
    - rewrite list_lookup_insert_eq in Hj by (by eapply lookup_lt_Some).
      injection Hj as <-. exists p. tauto.
    - rewrite list_lookup_insert_ne in Hj by done. eauto. }
  split.
  - intros j k q q' Hj Hk Hq Hq'.
    destruct (Hback _ _ Hj Hq) as (x & Hx & Lx). destruct (Hback _ _ Hk Hq') as (y & Hy & Ly).
    eauto.
  - rewrite Hb. split; [|intros (j & q & Hj & Hq); destruct (Hback _ _ Hj Hq) as (x & ? & ?); eauto].
    intros (j & q & Hj & Hq). destruct (decide (i = j)) as [<-|Hne].
    + exists i, p'. rewrite list_lookup_insert_eq by (by eapply lookup_lt_Some).
      split; [done|]. simplify_eq. tauto.
    + exists j, q. by rewrite list_lookup_insert_ne.
Qed.

Lemma leads_down T b i p p' :
  leads T b -> T !! i = Some p -> is_leader p -> ~ is_leader p' -> leads (<[i := p']> T) false.
Proof.
  intros [Hu Hb] Hi Hp Hp'.
  assert (Hno : forall j q, <[i := p']> T !! j = Some q -> ~ is_leader q).
  { intros j q Hj Hq. destruct (decide (i = j)) as [<-|Hne].
    - rewrite list_lookup_insert_eq in Hj by (by eapply lookup_lt_Some). congruence.
    - rewrite list_lookup_insert_ne in Hj by done. apply Hne. eauto. }
  split; [intros; exfalso; by eapply Hno|].
  split; [done|]. intros (j & q & Hj & Hq). exfalso. by eapply Hno.
Qed.

Lemma leads_add T b p : leads T b -> ~ is_leader p -> leads (T ++ [p]) b.
Proof.
  intros [Hu Hb] Hp.
  assert (Hback : forall j q, (T ++ [p]) !! j = Some q -> is_leader q -> T !! j = Some q).
  { intros j q [?|[? Hj]]%lookup_app_Some Hq; [done|].
    destruct (j - length T)%nat; simplify_list_eq. done. }
  split; [eauto|]. rewrite Hb. split; intros (j & q & Hj & Hq).
  - exists j, q. split; [by apply lookup_app_l_Some|done].
  - eauto.
Qed.

Lemma leads_up T p : leads T false -> is_leader p -> leads (T ++ [p]) true.
Proof.
  intros [Hu Hb] Hp.
  assert (Hno : forall j q, T !! j = Some q -> ~ is_leader q).
  { intros j q Hj Hq. discriminate (proj2 Hb). eauto. }
  assert (Hlast : forall j q, (T ++ [p]) !! j = Some q -> is_leader q -> j = length T).
  { intros j q [Hj|[? Hj]]%lookup_app_Some Hq; [exfalso; by eapply Hno|].
    destruct (j - length T)%nat eqn:E; [lia|simplify_list_eq]. }
  split.
  - intros i j q q' Hi Hj Hq Hq'. by rewrite (Hlast i q), (Hlast j q').
  - split; [|done]. intros _. exists (length T), p.
    by rewrite lookup_app_r, Nat.sub_diag by lia.
Qed.

(** ** Preservation *)

(** A goroutine that does not move stays in order when the log only grows. *)
Lemma thread_ok_mono w T h b w' T' k p :
  w_pendingSeq w + Z.of_nat b <= len h -> 0 <= w_flushedSeq w ->
  thread_ok (mkConfig w T h b) p ->
  w_pendingSeq w <= w_pendingSeq w' ->
  (f_synced (w_file w) <= f_synced (w_file w'))%nat ->
  (length (f_data (w_file w)) <= length (f_data (w_file w')))%nat ->
  (forall s pos, p = Waiting s pos -> w_flushedSeq w' < s -> w_leading w' = true) ->
  (is_leader p -> w_flushedSeq w' <= w_flushedSeq w) ->
  thread_ok (mkConfig w' T' (h ++ k) b) p.
Proof.
  intros Hpend Hfl Hp Hpe Hsy Hda Hw Hl.
  destruct p as [s pos|fs pos cov|fs pos e|[pos|e]]; cbn in *; try done.
  - destruct Hp as (-> & ? & ?). split_and!; try lia. eauto.
  - destruct Hp as (? & ? & ? & ?). specialize (Hl I).
    rewrite (seq_end_grow w T) by lia. split_and!; lia.
  - destruct Hp as (? & ? & ? & He). specialize (Hl I).
    rewrite (seq_end_grow w T) by lia. split_and!; try lia. intros ->.
    specialize (He eq_refl). lia.
  - by eapply durable_mono.
Qed.

Lemma Forall_insert_upd {A} (P Q : A -> Prop) l i x :
  Forall P l -> (forall j y, j <> i -> l !! j = Some y -> P y -> Q y) -> Q x ->
  Forall Q (<[i := x]> l).
Proof.
  intros HP Hother Hx. apply Forall_lookup. intros j y Hj.
  destruct (decide (i = j)) as [<-|Hne].
  - destruct (decide (i < length l)%nat) as [Hlt|Hge].
    + rewrite list_lookup_insert_eq in Hj by done. by simplify_eq.
    + rewrite list_insert_ge in Hj by lia. apply lookup_lt_Some in Hj. lia.
  - rewrite list_lookup_insert_ne in Hj by done.
    eapply Hother; eauto. by eapply Forall_lookup_1.
Qed.

Lemma append_enter_stuck rec w e :
  b_err (w_w w) = Some e ->
  append_enter rec w = (bump_next w, Returned (Err (WriteLength e))).
Proof.
  intros Hb. unfold append_enter, io_of. cbn zeta. cbn [w_file w_w bump_next].
  rewrite (bufio_Write_stuck _ _ _ e) by done. by destruct w.
Qed.

Lemma leader_flush_stuck pos w e :
  b_err (w_w w) = Some e ->
  leader_flush pos w
  = (set_group w (w_pendingSeq w) (Some (FlushFailed e)) false, Returned (Err (FlushFailed e))).
Proof.
  intros Hb. unfold leader_flush, io_of. rewrite (bufio_Flush_stuck _ _ e) by done.
  by destruct w.
Qed.

Lemma gc_call_stuck w T h b e :
  gc_inv (mkConfig w T h b) -> b_err (w_w w) = Some e ->
  gc_inv (mkConfig (bump_next w) (T ++ [Returned (Err (WriteLength e))]) h b).
Proof.
  intros [Hw H5 Hp Hs Hf Hd Hl Ht] Hb. split; cbn in *; try done.
  - destruct Hw as [? ? ? ? Hok]. split; try done. cbn. congruence.
  - by apply leads_add; [|auto].
  - apply Forall_app. split; [exact Ht|by repeat constructor].
Qed.

Lemma gc_call w T h b rec w' p :
  gc_inv (mkConfig w T h b) -> b_err (w_w w) = None -> append_ok h rec ->
  append_enter rec w = (w', p) ->
  gc_inv (mkConfig w' (T ++ [p]) (log_of h rec) b).
Proof.
  intros [Hw H5 Hp Hs Hf Hd Hl Ht] Hb Hrec Hent. cbn in *. specialize (Hs Hb).
  destruct (append_enter_spec rec w h Hw Hb Hrec)
    as (w1 & p1 & E & Hinv & Hsy & _ & Hda & Hpost).
  rewrite Hent in E. injection E as <- <-.
  pose proof (wi_hist _ _ Hw) as (_ & _ & _ & Hlen).
  assert (Hu : u64 (w_pendingSeq w + 1) = w_pendingSeq w + 1)
    by (apply u64_small; unfold is_u64; lia).
  assert (Hlh : len (log_of h rec) = len h + 1)
    by (unfold log_of; rewrite len_app, len_cons, len_nil; lia).
  assert (Hold : w_pendingSeq w <= w_pendingSeq w' ->
    (w_flushedSeq w' = w_flushedSeq w /\ w_leading w' = w_leading w) \/
    (w_leading w = false /\ w_flushedSeq w <= w_flushedSeq w' <= w_pendingSeq w') ->
    Forall (thread_ok (mkConfig w' (T ++ [p]) (log_of h rec) b)) T).
  { intros Hpe Hcase. apply Forall_lookup. intros i q Hi.
    pose proof (Forall_lookup_1 _ _ _ _ Ht Hi) as Hq.
    eapply (thread_ok_mono w T); try done; try lia.
    - intros s pos -> Hlt. destruct Hq as (_ & ? & Hq).
      destruct Hcase as [[Hfe Hle]|[Hfalse ?]]; [rewrite Hle; apply Hq; cbn; lia|].
      assert (w_leading w = true) by (apply Hq; cbn; lia). congruence.
    - intros Hlead. destruct Hcase as [[-> _]|[Hfalse _]]; [lia|].
      destruct Hl as [_ Hl]. rewrite Hfalse in Hl. discriminate (proj2 Hl). eauto. }
  assert (Hgrow : forall w2 T2 s, 0 <= s <= w_pendingSeq w ->
    seq_end (mkConfig w2 T2 (log_of h rec) b) s = seq_end (mkConfig w T h b) s)
    by (intros; apply seq_end_grow; lia).
  destruct p as [s pos|fs pos cov| |[pos|[]]]; cbn in Hpost; try done.
  - destruct Hpost as (Hl0 & Hl1 & Hpe & -> & -> & Hb' & Hfs & Hfe). rewrite Hu in Hpe.
    split; cbn; rewrite ?Hsy, ?Hpe, ?Hlh; try done; try lia.
    + rewrite Hfs, Hfe. intros Hn Hpos. rewrite Hgrow by lia. by apply Hd.
    + rewrite Hl1, <- Hl0. by apply leads_add; [|auto].
    + apply Forall_app. split; [apply Hold; [lia|left; by rewrite Hl0]|].
      apply Forall_singleton. cbn. split_and!; try lia. done.
  - destruct Hpost as (Hl0 & Hl1 & Hpe & -> & -> & Hb' & Hfs & Hfe & -> & Hbuf). rewrite Hu in Hpe.
    split; cbn; rewrite ?Hsy, ?Hpe, ?Hlh; try done; try lia.
    + rewrite Hfs, Hfe. intros Hn Hpos. rewrite Hgrow by lia. by apply Hd.
    + rewrite Hl1. apply leads_up; [by rewrite <- Hl0|done].
    + apply Forall_app. split; [apply Hold; [lia|right; split; [done|lia]]|].
      destruct (wi_ok _ _ Hinv Hb') as (Hst & _). rewrite Hbuf, app_nil_r in Hst.
      apply Forall_singleton. cbn. split_and!; try lia.
      rewrite Hst. apply stream_take_le.
  - destruct Hpost as (Hl1 & Hpe & Hfs & Hfe & Hb').
    split; cbn; rewrite ?Hsy, ?Hpe, ?Hlh; try done; try lia.
    + rewrite Hfs, Hfe. intros Hn Hpos. rewrite Hgrow by lia. by apply Hd.
    + rewrite Hl1. by apply leads_add; [|auto].
    + apply Forall_app. split; [apply Hold; [lia|left; done]|by repeat constructor].
  - destruct Hpost as (Hl1 & Hpe & Hfs & Hfe & Hb').
    split; cbn; rewrite ?Hsy, ?Hpe, ?Hlh; try done; try lia.
    + rewrite Hfs, Hfe. intros Hn Hpos. rewrite Hgrow by lia. by apply Hd.
    + rewrite Hl1. by apply leads_add; [|auto].
    + apply Forall_app. split; [apply Hold; [lia|left; done]|by repeat constructor].
  - destruct Hpost as (Hl0 & Hl1 & Hpe & Hfs & Hfe & Hb'). rewrite Hu in Hpe.
    split; cbn; rewrite ?Hsy, ?Hpe, ?Hlh; try done; try lia.
    + rewrite Hfe. done.
    + rewrite Hl1, <- Hl0. by apply leads_add; [|auto].
    + apply Forall_app. split; [apply Hold; [lia|right; split; [done|lia]]|by repeat constructor].
Qed.

Lemma gc_sync w T h b i fs pos cov w' e :
  gc_inv (mkConfig w T h b) -> T !! i = Some (Syncing fs pos cov) ->
  wal_sync cov w = (w', e) -> gc_inv (mkConfig w' (<[i := Synced fs pos e]> T) h b).
Proof.
  intros [Hw H5 Hp Hs Hf Hd Hl Ht] Hi Hsync. cbn in *.
  pose proof (Forall_lookup_1 _ _ _ _ Ht Hi) as (Hpos & Hfs & Hfl & Hcov). cbn in *.
  destruct (wal_sync_spec cov w) as (f' & e' & E & Hda & Hsy).
  rewrite Hsync in E. injection E as -> <-.
  pose proof (wi_synced _ _ Hw) as Hle.
  assert (Hmono : (f_synced (w_file w) <= f_synced f')%nat) by (rewrite Hsy; destruct e; lia).
  split; cbn; try done; try lia.
  - apply set_file_inv; [done..|]. rewrite Hsy. destruct e; lia.
  - intros Hn Hp0. etransitivity; [by apply Hd|lia].
  - by eapply leads_keep.
  - eapply Forall_insert_upd; [exact Ht| |].
    + intros j q _ Hj Hq. rewrite <- (app_nil_r h).
      eapply (thread_ok_mono w T); cbn; try done; try lia.
      * by rewrite Hda.
      * intros s ps ->. by destruct Hq as (_ & _ & ?).
    + cbn. split_and!; try lia. intros ->. rewrite Hsy. unfold seq_end in *. cbn in *. lia.
Qed.

Lemma gc_wake w T h b i s pos r :
  gc_inv (mkConfig w T h b) -> T !! i = Some (Waiting s pos) ->
  follower_wake s pos w = Returned r -> gc_inv (mkConfig w (<[i := Returned r]> T) h b).
Proof.
  intros [Hw H5 Hp Hs Hf Hd Hl Ht] Hi Hwake. cbn in *.
  pose proof (Forall_lookup_1 _ _ _ _ Ht Hi) as (-> & Hrange & _). cbn in *.
  unfold follower_wake in Hwake. destruct (_ <? _) eqn:E; [done|]. bool_prop.
  injection Hwake as <-. split; cbn; try done.
  - by eapply leads_keep.
  - eapply Forall_insert_upd; [exact Ht|done|].
    destruct (w_flushErr w) as [e|]; [done|]. cbn. split; [lia|]. specialize (Hd eq_refl ltac:(lia)).
    etransitivity; [|exact Hd].
    etransitivity; [|apply (seq_end_mono (mkConfig w T h b) s); lia].
    unfold seq_end. cbn. replace (Z.to_nat _) with (b + Z.to_nat s)%nat by lia. done.
Qed.

Lemma gc_relock w T h b i fs pos e w' p :
  gc_inv (mkConfig w T h b) -> T !! i = Some (Synced fs pos e) ->
  leader_synced fs pos e w = (w', p) -> gc_inv (mkConfig w' (<[i := p]> T) h b).
Proof.
  intros [Hw H5 Hp Hs Hf Hd Hl Ht] Hi Hrel. cbn in *.
  pose proof (Forall_lookup_1 _ _ _ _ Ht Hi) as (Hpos & Hfs & Hfl & Hdur). cbn in *.
  assert (Hother : forall w2 p2,
    w_pendingSeq w2 = w_pendingSeq w -> f_synced (w_file w2) = f_synced (w_file w) ->
    (length (f_data (w_file w)) <= length (f_data (w_file w2)))%nat ->
    (w_flushedSeq w2 = w_pendingSeq w \/ w_leading w2 = true) ->
    thread_ok (mkConfig w2 (<[i := p2]> T) h b) p2 ->
    Forall (thread_ok (mkConfig w2 (<[i := p2]> T) h b)) (<[i := p2]> T)).
  { intros w2 p2 Hpe Hsy Hda Hcase Hp2. eapply Forall_insert_upd; [exact Ht| |done].
    intros j q Hj Hq Hok. rewrite <- (app_nil_r h).
    eapply (thread_ok_mono w T); cbn; try done; try lia.
    - intros s ps -> Hlt. destruct Hok as (_ & ? & _). cbn in *. destruct Hcase; [lia|done].
    - intros Hlead. exfalso. apply Hj. destruct Hl as [Hu _]. by eapply Hu. }
  unfold leader_synced in Hrel. destruct e as [e|].
  { injection Hrel as <- <-. split; cbn; try done; try lia.
    - auto with uddp.
    - eapply leads_down; [done|done|done|by intros []].
    - by apply Hother; [..|left|]. }
  specialize (Hdur eq_refl).
  destruct (w_pendingSeq w =? fs) eqn:E; bool_prop.
  { injection Hrel as <- <-. subst fs. split; cbn; try done; try lia.
    - auto with uddp.
    - eapply leads_down; [done|done|done|by intros []].
    - apply Hother; [done..|by left|]. cbn. split; [lia|].
      etransitivity; [|exact Hdur]. apply stream_take_length. cbn. lia. }
  set (w1 := set_group w fs None true) in Hrel.
  assert (Hw1 : wal_inv w1 h) by (subst w1; auto with uddp).
  destruct (b_err (w_w w)) as [er|] eqn:Hb.
  { rewrite (leader_flush_stuck _ _ er) in Hrel by done. injection Hrel as <- <-.
    split; cbn; try done; try lia.
    - auto with uddp.
    - by rewrite Hb.
    - eapply leads_down; [done|done|done|by intros []].
    - by apply Hother; [..|left|]. }
  destruct (leader_flush_spec pos w1 h Hw1 Hb)
    as (w2 & p2 & E2 & Hinv2 & Hpe2 & Hsy2 & _ & Hda2 & Hpost).
  rewrite Hrel in E2. injection E2 as <- <-. cbn in Hpe2, Hsy2, Hda2.
  specialize (Hs eq_refl). assert (Hlead : w_leading w = true).
  { apply (proj2 Hl). by exists i, (Synced fs pos None). }
  destruct p as [| | |[|[]]]; try done.
  - destruct Hpost as (-> & -> & -> & Hl2 & Hf2 & He2 & Hb2 & _ & Hda).
    cbn in Hl2, Hf2, He2. split; cbn; rewrite ?Hsy2, ?Hpe2; try done; try lia.
    + rewrite Hf2. intros _ _. exact Hdur.
    + rewrite Hl2, <- Hlead. by eapply leads_keep.
    + apply Hother; [done..|by right|]. cbn. rewrite Hpe2, Hf2, Hda.
      split_and!; try lia. apply stream_take_le.
  - destruct Hpost as (Hl2 & Hf2 & He2 & Hb2).
    split; cbn; rewrite ?Hsy2, ?Hpe2; try done; try lia.
    + by rewrite He2.
    + rewrite Hl2. eapply leads_down; [done|done|done|by intros []].
    + by apply Hother; [..|left; rewrite Hf2|].
Qed.

Lemma gc_step c c' : gc_inv c -> step c c' -> gc_inv c'.
Proof.
  intros Hc Hs. destruct Hs as [w T h b rec w' p Hrec He| | |].
  - destruct (b_err (w_w w)) as [e|] eqn:Hb.
    + rewrite (append_enter_stuck _ _ e) in He by done. injection He as <- <-.
      rewrite bool_decide_false by done. by apply gc_call_stuck.
    + rewrite bool_decide_true by done. by eapply gc_call.
  - by eapply gc_sync.
  - by eapply gc_relock.
  - by eapply gc_wake.
Qed.

Lemma gc_initial c : initial c -> gc_inv c.
Proof.
  intros (path & f & h & -> & Hh & Hd & Hsy).
  split; cbn; try done; try (unfold len; lia).
  - by apply opened_inv; [..|lia].
  - split; [intros i j p q Hi; by rewrite lookup_nil in Hi|].
    split; [done|]. intros (i & p & Hi & _). by rewrite lookup_nil in Hi.
Qed.

Lemma gc_reachable c : reachable c -> gc_inv c.
Proof. induction 1; eauto using gc_initial, gc_step. Qed.

(** ** Termination measure *)

(** The critical sections a goroutine still has before it, if no call arrives. *)
Definition weight (pending : Z) (p : pc) : nat :=
  match p with
  | Waiting _ _ => 1%nat
  | Syncing fs _ _ => if fs =? pending then 2%nat else 4%nat
  | Synced fs _ _ => if fs =? pending then 1%nat else 3%nat
  | Returned _ => 0%nat
  end.

Definition remaining (c : config) : nat :=
  sum_list_with (weight (w_pendingSeq (c_wal c))) (c_threads c).

Lemma leader_flush_pc pos w w' p :
  leader_flush pos w = (w', p) ->
  w_pendingSeq w' = w_pendingSeq w /\ (weight (w_pendingSeq w) p <= 2)%nat.
Proof.
  unfold leader_flush. destruct (bufio_Flush (io_of w)) as [fb [[e|]| |]];
    intros [= <- <-]; cbn; rewrite ?Z.eqb_refl; split; (done || lia).
Qed.

(** Every inner step brings the calls in progress closer to their return. *)
Lemma inner_step_decreases c c' : inner_step c c' -> (remaining c' < remaining c)%nat.
Proof.
  intros [Hs Hlen]. unfold remaining.
  destruct Hs as [w T h b rec w' p _ _|w T h b i fs pos cov w' e Hi Hsync
                 |w T h b i fs pos e w' p Hi Hrel|w T h b i s pos r Hi Hw]; cbn in *.
  - rewrite length_app in Hlen. cbn in Hlen. lia.
  - destruct (wal_sync_spec cov w) as (f' & e' & E & _). rewrite Hsync in E.
    injection E as -> ->. cbn.
    pose proof (sum_insert (weight (w_pendingSeq w)) T i _ (Synced fs pos e') Hi) as Hsum.
    cbn in Hsum. destruct (fs =? w_pendingSeq w); lia.
  - pose proof (sum_insert (weight (w_pendingSeq w)) T i _ p Hi) as Hsum. cbn in Hsum.
    unfold leader_synced in Hrel. destruct e as [e|].
    + injection Hrel as <- <-. cbn in *. destruct (fs =? w_pendingSeq w); lia.
    + destruct (w_pendingSeq w =? fs) eqn:E.
      * injection Hrel as <- <-. bool_prop. subst fs. rewrite Z.eqb_refl in Hsum. cbn in *. lia.
      * apply leader_flush_pc in Hrel as [Hpe Hwt]. cbn in Hpe, Hwt. rewrite Hpe.
        rewrite Z.eqb_sym, E in Hsum. lia.
  - pose proof (sum_insert (weight (w_pendingSeq w)) T i _ (Returned r) Hi) as Hsum.
    cbn in Hsum. lia.
Qed.

Lemma inner_step_reachable c c' : reachable c -> inner_step c c' -> reachable c'.
Proof. intros Hc [Hs _]. by eapply reach_step. Qed.

Definition is_returned (p : pc) : Prop :=
  match p with Returned _ => True | _ => False end.
#[export] Instance is_returned_dec p : Decision (is_returned p).
Proof. destruct p; apply _. Defined.

Definition all_returned (c : config) : Prop :=
  forall i p, c_threads c !! i = Some p -> exists r, p = Returned r.

(** A waiting follower that is not covered yet has a leader at work. *)
Lemma waiting_has_leader c i s pos :
  gc_inv c -> c_threads c !! i = Some (Waiting s pos) -> w_flushedSeq (c_wal c) < s ->
  exists j p, c_threads c !! j = Some p /\ is_leader p.
Proof.
  intros Hc Hi Hlt. apply (proj2 (gi_lead _ Hc)).
  by apply (Forall_lookup_1 _ _ _ _ (gi_threads _ Hc) Hi).
Qed.

Lemma leader_steps c i p :
  c_threads c !! i = Some p -> is_leader p -> exists c', inner_step c c'.
Proof.
  destruct c as [w T h b]. cbn. intros Hi Hp. destruct p as [|fs pos cov|fs pos e|]; try done.
  - destruct (wal_sync cov w) as [w' e] eqn:E. eexists. split; [by eapply step_sync|].
    cbn. by rewrite length_insert.
  - destruct (leader_synced fs pos e w) as [w' p] eqn:E. eexists.
    split; [by eapply step_relock|]. cbn. by rewrite length_insert.
Qed.

Lemma progress c : gc_inv c -> all_returned c \/ exists c', inner_step c c'.
Proof.
  intros Hc.
  destruct (decide (Forall is_returned (c_threads c))) as [Hall|Hnot].
  { left. intros i p Hi. pose proof (Forall_lookup_1 _ _ _ _ Hall Hi) as Hp.
    destruct p; try done. eauto. }
  right. apply not_Forall_Exists, Exists_exists in Hnot as (p & Hin & Hp); [|apply _].
  apply list_elem_of_lookup in Hin as [i Hi].
  destruct p as [s pos|fs pos cov|fs pos e|r]; [|by eapply leader_steps..|by destruct Hp].
  destruct (decide (w_flushedSeq (c_wal c) < s)) as [Hlt|Hge].
  - destruct (waiting_has_leader c i s pos Hc Hi Hlt) as (j & q & Hj & Hq).
    by eapply leader_steps.
  - destruct c as [w T h b]. cbn in *. eexists. split.
    + eapply step_wake; [done|]. unfold follower_wake.
      by rewrite (proj2 (Z.ltb_ge _ _)) by lia.
    + cbn. by rewrite length_insert.
Qed.

(** ** An executable scheduler *)

Inductive event := Call (rec : WalRecord) | SyncEnds (i : nat) | Relock (i : nat) | Wake (i : nat).

(** Let goroutine [i] run its next critical section, or a new one call. *)
Definition exec1 (c : config) (e : event) : option config :=
  let '(mkConfig w T h b) := c in
  match e with
  | Call rec =>
    if decide (append_ok h rec) then
      let '(w', p) := append_enter rec w in
      Some (mkConfig w' (T ++ [p])
              (if bool_decide (b_err (w_w w) = None) then log_of h rec else h) b)
    else None
  | SyncEnds i =>
    match T !! i with
    | Some (Syncing fs pos cov) =>
      let '(w', e) := wal_sync cov w in Some (mkConfig w' (<[i := Synced fs pos e]> T) h b)
    | _ => None
    end
  | Relock i =>
    match T !! i with
    | Some (Synced fs pos e) =>
      let '(w', p) := leader_synced fs pos e w in Some (mkConfig w' (<[i := p]> T) h b)
    | _ => None
    end
  | Wake i =>
    match T !! i with
    | Some (Waiting s pos) =>
      match follower_wake s pos w with
      | Returned r => Some (mkConfig w (<[i := Returned r]> T) h b)
      | _ => None
      end
    | _ => None
    end
  end.

Lemma exec1_step c e c' : exec1 c e = Some c' -> step c c'.
Proof.
  destruct c as [w T h b], e as [rec|i|i|i]; cbn.
  - case_decide as Hd; [|done]. destruct (append_enter rec w) as [w' p] eqn:E.
    intros [= <-]. by apply step_call.
  - destruct (T !! i) as [[]|] eqn:Hi; try done.
    destruct (wal_sync _ w) as [w' e] eqn:E. intros [= <-]. by eapply step_sync.
  - destruct (T !! i) as [[]|] eqn:Hi; try done.
    destruct (leader_synced _ _ _ w) as [w' p] eqn:E. intros [= <-]. by eapply step_relock.
  - destruct (T !! i) as [[]|] eqn:Hi; try done.
    destruct (follower_wake _ _ w) eqn:E; try done. intros [= <-]. by eapply step_wake.
Qed.

Fixpoint exec (c : config) (es : list event) : option config :=
  match es with
  | [] => Some c
  | e :: es => match exec1 c e with Some c => exec c es | None => None end
  end.

Lemma exec_reachable c es c' : reachable c -> exec c es = Some c' -> reachable c'.
Proof.
  revert c. induction es as [|e es IH]; cbn; intros c Hc H; [by simplify_eq|].
  destruct (exec1 c e) as [c1|] eqn:E; [|done].
  eapply IH; [|done]. eapply reach_step; [done|]. by apply exec1_step in E.
Qed.

(** ** Two goroutines: the second enters while the first is inside its fsync *)

Definition start (f : File) : config := mkConfig (opened ($"p") f []) [] [] 0.

Definition good_file : File := mkFile (stream []) 5 false None [] [].
(** The second fsync fails. *)
Definition failing_file : File :=
  mkFile (stream []) 5 false None [] [None; Some ($"input/output error")].

Lemma start_reachable f :
  f_data f = stream [] -> f_synced f = 5%nat -> reachable (start f).
Proof.
  intros Hd Hs. apply reach_init. exists ($"p"), f, []. split; [done|].
  split; [apply wf_history_nil|]. split; [done|]. rewrite Hs. vm_compute. lia.
Qed.

Definition two_calls : list event := [Call put_a; Call put_b; SyncEnds 0; Relock 0].
Definition both_return : list event := two_calls ++ [SyncEnds 0; Relock 0; Wake 1].

Definition final (f : File) (es : list event) : config := default (start f) (exec (start f) es).

Lemma final_reachable f es :
  f_data f = stream [] -> f_synced f = 5%nat -> reachable (final f es).
Proof.
  intros Hd Hs. unfold final. destruct (exec (start f) es) as [c|] eqn:E; cbn.
  - eapply exec_reachable; [by apply start_reachable|done].
  - by apply start_reachable.
Qed.

(** ** Properties *)

(** C2: in every interleaving of concurrent [Append] calls, under any write and
    fsync failures, a record whose call returned success survives any later
    crash: it is on stable storage when the call returns, and recovery replays
    it with everything before it. *)
Theorem group_commit_durable {S} (replay : replayer S) fstep P (Hr : Replays replay fstep P)
    c i pos k path s :
  reachable c -> c_threads c !! i = Some (Returned (Ok pos)) ->
  Forall P (c_hist c) -> (f_synced (w_file (c_wal c)) <= k)%nat ->
  exists m f',
    Open path (Some replay) s (crash k (w_file (c_wal c)))
    = (f', Ret (Ok (opened path f' (take m (c_hist c)), fold_left fstep (take m (c_hist c)) s))) /\
    1 <= pos <= Z.of_nat m.
Proof.
  intros Hc Hi HP Hk. apply gc_reachable in Hc as Hinv.
  pose proof (Forall_lookup_1 _ _ _ _ (gi_threads _ Hinv) Hi) as Hd. cbn in Hd.
  destruct (crash_recovers replay fstep P Hr (c_wal c) (c_hist c) k path s
              (gi_wal _ Hinv) (gi_header _ Hinv) HP Hk) as (m & f' & HO & _ & _ & _ & Hm).
  exists m, f'. split; [done|]. split; [apply Hd|by apply Hm].
Qed.

Lemma group_commit_durable_witness :
  exists m f',
    Open ($"p") (Some collect) [] (crash 83 (w_file (c_wal (final good_file both_return))))
    = (f', Ret (Ok (opened ($"p") f' (take m log_ab),
                    fold_left (fun s r => s ++ [r]) (take m log_ab) []))) /\
    1 <= 2 <= Z.of_nat m.
Proof.
  refine (group_commit_durable collect _ (fun _ => True) _ (final good_file both_return) 1 2 83
            ($"p") [] _ _ _ _).
  - by apply final_reachable.
  - vm_compute. reflexivity.
  - apply Forall_true. done.
  - vm_compute. lia.
Defined.

(** C11: no follower is stranded.  Whenever a call waits for a flush that does
    not cover its record yet, some other goroutine is inside the leader's loop,
    and exactly one is. *)
Theorem no_stranded_follower c i s pos :
  reachable c -> c_threads c !! i = Some (Waiting s pos) -> w_flushedSeq (c_wal c) < s ->
  exists j p, c_threads c !! j = Some p /\ is_leader p /\
    forall j' p', c_threads c !! j' = Some p' -> is_leader p' -> j' = j.
Proof.
  intros Hc Hi Hlt. apply gc_reachable in Hc.
  destruct (waiting_has_leader c i s pos Hc Hi Hlt) as (j & p & Hj & Hp).
  exists j, p. split_and!; try done. intros j' p' Hj' Hp'.
  destruct (gi_lead _ Hc) as [Hu _]. by eapply Hu.
Qed.

Lemma no_stranded_follower_witness :
  exists j p, c_threads (final good_file two_calls) !! j = Some p /\ is_leader p /\
    forall j' p', c_threads (final good_file two_calls) !! j' = Some p' -> is_leader p' -> j' = j.
Proof.
  refine (no_stranded_follower (final good_file two_calls) 1 2 2 _ _ _).
  - by apply final_reachable.
  - vm_compute. reflexivity.
  - vm_compute. reflexivity.
Defined.

(** C10: every call of [Append] returns.  Once no new calls arrive, the calls in
    progress take at most [remaining c] further steps, however they are
    scheduled and whatever fails, and a state in which none can move is one in
    which all have returned. *)
Theorem appends_terminate c :
  reachable c ->
  (forall n c', nsteps inner_step n c c' -> (n <= remaining c)%nat) /\
  (forall c', rtc inner_step c c' -> (forall c'', ~ inner_step c' c'') -> all_returned c').
Proof.
  intros Hc. split.
  - intros n c' Hn. induction Hn as [c|n c c1 c2 H1 H2 IH]; [lia|].
    pose proof (inner_step_decreases _ _ H1).
    specialize (IH (inner_step_reachable _ _ Hc H1)). lia.
  - intros c' Hrtc Hstuck.
    assert (Hc' : reachable c') by (induction Hrtc; eauto using inner_step_reachable).
    destruct (progress c' (gc_reachable _ Hc')) as [|[c'' H]]; [done|].
    by destruct (Hstuck c'').
Qed.

Lemma appends_terminate_witness :
  remaining (final failing_file two_calls) = 3%nat /\
  (forall n c', nsteps inner_step n (final failing_file two_calls) c' -> (n <= 3)%nat) /\
  (forall c', rtc inner_step (final failing_file two_calls) c' ->
     (forall c'', ~ inner_step c' c'') -> all_returned c').
Proof.
  split; [vm_compute; reflexivity|].
  exact (appends_terminate (final failing_file two_calls)
           (final_reachable failing_file two_calls eq_refl eq_refl)).
Defined.

(** A call can report failure for a record that is durably committed: the
    leader's own record was synced in its first round, and the fsync it then
    runs on behalf of a follower fails, which it returns to its own caller. *)
Theorem failed_append_may_be_durable :
  exists c e, reachable c /\
    c_threads c !! 0%nat = Some (Returned (Err (FsyncFailed e))) /\
    c_hist c !! 0%nat = Some (set_pos put_a 1) /\ durable (c_wal c) (c_hist c) 1.
Proof.
  exists (final failing_file both_return), ($"input/output error").
  split; [by apply final_reachable|]. split; [by vm_compute|]. split; [by vm_compute|].
  split; vm_compute; [split; discriminate|lia].
Qed.

(** [ReadRange] serves records that are not on stable storage: while the
    leader is inside its fsync, the flushed record can be read, and a crash at
    that point loses it. *)
Theorem read_range_sees_unsynced :
  exists c rec, reachable c /\
    (ReadRange 1 1 (c_wal c)).2 = Ret ([rec], None) /\
    ~ durable (c_wal c) (c_hist c) 1 /\
    exists f' w', Open ($"p") (Some collect) [] (crash (f_synced (w_file (c_wal c))) (w_file (c_wal c)))
                  = (f', Ret (Ok (w', []))).
Proof.
  exists (final good_file [Call put_a]), (set_pos put_a 1).
  split; [by apply final_reachable|]. split; [by vm_compute|]. split.
  - intros [_ H]. vm_compute in H. lia.
  - do 2 eexists. vm_compute. reflexivity.
Qed.
