(* ===== verification/GroupClose.v ===== *)
(** * Closing a log that is in use

    [Close] waits until no goroutine leads a flush, then flushes and closes the
    file, all under the mutex.  Here it runs beside any number of calls of
    [Append]: a fsync in progress never has the file closed under it, what was
    acknowledged before or while closing stays durable, appends to the closed log
    fail, and [Close] returns. *)

From Stdlib Require Import ZArith Lia.
From S2P Require Import Prelude WalFormat Wal WalInvariant WalRecovery WalTheorems GroupCommit.

(** ** Steps *)

(** The goroutine that closes: it has not called, it waits for the mutex or on the
    condition, or it has returned. *)
Inductive close_pc := NotCalled | InClose | CloseReturned (e : option oserr).

Record closing := mkClosing { cl_config : config; cl_pc : close_pc }.

Inductive close_step : closing -> closing -> Prop :=
| close_beside c c' p : step c c' -> close_step (mkClosing c p) (mkClosing c' p)
| close_called c : close_step (mkClosing c NotCalled) (mkClosing c InClose)
| close_runs w T h b w' e :
    Close w = (w', Ret e) ->
    close_step (mkClosing (mkConfig w T h b) InClose) (mkClosing (mkConfig w' T h b) (CloseReturned e)).

Inductive close_reachable : closing -> Prop :=
| close_init c :
    initial c -> f_closed (w_file (c_wal c)) = false -> close_reachable (mkClosing c NotCalled)
| close_next c c' : close_reachable c -> close_step c c' -> close_reachable c'.

(** ** The file stays as open as it was *)

Lemma File_Write_open p f f' r : File_Write p f = (f', r) -> f_closed f' = f_closed f.
Proof.
  unfold File_Write. destruct (f_closed f) eqn:E; [by intros [= <- _]|].
  destruct (f_writes f) as [|[[n e]|] l]; by intros [= <- _].
Qed.

Lemma bufio_Flush_open f b f' b' r : bufio_Flush (f, b) = (f', b', r) -> f_closed f' = f_closed f.
Proof.
  unfold bufio_Flush. destruct (b_err b); [by intros [= <- _ _]|].
  destruct (b_buf b) as [|x l]; [by intros [= <- _ _]|].
  destruct (File_Write (x :: l) f) as [f1 [[n [e|]]| |]] eqn:E; apply File_Write_open in E;
    by intros [= <- _ _].
Qed.

Lemma bufio_turn_open p f b f' b' r : bufio_turn p (f, b) = (f', b', r) -> f_closed f' = f_closed f.
Proof.
  unfold bufio_turn. destruct (b_buf b) as [|x l].
  - destruct (File_Write p f) as [f1 [[n e]| |]] eqn:E; apply File_Write_open in E; by intros [= <- _ _].
  - destruct (bufio_Flush _) as [[f1 b1] r1] eqn:E. apply bufio_Flush_open in E. by intros [= <- _ _].
Qed.

Lemma bufio_loop_open fuel p f b f' b' r :
  bufio_loop fuel p (f, b) = (f', b', r) -> f_closed f' = f_closed f.
Proof.
  revert p f b. induction fuel as [|fuel IH]; intros p f b; cbn [bufio_loop];
    destruct (_ && _); try (by intros [= <- _ _]).
  unfold mbind, GoM_bind. destruct (bufio_turn p (f, b)) as [[f1 b1] [q| |]] eqn:E;
    apply bufio_turn_open in E; rewrite <- E; [apply IH|by intros [= <- _ _]..].
Qed.

Lemma bufio_Write_open p f b f' b' r :
  bufio_Write p (f, b) = (f', b', r) -> f_closed f' = f_closed f.
Proof.
  unfold bufio_Write, mbind, GoM_bind. destruct (bufio_loop 2 p (f, b)) as [[f1 b1] [q| |]] eqn:E;
    apply bufio_loop_open in E; rewrite <- E; [|by intros [= <- _ _]..]. cbn.
  destruct (b_err b1); by intros [= <- _ _].
Qed.

Definition open (w : WAL) : bool := negb (f_closed (w_file w)).

Lemma leader_flush_open pos w w' p : leader_flush pos w = (w', p) -> open w' = open w.
Proof.
  unfold leader_flush, io_of, open. destruct (bufio_Flush _) as [[f b] [[e|]| |]] eqn:E;
    apply bufio_Flush_open in E; intros [= <- _]; cbn; by rewrite E.
Qed.

Lemma write_open p w fb r : bufio_Write p (io_of w) = (fb, r) -> open (set_io w fb) = open w.
Proof. destruct fb as [f b]. unfold io_of, open. intros E%bufio_Write_open. cbn. by rewrite E. Qed.

Lemma append_enter_open rec w w' p : append_enter rec w = (w', p) -> open w' = open w.
Proof.
  unfold append_enter. cbn zeta. change (open w) with (open (bump_next w)).
  destruct (bufio_Write _ (io_of (bump_next w))) as [fb r1] eqn:E1. apply write_open in E1.
  rewrite <- E1. destruct r1 as [[e|]| |]; [by intros [= <- _]|..].
  all: destruct (bufio_Write _ (io_of (set_io (bump_next w) fb))) as [fb2 r2] eqn:E2; apply write_open in E2.
  all: rewrite <- E2; destruct r2 as [[e|]| |]; [by intros [= <- _]|..].
  all: destruct (w_leading _); [by intros [= <- _]|by intros H%leader_flush_open].
Qed.

Lemma wal_sync_open cov w w' e : wal_sync cov w = (w', e) -> open w' = open w.
Proof.
  unfold wal_sync, File_Sync, syscall, open, mbind, GoM_bind.
  destruct (f_closed (w_file w)) eqn:Ec; [intros [= <- _]; cbn; by rewrite ?Ec|].
  cbn. destruct (f_sys (w_file w)) as [|[er|] l]; intros [= <- _]; cbn; by rewrite ?Ec.
Qed.

Lemma leader_synced_open fs pos e w w' p : leader_synced fs pos e w = (w', p) -> open w' = open w.
Proof.
  unfold leader_synced. destruct e; [by intros [= <- _]|]. destruct (_ =? _); [by intros [= <- _]|].
  by intros H%leader_flush_open.
Qed.

(** ** Appends to a closed log *)

Lemma File_Write_closed p f : f_closed f = true -> File_Write p f = (f, Ret (0%nat, Some errClosed)).
Proof. intros H. unfold File_Write. by rewrite H. Qed.

(** A write that a closed file's buffer took was only buffered. *)
Lemma bufio_Write_closed p f b fb r :
  f_closed f = true -> bufio_Write p (f, b) = (fb, r) ->
  (exists e, r = Ret (Some e)) \/ (r = Ret None /\ fb = (f, mkWriter (b_buf b ++ p) None)).
Proof.
  intros Hc. unfold bufio_Write, mbind, GoM_bind. cbn [bufio_loop].
  destruct (b_err b) as [e|] eqn:Hb.
  { rewrite (bool_decide_false (Some e = None)), andb_false_r by done. cbn. rewrite Hb.
    intros [= _ <-]. eauto. }
  rewrite (bool_decide_true (None = None)), andb_true_r by done.
  destruct (_ <? _).
  2: { cbn. rewrite Hb. intros [= <- <-]. by right. }
  unfold mbind, GoM_bind. unfold bufio_turn. destruct (b_buf b) as [|x l].
  - rewrite File_Write_closed by done. cbn. rewrite andb_false_r. cbn. intros [= _ <-]. eauto.
  - unfold bufio_Flush. cbn [b_err b_buf app]. rewrite File_Write_closed by done. cbn.
    rewrite andb_false_r. cbn. intros [= _ <-]. eauto.
Qed.

Lemma append_enter_closed rec w w' p :
  open w = false -> w_leading w = false -> append_enter rec w = (w', p) ->
  (exists e, p = Returned (Err e)) /\ w_leading w' = false.
Proof.
  unfold open. intros Hc%negb_false_iff Hl. unfold append_enter. cbn zeta.
  destruct (bufio_Write _ (io_of (bump_next w))) as [fb r1] eqn:E1.
  apply bufio_Write_closed in E1 as [(e & ->)|(-> & ->)]; [intros [= <- <-]; by eauto| |done].
  destruct (bufio_Write _ (io_of (set_io _ _))) as [fb r2] eqn:E2.
  apply bufio_Write_closed in E2 as [(e & ->)|(-> & ->)]; [intros [= <- <-]; by eauto| |done].
  cbn. rewrite Hl. unfold leader_flush, io_of, bufio_Flush. cbn.
  destruct ((b_buf (w_w w) ++ _) ++ _) as [|x l] eqn:Eb.
  - apply (f_equal length) in Eb. unfold record_lenBuf in Eb.
    rewrite !length_app, length_le_bytes in Eb. cbn in Eb. lia.
  - rewrite File_Write_closed by done. intros [= <- <-]. by eauto.
Qed.

(** ** [Close] keeps the invariant *)

Lemma Close_spec w h :
  wal_inv w h -> w_leading w = false ->
  exists w' e, Close w = (w', Ret e) /\ wal_inv w' h /\
    f_synced (w_file w') = f_synced (w_file w) /\
    (length (f_data (w_file w)) <= length (f_data (w_file w')))%nat /\
    w_pendingSeq w' = w_pendingSeq w /\ w_flushedSeq w' = w_flushedSeq w /\
    w_flushErr w' = w_flushErr w /\ w_leading w' = false /\
    (b_err (w_w w') = None -> b_err (w_w w) = None) /\
    (e = None -> f_data (w_file w') = stream h /\ open w' = false).
Proof.
  intros Hw Hl. unfold Close, mbind, GoM_bind. cbn. rewrite Hl. unfold zoom, io_of.
  destruct (b_err (w_w w)) as [er|] eqn:Hb.
  { rewrite (bufio_Flush_stuck _ _ er) by done. do 2 eexists. split; [reflexivity|].
    replace (set_io w (w_file w, w_w w)) with w by (by destruct w). split_and!; done || congruence. }
  pose proof Hw as [Hh Hhd Hsy Hda Hok]. destruct (Hok Hb) as (Hs & Hlb & Hn & Ho & Hbo).
  destruct (bufio_Flush (w_file w, w_w w)) as [[f1 b1] r1] eqn:EF.
  destruct (bufio_Flush_spec (w_file w) (w_w w) Hb) as (f' & b' & EF' & Henv & Hd).
  rewrite EF in EF'. injection EF' as -> -> ->. destruct Henv as (Esy & _ & _ & Esys).
  destruct (b_err b') as [er|] eqn:Eb'.
  - destruct Hd as [n Hd]. do 2 eexists. split; [reflexivity|]. cbn.
    split; [|split_and!; rewrite ?Eb', ?Hd, ?length_app; try (done || lia)].
    + split; cbn; try done; rewrite ?Eb', ?Hd, ?Esy, ?length_app; try (done || lia).
      rewrite <- Hs. apply prefix_app, prefix_take.
  - destruct Hd as [Hbuf Hd]. rewrite Hs in Hd. unfold File_Close, syscall, mbind, GoM_bind. cbn.
    assert (Hle : (length (f_data (w_file w)) <= length (stream h))%nat)
      by (rewrite <- Hs, length_app; lia).
    assert (Hinv : forall f2, f_data f2 = f_data f' -> f_synced f2 = f_synced f' ->
              wal_inv (set_io w (f2, b')) h).
    { intros f2 Hd2 Hs2. split; cbn; rewrite ?Hd2, ?Hs2, ?Hd, ?Esy; try (done || lia).
      intros _. rewrite Hbuf, app_nil_r. split_and!; done. }
    destruct (f_closed f') eqn:Ec.
    { do 2 eexists. split; [reflexivity|]. cbn. split; [by apply Hinv|].
      rewrite ?Hd, ?Esy. by split_and!. }
    destruct (f_sys f') as [|[er|] l]; cbn; do 2 eexists; (split; [reflexivity|]); cbn;
      (split; [by apply Hinv|]); rewrite ?Hd, ?Esy; split_and!; try done.
Qed.

Lemma gc_close w T h b w' e :
  gc_inv (mkConfig w T h b) -> Close w = (w', Ret e) -> gc_inv (mkConfig w' T h b) /\ w_leading w' = false.
Proof.
  intros [Hw H5 Hp Hs Hf Hd Hl Ht] Hc. cbn in *.
  assert (Hlead : w_leading w = false).
  { unfold Close, mbind, GoM_bind in Hc. cbn in Hc. by destruct (w_leading w). }
  destruct (Close_spec w h Hw Hlead)
    as (w1 & e1 & E & Hinv & Hsy & Hda & Hpe & Hfs & Hfe & Hl1 & Hbe & _).
  rewrite Hc in E. injection E as <- <-. split; [|done].
  split; cbn; rewrite ?Hsy, ?Hpe, ?Hfs, ?Hfe; try done; auto.
  - by rewrite Hl1, <- Hlead.
  - eapply Forall_impl; [exact Ht|]. intros p Hok. rewrite <- (app_nil_r h).
    eapply (thread_ok_mono w T); cbn; try done; try lia.
    intros s pos -> Hlt. destruct Hok as (_ & _ & Hok). rewrite Hl1, <- Hlead. apply Hok. cbn. lia.
Qed.

(** ** The invariant *)

Definition closing_inv (c : closing) : Prop :=
  gc_inv (cl_config c) /\
  (open (c_wal (cl_config c)) = false ->
   (exists e, cl_pc c = CloseReturned e) /\ w_leading (c_wal (cl_config c)) = false).

(** In a closed log no goroutine leads, so none is in or behind a fsync. *)
Lemma no_leader c i p :
  gc_inv c -> w_leading (c_wal c) = false -> c_threads c !! i = Some p -> ~ is_leader p.
Proof. intros Hc Hl Hi Hp. assert (w_leading (c_wal c) = true) by (apply (proj2 (gi_lead _ Hc)); eauto). congruence. Qed.

Lemma closing_step c c' : closing_inv c -> close_step c c' -> closing_inv c'.
Proof.
  intros [Hg Ho] Hst. destruct Hst as [c c' p Hst|c|w T h b w' e Hc]; cbn in *.
  - split; [by eapply gc_step|]. cbn. revert Hg Ho.
    destruct Hst as [w T h b rec w' p' _ He|w T h b i fs pos cov w' e Hi He
                    |w T h b i fs pos e w' p' Hi He|w T h b i s pos r Hi He]; cbn; intros Hg Ho Hcl.
    + pose proof (append_enter_open _ _ _ _ He) as Hop. rewrite Hop in Hcl.
      destruct (Ho Hcl) as [[e ->] Hl]. split; [by eexists|]. by eapply append_enter_closed.
    + rewrite (wal_sync_open _ _ _ _ He) in Hcl. destruct (Ho Hcl) as [_ Hl].
      by destruct (no_leader _ i _ Hg Hl Hi).
    + rewrite (leader_synced_open _ _ _ _ _ _ He) in Hcl. destruct (Ho Hcl) as [_ Hl].
      by destruct (no_leader _ i _ Hg Hl Hi).
    + by apply Ho.
  - split; [done|]. intros Hcl. by destruct (Ho Hcl) as [[e ?] _].
  - destruct (gc_close _ _ _ _ _ _ Hg Hc) as [Hg' Hl']. split; [done|]. cbn. intros Hcl.
    split; [by eexists|done].
Qed.

Lemma closing_reachable c : close_reachable c -> closing_inv c.
Proof.
  induction 1 as [c Hc Ho|]; [|by eapply closing_step].
  split; [by apply gc_initial|]. cbn. unfold open. by rewrite Ho.
Qed.

(** ** Properties *)

(** C12: closing a log in use is safe.  In every interleaving of [Close] with calls of
    [Append], under any failures: the file is open while a fsync runs; a record
    whose call returned success survives any later crash, also one after the
    close; and a [Close] that succeeds leaves every record that was appended in
    the file, which is closed. *)
Theorem close_safe {S} (replay : replayer S) fstep P (Hr : Replays replay fstep P) c :
  close_reachable c -> Forall P (c_hist (cl_config c)) ->
  let w := c_wal (cl_config c) in
  let T := c_threads (cl_config c) in
  let h := c_hist (cl_config c) in
  (forall i fs pos cov, T !! i = Some (Syncing fs pos cov) -> f_closed (w_file w) = false) /\
  (forall i pos k path s, T !! i = Some (Returned (Ok pos)) -> (f_synced (w_file w) <= k)%nat ->
     exists m f', Open path (Some replay) s (crash k (w_file w))
       = (f', Ret (Ok (opened path f' (take m h), fold_left fstep (take m h) s))) /\
       1 <= pos <= Z.of_nat m) /\
  (forall w', Close w = (w', Ret None) -> f_data (w_file w') = stream h /\ f_closed (w_file w') = true).
Proof.
  intros Hc HP w T h. destruct (closing_reachable c Hc) as [Hg Ho]. split_and!.
  - intros i fs pos cov Hi. destruct (open w) eqn:E; [by apply negb_true_iff in E|].
    destruct (Ho E) as [_ Hl]. by destruct (no_leader _ i _ Hg Hl Hi).
  - intros i pos k path s Hi Hk.
    pose proof (Forall_lookup_1 _ _ _ _ (gi_threads _ Hg) Hi) as Hd. cbn in Hd.
    destruct (crash_recovers replay fstep P Hr w h k path s (gi_wal _ Hg) (gi_header _ Hg) HP Hk)
      as (m & f' & HO & _ & _ & _ & Hm).
    exists m, f'. split; [done|]. split; [apply Hd|by apply Hm].
  - intros w' HC. destruct (Close_spec w h (gi_wal _ Hg))
      as (w1 & e1 & E & _ & _ & _ & _ & _ & _ & _ & _ & Hend).
    { unfold Close, mbind, GoM_bind in HC. cbn in HC. by destruct (w_leading w). }
    rewrite HC in E. injection E as <- <-. destruct (Hend eq_refl) as [Hd Hop]. split; [done|].
    by apply negb_false_iff.
Qed.

(** A step without a new call of [Append]. *)
Definition quiet_close_step (c c' : closing) : Prop :=
  close_step c c' /\ length (c_threads (cl_config c')) = length (c_threads (cl_config c)).

Definition close_remaining (c : closing) : nat :=
  remaining (cl_config c) + match cl_pc c with NotCalled => 2 | InClose => 1 | CloseReturned _ => 0 end.

Lemma quiet_close_decreases c c' :
  closing_inv c -> quiet_close_step c c' -> (close_remaining c' < close_remaining c)%nat.
Proof.
  intros [Hg _] [Hst Hlen]. unfold close_remaining. revert Hg.
  destruct Hst as [c c' p Hst|c|w T h b w' e Hc]; cbn in *; intros Hg; [|lia|].
  - pose proof (inner_step_decreases c c' (conj Hst Hlen)). lia.
  - destruct (Close_spec w h (gi_wal _ Hg)) as (w1 & e1 & E & _ & _ & _ & Hpe & _).
    { unfold Close, mbind, GoM_bind in Hc. cbn in Hc. by destruct (w_leading w). }
    rewrite Hc in E. injection E as <- <-. unfold remaining. cbn. rewrite Hpe. lia.
Qed.

(** [Close] returns.  Once no new appends arrive, the calls in progress and the
    close take at most [close_remaining c] further steps under every schedule,
    and when none can go on all appends and the close have returned. *)
Theorem close_terminates c :
  close_reachable c ->
  (forall n c', nsteps quiet_close_step n c c' -> (n <= close_remaining c)%nat) /\
  (forall c', rtc quiet_close_step c c' -> (forall c'', ~ quiet_close_step c' c'') ->
     all_returned (cl_config c') /\ exists e, cl_pc c' = CloseReturned e).
Proof.
  intros Hc. split.
  - intros n c' Hn. induction Hn as [c|n c c1 c2 H1 H2 IH]; [lia|].
    pose proof (quiet_close_decreases _ _ (closing_reachable _ Hc) H1).
    specialize (IH (close_next _ _ Hc (proj1 H1))). lia.
  - intros c' Hrtc Hstuck.
    assert (Hc' : close_reachable c').
    { clear Hstuck. induction Hrtc as [|c c1 c2 [H1 _]]; eauto using close_next. }
    destruct (closing_reachable _ Hc') as [Hg _]. destruct c' as [c' p]. cbn in *.
    destruct (progress c' Hg) as [Hall|[c'' [Hs Hlen]]].
    2: { destruct (Hstuck (mkClosing c'' p)). split; [by apply close_beside|done]. }
    split; [done|]. destruct p as [| |e]; [| |by eauto].
    + destruct (Hstuck (mkClosing c' InClose)). split; [apply close_called|done].
    + destruct c' as [w T h b]. assert (Hl : w_leading w = false).
      { destruct (w_leading w) eqn:El; [|done].
        destruct (proj1 (proj2 (gi_lead _ Hg)) El) as (i & q & Hi & Hq).
        by destruct (Hall i q Hi) as (r & ->). }
      destruct (Close_spec w h (gi_wal _ Hg) Hl) as (w1 & e1 & E & _).
      destruct (Hstuck (mkClosing (mkConfig w1 T h b) (CloseReturned e1))).
      split; [by apply close_runs|done].
Qed.

(** ** Witnesses *)

(** [Close] is called while a goroutine is in its fsync and another waits. *)
Lemma beside_reachable c es c' p :
  close_reachable (mkClosing c p) -> exec c es = Some c' -> close_reachable (mkClosing c' p).
Proof.
  revert c. induction es as [|e es IH]; cbn; intros c Hc H; [by simplify_eq|].
  destruct (exec1 c e) as [c1|] eqn:E; [|done]. eapply IH; [|done].
  eapply close_next; [exact Hc|]. by apply close_beside, (exec1_step _ e).
Qed.

Definition demo_closing : closing := mkClosing (final good_file two_calls) InClose.

Lemma demo_closing_reachable : close_reachable demo_closing.
Proof.
  eapply close_next; [|apply close_called]. apply (beside_reachable (start good_file) two_calls).
  - apply close_init; [|done]. exists ($"p"), good_file, []. split; [done|].
    split; [apply wf_history_nil|]. split; [done|]. vm_compute. lia.
  - vm_compute. reflexivity.
Qed.

Lemma close_safe_witness :
  let w := c_wal (cl_config demo_closing) in
  let T := c_threads (cl_config demo_closing) in
  let h := c_hist (cl_config demo_closing) in
  T !! 0%nat = Some (Syncing 2 1 83) /\ Close w = (w, Blocked) /\
  (forall i fs pos cov, T !! i = Some (Syncing fs pos cov) -> f_closed (w_file w) = false) /\
  (forall i pos k path s, T !! i = Some (Returned (Ok pos)) -> (f_synced (w_file w) <= k)%nat ->
     exists m f', Open path (Some collect) s (crash k (w_file w))
       = (f', Ret (Ok (opened path f' (take m h), fold_left (fun s r => s ++ [r]) (take m h) s))) /\
       1 <= pos <= Z.of_nat m) /\
  (forall w', Close w = (w', Ret None) -> f_data (w_file w') = stream h /\ f_closed (w_file w') = true).
Proof.
  split; [vm_compute; reflexivity|]. split; [vm_compute; reflexivity|].
  apply (close_safe collect _ (fun _ => True) _ demo_closing demo_closing_reachable).
  by apply Forall_true.
Defined.

Lemma close_terminates_witness :
  (forall n c', nsteps quiet_close_step n demo_closing c' -> (n <= 4)%nat) /\
  (forall c', rtc quiet_close_step demo_closing c' -> (forall c'', ~ quiet_close_step c' c'') ->
     all_returned (cl_config c') /\ exists e, cl_pc c' = CloseReturned e).
Proof. exact (close_terminates demo_closing demo_closing_reachable). Defined.
