(* ===== verification/WalStore.v ===== *)
(** * The log as its clients see it

    The engine and the offset store each own a log and use it through [Open] and
    [Append] alone.  [log_inv] is the contract between two calls; [log_append] and
    [log_restart] are what the log promises its client. *)

From Stdlib Require Import ZArith Lia.
From S2P Require Import Prelude WalFormat Wal WalInvariant WalRecovery WalTheorems.

Record log_inv (w : WAL) (h : list WalRecord) : Prop := {
  li_wal : wal_inv w h;
  li_idle : w_leading w = false;
  li_flushed : b_err (w_w w) = None -> b_buf (w_w w) = [];
  li_header : (5 <= f_synced (w_file w))%nat
}.

(** The record's fields fit their types and the log file has room for it. *)
Definition fits (w : WAL) (rec : WalRecord) : Prop :=
  is_u8 (Kind rec) /\ is_i64 (ExpiresAtUnixNano rec) /\ payload_size rec + 8 < 2 ^ 32 /\
  w_writeOffset w + (payload_size rec + 8) < 2 ^ 62 /\ w_next w < 2 ^ 62.
#[export] Instance fits_dec w rec : Decision (fits w rec).
Proof. unfold fits. apply _. Defined.

Lemma fits_append_ok w h rec :
  wal_inv w h -> b_err (w_w w) = None -> fits w rec -> append_ok h rec.
Proof.
  intros Hw Hb (Hk & Hx & Hp & Ho & Hn).
  pose proof (wi_ok _ _ Hw Hb) as (_ & _ & Hnext & Hoff & _).
  destruct (wi_hist _ _ Hw) as (Hnum & Hwf & Hsz & Hlen).
  pose proof (len_nonneg h). unfold append_ok, log_of, wf_history.
  rewrite len_stream_snoc, len_frame, len_app, len_cons, len_nil, numbered_snoc.
  change (payload_size (committed h rec)) with (payload_size rec). cbn [committed].
  split_and!; try done; try (cbn; lia).
  apply Forall_app. split; [done|]. constructor; [|done].
  unfold wf_record, is_u64. cbn. split_and!; try done; lia.
Qed.

(** What is on stable storage stays there. *)
Definition keeps_durable (w w' : WAL) (h h' : list WalRecord) : Prop :=
  forall p, durable w h p -> durable w' h' p.

(** How the history follows the result of an append. *)
Definition append_post (w' : WAL) (h h' : list WalRecord) (rec : WalRecord)
    (r : result append_error Z) : Prop :=
  match r with
  | Ok pos => h' = log_of h rec /\ pos = len h + 1 /\ durable w' h' pos
  | Err _ => h' = h \/ h' = log_of h rec
  end.

(** An append returns; a success is durable at the next position, a failure may
    or may not have put the record into the stream. *)
Lemma log_append rec w h :
  log_inv w h -> fits w rec ->
  exists w' r h', Append rec w = (w', Ret r) /\ log_inv w' h' /\
    keeps_durable w w' h h' /\ append_post w' h h' rec r.
Proof.
  intros [Hw Hl Hf H5] Hok. destruct (b_err (w_w w)) as [er|] eqn:Hb.
  - exists (bump_next w), (Err (WriteLength er)), h. split; [by apply Append_stuck|].
    split; [|split; [by intros p|by left]]. split; cbn; try done; [|congruence].
    destruct Hw as [? ? ? ? Hw]. split; try done. cbn. congruence.
  - pose proof (fits_append_ok _ _ _ Hw Hb Hok) as Hroom.
    destruct (Append_spec rec w h Hw Hb Hl Hroom) as (w' & r & E & Hw' & Hl' & Hs & Hpost).
    exists w', r, (log_of h rec). split; [done|]. split; [|split].
    + split; try done; [|lia]. intros Hb'. by destruct r as [pos|[]]; destruct_and?; congruence.
    + intros p Hp. by eapply durable_mono.
    + destruct r as [pos|[]]; cbn; auto.
      destruct Hpost as (-> & _ & _ & Hsy). split_and!; try done.
      replace (len h + 1) with (len (log_of h rec))
        by (unfold log_of; rewrite len_app, len_cons, len_nil; lia).
      apply durable_last; [unfold log_of; by destruct h|done].
Qed.

(** ** An environment without failures *)

(** No failure is due and none has happened. *)
Definition calm (fb : File * Writer) : Prop := healthy fb.1 /\ b_err fb.2 = None.

Lemma calm_Write p f : healthy f ->
  exists f', File_Write p f = (f', Ret (length p, None)) /\ healthy f'.
Proof.
  intros (Hc & Hb & Hw & Hs). unfold File_Write. rewrite Hc, Hw. eexists.
  split; [reflexivity|]. by split_and!.
Qed.

Lemma calm_Flush fb : calm fb -> exists fb', bufio_Flush fb = (fb', Ret None) /\ calm fb'.
Proof.
  destruct fb as [f b]. intros (Hf & Hb). unfold bufio_Flush. cbn in *. rewrite Hb.
  destruct (b_buf b) as [|x l]; [by exists (f, b)|].
  destruct (calm_Write (x :: l) f Hf) as (f' & -> & Hf'). eexists. by split.
Qed.

Lemma calm_turn p fb : calm fb -> calm (bufio_turn p fb).1.
Proof.
  destruct fb as [f b]. intros (Hf & Hb). unfold bufio_turn.
  destruct (b_buf b) as [|x l].
  - destruct (calm_Write p f Hf) as (f' & -> & Hf'). done.
  - destruct (calm_Flush (f, mkWriter ((x :: l) ++ take (Z.to_nat (bufSize - len (x :: l))) p) None))
      as (fb' & E & Hfb); [by split|]. by rewrite E.
Qed.

Lemma calm_loop fuel p fb : calm fb -> calm (bufio_loop fuel p fb).1.
Proof.
  revert p fb. induction fuel as [|fuel IH]; intros p [f b] Hfb; cbn; case_goal; try done.
  unfold mbind, GoM_bind. pose proof (calm_turn p (f, b) Hfb) as Ht.
  destruct (bufio_turn p (f, b)) as [fb' [q| |]]; cbn in *; auto.
Qed.

Lemma calm_bufio_Write p fb : calm fb -> calm (bufio_Write p fb).1.
Proof.
  intros Hfb. unfold bufio_Write, mbind, GoM_bind. pose proof (calm_loop 2 p fb Hfb) as Hl.
  destruct (bufio_loop 2 p fb) as [[f b] [q| |]]; cbn in *; try done.
  destruct Hl as (Hf & Hb). cbn in *. by rewrite Hb.
Qed.

Lemma calm_leader_flush pos w : calm (io_of w) ->
  calm (io_of (leader_flush pos w).1) /\
  (forall e, (leader_flush pos w).2 <> Returned (Err e)) /\
  (forall s p, (leader_flush pos w).2 <> Waiting s p).
Proof.
  intros Hw. unfold leader_flush. destruct (calm_Flush _ Hw) as ([f b] & -> & Hfb). done.
Qed.

Lemma calm_append_enter rec w : calm (io_of w) ->
  calm (io_of (append_enter rec w).1) /\
  (forall e, (append_enter rec w).2 <> Returned (Err (FsyncFailed e))) /\
  (w_leading w = false -> forall s p, (append_enter rec w).2 <> Waiting s p).
Proof.
  intros Hw. unfold append_enter.
  set (l := record_lenBuf _). set (bd := record_body _).
  pose proof (calm_bufio_Write l (io_of (bump_next w)) Hw) as H1.
  destruct (bufio_Write l (io_of (bump_next w))) as [[f1 b1] [[e1|]| |]]; cbn in H1; try done.
  all: pose proof (calm_bufio_Write bd (f1, b1) H1) as H2;
    change (io_of (set_io (bump_next w) (f1, b1))) with (f1, b1);
    destruct (bufio_Write bd (f1, b1)) as [[f2 b2] [[e2|]| |]]; cbn in H2; try done;
    destruct (w_leading w) eqn:El; cbn zeta; cbn [w_leading note_buffered set_io bump_next];
    rewrite El; try done;
    match goal with |- context [leader_flush ?p ?w] =>
      destruct (calm_leader_flush p w) as (? & Hne & ?); [done|] end;
    (split; [done|]); (split; [|done]); intros e He; by apply (Hne (FsyncFailed e)).
Qed.

Lemma calm_sync cov w : calm (io_of w) ->
  exists f', wal_sync cov w = (set_file w f', None) /\ calm (io_of (set_file w f')).
Proof.
  intros ((Hc & Hb & Hw & Hs) & He). unfold wal_sync, File_Sync, syscall, mbind, GoM_bind.
  cbn in *. rewrite Hc, Hs. cbn. eexists. split; [reflexivity|]. by split.
Qed.

Lemma calm_leader_synced fs pos w : calm (io_of w) ->
  calm (io_of (leader_synced fs pos None w).1) /\
  forall e, (leader_synced fs pos None w).2 <> Returned (Err e).
Proof.
  intros Hw. unfold leader_synced. case_goal; [done|].
  by destruct (calm_leader_flush pos (set_group w fs None true) Hw) as (? & ? & _).
Qed.

Lemma calm_Append rec w : calm (io_of w) -> w_leading w = false ->
  calm (io_of (Append rec w).1) /\
  forall e, (Append rec w).2 <> Ret (Err (FsyncFailed e)).
Proof.
  intros Hw Hl. unfold Append. destruct (calm_append_enter rec w Hw) as (H1 & Hne1 & Hnw).
  specialize (Hnw Hl).
  destruct (append_enter rec w) as [w1 [s p|fs p cov|s p e|r]]; cbn in H1, Hne1, Hnw.
  - by destruct (Hnw s p).
  - destruct (calm_sync cov w1 H1) as (f' & -> & H2).
    destruct (calm_leader_synced fs p _ H2) as (H3 & Hne3).
    destruct (leader_synced _ _ _ _) as [w2 [| | |r]]; cbn in *; try done.
    split; [done|]. intros e [= ->]. by apply (Hne3 (FsyncFailed e)).
  - done.
  - split; [done|]. intros e [= ->]. by apply (Hne1 e).
Qed.

(** In such an environment every append succeeds. *)
Lemma log_append_calm rec w h :
  log_inv w h -> fits w rec -> calm (io_of w) ->
  exists w', Append rec w = (w', Ret (Ok (len h + 1))) /\ log_inv w' (log_of h rec) /\
    calm (io_of w').
Proof.
  intros Hinv Hok Hcalm. pose proof Hinv as [Hw Hl Hf H5].
  destruct (calm_Append rec w Hcalm Hl) as (Hc' & Hne).
  destruct (log_append rec w h Hinv Hok) as (w' & r & h' & E & Hinv' & _ & Hpost).
  pose proof (fits_append_ok _ _ _ Hw (proj2 Hcalm) Hok) as Hroom.
  destruct (Append_spec rec w h Hw (proj2 Hcalm) Hl Hroom) as (w1 & r1 & E1 & _ & _ & _ & Herr).
  rewrite E in E1. injection E1 as <- <-. rewrite E in Hc', Hne. cbn in Hc', Hne.
  pose proof (proj2 Hc') as Hb'. cbn in Hb'.
  destruct r as [pos|er].
  - destruct Hpost as (-> & -> & _). by exists w'.
  - destruct er; try congruence.
Qed.

(** After a crash that keeps the synced bytes the store is rebuilt from a prefix
    of the history that contains every durable record. *)
Lemma log_restart {S} (replay : replayer S) step P (Hr : Replays replay step P) w h k path s :
  log_inv w h -> Forall P h -> (f_synced (w_file w) <= k)%nat ->
  exists m f',
    Open path (Some replay) s (crash k (w_file w))
    = (f', Ret (Ok (opened path f' (take m h), fold_left step (take m h) s))) /\
    log_inv (opened path f' (take m h)) (take m h) /\
    forall p, durable w h p ->
      p <= Z.of_nat m /\ durable (opened path f' (take m h)) (take m h) p.
Proof.
  intros [Hw Hl Hf H5] HP Hk.
  destruct (crash_recovers replay step P Hr w h k path s Hw H5 HP Hk)
    as (m & f' & HO & Hw' & _ & H5' & Hp).
  exists m, f'. by split_and!.
Qed.

(** A log just created. *)
Definition fresh_file (sys : list (option oserr)) : File :=
  mkFile (stream []) 5 false None [] sys.

Lemma fresh_log_inv path sys : log_inv (opened path (fresh_file sys) []) [].
Proof. by split. Qed.

(** A record is at the index its position says. *)
Lemma lookup_position h r : numbered_from 1 h -> r ∈ h ->
  h !! Z.to_nat (CommitPosition r - 1) = Some r /\ 1 <= CommitPosition r <= len h.
Proof.
  intros Hn (i & Hi)%list_elem_of_lookup.
  pose proof (numbered_lookup _ _ _ _ Hn Hi). pose proof (lookup_lt_Some _ _ _ Hi).
  replace (Z.to_nat _) with i by lia. unfold len. split; [done|lia].
Qed.

Lemma elem_of_drop_pos h m r :
  numbered_from 1 h -> r ∈ drop m h -> Z.of_nat m < CommitPosition r.
Proof.
  intros Hn (i & Hi)%list_elem_of_lookup. rewrite lookup_drop in Hi.
  pose proof (numbered_lookup _ _ _ _ Hn Hi). lia.
Qed.

Lemma log_numbered w h : log_inv w h -> numbered_from 1 h.
Proof. intros Hinv. apply (wi_hist _ _ (li_wal _ _ Hinv)). Qed.
