(* ===== verification/Engine.v ===== *)
(** * The partition engine (internal/engine/engine.go)

    A memory index and a table of idempotency keys over the log.  Every mutation
    appends to the log first and changes the index when the append succeeded;
    [Open] rebuilds both maps by folding [replay] over the recovered records.
    The engine's mutex makes each operation one step of its state. *)

From Stdlib Require Import ZArith Lia.
From S2P Require Import Prelude WalFormat Wal WalInvariant WalRecovery WalTheorems.

(** ** Data *)

(** An instant is its number of nanoseconds since the Unix epoch; [None] is the
    zero [time.Time], which means no expiry. *)
Record entry := mkEntry {
  value : bytes;
  version : Z;
  expiresAt : option Z
}.

Record Outcome := mkOutcome {
  o_CommitPosition : Z;
  o_Version : Z;
  o_Deduplicated : bool
}.

#[export] Instance entry_eq_dec : EqDecision entry.
Proof. solve_decision. Defined.
#[export] Instance Outcome_eq_dec : EqDecision Outcome.
Proof. solve_decision. Defined.

(** A clock: the instants its coming readings report. *)
Definition Clock := nat -> Z.

(** The maps [replay] rebuilds. *)
Definition tables : Type := gmap bytes entry * gmap bytes Outcome.

Record Engine := mkEngine {
  e_log : WAL;
  e_index : gmap bytes entry;
  e_dedup : gmap bytes Outcome;
  e_clock : Clock
}.

Definition e_tables (e : Engine) : tables := (e_index e, e_dedup e).

Definition set_log (e : Engine) (w : WAL) : Engine :=
  mkEngine w (e_index e) (e_dedup e) (e_clock e).
Definition set_index (e : Engine) (m : gmap bytes entry) : Engine :=
  mkEngine (e_log e) m (e_dedup e) (e_clock e).
Definition set_dedup (e : Engine) (m : gmap bytes Outcome) : Engine :=
  mkEngine (e_log e) (e_index e) m (e_clock e).

Inductive engine_error :=
| ErrVersionMismatch
| LogError (e : append_error).

#[export] Instance engine_error_eq_dec : EqDecision engine_error.
Proof. solve_decision. Defined.

Definition engine_error_msg (e : engine_error) : bytes :=
  match e with
  | ErrVersionMismatch => $"engine: version mismatch"
  | LogError e => append_error_msg e
  end.

(** ** Time *)

Definition second : Z := 10 ^ 9.

(** [e.clock.Now()] *)
Definition Now : GoM Engine Z := fun e =>
  (mkEngine (e_log e) (e_index e) (e_dedup e) (fun n => e_clock e (S n)), Ret (e_clock e 0%nat)).

(** [now.Add(time.Duration(ttl) * time.Second).UnixNano()]: the product and the
    conversion of the sum are 64-bit. *)
Definition ttl_expiry (now ttlSeconds : Z) : Z :=
  i64 (now + i64 (ttlSeconds * second)).

(** [time.Unix(0, n)] for a positive [n], else the zero time. *)
Definition expiry_of (nano : Z) : option Z := if 0 <? nano then Some nano else None.

(** [e.expired(ent)]; the clock is read only for an entry that can expire. *)
Definition expired (ent : entry) : GoM Engine bool :=
  match expiresAt ent with
  | None => mret false
  | Some t => now ← Now; mret (t <? now)
  end.

(** ** [Open] *)

Definition replay_index (m : gmap bytes entry) (rec : WalRecord) : gmap bytes entry :=
  if Kind rec =? KindPut then
    <[Key rec := mkEntry (Value rec) (CommitPosition rec) (expiry_of (ExpiresAtUnixNano rec))]> m
  else if Kind rec =? KindDelete then delete (Key rec) m
  else m.

Definition replay_dedup (m : gmap bytes Outcome) (rec : WalRecord) : gmap bytes Outcome :=
  if bool_decide (IdempotencyKey rec <> [])
  then <[IdempotencyKey rec := mkOutcome (CommitPosition rec) (CommitPosition rec) false]> m
  else m.

Definition replay_step (t : tables) (rec : WalRecord) : tables :=
  (replay_index t.1 rec, replay_dedup t.2 rec).

Definition replay : replayer tables := fun t rec => Ret (Ok (replay_step t rec)).

#[export] Instance engine_replays : Replays replay replay_step (fun _ => True).
Proof. done. Qed.

(** A nil clock stands for the system's. *)
Definition Open (systemClock : Clock) (path : bytes) (clock : option Clock)
    : GoM File (result open_error Engine) :=
  let clock := default systemClock clock in
  r ← Wal.Open path (Some replay) (∅, ∅);
  match r with
  | Err e => mret (Err e)
  | Ok (log, (index, dedup)) => mret (Ok (mkEngine log index dedup clock))
  end.

(** ** Reads *)

(** [Get]: value and version of a live key, [None] when it is absent or expired. *)
Definition Get (key : bytes) : GoM Engine (option (bytes * Z)) :=
  e ← get_state;
  match e_index e !! key with
  | None => mret None
  | Some ent =>
    x ← expired ent;
    mret (if x : bool then None else Some (value ent, version ent))
  end.

Definition LastCommitPosition (e : Engine) : Z := Wal.LastCommitPosition (e_log e).

(** ** Mutations *)

(** The lookup of an idempotency key every mutation starts with. *)
Definition dedup_hit (idempotencyKey : bytes) (e : Engine) : option Outcome :=
  if bool_decide (idempotencyKey <> []) then
    (fun out => mkOutcome (o_CommitPosition out) (o_Version out) true)
      <$> e_dedup e !! idempotencyKey
  else None.

Definition append (rec : WalRecord) : GoM Engine (result append_error Z) :=
  zoom e_log set_log (Append rec).

(** The outcome of a commit at [pos], remembered under its idempotency key. *)
Definition committed_at (pos : Z) (idempotencyKey : bytes) : GoM Engine (result engine_error Outcome) :=
  let out := mkOutcome pos pos false in
  _ ← modify (fun e => if bool_decide (idempotencyKey <> [])
                       then set_dedup e (<[idempotencyKey := out]> (e_dedup e)) else e);
  mret (Ok out).

(** The append and the index update [ApplyPut] and [ApplyCompareAndSet] end with. *)
Definition commit_put (key value : bytes) (expiresAtUnixNano : Z) (idempotencyKey : bytes)
    : GoM Engine (result engine_error Outcome) :=
  r ← append (mkRecord 0 KindPut key value expiresAtUnixNano idempotencyKey);
  match r with
  | Err err => mret (Err (LogError err))
  | Ok pos =>
    _ ← modify (fun e => set_index e
          (<[key := mkEntry value pos (expiry_of expiresAtUnixNano)]> (e_index e)));
    committed_at pos idempotencyKey
  end.

Definition ApplyPut (key value : bytes) (expiresAtUnixNano : Z) (idempotencyKey : bytes)
    : GoM Engine (result engine_error Outcome) :=
  e ← get_state;
  match dedup_hit idempotencyKey e with
  | Some out => mret (Ok out)
  | None => commit_put key value expiresAtUnixNano idempotencyKey
  end.

(** The expiry a relative TTL stands for; the clock is read for a positive one. *)
Definition resolve_ttl (ttlSeconds : Z) : GoM Engine Z :=
  if 0 <? ttlSeconds then now ← Now; mret (ttl_expiry now ttlSeconds) else mret 0.

Definition Put (key value : bytes) (ttlSeconds : Z) (idempotencyKey : bytes)
    : GoM Engine (result engine_error Outcome) :=
  expiresAtNano ← resolve_ttl ttlSeconds;
  ApplyPut key value expiresAtNano idempotencyKey.

Definition Delete (key idempotencyKey : bytes) : GoM Engine (result engine_error Outcome) :=
  e ← get_state;
  match dedup_hit idempotencyKey e with
  | Some out => mret (Ok out)
  | None =>
    r ← append (mkRecord 0 KindDelete key [] 0 idempotencyKey);
    match r with
    | Err err => mret (Err (LogError err))
    | Ok pos =>
      _ ← modify (fun e => set_index e (delete key (e_index e)));
      committed_at pos idempotencyKey
    end
  end.

(** The version a conditional write compares with: 0 for a key that is absent or
    expired. *)
Definition current_version (key : bytes) : GoM Engine Z :=
  e ← get_state;
  match e_index e !! key with
  | None => mret 0
  | Some ent => x ← expired ent; mret (if x : bool then 0 else version ent)
  end.

Definition ApplyCompareAndSet (key value : bytes) (expectedVersion expiresAtUnixNano : Z)
    (idempotencyKey : bytes) : GoM Engine (result engine_error Outcome) :=
  e ← get_state;
  match dedup_hit idempotencyKey e with
  | Some out => mret (Ok out)
  | None =>
    currentVersion ← current_version key;
    if negb (currentVersion =? expectedVersion) then mret (Err ErrVersionMismatch)
    else commit_put key value expiresAtUnixNano idempotencyKey
  end.

Definition CompareAndSet (key value : bytes) (expectedVersion ttlSeconds : Z)
    (idempotencyKey : bytes) : GoM Engine (result engine_error Outcome) :=
  expiresAtNano ← resolve_ttl ttlSeconds;
  ApplyCompareAndSet key value expectedVersion expiresAtNano idempotencyKey.

(** ** The change stream *)

Record ChangeRecord := mkChange {
  Offset : Z;
  ch_Kind : RecordKind;
  ch_Key : bytes;
  ch_Value : bytes
}.

Definition change_of (r : WalRecord) : ChangeRecord :=
  mkChange (CommitPosition r) (Kind r) (Key r) (Value r).

Definition Fetch (from limit : Z) : GoM Engine (result range_error (list ChangeRecord)) :=
  r ← zoom e_log set_log (ReadRange from limit);
  match r with
  | (_, Some err) => mret (Err err)
  | (recs, None) => mret (Ok (change_of <$> recs))
  end.

(** ** Snapshots *)

Record SnapshotEntry := mkSnapshotEntry {
  s_Key : bytes;
  s_Value : bytes;
  s_ExpiresAtUnixNano : Z
}.

#[export] Instance SnapshotEntry_eq_dec : EqDecision SnapshotEntry.
Proof. solve_decision. Defined.

#[export] Program Instance SnapshotEntry_countable : Countable SnapshotEntry :=
  inj_countable' (fun s => (s_Key s, s_Value s, s_ExpiresAtUnixNano s))
                 (fun '(k, v, x) => mkSnapshotEntry k v x) _.
Next Obligation. by intros []. Qed.

Definition snapshot_entry (k : bytes) (ent : entry) : SnapshotEntry :=
  mkSnapshotEntry k (value ent) (default 0 (expiresAt ent)).

(** The loop of [Snapshot] over the index in the order the runtime yields it. *)
Fixpoint snapshot_loop (order : list (bytes * entry)) (out : list SnapshotEntry)
    : GoM Engine (list SnapshotEntry) :=
  match order with
  | [] => mret out
  | (k, ent) :: order =>
    x ← expired ent;
    if x : bool then snapshot_loop order out
    else snapshot_loop order (out ++ [snapshot_entry k ent])
  end.

(** [order] is the iteration order of [range e.index], which Go leaves open: it
    is a permutation of the map's bindings. *)
Definition Snapshot (order : list (bytes * entry)) : GoM Engine (list SnapshotEntry) :=
  snapshot_loop order [].

Inductive reset_error :=
| ResetClose (e : oserr) | ResetRemove (e : oserr) | ResetOpen (e : open_error).

Definition errNotExist : oserr := $"no such file or directory".

(** What is at the path after [os.Remove]: nothing, which opening creates as an
    empty file; the coming system calls fail as they would have. *)
Definition removed (f : File) : File := mkFile [] 0 false None (f_writes f) (f_sys f).

(** [os.Remove(path)], with the error [Reset] goes on from left out. *)
Definition os_Remove (f : File) : File * option oserr :=
  match syscall (removed f) with
  | (f, Ret (Some err)) => (f, if bool_decide (err = errNotExist) then None else Some err)
  | (f, _) => (f, None)
  end.

(** [Reset]; when it fails behind the removal the engine keeps its closed log. *)
Definition Reset : GoM Engine (option reset_error) :=
  e ← get_state;
  let path := Path (e_log e) in
  err ← zoom e_log set_log Wal.Close;
  match err with
  | Some err => mret (Some (ResetClose err))
  | None =>
    log ← gets e_log;
    let '(f, err) := os_Remove (w_file log) in
    match err with
    | Some err => mret (Some (ResetRemove err))
    | None =>
      r ← lift_go (Wal.Open path None tt f).2;
      match r with
      | Err err => mret (Some (ResetOpen err))
      | Ok (log, _) =>
        _ ← modify (fun e => mkEngine log ∅ ∅ (e_clock e));
        mret None
      end
    end
  end.

Definition Close : GoM Engine (option oserr) := zoom e_log set_log Wal.Close.
