(* ===== verification/EngineInvariant.v ===== *)
(** * The engine's invariant and its preservation

    A ghost history [h] holds what has gone into the log and a sublist [a] of it
    the records whose mutation was acknowledged.  The engine's maps are the fold
    of [replay] over [a]; the two lists differ exactly by appends that failed. *)

From Stdlib Require Import ZArith Lia.
From S2P Require Import Prelude WalFormat Wal WalInvariant WalRecovery WalTheorems WalStore.
From S2P Require Import Engine.

(** ** Mutations as data *)

Inductive mutation :=
| MPut (key value : bytes) (expiresAtUnixNano : Z) (idempotencyKey : bytes)
| MDelete (key idempotencyKey : bytes)
| MCas (key value : bytes) (expectedVersion expiresAtUnixNano : Z) (idempotencyKey : bytes).

Definition run (m : mutation) : GoM Engine (result engine_error Outcome) :=
  match m with
  | MPut k v x id => ApplyPut k v x id
  | MDelete k id => Delete k id
  | MCas k v n x id => ApplyCompareAndSet k v n x id
  end.

(** The record the mutation appends. *)
Definition mutation_record (m : mutation) : WalRecord :=
  match m with
  | MPut k v x id | MCas k v _ x id => mkRecord 0 KindPut k v x id
  | MDelete k id => mkRecord 0 KindDelete k [] 0 id
  end.

Definition mutation_id (m : mutation) : bytes := IdempotencyKey (mutation_record m).

(** ** What the maps say about a history *)

(** Does the record decide the binding of [k]? *)
Definition writes (k : bytes) (r : WalRecord) : Prop :=
  Key r = k /\ (Kind r = KindPut \/ Kind r = KindDelete).
#[export] Instance writes_dec k r : Decision (writes k r).
Proof. unfold writes. apply _. Defined.

Definition last_write (k : bytes) (h : list WalRecord) : option WalRecord :=
  last (filter (writes k) h).

Definition last_with_id (id : bytes) (h : list WalRecord) : option WalRecord :=
  last (filter (fun r => IdempotencyKey r = id) h).

Definition entry_of (r : WalRecord) : entry :=
  mkEntry (Value r) (CommitPosition r) (expiry_of (ExpiresAtUnixNano r)).

Definition replayed (h : list WalRecord) : tables := fold_left replay_step h (∅, ∅).

Lemma replayed_snoc h r : replayed (h ++ [r]) = replay_step (replayed h) r.
Proof. apply fold_left_snoc. Qed.

Lemma last_filter_snoc {A} (P : A -> Prop) `{!forall x, Decision (P x)} l x :
  last (filter P (l ++ [x])) = if decide (P x) then Some x else last (filter P l).
Proof.
  rewrite filter_app, filter_cons, filter_nil. destruct (decide (P x)).
  - apply last_snoc.
  - by rewrite app_nil_r.
Qed.

Lemma replayed_index h k :
  (replayed h).1 !! k = match last_write k h with
                        | Some r => if Kind r =? KindPut then Some (entry_of r) else None
                        | None => None
                        end.
Proof.
  induction h as [|r h IH] using rev_ind; [done|].
  rewrite replayed_snoc. unfold last_write in *. rewrite last_filter_snoc.
  cbn. unfold replay_index.
  destruct (decide (writes k r)) as [[Hk [Hput|Hdel]]|Hno].
  - rewrite Hput. cbn. rewrite <- Hk. apply lookup_insert_eq.
  - rewrite Hdel. cbn. rewrite <- Hk. apply lookup_delete_eq.
  - rewrite <- IH. destruct (Kind r =? KindPut) eqn:E1; bool_prop.
    { apply lookup_insert_ne. intros <-. apply Hno. split; auto. }
    destruct (Kind r =? KindDelete) eqn:E2; bool_prop; [|done].
    apply lookup_delete_ne. intros <-. apply Hno. split; auto.
Qed.

Lemma replayed_dedup h id :
  id <> [] ->
  (replayed h).2 !! id = (fun r => mkOutcome (CommitPosition r) (CommitPosition r) false)
                           <$> last_with_id id h.
Proof.
  intros Hid. induction h as [|r h IH] using rev_ind; [done|].
  rewrite replayed_snoc. unfold last_with_id in *. rewrite last_filter_snoc.
  cbn. unfold replay_dedup.
  destruct (decide (IdempotencyKey r = id)) as [<-|Hne].
  - rewrite bool_decide_true by done. by rewrite lookup_insert_eq.
  - rewrite <- IH. case_bool_decide; [by rewrite lookup_insert_ne|done].
Qed.

Lemma replayed_dedup_nil h : (replayed h).2 !! [] = None.
Proof.
  induction h as [|r h IH] using rev_ind; [done|].
  rewrite replayed_snoc. cbn. unfold replay_dedup.
  case_bool_decide; [by rewrite lookup_insert_ne|done].
Qed.

(** ** The invariant *)

Record engine_inv (e : Engine) (h a : list WalRecord) : Prop := {
  ei_log : log_inv (e_log e) h;
  ei_tables : e_tables e = replayed a;
  ei_acked : a `sublist_of` h;
  (* an idempotency key the engine knows belongs to the last record that has it *)
  ei_ids : forall id out, e_dedup e !! id = Some out ->
    exists r, last_with_id id h = Some r /\
              out = mkOutcome (CommitPosition r) (CommitPosition r) false
}.

(** Reading the clock changes nothing the invariant mentions. *)
Definition same_but_clock (e e' : Engine) : Prop :=
  e_log e' = e_log e /\ e_index e' = e_index e /\ e_dedup e' = e_dedup e.

#[export] Instance same_but_clock_equiv : Equivalence same_but_clock.
Proof.
  split; unfold same_but_clock.
  - by intros e.
  - intros e e' (-> & -> & ->). done.
  - intros e1 e2 e3 (-> & -> & ->) (-> & -> & ->). done.
Qed.

Lemma engine_inv_clock e e' h a : same_but_clock e e' -> engine_inv e h a -> engine_inv e' h a.
Proof.
  intros (Hl & Hi & Hd) []. split; unfold e_tables in *; rewrite ?Hl, ?Hi, ?Hd; done.
Qed.

Lemma expired_clock ent e :
  exists e', same_but_clock e e' /\
    expired ent e = (e', Ret (match expiresAt ent with
                              | None => false
                              | Some t => t <? e_clock e 0%nat
                              end)).
Proof.
  unfold expired. destruct (expiresAt ent); eexists; (split; [|reflexivity]); done.
Qed.

Lemma current_version_clock key e :
  exists e' n, same_but_clock e e' /\ current_version key e = (e', Ret n).
Proof.
  unfold current_version. rewrite (bind_ret _ _ e e e) by done.
  destruct (e_index e !! key) as [ent|]; [|by exists e, 0].
  destruct (expired_clock ent e) as (e' & Hs & He). exists e'.
  rewrite (bind_ret _ _ _ _ _ He). by eexists.
Qed.

(** ** Preservation *)

Lemma fits_clock e e' rec : same_but_clock e e' -> fits (e_log e) rec -> fits (e_log e') rec.
Proof. by intros (-> & _). Qed.

(** What an append does to the engine: the log alone changes. *)
Lemma append_spec rec e h a :
  engine_inv e h a -> fits (e_log e) rec ->
  exists w' r h', append rec e = (set_log e w', Ret r) /\ log_inv w' h' /\
    keeps_durable (e_log e) w' h h' /\ append_post w' h h' rec r.
Proof.
  intros Hinv Hok. destruct (log_append rec _ _ (ei_log _ _ _ Hinv) Hok) as (w' & r & h' & E & H).
  exists w', r, h'. split; [|done]. unfold append. by erewrite zoom_ret by done.
Qed.

(** A failed append: the history may have grown, nothing else has changed. *)
Lemma append_failed rec e h a w' h' :
  engine_inv e h a -> e_dedup e !! IdempotencyKey rec = None ->
  log_inv w' h' -> (h' = h \/ h' = log_of h rec) ->
  engine_inv (set_log e w') h' a.
Proof.
  intros [Hl Ht Ha Hids] Hnew Hl' Hh'.
  assert (exists k, h' = h ++ k /\ (k = [] \/ k = [committed h rec])) as (k & -> & Hk).
  { destruct Hh' as [->| ->]; [exists []; by rewrite app_nil_r; auto|].
    exists [committed h rec]. auto. }
  split; try done.
  - by apply sublist_inserts_r.
  - cbn. intros id out Hout. destruct (Hids id out Hout) as (r & Hr & ->).
    exists r. split; [|done].
    destruct Hk as [->| ->]; [by rewrite app_nil_r|].
    unfold last_with_id in *. rewrite last_filter_snoc, decide_False; [done|].
    cbn. intros Hid. congruence.
Qed.

(** A successful one, followed by the change of the maps [replay] would make. *)
Lemma append_applied rec e h a e' :
  engine_inv e h a -> log_inv (e_log e') (log_of h rec) ->
  e_tables e' = replay_step (e_tables e) (committed h rec) ->
  engine_inv e' (log_of h rec) (a ++ [committed h rec]).
Proof.
  intros [Hl Ht Ha Hids] Hl' Ht'. split; try done.
  - rewrite Ht', Ht. symmetry. apply replayed_snoc.
  - by apply sublist_app.
  - intros id out Hout. unfold last_with_id, log_of. rewrite last_filter_snoc.
    assert (Hded : e_dedup e' = replay_dedup (e_dedup e) (committed h rec))
      by (by injection Ht').
    rewrite Hded in Hout. unfold replay_dedup in Hout.
    destruct (decide (IdempotencyKey (committed h rec) = id)) as [Hid|Hid].
    + exists (committed h rec). case_bool_decide as Hne.
      * rewrite <- Hid, lookup_insert_eq in Hout. by injection Hout as <-.
      * rewrite <- Hid, Hne in Hout.
        assert (e_dedup e !! [] = None).
        { pose proof (replayed_dedup_nil a) as Hn. rewrite <- Ht in Hn. done. }
        congruence.
    + assert (e_dedup e !! id = Some out) as Hold.
      { case_bool_decide; [by rewrite lookup_insert_ne in Hout|done]. }
      destruct (Hids id out Hold) as (r & Hr & ->).
      by exists r.
Qed.

Lemma dedup_hit_None id e h a :
  engine_inv e h a -> dedup_hit id e = None -> e_dedup e !! id = None.
Proof.
  unfold dedup_hit. intros Hinv. case_bool_decide as Hne.
  - by destruct (e_dedup e !! id).
  - intros _. subst id.
    pose proof (replayed_dedup_nil a) as Hn. by rewrite <- (ei_tables _ _ _ Hinv) in Hn.
Qed.

(** The part behind the guards of a mutation. *)
Definition commit (m : mutation) : GoM Engine (result engine_error Outcome) :=
  match m with
  | MPut k v x id | MCas k v _ x id => commit_put k v x id
  | MDelete k id =>
    r ← append (mutation_record m);
    match r with
    | Err err => mret (Err (LogError err))
    | Ok pos => _ ← modify (fun e => set_index e (delete k (e_index e))); committed_at pos id
    end
  end.

(** The maps a commit leaves are those [replay] would make of its record. *)
Lemma commit_ok m e w' h :
  append (mutation_record m) e = (set_log e w', Ret (Ok (len h + 1))) ->
  exists e', commit m e = (e', Ret (Ok (mkOutcome (len h + 1) (len h + 1) false))) /\
    e_log e' = w' /\ e_clock e' = e_clock e /\
    e_tables e' = replay_step (e_tables e) (committed h (mutation_record m)).
Proof.
  intros Ha. destruct m as [k v x id|k id|k v n x id]; cbn [commit]; unfold commit_put;
    rewrite (bind_ret _ _ _ _ _ Ha);
    unfold committed_at, modify, mbind, GoM_bind, mret, GoM_ret;
    eexists; (split; [reflexivity|]); unfold replay_step, replay_dedup, e_tables; cbn;
    case_bool_decide; done.
Qed.

Lemma commit_err m e w' er :
  append (mutation_record m) e = (set_log e w', Ret (Err er)) ->
  commit m e = (set_log e w', Ret (Err (LogError er))).
Proof.
  intros Ha. destruct m; cbn [commit]; unfold commit_put; by rewrite (bind_ret _ _ _ _ _ Ha).
Qed.

(** How the ghost lists follow the result of a mutation. *)
Definition ghost_step (m : mutation) (h a h' a' : list WalRecord)
    (r : result engine_error Outcome) : Prop :=
  let rec := mutation_record m in
  match r with
  | Ok out =>
    if o_Deduplicated out then h' = h /\ a' = a
    else h' = log_of h rec /\ a' = a ++ [committed h rec] /\
         out = mkOutcome (len h + 1) (len h + 1) false
  | Err ErrVersionMismatch => h' = h /\ a' = a
  | Err (LogError _) => (h' = h \/ h' = log_of h rec) /\ a' = a
  end.

Lemma commit_spec m e h a :
  engine_inv e h a -> fits (e_log e) (mutation_record m) -> e_dedup e !! mutation_id m = None ->
  exists e' r h' a', commit m e = (e', Ret r) /\ engine_inv e' h' a' /\
    ghost_step m h a h' a' r /\ keeps_durable (e_log e) (e_log e') h h' /\
    (forall out, r = Ok out -> durable (e_log e') h' (o_CommitPosition out)).
Proof.
  intros Hinv Hok Hnew.
  destruct (append_spec _ e h a Hinv Hok) as (w' & [pos|er] & h' & Ha & Hl & Hk & Hr).
  - destruct Hr as (-> & -> & Hd).
    destruct (commit_ok m e w' h Ha) as (e' & E & <- & _ & Ht).
    do 4 eexists. split; [exact E|]. split; [by eapply append_applied|]. split; [done|].
    split; [done|]. by intros ? [= <-].
  - exists (set_log e w'), (Err (LogError er)), h', a. split; [by apply commit_err|].
    by split; [eapply append_failed|].
Qed.

(** A mutation is its guards and then [commit], on a state that differs at most
    in the clock. *)
Lemma run_unfold m e :
  match dedup_hit (mutation_id m) e with
  | Some out => run m e = (e, Ret (Ok out))
  | None =>
    exists e', same_but_clock e e' /\
      (run m e = (e', Ret (Err ErrVersionMismatch)) \/ run m e = commit m e')
  end.
Proof.
  destruct m as [k v x id|k id|k v n x id]; cbn [run mutation_id mutation_record IdempotencyKey].
  - unfold ApplyPut. rewrite (bind_ret _ _ e e e) by done.
    destruct (dedup_hit id e); [done|]. exists e. split; [done|by right].
  - unfold Delete. rewrite (bind_ret _ _ e e e) by done.
    destruct (dedup_hit id e); [done|]. exists e. split; [done|by right].
  - unfold ApplyCompareAndSet. rewrite (bind_ret _ _ e e e) by done.
    destruct (dedup_hit id e); [done|].
    destruct (current_version_clock k e) as (e' & n' & Hs & Hc).
    rewrite (bind_ret _ _ _ _ _ Hc). exists e'. split; [done|].
    destruct (negb (n' =? n)); [by left|by right].
Qed.

Lemma dedup_hit_flag id e out : dedup_hit id e = Some out -> o_Deduplicated out = true.
Proof.
  unfold dedup_hit. case_bool_decide; [|done].
  intros (o & _ & ->)%fmap_Some. done.
Qed.

(** Every mutation returns, keeps the invariant, and moves the ghost lists as
    its result says; what it commits is on stable storage. *)
Lemma run_spec m e h a :
  engine_inv e h a -> fits (e_log e) (mutation_record m) ->
  exists e' r h' a', run m e = (e', Ret r) /\ engine_inv e' h' a' /\
    ghost_step m h a h' a' r /\ keeps_durable (e_log e) (e_log e') h h' /\
    (forall out, r = Ok out -> o_Deduplicated out = false ->
       durable (e_log e') h' (o_CommitPosition out)).
Proof.
  intros Hinv Hok. pose proof (run_unfold m e) as Hrun.
  destruct (dedup_hit (mutation_id m) e) as [out|] eqn:Hhit.
  - exists e, (Ok out), h, a. pose proof (dedup_hit_flag _ _ _ Hhit) as Hflag.
    split_and!; try done; [cbn; by rewrite Hflag|by intros p Hp|].
    intros ? [= <-]. congruence.
  - destruct Hrun as (e1 & Hs & [Hrun|Hrun]); rewrite Hrun.
    + exists e1, (Err ErrVersionMismatch), h, a. split_and!; try done.
      * by eapply engine_inv_clock.
      * unfold keeps_durable. by destruct Hs as (-> & _).
    + destruct (commit_spec m e1 h a) as (e' & r & h' & a' & ? & ? & ? & Hk & Hd);
        [by eapply engine_inv_clock|by eapply fits_clock| |].
      { destruct Hs as (_ & _ & ->). by eapply dedup_hit_None. }
      exists e', r, h', a'. split_and!; try done; [|by eauto].
      unfold keeps_durable in *. destruct Hs as (Hl & _). by rewrite Hl in Hk.
Qed.

(** A mutation forgets no idempotency key. *)
Lemma run_keeps_ids m e h a e' r id out :
  engine_inv e h a -> fits (e_log e) (mutation_record m) -> run m e = (e', Ret r) ->
  e_dedup e !! id = Some out -> e_dedup e' !! id = Some out.
Proof.
  intros Hinv Hok Hrun Hid. pose proof (run_unfold m e) as Hu.
  destruct (dedup_hit (mutation_id m) e) as [o|] eqn:Hhit.
  { rewrite Hu in Hrun. by injection Hrun as <- _. }
  destruct Hu as (e1 & Hs & [Hu|Hu]); rewrite Hu in Hrun.
  { injection Hrun as <- _. by destruct Hs as (_ & _ & ->). }
  pose proof (dedup_hit_None _ _ _ _ Hinv Hhit) as Hnew.
  pose proof Hs as (Hlog1 & _ & Hd1).
  destruct (append_spec _ e1 h a (engine_inv_clock _ _ _ _ Hs Hinv)
              (fits_clock _ _ _ Hs Hok))
    as (w' & [pos|er] & h' & Ha & _ & _ & Hr).
  - destruct Hr as (_ & -> & _). destruct (commit_ok m e1 w' h Ha) as (e2 & E & _ & _ & Ht).
    rewrite Hrun in E. injection E as <- _.
    apply (f_equal snd) in Ht. cbn in Ht. rewrite Ht, Hd1. unfold replay_dedup.
    case_bool_decide; [|done]. rewrite lookup_insert_ne; [done|].
    cbn. intros Heq. unfold mutation_id in Hnew. congruence.
  - rewrite (commit_err m e1 w' er Ha) in Hrun. injection Hrun as <- _. cbn. by rewrite Hd1.
Qed.

(** ** Restart *)

(** The last record with an identifier is the last one of every prefix it is in. *)
Lemma last_with_id_take id h m r :
  numbered_from 1 h -> last_with_id id h = Some r -> CommitPosition r <= Z.of_nat m ->
  last_with_id id (take m h) = Some r.
Proof.
  intros Hn Hl Hm. unfold last_with_id in *.
  rewrite <- (take_drop m h), filter_app in Hl.
  destruct (filter _ (drop m h)) as [|x l] eqn:E using rev_ind.
  - by rewrite app_nil_r in Hl.
  - rewrite app_assoc, last_snoc in Hl. injection Hl as ->.
    assert (r ∈ filter (fun r => IdempotencyKey r = id) (drop m h)) as Hr.
    { rewrite E. apply elem_of_app. right. by apply list_elem_of_singleton. }
    apply list_elem_of_filter in Hr as (_ & Hr).
    pose proof (elem_of_drop_pos _ _ _ Hn Hr). lia.
Qed.

(** Opening the file a crash leaves of a log, wherever an append was. *)
Lemma engine_recovers sys path clock w h k :
  wal_inv w h -> (5 <= f_synced (w_file w))%nat -> (f_synced (w_file w) <= k)%nat ->
  exists m f' e',
    Engine.Open sys path clock (crash k (w_file w)) = (f', Ret (Ok e')) /\
    engine_inv e' (take m h) (take m h) /\ e_clock e' = default sys clock /\
    (forall p, durable w h p -> p <= Z.of_nat m /\ durable (e_log e') (take m h) p).
Proof.
  intros Hinv H5 Hk.
  destruct (crash_recovers replay replay_step (fun _ => True) _ w h k path (∅, ∅) Hinv H5)
    as (m & f' & HO & Hw & _ & H5' & Hm); [by apply Forall_true|done|].
  exists m, f', (mkEngine (opened path f' (take m h)) (replayed (take m h)).1
                   (replayed (take m h)).2 (default sys clock)).
  unfold Engine.Open. rewrite (bind_ret _ _ _ _ _ HO).
  unfold replayed. destruct (fold_left _ _ _) as [index dedup] eqn:E.
  split; [done|]. split; [|done]. split; try done.
  cbn. intros id out Hid.
  destruct (decide (id = [])) as [->|Hne].
  - pose proof (replayed_dedup_nil (take m h)) as Hn. unfold replayed in Hn.
    rewrite E in Hn. cbn in Hn. congruence.
  - pose proof (replayed_dedup (take m h) id Hne) as Hn. unfold replayed in Hn.
    rewrite E in Hn. cbn in Hn. rewrite Hid in Hn. symmetry in Hn.
    apply fmap_Some in Hn as (r & ? & ->). eauto.
Qed.

Lemma engine_restart sys path clock e h a k :
  engine_inv e h a -> (f_synced (w_file (e_log e)) <= k)%nat ->
  exists m f' e',
    Engine.Open sys path clock (crash k (w_file (e_log e))) = (f', Ret (Ok e')) /\
    engine_inv e' (take m h) (take m h) /\ e_clock e' = default sys clock /\
    (forall p, durable (e_log e) h p -> p <= Z.of_nat m /\ durable (e_log e') (take m h) p).
Proof. intros Hinv. apply engine_recovers; apply (ei_log _ _ _ Hinv). Qed.
