(* ===== verification/EngineTheorems.v ===== *)
(** * Theorems about the engine

    What each mutation does to the state, restarts, idempotent retries,
    conditional writes, expiry, and the agreement of the state with the change
    stream. *)

From Stdlib Require Import ZArith Lia.
From S2P Require Import Prelude WalFormat Wal WalInvariant WalRecovery WalTheorems WalStore.
From S2P Require Import Engine EngineInvariant.

(** ** Reads *)

Definition live (now : Z) (ent : entry) : bool :=
  match expiresAt ent with Some t => negb (t <? now) | None => true end.

(** What a reader sees of a binding at time [now]. *)
Definition visible (now : Z) (b : option entry) : option (bytes * Z) :=
  match b with
  | Some ent => if live now ent then Some (value ent, version ent) else None
  | None => None
  end.

Lemma expired_live ent e :
  exists e', same_but_clock e e' /\ expired ent e = (e', Ret (negb (live (e_clock e 0%nat) ent))).
Proof.
  destruct (expired_clock ent e) as (e' & Hs & ->). exists e'. split; [done|].
  unfold live. destruct (expiresAt ent); by rewrite ?negb_involutive.
Qed.

Lemma Get_spec k e :
  exists e', same_but_clock e e' /\
    Get k e = (e', Ret (visible (e_clock e 0%nat) (e_index e !! k))).
Proof.
  unfold Get. rewrite (bind_ret _ _ e e e) by done.
  destruct (e_index e !! k) as [ent|]; [|by exists e].
  destruct (expired_live ent e) as (e' & Hs & He). exists e'. split; [done|].
  rewrite (bind_ret _ _ _ _ _ He). cbn. by destruct (live _ ent).
Qed.

Lemma current_version_spec k e :
  exists e', same_but_clock e e' /\
    current_version k e
    = (e', Ret (default 0 (snd <$> visible (e_clock e 0%nat) (e_index e !! k)))).
Proof.
  unfold current_version. rewrite (bind_ret _ _ e e e) by done.
  destruct (e_index e !! k) as [ent|]; [|by exists e].
  destruct (expired_live ent e) as (e' & Hs & He). exists e'. split; [done|].
  rewrite (bind_ret _ _ _ _ _ He). cbn. by destruct (live _ ent).
Qed.

Lemma index_replayed e h a k :
  engine_inv e h a -> e_index e !! k = (replayed a).1 !! k.
Proof. intros Hinv. by rewrite <- (ei_tables _ _ _ Hinv). Qed.

(** A binding of the index is the entry of a record of the log. *)
Lemma index_in_log e h a k ent :
  engine_inv e h a -> e_index e !! k = Some ent ->
  exists r, h !! Z.to_nat (CommitPosition r - 1) = Some r /\ ent = entry_of r /\
    Key r = k /\ Kind r = KindPut /\ 1 <= CommitPosition r <= len h.
Proof.
  intros Hinv Hk. rewrite (index_replayed _ _ _ _ Hinv), replayed_index in Hk.
  unfold last_write in Hk.
  destruct (last _) as [r|] eqn:Hr; [|done].
  destruct (Kind r =? KindPut) eqn:Hkind; [|done]. injection Hk as <-. bool_prop.
  apply last_Some_elem_of, list_elem_of_filter in Hr as ((HK & _) & Hr).
  eapply elem_of_sublist in Hr; [|apply (ei_acked _ _ _ Hinv)].
  apply lookup_position in Hr as (Hi & Hpos); [|apply (log_numbered _ _ (ei_log _ _ _ Hinv))].
  destruct Hpos. exists r. by split_and!.
Qed.

(** ** A fresh engine, for the witnesses *)

Definition fresh_engine (sys : list (option oserr)) (clock : Clock) : Engine :=
  mkEngine (opened ($"p") (fresh_file sys) []) ∅ ∅ clock.

Lemma fresh_inv sys clock : engine_inv (fresh_engine sys clock) [] [].
Proof. by split. Qed.

Definition put1 : mutation := MPut ($"k") ($"v1") 0 ($"req-1").
Definition put2 : mutation := MPut ($"k") ($"v2") 0 ($"req-2").
Definition at100 : Clock := fun _ => 100.

(** ** Mutations *)

(** C4: every mutation returns on every branch and keeps the engine's invariant.
    A success commits exactly one record, at the next position, whose effect on
    the maps is the one [replay] has, and the record is on stable storage; a
    deduplicated retry, a version mismatch and a failed append change no map;
    nothing that was durable is lost. *)
Theorem mutation_correct m e h a :
  engine_inv e h a -> fits (e_log e) (mutation_record m) ->
  exists e' r h' a', run m e = (e', Ret r) /\ engine_inv e' h' a' /\
    ghost_step m h a h' a' r /\ keeps_durable (e_log e) (e_log e') h h' /\
    (forall out, r = Ok out -> o_Deduplicated out = false ->
       durable (e_log e') h' (o_CommitPosition out)).
Proof. apply run_spec. Qed.

Lemma mutation_correct_witness :
  exists e' r h' a', run put1 (fresh_engine [] at100) = (e', Ret r) /\ engine_inv e' h' a' /\
    ghost_step put1 [] [] h' a' r /\ keeps_durable (e_log (fresh_engine [] at100)) (e_log e') [] h' /\
    (forall out, r = Ok out -> o_Deduplicated out = false ->
       durable (e_log e') h' (o_CommitPosition out)).
Proof.
  refine (mutation_correct put1 (fresh_engine [] at100) [] [] (fresh_inv _ _) _). by_decide.
Defined.

(** C14: a read returns the latest acknowledged write.  [Get] yields the value and
    commit position of the last acknowledged record for the key if that is a put
    whose expiry has not passed, and nothing otherwise; it changes nothing but
    the clock. *)
Theorem get_latest e h a k :
  engine_inv e h a ->
  exists e', same_but_clock e e' /\
    Get k e = (e', Ret (visible (e_clock e 0%nat)
                          (match last_write k a with
                           | Some r => if Kind r =? KindPut then Some (entry_of r) else None
                           | None => None
                           end))).
Proof.
  intros Hinv. rewrite <- replayed_index, <- (index_replayed _ _ _ _ Hinv). apply Get_spec.
Qed.

Lemma get_latest_witness :
  exists e', same_but_clock (fresh_engine [] at100) e' /\
    Get ($"k") (fresh_engine [] at100) = (e', Ret None).
Proof. exact (get_latest (fresh_engine [] at100) [] [] ($"k") (fresh_inv _ _)). Defined.

(** ** Restarts *)

(** C5: a restart rebuilds the state.  After a crash that keeps the synced bytes
    [Open] succeeds with a state that is the fold of a prefix of the log which
    contains every durable commit; if no append had failed and the last commit
    was acknowledged, index and idempotency table are exactly those before the
    crash. *)
Theorem restart_rebuilds sys path clock e h a k :
  engine_inv e h a -> (f_synced (w_file (e_log e)) <= k)%nat ->
  exists m f' e',
    Engine.Open sys path clock (crash k (w_file (e_log e))) = (f', Ret (Ok e')) /\
    engine_inv e' (take m h) (take m h) /\
    (forall p, durable (e_log e) h p -> p <= Z.of_nat m) /\
    (a = h -> h = [] \/ durable (e_log e) h (len h) -> e_tables e' = e_tables e).
Proof.
  intros Hinv Hk.
  destruct (engine_restart sys path clock e h a k Hinv Hk) as (m & f' & e' & HO & Hinv' & _ & Hp).
  exists m, f', e'. split_and!; [done|done|by apply Hp|].
  intros -> Hall. rewrite (ei_tables _ _ _ Hinv), (ei_tables _ _ _ Hinv').
  destruct Hall as [->|Hd]; [by rewrite take_nil|].
  destruct (Hp _ Hd). rewrite take_ge; [done|]. unfold len in *. lia.
Qed.

Definition after_put1 : Engine := (run put1 (fresh_engine [] at100)).1.
Definition log1 : list WalRecord := log_of [] (mutation_record put1).

Lemma after_put1_inv : engine_inv after_put1 log1 log1 /\ durable (e_log after_put1) log1 1.
Proof.
  destruct (run_spec put1 (fresh_engine [] at100) [] [] (fresh_inv _ _))
    as (e' & r & h' & a' & Hrun & Hinv & Hg & _ & Hd); [by_decide|].
  assert (Hr : (run put1 (fresh_engine [] at100)).2 = Ret (Ok (mkOutcome 1 1 false)))
    by (vm_compute; reflexivity).
  unfold after_put1. rewrite Hrun in *. cbn in Hr. injection Hr as ->.
  destruct Hg as (-> & -> & _). split; [exact Hinv|]. by apply (Hd _ eq_refl).
Qed.

Lemma restart_rebuilds_witness :
  exists m f' e',
    Engine.Open at100 ($"p") None (crash 60 (w_file (e_log after_put1))) = (f', Ret (Ok e')) /\
    engine_inv e' (take m log1) (take m log1) /\
    (forall p, durable (e_log after_put1) log1 p -> p <= Z.of_nat m) /\
    (log1 = log1 -> log1 = [] \/ durable (e_log after_put1) log1 (len log1) ->
     e_tables e' = e_tables after_put1).
Proof.
  refine (restart_rebuilds at100 ($"p") None after_put1 log1 log1 60 (proj1 after_put1_inv) _).
  vm_compute. lia.
Defined.

(** ** Idempotent retries *)

(** The life of an engine: mutations with any result, and crashes followed by a
    restart. *)
Inductive life (sys : Clock) (e : Engine) : Engine -> Prop :=
| life_refl : life sys e e
| life_mutation e1 m e2 r :
    life sys e e1 -> fits (e_log e1) (mutation_record m) ->
    run m e1 = (e2, Ret r) -> life sys e e2
| life_restart e1 k path clock f' e2 :
    life sys e e1 -> (f_synced (w_file (e_log e1)) <= k)%nat ->
    Engine.Open sys path clock (crash k (w_file (e_log e1))) = (f', Ret (Ok e2)) ->
    life sys e e2.

(** The engine remembers the durable commit at [p] under [id]. *)
Definition remembers (id : bytes) (p : Z) (e : Engine) : Prop :=
  exists h a, engine_inv e h a /\ e_dedup e !! id = Some (mkOutcome p p false) /\
    durable (e_log e) h p.

Lemma dedup_hit_Some id e out :
  id <> [] -> e_dedup e !! id = Some out ->
  dedup_hit id e = Some (mkOutcome (o_CommitPosition out) (o_Version out) true).
Proof. intros Hid Hout. unfold dedup_hit. by rewrite bool_decide_true, Hout. Qed.

Lemma life_remembers sys e e' id p :
  id <> [] -> remembers id p e -> life sys e e' -> remembers id p e'.
Proof.
  intros Hid He Hlife.
  induction Hlife as [|e1 m e2 r _ (h & a & Hinv & Hd & Hp) Hok Hrun
                      |e1 k path clock f' e2 _ (h & a & Hinv & Hd & Hp) Hk HO]; [done| |].
  - destruct (run_spec m e1 h a Hinv Hok) as (e' & r' & h' & a' & E & Hinv' & _ & Hkeep & _).
    rewrite Hrun in E. injection E as <- <-. exists h', a'.
    split_and!; [done|by apply (run_keeps_ids m e1 h a e2 r)|by apply Hkeep].
  - destruct (engine_restart sys path clock e1 h a k Hinv Hk)
      as (m & f1 & e' & E & Hinv' & _ & Hm).
    rewrite HO in E. injection E as <- <-. destruct (Hm p Hp) as (Hpm & Hdur).
    exists (take m h), (take m h). split_and!; [done| |done].
    destruct (ei_ids _ _ _ Hinv _ _ Hd) as (r & Hr & Hout). injection Hout as Hpr.
    pose proof (replayed_dedup (take m h) id Hid) as Hrep.
    rewrite <- (ei_tables _ _ _ Hinv') in Hrep. cbn in Hrep. rewrite Hrep.
    rewrite (last_with_id_take id h m r); [by rewrite Hpr| |done|lia].
    apply (log_numbered _ _ (ei_log _ _ _ Hinv)).
Qed.

(** A commit under an idempotency key is remembered. *)
Lemma run_remembers m e h a e1 out :
  engine_inv e h a -> fits (e_log e) (mutation_record m) -> mutation_id m <> [] ->
  run m e = (e1, Ret (Ok out)) -> o_Deduplicated out = false ->
  remembers (mutation_id m) (o_CommitPosition out) e1 /\
  o_Version out = o_CommitPosition out.
Proof.
  intros Hinv Hok Hid Hrun Hnew.
  destruct (run_spec m e h a Hinv Hok) as (e' & r & h' & a' & E & Hinv' & Hg & _ & Hd).
  rewrite Hrun in E. injection E as <- <-. cbn in Hg. rewrite Hnew in Hg.
  destruct Hg as (-> & -> & ->). split; [|done]. do 2 eexists.
  split_and!; [exact Hinv'| |by apply (Hd _ eq_refl)].
  pose proof (ei_tables _ _ _ Hinv') as Ht. rewrite replayed_snoc in Ht.
  apply (f_equal snd) in Ht. cbn in Ht. rewrite Ht. unfold replay_dedup.
  rewrite bool_decide_true by done. apply lookup_insert_eq.
Qed.

(** C6: retries are idempotent for the rest of the partition's life.  Once a
    mutation with an idempotency key has committed, any later mutation with the
    same key, after any further mutations and any crashes and restarts, returns
    the first one's position and version marked as deduplicated, and changes
    neither the log nor the state. *)
Theorem retry_idempotent sys m m' e h a e1 out e2 :
  engine_inv e h a -> fits (e_log e) (mutation_record m) -> mutation_id m <> [] ->
  run m e = (e1, Ret (Ok out)) -> o_Deduplicated out = false ->
  life sys e1 e2 -> mutation_id m' = mutation_id m ->
  run m' e2 = (e2, Ret (Ok (mkOutcome (o_CommitPosition out) (o_Version out) true))).
Proof.
  intros Hinv Hok Hid Hrun Hnew Hlife Hm'.
  destruct (run_remembers _ _ _ _ _ _ Hinv Hok Hid Hrun Hnew) as (Hrem & ->).
  destruct (life_remembers _ _ _ _ _ Hid Hrem Hlife) as (h2 & a2 & _ & Hd & _).
  pose proof (run_unfold m' e2) as Hu. rewrite Hm' in Hu.
  by rewrite (dedup_hit_Some _ _ _ Hid Hd) in Hu.
Qed.

(** The engine behind a crash and a restart. *)
Definition reopen (e : Engine) (k : nat) : Engine :=
  match Engine.Open at100 ($"p") None (crash k (w_file (e_log e))) with
  | (_, Ret (Ok e')) => e'
  | _ => e
  end.

Lemma retry_idempotent_witness :
  run (MDelete ($"other") ($"req-1")) (reopen after_put1 60)
  = (reopen after_put1 60, Ret (Ok (mkOutcome 1 1 true))).
Proof.
  refine (retry_idempotent at100 put1 (MDelete ($"other") ($"req-1")) (fresh_engine [] at100)
            [] [] after_put1 (mkOutcome 1 1 false) (reopen after_put1 60)
            (fresh_inv _ _) _ _ _ _ _ _).
  - by_decide.
  - done.
  - vm_compute. reflexivity.
  - done.
  - refine (life_restart _ _ after_put1 60 ($"p") None
              (w_file (e_log (reopen after_put1 60))) _ (life_refl _ _) _ _).
    + vm_compute. lia.
    + vm_compute. reflexivity.
  - done.
Defined.

(** ** Conditional writes *)

(** The version a conditional write sees. *)
Definition seen_version (k : bytes) (e : Engine) : Z :=
  default 0 (snd <$> visible (e_clock e 0%nat) (e_index e !! k)).

Lemma cas_unfold k v n x id e :
  dedup_hit id e = None ->
  exists e', same_but_clock e e' /\
    ApplyCompareAndSet k v n x id e
    = if seen_version k e =? n then commit (MCas k v n x id) e'
      else (e', Ret (Err ErrVersionMismatch)).
Proof.
  intros Hhit. unfold ApplyCompareAndSet. rewrite (bind_ret _ _ e e e), Hhit by done.
  destruct (current_version_spec k e) as (e' & Hs & Hc).
  rewrite (bind_ret _ _ _ _ _ Hc). exists e'. split; [done|].
  fold (seen_version k e). by destruct (seen_version k e =? n).
Qed.

(** C15: a conditional write under a new idempotency key commits exactly when the
    version a reader sees (0 for an absent or expired key) is the expected one.
    A conflict reports a version mismatch, appends nothing and changes no map; a
    success binds the key to the new value at the next commit position. *)
Theorem cas_exact k v n x id e h a :
  engine_inv e h a -> fits (e_log e) (mutation_record (MCas k v n x id)) ->
  dedup_hit id e = None ->
  exists e' r, ApplyCompareAndSet k v n x id e = (e', Ret r) /\
    if decide (seen_version k e = n) then
      match r with
      | Ok out => out = mkOutcome (len h + 1) (len h + 1) false /\
          e_index e' = <[k := mkEntry v (len h + 1) (expiry_of x)]> (e_index e) /\
          engine_inv e' (h ++ [mkRecord (len h + 1) KindPut k v x id])
                        (a ++ [mkRecord (len h + 1) KindPut k v x id])
      | Err (LogError _) => e_tables e' = e_tables e
      | Err ErrVersionMismatch => False
      end
    else r = Err ErrVersionMismatch /\ same_but_clock e e'.
Proof.
  intros Hinv Hok Hhit. destruct (cas_unfold k v n x id e Hhit) as (e1 & Hs & ->).
  destruct (decide (seen_version k e = n)) as [->|Hne].
  2: { apply Z.eqb_neq in Hne as ->. by eauto. }
  rewrite Z.eqb_refl. pose proof (engine_inv_clock _ _ _ _ Hs Hinv) as Hinv1.
  pose proof (fits_clock _ _ _ Hs Hok) as Hok1. pose proof Hs as (_ & Hi & Hd).
  destruct (append_spec _ e1 h a Hinv1 Hok1) as (w' & [pos|er] & h' & Ha & Hl & _ & Hr).
  - destruct Hr as (-> & -> & _).
    destruct (commit_ok (MCas k v n x id) e1 w' h Ha)
      as (e2 & -> & <- & _ & Ht).
    do 2 eexists. split; [reflexivity|]. split; [done|].
    split; [|exact (append_applied _ e1 h a e2 Hinv1 Hl Ht)].
    apply (f_equal fst) in Ht. cbn in Ht. by rewrite Ht, Hi.
  - rewrite (commit_err _ _ _ _ Ha). do 2 eexists. split; [reflexivity|].
    unfold e_tables. cbn. by rewrite Hi, Hd.
Qed.

Lemma cas_exact_witness :
  exists e' r, ApplyCompareAndSet ($"k") ($"v2") 1 0 [] after_put1 = (e', Ret r) /\
    match r with
    | Ok out => out = mkOutcome 2 2 false /\
        e_index e' = <[$"k" := mkEntry ($"v2") 2 None]> (e_index after_put1) /\
        engine_inv e' (log1 ++ [mkRecord 2 KindPut ($"k") ($"v2") 0 []])
                      (log1 ++ [mkRecord 2 KindPut ($"k") ($"v2") 0 []])
    | Err (LogError _) => e_tables e' = e_tables after_put1
    | Err ErrVersionMismatch => False
    end.
Proof.
  refine (cas_exact ($"k") ($"v2") 1 0 [] after_put1 log1 log1 (proj1 after_put1_inv) _ _).
  - by_decide.
  - done.
Defined.

(** Of two writers that condition on the same version only one succeeds: after
    a conditional write without expiry has committed, another one with the same
    expected version and a new idempotency key is refused, whatever the clock
    says. *)
Theorem cas_exclusive k v v' n x' id id' e h a e1 out :
  engine_inv e h a -> fits (e_log e) (mutation_record (MCas k v n 0 id)) ->
  ApplyCompareAndSet k v n 0 id e = (e1, Ret (Ok out)) -> o_Deduplicated out = false ->
  dedup_hit id' e1 = None ->
  exists e2, same_but_clock e1 e2 /\
    ApplyCompareAndSet k v' n x' id' e1 = (e2, Ret (Err ErrVersionMismatch)).
Proof.
  intros Hinv Hok Hrun Hnew Hhit'.
  assert (Hhit : dedup_hit id e = None).
  { destruct (dedup_hit id e) as [o|] eqn:Hh; [|done]. pose proof (dedup_hit_flag _ _ _ Hh).
    unfold ApplyCompareAndSet in Hrun. rewrite (bind_ret _ _ e e e), Hh in Hrun by done.
    injection Hrun as _ ->. congruence. }
  assert (Hn : n <= len h /\ seen_version k e1 = len h + 1).
  { destruct (cas_unfold k v n 0 id e Hhit) as (e0 & Hs & E). rewrite Hrun in E.
    destruct (seen_version k e =? n) eqn:Hv; [|done]. bool_prop.
    pose proof (engine_inv_clock _ _ _ _ Hs Hinv) as Hinv0.
    split.
    - rewrite <- Hv. unfold seen_version, visible. pose proof (len_nonneg h).
      destruct (e_index e !! k) as [ent|] eqn:Hk; [|done].
      destruct (index_in_log _ _ _ _ _ Hinv Hk) as (r & _ & -> & _ & _ & Hr).
      destruct (live _ _); cbn; lia.
    - destruct (append_spec _ e0 h a Hinv0 (fits_clock _ _ _ Hs Hok))
        as (w' & [pos|er] & h' & Ha & _ & _ & Hr).
      2: { by rewrite (commit_err _ _ _ _ Ha) in E. }
      destruct Hr as (_ & -> & _).
      destruct (commit_ok (MCas k v n 0 id) e0 w' h Ha) as (e2 & E2 & _ & _ & Ht).
      rewrite <- E in E2. injection E2 as <- _. apply (f_equal fst) in Ht. cbn in Ht.
      unfold seen_version. by rewrite Ht, lookup_insert_eq. }
  destruct (cas_unfold k v' n x' id' e1 Hhit') as (e2 & Hs & ->).
  exists e2. split; [done|]. destruct Hn as (Hle & ->).
  rewrite (proj2 (Z.eqb_neq _ _)) by lia. done.
Qed.

Lemma cas_exclusive_witness :
  let e1 := (ApplyCompareAndSet ($"k") ($"v1") 0 0 [] (fresh_engine [] at100)).1 in
  exists e2, same_but_clock e1 e2 /\
    ApplyCompareAndSet ($"k") ($"other") 0 0 [] e1 = (e2, Ret (Err ErrVersionMismatch)).
Proof.
  refine (cas_exclusive ($"k") ($"v1") ($"other") 0 0 [] [] (fresh_engine [] at100) [] [] _
            (mkOutcome 1 1 false) (fresh_inv _ _) _ _ _ _).
  - by_decide.
  - vm_compute. reflexivity.
  - done.
  - done.
Defined.

(** ** The change stream *)

(** C16: state version and stream offset are the same number.  If a reader sees a
    value at a version, fetching the change stream at that offset returns the
    put of that key and value. *)
Theorem version_is_stream_offset e h a k v ver e1 :
  engine_inv e h a -> b_err (w_w (e_log e)) = None -> healthy (w_file (e_log e)) ->
  Get k e = (e1, Ret (Some (v, ver))) ->
  Fetch ver 1 e1 = (e1, Ret (Ok [mkChange ver KindPut k v])).
Proof.
  intros Hinv Hb Hf Hget. destruct (Get_spec k e) as (e' & Hs & E). rewrite Hget in E.
  injection E as <- Hvis. unfold visible in Hvis.
  destruct (e_index e !! k) as [ent|] eqn:Hk; [|done].
  destruct (live _ _); [|done]. injection Hvis as -> ->.
  destruct (index_in_log _ _ _ _ _ Hinv Hk) as (r & Hr & -> & Hkey & Hkind & Hpos).
  destruct Hs as (Hlog & _). unfold Fetch.
  erewrite (bind_ret _ _ e1 e1 ([r], None)).
  - unfold mret, GoM_ret. cbn. unfold change_of. by rewrite Hkey, Hkind.
  - pose proof (wi_hist _ _ (li_wal _ _ (ei_log _ _ _ Hinv))) as (_ & _ & _ & Hlen).
    assert (HR : ReadRange (CommitPosition r) 1 (e_log e1) = (e_log e1, Ret ([r], None))).
    { rewrite Hlog, (ReadRange_flushed _ h) by
        (done || lia || apply (li_wal _ _ (ei_log _ _ _ Hinv)) ||
         by apply (li_flushed _ _ (ei_log _ _ _ Hinv))).
      rewrite (proj2 (Z.eqb_neq _ _)) by lia. by rewrite (drop_S _ _ _ Hr). }
    cbn [entry_of version]. erewrite zoom_ret by exact HR. by destruct e1.
Qed.

Lemma version_is_stream_offset_witness :
  Fetch 1 1 after_put1 = (after_put1, Ret (Ok [mkChange 1 KindPut ($"k") ($"v1")])).
Proof.
  refine (version_is_stream_offset after_put1 log1 log1 ($"k") ($"v1") 1 after_put1
            (proj1 after_put1_inv) _ _ _).
  - vm_compute. reflexivity.
  - by vm_compute.
  - vm_compute. reflexivity.
Defined.

(** A failed write is not undone.  A put whose fsync fails reports an error
    and is invisible to readers, yet its record is in the change stream, and
    after a restart the key reads as written: the state and the stream disagree,
    and a write reported as failed takes effect. *)
Theorem failed_put_resurfaces :
  let e := (Put ($"k") ($"v1") 0 [] (fresh_engine [Some ($"input/output error")] at100)).1 in
  (Put ($"k") ($"v1") 0 [] (fresh_engine [Some ($"input/output error")] at100)).2
    = Ret (Err (LogError (FsyncFailed ($"input/output error")))) /\
  (Get ($"k") e).2 = Ret None /\
  (Fetch 1 10 e).2 = Ret (Ok [mkChange 1 KindPut ($"k") ($"v1")]) /\
  (Get ($"k") (reopen e 100)).2 = Ret (Some ($"v1", 1)).
Proof. vm_compute. by split_and!. Qed.

(** The log file of a process that died between writing and syncing its first
    record: the record is in the file and not on stable storage. *)
Definition killed_before_sync : Engine :=
  set_log after_put1 (opened ($"p") (mkFile (stream log1) 5 false None [] []) log1).

(** A retry can be acknowledged without being durable.  A process dies before
    its fsync; the restarted engine recovers the unsynced record and answers the
    client's retry from its idempotency table, without syncing; a power failure
    then loses the acknowledged write. *)
Theorem retry_acked_not_durable :
  let e := reopen killed_before_sync 100 in
  (run put1 e).2 = Ret (Ok (mkOutcome 1 1 true)) /\
  f_synced (w_file (e_log (run put1 e).1)) = 5%nat /\
  (Get ($"k") (run put1 e).1).2 = Ret (Some ($"v1", 1)) /\
  (Get ($"k") (reopen (run put1 e).1 5)).2 = Ret None.
Proof. vm_compute. by split_and!. Qed.

(** ** Expiry *)

(** C34: a time to live is a window.  After a put with a TTL whose expiry fits 64
    bits has committed, a reader sees the value until [now + ttl] and not after
    it. *)
Theorem ttl_window k v ttl id e h a e1 out :
  engine_inv e h a -> 0 < ttl -> 0 < e_clock e 0%nat -> e_clock e 0%nat + ttl * second < 2 ^ 63 ->
  fits (e_log e) (mkRecord 0 KindPut k v (e_clock e 0%nat + ttl * second) id) ->
  Put k v ttl id e = (e1, Ret (Ok out)) -> o_Deduplicated out = false ->
  exists e2, Get k e1
    = (e2, Ret (if e_clock e1 0%nat <=? e_clock e 0%nat + ttl * second
                then Some (v, o_Version out) else None)).
Proof.
  intros Hinv Httl Hnow Hfit Hok Hput Hnew. unfold Put, resolve_ttl in Hput.
  rewrite (proj2 (Z.ltb_lt _ _)) in Hput by lia.
  set (e0 := (Now e).1) in *.
  assert (Hs : same_but_clock e e0) by done.
  assert (Hx : ttl_expiry (e_clock e 0%nat) ttl = e_clock e 0%nat + ttl * second).
  { unfold ttl_expiry, second in *. rewrite !i64_small; [done|..];
      unfold is_i64; rewrite ?i64_small; unfold is_i64; lia. }
  rewrite (bind_ret _ _ e e0 (e_clock e 0%nat + ttl * second)) in Hput
    by (rewrite (bind_ret _ _ e e0 (e_clock e 0%nat)) by done; by rewrite Hx).
  set (x := e_clock e 0%nat + ttl * second) in *.
  change (run (MPut k v x id) e0 = (e1, Ret (Ok out))) in Hput.
  pose proof (engine_inv_clock _ _ _ _ Hs Hinv) as Hinv0.
  destruct (run_spec (MPut k v x id) e0 h a Hinv0 (fits_clock _ _ _ Hs Hok))
    as (e' & r & h' & a' & E & Hinv1 & Hg & _ & _).
  rewrite Hput in E. injection E as <- <-. cbn in Hg. rewrite Hnew in Hg.
  destruct Hg as (-> & -> & ->).
  destruct (Get_spec k e1) as (e2 & _ & ->). exists e2. do 2 f_equal.
  rewrite (index_replayed _ _ _ _ Hinv1), replayed_snoc. cbn.
  rewrite lookup_insert_eq. unfold expiry_of.
  rewrite (proj2 (Z.ltb_lt 0 x)) by (unfold x, second; lia).
  unfold visible, live. cbn [expiresAt value version]. by rewrite <- Z.leb_antisym.
Qed.

Lemma ttl_window_witness :
  let e1 := (Put ($"k") ($"v") 5 [] (fresh_engine [] at100)).1 in
  exists e2, Get ($"k") e1 = (e2, Ret (Some ($"v", 1))).
Proof.
  refine (ttl_window ($"k") ($"v") 5 [] (fresh_engine [] at100) [] [] _ (mkOutcome 1 1 false)
            (fresh_inv _ _) _ _ _ _ _ _).
  - lia.
  - vm_compute. reflexivity.
  - vm_compute. reflexivity.
  - by_decide.
  - vm_compute. reflexivity.
  - done.
Defined.

(** A large TTL overflows.  The product with a second wraps around 64 bits:
    a TTL of 584 years makes the value expire at once, and one of 292 years makes
    it never expire. *)
Theorem ttl_overflow :
  let now := fun _ => 1700000000 * second in
  (Get ($"k") (Put ($"k") ($"v") 18446744073 [] (fresh_engine [] now)).1).2 = Ret None /\
  e_index (Put ($"k") ($"v") 9223372037 [] (fresh_engine [] now)).1 !! $"k"
    = Some (mkEntry ($"v") 1 None).
Proof. vm_compute. by split. Qed.

(** ** [Reset] *)

Lemma Reset_spec e h a :
  engine_inv e h a -> calm (io_of (e_log e)) ->
  exists e', Reset e = (e', Ret None) /\ engine_inv e' [] [] /\ e_tables e' = (∅, ∅) /\
    Path (e_log e') = Path (e_log e) /\ LastCommitPosition e' = 0 /\
    calm (io_of (e_log e')) /\
    e_clock e' = e_clock e.
Proof.
  intros Hinv [Hf Hb]. pose proof (li_flushed _ _ (ei_log _ _ _ Hinv) Hb) as Hbuf.
  pose proof (li_idle _ _ (ei_log _ _ _ Hinv)) as Hidle.
  destruct e as [[p [d s c b ws sys] [buf be] next offs ps fs fe lead wo] idx ded clk].
  cbn in *. destruct Hf as (Hc & Hbad & Hw & Hs). cbn in *. subst.
  exists (mkEngine (opened p (fresh_file []) []) ∅ ∅ clk).
  split; [reflexivity|]. by split_and!.
Qed.

(** [Reset] gives a brand-new engine.  On a file whose operations succeed it
    returns no error, and the engine is as one just opened at an empty path:
    empty maps, an empty durable log at the same path, commit positions from 1. *)
Theorem reset_fresh e h a :
  engine_inv e h a -> b_err (w_w (e_log e)) = None -> healthy (w_file (e_log e)) ->
  exists e', Reset e = (e', Ret None) /\ engine_inv e' [] [] /\ e_tables e' = (∅, ∅) /\
    Path (e_log e') = Path (e_log e) /\ LastCommitPosition e' = 0 /\
    healthy (w_file (e_log e')).
Proof.
  intros Hinv Hb Hf. destruct (Reset_spec e h a Hinv) as (e' & HR & Hi & Ht & Hp & Hl & Hc & _);
    [by split|]. exists e'. destruct Hc. by split_and!.
Qed.

Lemma reset_fresh_witness :
  exists e', Reset after_put1 = (e', Ret None) /\ engine_inv e' [] [] /\
    e_tables e' = (∅, ∅) /\ Path (e_log e') = Path (e_log after_put1) /\
    LastCommitPosition e' = 0 /\ healthy (w_file (e_log e')).
Proof.
  refine (reset_fresh after_put1 log1 log1 (proj1 after_put1_inv) _ _).
  - vm_compute. reflexivity.
  - by vm_compute.
Defined.
