(* ===== verification/EngineTotal.v ===== *)
(** * Calls on an idle engine return

    Between two calls no goroutine leads a flush.  From such a state every
    mutation returns, whatever fails and whatever its size, and leaves such a
    state; so servers that run one call after another never wait on the log.
    No invariant on the file's contents is needed here. *)

From Stdlib Require Import ZArith Lia.
From S2P Require Import Prelude WalFormat Wal Engine EngineInvariant.

Definition idle (e : Engine) : Prop := w_leading (e_log e) = false.

(** A call that returns and leaves its state in [P]. *)
Definition returns {S A} (P : S -> Prop) (m : GoM S A) : Prop :=
  forall s, P s -> exists s' a, m s = (s', Ret a) /\ P s'.

Lemma returns_ret {S A} (P : S -> Prop) (a : A) : returns P (mret a).
Proof. intros s Hs. by exists s, a. Qed.

Lemma returns_bind {S A B} (P : S -> Prop) (m : GoM S A) (k : A -> GoM S B) :
  returns P m -> (forall a, returns P (k a)) -> returns P (mbind k m).
Proof.
  intros Hm Hk s Hs. destruct (Hm s Hs) as (s1 & a & E & Hs1).
  destruct (Hk a s1 Hs1) as (s2 & b & E2 & Hs2). exists s2, b. by rewrite (bind_ret _ _ _ _ _ E).
Qed.

Lemma returns_get {S} (P : S -> Prop) : returns P (@get_state S).
Proof. intros s Hs. by exists s, s. Qed.

Lemma returns_gets {S A} (P : S -> Prop) (f : S -> A) : returns P (gets f).
Proof. intros s Hs. by exists s, (f s). Qed.

Lemma returns_modify {S} (P : S -> Prop) f : (forall s, P s -> P (f s)) -> returns P (modify f).
Proof. intros Hf s Hs. exists (f s), tt. by split; [|apply Hf]. Qed.

Lemma returns_zoom {S T A} (P : S -> Prop) (Q : T -> Prop) proj upd (m : GoM T A) :
  (forall s, P s -> Q (proj s)) -> (forall s t, P s -> Q t -> P (upd s t)) ->
  returns Q m -> returns P (zoom proj upd m).
Proof.
  intros H1 H2 Hm s Hs. destruct (Hm (proj s) (H1 s Hs)) as (t & a & E & Ht).
  exists (upd s t), a. split; [by erewrite zoom_ret by exact E|by apply H2].
Qed.

Create HintDb total.
#[export] Hint Resolve returns_ret returns_bind returns_get returns_gets : total.

(** ** The log *)

Lemma leader_flush_idle pos w :
  match leader_flush pos w with
  | (w', Returned _) => w_leading w' = false
  | (w', Syncing flushSeq _ _) => flushSeq = w_pendingSeq w /\ w_pendingSeq w' = w_pendingSeq w
  | _ => False
  end.
Proof. unfold leader_flush. destruct (bufio_Flush (io_of w)) as [fb [[e|]| |]]; done. Qed.

Lemma append_enter_idle rec w :
  w_leading w = false ->
  match append_enter rec w with
  | (w', Returned _) => w_leading w' = false
  | (w', Syncing flushSeq _ _) => flushSeq = w_pendingSeq w'
  | _ => False
  end.
Proof.
  intros Hw. unfold append_enter.
  assert (Hlead : forall w' n pos, w_leading w' = false ->
    match (if w_leading (note_buffered w' n) then (note_buffered w' n, Waiting 0 0)
           else leader_flush pos (set_group (note_buffered w' n) (w_flushedSeq (note_buffered w' n))
                                    (w_flushErr (note_buffered w' n)) true)) with
    | (w', Returned _) => w_leading w' = false
    | (w', Syncing flushSeq _ _) => flushSeq = w_pendingSeq w'
    | _ => False
    end).
  { intros w' n pos Hw'. cbn [w_leading note_buffered]. rewrite Hw'.
    match goal with |- context [leader_flush pos ?x] => pose proof (leader_flush_idle pos x) as Hl;
      destruct (leader_flush pos x) as [w2 []] end; try done.
    destruct Hl as [-> ->]. done. }
  assert (Hin : forall fb fb2, w_leading (set_io (set_io (bump_next w) fb) fb2) = false) by done.
  destruct (bufio_Write _ (io_of (bump_next w))) as [fb r1].
  destruct (bufio_Write _ (io_of (set_io (bump_next w) fb))) as [fb2 r2].
  pose proof (fun n pos => Hlead (set_io (set_io (bump_next w) fb) fb2) n pos (Hin fb fb2)) as H2.
  cbn [w_leading note_buffered set_io bump_next] in *. rewrite Hw in *.
  destruct r1 as [[e|]| |], r2 as [[e2|]| |]; try exact Hw; apply H2.
Qed.

Lemma Append_returns rec : returns (fun w => w_leading w = false) (Append rec).
Proof.
  intros w Hw. unfold Append. pose proof (append_enter_idle rec w Hw) as He.
  destruct (append_enter rec w) as [w1 [| flushSeq pos covered | |r]]; try done; [|by exists w1, r].
  unfold wal_sync. assert (Hs : forall f e, exists w' r,
    match leader_synced flushSeq pos e (set_file w1 f) with
    | (w, Returned r) => (w, Ret r) | (w, _) => (w, Blocked) end = (w', Ret r) /\ w_leading w' = false).
  { intros f [e|]; cbn; [by do 2 eexists|]. rewrite He, Z.eqb_refl. by do 2 eexists. }
  destruct (File_Sync covered (w_file w1)) as [f [e| |]]; apply Hs.
Qed.

(** ** The engine *)

Lemma append_returns rec : returns idle (append rec).
Proof. eapply returns_zoom; [..|apply Append_returns]; done. Qed.

Lemma committed_at_returns pos id : returns idle (committed_at pos id).
Proof.
  apply returns_bind; [|eauto with total]. apply returns_modify. intros e He. by case_bool_decide.
Qed.

Lemma expired_returns ent : returns idle (expired ent).
Proof.
  intros e He. destruct (expired_clock ent e) as (e' & (Hl & _) & E). do 2 eexists. split; [exact E|].
  unfold idle. by rewrite Hl.
Qed.

Lemma commit_put_returns k v x id : returns idle (commit_put k v x id).
Proof.
  apply returns_bind; [apply append_returns|]. intros [pos|err]; [|eauto with total].
  apply returns_bind; [by apply returns_modify|]. intros _. apply committed_at_returns.
Qed.

Lemma current_version_returns k : returns idle (current_version k).
Proof.
  apply returns_bind; [eauto with total|]. intros e. destruct (e_index e !! k); [|eauto with total].
  apply returns_bind; [apply expired_returns|eauto with total].
Qed.

Lemma Get_returns k : returns idle (Get k).
Proof.
  apply returns_bind; [eauto with total|]. intros e. destruct (e_index e !! k); [|eauto with total].
  apply returns_bind; [apply expired_returns|eauto with total].
Qed.

Lemma resolve_ttl_returns ttl : returns idle (resolve_ttl ttl).
Proof.
  unfold resolve_ttl. destruct (0 <? ttl); [|eauto with total].
  apply returns_bind; [|eauto with total]. intros e He. by do 2 eexists.
Qed.

Lemma ApplyPut_returns k v x id : returns idle (ApplyPut k v x id).
Proof.
  apply returns_bind; [eauto with total|]. intros e. destruct (dedup_hit id e); [eauto with total|].
  apply commit_put_returns.
Qed.

Lemma Put_returns k v ttl id : returns idle (Put k v ttl id).
Proof. apply returns_bind; [apply resolve_ttl_returns|]. intros x. apply ApplyPut_returns. Qed.

Lemma Delete_returns k id : returns idle (Delete k id).
Proof.
  apply returns_bind; [eauto with total|]. intros e. destruct (dedup_hit id e); [eauto with total|].
  apply returns_bind; [apply append_returns|]. intros [pos|err]; [|eauto with total].
  apply returns_bind; [by apply returns_modify|]. intros _. apply committed_at_returns.
Qed.

Lemma CompareAndSet_returns k v n ttl id : returns idle (CompareAndSet k v n ttl id).
Proof.
  apply returns_bind; [apply resolve_ttl_returns|]. intros x.
  apply returns_bind; [eauto with total|]. intros e. destruct (dedup_hit id e); [eauto with total|].
  apply returns_bind; [apply current_version_returns|]. intros m.
  destruct (negb (m =? n)); [eauto with total|apply commit_put_returns].
Qed.

Lemma Snapshot_returns order : returns idle (Snapshot order).
Proof.
  unfold Snapshot. generalize (@nil SnapshotEntry).
  induction order as [|[k ent] order IH]; intros out; cbn [snapshot_loop]; [eauto with total|].
  apply returns_bind; [apply expired_returns|]. intros []; apply IH.
Qed.

#[export] Hint Resolve Get_returns Put_returns Delete_returns CompareAndSet_returns
  Snapshot_returns : total.
