(* ===== verification/Store.v ===== *)
(** * The engine against an abstract store

    The specification a client of the engine relies on, without files, buffers,
    offsets or hash tables: a store is the list of writes that are on disk, the
    list of those whose effects readers see, and how many of them are safe.  Its
    step relation says which answers and which restarts are possible.  Every run
    of the engine, through any sequence of reads, writes with arbitrary I/O
    failures, stream fetches and crashes with restarts, is a run of the store,
    and the engine answers every call. *)

From Stdlib Require Import ZArith Lia.
From S2P Require Import Prelude WalFormat Wal WalInvariant WalRecovery WalTheorems WalStore.
From S2P Require Import Engine EngineInvariant EngineTheorems.

(** ** The specification *)

(** [disk]: every write in the file, in commit order, at positions 1, 2, ...;
    [seen]: those readers see, which lack the writes that were reported as failed
    since the last restart; [safe]: the position up to which a crash loses
    nothing. *)
Record store := mkStore { disk : list WalRecord; seen : list WalRecord; safe : Z }.

(** What a reader sees of a key: its last write, if that is a put and live. *)
Definition read (now : Z) (k : bytes) (l : list WalRecord) : option (bytes * Z) :=
  visible now (match last_write k l with
               | Some r => if Kind r =? KindPut then Some (entry_of r) else None
               | None => None
               end).

Definition retried (m : mutation) (s : store) : option WalRecord :=
  if bool_decide (mutation_id m <> []) then last_with_id (mutation_id m) (seen s) else None.

(** Only a conditional write has a condition. *)
Definition condition (now : Z) (m : mutation) (s : store) : bool :=
  match m with
  | MCas k _ n _ _ => default 0 (snd <$> read now k (seen s)) =? n
  | _ => true
  end.

Inductive event :=
| EvGet (k : bytes) (now : Z) (answer : option (bytes * Z))
| EvWrite (m : mutation) (now : Z) (answer : result engine_error Outcome)
| EvFetch (from limit : Z) (answer : list ChangeRecord)
| EvRestart.

Inductive store_step : store -> event -> store -> Prop :=
| store_get s k now :
    store_step s (EvGet k now (read now k (seen s))) s
| store_retry s m now r :
    retried m s = Some r ->
    store_step s (EvWrite m now (Ok (mkOutcome (CommitPosition r) (CommitPosition r) true))) s
| store_conflict s m now :
    retried m s = None -> condition now m s = false ->
    store_step s (EvWrite m now (Err ErrVersionMismatch)) s
| store_commit s m now :
    retried m s = None -> condition now m s = true ->
    store_step s (EvWrite m now (Ok (mkOutcome (len (disk s) + 1) (len (disk s) + 1) false)))
      (mkStore (log_of (disk s) (mutation_record m))
         (seen s ++ [committed (disk s) (mutation_record m)]) (len (disk s) + 1))
| store_failure s m now e disk' :
    retried m s = None -> condition now m s = true ->
    disk' = disk s \/ disk' = log_of (disk s) (mutation_record m) ->
    store_step s (EvWrite m now (Err (LogError e))) (mkStore disk' (seen s) (safe s))
| store_fetch s from limit :
    store_step s (EvFetch from limit
      (change_of <$> (if from =? 0 then [] else
                      take (Z.to_nat limit) (drop (Z.to_nat (from - 1)) (disk s))))) s
| store_restart s n :
    safe s <= Z.of_nat n ->
    store_step s EvRestart (mkStore (take n (disk s)) (take n (disk s)) (safe s)).

Inductive store_run : store -> list event -> store -> Prop :=
| store_done s : store_run s [] s
| store_then s ev s1 tr s2 : store_step s ev s1 -> store_run s1 tr s2 -> store_run s (ev :: tr) s2.

Lemma store_run_app s tr1 s1 tr2 s2 :
  store_run s tr1 s1 -> store_run s1 tr2 s2 -> store_run s (tr1 ++ tr2) s2.
Proof. induction 1; [done|]. intros H2. econstructor; eauto. Qed.

(** ** Runs of the engine *)

Inductive call :=
| CGet (k : bytes)
| CWrite (m : mutation)
| CFetch (from limit : Z)
| CRestart (sys : Clock) (path : bytes) (clock : option Clock) (kept : nat).

(** What the environment owes: records that fit, a disk on which reads work for a
    fetch, and crashes that keep what was synced. *)
Definition allowed (e : Engine) (c : call) : Prop :=
  match c with
  | CGet _ => True
  | CWrite m => fits (e_log e) (mutation_record m)
  | CFetch from limit =>
      b_err (w_w (e_log e)) = None /\ healthy (w_file (e_log e)) /\
      0 <= from <= 2 ^ 63 /\ limit * sizeofRecord <= maxAlloc
  | CRestart _ _ _ kept => (f_synced (w_file (e_log e)) <= kept)%nat
  end.

(** The engine's code on a call. *)
Definition engine_step (e : Engine) (c : call) (ev : event) (e' : Engine) : Prop :=
  match c with
  | CGet k => exists r, Get k e = (e', Ret r) /\ ev = EvGet k (e_clock e 0%nat) r
  | CWrite m => exists r, run m e = (e', Ret r) /\ ev = EvWrite m (e_clock e 0%nat) r
  | CFetch from limit => exists r, Fetch from limit e = (e', Ret (Ok r)) /\ ev = EvFetch from limit r
  | CRestart sys path clock kept =>
      exists f', Engine.Open sys path clock (crash kept (w_file (e_log e))) = (f', Ret (Ok e')) /\
        ev = EvRestart
  end.

Inductive engine_run : Engine -> list event -> Engine -> Prop :=
| engine_done e : engine_run e [] e
| engine_then e c ev e1 tr e2 :
    allowed e c -> engine_step e c ev e1 -> engine_run e1 tr e2 -> engine_run e (ev :: tr) e2.

(** ** The simulation *)

Definition simulates (e : Engine) (s : store) : Prop :=
  engine_inv e (disk s) (seen s) /\ (safe s = 0 \/ durable (e_log e) (disk s) (safe s)).

Lemma retried_hit e s m :
  engine_inv e (disk s) (seen s) ->
  dedup_hit (mutation_id m) e
  = (fun r => mkOutcome (CommitPosition r) (CommitPosition r) true) <$> retried m s.
Proof.
  intros Hinv. unfold dedup_hit, retried. case_bool_decide as Hid; [|done].
  change (e_dedup e) with (e_tables e).2. rewrite (ei_tables _ _ _ Hinv), replayed_dedup by done.
  by destruct (last_with_id _ _).
Qed.

Lemma read_index e h a k now : engine_inv e h a -> visible now (e_index e !! k) = read now k a.
Proof. intros Hinv. by rewrite (index_replayed _ _ _ _ Hinv), replayed_index. Qed.

(** A mutation behind its guards, in the words of the store. *)
Lemma run_guarded m e s :
  engine_inv e (disk s) (seen s) -> retried m s = None ->
  exists e', same_but_clock e e' /\
    run m e = if condition (e_clock e 0%nat) m s then commit m e'
              else (e', Ret (Err ErrVersionMismatch)).
Proof.
  intros Hinv Hnew. pose proof (retried_hit e s m Hinv) as Hhit. rewrite Hnew in Hhit.
  destruct m as [k v x id|k id|k v n x id]; cbn [run condition].
  - exists e. split; [done|]. unfold ApplyPut. rewrite (bind_ret _ _ e e e) by done.
    cbn in Hhit. by rewrite Hhit.
  - exists e. split; [done|]. unfold Delete. rewrite (bind_ret _ _ e e e) by done.
    cbn in Hhit. by rewrite Hhit.
  - destruct (cas_unfold k v n x id e Hhit) as (e1 & Hs & ->). exists e1. split; [done|].
    unfold seen_version. by rewrite (read_index _ _ _ _ _ Hinv).
Qed.

Lemma write_simulated m e s :
  simulates e s -> fits (e_log e) (mutation_record m) ->
  exists e' r s', run m e = (e', Ret r) /\ simulates e' s' /\
    store_step s (EvWrite m (e_clock e 0%nat) r) s'.
Proof.
  intros [Hinv Hsafe] Hok. destruct (retried m s) as [r|] eqn:Hr.
  - pose proof (run_unfold m e) as Hrun. rewrite (retried_hit e s m Hinv), Hr in Hrun.
    cbn in Hrun. do 3 eexists. split; [exact Hrun|]. split; [by split|]. by constructor.
  - destruct (run_guarded m e s Hinv Hr) as (e1 & Hs & Hrun).
    pose proof (engine_inv_clock _ _ _ _ Hs Hinv) as Hinv1. pose proof Hs as (Hl & _ & Hd).
    destruct (condition _ m s) eqn:Hc.
    2: { do 3 eexists. split; [exact Hrun|]. split; [|by constructor]. split; [done|by rewrite Hl]. }
    assert (Hnone : e_dedup e1 !! mutation_id m = None).
    { rewrite Hd. apply (dedup_hit_None _ e _ _ Hinv). by rewrite (retried_hit e s m Hinv), Hr. }
    destruct (append_spec _ e1 _ _ Hinv1 (fits_clock _ _ _ Hs Hok))
      as (w' & [pos|er] & h' & Ha & Hlog & Hk & Hpost).
    + destruct Hpost as (-> & -> & Hdur). destruct (commit_ok m e1 w' _ Ha) as (e2 & E & <- & _ & Ht).
      rewrite E in Hrun. do 3 eexists. split; [exact Hrun|].
      split; [|by apply store_commit]. split; [by eapply append_applied|by right].
    + rewrite (commit_err m e1 w' er Ha) in Hrun. do 3 eexists. split; [exact Hrun|].
      split; [|by apply (store_failure _ _ _ _ h')]. split; [by eapply append_failed|]. cbn.
      destruct Hsafe as [?|?]; [by left|right]. apply Hk. by rewrite Hl.
Qed.

Lemma fetch_simulated from limit e s :
  simulates e s -> allowed e (CFetch from limit) ->
  Fetch from limit e
  = (e, Ret (Ok (change_of <$> (if from =? 0 then [] else
                 take (Z.to_nat limit) (drop (Z.to_nat (from - 1)) (disk s)))))).
Proof.
  intros [Hinv _] (Hb & Hf & Hfrom & Hlim). pose proof (ei_log _ _ _ Hinv) as Hl.
  pose proof (ReadRange_flushed _ _ from limit (li_wal _ _ Hl) Hb (li_flushed _ _ Hl Hb) Hf Hfrom Hlim)
    as HR.
  unfold Fetch. erewrite bind_ret; [|by erewrite zoom_ret by exact HR].
  by destruct e.
Qed.

(** Every allowed call returns, with an answer the store can give. *)
Lemma step_simulated e s c :
  simulates e s -> allowed e c ->
  exists ev e' s', engine_step e c ev e' /\ store_step s ev s' /\ simulates e' s'.
Proof.
  intros Hsim Hok. destruct c as [k|m|from limit|sys path clock kept]; cbn in Hok.
  - pose proof Hsim as [Hinv Hsafe]. destruct (Get_spec k e) as (e' & Hs & HG).
    rewrite (read_index _ _ _ _ _ Hinv) in HG.
    do 3 eexists. split; [by eexists|]. split; [by constructor|].
    split; [by eapply engine_inv_clock|]. by destruct Hs as (-> & _).
  - destruct (write_simulated m e s Hsim Hok) as (e' & r & s' & Hr & Hs' & Hst).
    do 3 eexists. split; [by eexists|]. by split.
  - do 3 eexists. split; [eexists; by split; [eapply fetch_simulated|]|]. split; [by constructor|done].
  - destruct Hsim as [Hinv Hsafe].
    destruct (engine_restart sys path clock e _ _ kept Hinv Hok) as (n & f' & e' & HO & Hinv' & _ & Hp).
    do 3 eexists. split; [by eexists|].
    assert (Hn : safe s <= Z.of_nat n) by (destruct Hsafe as [->|Hd]; [lia|by apply Hp]).
    split; [by apply (store_restart _ n)|]. split; [done|]. cbn.
    destruct Hsafe as [?|Hd]; [by left|right]. by apply Hp.
Qed.

(** The code is deterministic: a call has one answer. *)
Lemma engine_step_det e c ev1 ev2 e1 e2 :
  engine_step e c ev1 e1 -> engine_step e c ev2 e2 -> ev1 = ev2 /\ e1 = e2.
Proof.
  destruct c; cbn; intros (r1 & E1 & ->) (r2 & E2 & ->); rewrite E1 in E2; by injection E2 as -> ->.
Qed.

Lemma run_simulated e s tr e' :
  simulates e s -> engine_run e tr e' -> exists s', store_run s tr s' /\ simulates e' s'.
Proof.
  intros Hsim Hrun. revert s Hsim.
  induction Hrun as [e|e c ev e1 tr e2 Hok Hst Hrun IH]; intros s Hsim.
  - exists s. by split; [constructor|].
  - destruct (step_simulated e s c Hsim Hok) as (ev' & e1' & s1 & Hst' & Hsp & Hsim1).
    destruct (engine_step_det _ _ _ _ _ _ Hst Hst') as [<- <-].
    destruct (IH s1 Hsim1) as (s' & Hr & Hs'). exists s'. by split; [econstructor|].
Qed.

(** C3: the engine refines the abstract store.  Every run of the engine through reads,
    writes under any I/O failures, fetches, crashes and restarts is a run of the
    store with the same answers, and in every state it reaches the engine answers
    each allowed call. *)
Theorem engine_refines_store e s tr e' :
  simulates e s -> engine_run e tr e' ->
  (exists s', store_run s tr s' /\ simulates e' s') /\
  (forall c, allowed e' c -> exists ev e'', engine_step e' c ev e'').
Proof.
  intros Hsim Hrun. pose proof (run_simulated e s tr e' Hsim Hrun) as H.
  split; [exact H|]. destruct H as (s' & _ & Hs'). intros c Hc.
  destruct (step_simulated e' s' c Hs' Hc) as (ev & e'' & _ & Hst & _). by eauto.
Qed.

(** A put, a crash that keeps everything, and a read. *)
Definition demo_trace : list event :=
  [EvWrite put1 100 (Ok (mkOutcome 1 1 false)); EvRestart; EvGet ($"k") 100 (Some ($"v1", 1))].

Definition demo_end : Engine := (Get ($"k") (reopen after_put1 100)).1.

Lemma reopen_opens :
  exists f', Engine.Open at100 ($"p") None (crash 100 (w_file (e_log after_put1)))
             = (f', Ret (Ok (reopen after_put1 100))).
Proof.
  destruct (engine_restart at100 ($"p") None after_put1 _ _ 100 (proj1 after_put1_inv))
    as (m & f' & e' & HO & _); [by_decide|].
  exists f'. unfold reopen. by rewrite HO.
Qed.

Lemma put1_runs : run put1 (fresh_engine [] at100) = (after_put1, Ret (Ok (mkOutcome 1 1 false))).
Proof.
  refine (with_result (run put1 (fresh_engine [] at100)) _ _). vm_compute. reflexivity.
Qed.

Lemma demo_get : Get ($"k") (reopen after_put1 100) = (demo_end, Ret (Some ($"v1", 1))).
Proof.
  refine (with_result (Get ($"k") (reopen after_put1 100)) _ _). vm_compute. reflexivity.
Qed.

Lemma reopen_clock : e_clock (reopen after_put1 100) 0%nat = 100.
Proof. vm_compute. reflexivity. Qed.

Lemma demo_trace_runs : engine_run (fresh_engine [] at100) demo_trace demo_end.
Proof.
  eapply (engine_then _ (CWrite put1) _ after_put1); [by_decide| |].
  { eexists. split; [exact put1_runs|reflexivity]. }
  eapply (engine_then _ (CRestart at100 ($"p") None 100) _ (reopen after_put1 100)); [cbn; by_decide| |].
  { destruct reopen_opens as (f' & HO). exists f'. split; [exact HO|reflexivity]. }
  eapply (engine_then _ (CGet ($"k")) _ demo_end); [exact I| |apply engine_done].
  eexists. split; [exact demo_get|]. rewrite reopen_clock. reflexivity.
Qed.

Lemma engine_refines_store_witness :
  (exists s', store_run (mkStore [] [] 0) demo_trace s' /\ simulates demo_end s') /\
  (forall c, allowed demo_end c -> exists ev e'', engine_step demo_end c ev e'').
Proof.
  refine (engine_refines_store (fresh_engine [] at100) (mkStore [] [] 0) demo_trace _ _ demo_trace_runs).
  split; [apply fresh_inv|by left].
Defined.

(** ** Consequences on the store alone *)

(** Nothing a committed write put on disk is lost: a run keeps the first [safe]
    writes, and [safe] only grows. *)
Theorem safe_writes_kept s tr s' :
  safe s <= len (disk s) -> store_run s tr s' ->
  safe s <= safe s' <= len (disk s') /\
  take (Z.to_nat (safe s)) (disk s') = take (Z.to_nat (safe s)) (disk s).
Proof.
  intros Hs Hrun. induction Hrun as [s|s ev s1 tr s2 Hst Hrun IH]; [done|].
  assert (H1 : safe s <= safe s1 <= len (disk s1) /\
               take (Z.to_nat (safe s)) (disk s1) = take (Z.to_nat (safe s)) (disk s)).
  { destruct Hst as [s k now|s m now r _|s m now _ _|s m now _ _|s m now e d _ _ Hd|s f l|s n Hn]; try done.
    - cbn. unfold log_of. rewrite len_app, take_app_le; [|unfold len in Hs; lia].
      change (len [_]) with 1. split; [lia|done].
    - cbn. destruct Hd as [->| ->]; [done|]. unfold log_of.
      rewrite len_app, take_app_le; [|unfold len in Hs; lia]. change (len [_]) with 1.
      split; [lia|done].
    - cbn. rewrite take_take. unfold len in *. rewrite length_take.
      split; [lia|]. f_equal. lia. }
  destruct H1 as [[Hle Hle1] Ht]. destruct (IH Hle1) as [[Hle2 Hle3] Ht2]. split; [lia|].
  rewrite <- Ht. replace (Z.to_nat (safe s)) with (Nat.min (Z.to_nat (safe s)) (Z.to_nat (safe s1))) by lia.
  rewrite <- !take_take, Ht2. done.
Qed.

(** ** Types of a reachable state *)

Lemma dedup_in_log e h a id out :
  engine_inv e h a -> e_dedup e !! id = Some out ->
  exists r, r ∈ h /\ IdempotencyKey r = id /\
    out = mkOutcome (CommitPosition r) (CommitPosition r) false.
Proof.
  intros Hinv Hd. destruct (ei_ids _ _ _ Hinv id out Hd) as (r & Hr & ->). exists r.
  unfold last_with_id in Hr. by apply last_Some_elem_of, list_elem_of_filter in Hr as (Hid & Hr).
Qed.

(** [r] is the record of the log [h] at position [pos], counted from 1. *)
Definition record_at (h : list WalRecord) (pos : Z) (r : WalRecord) : Prop :=
  1 <= pos <= len h /\ h !! Z.to_nat (pos - 1) = Some r /\ CommitPosition r = pos.

(** What the types of the engine's two tables mean over the log [h]. *)
Definition well_typed (e : Engine) (h : list WalRecord) : Prop :=
  log_inv (e_log e) h /\ len h < 2 ^ 62 /\
  (forall k ent, e_index e !! k = Some ent ->
     (exists r, record_at h (version ent) r /\ Kind r = KindPut /\ Key r = k /\
        Value r = value ent /\ expiry_of (ExpiresAtUnixNano r) = expiresAt ent) /\
     (forall t, expiresAt ent = Some t -> 0 < t < 2 ^ 63) /\
     len k + len (value ent) < 2 ^ 32) /\
  (forall id out, e_dedup e !! id = Some out ->
     (exists r, record_at h (o_CommitPosition out) r /\ IdempotencyKey r = id) /\
     o_Version out = o_CommitPosition out /\ o_Deduplicated out = false) /\
  (forall k1 k2 e1 e2, e_index e !! k1 = Some e1 -> e_index e !! k2 = Some e2 ->
     version e1 = version e2 -> k1 = k2).

(** C13: every state an engine reaches from an empty file, through any calls, failures
    and restarts, is well typed over the records [h] of its log (those the file
    and the write buffer hold the bytes of): the version of an index entry is the
    position of the put record of that key with the entry's value and expiry, a
    remembered outcome has the position of a record with that idempotency key,
    as its version too, and is not remembered as a repetition; positions fit
    uint64, an expiry is a positive int64, key and value fit a record, and two
    keys never share a version. *)
Theorem reachable_well_typed sys clock tr e :
  engine_run (fresh_engine sys clock) tr e -> exists h, well_typed e h.
Proof.
  intros Hrun.
  destruct (run_simulated (fresh_engine sys clock) (mkStore [] [] 0) tr e) as (s & _ & Hinv & _);
    [split; [apply fresh_inv|by left]|done|].
  pose proof (wi_hist _ _ (li_wal _ _ (ei_log _ _ _ Hinv))) as (Hnum & Hwf & _ & Hlen).
  exists (disk s). split_and!; [apply (ei_log _ _ _ Hinv)|done|..].
  - intros k ent Hk. destruct (index_in_log _ _ _ _ _ Hinv Hk) as (r & Hr & -> & <- & Hput & Hpos).
    split; [exists r; by split_and!|].
    apply list_elem_of_lookup_2 in Hr. rewrite Forall_forall in Hwf.
    destruct (Hwf r Hr) as (_ & _ & Hx & Hsize). cbn. split.
    + intros t. unfold expiry_of. destruct (0 <? _) eqn:Ex; [|done]. intros [= <-].
      bool_prop. unfold is_i64 in Hx. lia.
    + unfold payload_size in Hsize. pose proof (len_nonneg (IdempotencyKey r)). lia.
  - intros id out Hd. destruct (dedup_in_log _ _ _ _ _ Hinv Hd) as (r & Hr & Hid & ->).
    apply lookup_position in Hr as (Hr & Hpos); [|done]. split; [exists r; by split_and!|done].
  - intros k1 k2 e1 e2 H1 H2 Hv.
    destruct (index_in_log _ _ _ _ _ Hinv H1) as (r1 & Hr1 & -> & <- & _ & _).
    destruct (index_in_log _ _ _ _ _ Hinv H2) as (r2 & Hr2 & -> & <- & _ & _).
    cbn in Hv. rewrite Hv in Hr1. congruence.
Qed.

Lemma reachable_well_typed_witness : exists h, well_typed demo_end h.
Proof. exact (reachable_well_typed [] at100 demo_trace demo_end demo_trace_runs). Defined.
