(* ===== verification/Streaming.v ===== *)
(** * Consumer offsets (internal/streaming/offsets.go)

    The store of committed consumer-group offsets, over a log of its own, and the
    theorem that an acknowledged offset is never lost and never moves back. *)

From Stdlib Require Import ZArith Lia.
From S2P Require Import Prelude WalFormat Wal WalInvariant WalRecovery WalTheorems WalStore.

Record OffsetStore := mkOffsets {
  o_log : WAL;
  o_offsets : gmap bytes Z
}.

Definition set_olog (s : OffsetStore) (w : WAL) : OffsetStore := mkOffsets w (o_offsets s).

Inductive offset_error :=
| ErrOffsetRegression
| OffsetLog (e : append_error).

Definition encodeOffset (v : Z) : bytes := le_bytes 8 v.

(** [Uint64] indexes the eighth byte first, so a short slice panics. *)
Definition decodeOffset (b : bytes) : go Z :=
  if len b <? 8 then Panic ($"index out of range") else Ret (le_value (take 8 b)).

Definition replay : replayer (gmap bytes Z) := fun offsets rec =>
  v ← decodeOffset (Value rec);
  Ret (Ok (<[Key rec := v]> offsets)).

Definition Open (path : bytes) : GoM File (result open_error OffsetStore) :=
  r ← Wal.Open path (Some replay) ∅;
  match r with
  | Err e => mret (Err e)
  | Ok (log, offsets) => mret (Ok (mkOffsets log offsets))
  end.

(** [Commit]: the committed offset, next to the error if there is one. *)
Definition Commit (group : bytes) (offset : Z)
    : GoM OffsetStore (Z * option offset_error) :=
  s ← get_state;
  let regression :=
    match o_offsets s !! group with
    | Some current => if offset <? current then Some current else None
    | None => None
    end in
  match regression with
  | Some current => mret (current, Some ErrOffsetRegression)
  | None =>
    r ← zoom o_log set_olog (Append (mkRecord 0 KindPut group (encodeOffset offset) 0 []));
    match r with
    | Err e => mret (0, Some (OffsetLog e))
    | Ok _ =>
      _ ← modify (fun s => mkOffsets (o_log s) (<[group := offset]> (o_offsets s)));
      mret (offset, None)
    end
  end.

(** [Fetch]: the offset, and whether there is one (0 and false if not). *)
Definition Fetch (group : bytes) (s : OffsetStore) : Z * bool :=
  match o_offsets s !! group with Some o => (o, true) | None => (0, false) end.

Definition Close : GoM OffsetStore (option oserr) := zoom o_log set_olog Wal.Close.

(** ** Replay *)

Definition has_offset (r : WalRecord) : Prop := 8 <= len (Value r).

Definition offset_of (r : WalRecord) : Z := le_value (take 8 (Value r)).

Definition offsets_step (m : gmap bytes Z) (r : WalRecord) : gmap bytes Z :=
  <[Key r := offset_of r]> m.

#[export] Instance offsets_replays : Replays replay offsets_step has_offset.
Proof.
  intros m r Hr. unfold replay, decodeOffset, has_offset in *.
  by rewrite (proj2 (Z.ltb_ge _ _)) by done.
Qed.

Lemma offset_roundtrip o : is_u64 o -> decodeOffset (encodeOffset o) = Ret o.
Proof.
  intros Ho. unfold decodeOffset, encodeOffset, len.
  rewrite length_le_bytes. cbn [Z.ltb Z.of_nat Z.compare Pos.of_succ_nat Pos.succ Pos.compare Pos.compare_cont].
  rewrite take_ge by (rewrite length_le_bytes; lia). by rewrite le_value_u64.
Qed.

Definition offset_record (group : bytes) (offset : Z) : WalRecord :=
  mkRecord 0 KindPut group (encodeOffset offset) 0 [].

Lemma offset_of_record pos group o :
  is_u64 o -> offset_of (set_pos (offset_record group o) pos) = o.
Proof.
  intros Ho. unfold offset_of. cbn. rewrite take_ge by (unfold encodeOffset; by rewrite length_le_bytes).
  by apply le_value_u64.
Qed.

(** ** The invariant *)

Record offsets_inv (s : OffsetStore) (h : list WalRecord) : Prop := {
  oi_log : log_inv (o_log s) h;
  oi_vals : Forall has_offset h
}.

(** The group's offset is at least [o], in memory and in every state a crash can
    leave: a durable record of the group is followed by none below [o]. *)
Definition at_least (group : bytes) (o : Z) (s : OffsetStore) (h : list WalRecord) : Prop :=
  (exists o', o_offsets s !! group = Some o' /\ o <= o') /\
  exists p r, durable (o_log s) h p /\ h !! Z.to_nat (p - 1) = Some r /\ Key r = group /\
    Forall (fun r => Key r = group -> o <= offset_of r) (drop (Z.to_nat (p - 1)) h).

Lemma fold_offsets_lookup group o l m :
  Forall (fun r => Key r = group -> o <= offset_of r) l ->
  (exists r, r ∈ l /\ Key r = group) \/ (exists o', m !! group = Some o' /\ o <= o') ->
  exists o', fold_left offsets_step l m !! group = Some o' /\ o <= o'.
Proof.
  revert m. induction l as [|r l IH]; intros m Hall Hm; cbn.
  - destruct Hm as [(r & Hr & _)|Hm]; [by apply not_elem_of_nil in Hr|done].
  - apply Forall_cons in Hall as (Hr & Hall). apply IH; [done|].
    destruct (decide (Key r = group)) as [Hk|Hk].
    + right. exists (offset_of r). unfold offsets_step. rewrite Hk, lookup_insert_eq. auto.
    + destruct Hm as [(r' & Hr' & Hk')|(o' & Ho' & Hle)].
      * apply elem_of_cons in Hr' as [->|Hr']; [done|]. left. by exists r'.
      * right. exists o'. unfold offsets_step. by rewrite lookup_insert_ne.
Qed.

(** Appending a record of another group, or with an offset not below [o]. *)
Lemma at_least_grow group o s h s' h' rec :
  at_least group o s h -> keeps_durable (o_log s) (o_log s') h h' ->
  (h' = h \/ h' = log_of h rec) ->
  (Key rec = group -> o <= offset_of rec) ->
  (exists o', o_offsets s' !! group = Some o' /\ o <= o') ->
  at_least group o s' h'.
Proof.
  intros (_ & p & r & Hd & Hr & Hk & Hall) Hkeep Hh' Hrec Ho'. split; [done|].
  exists p, r. pose proof (lookup_lt_Some _ _ _ Hr) as Hlt.
  split; [by apply Hkeep|]. destruct Hh' as [->| ->]; [done|]. unfold log_of.
  rewrite lookup_app_l, drop_app_le by lia. split_and!; [done..|].
  apply Forall_app. split; [done|]. by constructor.
Qed.

Lemma Commit_spec group o s h :
  offsets_inv s h -> fits (o_log s) (offset_record group o) -> is_u64 o ->
  exists s' r h', Commit group o s = (s', Ret r) /\ offsets_inv s' h' /\
    keeps_durable (o_log s) (o_log s') h h' /\
    (h' = h \/ h' = log_of h (offset_record group o)) /\
    match r with
    | (c, None) => c = o /\ at_least group o s' h' /\
        o_offsets s' = <[group := o]> (o_offsets s) /\
        (forall o', o_offsets s !! group = Some o' -> o' <= o)
    | (c, Some ErrOffsetRegression) =>
        s' = s /\ h' = h /\ o_offsets s !! group = Some c /\ o < c
    | (c, Some (OffsetLog _)) => c = 0 /\ o_offsets s' = o_offsets s /\
        (forall o', o_offsets s !! group = Some o' -> o' <= o)
    end.
Proof.
  intros [Hlog Hvals] Hok Ho. unfold Commit. rewrite (bind_ret _ _ s s s) by done.
  set (reg := match o_offsets s !! group with Some _ => _ | None => _ end).
  destruct reg as [current|] eqn:Hreg; subst reg.
  { exists s, (current, Some ErrOffsetRegression), h.
    destruct (o_offsets s !! group) as [c|]; [|done].
    destruct (o <? c) eqn:Hlt; [|done]. injection Hreg as ->. bool_prop.
    by split_and!; try done; [intros p|left]. }
  assert (Hmono : forall o', o_offsets s !! group = Some o' -> o' <= o).
  { intros o' Ho'. rewrite Ho' in Hreg. destruct (o <? o') eqn:?; [done|]. by bool_prop. }
  destruct (log_append (offset_record group o) _ _ Hlog Hok)
    as (w' & r & h' & E & Hlog' & Hkeep & Hpost).
  rewrite (bind_ret _ _ s (set_olog s w') r)
    by (unfold offset_record in E; by erewrite zoom_ret by exact E).
  assert (Hvals' : forall h'', h'' = h \/ h'' = log_of h (offset_record group o) ->
            Forall has_offset h'').
  { intros h'' [->| ->]; [done|]. apply Forall_app. split; [done|]. by repeat constructor. }
  destruct r as [pos|er].
  - destruct Hpost as (-> & -> & Hd). do 3 eexists. split; [reflexivity|].
    split; [split; [done|by auto]|]. split; [done|]. split; [by right|].
    split_and!; try done. split; [exists o; cbn; by rewrite lookup_insert_eq|].
    exists (len h + 1), (committed h (offset_record group o)). split; [done|].
    unfold log_of, len. replace (Z.to_nat _) with (length h) by lia.
    rewrite list_lookup_middle, drop_app_length by done. split_and!; try done.
    constructor; [|done]. unfold committed. by rewrite offset_of_record.
  - do 3 eexists. split; [reflexivity|]. split; [split; [exact Hlog'|by auto]|]. done.
Qed.

Lemma offsets_restart path s h k :
  offsets_inv s h -> (f_synced (w_file (o_log s)) <= k)%nat ->
  exists m f' s', Open path (crash k (w_file (o_log s))) = (f', Ret (Ok s')) /\
    offsets_inv s' (take m h) /\
    (forall group o, at_least group o s h -> at_least group o s' (take m h)).
Proof.
  intros [Hlog Hvals] Hk.
  destruct (log_restart replay offsets_step has_offset _ (o_log s) h k path ∅ Hlog Hvals Hk)
    as (m & f' & HO & Hlog' & Hp).
  exists m, f', (mkOffsets (opened path f' (take m h)) (fold_left offsets_step (take m h) ∅)).
  unfold Open. rewrite (bind_ret _ _ _ _ _ HO). split; [done|].
  split; [split; [done|by apply Forall_take]|].
  intros group o (_ & p & r & Hd & Hr & Hkey & Hall).
  destruct (Hp p Hd) as (Hpm & Hd'). pose proof Hd as ((Hp1 & _) & _).
  assert (Hr' : take m h !! Z.to_nat (p - 1) = Some r) by (rewrite lookup_take_lt by lia; done).
  assert (Hall' : Forall (fun r => Key r = group -> o <= offset_of r)
                    (drop (Z.to_nat (p - 1)) (take m h))).
  { rewrite skipn_firstn_comm. by apply Forall_take. }
  split; [|by exists p, r].
  cbn. rewrite <- (take_drop (Z.to_nat (p - 1)) (take m h)), fold_left_app.
  apply fold_offsets_lookup; [done|]. left. exists r. split; [|done].
  rewrite (drop_S _ _ _ Hr'). apply list_elem_of_here.
Qed.

(** ** The life of a store *)

Inductive offsets_life (s : OffsetStore) : OffsetStore -> Prop :=
| ol_refl : offsets_life s s
| ol_commit s1 group o s2 r :
    offsets_life s s1 -> fits (o_log s1) (offset_record group o) -> is_u64 o ->
    Commit group o s1 = (s2, Ret r) -> offsets_life s s2
| ol_restart s1 k path f' s2 :
    offsets_life s s1 -> (f_synced (w_file (o_log s1)) <= k)%nat ->
    Open path (crash k (w_file (o_log s1))) = (f', Ret (Ok s2)) -> offsets_life s s2.

Lemma life_at_least group o s s' :
  offsets_life s s' -> (exists h, offsets_inv s h /\ at_least group o s h) ->
  exists h, offsets_inv s' h /\ at_least group o s' h.
Proof.
  intros Hlife Hs.
  induction Hlife as [|s1 g o1 s2 r _ IH Hok Ho Hrun|s1 k path f' s2 _ IH Hk HO]; [done| |].
  - destruct IH as (h & Hinv & Hal).
    destruct (Commit_spec g o1 s1 h Hinv Hok Ho) as (s' & r' & h' & E & Hinv' & Hkeep & Hh' & Hr).
    rewrite Hrun in E. injection E as <- <-. exists h'. split; [done|].
    pose proof Hal as ((o' & Ho' & Hle) & _).
    assert (Hrec : (forall o', o_offsets s1 !! g = Some o' -> o' <= o1) ->
                   Key (offset_record g o1) = group -> o <= offset_of (offset_record g o1)).
    { intros Hmono Hg. cbn in Hg. subst g.
      change (offset_record group o1) with (set_pos (offset_record group o1) 0).
      rewrite offset_of_record by done. specialize (Hmono _ Ho'). lia. }
    destruct r as [c [[|er]|]].
    + destruct Hr as (-> & -> & _). done.
    + destruct Hr as (_ & Hsame & Hmono). eapply at_least_grow; eauto. rewrite Hsame. eauto.
    + destruct Hr as (-> & _ & Hnew & Hmono). eapply at_least_grow; eauto.
      rewrite Hnew. destruct (decide (g = group)) as [->|].
      * rewrite lookup_insert_eq. exists o1. split; [done|]. specialize (Hmono _ Ho'). lia.
      * rewrite lookup_insert_ne by done. eauto.
  - destruct IH as (h & Hinv & Hal).
    destruct (offsets_restart path s1 h k Hinv Hk) as (m & f1 & s' & E & Hinv' & Hall).
    rewrite HO in E. injection E as <- <-. eauto.
Qed.

(** C19: an acknowledged consumer offset is never lost and never moves back: after
    a successful [Commit], whatever commits (successful, refused or failed) and
    crashes with restarts follow, [Fetch] finds an offset for the group that is
    at least the acknowledged one. *)
Theorem offset_never_regresses group o s h s1 c s2 :
  offsets_inv s h -> fits (o_log s) (offset_record group o) -> is_u64 o ->
  Commit group o s = (s1, Ret (c, None)) -> offsets_life s1 s2 ->
  exists o', Fetch group s2 = (o', true) /\ o <= o'.
Proof.
  intros Hinv Hok Ho Hrun Hlife.
  destruct (Commit_spec group o s h Hinv Hok Ho) as (s' & r & h' & E & Hinv' & _ & _ & Hr).
  rewrite Hrun in E. injection E as <- <-. destruct Hr as (_ & Hal & _).
  destruct (life_at_least group o s1 s2 Hlife) as (h2 & _ & (o' & Ho' & Hle) & _); [eauto|].
  exists o'. unfold Fetch. by rewrite Ho'.
Qed.

Definition fresh_offsets : OffsetStore := mkOffsets (opened ($"p") (fresh_file []) []) ∅.
Definition after_commit (o : Z) (s : OffsetStore) : OffsetStore := (Commit ($"g") o s).1.

Lemma offset_never_regresses_witness :
  exists o', Fetch ($"g") (after_commit 3 (after_commit 5 fresh_offsets)) = (o', true) /\ 5 <= o'.
Proof.
  refine (offset_never_regresses ($"g") 5 fresh_offsets [] (after_commit 5 fresh_offsets) 5
            (after_commit 3 (after_commit 5 fresh_offsets)) _ _ _ _ _).
  - split; [apply fresh_log_inv|done].
  - by_decide.
  - by_decide.
  - vm_compute. reflexivity.
  - refine (ol_commit _ _ ($"g") 3 _ (5, Some ErrOffsetRegression) (ol_refl _) _ _ _).
    + by_decide.
    + by_decide.
    + vm_compute. reflexivity.
Defined.

(** [Commit] on every branch.  An offset behind the committed one is refused
    with the committed one and changes nothing; a failed append reports the
    log's error and leaves the offsets as they were; a success stores the
    offset. *)
Theorem commit_branches group o s h :
  offsets_inv s h -> fits (o_log s) (offset_record group o) -> is_u64 o ->
  exists s' r, Commit group o s = (s', Ret r) /\
    match r with
    | (c, Some ErrOffsetRegression) => s' = s /\ o_offsets s !! group = Some c /\ o < c
    | (c, Some (OffsetLog _)) => c = 0 /\ o_offsets s' = o_offsets s
    | (c, None) => c = o /\ o_offsets s' = <[group := o]> (o_offsets s)
    end.
Proof.
  intros Hinv Hok Ho. destruct (Commit_spec group o s h Hinv Hok Ho) as (s' & r & h' & E & H).
  exists s', r. split; [done|].
  destruct r as [c [[|er]|]]; destruct_and?; eauto.
Qed.

Lemma commit_branches_witness :
  exists s' r, Commit ($"g") 5 fresh_offsets = (s', Ret r) /\
    match r with
    | (c, Some ErrOffsetRegression) =>
        s' = fresh_offsets /\ o_offsets fresh_offsets !! $"g" = Some c /\ 5 < c
    | (c, Some (OffsetLog _)) => c = 0 /\ o_offsets s' = o_offsets fresh_offsets
    | (c, None) => c = 5 /\ o_offsets s' = <[$"g" := 5]> (o_offsets fresh_offsets)
    end.
Proof.
  refine (commit_branches ($"g") 5 fresh_offsets [] _ _ _).
  - split; [apply fresh_log_inv|done].
  - by_decide.
  - by_decide.
Defined.
