(* ===== verification/Replication.v ===== *)
(** * The replicated state machine (internal/replication: command.go, fsm.go)

    Commands, [FSM.Apply], snapshots and their restoration.  encoding/gob is an
    interface ([Codec] with its law [CodecLaws]); what it must give is that a
    value it encoded decodes to itself. *)

From Stdlib Require Import ZArith Lia.
From S2P Require Import Prelude WalFormat Wal WalInvariant WalRecovery WalTheorems WalStore.
From S2P Require Import Engine EngineInvariant EngineTheorems.

(** ** The codec *)

Class Codec (A : Type) := {
  gob_encode : A -> result oserr bytes;
  gob_decode : bytes -> result oserr A
}.

Class CodecLaws (A : Type) `{Codec A} : Prop :=
  gob_roundtrip : forall (x : A) b, gob_encode x = Ok b -> gob_decode b = Ok x.

(** ** Commands *)

Definition Op := Z.
Definition OpPut : Op := 1.
Definition OpDelete : Op := 2.
Definition OpCompareAndSet : Op := 3.
Definition OpWipeAll : Op := 4.
Definition OpLoadSnapshot : Op := 5.

Record Command := mkCommand {
  c_Op : Op;
  c_Key : bytes;
  c_Value : bytes;
  c_ExpiresAtUnixNano : Z;
  c_ExpectedVersion : Z;
  c_IdempotencyKey : bytes;
  c_Entries : list SnapshotEntry
}.

Definition encodeCommand `{Codec Command} (cmd : Command) : result oserr bytes :=
  match gob_encode cmd with
  | Err e => Err ($"replication: encode command: " ++ e)
  | Ok b => Ok b
  end.

Definition decodeCommand `{Codec Command} (b : bytes) : result oserr Command :=
  match gob_decode b with
  | Err e => Err ($"replication: decode command: " ++ e)
  | Ok cmd => Ok cmd
  end.

(** ** The state machine *)

Inductive fsm_error :=
| BadCommand (e : oserr)
| EngineErr (e : engine_error)
| ResetErr (e : reset_error)
| LoadReset (e : reset_error)                    (* reset before a load or restore *)
| LoadKey (key : bytes) (e : engine_error)       (* a key of the snapshot failed *)
| UnknownOp (op : Op)
| DecodeSnapshot (e : oserr).

Record ApplyResult := mkApplyResult {
  r_Outcome : Outcome;
  r_Err : option fsm_error;
  r_Term : Z
}.

Definition noOutcome : Outcome := mkOutcome 0 0 false.

(** The loop that applies a snapshot's entries. *)
Fixpoint load_entries (entries : list SnapshotEntry) : GoM Engine (option fsm_error) :=
  match entries with
  | [] => mret None
  | s :: entries =>
    r ← ApplyPut (s_Key s) (s_Value s) (s_ExpiresAtUnixNano s) [];
    match r with
    | Err e => mret (Some (LoadKey (s_Key s) e))
    | Ok _ => load_entries entries
    end
  end.

Definition loadSnapshot (entries : list SnapshotEntry) : GoM Engine (option fsm_error) :=
  err ← Reset;
  match err with
  | Some e => mret (Some (LoadReset e))
  | None => load_entries entries
  end.

(** The [(Outcome, error)] pair an engine call returns. *)
Definition outcome_pair (r : result engine_error Outcome) : Outcome * option fsm_error :=
  match r with Ok out => (out, None) | Err e => (noOutcome, Some (EngineErr e)) end.

(** [Apply] behind the decoding of the command. *)
Definition apply_command (cmd : Command) : GoM Engine (Outcome * option fsm_error) :=
  if c_Op cmd =? OpPut then
    r ← ApplyPut (c_Key cmd) (c_Value cmd) (c_ExpiresAtUnixNano cmd) (c_IdempotencyKey cmd);
    mret (outcome_pair r)
  else if c_Op cmd =? OpDelete then
    r ← Delete (c_Key cmd) (c_IdempotencyKey cmd);
    mret (outcome_pair r)
  else if c_Op cmd =? OpCompareAndSet then
    r ← ApplyCompareAndSet (c_Key cmd) (c_Value cmd) (c_ExpectedVersion cmd)
          (c_ExpiresAtUnixNano cmd) (c_IdempotencyKey cmd);
    mret (outcome_pair r)
  else if c_Op cmd =? OpWipeAll then
    err ← Reset;
    mret (noOutcome, ResetErr <$> err)
  else if c_Op cmd =? OpLoadSnapshot then
    err ← loadSnapshot (c_Entries cmd);
    mret (noOutcome, err)
  else mret (noOutcome, Some (UnknownOp (c_Op cmd))).

(** A raft log entry. *)
Record Log := mkLog { l_Data : bytes; l_Term : Z }.

Definition Apply `{Codec Command} (log : Log) : GoM Engine ApplyResult :=
  match decodeCommand (l_Data log) with
  | Err e => mret (mkApplyResult noOutcome (Some (BadCommand e)) (l_Term log))
  | Ok cmd =>
    '(out, err) ← apply_command cmd;
    mret (mkApplyResult out err (l_Term log))
  end.

(** [FSM.Snapshot], in the iteration order [order] of the index. *)
Definition FSM_Snapshot (order : list (bytes * entry)) : GoM Engine (list SnapshotEntry) :=
  Snapshot order.

(** [Persist]: the calls on the sink and the error returned.  The sink's own
    results are arguments. *)
Inductive sink_call := SinkWrite (b : bytes) | SinkCancel | SinkClose.

Definition Persist `{Codec (list SnapshotEntry)} (entries : list SnapshotEntry)
    (writeErr closeErr : option oserr) : list sink_call * option oserr :=
  match gob_encode entries with
  | Err e => ([SinkCancel], Some ($"replication: encode snapshot: " ++ e))
  | Ok b =>
    match writeErr with
    | Some e => ([SinkWrite b; SinkCancel], Some ($"replication: write snapshot: " ++ e))
    | None => ([SinkWrite b; SinkClose], closeErr)
    end
  end.

Definition Restore `{Codec (list SnapshotEntry)} (b : bytes) : GoM Engine (option fsm_error) :=
  match gob_decode b with
  | Err e => mret (Some (DecodeSnapshot e))
  | Ok entries =>
    err ← Reset;
    match err with
    | Some e => mret (Some (LoadReset e))
    | None => load_entries entries
    end
  end.

(** [AsApplyResult]: the future's error, or its response; a response of another
    type than [ApplyResult] is [None]. *)
Definition AsApplyResult (future : result oserr (option ApplyResult)) : result oserr ApplyResult :=
  match future with
  | Err e => Err e
  | Ok None => Err ($"replication: unexpected apply response type")
  | Ok (Some result) => Ok result
  end.

(** ** Mutations on replicas whose disks do not fail *)

Definition calm_engine (e : Engine) : Prop := calm (io_of (e_log e)).

Lemma commit_calm m e h a :
  engine_inv e h a -> calm_engine e -> fits (e_log e) (mutation_record m) ->
  exists e', commit m e = (e', Ret (Ok (mkOutcome (len h + 1) (len h + 1) false))) /\
    engine_inv e' (log_of h (mutation_record m)) (a ++ [committed h (mutation_record m)]) /\
    calm_engine e' /\ e_clock e' = e_clock e /\
    e_tables e' = replay_step (e_tables e) (committed h (mutation_record m)).
Proof.
  intros Hinv Hc Hok.
  destruct (log_append_calm _ _ _ (ei_log _ _ _ Hinv) Hok Hc) as (w' & E & Hl & Hc').
  destruct (commit_ok m e w' h) as (e' & Ec & <- & Hclk & Ht).
  { unfold append. by erewrite zoom_ret by exact E. }
  exists e'. split_and!; try done. by eapply append_applied.
Qed.

(** Two replicas in the same state: the same maps and the same next position. *)
Definition agree (e1 e2 : Engine) : Prop :=
  exists h1 a1 h2 a2, engine_inv e1 h1 a1 /\ engine_inv e2 h2 a2 /\
    e_tables e1 = e_tables e2 /\ len h1 = len h2 /\ calm_engine e1 /\ calm_engine e2.

(** A conditional write sees the same version on both. *)
Definition same_view (m : mutation) (e1 e2 : Engine) : Prop :=
  match m with
  | MCas k _ _ _ _ => seen_version k e1 = seen_version k e2
  | _ => True
  end.

Lemma same_but_clock_calm e e' : same_but_clock e e' -> calm_engine e -> calm_engine e'.
Proof. unfold calm_engine. by intros (-> & _). Qed.

Lemma agree_clock e1 e2 e1' e2' :
  same_but_clock e1 e1' -> same_but_clock e2 e2' -> agree e1 e2 -> agree e1' e2'.
Proof.
  intros H1 H2 (h1 & a1 & h2 & a2 & Hi1 & Hi2 & Ht & Hl & Hc1 & Hc2).
  exists h1, a1, h2, a2.
  split_and!; [by eapply engine_inv_clock|by eapply engine_inv_clock| |done|
               by eapply same_but_clock_calm|by eapply same_but_clock_calm].
  unfold e_tables in *. destruct H1 as (_ & -> & ->), H2 as (_ & -> & ->). done.
Qed.

Lemma commit_agree m e1 e2 :
  agree e1 e2 -> fits (e_log e1) (mutation_record m) -> fits (e_log e2) (mutation_record m) ->
  exists r e1' e2', commit m e1 = (e1', Ret r) /\ commit m e2 = (e2', Ret r) /\ agree e1' e2'.
Proof.
  intros (h1 & a1 & h2 & a2 & Hi1 & Hi2 & Ht & Hl & Hc1 & Hc2) Hf1 Hf2.
  destruct (commit_calm m e1 h1 a1 Hi1 Hc1 Hf1) as (e1' & E1 & Hi1' & Hc1' & _ & Ht1).
  destruct (commit_calm m e2 h2 a2 Hi2 Hc2 Hf2) as (e2' & E2 & Hi2' & Hc2' & _ & Ht2).
  rewrite <- Hl in E2. do 3 eexists. split; [exact E1|]. split; [exact E2|].
  do 4 eexists. split; [exact Hi1'|]. split; [exact Hi2'|]. split_and!; try done.
  - rewrite Ht1, Ht2, Ht. unfold committed. by rewrite Hl.
  - unfold log_of. rewrite !len_app, Hl. done.
Qed.

Lemma dedup_hit_agree id e1 e2 : e_tables e1 = e_tables e2 -> dedup_hit id e1 = dedup_hit id e2.
Proof. intros [= _ Hd]. unfold dedup_hit. by rewrite Hd. Qed.

(** A mutation behind a missed idempotency key. *)
Lemma run_new m e :
  dedup_hit (mutation_id m) e = None ->
  exists e', same_but_clock e e' /\
    run m e = match m with
              | MCas k _ n _ _ => if seen_version k e =? n then commit m e'
                                  else (e', Ret (Err ErrVersionMismatch))
              | _ => commit m e'
              end.
Proof.
  destruct m as [k v x id|k id|k v n x id]; cbn [run mutation_id mutation_record IdempotencyKey];
    intros Hhit.
  - exists e. split; [done|]. unfold ApplyPut. by rewrite (bind_ret _ _ e e e), Hhit by done.
  - exists e. split; [done|]. unfold Delete. by rewrite (bind_ret _ _ e e e), Hhit by done.
  - by apply cas_unfold.
Qed.

Lemma run_agree m e1 e2 :
  agree e1 e2 -> fits (e_log e1) (mutation_record m) -> fits (e_log e2) (mutation_record m) ->
  same_view m e1 e2 ->
  exists r e1' e2', run m e1 = (e1', Ret r) /\ run m e2 = (e2', Ret r) /\ agree e1' e2'.
Proof.
  intros Hag Hf1 Hf2 Hview.
  assert (Ht : e_tables e1 = e_tables e2) by (by destruct Hag as (? & ? & ? & ? & ? & ? & ? & _)).
  pose proof (dedup_hit_agree (mutation_id m) _ _ Ht) as Hd.
  destruct (dedup_hit (mutation_id m) e1) as [out|] eqn:Hh1.
  - pose proof (run_unfold m e1) as Hu1. pose proof (run_unfold m e2) as Hu2.
    rewrite Hh1 in Hu1. rewrite <- Hd in Hu2. by exists (Ok out), e1, e2.
  - destruct (run_new m e1 Hh1) as (e1' & Hs1 & ->).
    destruct (run_new m e2 (eq_sym Hd)) as (e2' & Hs2 & ->).
    pose proof (agree_clock _ _ _ _ Hs1 Hs2 Hag) as Hag'.
    pose proof (fits_clock _ _ _ Hs1 Hf1) as Hf1'. pose proof (fits_clock _ _ _ Hs2 Hf2) as Hf2'.
    pose proof (commit_agree m e1' e2' Hag' Hf1' Hf2') as Hc.
    destruct m as [| |k v n x id]; [done..|]. cbn in Hview. rewrite <- Hview.
    destruct (seen_version k e1 =? n); [done|]. by do 3 eexists.
Qed.
