(* ===== verification/ReplicationTheorems.v ===== *)
(** * Theorems about the replicated state machine

    Replicas that apply the same commands stay in the same state, a snapshot
    restores what readers see, and the ways in which the replicas can part. *)

From Stdlib Require Import ZArith Lia.
From stdpp Require Import countable.
From S2P Require Import Prelude WalFormat Wal WalInvariant WalRecovery WalTheorems WalStore.
From S2P Require Import Engine EngineInvariant EngineTheorems Replication.

(** ** Loading a snapshot *)

Definition entry_put (s : SnapshotEntry) : mutation :=
  MPut (s_Key s) (s_Value s) (s_ExpiresAtUnixNano s) [].

Definition entry_size (s : SnapshotEntry) : Z := payload_size (mutation_record (entry_put s)) + 8.

Fixpoint total_size (l : list SnapshotEntry) : Z :=
  match l with [] => 0 | s :: l => entry_size s + total_size l end.

(** The entries fit behind the history [h]. *)
Definition room (h : list WalRecord) (l : list SnapshotEntry) : Prop :=
  Forall (fun s => is_i64 (s_ExpiresAtUnixNano s) /\ entry_size s < 2 ^ 32) l /\
  len (stream h) + total_size l < 2 ^ 62 /\ len h + len l < 2 ^ 62.
#[export] Instance room_dec h l : Decision (room h l).
Proof. unfold room. apply _. Defined.

(** The index the entries leave, the first one committed behind position [n]. *)
Fixpoint load_index (n : Z) (l : list SnapshotEntry) (m : gmap bytes entry) : gmap bytes entry :=
  match l with
  | [] => m
  | s :: l => load_index (n + 1) l
      (<[s_Key s := mkEntry (s_Value s) (n + 1) (expiry_of (s_ExpiresAtUnixNano s))]> m)
  end.

Lemma entry_size_pos s : 0 < entry_size s.
Proof. unfold entry_size. pose proof (payload_size_pos (mutation_record (entry_put s))). lia. Qed.

Lemma total_size_nonneg l : 0 <= total_size l.
Proof. induction l as [|s l IH]; cbn; [done|]. pose proof (entry_size_pos s). lia. Qed.

Lemma room_fits h s l w :
  room h (s :: l) -> log_inv w h -> b_err (w_w w) = None ->
  fits w (mutation_record (entry_put s)).
Proof.
  intros (Hall & Hsz & Hlen) Hl Hb. apply Forall_cons in Hall as ((Hx & Hs) & _).
  pose proof (wi_ok _ _ (li_wal _ _ Hl) Hb) as (_ & _ & Hnext & Hoff & _).
  cbn in Hsz. rewrite len_cons in Hlen. pose proof (total_size_nonneg l). pose proof (len_nonneg l).
  unfold fits. rewrite Hnext, Hoff. unfold entry_size in *. split_and!; try done; lia.
Qed.

Lemma room_tail h s l :
  room h (s :: l) -> room (log_of h (mutation_record (entry_put s))) l.
Proof.
  intros (Hall & Hsz & Hlen). apply Forall_cons in Hall as (_ & Hall). cbn in Hsz.
  unfold log_of. split; [done|]. rewrite len_stream_snoc, len_frame, len_app, !len_cons, len_nil in *.
  change (payload_size (committed h (mutation_record (entry_put s))))
    with (payload_size (mutation_record (entry_put s))). unfold entry_size in Hsz. lia.
Qed.

Lemma dedup_hit_nil e : dedup_hit [] e = None.
Proof. done. Qed.

(** Without an idempotency key nothing is looked up. *)
Lemma load_put s e :
  ApplyPut (s_Key s) (s_Value s) (s_ExpiresAtUnixNano s) [] e = commit (entry_put s) e.
Proof. unfold ApplyPut. by rewrite (bind_ret _ _ e e e), dedup_hit_nil by done. Qed.

Lemma load_entries_calm l e h a :
  engine_inv e h a -> calm_engine e -> room h l ->
  exists e' h' a', load_entries l e = (e', Ret None) /\ engine_inv e' h' a' /\
    calm_engine e' /\ len h' = len h + len l /\
    e_index e' = load_index (len h) l (e_index e) /\ e_dedup e' = e_dedup e.
Proof.
  revert e h a. induction l as [|s l IH]; intros e h a Hinv Hc Hroom.
  - exists e, h, a. rewrite len_nil, Z.add_0_r. by split_and!.
  - pose proof (room_fits _ _ _ _ Hroom (ei_log _ _ _ Hinv) (proj2 Hc)) as Hfit.
    destruct (commit_calm (entry_put s) e h a Hinv Hc Hfit) as (e1 & E1 & Hinv1 & Hc1 & _ & Ht1).
    destruct (IH e1 _ _ Hinv1 Hc1 (room_tail _ _ _ Hroom))
      as (e' & h' & a' & E & Hinv' & Hc' & Hlen & Hidx & Hded).
    exists e', h', a'. cbn [load_entries].
    rewrite <- load_put in E1. rewrite (bind_ret _ _ _ _ _ E1). injection Ht1 as Hi1 Hd1.
    unfold log_of in *. rewrite len_app, !len_cons, len_nil in *.
    split_and!; try done; [lia| |by rewrite Hded, Hd1].
    rewrite Hidx, Hi1. cbn [load_index]. done.
Qed.

Lemma load_index_other n l m k :
  k ∉ s_Key <$> l -> load_index n l m !! k = m !! k.
Proof.
  revert n m. induction l as [|s l IH]; intros n m Hk; cbn; [done|].
  rewrite fmap_cons, not_elem_of_cons in Hk. destruct Hk as (Hne & Hk).
  rewrite IH by done. by rewrite lookup_insert_ne.
Qed.

Lemma load_index_in n l m s :
  NoDup (s_Key <$> l) -> s ∈ l ->
  exists ver, load_index n l m !! s_Key s
              = Some (mkEntry (s_Value s) ver (expiry_of (s_ExpiresAtUnixNano s))).
Proof.
  revert n m. induction l as [|s' l IH]; intros n m Hnd Hin; [by apply not_elem_of_nil in Hin|].
  rewrite fmap_cons, NoDup_cons in Hnd. destruct Hnd as (Hnew & Hnd).
  apply elem_of_cons in Hin as [->|Hin]; cbn; [|by apply IH].
  rewrite load_index_other by done. rewrite lookup_insert_eq. eauto.
Qed.

(** ** Taking a snapshot *)

(** The loop keeps the entries it finds alive; what it drops is expired at every
    later time. *)
Lemma snapshot_loop_spec t order out e :
  (forall n, e_clock e n <= t) ->
  exists e' kept, snapshot_loop order out e = (e', Ret (out ++ (uncurry snapshot_entry <$> kept))) /\
    same_but_clock e e' /\ kept `sublist_of` order /\
    forall k ent, (k, ent) ∈ order -> (k, ent) ∈ kept \/ live t ent = false.
Proof.
  revert out e. induction order as [|[k ent] order IH]; intros out e Ht.
  - exists e, []. cbn. rewrite app_nil_r. split_and!; try done. by intros k ent []%not_elem_of_nil.
  - cbn [snapshot_loop].
    assert (He : exists e1, same_but_clock e e1 /\ (forall n, e_clock e1 n <= t) /\
                   expired ent e = (e1, Ret (negb (live (e_clock e 0%nat) ent)))).
    { unfold expired, live. destruct (expiresAt ent).
      - eexists. split; [|split; [|unfold mbind, GoM_bind, Now; cbn; by rewrite negb_involutive]];
          [done|]. intros n. apply Ht.
      - by exists e. }
    destruct He as (e1 & Hs1 & Ht1 & He). rewrite (bind_ret _ _ _ _ _ He).
    destruct (live (e_clock e 0%nat) ent) eqn:Hlive; cbn [negb].
    + destruct (IH (out ++ [snapshot_entry k ent]) e1 Ht1) as (e' & kept & -> & Hs & Hsub & Hall).
      exists e', ((k, ent) :: kept). rewrite fmap_cons, <- app_assoc. split; [done|].
      split; [by etrans|]. split; [by apply sublist_skip|].
      intros k' ent' [[= -> ->]|Hin]%elem_of_cons; [left; by apply list_elem_of_here|].
      destruct (Hall k' ent' Hin); [left; by apply list_elem_of_further|by right].
    + destruct (IH out e1 Ht1) as (e' & kept & -> & Hs & Hsub & Hall).
      exists e', kept. split; [done|]. split; [by etrans|]. split; [by apply sublist_cons|].
      intros k' ent' [[= -> ->]|Hin]%elem_of_cons; [right|by apply Hall].
      unfold live in *. destruct (expiresAt ent) as [x|]; [|done]. bool_prop.
      specialize (Ht 0%nat). apply negb_false_iff, Z.ltb_lt. lia.
Qed.

(** Every binding's expiry is positive, so a snapshot keeps it. *)
Lemma index_expiry e h a k ent :
  engine_inv e h a -> e_index e !! k = Some ent ->
  expiry_of (default 0 (expiresAt ent)) = expiresAt ent.
Proof.
  intros Hinv Hk. destruct (index_in_log _ _ _ _ _ Hinv Hk) as (r & _ & -> & _).
  cbn. unfold expiry_of. destruct (0 <? ExpiresAtUnixNano r) eqn:E; cbn; by rewrite ?E.
Qed.

(** The keys of the entries kept are bindings of the index, without repetition. *)
Lemma snapshot_keys (m : gmap bytes entry) order kept :
  order ≡ₚ map_to_list m -> kept `sublist_of` order ->
  NoDup (s_Key <$> (uncurry snapshot_entry <$> kept)) /\
  forall k, k ∈ s_Key <$> (uncurry snapshot_entry <$> kept) ->
    exists ent, m !! k = Some ent /\ (k, ent) ∈ kept.
Proof.
  intros Hord Hsub. rewrite <- list_fmap_compose.
  replace ((s_Key ∘ uncurry snapshot_entry) <$> kept) with (kept.*1)
    by (apply list_fmap_ext; by intros ? [] ?).
  split.
  - eapply sublist_NoDup; [|by apply fmap_sublist]. rewrite Hord. apply NoDup_fst_map_to_list.
  - intros k ([k' ent] & -> & Hin)%list_elem_of_fmap. exists ent. split; [|done].
    apply elem_of_map_to_list. rewrite <- Hord. by eapply elem_of_sublist.
Qed.

(** Loading a snapshot into an empty index gives every key the value a reader of
    the snapshotted engine sees, from the time of the snapshot on. *)
Lemma snapshot_load_reads e h a order t e1 entries k :
  engine_inv e h a -> order ≡ₚ map_to_list (e_index e) -> (forall n, e_clock e n <= t) ->
  Snapshot order e = (e1, Ret entries) ->
  fst <$> visible t (load_index 0 entries ∅ !! k) = fst <$> visible t (e_index e !! k).
Proof.
  intros Hinv Hord Ht Hsnap.
  destruct (snapshot_loop_spec t order [] e Ht) as (e' & kept & E & _ & Hsub & Hall).
  unfold Snapshot in Hsnap. rewrite Hsnap in E. injection E as <- ->. cbn [app].
  destruct (snapshot_keys _ _ _ Hord Hsub) as (Hnd & Hkeys).
  destruct (decide (k ∈ s_Key <$> (uncurry snapshot_entry <$> kept))) as [Hin|Hout].
  - destruct (Hkeys k Hin) as (ent & Hk & Hkept).
    destruct (load_index_in 0 _ ∅ (snapshot_entry k ent) Hnd) as (ver & Hl).
    { by apply (list_elem_of_fmap_2 (uncurry snapshot_entry) _ (k, ent)). }
    cbn in Hl. rewrite Hl, Hk, (index_expiry _ _ _ _ _ Hinv Hk). unfold visible, live. cbn.
    by destruct (expiresAt ent) as [x|]; [destruct (x <? t)|].
  - rewrite load_index_other by done. destruct (e_index e !! k) as [ent|] eqn:Hk; [|done].
    destruct (Hall k ent) as [Hkept|Hdead].
    + rewrite Hord. by apply elem_of_map_to_list.
    + destruct Hout. apply list_elem_of_fmap. exists (snapshot_entry k ent). split; [done|].
      by apply (list_elem_of_fmap_2 (uncurry snapshot_entry) _ (k, ent)).
    + cbn. by rewrite Hdead.
Qed.

(** The reset and the load of a restore, on an engine whose disk does not fail. *)
Lemma reset_load_calm l e h a :
  engine_inv e h a -> calm_engine e -> room [] l ->
  exists e0 e' h' a', Reset e = (e0, Ret None) /\ load_entries l e0 = (e', Ret None) /\
    engine_inv e' h' a' /\ calm_engine e' /\ e_index e' = load_index 0 l ∅.
Proof.
  intros Hinv Hc Hroom.
  destruct (Reset_spec e h a Hinv Hc) as (e0 & HR & Hinv0 & Ht0 & _ & _ & Hc0 & _).
  destruct (load_entries_calm l e0 [] [] Hinv0 Hc0 Hroom)
    as (e' & h' & a' & HL & Hinv' & Hc' & _ & Hidx & _).
  exists e0, e', h', a'. injection Ht0 as Hi0 _. split_and!; try done. by rewrite Hidx, Hi0.
Qed.

Section codec.
Context `{Codec (list SnapshotEntry), !CodecLaws (list SnapshotEntry)}.
Context `{HC : Codec Command, !CodecLaws Command}.

(** C9: a snapshot restores what readers see.  Restoring an encoded snapshot of
    one engine on any other replica succeeds there, and from the time of the
    snapshot on every key reads the same value on both (or is absent or expired
    on both), whatever order the index is iterated in. *)
Theorem snapshot_restores_reads e h a order t e1 entries b e2 h2 a2 :
  engine_inv e h a -> order ≡ₚ map_to_list (e_index e) -> (forall n, e_clock e n <= t) ->
  FSM_Snapshot order e = (e1, Ret entries) -> gob_encode entries = Ok b ->
  engine_inv e2 h2 a2 -> calm_engine e2 -> room [] entries ->
  exists e2' h' a', Restore b e2 = (e2', Ret None) /\ engine_inv e2' h' a' /\
    calm_engine e2' /\
    forall k, fst <$> visible t (e_index e2' !! k) = fst <$> visible t (e_index e !! k).
Proof.
  intros Hinv Hord Ht Hsnap Henc Hinv2 Hc2 Hroom.
  destruct (reset_load_calm entries e2 h2 a2 Hinv2 Hc2 Hroom)
    as (e0 & e2' & h' & a' & HR & HL & Hinv' & Hc' & Hidx).
  exists e2', h', a'. unfold Restore. rewrite (gob_roundtrip _ _ Henc), (bind_ret _ _ _ _ _ HR).
  split_and!; try done. intros k. rewrite Hidx. by eapply snapshot_load_reads.
Qed.

(** ** Agreement of the replicas *)

(** The mutation a data command stands for. *)
Definition command_mutation (cmd : Command) : option mutation :=
  if c_Op cmd =? OpPut then
    Some (MPut (c_Key cmd) (c_Value cmd) (c_ExpiresAtUnixNano cmd) (c_IdempotencyKey cmd))
  else if c_Op cmd =? OpDelete then Some (MDelete (c_Key cmd) (c_IdempotencyKey cmd))
  else if c_Op cmd =? OpCompareAndSet then
    Some (MCas (c_Key cmd) (c_Value cmd) (c_ExpectedVersion cmd) (c_ExpiresAtUnixNano cmd)
            (c_IdempotencyKey cmd))
  else None.

(** Both replicas have room for what the command writes, and a conditional write
    finds the same version on both. *)
Definition applicable (cmd : Command) (e1 e2 : Engine) : Prop :=
  match command_mutation cmd with
  | Some m => fits (e_log e1) (mutation_record m) /\ fits (e_log e2) (mutation_record m) /\
              same_view m e1 e2
  | None => c_Op cmd = OpLoadSnapshot -> room [] (c_Entries cmd)
  end.

Lemma apply_mutation cmd m e :
  command_mutation cmd = Some m ->
  apply_command cmd e = (r ← run m; mret (outcome_pair r)) e.
Proof.
  unfold command_mutation, apply_command. intros Hm.
  destruct (c_Op cmd =? OpPut); [by injection Hm as <-|].
  destruct (c_Op cmd =? OpDelete); [by injection Hm as <-|].
  destruct (c_Op cmd =? OpCompareAndSet); [by injection Hm as <-|done].
Qed.

Lemma reset_agree e1 e2 :
  agree e1 e2 -> exists e1' e2', Reset e1 = (e1', Ret None) /\ Reset e2 = (e2', Ret None) /\
    engine_inv e1' [] [] /\ engine_inv e2' [] [] /\ calm_engine e1' /\ calm_engine e2' /\
    e_tables e1' = (∅, ∅) /\ e_tables e2' = (∅, ∅).
Proof.
  intros (h1 & a1 & h2 & a2 & Hi1 & Hi2 & _ & _ & Hc1 & Hc2).
  destruct (Reset_spec e1 h1 a1 Hi1 Hc1) as (e1' & R1 & Hi1' & Ht1 & _ & _ & Hc1' & _).
  destruct (Reset_spec e2 h2 a2 Hi2 Hc2) as (e2' & R2 & Hi2' & Ht2 & _ & _ & Hc2' & _).
  exists e1', e2'. by split_and!.
Qed.

Lemma load_agree l e1 e2 :
  agree e1 e2 -> room [] l ->
  exists e1' e2', loadSnapshot l e1 = (e1', Ret None) /\ loadSnapshot l e2 = (e2', Ret None) /\
    agree e1' e2'.
Proof.
  intros Hag Hroom.
  destruct (reset_agree e1 e2 Hag) as (f1 & f2 & R1 & R2 & Hi1 & Hi2 & Hc1 & Hc2 & Ht1 & Ht2).
  destruct (load_entries_calm l f1 [] [] Hi1 Hc1 Hroom)
    as (e1' & h1 & a1 & L1 & Hi1' & Hc1' & Hl1 & Hx1 & Hd1).
  destruct (load_entries_calm l f2 [] [] Hi2 Hc2 Hroom)
    as (e2' & h2 & a2 & L2 & Hi2' & Hc2' & Hl2 & Hx2 & Hd2).
  exists e1', e2'. unfold loadSnapshot. rewrite (bind_ret _ _ _ _ _ R1), (bind_ret _ _ _ _ _ R2).
  split; [done|]. split; [done|]. exists h1, a1, h2, a2. split_and!; try done; [|by rewrite Hl1, Hl2].
  unfold e_tables in *. injection Ht1 as Hn1 Hn2. injection Ht2 as Hn3 Hn4.
  rewrite Hx1, Hx2, Hd1, Hd2. congruence.
Qed.

Lemma apply_agree cmd e1 e2 :
  agree e1 e2 -> applicable cmd e1 e2 ->
  exists r e1' e2', apply_command cmd e1 = (e1', Ret r) /\
    apply_command cmd e2 = (e2', Ret r) /\ agree e1' e2'.
Proof.
  intros Hag Happ. unfold applicable in Happ.
  destruct (command_mutation cmd) as [m|] eqn:Hm.
  - destruct Happ as (Hf1 & Hf2 & Hv).
    destruct (run_agree m e1 e2 Hag Hf1 Hf2 Hv) as (r & e1' & e2' & R1 & R2 & Hag').
    exists (outcome_pair r), e1', e2'. rewrite !(apply_mutation cmd m) by done.
    by rewrite (bind_ret _ _ _ _ _ R1), (bind_ret _ _ _ _ _ R2).
  - unfold command_mutation, apply_command in *.
    destruct (c_Op cmd =? OpPut); [done|]. destruct (c_Op cmd =? OpDelete); [done|].
    destruct (c_Op cmd =? OpCompareAndSet); [done|].
    destruct (c_Op cmd =? OpWipeAll).
    { destruct (reset_agree e1 e2 Hag) as (f1 & f2 & R1 & R2 & Hi1 & Hi2 & Hc1 & Hc2 & Ht1 & Ht2).
      do 3 eexists. rewrite (bind_ret _ _ _ _ _ R1), (bind_ret _ _ _ _ _ R2).
      split; [reflexivity|]. split; [reflexivity|]. exists [], [], [], [].
      split_and!; try done. congruence. }
    destruct (c_Op cmd =? OpLoadSnapshot) eqn:Hload; bool_prop.
    { destruct (load_agree (c_Entries cmd) e1 e2 Hag (Happ Hload)) as (f1 & f2 & L1 & L2 & Hag').
      do 3 eexists. by rewrite (bind_ret _ _ _ _ _ L1), (bind_ret _ _ _ _ _ L2). }
    by do 3 eexists.
Qed.

(** Replicas stay in step.  On replicas whose disks do not fail and that are
    in the same state, applying the same log entry gives the same result and the
    same state again, for every command, on the condition that a conditional
    write sees the same version on both. *)
Theorem replicas_agree log cmd e1 e2 :
  agree e1 e2 -> gob_decode (l_Data log) = Ok cmd -> applicable cmd e1 e2 ->
  exists r e1' e2', Apply log e1 = (e1', Ret r) /\ Apply log e2 = (e2', Ret r) /\ agree e1' e2'.
Proof.
  intros Hag Hdec Happ. unfold Apply, decodeCommand. rewrite Hdec.
  destruct (apply_agree cmd e1 e2 Hag Happ) as ([out err] & e1' & e2' & A1 & A2 & Hag').
  do 3 eexists. rewrite (bind_ret _ _ _ _ _ A1), (bind_ret _ _ _ _ _ A2).
  split; [reflexivity|]. by split.
Qed.
End codec.

(** ** A codec for the witnesses *)

#[export] Instance Command_eq_dec : EqDecision Command.
Proof. solve_decision. Defined.
#[export] Program Instance Command_countable : Countable Command :=
  inj_countable' (fun c => (c_Op c, c_Key c, c_Value c, c_ExpiresAtUnixNano c,
                            c_ExpectedVersion c, c_IdempotencyKey c, c_Entries c))
                 (fun '(o, k, v, x, n, i, l) => mkCommand o k v x n i l) _.
Next Obligation. by intros []. Qed.

(** Any countable type has a codec. *)
Definition countable_codec (A : Type) `{Countable A} : Codec A := {|
  gob_encode x := Ok (pos_bytes (countable.encode x));
  gob_decode b := match countable.decode (bytes_pos b) with
                  | Some x => Ok x
                  | None => Err ($"decode")
                  end
|}.

Lemma countable_codec_laws A `{Countable A} : @CodecLaws A (countable_codec A).
Proof.
  intros x b [= <-]. cbn. by rewrite bytes_pos_bytes, countable.decode_encode.
Qed.

Lemma snapshot_restores_reads_witness :
  let entries := [mkSnapshotEntry ($"k") ($"v1") 0] in
  let C := countable_codec (list SnapshotEntry) in
  exists e2' h' a',
    @Restore C (pos_bytes (countable.encode entries)) (fresh_engine [] at100) = (e2', Ret None) /\
    engine_inv e2' h' a' /\ calm_engine e2' /\
    forall k, fst <$> visible 100 (e_index e2' !! k) = fst <$> visible 100 (e_index after_put1 !! k).
Proof.
  refine (@snapshot_restores_reads (countable_codec _) (countable_codec_laws _)
            after_put1 log1 log1 [($"k", mkEntry ($"v1") 1 None)] 100 after_put1 _ _
            (fresh_engine [] at100) [] [] (proj1 after_put1_inv) _ _ _ eq_refl
            (fresh_inv _ _) _ _).
  - vm_compute. constructor. constructor.
  - done.
  - vm_compute. reflexivity.
  - done.
  - by_decide.
Defined.

Definition cmd_put (k v : bytes) : Command := mkCommand OpPut k v 0 0 [] [].
Definition cmd_cas (k v : bytes) (n x : Z) : Command := mkCommand OpCompareAndSet k v x n [] [].

Lemma replicas_agree_witness :
  let log := mkLog (pos_bytes (countable.encode (cmd_put ($"k") ($"v")))) 7 in
  exists r e1' e2',
    @Apply (countable_codec Command) log (fresh_engine [] at100) = (e1', Ret r) /\
    @Apply (countable_codec Command) log (fresh_engine [] (fun _ => 200)) = (e2', Ret r) /\
    agree e1' e2'.
Proof.
  refine (@replicas_agree (countable_codec Command) _ (cmd_put ($"k") ($"v")) _ _ _ _ _).
  - exists [], [], [], []. split_and!; try done; apply fresh_inv.
  - exact (countable_codec_laws Command _ _ eq_refl).
  - cbn. split_and!; try done; by_decide.
Defined.

(** ** How replicas can part *)

Definition apply_all (cmds : list Command) (e : Engine) : Engine :=
  fold_left (fun e cmd => (apply_command cmd e).1) cmds e.

(** A conditional write is decided by each replica's own clock.  Two replicas
    in the same state apply the same two commands, a put that expires and a
    conditional write that expects its version; the one whose clock has passed
    the expiry refuses the second command and the other commits it. *)
Theorem cas_depends_on_local_clock :
  let early := fresh_engine [] (fun _ => 100) in
  let late := fresh_engine [] (fun _ => 300) in
  let put := mkCommand OpPut ($"k") ($"v1") 200 0 [] [] in
  let cas := cmd_cas ($"k") ($"v2") 1 0 in
  agree early late /\
  (apply_command cas (apply_all [put] early)).2 = Ret (mkOutcome 2 2 false, None) /\
  (apply_command cas (apply_all [put] late)).2
    = Ret (noOutcome, Some (EngineErr ErrVersionMismatch)) /\
  e_index (apply_all [put; cas] early) <> e_index (apply_all [put; cas] late).
Proof.
  cbn zeta. split.
  { exists [], [], [], []. split_and!; try done; apply fresh_inv. }
  split; [by vm_compute|]. split; [by vm_compute|].
  intros Heq. apply (f_equal (fun m => m !! $"k")) in Heq. by vm_compute in Heq.
Qed.

(** Re-applying the log after a restart reverts committed writes.  The
    engine recovers from its own log, and raft then applies its whole log to it
    again; a conditional write that had succeeded is refused the second time, so
    the key ends at the older value. *)
Theorem replay_after_restart_reverts :
  let cmds := [cmd_put ($"k") ($"v1"); cmd_cas ($"k") ($"v2") 1 0] in
  let e := apply_all cmds (fresh_engine [] at100) in
  (Get ($"k") e).2 = Ret (Some ($"v2", 2)) /\
  (Get ($"k") (reopen e 1000)).2 = Ret (Some ($"v2", 2)) /\
  (Get ($"k") (apply_all cmds (reopen e 1000))).2 = Ret (Some ($"v1", 3)).
Proof. vm_compute. by split_and!. Qed.

(** A replica restored from a snapshot numbers its commits anew, so the same
    conditional write succeeds on it and is refused on a replica that has
    applied the log. *)
Theorem restore_changes_versions :
  let e := apply_all [cmd_put ($"k") ($"old"); cmd_put ($"k") ($"v1")] (fresh_engine [] at100) in
  let restored := (loadSnapshot [mkSnapshotEntry ($"k") ($"v1") 0] (fresh_engine [] at100)).1 in
  let cas := cmd_cas ($"k") ($"v2") 1 0 in
  (Get ($"k") e).2 = Ret (Some ($"v1", 2)) /\
  (FSM_Snapshot (map_to_list (e_index e)) e).2 = Ret [mkSnapshotEntry ($"k") ($"v1") 0] /\
  (Get ($"k") restored).2 = Ret (Some ($"v1", 1)) /\
  (apply_command cas e).2 = Ret (noOutcome, Some (EngineErr ErrVersionMismatch)) /\
  (apply_command cas restored).2 = Ret (mkOutcome 2 2 false, None).
Proof. vm_compute. by split_and!. Qed.
