(* ===== verification/Cluster.v ===== *)
(** * Replicas that apply one log

    Raft gives every node the same log of commands and applies it in order; how
    far each node has got differs.  The specification of the cluster is a single
    history of writes, computed from the log alone: [abs_entry] says what an
    entry does to the history and what its proposer is answered.  Whatever the
    interleaving of new entries, applications and reads, every replica is the
    history of the entries it has applied, down to the bytes of its log file.
    The disks do not fail and no node restarts here; restarts are in Restart.  A
    conditional write on a key that expires is the exception: its outcome depends
    on the clock of the node that applies it ([cas_depends_on_local_clock]), so
    what is proved of a replica is about logs whose entries, as far as it has
    applied them, are none of these where they stand ([determined]).  A restored
    snapshot is not a step of this model, as it renumbers what a replica holds
    ([restore_changes_versions]). *)

From Stdlib Require Import ZArith Lia.
From S2P Require Import Prelude WalFormat Wal WalInvariant WalRecovery WalTheorems WalStore.
From S2P Require Import Engine EngineInvariant EngineTheorems Store Replication ReplicationTheorems.

(** ** What a log means *)

(** A history of which readers see everything. *)
Definition hist_store (h : list WalRecord) : store := mkStore h h (len h).

(** A conditional write compares against the latest binding; at time 0 no
    binding has expired. *)
Definition abs_mutate (m : mutation) (h : list WalRecord)
    : list WalRecord * result engine_error Outcome :=
  match retried m (hist_store h) with
  | Some r => (h, Ok (mkOutcome (CommitPosition r) (CommitPosition r) true))
  | None =>
    if condition 0 m (hist_store h)
    then (log_of h (mutation_record m), Ok (mkOutcome (len h + 1) (len h + 1) false))
    else (h, Err ErrVersionMismatch)
  end.

Definition abs_load (l : list SnapshotEntry) (h : list WalRecord) : list WalRecord :=
  fold_left (fun h s => log_of h (mutation_record (entry_put s))) l h.

Definition abs_command (cmd : Command) (h : list WalRecord)
    : list WalRecord * (Outcome * option fsm_error) :=
  match command_mutation cmd with
  | Some m => ((abs_mutate m h).1, outcome_pair (abs_mutate m h).2)
  | None =>
    if c_Op cmd =? OpWipeAll then ([], (noOutcome, None))
    else if c_Op cmd =? OpLoadSnapshot then (abs_load (c_Entries cmd) [], (noOutcome, None))
    else (h, (noOutcome, Some (UnknownOp (c_Op cmd))))
  end.

(** The log has room for the record, and a conditional write is on a key whose
    binding does not expire: [cas_depends_on_local_clock] is about the others. *)
Definition has_room (h : list WalRecord) (rec : WalRecord) : Prop :=
  is_u8 (Kind rec) /\ is_i64 (ExpiresAtUnixNano rec) /\ payload_size rec + 8 < 2 ^ 32 /\
  len (stream h) + (payload_size rec + 8) < 2 ^ 62 /\ len h + 1 < 2 ^ 62.
#[export] Instance has_room_dec h rec : Decision (has_room h rec).
Proof. unfold has_room. apply _. Defined.

Definition clock_free (m : mutation) (h : list WalRecord) : Prop :=
  match m with
  | MCas k _ _ _ _ => from_option ExpiresAtUnixNano 0 (last_write k h) <= 0
  | _ => True
  end.
#[export] Instance clock_free_dec m h : Decision (clock_free m h).
Proof. unfold clock_free. destruct m; apply _. Defined.

Definition admissible (cmd : Command) (h : list WalRecord) : Prop :=
  match command_mutation cmd with
  | Some m => has_room h (mutation_record m) /\ clock_free m h
  | None => c_Op cmd = OpLoadSnapshot -> room [] (c_Entries cmd)
  end.

(** ** One replica *)

Definition follows (e : Engine) (h : list WalRecord) : Prop := engine_inv e h h /\ calm_engine e.

Lemma follows_clock e e' h : same_but_clock e e' -> follows e h -> follows e' h.
Proof. intros Hs (Hi & Hc). split; [by eapply engine_inv_clock|by eapply same_but_clock_calm]. Qed.

Lemma follows_fits e h rec : follows e h -> has_room h rec -> fits (e_log e) rec.
Proof.
  intros (Hi & Hc) (? & ? & ? & ? & ?).
  pose proof (wi_ok _ _ (li_wal _ _ (ei_log _ _ _ Hi)) (proj2 Hc)) as (_ & _ & Hnext & Hoff & _).
  unfold fits. rewrite Hnext, Hoff. by split_and!.
Qed.

(** The file of a replica that follows a history holds its encoding. *)
Lemma follows_data e h : follows e h -> f_data (w_file (e_log e)) = stream h.
Proof.
  intros (Hi & Hc). pose proof (ei_log _ _ _ Hi) as Hl.
  pose proof (wi_ok _ _ (li_wal _ _ Hl) (proj2 Hc)) as (Hdata & _).
  by rewrite (li_flushed _ _ Hl (proj2 Hc)), app_nil_r in Hdata.
Qed.

Lemma condition_clock_free m h t :
  clock_free m h -> condition t m (hist_store h) = condition 0 m (hist_store h).
Proof.
  destruct m as [| |k v n x id]; [done..|]. unfold clock_free, condition, read, hist_store.
  cbn [seen]. destruct (last_write k h) as [r|]; [|done]. cbn [from_option]. intros Hx.
  destruct (Kind r =? KindPut); [|done]. unfold visible, live, entry_of, expiry_of.
  by rewrite (proj2 (Z.ltb_ge _ _) Hx).
Qed.

Lemma commit_follows m e h :
  follows e h -> has_room h (mutation_record m) ->
  exists e', commit m e = (e', Ret (Ok (mkOutcome (len h + 1) (len h + 1) false))) /\
    follows e' (log_of h (mutation_record m)).
Proof.
  intros Hf Hr. destruct (commit_calm m e h h (proj1 Hf) (proj2 Hf) (follows_fits _ _ _ Hf Hr))
    as (e' & E & Hi & Hc & _). by exists e'.
Qed.

Lemma run_follows m e h :
  follows e h -> has_room h (mutation_record m) -> clock_free m h ->
  exists e', run m e = (e', Ret (abs_mutate m h).2) /\ follows e' (abs_mutate m h).1.
Proof.
  intros Hf Hr Hcf. unfold abs_mutate.
  pose proof (retried_hit e (hist_store h) m (proj1 Hf)) as Hhit.
  destruct (retried m (hist_store h)) as [r|] eqn:Hre.
  - pose proof (run_unfold m e) as Hu. rewrite Hhit in Hu. by exists e.
  - destruct (run_guarded m e (hist_store h) (proj1 Hf) Hre) as (e1 & Hs & ->).
    rewrite condition_clock_free by done. pose proof (follows_clock _ _ _ Hs Hf) as Hf1.
    destruct (condition 0 m (hist_store h)); [by apply commit_follows|by exists e1].
Qed.

Lemma load_follows l e h :
  follows e h -> room h l ->
  exists e', load_entries l e = (e', Ret None) /\ follows e' (abs_load l h).
Proof.
  revert e h. induction l as [|s l IH]; intros e h Hf Hroom; [by exists e|].
  pose proof (room_fits _ _ _ _ Hroom (ei_log _ _ _ (proj1 Hf)) (proj2 (proj2 Hf))) as Hfit.
  destruct (commit_calm (entry_put s) e h h (proj1 Hf) (proj2 Hf) Hfit) as (e1 & E1 & Hi1 & Hc1 & _).
  destruct (IH e1 (log_of h (mutation_record (entry_put s))) (conj Hi1 Hc1) (room_tail _ _ _ Hroom))
    as (e' & E & Hf').
  exists e'. split; [|done]. cbn [load_entries].
  rewrite <- load_put in E1. by rewrite (bind_ret _ _ _ _ _ E1).
Qed.

Lemma reset_follows e h : follows e h -> exists e', Reset e = (e', Ret None) /\ follows e' [].
Proof.
  intros (Hi & Hc). destruct (Reset_spec e h h Hi Hc) as (e' & HR & Hi' & _ & _ & _ & Hc' & _).
  by exists e'.
Qed.

Lemma command_follows cmd e h :
  follows e h -> admissible cmd h ->
  exists e', apply_command cmd e = (e', Ret (abs_command cmd h).2) /\
    follows e' (abs_command cmd h).1.
Proof.
  intros Hf Hadm. unfold admissible, abs_command in *.
  destruct (command_mutation cmd) as [m|] eqn:Hm.
  - destruct (run_follows m e h Hf (proj1 Hadm) (proj2 Hadm)) as (e' & E & Hf').
    exists e'. by rewrite (apply_mutation cmd m), (bind_ret _ _ _ _ _ E) by done.
  - destruct (reset_follows e h Hf) as (e0 & HR & Hf0). unfold command_mutation, apply_command in *.
    destruct (c_Op cmd =? OpPut); [done|]. destruct (c_Op cmd =? OpDelete); [done|].
    destruct (c_Op cmd =? OpCompareAndSet); [done|].
    destruct (c_Op cmd =? OpWipeAll); [exists e0; by rewrite (bind_ret _ _ _ _ _ HR)|].
    destruct (c_Op cmd =? OpLoadSnapshot) eqn:Hload; bool_prop; [|by exists e].
    destruct (load_follows (c_Entries cmd) e0 [] Hf0 (Hadm Hload)) as (e' & E & Hf').
    exists e'. unfold loadSnapshot. split; [|done].
    erewrite bind_ret; [reflexivity|]. by rewrite (bind_ret _ _ _ _ _ HR).
Qed.

(** ** The cluster *)

Section cluster.
Context `{Codec Command}.

Definition abs_entry (entry : Log) (h : list WalRecord) : list WalRecord * ApplyResult :=
  match decodeCommand (l_Data entry) with
  | Err e => (h, mkApplyResult noOutcome (Some (BadCommand e)) (l_Term entry))
  | Ok cmd => let '(h', (out, err)) := abs_command cmd h in (h', mkApplyResult out err (l_Term entry))
  end.

Definition admissible_entry (entry : Log) (h : list WalRecord) : Prop :=
  match decodeCommand (l_Data entry) with Err _ => True | Ok cmd => admissible cmd h end.

(** The history a log leaves. *)
Definition history (log : list Log) : list WalRecord :=
  fold_left (fun h entry => (abs_entry entry h).1) log [].

(** A log each of whose entries is admissible where it stands. *)
Definition determined (log : list Log) : Prop :=
  forall n entry, log !! n = Some entry -> admissible_entry entry (history (take n log)).

(** The replicated log, and each node's engine with the number of entries it has
    applied. *)
Record cluster := mkCluster { cl_log : list Log; cl_replicas : list (Engine * nat) }.

Definition set_replica (i : nat) (e : Engine) (n : nat) (c : cluster) : cluster :=
  mkCluster (cl_log c) (<[i := (e, n)]> (cl_replicas c)).

Inductive cluster_step : cluster -> cluster -> Prop :=
| entry_committed c entry :
    cluster_step c (mkCluster (cl_log c ++ [entry]) (cl_replicas c))
| entry_applied c i e n entry e' r :
    cl_replicas c !! i = Some (e, n) -> cl_log c !! n = Some entry ->
    Apply entry e = (e', Ret r) ->
    cluster_step c (set_replica i e' (S n) c)
| replica_read c i e n k e' r :
    cl_replicas c !! i = Some (e, n) -> Get k e = (e', Ret r) ->
    cluster_step c (set_replica i e' n c).

(** Every node starts with an empty engine on a disk that does not fail. *)
Definition cluster_init (c : cluster) : Prop :=
  cl_log c = [] /\ Forall (fun '(e, n) => n = O /\ follows e []) (cl_replicas c).

Inductive cluster_reachable : cluster -> Prop :=
| reach_init c : cluster_init c -> cluster_reachable c
| reach_step c c' : cluster_reachable c -> cluster_step c c' -> cluster_reachable c'.

Lemma Apply_follows entry e h :
  follows e h -> admissible_entry entry h ->
  exists e', Apply entry e = (e', Ret (abs_entry entry h).2) /\ follows e' (abs_entry entry h).1.
Proof.
  intros Hf Hadm. unfold Apply, abs_entry, admissible_entry in *.
  destruct (decodeCommand (l_Data entry)) as [cmd|err]; [|by exists e].
  destruct (command_follows cmd e h Hf Hadm) as (e' & E & Hf'). exists e'.
  destruct (abs_command cmd h) as [h' [out err]]. cbn in *. by rewrite (bind_ret _ _ _ _ _ E).
Qed.

Lemma history_snoc log entry : history (log ++ [entry]) = (abs_entry entry (history log)).1.
Proof. unfold history. by rewrite fold_left_snoc. Qed.

Lemma history_next log n entry :
  log !! n = Some entry -> history (take (S n) log) = (abs_entry entry (history (take n log))).1.
Proof. intros Hn. by rewrite (take_S_r _ _ _ Hn), history_snoc. Qed.

Lemma determined_take log n : determined log -> determined (take n log).
Proof.
  intros Hd m entry Hm. apply lookup_take_Some in Hm as (Hm & Hlt).
  rewrite take_take, Nat.min_l by lia. by apply Hd.
Qed.

Lemma determined_next log n entry :
  log !! n = Some entry -> determined (take (S n) log) ->
  determined (take n log) /\ admissible_entry entry (history (take n log)).
Proof.
  intros Hn Hd. split.
  - replace (take n log) with (take n (take (S n) log)) by (rewrite take_take; f_equal; lia).
    by apply determined_take.
  - specialize (Hd n entry). rewrite take_take, Nat.min_l in Hd by lia. apply Hd.
    rewrite lookup_take_lt by lia. done.
Qed.

(** Every replica is the history of what it has applied, if that is determined. *)
Definition cluster_inv (c : cluster) : Prop :=
  forall i e n, cl_replicas c !! i = Some (e, n) ->
    (n <= length (cl_log c))%nat /\
    (determined (take n (cl_log c)) -> follows e (history (take n (cl_log c)))).

Lemma set_replica_inv i e n c :
  cluster_inv c -> (n <= length (cl_log c))%nat ->
  (determined (take n (cl_log c)) -> follows e (history (take n (cl_log c)))) ->
  cluster_inv (set_replica i e n c).
Proof.
  intros Hrep Hn Hf j e' n'. cbn.
  intros [(<- & [= -> ->] & _)|(_ & Hj)]%list_lookup_insert_Some; [done|by eapply Hrep].
Qed.

Lemma cluster_step_inv c c' : cluster_inv c -> cluster_step c c' -> cluster_inv c'.
Proof.
  intros Hinv Hs. revert Hinv.
  destruct Hs as [c entry|c i e n entry e' r Hi Hn E|c i e n k e' r Hi E]; intros Hinv.
  - intros i e n Hi. cbn in *. destruct (Hinv i e n Hi) as (Hn & Hf).
    rewrite length_app, take_app_le by done. split; [lia|done].
  - destruct (Hinv _ _ _ Hi) as (Hle & Hf). apply set_replica_inv; [done|by apply lookup_lt_Some in Hn|].
    intros Hd. destruct (determined_next _ _ _ Hn Hd) as (Hd' & Hadm).
    destruct (Apply_follows entry e _ (Hf Hd') Hadm) as (e1 & E1 & Hf1).
    rewrite (history_next _ _ _ Hn). congruence.
  - destruct (Hinv _ _ _ Hi) as (Hle & Hf). apply set_replica_inv; [done|done|]. intros Hd.
    destruct (Get_spec k e) as (e1 & Hs & E1). rewrite E in E1. injection E1 as <- _.
    eapply follows_clock; [exact Hs|by apply Hf].
Qed.

Lemma cluster_reachable_inv c : cluster_reachable c -> cluster_inv c.
Proof.
  induction 1 as [c (Hlog & Hall)|]; [|by eapply cluster_step_inv].
  intros i e n Hi. rewrite Hlog. rewrite Forall_lookup in Hall.
  by destruct (Hall _ _ Hi) as (-> & Hf).
Qed.

(** C7: the log decides what every replica is.  In every state that a cluster, on
    disks that do not fail and without restarts, reaches by committing entries of
    any kind, applying them and reading: a replica that has applied [n] entries,
    all determined where they stand (room in the log, and no conditional write on
    a key that expires), has in its maps exactly the history of the first [n]
    entries and in its log file that history's encoding; a read on it sees that
    history at the replica's own clock; and it can apply the next entry, whose
    answer, if the entry is determined too, depends on the log alone.  So replicas
    that have applied equally many entries have equal files and maps and give
    equal answers. *)
Theorem log_decides_replicas c i e n :
  cluster_reachable c -> cl_replicas c !! i = Some (e, n) -> determined (take n (cl_log c)) ->
  let h := history (take n (cl_log c)) in
  (n <= length (cl_log c))%nat /\ e_tables e = replayed h /\
  f_data (w_file (e_log e)) = stream h /\
  (forall k, (Get k e).2 = Ret (read (e_clock e 0%nat) k h)) /\
  (forall entry, cl_log c !! n = Some entry -> admissible_entry entry h ->
     (Apply entry e).2 = Ret (abs_entry entry h).2).
Proof.
  intros Hreach Hi Hd h. destruct (cluster_reachable_inv c Hreach _ _ _ Hi) as (Hn & Hf).
  specialize (Hf Hd). split_and!.
  - done.
  - apply (ei_tables _ _ _ (proj1 Hf)).
  - by apply follows_data.
  - intros k. destruct (Get_spec k e) as (e' & _ & ->). cbn. f_equal.
    apply (read_index e h h). apply Hf.
  - intros entry Hen Hadm. by destruct (Apply_follows entry e h Hf Hadm) as (e' & -> & _).
Qed.
End cluster.

(** ** Witness *)

#[local] Instance demo_codec : Codec Command := countable_codec Command.

Definition entry_of_cmd (cmd : Command) : Log := mkLog (pos_bytes (countable.encode cmd)) 1.

(** Nodes that have applied nothing, a put, and the put and a conditional write. *)
Definition demo_put : Log := entry_of_cmd (cmd_put ($"k") ($"v1")).
Definition demo_cas : Log := entry_of_cmd (cmd_cas ($"k") ($"v2") 1 0).
Definition demo_node0 : Engine := fresh_engine [] at100.
Definition demo_node1 : Engine := (Apply demo_put demo_node0).1.
Definition demo_node2 : Engine := (Apply demo_cas demo_node1).1.

Lemma demo_init : cluster_reachable (mkCluster [] [(demo_node0, 0%nat); (demo_node0, 0%nat)]).
Proof. apply reach_init. split; [done|]. repeat constructor; by apply fresh_inv. Qed.

Lemma demo_commit log entry rs :
  cluster_reachable (mkCluster log rs) -> cluster_reachable (mkCluster (log ++ [entry]) rs).
Proof. intros Hr. eapply reach_step; [exact Hr|]. apply (entry_committed (mkCluster log rs)). Qed.

Lemma demo_apply i {log rs e n entry e' r} :
  cluster_reachable (mkCluster log rs) -> Apply entry e = (e', Ret r) ->
  rs !! i = Some (e, n) -> log !! n = Some entry ->
  cluster_reachable (mkCluster log (<[i := (e', S n)]> rs)).
Proof.
  intros Hr HA Hi Hn. eapply reach_step; [exact Hr|]. by eapply (entry_applied (mkCluster log rs)).
Qed.

(** Both entries are committed; the first node has applied both and the second
    the put. *)
Lemma demo_reachable :
  cluster_reachable (mkCluster [demo_put; demo_cas] [(demo_node2, 2%nat); (demo_node1, 1%nat)]).
Proof.
  pose proof (demo_commit _ demo_cas _ (demo_commit _ demo_put _ demo_init)) as H2.
  assert (A1 : Apply demo_put demo_node0
               = (demo_node1, Ret (mkApplyResult (mkOutcome 1 1 false) None 1)))
    by (unfold demo_node1; apply with_result; vm_compute; reflexivity).
  assert (A2 : Apply demo_cas demo_node1
               = (demo_node2, Ret (mkApplyResult (mkOutcome 2 2 false) None 1)))
    by (unfold demo_node2; apply with_result; vm_compute; reflexivity).
  pose proof (demo_apply 0 H2 A1 eq_refl eq_refl) as H3.
  pose proof (demo_apply 0 H3 A2 eq_refl eq_refl) as H4.
  exact (demo_apply 1 H4 A1 eq_refl eq_refl).
Qed.

Lemma demo_put_determined : determined [demo_put].
Proof.
  intros [|n] entry; [|by rewrite lookup_cons, lookup_nil]. intros [= <-]. vm_compute. by split_and!.
Qed.

Lemma log_decides_replicas_witness :
  let h := history [demo_put] in
  h <> [] /\ (1 <= 2)%nat /\ e_tables demo_node1 = replayed h /\
  f_data (w_file (e_log demo_node1)) = stream h /\
  (forall k, (Get k demo_node1).2 = Ret (read (e_clock demo_node1 0%nat) k h)) /\
  (Apply demo_cas demo_node1).2 = Ret (abs_entry demo_cas h).2.
Proof.
  split; [by vm_compute|].
  destruct (log_decides_replicas _ 1 demo_node1 1 demo_reachable eq_refl demo_put_determined)
    as (H1 & H2 & H3 & H4 & H5).
  split_and!; [exact H1|exact H2|exact H3|exact H4|]. apply H5; [reflexivity|].
  vm_compute. by split_and!.
Defined.
