(* ===== verification/Restart.v ===== *)
(** * Replicas that restart

    A node whose process is killed, between two calls of the engine or inside an
    append, recovers its engine from its own log and is then given the replicated
    log from the start again.  For unconditional writes that carry
    an idempotency key this is harmless: what was applied before the crash is
    recognised and answered from the idempotency table, the rest is applied as on
    any other replica.  For conditional writes it is not, with or without a key
    ([keyed_cas_replayed_late]). *)

From Stdlib Require Import ZArith Lia.
From S2P Require Import Prelude WalFormat Wal WalInvariant WalRecovery WalTheorems WalStore.
From S2P Require Import Engine EngineInvariant EngineTheorems Store Replication ReplicationTheorems Cluster.

Section restarts.
Context `{Codec Command}.

(** An unconditional write with an idempotency key. *)
Definition keyed_mutation (m : mutation) : Prop :=
  mutation_id m <> [] /\ match m with MCas _ _ _ _ _ => False | _ => True end.

Definition keyed (entry : Log) : Prop :=
  exists cmd m, decodeCommand (l_Data entry) = Ok cmd /\ command_mutation cmd = Some m /\ keyed_mutation m.

(** The log inside the append that applying the entry makes: the record's bytes
    were handed to the file, the fsync has not begun.  There is none for an entry
    that is a duplicate, a refused conditional write or no write. *)
Definition append_begun (entry : Log) (e : Engine) : option WAL :=
  match decodeCommand (l_Data entry) with
  | Err _ => None
  | Ok cmd =>
    match command_mutation cmd with
    | None => None
    | Some m =>
      match dedup_hit (mutation_id m) e with
      | Some _ => None
      | None =>
        if match m with MCas k _ n _ _ => seen_version k e =? n | _ => true end
        then Some (append_enter (mutation_record m) (e_log e)).1 else None
      end
    end
  end.

(** A node's process is killed between two calls of the engine or inside the
    append of the entry it applies; its disk keeps the synced bytes and whatever
    it happens to keep behind them, so that the points before the one
    [append_begun] stands for, when fewer bytes had reached the file, and those
    behind it, when more were synced, leave files that it leaves too.  The node
    comes back with nothing applied, on a disk that does not fail. *)
Inductive node_step : cluster -> cluster -> Prop :=
| node_goes_on c c' : cluster_step c c' -> node_step c c'
| node_comes_back c i e n k sys path clock f' e' :
    cl_replicas c !! i = Some (e, n) -> (f_synced (w_file (e_log e)) <= k)%nat ->
    Engine.Open sys path clock (crash k (w_file (e_log e))) = (f', Ret (Ok e')) -> calm_engine e' ->
    node_step c (set_replica i e' 0 c)
| node_killed c i e n entry w k sys path clock f' e' :
    cl_replicas c !! i = Some (e, n) -> cl_log c !! n = Some entry ->
    append_begun entry e = Some w -> (f_synced (w_file w) <= k)%nat ->
    Engine.Open sys path clock (crash k (w_file w)) = (f', Ret (Ok e')) -> calm_engine e' ->
    node_step c (set_replica i e' 0 c).

Inductive nodes_reachable : cluster -> Prop :=
| nodes_init c : cluster_init c -> nodes_reachable c
| nodes_step c c' : nodes_reachable c -> node_step c c' -> nodes_reachable c'.

(** ** What a keyed entry does to a history *)

Definition has_id (id : bytes) (h : list WalRecord) : Prop := is_Some (last_with_id id h).

Lemma has_id_app id h l : has_id id h -> has_id id (h ++ l).
Proof.
  unfold has_id, last_with_id. intros [r Hr]. rewrite filter_app.
  destruct (filter _ l) as [|x k] eqn:E using rev_ind; [by rewrite app_nil_r, Hr|].
  by rewrite app_assoc, last_snoc.
Qed.

Lemma abs_mutate_keyed m h :
  keyed_mutation m ->
  (abs_mutate m h).1
  = match retried m (hist_store h) with Some _ => h | None => log_of h (mutation_record m) end /\
  has_id (mutation_id m) (abs_mutate m h).1.
Proof.
  intros [Hid Hm]. unfold abs_mutate, has_id.
  destruct (retried m (hist_store h)) as [r|] eqn:Hr.
  - split; [done|]. unfold retried in Hr. rewrite bool_decide_true in Hr by done. by exists r.
  - assert (Hc : condition 0 m (hist_store h) = true) by (by destruct m). rewrite Hc. split; [done|].
    unfold log_of, last_with_id. cbn [fst]. rewrite filter_app, filter_cons_True, filter_nil by (by destruct m).
    rewrite last_snoc. by eexists.
Qed.

(** A keyed entry is the mutation of its command. *)
Lemma keyed_abs entry :
  keyed entry -> exists m, keyed_mutation m /\ forall h,
    (abs_entry entry h).1 = (abs_mutate m h).1 /\
    r_Outcome (abs_entry entry h).2 = (outcome_pair (abs_mutate m h).2).1.
Proof.
  intros (cmd & m & Hd & Hm & Hk). exists m. split; [done|]. intros h. unfold abs_entry, abs_command.
  rewrite Hd, Hm. by destruct (outcome_pair (abs_mutate m h).2).
Qed.

Lemma keyed_extends entry h : keyed entry -> h `prefix_of` (abs_entry entry h).1.
Proof.
  intros (m & Hk & Ha)%keyed_abs. rewrite (proj1 (Ha h)), (proj1 (abs_mutate_keyed m h Hk)).
  destruct (retried m (hist_store h)); [done|]. by apply prefix_app_r.
Qed.

Lemma history_prefix log i j :
  Forall keyed log -> (i <= j)%nat -> history (take i log) `prefix_of` history (take j log).
Proof.
  intros Hk. induction 1 as [|j Hij IH]; [done|].
  destruct (log !! j) as [entry|] eqn:Hj.
  - rewrite (history_next _ _ _ Hj). etrans; [exact IH|]. apply keyed_extends.
    by eapply Forall_lookup_1.
  - apply lookup_ge_None in Hj. rewrite (take_ge log j) in IH by lia. by rewrite (take_ge log (S j)) by lia.
Qed.

(** An entry already in the history is recognised: it changes nothing and is
    answered as a duplicate. *)
Lemma applied_again log i j entry :
  Forall keyed log -> log !! i = Some entry -> (i < j)%nat ->
  let h := history (take j log) in
  (abs_entry entry h).1 = h /\ o_Deduplicated (r_Outcome (abs_entry entry h).2) = true /\
  forall m cmd, decodeCommand (l_Data entry) = Ok cmd -> command_mutation cmd = Some m ->
    is_Some (retried m (hist_store h)).
Proof.
  intros Hk Hi Hij h. pose proof (Forall_lookup_1 _ _ _ _ Hk Hi) as He.
  destruct He as (cmd & m & Hd & Hm & Hkm).
  assert (Hid : has_id (mutation_id m) h).
  { destruct (history_prefix log (S i) j Hk Hij) as [l Hl]. unfold h. rewrite Hl. apply has_id_app.
    rewrite (history_next _ _ _ Hi). unfold abs_entry, abs_command. rewrite Hd, Hm.
    destruct (outcome_pair _) as [out err]. cbn [fst]. by apply abs_mutate_keyed. }
  assert (Hr : exists r, retried m (hist_store h) = Some r).
  { unfold retried. rewrite bool_decide_true by apply Hkm. exact Hid. }
  destruct Hr as [r Hr]. unfold abs_entry, abs_command. rewrite Hd, Hm. unfold abs_mutate. rewrite Hr.
  split_and!; [done|done|]. intros m' cmd' [= <-] Hm'. rewrite Hm in Hm'. injection Hm' as <-. by exists r.
Qed.

(** A keyed entry adds at most a record. *)
Lemma history_grows log j entry :
  Forall keyed log -> log !! j = Some entry ->
  history (take (S j) log) = history (take j log) \/
  exists r, history (take (S j) log) = history (take j log) ++ [r].
Proof.
  intros Hk Hj. pose proof (Forall_lookup_1 _ _ _ _ Hk Hj) as (m & Hm & Ha)%keyed_abs.
  rewrite (history_next _ _ _ Hj), (proj1 (Ha _)), (proj1 (abs_mutate_keyed m _ Hm)).
  destruct (retried m _); [by left|right; by eexists].
Qed.

(** So what a crash leaves of a history is the history of fewer entries. *)
Lemma history_cut log j m :
  Forall keyed log -> (j <= length log)%nat ->
  exists j', (j' <= j)%nat /\ take m (history (take j log)) = history (take j' log).
Proof.
  intros Hk. induction j as [|j IH]; intros Hj.
  - exists 0%nat. split; [done|]. apply take_nil.
  - destruct IH as (j' & Hj' & IH); [lia|].
    destruct (lookup_lt_is_Some_2 log j) as [entry He]; [lia|].
    destruct (history_grows log j entry Hk He) as [->|[r Hr]].
    { exists j'. split; [lia|done]. }
    destruct (decide (m <= length (history (take j log)))%nat) as [Hm|Hm].
    + exists j'. split; [lia|]. by rewrite Hr, take_app_le.
    + exists (S j). split; [lia|]. rewrite take_ge; [done|]. rewrite Hr, length_app. cbn. lia.
Qed.

(** ** Inside an append *)

Lemma commit_log m e : e_log (commit m e).1 = (Append (mutation_record m) (e_log e)).1.
Proof.
  assert (Hput : forall k v x id, e_log (commit_put k v x id e).1
            = (Append (mkRecord 0 KindPut k v x id) (e_log e)).1).
  { intros k v x id. unfold commit_put, committed_at, append, zoom, mbind, GoM_bind.
    destruct (Append _ _) as [w [[pos|er]| |]]; try done. cbn. by case_bool_decide. }
  destruct m as [k v x id|k id|k v n x id]; cbn [commit];
    [exact (Hput k v x id)| |exact (Hput k v x id)].
  generalize (mutation_record (MDelete k id)). intros rec.
  unfold committed_at, append, zoom, mbind, GoM_bind.
  destruct (Append rec (e_log e)) as [w [[pos|er]| |]]; [|done..]. cbn. by case_bool_decide.
Qed.

(** [append_begun] is on the way of [Apply]: what [Apply] leaves of the log is
    what the append leaves that stood there. *)
Lemma append_begun_inside entry e w :
  append_begun entry e = Some w ->
  exists rec, w = (append_enter rec (e_log e)).1 /\
    e_log (Apply entry e).1 = (Append rec (e_log e)).1.
Proof.
  unfold append_begun, Apply. destruct (decodeCommand _) as [cmd|er]; [|done].
  destruct (command_mutation cmd) as [m|] eqn:Hm; [|done].
  destruct (dedup_hit (mutation_id m) e) eqn:Hd; [done|]. intros Hw. exists (mutation_record m).
  assert (Hrun : exists e1, e_log e1 = e_log e /\ run m e = commit m e1).
  { destruct m as [k v x id|k id|k v n x id].
    - exists e. split; [done|]. cbn. unfold ApplyPut. rewrite (bind_ret _ _ e e e) by done.
      cbn in Hd. by rewrite Hd.
    - exists e. split; [done|]. cbn. unfold Delete. rewrite (bind_ret _ _ e e e) by done.
      cbn in Hd. by rewrite Hd.
    - destruct (cas_unfold k v n x id e Hd) as (e1 & (Hl & _) & E). exists e1. split; [done|].
      cbn. rewrite E. by destruct (seen_version k e =? n). }
  destruct Hrun as (e1 & Hl & Hrun). split.
  - destruct m as [| |k v n x id]; try (by injection Hw as <-).
    destruct (seen_version k e =? n); [by injection Hw as <-|done].
  - rewrite <- Hl, <- commit_log, <- Hrun. unfold mbind at 1, GoM_bind at 1.
    rewrite (apply_mutation cmd m e Hm). unfold mbind, GoM_bind.
    destruct (run m e) as [e2 [r| |]]; try done. by cbn; destruct (outcome_pair r).
Qed.

(** ** The invariant *)

Definition node_inv (c : cluster) : Prop :=
  Forall keyed (cl_log c) -> determined (cl_log c) ->
  forall i e n, cl_replicas c !! i = Some (e, n) ->
    exists j, (n <= j <= length (cl_log c))%nat /\ follows e (history (take j (cl_log c))).

(** A duplicate on a replica that holds the entry. *)
Lemma Apply_duplicate log e n j entry :
  Forall keyed log -> log !! n = Some entry -> (n < j)%nat -> follows e (history (take j log)) ->
  Apply entry e = (e, Ret (abs_entry entry (history (take j log))).2) /\
  o_Deduplicated (r_Outcome (abs_entry entry (history (take j log))).2) = true /\
  append_begun entry e = None.
Proof.
  intros Hk Hn Hj Hf.
  destruct (applied_again log n j entry Hk Hn Hj) as (Hh & Hdup & Hret).
  destruct (Forall_lookup_1 _ _ _ _ Hk Hn) as (cmd & m & Hd & Hm & Hkm).
  destruct (Hret m cmd Hd Hm) as [r Hr].
  pose proof (retried_hit e (hist_store _) m (proj1 Hf)) as Hhit. rewrite Hr in Hhit.
  cbn [fmap option_fmap option_map] in Hhit. pose proof (run_unfold m e) as Hu. rewrite Hhit in Hu.
  split_and!; [|done|unfold append_begun; by rewrite Hd, Hm, Hhit].
  unfold Apply, abs_entry, abs_command. rewrite Hd, Hm. unfold abs_mutate. rewrite Hr.
  pose proof (apply_mutation cmd m e Hm) as Ha. rewrite (bind_ret _ _ _ _ _ Hu) in Ha.
  by rewrite (bind_ret _ _ _ _ _ Ha).
Qed.

(** One entry on a replica that may be ahead of what it was given again. *)
Lemma Apply_any log e n j entry :
  Forall keyed log -> determined log -> (n <= j <= length log)%nat -> log !! n = Some entry ->
  follows e (history (take j log)) ->
  exists e' j', (S n <= j' <= length log)%nat /\
    Apply entry e = (e', Ret (abs_entry entry (history (take j log))).2) /\
    follows e' (history (take j' log)) /\
    ((n < j)%nat -> e' = e /\ o_Deduplicated (r_Outcome (abs_entry entry (history (take j log))).2) = true).
Proof.
  intros Hk Hdet Hj Hn Hf. pose proof (lookup_lt_Some _ _ _ Hn) as Hlt.
  destruct (decide (n = j)) as [->|Hne].
  - destruct (Apply_follows entry e _ Hf (Hdet _ _ Hn)) as (e' & E & Hf').
    exists e', (S j). rewrite (history_next _ _ _ Hn). split_and!; [lia|lia|done|done|lia].
  - destruct (Apply_duplicate log e n j entry Hk Hn ltac:(lia) Hf) as (E & Hdup & _).
    exists e, j. split_and!; [lia|lia|done|done|done].
Qed.

(** A restart leaves the history of some number of entries. *)
Lemma restart_follows log j sys path clock w k f' e' :
  Forall keyed log -> (j <= length log)%nat ->
  wal_inv w (history (take j log)) -> (5 <= f_synced (w_file w))%nat -> (f_synced (w_file w) <= k)%nat ->
  Engine.Open sys path clock (crash k (w_file w)) = (f', Ret (Ok e')) -> calm_engine e' ->
  exists j', (j' <= j)%nat /\ follows e' (history (take j' log)).
Proof.
  intros Hkd Hj Hw H5 Hk HO Hc.
  destruct (engine_recovers sys path clock w _ k Hw H5 Hk) as (m & f1 & e1 & E & Hi & _).
  rewrite HO in E. injection E as <- <-.
  destruct (history_cut log j m Hkd Hj) as (j' & Hj' & Hcut). exists j'. rewrite Hcut in Hi. done.
Qed.

(** Inside the append of a keyed entry the log is that of the entry's history. *)
Lemma begun_wal log e n j entry w :
  Forall keyed log -> determined log -> (n <= j <= length log)%nat -> log !! n = Some entry ->
  follows e (history (take j log)) -> append_begun entry e = Some w ->
  wal_inv w (history (take (S j) log)) /\ (5 <= f_synced (w_file w))%nat /\ (S j <= length log)%nat.
Proof.
  intros Hk Hdet Hj Hn Hf Hw. pose proof (lookup_lt_Some _ _ _ Hn) as Hlt.
  assert (n = j) as ->.
  { destruct (decide (n = j)); [done|].
    destruct (Apply_duplicate log e n j entry Hk Hn ltac:(lia) Hf) as (_ & _ & Hno). congruence. }
  pose proof (Hdet _ _ Hn) as Hadm. pose proof (Forall_lookup_1 _ _ _ _ Hk Hn) as (cmd & m & Hd & Hm & Hkm).
  unfold admissible_entry, admissible in Hadm. rewrite Hd, Hm in Hadm. destruct Hadm as [Hroom _].
  unfold append_begun in Hw. rewrite Hd, Hm in Hw.
  pose proof (retried_hit e (hist_store _) m (proj1 Hf)) as Hhit.
  destruct (dedup_hit (mutation_id m) e); [done|]. symmetry in Hhit. apply fmap_None in Hhit.
  assert (w = (append_enter (mutation_record m) (e_log e)).1) as ->
    by (destruct m; [by injection Hw|by injection Hw|by destruct Hkm]).
  pose proof (ei_log _ _ _ (proj1 Hf)) as Hl.
  destruct (append_enter_spec (mutation_record m) (e_log e) _ (li_wal _ _ Hl) (proj2 (proj2 Hf))
              (fits_append_ok _ _ _ (li_wal _ _ Hl) (proj2 (proj2 Hf)) (follows_fits _ _ _ Hf Hroom)))
    as (w' & p & E & Hinv & Hsy & _).
  rewrite E, (history_next _ _ _ Hn). unfold abs_entry, abs_command. rewrite Hd, Hm.
  destruct (outcome_pair _). cbn [fst]. rewrite (proj1 (abs_mutate_keyed m _ Hkm)), Hhit.
  split; [done|]. rewrite Hsy. split; [apply (li_header _ _ Hl)|lia].
Qed.

Lemma node_set_inv i e n c :
  node_inv c -> (Forall keyed (cl_log c) -> determined (cl_log c) ->
    exists j, (n <= j <= length (cl_log c))%nat /\ follows e (history (take j (cl_log c)))) ->
  node_inv (set_replica i e n c).
Proof.
  intros Hinv Hnew Hk Hd i' e1 n1. cbn.
  intros [(<- & [= <- <-] & _)|(_ & Hj)]%list_lookup_insert_Some; [by apply Hnew|by eapply Hinv].
Qed.

Lemma node_step_inv c c' : node_inv c -> node_step c c' -> node_inv c'.
Proof.
  intros Hinv Hs. revert Hinv.
  destruct Hs as [c c' Hs|c i e n k sys path clock f' e' Hi Hk HO Hc
                 |c i e n entry w k sys path clock f' e' Hi Hn Hw Hk HO Hc]; intros Hinv.
  - destruct Hs as [c entry|c i e n entry e' r Hi Hn E|c i e n k e' r Hi E].
    + intros [Hk _]%Forall_app Hd i e n Hi. cbn in *.
      assert (Hd' : determined (cl_log c))
        by (rewrite <- (take_app_length (cl_log c) [entry]); by apply determined_take).
      destruct (Hinv Hk Hd' i e n Hi) as (j & Hj & Hf).
      exists j. rewrite length_app, take_app_le by lia. split; [lia|done].
    + apply node_set_inv; [done|]. intros Hk Hd. destruct (Hinv Hk Hd _ _ _ Hi) as (j & Hj & Hf).
      destruct (Apply_any _ e n j entry Hk Hd Hj Hn Hf) as (e2 & j' & Hj' & E2 & Hf' & _).
      rewrite E in E2. injection E2 as <- _. by exists j'.
    + apply node_set_inv; [done|]. intros Hk Hd. destruct (Hinv Hk Hd _ _ _ Hi) as (j & Hj & Hf).
      exists j. destruct (Get_spec k e) as (e2 & Hsame & E2). rewrite E in E2. injection E2 as <- _.
      split; [done|by eapply follows_clock].
  - apply node_set_inv; [done|]. intros Hkd Hd. destruct (Hinv Hkd Hd _ _ _ Hi) as (j & Hj & Hf).
    pose proof (ei_log _ _ _ (proj1 Hf)) as Hl.
    destruct (restart_follows _ j _ _ _ _ _ _ _ Hkd ltac:(lia) (li_wal _ _ Hl) (li_header _ _ Hl) Hk HO Hc)
      as (j' & Hj' & Hf'). exists j'. split; [lia|done].
  - apply node_set_inv; [done|]. intros Hkd Hd. destruct (Hinv Hkd Hd _ _ _ Hi) as (j & Hj & Hf).
    destruct (begun_wal _ e n j entry w Hkd Hd Hj Hn Hf Hw) as (Hwal & H5 & Hlen).
    destruct (restart_follows _ _ _ _ _ _ _ _ _ Hkd Hlen Hwal H5 Hk HO Hc) as (j' & Hj' & Hf').
    exists j'. split; [lia|done].
Qed.

Lemma nodes_reachable_inv c : nodes_reachable c -> node_inv c.
Proof.
  induction 1 as [c (Hlog & Hall)|]; [|by eapply node_step_inv].
  intros _ _ i e n Hi. rewrite Hlog. rewrite Forall_lookup in Hall. destruct (Hall _ _ Hi) as (-> & Hf).
  exists 0%nat. split; [cbn; lia|done].
Qed.

(** C8: restarts of replicas are harmless for unconditional writes with idempotency
    keys.  On disks that do not fail, nodes are killed between two calls of the
    engine or inside an append, so that their log may hold a record that was not
    synced, come back by running recovery to its end, and are given the log from
    the start again.  In every state the cluster reaches, if the log holds only
    such writes and has room for them, a replica holds, in its maps and in its log
    file, exactly the history of some number [j] of entries, at least as many as it
    has been given since its last start; an entry it already holds is answered as
    a duplicate and changes nothing, the next one it does not hold is answered as
    the log says.  So a replica that has been given the whole log is the history
    of the whole log, like every other. *)
Theorem restarts_harmless c i e n :
  nodes_reachable c -> Forall keyed (cl_log c) -> determined (cl_log c) ->
  cl_replicas c !! i = Some (e, n) ->
  exists j, (n <= j <= length (cl_log c))%nat /\
    let h := history (take j (cl_log c)) in
    e_tables e = replayed h /\ f_data (w_file (e_log e)) = stream h /\
    (forall k, (Get k e).2 = Ret (read (e_clock e 0%nat) k h)) /\
    forall entry, cl_log c !! n = Some entry ->
      exists e', Apply entry e = (e', Ret (abs_entry entry h).2) /\
        ((n < j)%nat -> e' = e /\ o_Deduplicated (r_Outcome (abs_entry entry h).2) = true).
Proof.
  intros Hreach Hk Hd Hi. destruct (nodes_reachable_inv c Hreach Hk Hd _ _ _ Hi) as (j & Hj & Hf).
  exists j. split; [done|]. cbn zeta.
  split_and!; [apply (ei_tables _ _ _ (proj1 Hf))|by apply follows_data| |].
  - intros k. destruct (Get_spec k e) as (e' & _ & ->). cbn. f_equal. apply (read_index e _ _ k _ (proj1 Hf)).
  - intros entry Hn. destruct (Apply_any _ e n j entry Hk Hd Hj Hn Hf) as (e' & j' & _ & E & _ & Hdup).
    by exists e'.
Qed.
End restarts.

(** ** Witness *)

#[local] Instance demo_codec : Codec Command := countable_codec Command.

Definition keyed_put (k v id : bytes) : Command := mkCommand OpPut k v 0 0 id [].
Definition demo_keyed : Log := entry_of_cmd (keyed_put ($"k") ($"v1") ($"req-1")).
(** The log while the node is inside the append of the entry. *)
Definition demo_begun : WAL :=
  default (e_log demo_node0) (append_begun demo_keyed demo_node0).
Definition demo_restarted : Engine :=
  match (Engine.Open at100 ($"p") None (crash 1000 (w_file demo_begun))).2 with
  | Ret (Ok e) => e
  | _ => demo_node0
  end.

(** The node was killed inside the append of the entry, before its fsync, and came
    back with the record, which had reached the file. *)
Lemma demo_nodes : nodes_reachable (mkCluster [demo_keyed] [(demo_restarted, 0%nat)]).
Proof.
  assert (H0 : nodes_reachable (mkCluster [] [(demo_node0, 0%nat)])).
  { apply nodes_init. split; [done|]. repeat constructor; by apply fresh_inv. }
  assert (H1 : nodes_reachable (mkCluster [demo_keyed] [(demo_node0, 0%nat)])).
  { eapply nodes_step; [exact H0|]. apply node_goes_on. apply (entry_committed (mkCluster [] _)). }
  eapply nodes_step; [exact H1|].
  apply (node_killed (mkCluster [demo_keyed] [(demo_node0, 0%nat)]) 0 demo_node0 0 demo_keyed demo_begun
           1000 at100 ($"p") None (w_file (e_log demo_restarted)) demo_restarted); [done|done|..].
  - vm_compute. reflexivity.
  - vm_compute. lia.
  - vm_compute. reflexivity.
  - unfold calm_engine, calm, healthy. split_and!; vm_compute; reflexivity.
Qed.

Lemma demo_unsynced : (f_synced (w_file demo_begun) < length (f_data (w_file (e_log demo_restarted))))%nat.
Proof. vm_compute. lia. Qed.

Lemma demo_keyed_determined : determined [demo_keyed].
Proof.
  intros [|n] entry; [|by rewrite lookup_cons, lookup_nil]. intros [= <-]. vm_compute. by split_and!.
Qed.

Lemma restarts_harmless_witness :
  exists j, (0 <= j <= 1)%nat /\
    let h := history (take j [demo_keyed]) in
    e_tables demo_restarted = replayed h /\ f_data (w_file (e_log demo_restarted)) = stream h /\
    (forall k, (Get k demo_restarted).2 = Ret (read (e_clock demo_restarted 0%nat) k h)) /\
    forall entry, [demo_keyed] !! 0%nat = Some entry ->
      exists e', Apply entry demo_restarted = (e', Ret (abs_entry entry h).2) /\
        ((0 < j)%nat -> e' = demo_restarted /\ o_Deduplicated (r_Outcome (abs_entry entry h).2) = true).
Proof.
  apply (restarts_harmless (mkCluster [demo_keyed] [(demo_restarted, 0%nat)]) 0 demo_restarted 0 demo_nodes);
    [|exact demo_keyed_determined|done].
  repeat constructor. exists (keyed_put ($"k") ($"v1") ($"req-1")), (MPut ($"k") ($"v1") 0 ($"req-1")).
  split_and!; [|done|by split].
  assert (Hg : gob_decode (l_Data demo_keyed) = Ok (keyed_put ($"k") ($"v1") ($"req-1")))
    by exact (countable_codec_laws Command _ _ eq_refl).
  unfold decodeCommand. by rewrite Hg.
Defined.

(** ** Conditional writes *)

(** An idempotency key does not help a conditional write.  The second command was
    refused, and a refusal is not remembered; given again after the restart, it
    finds the version that the third command has made since, and overwrites it:
    the replica ends at a value no other replica has. *)
Theorem keyed_cas_replayed_late :
  let cmds := [keyed_put ($"k") ($"v1") ($"a");
               mkCommand OpCompareAndSet ($"k") ($"late") 0 2 ($"b") [];
               keyed_put ($"k") ($"v3") ($"c")] in
  let e := apply_all cmds (fresh_engine [] at100) in
  (Get ($"k") e).2 = Ret (Some ($"v3", 2)) /\
  (Get ($"k") (reopen e 1000)).2 = Ret (Some ($"v3", 2)) /\
  (Get ($"k") (apply_all cmds (reopen e 1000))).2 = Ret (Some ($"late", 3)).
Proof. vm_compute. by split_and!. Qed.
