(* ===== verification/Transport.v ===== *)
(** * The raft transport's mutual TLS (internal/replication/transport.go)

    The TLS configurations of a node's raft listener and dialer, and what they
    mean for a connection.  Certificates, pools and their verification belong to
    crypto/x509 and are an interface; [handshake] is what crypto/tls documents of
    the fields of a configuration that are used here. *)

From Stdlib Require Import ZArith Lia.
From S2P Require Import Prelude.

(** ** crypto/x509 and crypto/tls *)

(** [x509_verify pool c]: a chain from [c] to a root of the pool; [x509_name]: the
    certificate is for the host of an address.  [tls_server_cert] and
    [tls_client_cert] are crypto/tls's choice among the certificates of a
    configuration, by the server name the client asks for and by the CAs the
    server names. *)
Class X509 (Cert Pool : Type) := {
  x509_load : bytes -> bytes -> result oserr Cert;
  x509_pool : bytes -> option Pool;
  x509_system : Pool;
  x509_verify : Pool -> Cert -> bool;
  x509_name : Cert -> bytes -> bool;
  tls_server_cert : list Cert -> bytes -> option Cert;
  tls_client_cert : list Cert -> option Pool -> option Cert
}.

(** What crypto/tls documents of the choice: the first certificate of the
    configuration that is compatible with the peer's requirements; a server with
    one certificate presents it, a client with one presents it to a server that
    verifies it. *)
Class TLSLaws (Cert Pool : Type) `{X509 Cert Pool} : Prop := {
  server_cert_in cs addr c : tls_server_cert cs addr = Some c -> c ∈ cs;
  client_cert_in cs pool c : tls_client_cert cs pool = Some c -> c ∈ cs;
  server_cert_sole c addr : tls_server_cert [c] addr = Some c;
  client_cert_sole c pool : x509_verify pool c = true -> tls_client_cert [c] (Some pool) = Some c
}.

Inductive ClientAuthType :=
| NoClientCert | RequestClientCert | RequireAnyClientCert | VerifyClientCertIfGiven
| RequireAndVerifyClientCert.

(** [tls.Config], the fields the program sets; the zero value leaves the rest. *)
Record tls_Config (Cert Pool : Type) := mkTLS {
  Certificates : list Cert;
  RootCAs : option Pool;
  ClientCAs : option Pool;
  ClientAuth : ClientAuthType;
  InsecureSkipVerify : bool
}.
Arguments mkTLS {Cert Pool}.
Arguments Certificates {Cert Pool}.
Arguments RootCAs {Cert Pool}.
Arguments ClientCAs {Cert Pool}.
Arguments ClientAuth {Cert Pool}.
Arguments InsecureSkipVerify {Cert Pool}.

Section tls.
Context {Cert Pool : Type} `{TLSLaws Cert Pool}.

(** Does a server with the configuration accept the certificate a client sent? *)
Definition accepts_client (srv : tls_Config Cert Pool) (c : option Cert) : bool :=
  let verified c := x509_verify (default x509_system (ClientCAs srv)) c in
  match ClientAuth srv, c with
  | NoClientCert, _ | RequestClientCert, _ => true
  | RequireAnyClientCert, c => bool_decide (is_Some c)
  | VerifyClientCertIfGiven, None => true
  | VerifyClientCertIfGiven, Some c => verified c
  | RequireAndVerifyClientCert, None => false
  | RequireAndVerifyClientCert, Some c => verified c
  end.

(** Does a client that dials [addr] accept the server's certificate? *)
Definition accepts_server (cli : tls_Config Cert Pool) (addr : bytes) (c : option Cert) : bool :=
  match c with
  | None => false
  | Some c => InsecureSkipVerify cli
              || (x509_verify (default x509_system (RootCAs cli)) c && x509_name c addr)
  end.

Definition handshake (cli srv : tls_Config Cert Pool) (addr : bytes) : bool :=
  accepts_server cli addr (tls_server_cert (Certificates srv) addr) &&
  accepts_client srv (tls_client_cert (Certificates cli) (ClientCAs srv)).

(** ** transport.go *)

Record TLSConfig := mkTLSConfig { CertFile : bytes; KeyFile : bytes; PeerCAFile : bytes }.

Record tlsStreamLayer := mkStreamLayer {
  Listener : bytes * tls_Config Cert Pool;
  dialTLSConfig : tls_Config Cert Pool
}.

Inductive transport_error :=
| LoadRaftKeypair (e : oserr)
| ReadPeerCA (path : bytes) (e : oserr)
| NoPeerCertificates (path : bytes)
| ListenTLS (addr : bytes) (e : oserr).

(** [readFile] is the file system and [listen] the outcome of binding. *)
Definition newTLSStreamLayer (readFile : bytes -> result oserr bytes) (listen : bytes -> option oserr)
    (bindAddr : bytes) (cfg : TLSConfig) : result transport_error tlsStreamLayer :=
  match x509_load (CertFile cfg) (KeyFile cfg) with
  | Err e => Err (LoadRaftKeypair e)
  | Ok cert =>
    match readFile (PeerCAFile cfg) with
    | Err e => Err (ReadPeerCA (PeerCAFile cfg) e)
    | Ok caPEM =>
      match x509_pool caPEM with
      | None => Err (NoPeerCertificates (PeerCAFile cfg))
      | Some pool =>
        let serverTLSConfig := mkTLS [cert] None (Some pool) RequireAndVerifyClientCert false in
        match listen bindAddr with
        | Some e => Err (ListenTLS bindAddr e)
        | None => Ok (mkStreamLayer (bindAddr, serverTLSConfig)
                        (mkTLS [cert] (Some pool) None NoClientCert false))
        end
      end
    end
  end.

(** [Dial]: the connection succeeds if the peer that answers at the address and
    this node accept each other. *)
Definition StreamDial (t : tlsStreamLayer) (address : bytes) (peer : tls_Config Cert Pool) : bool :=
  handshake (dialTLSConfig t) peer address.

(** ** Correctness *)

(** What a layer that was set up holds. *)
Lemma layer_config readFile listen bindAddr cfg t :
  newTLSStreamLayer readFile listen bindAddr cfg = Ok t ->
  exists cert pem pool, x509_load (CertFile cfg) (KeyFile cfg) = Ok cert /\
    readFile (PeerCAFile cfg) = Ok pem /\ x509_pool pem = Some pool /\
    Listener t = (bindAddr, mkTLS [cert] None (Some pool) RequireAndVerifyClientCert false) /\
    dialTLSConfig t = mkTLS [cert] (Some pool) None NoClientCert false.
Proof.
  unfold newTLSStreamLayer. destruct (x509_load _ _) as [cert|] eqn:E1; [|done].
  destruct (readFile _) as [pem|] eqn:E2; [|done].
  destruct (x509_pool pem) as [pool|] eqn:E3; [|done].
  destruct (listen bindAddr); [done|]. intros [= <-]. by exists cert, pem, pool.
Qed.

(** C31: raft traffic is authenticated in both directions.  A peer that connects to a
    node's raft listener, whatever its own configuration, presents one of its
    certificates that is of the configured CA; a server the node dials presents
    one of the same CA for the
    dialled address; and two nodes whose certificates are of the common CA and
    for their addresses do connect. *)
Theorem raft_mutual_tls readFile listen bindAddr cfg t pem pool :
  newTLSStreamLayer readFile listen bindAddr cfg = Ok t ->
  readFile (PeerCAFile cfg) = Ok pem -> x509_pool pem = Some pool ->
  (forall cli addr, handshake cli (Listener t).2 addr = true ->
     exists c, tls_client_cert (Certificates cli) (Some pool) = Some c /\ c ∈ Certificates cli /\
       x509_verify pool c = true) /\
  (forall srv addr, StreamDial t addr srv = true ->
     exists c, tls_server_cert (Certificates srv) addr = Some c /\ c ∈ Certificates srv /\
       x509_verify pool c = true /\ x509_name c addr = true) /\
  (forall bindAddr' cfg' t' cert cert' addr,
     newTLSStreamLayer readFile listen bindAddr' cfg' = Ok t' -> PeerCAFile cfg' = PeerCAFile cfg ->
     x509_load (CertFile cfg) (KeyFile cfg) = Ok cert ->
     x509_load (CertFile cfg') (KeyFile cfg') = Ok cert' ->
     x509_verify pool cert = true -> x509_verify pool cert' = true -> x509_name cert' addr = true ->
     StreamDial t addr (Listener t').2 = true).
Proof.
  intros Ht Hpem Hpool.
  destruct (layer_config _ _ _ _ _ Ht) as (cert & pem0 & pool0 & Hc & Hr & Hp & HL & HD).
  rewrite Hpem in Hr. injection Hr as <-. rewrite Hpool in Hp. injection Hp as <-.
  rewrite HL. unfold StreamDial. rewrite HD. split_and!.
  - intros cli addr. unfold handshake, accepts_client. cbn. rewrite andb_true_iff.
    intros [_ Hv]. destruct (tls_client_cert _ _) as [c|] eqn:Ec; [|done].
    exists c. by pose proof (client_cert_in _ _ _ Ec).
  - intros srv addr. unfold handshake, accepts_server, accepts_client. cbn.
    destruct (tls_server_cert _ _) as [c|] eqn:Ec; [|done].
    pose proof (server_cert_in _ _ _ Ec). rewrite !andb_true_iff. intros [[? ?] _]. by exists c.
  - intros bindAddr' cfg' t' c c' addr Ht' Hca Hl Hl' Hv Hv' Hn.
    destruct (layer_config _ _ _ _ _ Ht') as (c1 & pem1 & pool1 & Hc1 & Hr1 & Hp1 & HL1 & _).
    rewrite Hca, Hpem in Hr1. injection Hr1 as <-. rewrite Hpool in Hp1. injection Hp1 as <-.
    rewrite HL1. assert (c1 = c') as -> by congruence. assert (cert = c) as -> by congruence.
    unfold handshake, accepts_server, accepts_client. cbn.
    by rewrite server_cert_sole, client_cert_sole, Hv, Hv', Hn.
Qed.
End tls.
Arguments tlsStreamLayer Cert Pool : clear implicits.

(** Certificates that are their owner's name and issuer, for an example. *)
Definition toy_x509 : X509 (bytes * bytes) bytes := {|
  x509_load cert key := if bool_decide (key = []) then Err ($"no key") else Ok (cert, $"ca");
  x509_pool pem := if bool_decide (pem = []) then None else Some pem;
  x509_system := $"system";
  x509_verify pool c := bool_decide (c.2 = pool);
  x509_name c addr := bool_decide (c.1 = addr);
  tls_server_cert cs addr := head cs;
  tls_client_cert cs pool := head cs
|}.

Lemma toy_tls_laws : @TLSLaws _ _ toy_x509.
Proof. by split; [intros [] ??; cbn; [done|intros [= ->]; set_solver]..| |]. Qed.

Definition toy_layer (name : bytes) : tlsStreamLayer (bytes * bytes) bytes :=
  let pool := $"ca" in
  mkStreamLayer (name, mkTLS [(name, $"ca")] None (Some pool) RequireAndVerifyClientCert false)
    (mkTLS [(name, $"ca")] (Some pool) None NoClientCert false).

Lemma raft_mutual_tls_witness :
  @StreamDial _ _ toy_x509 (toy_layer ($"n1")) ($"n2") (Listener (toy_layer ($"n2"))).2 = true.
Proof.
  refine (proj2 (proj2 (@raft_mutual_tls _ _ toy_x509 toy_tls_laws (fun _ => Ok ($"ca")) (fun _ => None) ($"n1")
            (mkTLSConfig ($"n1") ($"key") ($"ca.pem")) (toy_layer ($"n1")) ($"ca") ($"ca") eq_refl eq_refl eq_refl))
            ($"n2") (mkTLSConfig ($"n2") ($"key") ($"ca.pem")) (toy_layer ($"n2"))
            ($"n1", $"ca") ($"n2", $"ca") ($"n2") _ _ _ _ _ _ _); reflexivity.
Defined.
