(* ===== verification/Node.v ===== *)
(** * A raft node (internal/replication/node.go)

    hashicorp/raft is an interface: its operations act on a raft state and, for
    [Apply], on the engine its state machine drives.  [RaftLaws] is what its
    documentation promises of [Apply]. *)

From Stdlib Require Import ZArith Lia.
From stdpp Require Import countable.
From S2P Require Import Prelude WalFormat Wal WalInvariant WalRecovery WalTheorems WalStore.
From S2P Require Import Engine EngineInvariant EngineTheorems Replication ReplicationTheorems.

Record Peer := mkPeer { p_ID : bytes; p_Addr : bytes }.

(** A member of raft's configuration: its id, address and whether it votes. *)
Record Server := mkServer { s_ID : bytes; s_Address : bytes; s_Voter : bool }.

Class Raft (R : Type) := {
  raft_Apply : bytes -> GoM (R * Engine) (result oserr (option ApplyResult));
  raft_AddVoter : bytes -> bytes -> GoM (R * Engine) (option oserr);
  raft_RemoveServer : bytes -> GoM (R * Engine) (option oserr);
  raft_Leads : R -> bool;
  raft_LeaderWithID : R -> bytes * bytes;               (* address, id *)
  raft_GetConfiguration : R -> result oserr (list Server);
  raft_Shutdown : GoM (R * Engine) (option oserr)
}.

(** The state machine applies a list of log entries. *)
Fixpoint apply_logs `{Codec Command} (logs : list Log) : GoM Engine unit :=
  match logs with
  | [] => mret tt
  | l :: logs => _ ← Apply l; apply_logs logs
  end.

(** [Apply] succeeds only when the command is committed and this node's state
    machine has applied it, behind the entries committed before it; the response
    is the state machine's.  When the caller sees it, entries committed behind the
    command may have been applied too. *)
Class RaftLaws (R : Type) `{Raft R, Codec Command} : Prop :=
  raft_applies : forall b r e r' e' resp,
    raft_Apply b (r, e) = ((r', e'), Ret (Ok resp)) ->
    exists before term e0 e1 result after,
      apply_logs before e = (e0, Ret tt) /\
      Apply (mkLog b term) e0 = (e1, Ret result) /\ resp = Some result /\
      apply_logs after e1 = (e', Ret tt).

Record Servers := mkServers {
  Members : list Server;
  LeaderID : bytes;
  LeaderRaftAddr : bytes
}.

Section node.
Context {R : Type} `{Raft R}.

Definition Propose `{Codec Command} (cmd : Command) : GoM (R * Engine) (result oserr ApplyResult) :=
  match encodeCommand cmd with
  | Err e => mret (Err e)
  | Ok b =>
    future ← raft_Apply b;
    mret (AsApplyResult future)
  end.

Definition IsLeader (r : R) : bool := raft_Leads r.

Definition LeaderAddr (r : R) : bytes := (raft_LeaderWithID r).1.

Definition AddVoter (id addr : bytes) : GoM (R * Engine) (option oserr) := raft_AddVoter id addr.

Definition RemoveServer (id : bytes) : GoM (R * Engine) (option oserr) := raft_RemoveServer id.

Definition ListServers (r : R) : result oserr Servers :=
  match raft_GetConfiguration r with
  | Err e => Err e
  | Ok servers =>
    let '(leaderAddr, leaderID) := raft_LeaderWithID r in
    Ok (mkServers ((fun s => mkServer (s_ID s) (s_Address s) (s_Voter s)) <$> servers)
          leaderID leaderAddr)
  end.

Definition Shutdown : GoM (R * Engine) (option oserr) := raft_Shutdown.
End node.

(** ** [Open] *)

Record Config := mkConfig {
  cfg_ID : bytes;
  cfg_BindAddr : bytes;
  cfg_DataDir : bytes;
  cfg_Bootstrap : bool;
  cfg_Peers : list Peer;
  cfg_ApplyTimeout : Z;
  cfg_TLS : bool
}.

(** The outcomes of the calls [Open] makes, in their order: the directory, the
    log store, the snapshot store, the transport (TLS layer, or address and TCP
    listener), raft itself, and the bootstrap with whether its error is
    [ErrCantBootstrap]. *)
Record open_env := mkOpenEnv {
  env_mkdir : option oserr;
  env_bolt : option oserr;
  env_snapshots : option oserr;
  env_tls : option oserr;
  env_resolve : option oserr;
  env_tcp : option oserr;
  env_raft : option oserr;
  env_bootstrap : option (oserr * bool)
}.

(** What a successful [Open] has set up: the servers it bootstrapped, if any,
    and the apply timeout. *)
Record Opened := mkOpened { bootstrapped : option (list Server); applyTimeout : Z }.

Definition default_apply_timeout : Z := 5 * second.

Definition peer_server (p : Peer) : Server := mkServer (p_ID p) (p_Addr p) true.

(** The call [check] guards: its error ends [Open]. *)
Definition check {A} (what : bytes) (e : option oserr) (k : result oserr A) : result oserr A :=
  match e with Some e => Err (what ++ e) | None => k end.

Definition Open (env : open_env) (cfg : Config) : result oserr Opened :=
  check ($"replication: create data dir: ") (env_mkdir env) (
  check ($"replication: open raft log store: ") (env_bolt env) (
  check ($"replication: open snapshot store: ") (env_snapshots env) (
  let start :=
    check ($"replication: start raft: ") (env_raft env) (
    let timeout := if cfg_ApplyTimeout cfg =? 0 then default_apply_timeout
                   else cfg_ApplyTimeout cfg in
    if cfg_Bootstrap cfg then
      if len (cfg_Peers cfg) =? 0
      then Err ($"replication: Bootstrap requires at least one peer (this node)") else
      let servers := peer_server <$> cfg_Peers cfg in
      match env_bootstrap env with
      | Some (e, false) => Err ($"replication: bootstrap cluster: " ++ e)
      | Some (_, true) => Ok (mkOpened None timeout)
      | None => Ok (mkOpened (Some servers) timeout)
      end
    else Ok (mkOpened None timeout)) in
  if cfg_TLS cfg then check [] (env_tls env) start
  else check ($"replication: resolve " ++ cfg_BindAddr cfg ++ $": ") (env_resolve env) (
       check ($"replication: open transport: ") (env_tcp env) start)))).

(** ** Correctness *)

(** A successful proposal is an applied command.  If [Propose] returns
    without an error, the command was applied to this node's engine behind the
    commands committed before it, and the outcome and the error are those the
    engine call gave; what was applied since are commands committed behind it. *)
Lemma Propose_applied {R} `{RaftLaws R, !CodecLaws Command} cmd r e r' e' res :
  Propose cmd (r, e) = ((r', e'), Ret (Ok res)) ->
  exists before e0 e1 out err after, apply_logs before e = (e0, Ret tt) /\
    apply_command cmd e0 = (e1, Ret (out, err)) /\
    r_Outcome res = out /\ r_Err res = err /\ apply_logs after e1 = (e', Ret tt).
Proof.
  unfold Propose, encodeCommand. destruct (gob_encode cmd) as [b|er] eqn:Henc; [|done].
  unfold mbind, GoM_bind. destruct (raft_Apply b (r, e)) as [[r1 e1] [fut| |]] eqn:Ha; try done.
  cbn. intros [= -> -> Hres]. destruct fut as [[result|]|er]; cbn in Hres; try done.
  injection Hres as ->.
  destruct (raft_applies _ _ _ _ _ _ Ha)
    as (before & term & e0 & e1 & result & after & Hb & HA & [= ->] & Hafter).
  unfold Apply, decodeCommand in HA. cbn in HA. rewrite (gob_roundtrip _ _ Henc) in HA.
  unfold mbind, GoM_bind in HA.
  destruct (apply_command cmd e0) as [e2 [[out err]| |]] eqn:Hc; try done.
  cbn in HA. injection HA as -> <-. by exists before, e0, e1, out, err, after.
Qed.

(** ** Entries that leave a key alone *)

Definition leaves_key `{Codec Command} (k : bytes) (l : Log) : Prop :=
  match decodeCommand (l_Data l) with
  | Ok cmd => ~ (c_Op cmd = OpWipeAll \/ c_Op cmd = OpLoadSnapshot \/ c_Key cmd = k)
  | Err _ => True
  end.

Lemma commit_put_other k k' v x id e e' r :
  k' <> k -> commit_put k' v x id e = (e', Ret r) -> e_index e' !! k = e_index e !! k.
Proof.
  intros Hk. unfold commit_put, committed_at, append, zoom, mbind, GoM_bind.
  destruct (Append _ _) as [w [[pos|err]| |]]; try done; cbn; [|by intros [= <- _]].
  intros [= <- _]. by case_bool_decide; apply lookup_insert_ne.
Qed.

Lemma apply_command_other k cmd e e' r :
  ~ (c_Op cmd = OpWipeAll \/ c_Op cmd = OpLoadSnapshot \/ c_Key cmd = k) ->
  apply_command cmd e = (e', Ret r) -> e_index e' !! k = e_index e !! k.
Proof.
  intros Hno. assert (Hk : c_Key cmd <> k) by tauto. unfold apply_command.
  destruct (c_Op cmd =? OpPut).
  { unfold mbind, GoM_bind. unfold ApplyPut. rewrite (bind_ret _ _ e e e) by done.
    destruct (dedup_hit _ e); [by intros [= <- _]|].
    destruct (commit_put _ _ _ _ e) as [e1 [r1| |]] eqn:E; try done. intros [= <- _].
    by eapply commit_put_other. }
  destruct (c_Op cmd =? OpDelete).
  { unfold mbind, GoM_bind. unfold Delete. rewrite (bind_ret _ _ e e e) by done.
    destruct (dedup_hit _ e); [by intros [= <- _]|].
    unfold committed_at, append, zoom, mbind, GoM_bind.
    destruct (Append _ _) as [w [[pos|err]| |]]; try done; cbn; [|by intros [= <- _]].
    intros [= <- _]. by case_bool_decide; apply lookup_delete_ne. }
  destruct (c_Op cmd =? OpCompareAndSet).
  { unfold mbind at 1, GoM_bind at 1.
    destruct (dedup_hit (c_IdempotencyKey cmd) e) as [o|] eqn:Hd.
    { unfold ApplyCompareAndSet. rewrite (bind_ret _ _ e e e), Hd by done. by intros [= <- _]. }
    destruct (cas_unfold (c_Key cmd) (c_Value cmd) (c_ExpectedVersion cmd) (c_ExpiresAtUnixNano cmd)
                _ e Hd) as (e1 & (_ & <- & _) & ->).
    destruct (_ =? _); [|by intros [= <- _]]. unfold commit.
    destruct (commit_put _ _ _ _ e1) as [e2 [r1| |]] eqn:E; try done. intros [= <- _].
    by eapply commit_put_other. }
  destruct (Z.eqb_spec (c_Op cmd) OpWipeAll); [tauto|].
  destruct (Z.eqb_spec (c_Op cmd) OpLoadSnapshot); [tauto|]. by intros [= <- _].
Qed.

Lemma apply_logs_other `{Codec Command} k logs e e' :
  Forall (leaves_key k) logs -> apply_logs logs e = (e', Ret tt) -> e_index e' !! k = e_index e !! k.
Proof.
  intros Hall. revert e. induction Hall as [|l logs Hl _ IH]; intros e; cbn [apply_logs].
  - by intros [= <-].
  - unfold mbind, GoM_bind. destruct (Apply l e) as [e1 [r| |]] eqn:E; try done. intros ->%IH.
    unfold leaves_key in Hl. unfold Apply in E. destruct (decodeCommand _) as [cmd|er].
    + unfold mbind, GoM_bind in E. destruct (apply_command cmd e) as [e2 [[out err]| |]] eqn:Ec; try done.
      cbn in E. injection E as <- _. by eapply apply_command_other.
    + by injection E as <- _.
Qed.

(** ** A cluster of one *)

(** Every proposal commits in term 1 and is applied at once. *)
Definition single_raft `{Codec Command} : Raft (list bytes) := {|
  raft_Apply b := fun '(r, e) =>
    match Apply (mkLog b 1) e with
    | (e', Ret res) => ((r ++ [b], e'), Ret (Ok (Some res)))
    | (e', _) => ((r ++ [b], e'), Blocked)
    end;
  raft_AddVoter id addr := mret None;
  raft_RemoveServer id := mret None;
  raft_Leads r := true;
  raft_LeaderWithID r := ($"addr", $"n1");
  raft_GetConfiguration r := Ok [mkServer ($"n1") ($"addr") true];
  raft_Shutdown := mret None
|}.

Lemma single_raft_laws `{HC : Codec Command} : @RaftLaws (list bytes) single_raft HC.
Proof.
  intros b r e r' e' resp. cbn. destruct (Apply (mkLog b 1) e) as [e1 [res| |]] eqn:E; try done.
  intros [= <- <- <-]. by exists [], 1, e, e1, res, [].
Qed.

(** The same cluster when other clients' proposals, in its state, commit behind
    the next one and are applied before its caller runs again. *)
Definition busy_raft `{Codec Command} : Raft (list bytes) := {|
  raft_Apply b := fun '(others, e) =>
    match Apply (mkLog b 1) e with
    | (e1, Ret res) =>
      match apply_logs ((fun o => mkLog o 1) <$> others) e1 with
      | (e2, Ret _) => (([], e2), Ret (Ok (Some res)))
      | (e2, _) => (([], e2), Blocked)
      end
    | (e1, _) => ((others, e1), Blocked)
    end;
  raft_AddVoter id addr := mret None;
  raft_RemoveServer id := mret None;
  raft_Leads r := true;
  raft_LeaderWithID r := ($"addr", $"n1");
  raft_GetConfiguration r := Ok [mkServer ($"n1") ($"addr") true];
  raft_Shutdown := mret None
|}.

Lemma busy_raft_laws `{HC : Codec Command} : @RaftLaws (list bytes) busy_raft HC.
Proof.
  intros b r e r' e' resp. cbn. destruct (Apply (mkLog b 1) e) as [e1 [res| |]] eqn:E; try done.
  destruct (apply_logs _ e1) as [e2 [[]| |]] eqn:E2; try done.
  intros [= <- <- <-]. by exists [], 1, e, e1, res, ((fun o => mkLog o 1) <$> r).
Qed.

Definition demo_propose : (list bytes * Engine) * go (result oserr ApplyResult) :=
  @Propose (list bytes) (@single_raft (countable_codec Command)) (countable_codec Command)
    (cmd_put ($"k") ($"v")) ([], fresh_engine [] at100).

Lemma Propose_applied_witness :
  exists before e0 e1 out err after,
    @apply_logs (countable_codec Command) before (fresh_engine [] at100) = (e0, Ret tt) /\
    apply_command (cmd_put ($"k") ($"v")) e0 = (e1, Ret (out, err)) /\
    mkOutcome 1 1 false = out /\ None = err /\
    @apply_logs (countable_codec Command) after e1 = (demo_propose.1.2, Ret tt).
Proof.
  refine (@Propose_applied (list bytes) (@single_raft (countable_codec Command))
            (countable_codec Command) single_raft_laws (countable_codec_laws Command)
            (cmd_put ($"k") ($"v")) [] (fresh_engine [] at100) demo_propose.1.1 demo_propose.1.2
            (mkApplyResult (mkOutcome 1 1 false) None 1) _).
  vm_compute. reflexivity.
Defined.

(** A cluster is formed from the whole peer list or not at all.  [Open]
    bootstraps exactly the configured peers, all as voters, when asked to and
    the cluster does not exist yet; asked to bootstrap without peers it fails;
    otherwise it forms no cluster; a missing apply timeout becomes five
    seconds. *)
Theorem bootstrap_exact env cfg o :
  Open env cfg = Ok o ->
  (forall servers, bootstrapped o = Some servers ->
     cfg_Bootstrap cfg = true /\ cfg_Peers cfg <> [] /\ servers = peer_server <$> cfg_Peers cfg /\
     env_bootstrap env = None) /\
  (cfg_Bootstrap cfg = true -> cfg_Peers cfg <> []) /\
  applyTimeout o = (if cfg_ApplyTimeout cfg =? 0 then 5000000000 else cfg_ApplyTimeout cfg).
Proof.
  unfold Open, check. intros HO.
  destruct (env_mkdir env), (env_bolt env), (env_snapshots env); try done.
  set (start := match env_raft env with Some _ => _ | None => _ end) in HO.
  assert (Hs : start = Ok o)
    by (destruct (cfg_TLS cfg), (env_tls env), (env_resolve env), (env_tcp env); done).
  clear HO. subst start. destruct (env_raft env); [done|].
  destruct (cfg_Bootstrap cfg); [|by injection Hs as <-].
  destruct (len (cfg_Peers cfg) =? 0) eqn:Hp; [done|]. bool_prop.
  assert (cfg_Peers cfg <> []) by (by intros E; rewrite E in Hp).
  destruct (env_bootstrap env) as [[e [|]]|]; try done; injection Hs as <-; split_and!; try done.
  by intros servers [= <-].
Qed.

Lemma bootstrap_exact_witness :
  let cfg := mkConfig ($"n1") ($"a:1") ($"d") true [mkPeer ($"n1") ($"a:1")] 0 false in
  let o := mkOpened (Some [mkServer ($"n1") ($"a:1") true]) 5000000000 in
  (forall servers, bootstrapped o = Some servers ->
     cfg_Bootstrap cfg = true /\ cfg_Peers cfg <> [] /\ servers = peer_server <$> cfg_Peers cfg /\
     (None : option (oserr * bool)) = None) /\
  (cfg_Bootstrap cfg = true -> cfg_Peers cfg <> []) /\
  applyTimeout o = 5000000000.
Proof.
  exact (bootstrap_exact (mkOpenEnv None None None None None None None None)
           (mkConfig ($"n1") ($"a:1") ($"d") true [mkPeer ($"n1") ($"a:1")] 0 false)
           (mkOpened (Some [mkServer ($"n1") ($"a:1") true]) 5000000000) eq_refl).
Defined.
