(* ===== verification/Catalog.v ===== *)
(** * The namespace catalog (internal/catalog/namespace.go)

    The durability profiles a node may declare and the check that a request
    names the namespace the node serves. *)

From Stdlib Require Import ZArith Lia.
From S2P Require Import Prelude.

Inductive catalog_error :=
| EmptyNamespaceID
| ErrUnsupportedProfile (profile want : bytes)
| ErrNamespaceNotFound (id serves : bytes).

(** [alwaysSupportedProfiles]: a missing key of the map reads as false. *)
Definition alwaysSupportedProfiles : gmap bytes bool := {[ $"cache" := true ]}.

Record NamespaceSpec := mkSpec { ID : bytes; Profile : bytes }.

Definition NewNamespaceSpec (id profile : bytes) (replicationEnabled : bool)
    : result catalog_error NamespaceSpec :=
  if bool_decide (id = []) then Err EmptyNamespaceID else
  let supported := default false (alwaysSupportedProfiles !! profile)
                   || (bool_decide (profile = $"durable") && replicationEnabled) in
  if negb supported then
    let want := if negb replicationEnabled
                then $"cache (durable requires replication to be enabled on this node)"
                else $"cache, durable" in
    Err (ErrUnsupportedProfile profile want)
  else Ok (mkSpec id profile).

Record Registry := mkRegistry { reg_spec : NamespaceSpec }.

Definition NewRegistry (spec : NamespaceSpec) : Registry := mkRegistry spec.

Definition Validate (r : Registry) (id : bytes) : option catalog_error :=
  if bool_decide (id <> ID (reg_spec r))
  then Some (ErrNamespaceNotFound id (ID (reg_spec r))) else None.

Definition Spec (r : Registry) : NamespaceSpec := reg_spec r.

Lemma cache_only profile :
  default false (alwaysSupportedProfiles !! profile) = bool_decide (profile = $"cache").
Proof.
  unfold alwaysSupportedProfiles. destruct (decide ($"cache" = profile)) as [<-|Hne].
  - by rewrite lookup_singleton_eq, bool_decide_true.
  - by rewrite lookup_singleton_ne, bool_decide_false by congruence.
Qed.

(** What [NewNamespaceSpec] accepts. *)
Lemma NewNamespaceSpec_ok id profile repl spec :
  NewNamespaceSpec id profile repl = Ok spec <->
  id <> [] /\ (profile = $"cache" \/ (profile = $"durable" /\ repl = true)) /\
  spec = mkSpec id profile.
Proof.
  unfold NewNamespaceSpec. rewrite cache_only.
  repeat case_bool_decide; destruct repl; cbn; intuition congruence.
Qed.

(** A node declares only a durability it can back.  [NewNamespaceSpec] accepts
    exactly a non-empty id with the profile cache, or with durable when
    replication is enabled; the accepted spec is the one asked for; every other
    profile, strong included, is refused. *)
Theorem spec_honest id profile repl :
  (forall spec, NewNamespaceSpec id profile repl = Ok spec <->
     id <> [] /\ (profile = $"cache" \/ (profile = $"durable" /\ repl = true)) /\
     spec = mkSpec id profile) /\
  NewNamespaceSpec id ($"durable") false <> Ok (mkSpec id ($"durable")) /\
  is_ok (NewNamespaceSpec id ($"strong") repl) = false.
Proof.
  split_and!.
  - apply NewNamespaceSpec_ok.
  - unfold NewNamespaceSpec. by case_bool_decide.
  - unfold NewNamespaceSpec. case_bool_decide; [done|]. by destruct repl.
Qed.
