(* ===== verification/Backup.v ===== *)
(** * Backup files (internal/backup/backup.go)

    The checksummed dump of a snapshot.  encoding/gob and crypto/sha256 are
    parameters.  An encoder's output depends on the type table of its process
    (gob numbers types in the order a process first uses them), so the table is
    an argument of encoding and not of decoding. *)

From Stdlib Require Import ZArith Lia.
From stdpp Require Import countable.
From S2P Require Import Prelude WalFormat Wal Engine.

Definition backupFormatVersion : Z := 1.

Record Meta := mkMeta {
  FormatVersion : Z;
  NamespaceID : bytes;
  RecoveryPoint : Z;
  EntryCount : Z;
  CreatedAt : Z;
  SHA256Entries : bytes
}.

Definition payload : Type := Meta * list SnapshotEntry.

Inductive backup_error :=
| EncodeEntries (e : oserr) | EncodePayload (e : oserr)
| CreateFile (path : bytes) (e : oserr) | SyncFile (path : bytes) (e : oserr)
| OpenFile (path : bytes) (e : oserr) | DecodePayload (e : oserr)
| UnsupportedFormat (v : Z) | ReencodeEntries (e : oserr)
| ChecksumMismatch (got want : bytes).

(** The verb [%x] on bytes. *)
Definition hex_digit (d : Z) : byte := if d <? 10 then Zbyte (48 + d) else Zbyte (87 + d).
Definition hex (b : bytes) : bytes :=
  b ≫= fun x => [hex_digit (byteZ x / 16); hex_digit (byteZ x mod 16)].

(** What the package uses of gob and sha256. *)
Class BackupCodec (T : Type) := {
  enc_entries : T -> list SnapshotEntry -> result oserr bytes;
  enc_payload : T -> payload -> result oserr bytes;
  dec_payload : bytes -> result oserr payload;
  Sum256 : bytes -> bytes
}.

(** A payload decodes to itself, in any process. *)
Class BackupCodecLaws (T : Type) `{BackupCodec T} : Prop :=
  dec_enc_payload : forall t p b, enc_payload t p = Ok b -> dec_payload b = Ok p.

(** The files of the machine, and the outcomes of the coming creations. *)
Record FS := mkFS { fs_files : gmap bytes File; fs_create : list (option oserr) }.

Definition errExist : oserr := $"file exists".

Section backup.
Context {T : Type} `{BackupCodec T}.

(** [Write]: the bytes for the writer and the meta written; [now] is the time. *)
Definition Write (t : T) (now : Z) (meta : Meta) (entries : list SnapshotEntry)
    : result backup_error (bytes * Meta) :=
  match enc_entries t entries with
  | Err e => Err (EncodeEntries e)
  | Ok entryBuf =>
    let sum := Sum256 entryBuf in
    let meta := mkMeta backupFormatVersion (NamespaceID meta) (RecoveryPoint meta)
                  (len entries) now (hex sum) in
    match enc_payload t (meta, entries) with
    | Err e => Err (EncodePayload e)
    | Ok b => Ok (b, meta)
    end
  end.

(** [os.OpenFile] with [O_EXCL]: an existing path is an error. *)
Definition create_excl (path : bytes) : GoM FS (option oserr) := fun fs =>
  match fs_create fs with
  | Some e :: sc => (mkFS (fs_files fs) sc, Ret (Some e))
  | sc =>
    match fs_files fs !! path with
    | Some _ => (mkFS (fs_files fs) (tail sc), Ret (Some errExist))
    | None => (mkFS (<[path := emptyFile]> (fs_files fs)) (tail sc), Ret None)
    end
  end.

Definition at_path (path : bytes) {A} (m : GoM File A) : GoM FS A :=
  zoom (fun fs => default emptyFile (fs_files fs !! path))
       (fun fs f => mkFS (<[path := f]> (fs_files fs)) (fs_create fs)) m.

Definition WriteFile (t : T) (now : Z) (path : bytes) (meta : Meta)
    (entries : list SnapshotEntry) : GoM FS (result backup_error Meta) :=
  err ← create_excl path;
  match err with Some e => mret (Err (CreateFile path e)) | None =>
  match Write t now meta entries with
  | Err e => mret (Err e)
  | Ok (b, written) =>
    '(_, err) ← at_path path (File_Write b);
    match err with Some e => mret (Err (EncodePayload e)) | None =>
    err ← at_path path (f ← get_state; File_Sync (length (f_data f)));
    match err with
    | Some e => mret (Err (SyncFile path e))
    | None => mret (Ok written)
    end end
  end end.

Definition Read (t : T) (b : bytes) : result backup_error payload :=
  match dec_payload b with
  | Err e => Err (DecodePayload e)
  | Ok p =>
    if negb (FormatVersion p.1 =? backupFormatVersion)
    then Err (UnsupportedFormat (FormatVersion p.1)) else
    match enc_entries t p.2 with
    | Err e => Err (ReencodeEntries e)
    | Ok entryBuf =>
      let got := hex (Sum256 entryBuf) in
      if bool_decide (got <> SHA256Entries p.1)
      then Err (ChecksumMismatch got (SHA256Entries p.1)) else Ok p
    end
  end.

Definition ReadFile (t : T) (path : bytes) (fs : FS) : result backup_error payload :=
  match fs_files fs !! path with
  | None => Err (OpenFile path errNotExist)
  | Some f => Read t (f_data f)
  end.

(** ** Correctness *)

(** The meta a backup of [entries] carries. *)
Definition written_meta (meta : Meta) (now : Z) (entries : list SnapshotEntry) (eb : bytes) : Meta :=
  mkMeta backupFormatVersion (NamespaceID meta) (RecoveryPoint meta) (len entries) now
    (hex (Sum256 eb)).

Lemma at_path_ret {A} path (m : GoM File A) fs f f' r :
  fs_files fs !! path = Some f -> m f = (f', r) ->
  at_path path m fs = (mkFS (<[path := f']> (fs_files fs)) (fs_create fs), r).
Proof. intros Hf Hm. unfold at_path. erewrite zoom_ret; [done|]. by rewrite Hf. Qed.

Lemma WriteFile_spec t now path meta entries eb b fs :
  fs_files fs !! path = None -> fs_create fs = [] ->
  enc_entries t entries = Ok eb ->
  enc_payload t (written_meta meta now entries eb, entries) = Ok b ->
  exists fs', WriteFile t now path meta entries fs = (fs', Ret (Ok (written_meta meta now entries eb))) /\
    fs_files fs' = <[path := mkFile b (length b) false None [] []]> (fs_files fs).
Proof.
  intros Hnew Hsc He Hp. unfold WriteFile.
  rewrite (bind_ret _ _ fs (mkFS (<[path := emptyFile]> (fs_files fs)) []) None)
    by (unfold create_excl; by rewrite Hsc, Hnew).
  unfold Write. rewrite He. fold (written_meta meta now entries eb). rewrite Hp.
  erewrite bind_ret by (eapply at_path_ret; [apply lookup_insert_eq|reflexivity]).
  cbv beta iota.
  erewrite bind_ret by (eapply at_path_ret; [apply lookup_insert_eq|reflexivity]).
  eexists. split; [reflexivity|]. cbn -[insert]. by rewrite !insert_insert_eq.
Qed.

Lemma Read_ok t b m es eb :
  dec_payload b = Ok (m, es) -> FormatVersion m = backupFormatVersion ->
  enc_entries t es = Ok eb -> SHA256Entries m = hex (Sum256 eb) -> Read t b = Ok (m, es).
Proof.
  intros Hd Hv He Hs. unfold Read. rewrite Hd. cbn. rewrite Hv, He, Hs. cbn.
  by rewrite bool_decide_false by auto.
Qed.
End backup.

(** A backup reads back as it was taken.  A backup written to a new path is
    durable, and reading it returns its meta and entries exactly, in every
    process whose encoder gives the entries the same bytes. *)
Theorem backup_roundtrip {T} `{BackupCodecLaws T} t t' now path meta entries eb b fs :
  fs_files fs !! path = None -> fs_create fs = [] ->
  enc_entries t entries = Ok eb ->
  enc_payload t (written_meta meta now entries eb, entries) = Ok b ->
  enc_entries t' entries = Ok eb ->
  exists fs' f, WriteFile t now path meta entries fs
                = (fs', Ret (Ok (written_meta meta now entries eb))) /\
    fs_files fs' !! path = Some f /\ f_synced f = length (f_data f) /\
    ReadFile t' path fs' = Ok (written_meta meta now entries eb, entries).
Proof.
  intros Hnew Hsc He Hp He'.
  destruct (WriteFile_spec t now path meta entries eb b fs Hnew Hsc He Hp) as (fs' & E & Hf).
  exists fs', (mkFile b (length b) false None [] []).
  unfold ReadFile. rewrite Hf, lookup_insert_eq. split_and!; try done.
  eapply Read_ok; [by eapply dec_enc_payload|done..].
Qed.

(** A backup is accepted only if it validates, and refused in a process whose
    encoder numbers its types differently.  [Read] succeeds exactly on a
    decodable payload of the current version whose checksum is that of the
    entries encoded anew; if the new encoding has another checksum than the one
    recorded, an intact backup is refused as corrupt. *)
Theorem backup_validated {T} `{BackupCodecLaws T} t t' p b eb eb' :
  enc_payload t p = Ok b -> FormatVersion p.1 = backupFormatVersion ->
  enc_entries t p.2 = Ok eb -> SHA256Entries p.1 = hex (Sum256 eb) ->
  enc_entries t' p.2 = Ok eb' ->
  (hex (Sum256 eb') = hex (Sum256 eb) -> Read t' b = Ok p) /\
  (hex (Sum256 eb') <> hex (Sum256 eb) ->
   Read t' b = Err (ChecksumMismatch (hex (Sum256 eb')) (hex (Sum256 eb)))).
Proof.
  intros Hp Hv He Hs He'. unfold Read. rewrite (dec_enc_payload _ _ _ Hp), Hv, He', Hs. cbn.
  split; intros Heq; [by rewrite Heq, bool_decide_false by auto|by rewrite bool_decide_true].
Qed.

(** ** A codec for the witnesses *)

#[export] Instance Meta_eq_dec : EqDecision Meta.
Proof. solve_decision. Defined.
#[export] Program Instance Meta_countable : Countable Meta :=
  inj_countable' (fun m => (FormatVersion m, NamespaceID m, RecoveryPoint m, EntryCount m,
                            CreatedAt m, SHA256Entries m))
                 (fun '(v, n, r, c, t, s) => mkMeta v n r c t s) _.
Next Obligation. by intros []. Qed.

(** An encoder that writes the number its process gave the type, then the value;
    the checksum is the identity. *)
Definition numbered_codec : BackupCodec byte := {|
  enc_entries t es := Ok (t :: pos_bytes (countable.encode es));
  enc_payload t p := Ok (t :: pos_bytes (countable.encode p));
  dec_payload b := match countable.decode (bytes_pos (drop 1 b)) with
                   | Some p => Ok p
                   | None => Err ($"decode")
                   end;
  Sum256 b := b
|}.

Lemma numbered_codec_laws : @BackupCodecLaws byte numbered_codec.
Proof.
  intros t p b Hb.
  assert (b = t :: pos_bytes (countable.encode p)) as -> by (by injection Hb).
  unfold dec_payload, numbered_codec. rewrite skipn_cons, drop_0.
  by rewrite bytes_pos_bytes, countable.decode_encode.
Qed.

Definition demo_entries : list SnapshotEntry := [mkSnapshotEntry ($"k") ($"v") 0].
Definition demo_meta : Meta := mkMeta 0 ($"ns") 3 0 0 [].

Lemma backup_roundtrip_witness :
  let C := numbered_codec in
  let m := written_meta demo_meta 7 demo_entries (x40 :: pos_bytes (countable.encode demo_entries)) in
  exists fs' f, WriteFile x40 7 ($"b") demo_meta demo_entries (mkFS ∅ []) = (fs', Ret (Ok m)) /\
    fs_files fs' !! $"b" = Some f /\ f_synced f = length (f_data f) /\
    ReadFile x40 ($"b") fs' = Ok (m, demo_entries).
Proof.
  exact (@backup_roundtrip byte numbered_codec numbered_codec_laws x40 x40 7 ($"b") demo_meta
           demo_entries _ _ (mkFS ∅ []) eq_refl eq_refl eq_refl eq_refl eq_refl).
Defined.

Lemma backup_validated_witness :
  let C := numbered_codec in
  let eb t := t :: pos_bytes (countable.encode demo_entries) in
  let p := (written_meta demo_meta 7 demo_entries (eb x40), demo_entries) in
  Read x42 (x40 :: pos_bytes (countable.encode p))
  = Err (ChecksumMismatch (hex (eb x42)) (hex (eb x40))).
Proof.
  refine (proj2 (@backup_validated byte numbered_codec numbered_codec_laws x40 x42
            (@written_meta byte numbered_codec demo_meta 7 demo_entries
               (x40 :: pos_bytes (countable.encode demo_entries)), demo_entries)
            _ _ _ eq_refl eq_refl eq_refl eq_refl eq_refl) _).
  done.
Defined.
