(* ===== verification/Grpc.v ===== *)
(** * gRPC statuses and handlers, as the servers and interceptors use them *)

From Stdlib Require Import ZArith Lia.
From S2P Require Import Prelude Wal Engine Replication Catalog Backup.

Inductive code :=
| OK | Unknown | InvalidArgument | NotFound | FailedPrecondition | Internal
| Unavailable | Unauthenticated.

#[export] Instance code_eq_dec : EqDecision code.
Proof. solve_decision. Defined.
#[export] Instance code_countable : Countable code.
Proof.
  refine (inj_countable'
    (fun c => match c with
       | OK => 0%nat | Unknown => 1%nat | InvalidArgument => 2%nat | NotFound => 3%nat
       | FailedPrecondition => 4%nat | Internal => 5%nat | Unavailable => 6%nat
       | Unauthenticated => 7%nat end)
    (fun n => match n with
       | 0%nat => OK | 1%nat => Unknown | 2%nat => InvalidArgument | 3%nat => NotFound
       | 4%nat => FailedPrecondition | 5%nat => Internal | 6%nat => Unavailable
       | _ => Unauthenticated end) _).
  by intros [].
Defined.

(** A message: literal text, and the operands the format verbs [%q], [%d] and
    [%v] of [fmt] render, an error as the value it is. *)
Inductive part :=
| Text (b : bytes) | Quoted (b : bytes) | Number (z : Z)
| OfEngine (e : engine_error) | OfFsm (e : fsm_error) | OfRange (e : range_error)
| OfAppend (e : append_error) | OfReset (e : reset_error) | OfBackup (e : backup_error)
| OfCatalog (e : catalog_error).
Definition message := list part.

(** [status.Error] and [status.Errorf]. *)
Record status := mkStatus { st_code : code; st_msg : message }.

(** A unary handler: what it does to the server's state, and its response or
    status. *)
Abbreviation handler S A := (GoM S (result status A)).

(** What an interceptor sees of a call: the method, and the values of the
    authorization metadata ([None] when the call carries no metadata). *)
Record call := mkCall { FullMethod : bytes; authorization : option (list bytes) }.
