(* ===== verification/Auth.v ===== *)
(** * Bearer-token authentication (internal/auth/token.go)

    The interceptor in front of every RPC, with [subtle.ConstantTimeCompare]
    written out as the loop the standard library runs. *)

From Stdlib Require Import ZArith Lia.
From S2P Require Import Prelude Grpc.

(** ** crypto/subtle *)

(** [int((uint32(x^y) - 1) >> 31)] *)
Definition ConstantTimeByteEq (x y : Z) : Z :=
  Z.shiftr (u32 (Z.lxor x y - 1)) 31.

(** [for i := 0; i < len(x); i++ { v |= x[i] ^ y[i] }] *)
Fixpoint compare_loop (x y : bytes) (v : Z) : Z :=
  match x, y with
  | a :: x, b :: y => compare_loop x y (Z.lor v (Z.lxor (byteZ a) (byteZ b)))
  | _, _ => v
  end.

Definition ConstantTimeCompare (x y : bytes) : Z :=
  if negb (len x =? len y) then 0 else ConstantTimeByteEq (compare_loop x y 0) 0.

(** ** The interceptor *)

Definition bearerPrefix : bytes := $"Bearer ".

Definition is_health (m : bytes) : bool :=
  bool_decide (m = $"/grpc.health.v1.Health/Check")
  || bool_decide (m = $"/grpc.health.v1.Health/Watch").

(** The presented credential with the conventional prefix removed. *)
Definition presented_token (v : bytes) : bytes :=
  if (len bearerPrefix <? len v) && bool_decide (take (length bearerPrefix) v = bearerPrefix)
  then drop (length bearerPrefix) v else v.

Definition unauthenticated {S A} (msg : bytes) : handler S A :=
  mret (Err (mkStatus Unauthenticated [Text msg])).

Definition UnaryServerInterceptor {S A} (token : bytes) (c : call) (h : handler S A)
    : handler S A :=
  if is_health (FullMethod c) then h else
  match authorization c with
  | None | Some [] => unauthenticated ($"missing authorization metadata")
  | Some (v :: _) =>
    if negb (ConstantTimeCompare (presented_token v) token =? 1)
    then unauthenticated ($"invalid token") else h
  end.

(** ** Correctness *)

Lemma lor_range a b : 0 <= a < 256 -> 0 <= b < 256 -> 0 <= Z.lor a b < 256.
Proof.
  intros Ha Hb. split; [apply Z.lor_nonneg; lia|].
  assert (Hlog : forall x, 0 <= x < 256 -> Z.log2 x < 8).
  { intros x Hx. destruct (Z.eq_dec x 0) as [->|]; [done|].
    apply Z.log2_lt_pow2; [lia|]. change (2 ^ 8) with 256. lia. }
  destruct (Z.eq_dec (Z.lor a b) 0) as [->|Hne]; [lia|].
  assert (0 <= Z.lor a b) by (apply Z.lor_nonneg; lia).
  change 256 with (2 ^ 8). apply Z.log2_lt_pow2; [lia|].
  rewrite Z.log2_lor by lia. pose proof (Hlog a Ha). pose proof (Hlog b Hb). lia.
Qed.

Lemma compare_loop_zero x y v :
  length x = length y -> 0 <= v < 256 ->
  0 <= compare_loop x y v < 256 /\ (compare_loop x y v = 0 <-> v = 0 /\ x = y).
Proof.
  revert y v. induction x as [|a x IH]; intros [|b y] v Hlen Hv; try done; cbn.
  - split; [done|]. tauto.
  - pose proof (byteZ_range a). pose proof (byteZ_range b).
    pose proof (Zlxor_bound (byteZ a) (byteZ b) 8 ltac:(lia) ltac:(done) ltac:(done)) as Hx.
    change (2 ^ 8) with 256 in Hx.
    destruct (IH y (Z.lor v (Z.lxor (byteZ a) (byteZ b)))) as (Hr & Hz).
    { by injection Hlen. } { by apply lor_range. }
    split; [done|]. rewrite Hz, Z.lor_eq_0_iff, Z.lxor_eq_0_iff.
    split; [intros ((-> & Hab) & ->); by apply byteZ_inj in Hab as ->|].
    intros (-> & [= -> ->]). done.
Qed.

Lemma ConstantTimeByteEq_zero v : 0 <= v < 256 -> ConstantTimeByteEq v 0 = if v =? 0 then 1 else 0.
Proof.
  intros Hv. unfold ConstantTimeByteEq. rewrite Z.lxor_0_r.
  destruct (v =? 0) eqn:E; bool_prop; [by subst v|].
  rewrite u32_small by lia. apply Z.shiftr_eq_0; [lia|].
  destruct (Z.eq_dec (v - 1) 0) as [->|]; [done|].
  apply Z.log2_lt_pow2; [lia|]. lia.
Qed.

(** The constant-time comparison is equality. *)
Lemma ConstantTimeCompare_spec x y :
  ConstantTimeCompare x y = if bool_decide (x = y) then 1 else 0.
Proof.
  unfold ConstantTimeCompare. destruct (len x =? len y) eqn:Hlen; cbn; bool_prop.
  - unfold len in Hlen. apply Nat2Z.inj in Hlen.
    destruct (compare_loop_zero x y 0 Hlen ltac:(lia)) as (Hr & Hz).
    rewrite ConstantTimeByteEq_zero by done.
    case_bool_decide as Hxy.
    + by rewrite (proj2 Hz (conj eq_refl Hxy)).
    + destruct (compare_loop x y 0 =? 0) eqn:E; bool_prop; [|done]. tauto.
  - rewrite bool_decide_false; [done|]. by intros ->.
Qed.

Lemma presented_bearer token : token <> [] -> presented_token (bearerPrefix ++ token) = token.
Proof.
  intros Hne. unfold presented_token. rewrite len_app, take_app_length, drop_app_length.
  rewrite bool_decide_true by done. destruct token as [|b token]; [done|].
  rewrite len_cons. pose proof (len_nonneg token).
  by rewrite (proj2 (Z.ltb_lt _ _)) by lia.
Qed.

(** A credential is accepted exactly in the two forms. *)
Lemma presented_iff v token :
  token <> [] ->
  presented_token v = token <->
  v = bearerPrefix ++ token \/ (v = token /\ ~ exists x, x <> [] /\ token = bearerPrefix ++ x).
Proof.
  intros Hne. split.
  - unfold presented_token. destruct (_ && _) eqn:E.
    + bool_prop. apply bool_decide_eq_true in H0. intros <-. left.
      by rewrite <- H0 at 1; rewrite take_drop.
    + intros ->. right. split; [done|]. intros (x & Hx & ->).
      rewrite take_app_length, bool_decide_true, andb_true_r, len_app in E by done.
      bool_prop. destruct x; [done|]. rewrite len_cons in E. pose proof (len_nonneg x). lia.
  - intros [->|(-> & Hno)]; [by apply presented_bearer|].
    unfold presented_token. destruct (_ && _) eqn:E; [|done]. bool_prop.
    apply bool_decide_eq_true in H0. destruct Hno.
    exists (drop (length bearerPrefix) token). split.
    + intros Hd. apply (f_equal length) in Hd. rewrite length_drop in Hd. unfold len in H. cbn in *. lia.
    + rewrite <- H0 at 1. by rewrite take_drop.
Qed.

(** C29: exactly the holders of the token get through.  For a non-empty token a
    call that is not a health check runs its handler if and only if its first
    authorization value is the token, either behind the Bearer prefix or bare
    (the bare form only if the token does not itself carry the prefix); every
    other call is refused as unauthenticated and the server's state is not
    touched; health checks always run. *)
Theorem auth_exact {S A} token c (h : handler S A) s :
  token <> [] ->
  (is_health (FullMethod c) = true -> UnaryServerInterceptor token c h s = h s) /\
  (is_health (FullMethod c) = false ->
   (exists v vs, authorization c = Some (v :: vs) /\
      (v = bearerPrefix ++ token \/
       (v = token /\ ~ exists x, x <> [] /\ token = bearerPrefix ++ x)) /\
      UnaryServerInterceptor token c h s = h s) \/
   ((forall v vs, authorization c = Some (v :: vs) ->
       ~ (v = bearerPrefix ++ token \/
          (v = token /\ ~ exists x, x <> [] /\ token = bearerPrefix ++ x))) /\
    exists msg, UnaryServerInterceptor token c h s
                = (s, Ret (Err (mkStatus Unauthenticated [Text msg]))))).
Proof.
  intros Hne. unfold UnaryServerInterceptor. split; intros ->; [done|].
  destruct (authorization c) as [[|v vs]|]; [right; split; [done|by eexists]| |
    right; split; [done|by eexists]].
  rewrite ConstantTimeCompare_spec. case_bool_decide as Hp; cbn.
  - left. exists v, vs. split; [done|]. split; [by apply presented_iff|done].
  - right. split; [|by eexists]. intros ? ? [= <- <-] Hform. by apply Hp, presented_iff.
Qed.

(** The holder of the token writes; a caller with another one is refused and the
    handler, which would have changed the state, does not run. *)
Lemma auth_exact_witness :
  let put v := mkCall ($"/uddp.v1.StateService/Put") (Some [v]) in
  let h : handler nat nat := fun s => (S s, Ret (Ok s)) in
  UnaryServerInterceptor ($"s3cret") (put ($"Bearer s3cret")) h 7%nat = (8%nat, Ret (Ok 7%nat)) /\
  exists msg, UnaryServerInterceptor ($"s3cret") (put ($"Bearer guess")) h 7%nat
              = (7%nat, Ret (Err (mkStatus Unauthenticated [Text msg]))).
Proof.
  cbv zeta. split.
  - destruct (proj2 (auth_exact ($"s3cret") (mkCall ($"/uddp.v1.StateService/Put")
        (Some [$"Bearer s3cret"])) ((fun s => (S s, Ret (Ok s))) : handler nat nat) 7%nat
        ltac:(done)) eq_refl) as [(v & vs & _ & _ & ->)|[Hno _]]; [done|].
    destruct (Hno ($"Bearer s3cret") [] eq_refl). by left.
  - destruct (proj2 (auth_exact ($"s3cret") (mkCall ($"/uddp.v1.StateService/Put")
        (Some [$"Bearer guess"])) ((fun s => (S s, Ret (Ok s))) : handler nat nat) 7%nat
        ltac:(done)) eq_refl) as [(v & vs & [= <- <-] & [H|[H _]] & _)|[_ H]];
      [discriminate H|discriminate H|done].
Defined.
