(* ===== verification/Observability.v ===== *)
(** * Metrics (internal/observability/metrics.go)

    The request counter, the duration histogram and the commit-position gauge of
    a node, as the values their Prometheus collectors hold, and the interceptor
    in front of every RPC. *)

From Stdlib Require Import ZArith Lia.
From S2P Require Import Prelude Engine Grpc Auth.

(** Counters by method and result code, observed durations (nanoseconds) by
    method, and the process's clock. *)
Record Metrics := mkMetrics {
  requestsTotal : gmap (bytes * code) Z;
  requestDuration : list (bytes * Z);
  m_clock : Clock
}.

(** ** Collectors *)

Inductive collector_kind := CounterVec | HistogramVec | GaugeVec.

(** The description of a collector: its name, help text and variable labels. *)
Record Desc := mkDesc { d_kind : collector_kind; fqName : bytes; help : bytes; labels : list bytes }.

(** prometheus.Registry: [Register] of one collector, and the descriptions that
    are registered. *)
Class Prometheus (Reg : Type) := {
  prom_NewRegistry : Reg;
  prom_Register : Desc -> Reg -> result bytes Reg;
  registered : Reg -> list Desc
}.

(** Letters, digits and underscores, not starting with a digit. *)
Definition name_start (b : byte) : bool :=
  (97 <=? Z.lor (byteZ b) 32) && (Z.lor (byteZ b) 32 <=? 122) || (byteZ b =? 95).
Definition name_char (b : byte) : bool := name_start b || ((48 <=? byteZ b) && (byteZ b <=? 57)).
Definition valid_name (s : bytes) : bool :=
  match s with [] => false | b :: t => name_start b && forallb name_char t end.
Definition valid_desc (d : Desc) : Prop :=
  valid_name (fqName d) = true /\ Forall (fun l => valid_name l = true) (labels d) /\ NoDup (labels d).

(** What the package documents: a registry starts empty, and registering succeeds
    for a valid description with a name that is not taken. *)
Class PrometheusLaws (Reg : Type) `{Prometheus Reg} : Prop := {
  registry_empty : registered prom_NewRegistry = [];
  register_new d r :
    valid_desc d -> fqName d ∉ (fqName <$> registered r) ->
    exists r', prom_Register d r = Ok r' /\ registered r' = registered r ++ [d]
}.

Definition desc_requestsTotal : Desc :=
  mkDesc CounterVec ($"uddp_requests_total")
    ($"Total native API requests, by method and result code.") [$"method"; $"code"].
Definition desc_requestDuration : Desc :=
  mkDesc HistogramVec ($"uddp_request_duration_seconds")
    ($"Native API request duration in seconds, by method.") [$"method"].
Definition desc_commitPosition : Desc :=
  mkDesc GaugeVec ($"uddp_partition_commit_position")
    ($"Last assigned commit position, by namespace. Doubles as the change stream's head offset (TRD 4.5).")
    [$"namespace"].

(** [MustRegister] panics at the first collector that cannot be registered. *)
Fixpoint MustRegister {Reg} `{Prometheus Reg} (ds : list Desc) (r : Reg) : go Reg :=
  match ds with
  | [] => Ret r
  | d :: ds => match prom_Register d r with Ok r => MustRegister ds r | Err e => Panic e end
  end.

(** [New]: the registry and the collectors without any value. *)
Definition New {Reg} `{Prometheus Reg} (clk : Clock) : go (Reg * Metrics) :=
  reg ← MustRegister [desc_requestsTotal; desc_requestDuration; desc_commitPosition] prom_NewRegistry;
  mret (reg, mkMetrics ∅ [] clk).

(** ** Recording *)

(** [SetCommitPosition] on the gauge's values by namespace; the collector's
    float64 holds a position below 2^53 exactly. *)
Definition SetCommitPosition (namespace : bytes) (position : Z) (g : gmap bytes Z) : gmap bytes Z :=
  <[namespace := position]> g.

Definition metrics_now {S} : GoM (Metrics * S) Z := fun '(m, s) =>
  (mkMetrics (requestsTotal m) (requestDuration m) (fun n => m_clock m (Datatypes.S n)), s,
   Ret (m_clock m 0%nat)).

(** [WithLabelValues(method, code).Inc()] *)
Definition count (method : bytes) (c : code) (m : gmap (bytes * code) Z) : gmap (bytes * code) Z :=
  <[(method, c) := default 0 (m !! (method, c)) + 1]> m.

Definition UnaryServerInterceptor {S A} (c : call) (h : handler S A) : handler (Metrics * S) A :=
  start ← metrics_now;
  r ← zoom snd (fun ms s => (ms.1, s)) h;
  let cd := match r with Ok _ => OK | Err st => st_code st end in
  finish ← metrics_now;
  _ ← modify (fun ms => (mkMetrics (count (FullMethod c) cd (requestsTotal ms.1))
                           (requestDuration ms.1 ++ [(FullMethod c, i64 (finish - start))])
                           (m_clock ms.1), ms.2));
  mret r.

(** The chain a node installs: metrics first, then authentication if a token is
    configured. *)
Definition interceptors {S A} (token : bytes) (c : call) (h : handler S A) : handler (Metrics * S) A :=
  UnaryServerInterceptor c
    (if bool_decide (token <> []) then Auth.UnaryServerInterceptor token c h else h).

Lemma MustRegister_fresh {Reg} `{PrometheusLaws Reg} ds r :
  Forall valid_desc ds -> NoDup (fqName <$> (registered r ++ ds)) ->
  exists r', MustRegister ds r = Ret r' /\ registered r' = registered r ++ ds.
Proof.
  intros Hv. revert r. induction Hv as [|d ds Hd Hv IH]; intros r Hn; cbn [MustRegister].
  - exists r. by rewrite app_nil_r.
  - rewrite fmap_app, fmap_cons in Hn. pose proof Hn as (_ & Hx & _)%NoDup_app.
    destruct (register_new d r Hd) as (r1 & -> & Hr1).
    { intros Hin. by apply (Hx _ Hin); left. }
    destruct (IH r1) as (r' & HM & Hr').
    { by rewrite Hr1, <- app_assoc, fmap_app. }
    exists r'. split; [done|]. by rewrite Hr', Hr1, <- app_assoc.
Qed.

(** The metrics of a node can be created: no collector clashes with another, so
    [MustRegister] does not panic, and all three are exposed. *)
Theorem New_registers {Reg} `{PrometheusLaws Reg} clk :
  exists reg, New clk = Ret (reg, mkMetrics ∅ [] clk) /\
    registered reg = [desc_requestsTotal; desc_requestDuration; desc_commitPosition].
Proof.
  unfold New.
  destruct (MustRegister_fresh [desc_requestsTotal; desc_requestDuration; desc_commitPosition]
              prom_NewRegistry) as (reg & -> & Hr).
  - unfold valid_desc. repeat (apply Forall_cons; split); try apply Forall_nil; by_decide.
  - rewrite registry_empty. by_decide.
  - exists reg. split; [done|]. by rewrite Hr, registry_empty.
Qed.

(** A registry that keeps the descriptions in a list. *)
Definition list_registry : Prometheus (list Desc) := {|
  prom_NewRegistry := [];
  prom_Register d r :=
    if bool_decide (fqName d ∈ fqName <$> r) then Err ($"duplicate metrics collector registration attempted")
    else Ok (r ++ [d]);
  registered r := r
|}.

Lemma list_registry_laws : @PrometheusLaws (list Desc) list_registry.
Proof.
  split; [done|]. intros d r _ Hd. exists (r ++ [d]). split; [|done]. cbn. by rewrite bool_decide_false.
Qed.

(** The interceptor does not change what the handler does. *)
Lemma interceptor_transparent {S A} c (h : handler S A) m s s' r :
  h s = (s', Ret r) ->
  exists m', UnaryServerInterceptor c h (m, s) = ((m', s'), Ret r) /\
    requestsTotal m' = count (FullMethod c) (match r with Ok _ => OK | Err st => st_code st end)
                         (requestsTotal m).
Proof.
  intros Hh. unfold UnaryServerInterceptor, mbind, GoM_bind, zoom. cbn. rewrite Hh. cbn.
  by eexists.
Qed.

(** Every RPC is counted once, also one that authentication refuses: with a token
    configured, a call without credentials leaves the server's state alone and
    adds one to the method's Unauthenticated counter and to no other. *)
Theorem refused_call_counted {S A} token c (h : handler S A) m s :
  token <> [] -> is_health (FullMethod c) = false -> authorization c = None ->
  exists m' st, interceptors token c h (m, s) = ((m', s), Ret (Err st)) /\
    st_code st = Unauthenticated /\
    requestsTotal m' !! (FullMethod c, Unauthenticated)
      = Some (default 0 (requestsTotal m !! (FullMethod c, Unauthenticated)) + 1) /\
    forall k, k <> (FullMethod c, Unauthenticated) ->
      requestsTotal m' !! k = requestsTotal m !! k.
Proof.
  intros Ht Hh Ha. unfold interceptors. rewrite bool_decide_true by done.
  set (st := mkStatus Unauthenticated [Text ($"missing authorization metadata")]).
  destruct (interceptor_transparent c (Auth.UnaryServerInterceptor token c h) m s s (Err st))
    as (m' & HI & Hc).
  { unfold Auth.UnaryServerInterceptor. by rewrite Hh, Ha. }
  exists m', st. rewrite Hc. unfold count. cbn. split_and!; try done.
  - apply lookup_insert_eq.
  - intros k Hk. by rewrite lookup_insert_ne by congruence.
Qed.

Lemma refused_call_counted_witness :
  exists m' st,
    interceptors ($"t") (mkCall ($"/Get") None) (mret (Ok tt) : handler unit unit)
      (mkMetrics ∅ [] (fun _ => 0), tt) = ((m', tt), Ret (Err st)) /\
    st_code st = Unauthenticated /\
    requestsTotal m' !! ($"/Get", Unauthenticated) = Some 1 /\
    forall k, k <> ($"/Get", Unauthenticated) ->
      requestsTotal m' !! k = (∅ : gmap (bytes * code) Z) !! k.
Proof.
  exact (refused_call_counted ($"t") (mkCall ($"/Get") None) (mret (Ok tt) : handler unit unit)
           (mkMetrics ∅ [] (fun _ => 0)) tt ltac:(done) eq_refl eq_refl).
Defined.
