(* ===== verification/Api.v ===== *)
(** * The gRPC services (internal/api: state_server.go, stream_server.go, admin_server.go)

    One state holds what the three services of a process share: the engine, the
    raft node if there is one, the namespace registry, the metrics, the offset
    store, the process's clock and its file system.  Every handler is a
    definition; [serve] is the service as a whole. *)

From Stdlib Require Import ZArith Lia.
From S2P Require Import Prelude WalFormat Wal Engine Streaming Replication Node Catalog Backup.
From S2P Require Import Grpc Observability.

(** ** Requests and responses *)

Record GetResponse := mkGetResponse { gr_Value : bytes; gr_Version : Z; gr_Found : bool }.

Record MutationResponse := mkMutationResponse {
  mr_NamespaceId : bytes;
  mr_PartitionId : Z;
  mr_Epoch : Z;
  mr_CommitPosition : Z;
  mr_DurabilityProfile : bytes;
  mr_Deduplicated : bool;
  mr_Version : Z
}.

Inductive ChangeKind := CHANGE_KIND_UNSPECIFIED | CHANGE_KIND_PUT | CHANGE_KIND_DELETE.

Record PbChange := mkPbChange { pc_Offset : Z; pc_Kind : ChangeKind; pc_Key : bytes; pc_Value : bytes }.

Record FetchResponse := mkFetchResponse { fr_Records : list PbChange; fr_NextOffset : Z }.

Record BackupInfo := mkBackupInfo {
  bi_NamespaceId : bytes;
  bi_RecoveryPoint : Z;
  bi_EntryCount : Z;
  bi_CreatedAt : Z;
  bi_Sha256Entries : bytes
}.

Record Cluster := mkCluster { cl_Nodes : list Server; cl_LeaderId : bytes; cl_LeaderRaftAddr : bytes }.

Record Usage := mkUsage { us_NamespaceId : bytes; us_KeyCount : Z; us_ApproxBytes : Z }.

Section api.
Context {R T : Type} `{Raft R, Codec Command, BackupCodec T}.

(** [sv_gauge] is the commit-position gauge per namespace, or [None] when metrics
    are off; [sv_types] is the process's gob type table. *)
Record Srv := mkSrv {
  sv_engine : Engine;
  sv_node : option R;
  sv_registry : Registry;
  sv_gauge : option (gmap bytes Z);
  sv_offsets : OffsetStore;
  sv_clock : Clock;
  sv_fs : FS;
  sv_types : T
}.

Definition set_engine (s : Srv) (e : Engine) : Srv :=
  mkSrv e (sv_node s) (sv_registry s) (sv_gauge s) (sv_offsets s) (sv_clock s) (sv_fs s) (sv_types s).
Definition set_node (s : Srv) (r : R) (e : Engine) : Srv :=
  mkSrv e (Some r) (sv_registry s) (sv_gauge s) (sv_offsets s) (sv_clock s) (sv_fs s) (sv_types s).
Definition set_gauge (s : Srv) (g : option (gmap bytes Z)) : Srv :=
  mkSrv (sv_engine s) (sv_node s) (sv_registry s) g (sv_offsets s) (sv_clock s) (sv_fs s) (sv_types s).
Definition set_offsets (s : Srv) (o : OffsetStore) : Srv :=
  mkSrv (sv_engine s) (sv_node s) (sv_registry s) (sv_gauge s) o (sv_clock s) (sv_fs s) (sv_types s).
Definition set_fs (s : Srv) (fs : FS) : Srv :=
  mkSrv (sv_engine s) (sv_node s) (sv_registry s) (sv_gauge s) (sv_offsets s) (sv_clock s) fs (sv_types s).

Definition eng {A} (m : GoM Engine A) : GoM Srv A := zoom sv_engine set_engine m.

(** [time.Now()] of the process. *)
Definition time_Now : GoM Srv Z := fun s =>
  (mkSrv (sv_engine s) (sv_node s) (sv_registry s) (sv_gauge s) (sv_offsets s)
     (fun n => sv_clock s (S n)) (sv_fs s) (sv_types s), Ret (sv_clock s 0%nat)).

(** A call on the raft node [r] of the server. *)
Definition node {A} (r : R) (m : GoM (R * Engine) A) : GoM Srv A := fun s =>
  let '((r', e'), res) := m (r, sv_engine s) in (set_node s r' e', res).

Definition fail {A} (c : code) (m : message) : handler Srv A := mret (Err (mkStatus c m)).

(** ** StateServer *)

Definition checkNamespace (reg : Registry) (namespaceID : bytes) : option status :=
  match Validate reg namespaceID with
  | Some err => Some (mkStatus NotFound [OfCatalog err])
  | None => None
  end.

Definition resolveExpiry (ttlSeconds : Z) : GoM Srv Z :=
  if ttlSeconds <=? 0 then mret 0 else
  now ← time_Now;
  mret (ttl_expiry now ttlSeconds).

(** The gauge is set after every mutation that returned a response. *)
Definition response (out : Outcome) (epoch : Z) : GoM Srv MutationResponse :=
  s ← get_state;
  let spec := Spec (sv_registry s) in
  _ ← modify (fun s => set_gauge s
        (SetCommitPosition (ID spec) (o_CommitPosition out) <$> sv_gauge s));
  mret (mkMutationResponse (ID spec) 0 epoch (o_CommitPosition out) (Profile spec)
          (o_Deduplicated out) (o_Version out)).

Definition replicatedResponse (r : result oserr ApplyResult) (op : bytes) : handler Srv MutationResponse :=
  match r with
  | Err e => fail Unavailable [Text op; Text ($": "); Text e]
  | Ok result =>
    match r_Err result with
    | Some (EngineErr ErrVersionMismatch) => fail FailedPrecondition [Text ($"version mismatch")]
    | Some e => fail Internal [Text op; Text ($": "); OfFsm e]
    | None => resp ← response (r_Outcome result) (r_Term result); mret (Ok resp)
    end
  end.

(** The guards every request on a key starts with. *)
Definition guarded {A} (namespaceId key : bytes) (body : handler Srv A) : handler Srv A :=
  s ← get_state;
  match checkNamespace (sv_registry s) namespaceId with
  | Some st => mret (Err st)
  | None =>
    if len key =? 0 then fail InvalidArgument [Text ($"key must not be empty")] else body
  end.

Definition StateGet (namespaceId key : bytes) : handler Srv GetResponse :=
  guarded namespaceId key (
    v ← eng (Get key);
    mret (Ok (match v with
              | Some (value, version) => mkGetResponse value version true
              | None => mkGetResponse [] 0 false
              end))).

Definition StatePut (namespaceId key value : bytes) (ttlSeconds : Z) (idempotencyKey : bytes)
    : handler Srv MutationResponse :=
  guarded namespaceId key (
    s ← get_state;
    match sv_node s with
    | Some r =>
      x ← resolveExpiry ttlSeconds;
      res ← node r (Propose (mkCommand OpPut key value x 0 idempotencyKey []));
      replicatedResponse res ($"put")
    | None =>
      res ← eng (Put key value ttlSeconds idempotencyKey);
      match res with
      | Err e => fail Internal [Text ($"put: "); OfEngine e]
      | Ok out => resp ← response out 0; mret (Ok resp)
      end
    end).

Definition StateDelete (namespaceId key idempotencyKey : bytes) : handler Srv MutationResponse :=
  guarded namespaceId key (
    s ← get_state;
    match sv_node s with
    | Some r =>
      res ← node r (Propose (mkCommand OpDelete key [] 0 0 idempotencyKey []));
      replicatedResponse res ($"delete")
    | None =>
      res ← eng (Delete key idempotencyKey);
      match res with
      | Err e => fail Internal [Text ($"delete: "); OfEngine e]
      | Ok out => resp ← response out 0; mret (Ok resp)
      end
    end).

Definition StateCompareAndSet (namespaceId key value : bytes) (expectedVersion ttlSeconds : Z)
    (idempotencyKey : bytes) : handler Srv MutationResponse :=
  guarded namespaceId key (
    s ← get_state;
    match sv_node s with
    | Some r =>
      x ← resolveExpiry ttlSeconds;
      res ← node r (Propose (mkCommand OpCompareAndSet key value x expectedVersion idempotencyKey []));
      replicatedResponse res ($"compare_and_set")
    | None =>
      res ← eng (CompareAndSet key value expectedVersion ttlSeconds idempotencyKey);
      match res with
      | Err ErrVersionMismatch => fail FailedPrecondition [Text ($"version mismatch")]
      | Err e => fail Internal [Text ($"compare_and_set: "); OfEngine e]
      | Ok out => resp ← response out 0; mret (Ok resp)
      end
    end).

(** ** StreamServer *)

Definition defaultMaxRecords : Z := 500.

Definition toChangeKind (k : RecordKind) : ChangeKind :=
  if k =? KindPut then CHANGE_KIND_PUT
  else if k =? KindDelete then CHANGE_KIND_DELETE
  else CHANGE_KIND_UNSPECIFIED.

Definition pb_change (r : ChangeRecord) : PbChange :=
  mkPbChange (Offset r) (toChangeKind (ch_Kind r)) (ch_Key r) (ch_Value r).

(** The loop that converts the records keeps the offset behind the last one. *)
Definition next_offset (from : Z) (recs : list ChangeRecord) : Z :=
  fold_left (fun _ r => u64 (Offset r + 1)) recs from.

Definition StreamFetch (namespaceId : bytes) (fromOffset maxRecords : Z) : handler Srv FetchResponse :=
  s ← get_state;
  match checkNamespace (sv_registry s) namespaceId with
  | Some st => mret (Err st)
  | None =>
    if fromOffset =? 0 then fail InvalidArgument [Text ($"from_offset must be >= 1")] else
    let limit := if maxRecords <=? 0 then defaultMaxRecords else maxRecords in
    r ← eng (Engine.Fetch fromOffset limit);
    match r with
    | Err e => fail Internal [Text ($"fetch: "); OfRange e]
    | Ok recs => mret (Ok (mkFetchResponse (pb_change <$> recs) (next_offset fromOffset recs)))
    end
  end.

Definition StreamCommitOffset (namespaceId consumerGroup : bytes) (offset : Z) : handler Srv Z :=
  s ← get_state;
  match checkNamespace (sv_registry s) namespaceId with
  | Some st => mret (Err st)
  | None =>
    if bool_decide (consumerGroup = [])
    then fail InvalidArgument [Text ($"consumer_group must not be empty")] else
    '(committed, err) ← zoom sv_offsets set_offsets (Commit consumerGroup offset);
    match err with
    | Some ErrOffsetRegression =>
      fail FailedPrecondition
        [Text ($"offset "); Number offset; Text ($" is behind the committed offset ");
         Number committed; Text ($" for group "); Quoted consumerGroup]
    | Some (OffsetLog e) => fail Internal [Text ($"commit_offset: "); OfAppend e]
    | None => mret (Ok committed)
    end
  end.

Definition StreamFetchOffset (namespaceId consumerGroup : bytes) : handler Srv (Z * bool) :=
  s ← get_state;
  match checkNamespace (sv_registry s) namespaceId with
  | Some st => mret (Err st)
  | None =>
    if bool_decide (consumerGroup = [])
    then fail InvalidArgument [Text ($"consumer_group must not be empty")] else
    mret (Ok (Streaming.Fetch consumerGroup (sv_offsets s)))
  end.

(** ** AdminServer *)

Definition errNotReplicated : status :=
  mkStatus FailedPrecondition
    [Text ($"this node is not replicated; there is no cluster to administer")].

Definition adminError (op : bytes) (e : oserr) : status :=
  mkStatus Unavailable [Text op; Text ($": "); Text e].

Definition currentCluster (r : R) : result status Cluster :=
  match ListServers r with
  | Err e => Err (mkStatus Internal [Text ($"list_nodes: "); Text e])
  | Ok servers =>
    Ok (mkCluster ((fun m => mkServer (s_ID m) (s_Address m) (s_Voter m)) <$> Members servers)
          (LeaderID servers) (LeaderRaftAddr servers))
  end.

(** The cluster as the node sees it behind a change of the membership. *)
Definition cluster_now : handler Srv Cluster :=
  s ← get_state;
  match sv_node s with
  | None => mret (Err errNotReplicated)
  | Some r => mret (currentCluster r)
  end.

Definition AddNode (id raftAddr : bytes) : handler Srv Cluster :=
  s ← get_state;
  match sv_node s with
  | None => mret (Err errNotReplicated)
  | Some r =>
    if bool_decide (id = []) || bool_decide (raftAddr = [])
    then fail InvalidArgument [Text ($"id and raft_addr are required")] else
    err ← node r (AddVoter id raftAddr);
    match err with
    | Some e => mret (Err (adminError ($"add_node") e))
    | None => cluster_now
    end
  end.

Definition RemoveNode (id : bytes) : handler Srv Cluster :=
  s ← get_state;
  match sv_node s with
  | None => mret (Err errNotReplicated)
  | Some r =>
    if bool_decide (id = []) then fail InvalidArgument [Text ($"id is required")] else
    err ← node r (RemoveServer id);
    match err with
    | Some e => mret (Err (adminError ($"remove_node") e))
    | None => cluster_now
    end
  end.

Definition ListNodes : handler Srv Cluster := cluster_now.

Definition backupInfo (meta : Meta) : BackupInfo :=
  mkBackupInfo (NamespaceID meta) (RecoveryPoint meta) (i32 (EntryCount meta)) (CreatedAt meta)
    (SHA256Entries meta).

(** [order] is the iteration order of the index, as for [Snapshot]. *)
Definition CreateBackup (order : list (bytes * entry)) (path : bytes) : handler Srv BackupInfo :=
  if bool_decide (path = []) then fail InvalidArgument [Text ($"path is required")] else
  s ← get_state;
  let spec := Spec (sv_registry s) in
  entries ← eng (Snapshot order);
  last ← gets (fun s => Engine.LastCommitPosition (sv_engine s));
  now ← time_Now;
  r ← zoom sv_fs set_fs
        (WriteFile (sv_types s) now path (mkMeta 0 (ID spec) last 0 0 []) entries);
  match r with
  | Err e => fail Internal [Text ($"create_backup: "); OfBackup e]
  | Ok meta => mret (Ok (backupInfo meta))
  end.

Definition RestoreBackup (path : bytes) : handler Srv BackupInfo :=
  if bool_decide (path = []) then fail InvalidArgument [Text ($"path is required")] else
  s ← get_state;
  match ReadFile (sv_types s) path (sv_fs s) with
  | Err e => fail InvalidArgument [Text ($"restore_backup: "); OfBackup e]
  | Ok (meta, entries) =>
    match sv_node s with
    | Some r =>
      res ← node r (Propose (mkCommand OpLoadSnapshot [] [] 0 0 [] entries));
      match res with
      | Err e => mret (Err (adminError ($"restore_backup") e))
      | Ok result =>
        match r_Err result with
        | Some e => fail Internal [Text ($"restore_backup: "); OfFsm e]
        | None => mret (Ok (backupInfo meta))
        end
      end
    | None =>
      err ← eng Reset;
      match err with
      | Some e => fail Internal [Text ($"restore_backup: reset: "); OfReset e]
      | None =>
        err ← eng (load_entries entries);
        match err with
        | Some e => fail Internal [Text ($"restore_backup: load key "); OfFsm e]
        | None => mret (Ok (backupInfo meta))
        end
      end
    end
  end.

Definition ExportNamespace (order : list (bytes * entry)) : handler Srv (list SnapshotEntry) :=
  entries ← eng (Snapshot order);
  mret (Ok ((fun e => mkSnapshotEntry (s_Key e) (s_Value e) (s_ExpiresAtUnixNano e)) <$> entries)).

Definition DeleteNamespace (order : list (bytes * entry)) (confirmNamespaceId : bytes)
    : handler Srv Z :=
  s ← get_state;
  let spec := Spec (sv_registry s) in
  if bool_decide (confirmNamespaceId <> ID spec)
  then fail InvalidArgument [Text ($"confirm_namespace_id must equal "); Quoted (ID spec)] else
  before ← eng (Snapshot order);
  match sv_node s with
  | Some r =>
    res ← node r (Propose (mkCommand OpWipeAll [] [] 0 0 [] []));
    match res with
    | Err e => mret (Err (adminError ($"delete_namespace") e))
    | Ok result =>
      match r_Err result with
      | Some e => fail Internal [Text ($"delete_namespace: "); OfFsm e]
      | None => mret (Ok (i32 (len before)))
      end
    end
  | None =>
    err ← eng Reset;
    match err with
    | Some e => fail Internal [Text ($"delete_namespace: "); OfReset e]
    | None => mret (Ok (i32 (len before)))
    end
  end.

Definition GetUsage (order : list (bytes * entry)) : handler Srv Usage :=
  s ← get_state;
  let spec := Spec (sv_registry s) in
  entries ← eng (Snapshot order);
  let approxBytes := fold_left (fun n e => i64 (n + (len (s_Key e) + len (s_Value e)))) entries 0 in
  mret (Ok (mkUsage (ID spec) (len entries) approxBytes)).

(** ** The data services as one *)

Inductive request :=
| RGet (ns key : bytes)
| RPut (ns key value : bytes) (ttl : Z) (id : bytes)
| RDelete (ns key id : bytes)
| RCas (ns key value : bytes) (version ttl : Z) (id : bytes)
| RFetch (ns : bytes) (from max : Z)
| RCommit (ns group : bytes) (offset : Z)
| ROffset (ns group : bytes).

Definition request_ns (q : request) : bytes :=
  match q with
  | RGet ns _ | RPut ns _ _ _ _ | RDelete ns _ _ | RCas ns _ _ _ _ _ | RFetch ns _ _
  | RCommit ns _ _ | ROffset ns _ => ns
  end.

Inductive answer :=
| AGet (r : GetResponse) | AMutation (r : MutationResponse) | AFetch (r : FetchResponse)
| ACommit (o : Z) | AOffset (o : Z * bool).

Definition answer_with {A} (f : A -> answer) (h : handler Srv A) : handler Srv answer :=
  r ← h; mret (match r with Ok x => Ok (f x) | Err st => Err st end).

Definition serve (q : request) : handler Srv answer :=
  match q with
  | RGet ns key => answer_with AGet (StateGet ns key)
  | RPut ns key value ttl id => answer_with AMutation (StatePut ns key value ttl id)
  | RDelete ns key id => answer_with AMutation (StateDelete ns key id)
  | RCas ns key value n ttl id => answer_with AMutation (StateCompareAndSet ns key value n ttl id)
  | RFetch ns from max => answer_with AFetch (StreamFetch ns from max)
  | RCommit ns group offset => answer_with ACommit (StreamCommitOffset ns group offset)
  | ROffset ns group => answer_with AOffset (StreamFetchOffset ns group)
  end.
End api.
Arguments Srv R T : clear implicits.
