(* ===== verification/ApiTheorems.v ===== *)
(** * Theorems about the gRPC services *)

From Stdlib Require Import ZArith Lia.
From stdpp Require Import countable.
From S2P Require Import Prelude WalFormat Wal WalInvariant WalRecovery WalTheorems WalStore.
From S2P Require Import Engine EngineInvariant EngineTheorems Streaming Replication.
From S2P Require Import ReplicationTheorems Node Catalog Backup Grpc Api.

Section api.
Context {R T : Type} `{Raft R, Codec Command, BackupCodec T}.

Lemma answer_unchanged {A} (f : A -> answer) (h : handler (Srv R T) A) s st :
  h s = (s, Ret (Err st)) -> answer_with f h s = (s, Ret (Err st)).
Proof. intros E. unfold answer_with. by rewrite (bind_ret _ _ _ _ _ E). Qed.

Lemma checkNamespace_wrong reg ns :
  ns <> ID (Spec reg) ->
  checkNamespace reg ns = Some (mkStatus NotFound [OfCatalog (ErrNamespaceNotFound ns (ID (Spec reg)))]).
Proof. intros Hne. unfold checkNamespace, Validate, Spec in *. by rewrite bool_decide_true. Qed.

Lemma checkNamespace_right reg : checkNamespace reg (ID (Spec reg)) = None.
Proof. unfold checkNamespace, Validate, Spec. by rewrite bool_decide_false by auto. Qed.

(** No request touches another namespace.  Every request of the data services
    that names a namespace the node does not serve is answered NotFound with both
    names, and changes nothing: neither engine, raft, offsets, metrics nor
    files. *)
Theorem wrong_namespace_rejected q (s : Srv R T) :
  request_ns q <> ID (Spec (sv_registry s)) ->
  serve q s = (s, Ret (Err (mkStatus NotFound
    [OfCatalog (ErrNamespaceNotFound (request_ns q) (ID (Spec (sv_registry s))))]))).
Proof.
  intros Hne. pose proof (checkNamespace_wrong _ _ Hne) as Hc.
  destruct q; cbn [serve request_ns] in *; apply answer_unchanged;
    unfold StateGet, StatePut, StateDelete, StateCompareAndSet, guarded, StreamFetch,
      StreamCommitOffset, StreamFetchOffset;
    by rewrite (bind_ret _ _ s s s), Hc by done.
Qed.

(** ** The change stream *)

Definition pb_record (r : WalRecord) : PbChange := pb_change (change_of r).

Lemma next_offset_numbered from recs :
  numbered_from from recs -> 0 < from -> from + len recs < 2 ^ 63 ->
  next_offset from (change_of <$> recs) = from + len recs.
Proof.
  revert from. induction recs as [|r recs IH]; intros from Hn Hf Hb; cbn.
  - rewrite len_nil. lia.
  - destruct Hn as (Hr & Hn). rewrite len_cons in *. pose proof (len_nonneg recs).
    rewrite Hr, u64_small by (unfold is_u64; lia). unfold next_offset in IH.
    rewrite IH by (done || lia). lia.
Qed.

Lemma numbered_drop n h i : numbered_from n h -> numbered_from (n + Z.of_nat i) (drop i h).
Proof.
  revert n i. induction h as [|r h IH]; intros n [|i] Hn; cbn -[Z.of_nat]; try done.
  - by rewrite Z.add_0_r.
  - destruct Hn as (_ & Hn). replace (n + Z.of_nat (S i)) with (n + 1 + Z.of_nat i) by lia. auto.
Qed.

Lemma numbered_take n h i : numbered_from n h -> numbered_from n (take i h).
Proof. intros Hn. rewrite <- (take_drop i h) in Hn. by eapply numbered_app. Qed.

Lemma set_engine_id (s : Srv R T) : set_engine s (sv_engine s) = s.
Proof. by destruct s. Qed.

(** One fetch: the records from the offset on, and the offset behind them. *)
Lemma StreamFetch_spec (s : Srv R T) h a from max :
  engine_inv (sv_engine s) h a -> calm_engine (sv_engine s) ->
  1 <= from <= len h + 1 -> 0 < max -> max * sizeofRecord <= maxAlloc ->
  let recs := take (Z.to_nat max) (drop (Z.to_nat (from - 1)) h) in
  StreamFetch (ID (Spec (sv_registry s))) from max s
  = (s, Ret (Ok (mkFetchResponse (pb_record <$> recs) (from + len recs)))).
Proof.
  intros Hinv (Hf & Hb) Hfrom Hmax Hcap recs. pose proof (ei_log _ _ _ Hinv) as Hl.
  pose proof (wi_hist _ _ (li_wal _ _ Hl)) as (Hnum & _ & _ & Hlen).
  unfold StreamFetch. rewrite (bind_ret _ _ s s s), checkNamespace_right by done.
  rewrite (proj2 (Z.eqb_neq from 0)), (proj2 (Z.leb_gt max 0)) by lia.
  assert (HR : Engine.Fetch from max (sv_engine s)
               = (sv_engine s, Ret (Ok (change_of <$> recs)))).
  { unfold Engine.Fetch. erewrite bind_ret.
    2: { erewrite zoom_ret by (apply (ReadRange_flushed _ h);
           [apply Hl|done|by apply (li_flushed _ _ Hl)|done|lia|done]). reflexivity. }
    rewrite (proj2 (Z.eqb_neq from 0)) by lia. by destruct (sv_engine s). }
  rewrite (bind_ret _ _ s s (Ok (change_of <$> recs))).
  2: { unfold eng. erewrite zoom_ret by exact HR. by rewrite set_engine_id. }
  unfold mret, GoM_ret. do 4 f_equal; [by rewrite <- list_fmap_compose|].
  apply next_offset_numbered; [|lia|].
  - apply numbered_take. replace from with (1 + Z.of_nat (Z.to_nat (from - 1))) at 1 by lia.
    by apply numbered_drop.
  - assert (len recs <= len h) by (unfold recs, len; rewrite length_take, length_drop; lia). lia.
Qed.

(** A consumer: [rounds] fetches, each from the offset the last one returned. *)
Fixpoint consume (rounds : nat) (ns : bytes) (from max : Z) : handler (Srv R T) (list PbChange * Z) :=
  match rounds with
  | O => mret (Ok ([], from))
  | S rounds =>
    r ← StreamFetch ns from max;
    match r with
    | Err st => mret (Err st)
    | Ok resp =>
      rest ← consume rounds ns (fr_NextOffset resp) max;
      match rest with
      | Err st => mret (Err st)
      | Ok (records, next) => mret (Ok (fr_Records resp ++ records, next))
      end
    end
  end.

(** C17: a consumer that follows [next_offset] sees every change once, in commit
    order.  Starting anywhere in the stream, [rounds] fetches of at most [max]
    records return exactly the next [rounds * max] records of the log (all that
    are left, if fewer), without a gap, a repetition or an error, and the offset
    to go on from. *)
Theorem stream_read_once rounds (s : Srv R T) h a from max :
  engine_inv (sv_engine s) h a -> calm_engine (sv_engine s) ->
  1 <= from <= len h + 1 -> 0 < max -> max * sizeofRecord <= maxAlloc ->
  let recs := take (rounds * Z.to_nat max) (drop (Z.to_nat (from - 1)) h) in
  consume rounds (ID (Spec (sv_registry s))) from max s
  = (s, Ret (Ok (pb_record <$> recs, from + len recs))).
Proof.
  intros Hinv Hc Hfrom Hmax Hcap. revert from Hfrom.
  induction rounds as [|rounds IH]; intros from Hfrom recs.
  - subst recs. cbn [consume Nat.mul]. rewrite take_0. unfold mret, GoM_ret, len.
    cbn [length fmap list_fmap]. do 4 f_equal. lia.
  - cbn [consume]. rewrite (bind_ret _ _ _ _ _ (StreamFetch_spec s h a from max Hinv Hc Hfrom Hmax Hcap)).
    cbn [fr_NextOffset fr_Records].
    set (r1 := take (Z.to_nat max) (drop (Z.to_nat (from - 1)) h)).
    assert (Hr1 : length r1 = Nat.min (Z.to_nat max) (length h - Z.to_nat (from - 1)))
      by (unfold r1; by rewrite length_take, length_drop).
    unfold len in *. rewrite (bind_ret _ _ _ _ _ (IH (from + Z.of_nat (length r1)) ltac:(lia))).
    unfold mret, GoM_ret. do 3 f_equal.
    assert (Hsplit : recs = r1 ++ take (rounds * Z.to_nat max)
                       (drop (Z.to_nat (from + Z.of_nat (length r1) - 1)) h)).
    { subst recs r1. set (d := drop (Z.to_nat (from - 1)) h).
      replace (S rounds * Z.to_nat max)%nat with (Z.to_nat max + rounds * Z.to_nat max)%nat by lia.
      rewrite <- (take_take_drop d). f_equal. f_equal. unfold d. rewrite drop_drop.
      destruct (decide (Z.to_nat max <= length h - Z.to_nat (from - 1))%nat).
      - f_equal. lia.
      - rewrite !drop_ge by lia. done. }
    rewrite Hsplit, fmap_app. f_equal. rewrite length_app. lia.
Qed.

(** ** Backup and restore *)

Lemma CreateBackup_spec (s : Srv R T) order path e1 entries eb b :
  let meta := mkMeta 0 (ID (Spec (sv_registry s))) (Engine.LastCommitPosition (sv_engine s)) 0 0 [] in
  let m := written_meta meta (sv_clock s 0%nat) entries eb in
  path <> [] -> fs_files (sv_fs s) !! path = None -> fs_create (sv_fs s) = [] ->
  Snapshot order (sv_engine s) = (e1, Ret entries) -> same_but_clock (sv_engine s) e1 ->
  enc_entries (sv_types s) entries = Ok eb -> enc_payload (sv_types s) (m, entries) = Ok b ->
  exists s1, CreateBackup order path s = (s1, Ret (Ok (backupInfo m))) /\
    fs_files (sv_fs s1) !! path = Some (mkFile b (length b) false None [] []).
Proof.
  intros meta m Hpath Hnew Hcr Hsnap Hsame He Hp. unfold CreateBackup.
  rewrite bool_decide_false, (bind_ret _ _ s s s) by done.
  rewrite (bind_ret _ _ s (set_engine s e1) entries) by (unfold eng; by erewrite zoom_ret by exact Hsnap).
  erewrite (bind_ret (gets _)) by reflexivity. erewrite (bind_ret time_Now) by reflexivity.
  assert (Hlast : Engine.LastCommitPosition (sv_engine (set_engine s e1))
                  = Engine.LastCommitPosition (sv_engine s)).
  { unfold Engine.LastCommitPosition. cbn. by destruct Hsame as (-> & _). }
  rewrite Hlast. fold meta. cbn [sv_clock set_engine].
  destruct (WriteFile_spec (sv_types s) (sv_clock s 0%nat) path meta entries eb b (sv_fs s)
              Hnew Hcr He Hp) as (fs' & HW & Hf).
  erewrite bind_ret by (erewrite zoom_ret by exact HW; reflexivity).
  eexists. split; [reflexivity|]. cbn [sv_fs set_fs]. by rewrite Hf, lookup_insert_eq.
Qed.

Lemma RestoreBackup_spec (s : Srv R T) path f m entries h a :
  path <> [] -> fs_files (sv_fs s) !! path = Some f -> Read (sv_types s) (f_data f) = Ok (m, entries) ->
  sv_node s = None -> engine_inv (sv_engine s) h a -> calm_engine (sv_engine s) -> room [] entries ->
  exists s' h' a', RestoreBackup path s = (s', Ret (Ok (backupInfo m))) /\
    engine_inv (sv_engine s') h' a' /\ e_index (sv_engine s') = load_index 0 entries ∅ /\
    sv_registry s' = sv_registry s.
Proof.
  intros Hpath Hf Hread Hnode Hinv Hc Hroom. unfold RestoreBackup.
  rewrite bool_decide_false, (bind_ret _ _ s s s) by done.
  unfold ReadFile. rewrite Hf, Hread, Hnode.
  destruct (reset_load_calm entries _ h a Hinv Hc Hroom)
    as (e0 & e' & h' & a' & HR & HL & Hinv' & _ & Hidx).
  rewrite (bind_ret _ _ s (set_engine s e0) None) by (unfold eng; by erewrite zoom_ret by exact HR).
  rewrite (bind_ret _ _ (set_engine s e0) (set_engine s e') None)
    by (unfold eng; by erewrite zoom_ret by exact HL).
  by exists (set_engine s e'), h', a'.
Qed.
End api.

(** C18: a restored backup reads like the original.  On a single node whose codec
    does not fail, [CreateBackup] to a new path succeeds; [RestoreBackup] of that
    file on any later state of the process succeeds, reports the same recovery
    point, count and checksum, and from then on every key reads the value it had
    at the time of the backup, or is absent or expired as it was there. *)
Theorem backup_restores_reads {R T} `{Raft R, Codec Command, BackupCodecLaws T}
    (s : Srv R T) h a order path t :
  engine_inv (sv_engine s) h a -> order ≡ₚ map_to_list (e_index (sv_engine s)) ->
  (forall n, e_clock (sv_engine s) n <= t) -> path <> [] ->
  fs_files (sv_fs s) !! path = None -> fs_create (sv_fs s) = [] ->
  (forall es, exists eb, enc_entries (sv_types s) es = Ok eb) ->
  (forall p, exists b, enc_payload (sv_types s) p = Ok b) ->
  exists s1 info entries, CreateBackup order path s = (s1, Ret (Ok info)) /\
    (Snapshot order (sv_engine s)).2 = Ret entries /\
    bi_RecoveryPoint info = Engine.LastCommitPosition (sv_engine s) /\
    forall s2 h2 a2, fs_files (sv_fs s2) !! path = fs_files (sv_fs s1) !! path ->
      sv_types s2 = sv_types s -> sv_node s2 = None -> engine_inv (sv_engine s2) h2 a2 ->
      calm_engine (sv_engine s2) -> room [] entries ->
      exists s3, RestoreBackup path s2 = (s3, Ret (Ok info)) /\
        forall k, fst <$> visible t (e_index (sv_engine s3) !! k)
                  = fst <$> visible t (e_index (sv_engine s) !! k).
Proof.
  intros Hinv Hord Ht Hpath Hnew Hcr Hce Hcp.
  destruct (snapshot_loop_spec t order [] (sv_engine s) Ht) as (e1 & kept & Hsnap & Hsame & _).
  set (entries := [] ++ (uncurry snapshot_entry <$> kept)) in Hsnap.
  destruct (Hce entries) as (eb & He).
  destruct (Hcp (written_meta (mkMeta 0 (ID (Spec (sv_registry s)))
                   (Engine.LastCommitPosition (sv_engine s)) 0 0 []) (sv_clock s 0%nat) entries eb,
                 entries)) as (b & Hp).
  destruct (CreateBackup_spec s order path e1 entries eb b Hpath Hnew Hcr Hsnap Hsame He Hp)
    as (s1 & HC & Hf).
  exists s1. eexists. exists entries. split; [exact HC|].
  split; [unfold Snapshot; by rewrite Hsnap|]. split; [done|].
  intros s2 h2 a2 Hf2 Hty Hnode Hinv2 Hc2 Hroom. rewrite Hf in Hf2.
  rewrite <- Hty in He.
  destruct (RestoreBackup_spec s2 path _ _ entries h2 a2 Hpath Hf2
              (Read_ok _ _ _ _ eb (dec_enc_payload _ _ _ Hp) eq_refl He eq_refl)
              Hnode Hinv2 Hc2 Hroom) as (s3 & h3 & a3 & HR & _ & Hidx & _).
  exists s3. split; [exact HR|]. intros k. rewrite Hidx. by eapply snapshot_load_reads.
Qed.

(** ** A server for the witnesses *)

#[local] Instance demo_cmd_codec : Codec Command := countable_codec Command.
#[local] Instance demo_raft : Raft (list bytes) := single_raft.
#[local] Instance demo_backup_codec : BackupCodec byte := numbered_codec.

Definition demo_srv (e : Engine) (ns : bytes) (fs : FS) : Srv (list bytes) byte :=
  mkSrv e None (mkRegistry (mkSpec ns ($"cache"))) (Some ∅) fresh_offsets at100 fs x40.

Definition srv1 : Srv (list bytes) byte := demo_srv after_put1 ($"ns") (mkFS ∅ []).

Lemma wrong_namespace_rejected_witness :
  serve (RDelete ($"other") ($"k") []) srv1
  = (srv1, Ret (Err (mkStatus NotFound [OfCatalog (ErrNamespaceNotFound ($"other") ($"ns"))]))).
Proof. exact (wrong_namespace_rejected (RDelete ($"other") ($"k") []) srv1 ltac:(done)). Defined.

Lemma stream_read_once_witness :
  consume 3 ($"ns") 1 10 srv1
  = (srv1, Ret (Ok ([mkPbChange 1 CHANGE_KIND_PUT ($"k") ($"v1")], 2))).
Proof.
  refine (stream_read_once 3 srv1 log1 log1 1 10 (proj1 after_put1_inv) _ _ _ _).
  - by vm_compute.
  - by vm_compute.
  - done.
  - done.
Defined.

Lemma backup_restores_reads_witness :
  exists s1 info entries,
    CreateBackup [($"k", mkEntry ($"v1") 1 None)] ($"b") srv1 = (s1, Ret (Ok info)) /\
    (Snapshot [($"k", mkEntry ($"v1") 1 None)] after_put1).2 = Ret entries /\
    bi_RecoveryPoint info = Engine.LastCommitPosition after_put1 /\
    forall s2 h2 a2, fs_files (sv_fs s2) !! $"b" = fs_files (sv_fs s1) !! $"b" ->
      sv_types s2 = x40 -> sv_node s2 = None -> engine_inv (sv_engine s2) h2 a2 ->
      calm_engine (sv_engine s2) -> room [] entries ->
      exists s3, RestoreBackup ($"b") s2 = (s3, Ret (Ok info)) /\
        forall k, fst <$> visible 100 (e_index (sv_engine s3) !! k)
                  = fst <$> visible 100 (e_index after_put1 !! k).
Proof.
  refine (@backup_restores_reads _ _ demo_raft demo_cmd_codec demo_backup_codec numbered_codec_laws
            srv1 log1 log1 [($"k", mkEntry ($"v1") 1 None)] ($"b") 100
            (proj1 after_put1_inv) _ _ _ _ _ _ _).
  - vm_compute. constructor. constructor.
  - done.
  - done.
  - done.
  - done.
  - intros es. by eexists.
  - intros p. by eexists.
Defined.

(** The commit-position gauge can move back.  It is set from every mutation
    response, and a deduplicated retry responds with the old commit position: the
    gauge then reports an older position than one the clients have seen. *)
Theorem gauge_moves_back :
  let s0 := demo_srv (fresh_engine [] at100) ($"ns") (mkFS ∅ []) in
  let put v id := StatePut ($"ns") ($"k") v 0 id in
  let s1 := (put ($"v1") ($"req-1") s0).1 in
  let s2 := (put ($"v2") ($"req-2") s1).1 in
  let s3 := (put ($"v1") ($"req-1") s2).1 in
  (sv_gauge s2 ≫= fun g => g !! $"ns") = Some 2 /\
  (sv_gauge s3 ≫= fun g => g !! $"ns") = Some 1 /\
  Engine.LastCommitPosition (sv_engine s3) = 2.
Proof. cbv zeta. split; [|split]; vm_compute; reflexivity. Qed.

(** A restore does not look at the namespace of the backup.  A valid backup of
    another namespace replaces the whole state of the node, which goes on serving
    the restored entries under its own namespace. *)
Theorem restore_ignores_namespace {R T} `{Raft R, Codec Command, BackupCodec T}
    (s : Srv R T) path f m entries h a :
  path <> [] -> fs_files (sv_fs s) !! path = Some f -> Read (sv_types s) (f_data f) = Ok (m, entries) ->
  sv_node s = None -> engine_inv (sv_engine s) h a -> calm_engine (sv_engine s) -> room [] entries ->
  NamespaceID m <> ID (Spec (sv_registry s)) ->
  exists s', RestoreBackup path s = (s', Ret (Ok (backupInfo m))) /\
    e_index (sv_engine s') = load_index 0 entries ∅ /\ sv_registry s' = sv_registry s.
Proof.
  intros Hpath Hf Hread Hnode Hinv Hc Hroom _.
  destruct (RestoreBackup_spec s path f m entries h a Hpath Hf Hread Hnode Hinv Hc Hroom)
    as (s' & _ & _ & HR & _ & Hidx & Hreg). by exists s'.
Qed.

Definition foreign_meta : Meta :=
  written_meta demo_meta 7 demo_entries (x40 :: pos_bytes (countable.encode demo_entries)).
Definition foreign_file : File :=
  mkFile (x40 :: pos_bytes (countable.encode (foreign_meta, demo_entries))) 0 false None [] [].
Definition tenant2 : Srv (list bytes) byte :=
  demo_srv (fresh_engine [] at100) ($"tenant-2") (mkFS {[ $"b" := foreign_file ]} []).

Lemma restore_ignores_namespace_witness :
  exists s', RestoreBackup ($"b") tenant2 = (s', Ret (Ok (backupInfo foreign_meta))) /\
    e_index (sv_engine s') = load_index 0 demo_entries ∅ /\ sv_registry s' = sv_registry tenant2.
Proof.
  refine (restore_ignores_namespace tenant2 ($"b") foreign_file foreign_meta demo_entries [] []
            _ _ _ _ (fresh_inv _ _) _ _ _).
  - done.
  - apply lookup_singleton_eq.
  - eapply Read_ok; [exact (numbered_codec_laws x40 _ _ eq_refl)|done..].
  - done.
  - done.
  - by_decide.
  - done.
Defined.
