(* ===== verification/Services.v ===== *)
(** * The services as a whole

    Every data request a client can send to a single node is answered, and what a
    replicated write has acknowledged is what the node then serves. *)

From Stdlib Require Import ZArith Lia.
From S2P Require Import Prelude WalFormat Wal WalTheorems WalStore Engine EngineInvariant EngineTheorems.
From S2P Require Import EngineTotal Streaming Replication ReplicationTheorems Node Catalog Backup Grpc Observability.
From S2P Require Import Api ApiTheorems.

(** ** Every request is answered *)

(** The requests the wire format can carry: an unsigned 64-bit offset and a
    signed 32-bit limit. *)
Definition on_wire (q : request) : Prop :=
  match q with
  | RFetch _ from max => 0 <= from < 2 ^ 64 /\ - 2 ^ 31 <= max < 2 ^ 31
  | _ => True
  end.

Lemma ReadRange_returns from limit :
  0 <= from <= 2 ^ 63 -> limit < 2 ^ 31 ->
  returns (fun w => w_leading w = false) (ReadRange from limit).
Proof.
  intros Hf Hl w Hw. unfold ReadRange. rewrite (bind_ret _ _ w w w) by done.
  destruct (from <? 1) eqn:E1; [by do 2 eexists|]. bool_prop.
  rewrite i64_small by (unfold is_i64; lia).
  destruct (len (w_byteOffsets w) <=? from - 1) eqn:E2; [by do 2 eexists|].
  destruct (limit <=? 0) eqn:E3; [by do 2 eexists|]. cbn [orb]. bool_prop.
  assert (Hs : returns (fun w => w_leading w = false) (zoom w_file set_file syscall)).
  { eapply (returns_zoom _ (fun _ => True)); [done|done|]. intros f _. unfold syscall.
    destruct (f_closed f); by do 2 eexists. }
  apply (returns_bind _ _ _ Hs); [|done]. intros [e|]; [apply returns_ret|].
  apply returns_bind; [apply returns_gets|]. intros f.
  rewrite (proj2 (Z.ltb_ge _ _)) by (unfold maxAlloc, sizeofRecord; lia). apply returns_ret.
Qed.

Lemma Fetch_returns from limit :
  0 <= from <= 2 ^ 63 -> limit < 2 ^ 31 -> returns idle (Engine.Fetch from limit).
Proof.
  intros Hf Hl. apply returns_bind.
  - eapply returns_zoom; [..|by apply (ReadRange_returns from limit)]; done.
  - intros [recs [e|]]; apply returns_ret.
Qed.

Lemma Commit_returns group o :
  returns (fun s => w_leading (o_log s) = false) (Commit group o).
Proof.
  apply returns_bind; [apply returns_get|]. intros s.
  destruct (match o_offsets s !! group with Some c => if o <? c then Some c else None | None => None end);
    [apply returns_ret|].
  apply returns_bind; [eapply returns_zoom; [..|apply Append_returns]; done|].
  intros [pos|e]; [|apply returns_ret].
  apply returns_bind; [by apply returns_modify|]. intros _. apply returns_ret.
Qed.

Section total.
Context {R T : Type} `{Raft R, Codec Command, BackupCodec T}.

(** A single node between two requests. *)
Definition quiet (s : Srv R T) : Prop :=
  sv_node s = None /\ idle (sv_engine s) /\ w_leading (o_log (sv_offsets s)) = false.

Lemma eng_returns {A} (m : GoM Engine A) : returns idle m -> returns quiet (eng m).
Proof.
  intros Hm. eapply returns_zoom; [..|exact Hm].
  - by intros s (_ & He & _).
  - intros s e (Hn & _ & Ho) He. by split_and!.
Qed.

Lemma response_returns out epoch : returns quiet (response (R := R) (T := T) out epoch).
Proof.
  apply returns_bind; [apply returns_get|]. intros s.
  apply returns_bind; [|intros _; apply returns_ret]. by apply returns_modify.
Qed.

Lemma guarded_returns {A} ns key (body : handler (Srv R T) A) :
  returns quiet body -> returns quiet (guarded ns key body).
Proof.
  intros Hb. apply returns_bind; [apply returns_get|]. intros s.
  destruct (checkNamespace _ _); [apply returns_ret|]. destruct (len key =? 0); [apply returns_ret|done].
Qed.

(** The body of a handler that looks at the node: on a single node it is the
    branch without replication. *)
Lemma single_returns {A} (f : Srv R T -> R -> handler (Srv R T) A) (g : handler (Srv R T) A) :
  returns quiet g ->
  returns quiet (s ← get_state; match sv_node s with Some r => f s r | None => g end).
Proof.
  intros Hg s Hs. rewrite (bind_ret _ _ s s s) by done. pose proof Hs as (-> & _). by apply Hg.
Qed.

Lemma mutation_answer_returns (m : GoM Engine (result engine_error Outcome)) name :
  returns idle m ->
  returns quiet (res ← eng m;
    match res with
    | Err e => fail (R := R) (T := T) Internal [Text name; OfEngine e]
    | Ok out => resp ← response out 0; mret (Ok resp)
    end).
Proof.
  intros Hm. apply returns_bind; [by apply eng_returns|]. intros [out|e]; [|apply returns_ret].
  apply returns_bind; [apply response_returns|]. intros resp. apply returns_ret.
Qed.

Lemma answer_with_returns {A} (f : A -> answer) (h : handler (Srv R T) A) :
  returns quiet h -> returns quiet (answer_with f h).
Proof. intros Hh. apply returns_bind; [done|]. intros r. apply returns_ret. Qed.

(** The requests that overrun the offset table: a fetch from the namespace the
    node serves at an offset above 2^63. *)
Definition overruns (q : request) (s : Srv R T) : bool :=
  match q with
  | RFetch ns from _ =>
    match checkNamespace (sv_registry s) ns with None => 2 ^ 63 <? from | Some _ => false end
  | _ => false
  end.

(** Such a fetch panics in [ReadRange]. *)
Lemma serve_overruns q (s : Srv R T) :
  on_wire q -> len (w_byteOffsets (e_log (sv_engine s))) < 2 ^ 63 -> overruns q s = true ->
  serve q s = (s, Panic ($"index out of range")).
Proof.
  destruct q as [| | | |ns from max| |]; try done. cbn [overruns on_wire serve]. intros [Hf Hm] Hl Ho.
  unfold answer_with, StreamFetch. unfold mbind, GoM_bind, get_state, gets.
  destruct (checkNamespace _ _); [done|]. bool_prop.
  rewrite (proj2 (Z.eqb_neq from 0)) by lia.
  unfold eng, Engine.Fetch, zoom, mbind, GoM_bind.
  rewrite ReadRange_huge; [by destruct s as [[] ? ? ? ? ? ? ?]|lia| |done].
  destruct (max <=? 0) eqn:E; bool_prop; unfold defaultMaxRecords; lia.
Qed.

Lemma StreamFetch_returns ns from max (s : Srv R T) :
  quiet s -> on_wire (RFetch ns from max) -> overruns (RFetch ns from max) s = false ->
  exists s' r, StreamFetch ns from max s = (s', Ret r) /\ quiet s'.
Proof.
  intros Hs [Hf Hm] Ho. cbn in Ho. unfold StreamFetch. rewrite (bind_ret _ _ s s s) by done.
  destruct (checkNamespace _ _); [by do 2 eexists|]. bool_prop. revert s Hs.
  destruct (from =? 0); [apply returns_ret|].
  apply returns_bind; [apply eng_returns, Fetch_returns; [lia|]|].
  - destruct (max <=? 0); unfold defaultMaxRecords; lia.
  - intros [recs|e]; apply returns_ret.
Qed.

Lemma serve_returns q (s : Srv R T) :
  quiet s -> on_wire q -> overruns q s = false -> exists s' r, serve q s = (s', Ret r) /\ quiet s'.
Proof.
  intros Hs Hq Ho.
  destruct q as [ns k|ns k v ttl id|ns k id|ns k v n ttl id|ns from max|ns g o|ns g]; cbn [serve].
  5: { destruct (StreamFetch_returns ns from max s Hs Hq Ho) as (s' & r & E & Hs').
       unfold answer_with. rewrite (bind_ret _ _ _ _ _ E). by do 2 eexists. }
  all: clear Hq Ho; revert s Hs; apply answer_with_returns.
  - apply guarded_returns, returns_bind; [apply eng_returns, Get_returns|]. intros v. apply returns_ret.
  - apply guarded_returns, single_returns, mutation_answer_returns, Put_returns.
  - apply guarded_returns, single_returns, mutation_answer_returns, Delete_returns.
  - apply guarded_returns, single_returns, returns_bind; [apply eng_returns, CompareAndSet_returns|].
    intros [out|[]]; [|apply returns_ret..].
    apply returns_bind; [apply response_returns|]. intros resp. apply returns_ret.
  - apply returns_bind; [apply returns_get|]. intros s. destruct (checkNamespace _ _); [apply returns_ret|].
    destruct (bool_decide _); [apply returns_ret|].
    apply returns_bind; [|intros [c [[]|]]; apply returns_ret].
    eapply returns_zoom; [..|apply Commit_returns].
    + by intros s' (_ & _ & Ho).
    + intros s' o' (Hn & He & _) Ho. by split_and!.
  - apply returns_bind; [apply returns_get|]. intros s. destruct (checkNamespace _ _); [apply returns_ret|].
    destruct (bool_decide _); apply returns_ret.
Qed.

(** C21: a single node answers every data request of the wire format but one
    kind.  Whatever its disk does, a request gets a response or a status, its
    handler does not wait, and the node is ready for the next one; only a fetch
    from the namespace the node serves at an offset above 2^63 panics, and
    changes nothing before.  The offset table is assumed shorter than 2^63, as
    every slice is. *)
Theorem every_request_answered q (s : Srv R T) :
  quiet s -> on_wire q -> len (w_byteOffsets (e_log (sv_engine s))) < 2 ^ 63 ->
  if overruns q s then serve q s = (s, Panic ($"index out of range"))
  else exists s' r, serve q s = (s', Ret r) /\ quiet s'.
Proof.
  intros Hs Hq Hl. destruct (overruns q s) eqn:Ho; [by apply serve_overruns|by apply serve_returns].
Qed.
End total.

(** ** Replicated writes *)

Section replicated.
Context {R T : Type} `{RaftLaws R, !CodecLaws Command, BackupCodec T}.

(** What a new commit of a put leaves in the index. *)
Lemma ApplyPut_committed k v x id e e' out :
  ApplyPut k v x id e = (e', Ret (Ok out)) -> o_Deduplicated out = false ->
  e_index e' !! k = Some (mkEntry v (o_Version out) (expiry_of x)).
Proof.
  unfold ApplyPut. rewrite (bind_ret _ _ e e e) by done.
  destruct (dedup_hit id e) as [o|] eqn:Hd.
  { apply dedup_hit_flag in Hd. intros [= _ <-]. congruence. }
  unfold commit_put, committed_at, mbind, GoM_bind.
  destruct (append _ e) as [e1 [[pos|err]| |]]; try done. cbn. intros [= <- <-] _.
  case_bool_decide; apply lookup_insert_eq.
Qed.

(** The expiry a replicated put carries: resolved at the node that proposes it. *)
Definition proposed_expiry (s : Srv R T) (ttlSeconds : Z) : Z :=
  if ttlSeconds <=? 0 then 0 else ttl_expiry (sv_clock s 0%nat) ttlSeconds.

Lemma resolveExpiry_spec ttl (s : Srv R T) :
  exists s1, resolveExpiry ttl s = (s1, Ret (proposed_expiry s ttl)) /\
    sv_engine s1 = sv_engine s /\ sv_registry s1 = sv_registry s.
Proof. unfold resolveExpiry, proposed_expiry. destruct (ttl <=? 0); by eexists. Qed.

Lemma StateGet_index ns k (s : Srv R T) :
  checkNamespace (sv_registry s) ns = None -> (len k =? 0) = false ->
  exists s', StateGet ns k s
    = (s', Ret (Ok (match visible (e_clock (sv_engine s) 0%nat) (e_index (sv_engine s) !! k) with
                    | Some (value, version) => mkGetResponse value version true
                    | None => mkGetResponse [] 0 false
                    end))).
Proof.
  intros Hc Hk. destruct (Get_spec k (sv_engine s)) as (e2 & _ & EG).
  unfold StateGet, guarded. rewrite (bind_ret _ _ s s s), Hc, Hk by done.
  erewrite bind_ret; [|unfold eng; by erewrite zoom_ret by exact EG]. by eexists.
Qed.

(** C20: a write that a replicated node acknowledges is applied and served.  If a put
    through raft is answered with a response that is not a repetition, then among
    the commands this node applied during the call is the put itself, behind some
    and before others; applying it bound the key to the value at the version of
    the response, with the expiry resolved at the proposer; and if none of the
    commands applied since touches the key, a read of it that follows returns the
    value at that version, unless it has expired by the node's clock. *)
Theorem replicated_put_served (s s' : Srv R T) r ns k v ttl id resp :
  sv_node s = Some r -> StatePut ns k v ttl id s = (s', Ret (Ok resp)) -> mr_Deduplicated resp = false ->
  let ent := mkEntry v (mr_Version resp) (expiry_of (proposed_expiry s ttl)) in
  exists before e0 e1 out after,
    apply_logs before (sv_engine s) = (e0, Ret tt) /\
    apply_command (mkCommand OpPut k v (proposed_expiry s ttl) 0 id []) e0 = (e1, Ret (out, None)) /\
    apply_logs after e1 = (sv_engine s', Ret tt) /\
    e_index e1 !! k = Some ent /\
    (Forall (leaves_key k) after ->
     exists s'', StateGet ns k s'
       = (s'', Ret (Ok (if live (e_clock (sv_engine s') 0%nat) ent
                        then mkGetResponse v (mr_Version resp) true
                        else mkGetResponse [] 0 false)))).
Proof.
  intros Hn. unfold StatePut, guarded. rewrite (bind_ret _ _ s s s) by done.
  destruct (checkNamespace (sv_registry s) ns) eqn:Hc; [done|].
  destruct (len k =? 0) eqn:Hk; [done|]. rewrite (bind_ret _ _ s s s), Hn by done.
  destruct (resolveExpiry_spec ttl s) as (s1 & E1 & He & Hreg). rewrite (bind_ret _ _ _ _ _ E1).
  unfold mbind at 1, GoM_bind at 1, node. rewrite He.
  destruct (Propose _ (r, sv_engine s)) as [[r1 e2] [res| |]] eqn:HP; try done.
  destruct res as [result|er]; [|done].
  destruct (Propose_applied _ _ _ _ _ _ HP)
    as (before & e0 & e1 & out & err & after & Hb & HA & Hout & Herr & Hafter).
  unfold replicatedResponse. rewrite Herr. destruct err as [[]|]; try done.
  { by case_match. }
  unfold response, mbind, GoM_bind. cbn. intros [= <- <-] Hded. rewrite Hout in *. cbn in Hded.
  assert (Hidx : e_index e1 !! k
                 = Some (mkEntry v (o_Version out) (expiry_of (proposed_expiry s ttl)))).
  { unfold apply_command in HA. cbn in HA. unfold mbind, GoM_bind in HA.
    destruct (ApplyPut k v _ id e0) as [e3 [[o|e]| |]] eqn:EP; try done. cbn in HA.
    injection HA as -> ->. by apply (ApplyPut_committed _ _ _ _ _ _ _ EP). }
  exists before, e0, e1, out, after. split_and!; try done. intros Hall.
  rewrite <- Hreg in Hc.
  match goal with |- context [StateGet ns k ?t] =>
    destruct (StateGet_index ns k t Hc Hk) as (s'' & HG) end.
  exists s''. rewrite HG. cbn [sv_engine set_gauge set_node].
  rewrite (apply_logs_other _ _ _ _ Hall Hafter), Hidx. cbn. by destruct (live _ _).
Qed.
End replicated.

(** ** Witnesses *)

#[local] Existing Instances demo_cmd_codec demo_raft demo_backup_codec.

Lemma every_request_answered_witness :
  (exists s' r, serve (RFetch ($"ns") 1 10) srv1 = (s', Ret r) /\ quiet s') /\
  serve (RFetch ($"ns") (2 ^ 63 + 1) 10) srv1 = (srv1, Panic ($"index out of range")).
Proof.
  split.
  - refine (every_request_answered (RFetch ($"ns") 1 10) srv1 _ _ _); by vm_compute.
  - refine (every_request_answered (RFetch ($"ns") (2 ^ 63 + 1) 10) srv1 _ _ _); by vm_compute.
Defined.

(** A node of a cluster whose other clients put key [j] behind the next
    proposal. *)
Definition put_j : bytes := pos_bytes (countable.encode (cmd_put ($"j") ($"w"))).

Definition leader1 : Srv (list bytes) byte :=
  mkSrv (fresh_engine [] at100) (Some [put_j]) (mkRegistry (mkSpec ($"ns") ($"durable"))) None
    fresh_offsets at100 (mkFS ∅ []) x40.

Definition after_rput : Srv (list bytes) byte :=
  (@StatePut _ _ busy_raft _ ($"ns") ($"k") ($"v") 60 [] leader1).1.

Lemma replicated_put_served_witness :
  (StateGet ($"ns") ($"k") after_rput).2 = Ret (Ok (mkGetResponse ($"v") 1 true)) /\
  exists before e0 e1 out after,
    apply_logs before (sv_engine leader1) = (e0, Ret tt) /\
    apply_command (mkCommand OpPut ($"k") ($"v") (100 + 60 * second) 0 [] []) e0
      = (e1, Ret (out, None)) /\
    apply_logs after e1 = (sv_engine after_rput, Ret tt) /\
    e_index e1 !! ($"k") = Some (mkEntry ($"v") 1 (Some (100 + 60 * second))) /\
    (Forall (leaves_key ($"k")) after ->
     exists s'', StateGet ($"ns") ($"k") after_rput
       = (s'', Ret (Ok (if live (e_clock (sv_engine after_rput) 0%nat)
                             (mkEntry ($"v") 1 (Some (100 + 60 * second)))
                        then mkGetResponse ($"v") 1 true else mkGetResponse [] 0 false)))).
Proof.
  split; [vm_compute; reflexivity|].
  refine (@replicated_put_served (list bytes) byte busy_raft demo_cmd_codec busy_raft_laws
            (countable_codec_laws Command) leader1 after_rput [put_j] ($"ns") ($"k") ($"v") 60 []
            (mkMutationResponse ($"ns") 0 1 1 ($"durable") false 1) eq_refl _ eq_refl).
  refine (with_result (@StatePut _ _ busy_raft _ ($"ns") ($"k") ($"v") 60 [] leader1) _ _).
  vm_compute. reflexivity.
Defined.
