(* ===== verification/Admin.v ===== *)
(** * Theorems about the admin service (internal/api/admin_server.go)

    What export, usage and deletion report and do, and what a deletion means for
    the consumers of the change stream. *)

From Stdlib Require Import ZArith Lia.
From S2P Require Import Prelude WalFormat Wal WalTheorems WalStore Engine EngineInvariant EngineTheorems.
From S2P Require Import Streaming Replication ReplicationTheorems Node Catalog Backup Grpc.
From S2P Require Import Observability Api ApiTheorems.

(** The bindings a reader sees at time [t]. *)
Definition live_bindings (t : Z) (order : list (bytes * entry)) : list (bytes * entry) :=
  filter (fun b => live t b.2 = true) order.

(** Reading a clock that stands still. *)
Lemma expired_at t ent e :
  (forall n, e_clock e n = t) ->
  exists e', same_but_clock e e' /\ (forall n, e_clock e' n = t) /\
    expired ent e = (e', Ret (negb (live t ent))).
Proof.
  intros Ht. unfold expired, live. destruct (expiresAt ent) as [x|].
  - eexists. split; [|split; [|unfold Now, mbind, GoM_bind; cbn; rewrite Ht, negb_involutive; reflexivity]].
    + done.
    + intros n. apply Ht.
  - by exists e.
Qed.

Lemma Snapshot_at t order e :
  (forall n, e_clock e n = t) ->
  exists e', same_but_clock e e' /\ (forall n, e_clock e' n = t) /\
    Snapshot order e = (e', Ret (uncurry snapshot_entry <$> live_bindings t order)).
Proof.
  unfold Snapshot. rewrite <- (app_nil_l (uncurry snapshot_entry <$> _)).
  generalize (@nil SnapshotEntry) as out. revert e.
  induction order as [|[k ent] order IH]; intros e out Ht; cbn [snapshot_loop].
  - exists e. cbn. by rewrite app_nil_r.
  - destruct (expired_at t ent e Ht) as (e1 & Hs1 & Ht1 & E). unfold live_bindings. rewrite filter_cons.
    cbn [snd]. destruct (live t ent); cbn in E.
    + destruct (IH e1 (out ++ [snapshot_entry k ent]) Ht1) as (e' & Hs' & Ht' & E').
      exists e'. split; [by etrans|]. split; [done|]. rewrite (bind_ret _ _ _ _ _ E), E'.
      by rewrite <- app_assoc.
    + destruct (IH e1 out Ht1) as (e' & Hs' & Ht' & E').
      exists e'. split; [by etrans|]. split; [done|]. by rewrite (bind_ret _ _ _ _ _ E), E'.
Qed.

(** A binding that is live is one a reader sees, and the other way round. *)
Lemma live_bindings_visible (t : Z) (m : gmap bytes entry) (order : list (bytes * entry)) (k v : bytes) :
  order ≡ₚ map_to_list m ->
  (exists ent, (k, ent) ∈ live_bindings t order /\ value ent = v) <->
  fst <$> visible t (m !! k) = Some v.
Proof.
  intros Hord. unfold live_bindings, visible. split.
  - intros (ent & (Hl & Hin)%list_elem_of_filter & Hv). rewrite Hord, elem_of_map_to_list in Hin.
    rewrite Hin. cbn in Hl. rewrite Hl. cbn. by rewrite Hv.
  - destruct (m !! k) as [ent|] eqn:Hk; [|done]. destruct (live t ent) eqn:Hl; [|done].
    cbn. intros [= <-]. exists ent. split; [|done]. apply list_elem_of_filter. split; [done|].
    by rewrite Hord, elem_of_map_to_list.
Qed.

Lemma live_bindings_keys (t : Z) (m : gmap bytes entry) (order : list (bytes * entry)) :
  order ≡ₚ map_to_list m -> NoDup ((live_bindings t order).*1).
Proof.
  intros Hord. eapply sublist_NoDup; [|apply fmap_sublist, sublist_filter].
  rewrite Hord. apply NoDup_fst_map_to_list.
Qed.

(** The wrapping sum of sizes is the sum while it fits 64 bits. *)
Lemma usage_sum (l : list SnapshotEntry) n :
  0 <= n -> n + fold_right Z.add 0 ((fun e => len (s_Key e) + len (s_Value e)) <$> l) < 2 ^ 63 ->
  fold_left (fun n e => i64 (n + (len (s_Key e) + len (s_Value e)))) l n
  = n + fold_right Z.add 0 ((fun e => len (s_Key e) + len (s_Value e)) <$> l).
Proof.
  revert n. induction l as [|e l IH]; intros n Hn Hs; cbn in *; [lia|].
  pose proof (len_nonneg (s_Key e)). pose proof (len_nonneg (s_Value e)).
  assert (Hl : 0 <= fold_right Z.add 0 ((fun e => len (s_Key e) + len (s_Value e)) <$> l)).
  { clear. induction l as [|e l IH]; cbn; [lia|].
    pose proof (len_nonneg (s_Key e)). pose proof (len_nonneg (s_Value e)). lia. }
  rewrite i64_small by (unfold is_i64; lia). rewrite IH; lia.
Qed.

Section admin.
Context {R T : Type} `{Raft R, Codec Command, BackupCodec T}.

Lemma eng_Snapshot t order (s : Srv R T) :
  (forall n, e_clock (sv_engine s) n = t) ->
  exists e', same_but_clock (sv_engine s) e' /\
    eng (Snapshot order) s
    = (set_engine s e', Ret (uncurry snapshot_entry <$> live_bindings t order)).
Proof.
  intros Ht. destruct (Snapshot_at t order (sv_engine s) Ht) as (e' & Hs & _ & E).
  exists e'. split; [done|]. unfold eng. by erewrite zoom_ret by exact E.
Qed.

(** C22: an export is what readers see: every key is exported at most once, a key is
    exported with a value exactly if a reader sees that value, and the usage
    counts the same keys and the bytes of them and their values. *)
Theorem export_exact (t : Z) (order : list (bytes * entry)) (s : Srv R T) :
  (forall n, e_clock (sv_engine s) n = t) -> order ≡ₚ map_to_list (e_index (sv_engine s)) ->
  exists s1 s2 entries bytes_used,
    ExportNamespace order s = (s1, Ret (Ok entries)) /\
    GetUsage order s = (s2, Ret (Ok (mkUsage (ID (Spec (sv_registry s))) (len entries) bytes_used))) /\
    NoDup (s_Key <$> entries) /\
    (forall k v, (exists x, mkSnapshotEntry k v x ∈ entries) <->
                 fst <$> visible t (e_index (sv_engine s) !! k) = Some v) /\
    (fold_right Z.add 0 ((fun e => len (s_Key e) + len (s_Value e)) <$> entries) < 2 ^ 63 ->
     bytes_used = fold_right Z.add 0 ((fun e => len (s_Key e) + len (s_Value e)) <$> entries)).
Proof.
  intros Ht Hord. destruct (eng_Snapshot t order s Ht) as (e' & _ & E).
  unfold ExportNamespace, GetUsage. rewrite (bind_ret _ _ _ _ _ E), (bind_ret _ _ s s s) by done.
  rewrite (bind_ret _ _ _ _ _ E). set (entries := uncurry snapshot_entry <$> live_bindings t order).
  assert (Hid : (fun e => mkSnapshotEntry (s_Key e) (s_Value e) (s_ExpiresAtUnixNano e)) <$> entries = entries).
  { rewrite <- (list_fmap_id entries) at 2. apply list_fmap_ext. by intros ? [] ?. }
  rewrite Hid. do 4 eexists. split; [reflexivity|]. split; [reflexivity|]. split_and!.
  - unfold entries. rewrite <- list_fmap_compose.
    replace ((s_Key ∘ uncurry snapshot_entry) <$> live_bindings t order) with ((live_bindings t order).*1)
      by (apply list_fmap_ext; by intros ? [] ?).
    by eapply live_bindings_keys.
  - intros k v. rewrite <- (live_bindings_visible t _ order k v Hord). unfold entries. split.
    + intros (x & ([k' ent] & [= -> -> _] & Hin)%list_elem_of_fmap). by exists ent.
    + intros (ent & Hin & <-). exists (default 0 (expiresAt ent)).
      apply list_elem_of_fmap. by exists (k, ent).
  - intros Hsum. rewrite usage_sum by lia. lia.
Qed.

(** C23: a deletion asks for the namespace's name and then removes everything readers
    see: with another name nothing changes; with the right one, on a single node
    whose disk does not fail, the answer is the number of keys readers saw (as an
    int32), every key is gone, commit positions start over, and the consumers'
    offsets are kept. *)
Theorem delete_namespace_exact (t : Z) (order : list (bytes * entry)) (s : Srv R T) h a confirm :
  (forall n, e_clock (sv_engine s) n = t) -> sv_node s = None ->
  engine_inv (sv_engine s) h a -> calm_engine (sv_engine s) ->
  if decide (confirm = ID (Spec (sv_registry s))) then
    exists s', DeleteNamespace order confirm s = (s', Ret (Ok (i32 (len (live_bindings t order))))) /\
      engine_inv (sv_engine s') [] [] /\ (forall k, e_index (sv_engine s') !! k = None) /\
      LastCommitPosition (sv_engine s') = 0 /\ sv_offsets s' = sv_offsets s /\
      sv_registry s' = sv_registry s
  else exists st, DeleteNamespace order confirm s = (s, Ret (Err st)) /\ st_code st = InvalidArgument.
Proof.
  intros Ht Hn Hinv Hc. unfold DeleteNamespace. rewrite (bind_ret _ _ s s s) by done.
  destruct (decide _) as [->|Hne].
  2: { rewrite bool_decide_true by done. by eexists. }
  rewrite bool_decide_false by auto.
  destruct (eng_Snapshot t order s Ht) as (e1 & Hs1 & E). rewrite (bind_ret _ _ _ _ _ E), Hn.
  destruct (Reset_spec e1 h a) as (e2 & HR & Hinv2 & Ht2 & _ & Hl2 & _);
    [by eapply engine_inv_clock|unfold calm_engine in Hc; by destruct Hs1 as (-> & _)|].
  erewrite bind_ret; [|unfold eng; by erewrite zoom_ret by exact HR].
  eexists. split; [unfold len; rewrite length_fmap; reflexivity|]. cbn.
  injection Ht2 as Hi _. split_and!; try done. intros k. by rewrite Hi, lookup_empty.
Qed.
End admin.

(** ** Witnesses *)

#[local] Existing Instances demo_cmd_codec demo_raft demo_backup_codec.

Lemma export_exact_witness :
  exists s1 s2 entries bytes_used,
    ExportNamespace [($"k", mkEntry ($"v1") 1 None)] srv1 = (s1, Ret (Ok entries)) /\
    GetUsage [($"k", mkEntry ($"v1") 1 None)] srv1
    = (s2, Ret (Ok (mkUsage (ID (Spec (sv_registry srv1))) (len entries) bytes_used))) /\
    NoDup (s_Key <$> entries) /\
    (forall k v, (exists x, mkSnapshotEntry k v x ∈ entries) <->
                 fst <$> visible 100 (e_index (sv_engine srv1) !! k) = Some v) /\
    (fold_right Z.add 0 ((fun e => len (s_Key e) + len (s_Value e)) <$> entries) < 2 ^ 63 ->
     bytes_used = fold_right Z.add 0 ((fun e => len (s_Key e) + len (s_Value e)) <$> entries)).
Proof.
  refine (export_exact 100 [($"k", mkEntry ($"v1") 1 None)] srv1 _ _).
  - intros n. reflexivity.
  - change (e_index (sv_engine srv1)) with (e_index after_put1). by vm_compute.
Defined.

Lemma delete_namespace_exact_witness :
  exists s', DeleteNamespace [($"k", mkEntry ($"v1") 1 None)] ($"ns") srv1 = (s', Ret (Ok 1)) /\
    engine_inv (sv_engine s') [] [] /\ (forall k, e_index (sv_engine s') !! k = None) /\
    LastCommitPosition (sv_engine s') = 0 /\ sv_offsets s' = sv_offsets srv1 /\
    sv_registry s' = sv_registry srv1.
Proof.
  refine (delete_namespace_exact 100 [($"k", mkEntry ($"v1") 1 None)] srv1 log1 log1 ($"ns")
            _ eq_refl (proj1 after_put1_inv) _).
  - intros n. reflexivity.
  - by vm_compute.
Defined.

(** ** Consumers of a deleted namespace *)

(** The node behind a sequence of handlers whose answers are dropped. *)
Definition do {A} (h : handler (Srv (list bytes) byte) A) (s : Srv (list bytes) byte) :
  Srv (list bytes) byte := (h s).1.

(** A consumer has read two records and committed offset 3; the namespace is
    deleted and a value put. *)
Definition stranded : Srv (list bytes) byte :=
  do (StatePut ($"ns") ($"c") ($"new") 0 []) (
  do (DeleteNamespace [] ($"ns")) (
  do (StreamCommitOffset ($"ns") ($"g") 3) (
  do (StatePut ($"ns") ($"b") ($"2") 0 []) (
  do (StatePut ($"ns") ($"a") ($"1") 0 []) (
  demo_srv (fresh_engine [] at100) ($"ns") (mkFS ∅ [])))))).

(** A deletion strands the consumers of the stream.  Positions start over and the
    committed offsets do not: the consumer that resumes where it stopped is not
    given the new record, which is in the stream, and may not commit an offset at
    which it would be. *)
Theorem deletion_strands_consumers :
  (StreamFetchOffset ($"ns") ($"g") stranded).2 = Ret (Ok (3, true)) /\
  (StreamFetch ($"ns") 3 10 stranded).2 = Ret (Ok (mkFetchResponse [] 3)) /\
  (StreamFetch ($"ns") 1 10 stranded).2
    = Ret (Ok (mkFetchResponse [mkPbChange 1 CHANGE_KIND_PUT ($"c") ($"new")] 2)) /\
  is_ok (match (StreamCommitOffset ($"ns") ($"g") 1 stranded).2 with Ret r => r | _ => Ok 0 end) = false.
Proof. vm_compute. by split_and!. Qed.
