(* ===== verification/Resp.v ===== *)
(** * The Redis protocol adapter (internal/resp: protocol.go, server.go)

    Parsing of a request from a connection, the reply writers, and [dispatch]
    over the engine. *)

From Stdlib Require Import ZArith Lia.
From S2P Require Import Prelude WalFormat Wal WalStore Engine.

(** ** Decimal numbers (strconv, fmt) *)

Definition digit (d : Z) : byte := Zbyte (48 + d).

(** The decimal digits of a natural number below 10^fuel. *)
Fixpoint itoa_nat (fuel : nat) (n : Z) : bytes :=
  match fuel with
  | O => []
  | S fuel => if n <? 10 then [digit n] else itoa_nat fuel (n / 10) ++ [digit (n mod 10)]
  end.

(** The verb [%d] on an int64, which has at most 19 digits. *)
Definition itoa (z : Z) : bytes :=
  if z <? 0 then $"-" ++ itoa_nat 20 (- z) else itoa_nat 20 z.

Definition is_digit (b : byte) : bool := (48 <=? byteZ b) && (byteZ b <=? 57).

Definition parse_step (acc : option Z) (b : byte) : option Z :=
  n ← acc; if is_digit b then Some (10 * n + (byteZ b - 48)) else None.

Definition parse_digits (s : bytes) : option Z :=
  match s with [] => None | _ => fold_left parse_step s (Some 0) end.

(** [strconv.Atoi] and [strconv.ParseInt(s, 10, 64)]: [None] is the error. *)
Definition Atoi (s : bytes) : option Z :=
  n ← match s with
      | b :: t => if byteZ b =? 45 then Z.opp <$> parse_digits t
                  else if byteZ b =? 43 then parse_digits t else parse_digits s
      | [] => None
      end;
  if bool_decide (is_i64 n) then Some n else None.

(** ** Reading a command *)

Inductive resp_error :=
| ReadFailed (e : read_error)
| ExpectedArray (line : bytes) | InvalidArrayLength (s : bytes)
| ExpectedBulk (line : bytes) | InvalidBulkLength (s : bytes).

Record RespCommand := mkResp { Name : bytes; Args : list bytes }.

(** The parser's state is what the connection still yields. *)
Abbreviation Parser A := (GoM reader (result resp_error A)).

(** The bytes up to and with the first [d], and the bytes behind it. *)
Fixpoint split_at (d : byte) (s : bytes) : option (bytes * bytes) :=
  match s with
  | [] => None
  | b :: s => if bool_decide (b = d) then Some ([b], s)
              else '(l, r) ← split_at d s; Some (b :: l, r)
  end.

(** [r.ReadBytes('\n')] *)
Definition ReadBytes : Parser bytes := fun r =>
  match split_at x0a (r_rest r) with
  | Some (l, rest) => (mkReader rest (r_fault r), Ret (Ok l))
  | None =>
    (mkReader [] (r_fault r),
     Ret (Err (ReadFailed (match r_fault r with Some e => ReadFault e | None => EOF end))))
  end.

(** Trim one trailing [\r] behind the removed [\n]. *)
Definition trim_line (line : bytes) : bytes :=
  let line := take (length line - 1) line in
  match last line with
  | Some x0d => take (length line - 1) line
  | _ => line
  end.

Definition readLine : Parser bytes :=
  l ← ReadBytes;
  match l with
  | Err e => mret (Err e)
  | Ok line => mret (Ok (trim_line line))
  end.

(** [make([]T, n)] with elements of [size] bytes. *)
Definition makeslice {S} (n size : Z) : GoM S unit :=
  if (n <? 0) || (maxAlloc <? n * size) then lift_go (Panic ($"makeslice: len out of range"))
  else mret tt.

(** [io.ReadFull] into a buffer of [n] bytes and two more, which are dropped. *)
Definition read_buf (n : Z) : Parser bytes := fun r =>
  match ReadFull r (n + 2) with
  | (Ok buf, r) => (r, Ret (Ok (take (Z.to_nat n) buf)))
  | (Err e, r) => (r, Ret (Err (ReadFailed e)))
  end.

(** A nil bulk string is an empty argument. *)
Definition readBulkString : Parser bytes :=
  l ← readLine;
  match l with
  | Err e => mret (Err e)
  | Ok line =>
    match line with
    | x24 :: s =>                                          (* '$' *)
      match Atoi s with
      | None => mret (Err (InvalidBulkLength s))
      | Some n =>
        if n <? 0 then mret (Ok []) else
        _ ← makeslice (i64 (n + 2)) 1;
        read_buf n
      end
    | _ => mret (Err (ExpectedBulk line))
    end
  end.

(** The loop over the [n] parts; each one takes at least a byte of the input. *)
Fixpoint read_parts (fuel : nat) (n : Z) (parts : list bytes) : Parser (list bytes) :=
  if n <=? 0 then mret (Ok parts) else
  match fuel with
  | O => lift_go Blocked
  | S fuel =>
    b ← readBulkString;
    match b with
    | Err e => mret (Err e)
    | Ok b => read_parts fuel (n - 1) (parts ++ [b])
    end
  end.

Definition ReadCommand : Parser RespCommand :=
  l ← readLine;
  match l with
  | Err e => mret (Err e)
  | Ok line =>
    match line with
    | x2a :: s =>                                          (* '*' *)
      match Atoi s with
      | Some n =>
        if n <? 1 then mret (Err (InvalidArrayLength s)) else
        _ ← makeslice n 24;
        r ← get_state;
        parts ← read_parts (S (length (r_rest r))) n [];
        match parts with
        | Err e => mret (Err e)
        | Ok (name :: args) => mret (Ok (mkResp name args))
        | Ok [] => lift_go (Panic ($"index out of range"))
        end
      | None => mret (Err (InvalidArrayLength s))
      end
    | _ => mret (Err (ExpectedArray line))
    end
  end.

(** ** Replies *)

(** The writing side of a connection: the bytes sent, and the outcomes of the
    coming writes (success when the script is exhausted).  A write that fails has
    sent at most the number of bytes the script says. *)
Record Out := mkOut { out_data : bytes; out_script : list (option (nat * oserr)) }.

Definition write (p : bytes) : GoM Out (option oserr) := fun o =>
  match out_script o with
  | Some (n, e) :: sc => (mkOut (out_data o ++ take n p) sc, Ret (Some e))
  | _ => (mkOut (out_data o ++ p) (tail (out_script o)), Ret None)
  end.

Definition crlf : bytes := [x0d; x0a].

Definition WriteSimpleString (s : bytes) : GoM Out (option oserr) := write ($"+" ++ s ++ crlf).
Definition WriteError (msg : bytes) : GoM Out (option oserr) := write ($"-ERR " ++ msg ++ crlf).
Definition WriteInteger (n : Z) : GoM Out (option oserr) := write ($":" ++ itoa n ++ crlf).
Definition WriteBulkString (b : bytes) : GoM Out (option oserr) :=
  e ← write ($"$" ++ itoa (len b) ++ crlf);
  match e with Some e => mret (Some e) | None =>
  e ← write b;
  match e with Some e => mret (Some e) | None => write crlf end
  end.
Definition WriteNullBulkString : GoM Out (option oserr) := write ($"$-1" ++ crlf).

(** ** [dispatch] *)

Definition upper_byte (b : byte) : byte :=
  if (97 <=? byteZ b) && (byteZ b <=? 122) then Zbyte (byteZ b - 32) else b.

(** [strings.ToUpper], as far as a comparison with an ASCII word can tell: the
    only letters outside ASCII with an ASCII upper case are U+0131 (I) and U+017F
    (S), encoded C4 B1 and C5 BF; every other byte outside ASCII stays outside. *)
Fixpoint ToUpper (s : bytes) : bytes :=
  match s with
  | xc4 :: xb1 :: s => x49 :: ToUpper s
  | xc5 :: xbf :: s => x53 :: ToUpper s
  | b :: s => upper_byte b :: ToUpper s
  | [] => []
  end.

(** [strings.EqualFold(s, "EX")]: no letter outside ASCII folds to E or X. *)
Definition EqualFold_EX (s : bytes) : bool := bool_decide (upper_byte <$> s = $"EX").

Definition unknown_command (name : bytes) : bytes :=
  $"unknown command '" ++ name ++
  $"' (unsupported: this adapter implements a declared subset only — see docs/REDIS_COMPATIBILITY.md)".

Definition on_engine {A} (m : GoM Engine A) : GoM (Engine * Out) A :=
  zoom fst (fun s e => (e, s.2)) m.
Definition reply (m : GoM Out (option oserr)) : GoM (Engine * Out) (option oserr) :=
  zoom snd (fun s o => (s.1, o)) m.

(** The TTL a SET carries, or the text of the error reply. *)
Definition set_ttl (args : list bytes) : result bytes Z :=
  match args with
  | _ :: _ :: opt :: t :: _ =>
    if EqualFold_EX opt then
      match Atoi t with
      | Some n => if n <=? 0 then Err ($"invalid expire time in 'set' command") else Ok n
      | None => Err ($"invalid expire time in 'set' command")
      end
    else Err ($"unsupported SET option (only EX is implemented)")
  | _ :: _ :: _ :: _ => Err ($"unsupported SET option (only EX is implemented)")
  | _ => Ok 0
  end.

(** The loop of DEL: the keys deleted, or the engine's error. *)
Fixpoint del_loop (keys : list bytes) (deleted : Z) : GoM Engine (result engine_error Z) :=
  match keys with
  | [] => mret (Ok deleted)
  | key :: keys =>
    v ← Get key;
    match v with
    | None => del_loop keys deleted
    | Some _ =>
      r ← Delete key [];
      match r with
      | Err e => mret (Err e)
      | Ok _ => del_loop keys (i64 (deleted + 1))
      end
    end
  end.

Definition dispatch (cmd : RespCommand) : GoM (Engine * Out) (option oserr) :=
  let name := ToUpper (Name cmd) in
  if bool_decide (name = $"PING") then reply (WriteSimpleString ($"PONG"))
  else if bool_decide (name = $"GET") then
    match Args cmd with
    | [key] =>
      v ← on_engine (Get key);
      match v with
      | None => reply WriteNullBulkString
      | Some (value, _) => reply (WriteBulkString value)
      end
    | _ => reply (WriteError ($"wrong number of arguments for 'get' command"))
    end
  else if bool_decide (name = $"SET") then
    match Args cmd with
    | key :: value :: _ =>
      match set_ttl (Args cmd) with
      | Err msg => reply (WriteError msg)
      | Ok ttlSeconds =>
        r ← on_engine (Put key value ttlSeconds []);
        match r with
        | Err e => reply (WriteError (engine_error_msg e))
        | Ok _ => reply (WriteSimpleString ($"OK"))
        end
      end
    | _ => reply (WriteError ($"wrong number of arguments for 'set' command"))
    end
  else if bool_decide (name = $"DEL") then
    match Args cmd with
    | [] => reply (WriteError ($"wrong number of arguments for 'del' command"))
    | keys =>
      r ← on_engine (del_loop keys 0);
      match r with
      | Err e => reply (WriteError (engine_error_msg e))
      | Ok deleted => reply (WriteInteger deleted)
      end
    end
  else reply (WriteError (unknown_command (Name cmd))).

(** ** [handleConn] *)

(** The loop serves commands until reading or writing fails; each command takes
    at least a byte of the input.  A panic ends the process. *)
Fixpoint handle_loop (fuel : nat) (r : reader) : GoM (Engine * Out) unit :=
  match fuel with
  | O => lift_go Blocked
  | S fuel =>
    match ReadCommand r with
    | (_, Ret (Err _)) => mret tt
    | (r, Ret (Ok cmd)) =>
      e ← dispatch cmd;
      match e with
      | Some _ => mret tt
      | None => handle_loop fuel r
      end
    | (_, Panic w) => lift_go (Panic w)
    | (_, Blocked) => lift_go Blocked
    end
  end.

Definition handleConn (r : reader) : GoM (Engine * Out) unit :=
  handle_loop (S (length (r_rest r))) r.
