(* ===== verification/RespTheorems.v ===== *)
(** * Theorems about the Redis protocol adapter *)

From Stdlib Require Import ZArith Lia.
From S2P Require Import Prelude WalFormat Wal WalInvariant WalRecovery WalTheorems WalStore.
From S2P Require Import Engine EngineInvariant EngineTheorems Replication Resp.

(** ** Decimal numbers *)

Lemma byteZ_digit d : 0 <= d < 10 -> byteZ (digit d) = 48 + d.
Proof. intros Hd. unfold digit. rewrite byteZ_Zbyte, Z.mod_small; lia. Qed.

Lemma parse_step_digit n d :
  0 <= d < 10 -> parse_step (Some n) (digit d) = Some (10 * n + d).
Proof.
  intros Hd. unfold parse_step, is_digit. cbn. rewrite byteZ_digit by done.
  rewrite !(proj2 (Z.leb_le _ _)) by lia. cbn. f_equal. lia.
Qed.

Lemma itoa_nat_nonempty fuel n : (0 < fuel)%nat -> itoa_nat fuel n <> [].
Proof.
  destruct fuel; [lia|]. intros _. cbn. destruct (n <? 10); [done|].
  by destruct (itoa_nat fuel (n / 10)).
Qed.

Lemma fold_itoa fuel n :
  0 <= n < 10 ^ Z.of_nat fuel -> fold_left parse_step (itoa_nat fuel n) (Some 0) = Some n.
Proof.
  revert n. induction fuel as [|fuel IH]; intros n Hn; [cbn in *; f_equal; lia|].
  cbn [itoa_nat]. destruct (n <? 10) eqn:E; bool_prop.
  - cbn [fold_left]. rewrite parse_step_digit by lia. done.
  - rewrite fold_left_app, IH.
    + cbn [fold_left]. rewrite parse_step_digit by (apply Z.mod_pos_bound; lia).
      f_equal. pose proof (Z.div_mod n 10). lia.
    + rewrite Nat2Z.inj_succ, Z.pow_succ_r in Hn by lia.
      split; [apply Z.div_pos; lia|apply Z.div_lt_upper_bound; lia].
Qed.

Lemma parse_itoa n : 0 <= n < 10 ^ 20 -> parse_digits (itoa_nat 20 n) = Some n.
Proof.
  intros Hn. unfold parse_digits. pose proof (itoa_nat_nonempty 20 n ltac:(lia)).
  destruct (itoa_nat 20 n) as [|b s] eqn:E; [done|]. rewrite <- E. by apply fold_itoa.
Qed.

(** The bytes [itoa] writes: a sign or digits. *)
Lemma itoa_nat_bytes fuel n b :
  0 <= n -> b ∈ itoa_nat fuel n -> 48 <= byteZ b <= 57.
Proof.
  revert n. induction fuel as [|fuel IH]; intros n Hn Hb; [by apply not_elem_of_nil in Hb|].
  cbn in Hb. destruct (n <? 10) eqn:E; bool_prop.
  - apply list_elem_of_singleton in Hb as ->. rewrite byteZ_digit by lia. lia.
  - apply elem_of_app in Hb as [Hb|Hb].
    + eapply IH; [|done]. apply Z.div_pos; lia.
    + apply list_elem_of_singleton in Hb as ->.
      pose proof (Z.mod_pos_bound n 10 ltac:(lia)). rewrite byteZ_digit by lia. lia.
Qed.

(** Parsing what was printed gives the number back. *)
Lemma Atoi_itoa z : is_i64 z -> Atoi (itoa z) = Some z.
Proof.
  intros Hz. unfold is_i64 in Hz. unfold itoa.
  assert (Hfin : bool_decide (is_i64 z) = true) by (by apply bool_decide_eq_true).
  destruct (z <? 0) eqn:E; bool_prop.
  - change ($"-" ++ itoa_nat 20 (- z)) with (x2d :: itoa_nat 20 (- z)).
    unfold Atoi. change (byteZ x2d =? 45) with true. cbv iota.
    rewrite parse_itoa by lia. cbn. rewrite Z.opp_involutive. by rewrite Hfin.
  - unfold Atoi. pose proof (itoa_nat_nonempty 20 z ltac:(lia)) as Hne.
    destruct (itoa_nat 20 z) as [|b s] eqn:Es; [done|].
    assert (Hb : 48 <= byteZ b <= 57).
    { eapply (itoa_nat_bytes 20 z); [lia|]. rewrite Es. apply list_elem_of_here. }
    rewrite !(proj2 (Z.eqb_neq _ _)) by lia. rewrite <- Es, parse_itoa by lia.
    cbn. by rewrite Hfin.
Qed.

Lemma itoa_no_newline z : x0a ∉ itoa z.
Proof.
  unfold itoa. destruct (z <? 0) eqn:E; bool_prop.
  - change ($"-" ++ itoa_nat 20 (- z)) with (x2d :: itoa_nat 20 (- z)).
    intros [Hd|Hd]%elem_of_cons; [done|].
    apply itoa_nat_bytes in Hd; [|lia]. change (byteZ x0a) with 10 in Hd. lia.
  - intros Hd%itoa_nat_bytes; [|lia]. change (byteZ x0a) with 10 in Hd. lia.
Qed.

(** ** Lines *)

Lemma split_at_spec d l rest : d ∉ l -> split_at d (l ++ d :: rest) = Some (l ++ [d], rest).
Proof.
  induction l as [|b l IH]; intros Hd; cbn.
  - by rewrite bool_decide_true.
  - apply not_elem_of_cons in Hd as (Hne & Hd). rewrite bool_decide_false by congruence.
    by rewrite IH.
Qed.

Lemma trim_crlf l : trim_line (l ++ crlf) = l.
Proof.
  unfold trim_line, crlf. change [x0d; x0a] with ([x0d] ++ [x0a]). rewrite app_assoc.
  rewrite length_app. cbn [length]. rewrite Nat.add_sub, take_app_length, last_snoc.
  rewrite length_app. cbn [length]. by rewrite Nat.add_sub, take_app_length.
Qed.

Lemma readLine_crlf l rest fault :
  x0a ∉ l ->
  readLine (mkReader (l ++ crlf ++ rest) fault) = (mkReader rest fault, Ret (Ok l)).
Proof.
  intros Hl. unfold readLine.
  rewrite (bind_ret _ _ _ (mkReader rest fault) (Ok (l ++ crlf))).
  - unfold mret, GoM_ret. by rewrite trim_crlf.
  - unfold ReadBytes. cbn [r_rest r_fault]. unfold crlf. cbn [app].
    change (l ++ x0d :: x0a :: rest) with (l ++ [x0d] ++ x0a :: rest). rewrite app_assoc.
    rewrite split_at_spec; [by rewrite <- app_assoc|].
    rewrite not_elem_of_app. split; [done|]. by intros ?%list_elem_of_singleton.
Qed.

(** ** Requests as a client writes them *)

Definition encode_bulk (b : bytes) : bytes := ($"$" ++ itoa (len b)) ++ crlf ++ b ++ crlf.

Definition encode_command (cmd : RespCommand) : bytes :=
  ($"*" ++ itoa (1 + len (Args cmd))) ++ crlf ++
  concat (encode_bulk <$> (Name cmd :: Args cmd)).

(** Every allocation the request asks for is one the runtime can serve. *)
Definition allocatable (cmd : RespCommand) : Prop :=
  (1 + len (Args cmd)) * 24 <= maxAlloc /\
  Forall (fun b => len b + 2 <= maxAlloc) (Name cmd :: Args cmd).

Lemma makeslice_ok {S} n size (s : S) :
  0 <= n -> n * size <= maxAlloc -> makeslice n size s = (s, Ret tt).
Proof.
  intros Hn Hs. unfold makeslice. by rewrite (proj2 (Z.ltb_ge n 0)), (proj2 (Z.ltb_ge _ _)).
Qed.

Lemma no_newline_after (b : byte) z : b <> x0a -> x0a ∉ [b] ++ itoa z.
Proof.
  intros Hb. rewrite not_elem_of_app. split; [|apply itoa_no_newline].
  by intros ?%list_elem_of_singleton.
Qed.

Lemma readBulkString_encode b rest fault :
  len b + 2 <= maxAlloc ->
  readBulkString (mkReader (encode_bulk b ++ rest) fault) = (mkReader rest fault, Ret (Ok b)).
Proof.
  intros Hb. pose proof (len_nonneg b). unfold maxAlloc in Hb.
  unfold readBulkString, encode_bulk. rewrite <- !app_assoc, app_assoc.
  rewrite (bind_ret _ _ _ _ _ (readLine_crlf _ (b ++ crlf ++ rest) fault
             (no_newline_after x24 (len b) ltac:(done)))).
  cbn [app str]. cbn [String.list_byte_of_string app].
  rewrite Atoi_itoa by (unfold is_i64; lia).
  rewrite (proj2 (Z.ltb_ge (len b) 0)) by lia.
  rewrite i64_small by (unfold is_i64; lia).
  rewrite (bind_ret _ _ _ _ _ (makeslice_ok (len b + 2) 1 _ ltac:(lia)
             ltac:(unfold maxAlloc; lia))).
  unfold read_buf. rewrite app_assoc, ReadFull_app by (rewrite len_app; reflexivity).
  unfold len. rewrite Nat2Z.id, take_app_length. done.
Qed.

Lemma read_parts_encode parts acc fuel rest fault :
  Forall (fun b => len b + 2 <= maxAlloc) parts -> (length parts <= fuel)%nat ->
  read_parts fuel (len parts) acc (mkReader (concat (encode_bulk <$> parts) ++ rest) fault)
  = (mkReader rest fault, Ret (Ok (acc ++ parts))).
Proof.
  revert acc fuel. induction parts as [|b parts IH]; intros acc fuel Hall Hfuel.
  - rewrite app_nil_r. by destruct fuel.
  - apply Forall_cons in Hall as (Hb & Hall). destruct fuel as [|fuel]; [cbn in Hfuel; lia|].
    cbn [read_parts fmap list_fmap concat]. rewrite len_cons. pose proof (len_nonneg parts).
    rewrite (proj2 (Z.leb_gt _ _)), <- app_assoc by lia.
    rewrite (bind_ret _ _ _ _ _ (readBulkString_encode b _ fault Hb)).
    replace (1 + len parts - 1) with (len parts) by lia.
    rewrite IH; [by rewrite <- app_assoc|done|cbn in Hfuel; lia].
Qed.

Lemma encode_parts_length parts : (length parts <= length (concat (encode_bulk <$> parts)))%nat.
Proof.
  induction parts as [|b parts IH]; cbn [fmap list_fmap concat length]; [lia|].
  rewrite length_app. unfold encode_bulk at 1. rewrite !length_app.
  change (length ($"$")) with 1%nat. lia.
Qed.

(** A request is read back as it was sent.  Whatever bytes the command name
    and its arguments hold, parsing their encoding as an array of bulk strings
    yields exactly the command and leaves the rest of the connection untouched. *)
Lemma read_command_encoded cmd rest fault :
  allocatable cmd ->
  ReadCommand (mkReader (encode_command cmd ++ rest) fault)
  = (mkReader rest fault, Ret (Ok cmd)).
Proof.
  intros (Hn & Hall). pose proof (len_nonneg (Args cmd)). unfold maxAlloc in Hn.
  unfold ReadCommand, encode_command. rewrite <- !app_assoc, app_assoc.
  rewrite (bind_ret _ _ _ _ _ (readLine_crlf _ _ fault
             (no_newline_after x2a (1 + len (Args cmd)) ltac:(done)))).
  cbn [app str String.list_byte_of_string].
  rewrite Atoi_itoa by (unfold is_i64; lia).
  rewrite (proj2 (Z.ltb_ge _ 1)) by lia.
  rewrite (bind_ret _ _ _ _ _ (makeslice_ok (1 + len (Args cmd)) 24 _ ltac:(lia)
             ltac:(unfold maxAlloc; lia))).
  erewrite bind_ret by reflexivity.
  erewrite bind_ret.
  2: { replace (1 + len (Args cmd)) with (len (Name cmd :: Args cmd)) by (by rewrite len_cons).
       apply read_parts_encode; [done|]. cbn [r_rest]. rewrite length_app.
       pose proof (encode_parts_length (Name cmd :: Args cmd)). lia. }
  by destruct cmd.
Qed.

(** ** Arbitrary input *)

(** A line takes at least one byte of the input. *)
Lemma readLine_consumes r :
  match readLine r with
  | (r', Ret (Ok _)) => (length (r_rest r') < length (r_rest r))%nat
  | (_, Ret (Err _)) => True
  | _ => False
  end.
Proof.
  unfold readLine, ReadBytes, mbind, GoM_bind.
  assert (Hs : forall s l rest, split_at x0a s = Some (l, rest) -> (length rest < length s)%nat).
  { induction s as [|b s IH]; intros l rest; cbn; [done|].
    case_bool_decide; [intros [= <- <-]; lia|].
    destruct (split_at x0a s) as [[l' rest']|]; cbn; [|done].
    intros [= <- <-]. specialize (IH _ _ eq_refl). lia. }
  destruct (split_at x0a (r_rest r)) as [[l rest]|] eqn:E; cbn; [|done]. by eapply Hs.
Qed.

Lemma ReadFull_shrinks r n buf r' :
  ReadFull r n = (Ok buf, r') -> (length (r_rest r') <= length (r_rest r))%nat.
Proof.
  unfold ReadFull. destruct (n <=? len (r_rest r)).
  - intros [= _ <-]. cbn. rewrite length_drop. lia.
  - intros [= Hm _]. by repeat case_match.
Qed.

Lemma readBulkString_consumes r :
  match readBulkString r with
  | (r', Ret (Ok _)) => (length (r_rest r') < length (r_rest r))%nat
  | (_, Ret (Err _)) | (_, Panic _) => True
  | _ => False
  end.
Proof.
  unfold readBulkString, mbind, GoM_bind. pose proof (readLine_consumes r) as Hl.
  destruct (readLine r) as [r1 [[line|e]| |]]; try done.
  destruct line as [|b s]; [done|]. destruct b; try done.
  destruct (Atoi s) as [n|]; [|done]. destruct (n <? 0); [done|].
  unfold makeslice. destruct (_ || _); [done|]. cbn. unfold read_buf.
  destruct (ReadFull r1 (n + 2)) as [[buf|e] r2] eqn:E; [|done].
  apply ReadFull_shrinks in E. lia.
Qed.

Lemma read_parts_total fuel n parts r :
  (length (r_rest r) < fuel)%nat -> (read_parts fuel n parts r).2 <> Blocked.
Proof.
  revert n parts r. induction fuel as [|fuel IH]; intros n parts r Hf; [lia|].
  cbn. destruct (n <=? 0); [done|]. unfold mbind, GoM_bind.
  pose proof (readBulkString_consumes r) as Hb.
  destruct (readBulkString r) as [r1 [[b|e]| |]]; try done. apply IH. lia.
Qed.

(** Reading a command always ends.  On every input, however malformed, the
    parser returns a command or an error, or panics; it never loops. *)
Lemma read_command_returns r : (ReadCommand r).2 <> Blocked.
Proof.
  unfold ReadCommand, mbind, GoM_bind. pose proof (readLine_consumes r) as Hl.
  destruct (readLine r) as [r1 [[line|e]| |]]; try done.
  destruct line as [|b s]; [done|]. destruct b; try done.
  destruct (Atoi s) as [n|]; [|done]. destruct (n <? 1); [done|].
  unfold makeslice. destruct (_ || _); [done|]. cbn -[read_parts].
  pose proof (read_parts_total (S (length (r_rest r1))) n [] r1 ltac:(lia)) as Hp.
  destruct (read_parts _ n [] r1) as [r2 [[[|name args]|e]| |]]; done.
Qed.

(** ** Reading what has arrived so far *)

(** The same reader when more bytes have arrived. *)
Definition more (x : bytes) (fault : option oserr) (r : reader) : reader :=
  mkReader (r_rest r ++ x) fault.

(** A result that was not caused by the end of the input. *)
Definition decided {A} (res : go (result resp_error A)) : Prop :=
  match res with Ret (Err (ReadFailed _)) | Blocked => False | _ => True end.

(** A parser that has decided on the bytes so far decides the same on more. *)
Definition framed {A} (m : Parser A) : Prop :=
  forall x fault r r' res, m r = (r', res) -> decided res ->
    m (more x fault r) = (more x fault r', res).

Lemma framed_ret {A} (a : result resp_error A) : framed (mret a).
Proof. by intros x f r r' res [= <- <-] _. Qed.

Lemma framed_then {A B} (m : Parser A) (k : A -> Parser B) :
  framed m -> (forall a, framed (k a)) ->
  framed (l ← m; match l with Err e => mret (Err e) | Ok a => k a end).
Proof.
  intros Hm Hk x f r r' res. unfold mbind, GoM_bind.
  destruct (m r) as [r1 [[a|e]|w|]] eqn:E; intros H Hd.
  - rewrite (Hm _ _ _ _ _ E I). by apply Hk.
  - injection H as <- <-. by rewrite (Hm _ _ _ _ _ E Hd).
  - injection H as <- <-. by rewrite (Hm _ _ _ _ _ E Hd).
  - by injection H as <- <-.
Qed.

Lemma framed_makeslice {A} n size (m : Parser A) : framed m -> framed (_ ← makeslice n size; m).
Proof.
  intros Hm x f r r' res. unfold makeslice, mbind, GoM_bind.
  destruct (_ || _); [by intros [= <- <-]|]. apply Hm.
Qed.

Lemma split_at_more d s l rest x :
  split_at d s = Some (l, rest) -> split_at d (s ++ x) = Some (l, rest ++ x).
Proof.
  revert l rest. induction s as [|b s IH]; intros l rest; cbn; [done|].
  case_bool_decide; [by intros [= <- <-]|].
  destruct (split_at d s) as [[l' rest']|]; cbn; [|done]. intros [= <- <-].
  by rewrite (IH _ _ eq_refl).
Qed.

Lemma framed_readLine : framed readLine.
Proof.
  unfold readLine. apply (framed_then ReadBytes (fun line => mret (Ok (trim_line line))));
    [|intros; apply framed_ret].
  intros x f r r' res. unfold ReadBytes. destruct (split_at _ _) as [[l rest]|] eqn:E.
  - intros [= <- <-] _. cbn [more r_rest]. by rewrite (split_at_more _ _ _ _ _ E).
  - by intros [= <- <-].
Qed.

Lemma framed_read_buf n : framed (read_buf n).
Proof.
  intros x f r r' res. unfold read_buf, ReadFull. destruct (n + 2 <=? len (r_rest r)) eqn:E.
  2: { destruct (r_fault r); [|destruct (r_rest r)]; by intros [= <- <-]. }
  intros [= <- <-] _. bool_prop. cbn [more r_rest]. rewrite len_app.
  pose proof (len_nonneg x). rewrite (proj2 (Z.leb_le _ _)) by lia.
  unfold len in *. by rewrite take_app_le, drop_app_le by lia.
Qed.

Lemma framed_readBulkString : framed readBulkString.
Proof.
  apply framed_then; [apply framed_readLine|]. intros line. repeat case_match; try apply framed_ret.
  apply framed_makeslice, framed_read_buf.
Qed.

Lemma framed_read_parts fuel fuel' n parts x fault r r' res :
  (fuel <= fuel')%nat -> read_parts fuel n parts r = (r', res) -> decided res ->
  read_parts fuel' n parts (more x fault r) = (more x fault r', res).
Proof.
  revert fuel' n parts r. induction fuel as [|fuel IH]; intros fuel' n parts r Hf; cbn [read_parts].
  - destruct (n <=? 0) eqn:E; [|by intros [= <- <-]]. intros [= <- <-] _.
    destruct fuel'; cbn [read_parts]; by rewrite E.
  - destruct fuel' as [|fuel']; [lia|]. cbn [read_parts].
    destruct (n <=? 0) eqn:E; [by intros [= <- <-]|]. unfold mbind, GoM_bind.
    destruct (readBulkString r) as [r1 [[b|e]|w|]] eqn:Eb; intros H Hd.
    + rewrite (framed_readBulkString _ _ _ _ _ Eb I). apply IH; [lia|done..].
    + injection H as <- <-. by rewrite (framed_readBulkString _ _ _ _ _ Eb Hd).
    + injection H as <- <-. by rewrite (framed_readBulkString _ _ _ _ _ Eb Hd).
    + by injection H as <- <-.
Qed.

(** A command, a protocol error or a panic that [ReadCommand] finds in the bytes
    that have arrived is what it finds whatever arrives behind them. *)
Lemma framed_ReadCommand : framed ReadCommand.
Proof.
  apply framed_then; [apply framed_readLine|]. intros line.
  destruct line as [|b s]; [apply framed_ret|]. destruct b; try apply framed_ret.
  destruct (Atoi s) as [n|]; [|apply framed_ret]. destruct (n <? 1); [apply framed_ret|].
  apply framed_makeslice. intros x f r r' res. unfold mbind, GoM_bind, get_state, more.
  cbn [r_rest]. destruct (read_parts _ n [] r) as [r1 [[ps|e]|w|]] eqn:E; intros H Hd.
  - apply (framed_read_parts _ (S (length (r_rest r ++ x))) _ _ x f) in E;
      [|rewrite length_app; lia|done].
    unfold more in E. rewrite E. by destruct ps; injection H as <- <-.
  - injection H as <- <-. apply (framed_read_parts _ (S (length (r_rest r ++ x))) _ _ x f) in E;
      [|rewrite length_app; lia|done].
    unfold more in E. by rewrite E.
  - injection H as <- <-. apply (framed_read_parts _ (S (length (r_rest r ++ x))) _ _ x f) in E;
      [|rewrite length_app; lia|done].
    unfold more in E. by rewrite E.
  - by injection H as <- <-.
Qed.

(** A short request stops the process.  An array length whose slice the
    runtime cannot allocate panics before anything else of the request is read,
    in a goroutine that does not recover. *)
Theorem huge_array_panics n rest fault :
  is_i64 n -> maxAlloc < n * 24 ->
  (ReadCommand (mkReader ($"*" ++ itoa n ++ crlf ++ rest) fault)).2
  = Panic ($"makeslice: len out of range").
Proof.
  intros Hi Hn. unfold maxAlloc in Hn. unfold ReadCommand. rewrite app_assoc.
  rewrite (bind_ret _ _ _ _ _ (readLine_crlf _ rest fault
             (no_newline_after x2a n ltac:(done)))).
  cbn [app str String.list_byte_of_string]. rewrite Atoi_itoa by done.
  rewrite (proj2 (Z.ltb_ge n 1)) by lia.
  unfold makeslice, maxAlloc, mbind, GoM_bind.
  by rewrite (proj2 (Z.ltb_lt _ _) Hn), orb_true_r.
Qed.

Lemma huge_array_panics_witness :
  (ReadCommand (mkReader ($"*" ++ itoa 99999999999999 ++ crlf ++ []) None)).2
  = Panic ($"makeslice: len out of range").
Proof.
  refine (huge_array_panics 99999999999999 [] None _ _).
  - by_decide.
  - by vm_compute.
Defined.

(** One request can produce two replies.  The name of an unknown command is
    copied into the error line as it is, so a name that holds a line break ends
    the error reply early, and what follows it reads as a second reply. *)
Theorem reply_splitting :
  let name := $"x" ++ crlf ++ $"+OK" in
  exists tail,
    dispatch (mkResp name []) (fresh_engine [] at100, mkOut [] [])
    = (fresh_engine [] at100,
       mkOut (($"-ERR unknown command 'x" ++ crlf) ++ ($"+OK" ++ tail ++ crlf)) [], Ret None).
Proof.
  exists ($"' (unsupported: this adapter implements a declared subset only — see docs/REDIS_COMPATIBILITY.md)").
  vm_compute. reflexivity.
Qed.

(** ** SET and GET *)

Definition set_cmd (k v : bytes) : RespCommand := mkResp ($"SET") [k; v].
Definition get_cmd (k : bytes) : RespCommand := mkResp ($"GET") [k].

Lemma write_quiet p d : write p (mkOut d []) = (mkOut (d ++ p) [], Ret None).
Proof. done. Qed.

(** What SET stored GET returns.  On an engine whose disk does not fail, a
    SET is answered OK, commits, and the following GET of the key is answered
    with exactly the bytes of the value. *)
Theorem set_then_get k v e h a out :
  engine_inv e h a -> calm_engine e -> fits (e_log e) (mkRecord 0 KindPut k v 0 []) ->
  exists e1 e2 h1 a1,
    dispatch (set_cmd k v) (e, mkOut out []) = (e1, mkOut (out ++ $"+OK" ++ crlf) [], Ret None) /\
    engine_inv e1 h1 a1 /\
    dispatch (get_cmd k) (e1, mkOut [] [])
    = (e2, mkOut (encode_bulk v) [], Ret None).
Proof.
  intros Hinv Hc Hfit.
  destruct (commit_calm (MPut k v 0 []) e h a Hinv Hc Hfit) as (e1 & E1 & Hinv1 & _ & _ & Ht1).
  destruct (Get_spec k e1) as (e2 & _ & EG).
  injection Ht1 as Hi1 _. cbn in Hi1. rewrite Hi1, lookup_insert_eq in EG. cbn in EG.
  exists e1, e2. do 2 eexists. split; [|split; [exact Hinv1|]].
  - unfold dispatch, set_cmd. cbn [Name Args set_ttl].
    change (ToUpper ($"SET")) with ($"SET"). rewrite !bool_decide_false by done.
    rewrite bool_decide_true by done.
    erewrite bind_ret; [|unfold on_engine; by erewrite zoom_ret by exact E1]. done.
  - unfold dispatch, get_cmd. cbn [Name Args].
    change (ToUpper ($"GET")) with ($"GET"). rewrite bool_decide_false by done.
    rewrite bool_decide_true by done.
    erewrite bind_ret; [|unfold on_engine; by erewrite zoom_ret by exact EG].
    unfold reply, zoom, WriteBulkString, mbind, GoM_bind. cbn [fst snd].
    rewrite write_quiet. rewrite write_quiet. rewrite write_quiet.
    unfold encode_bulk. by rewrite <- !app_assoc.
Qed.

Lemma set_then_get_witness :
  exists e1 e2 h1 a1,
    dispatch (set_cmd ($"k") ($"v")) (fresh_engine [] at100, mkOut [] [])
    = (e1, mkOut ([] ++ $"+OK" ++ crlf) [], Ret None) /\
    engine_inv e1 h1 a1 /\
    dispatch (get_cmd ($"k")) (e1, mkOut [] []) = (e2, mkOut (encode_bulk ($"v")) [], Ret None).
Proof.
  refine (set_then_get ($"k") ($"v") (fresh_engine [] at100) [] [] [] (fresh_inv _ _) _ _).
  - done.
  - by_decide.
Defined.
