(* ===== verification/RespConnection.v ===== *)
(** * A whole RESP connection

    The adapter without bytes: [answer] gives the reply a command has, [answers]
    those of a sequence of commands.  A connection on which a client pipelines
    encoded commands is that sequence, each reply is one the client can read
    back, and on any input whatever a connection ends. *)

From Stdlib Require Import ZArith Lia.
From S2P Require Import Prelude WalFormat Wal Engine EngineInvariant EngineTheorems EngineTotal.
From S2P Require Import Resp RespTheorems.

(** ** Replies *)

Inductive reply_value :=
| RSimple (s : bytes)
| RError (msg : bytes)
| RInteger (n : Z)
| RBulk (b : bytes)
| RNull.

#[export] Instance reply_value_eq_dec : EqDecision reply_value.
Proof. solve_decision. Defined.

Definition encode_reply (v : reply_value) : bytes :=
  match v with
  | RSimple s => ($"+" ++ s) ++ crlf
  | RError msg => ($"-ERR " ++ msg) ++ crlf
  | RInteger n => ($":" ++ itoa n) ++ crlf
  | RBulk b => encode_bulk b
  | RNull => $"$-1" ++ crlf
  end.

(** The reply a client reads from the front of what it received. *)
Definition decode_reply (s : bytes) : option (reply_value * bytes) :=
  '(line, rest) ← split_at x0a s;
  match trim_line line with
  | x2b :: t => Some (RSimple t, rest)
  | x2d :: t => Some (RError (drop 4 t), rest)
  | x3a :: t => n ← Atoi t; Some (RInteger n, rest)
  | x24 :: t =>
    n ← Atoi t;
    if n <? 0 then Some (RNull, rest)
    else if len rest <? n + 2 then None
    else Some (RBulk (take (Z.to_nat n) rest), drop (Z.to_nat (n + 2)) rest)
  | _ => None
  end.

(** A reply that fits its line: no line feed in a line, integers of 64 bits. *)
Definition line_safe (v : reply_value) : Prop :=
  match v with
  | RSimple s | RError s => x0a ∉ s
  | RInteger n => is_i64 n
  | RBulk b => len b < 2 ^ 62
  | RNull => True
  end.

Lemma decode_line l rest : x0a ∉ l -> split_at x0a ((l ++ crlf) ++ rest) = Some ((l ++ [x0d]) ++ [x0a], rest).
Proof.
  intros Hl. change crlf with ([x0d] ++ [x0a]). rewrite app_assoc, <- app_assoc.
  apply split_at_spec. rewrite not_elem_of_app. split; [done|]. by intros ?%list_elem_of_singleton.
Qed.

Lemma trim_line_crlf l : trim_line ((l ++ [x0d]) ++ [x0a]) = l.
Proof. rewrite <- app_assoc. apply trim_crlf. Qed.

Lemma not_in_prefix (p s : bytes) : x0a ∉ p -> x0a ∉ s -> x0a ∉ p ++ s.
Proof. rewrite not_elem_of_app. auto. Qed.

(** A client reads back the reply that was written and nothing more. *)
Lemma decode_encode v rest : line_safe v -> decode_reply (encode_reply v ++ rest) = Some (v, rest).
Proof.
  intros Hv. unfold decode_reply. destruct v as [s|msg|n|b|]; cbn [encode_reply line_safe] in *.
  - rewrite decode_line by (apply not_in_prefix; [by_decide|done]).
    cbn [mbind option_bind]. by rewrite trim_line_crlf.
  - rewrite decode_line by (apply not_in_prefix; [by_decide|done]).
    cbn [mbind option_bind]. by rewrite trim_line_crlf.
  - rewrite decode_line by (apply not_in_prefix; [by_decide|apply itoa_no_newline]).
    cbn [mbind option_bind]. rewrite trim_line_crlf. change ($":" ++ itoa n) with (x3a :: itoa n).
    cbv iota. by rewrite Atoi_itoa.
  - pose proof (len_nonneg b). unfold encode_bulk. rewrite app_assoc, <- app_assoc.
    rewrite decode_line by (apply not_in_prefix; [by_decide|apply itoa_no_newline]).
    cbn [mbind option_bind]. rewrite trim_line_crlf.
    change ($"$" ++ itoa (len b)) with (x24 :: itoa (len b)). cbv iota.
    rewrite Atoi_itoa by (unfold is_i64; lia). cbn [mbind option_bind].
    rewrite (proj2 (Z.ltb_ge _ 0)) by lia. rewrite !len_app. change (len crlf) with 2.
    rewrite (proj2 (Z.ltb_ge _ _)) by (pose proof (len_nonneg rest); lia).
    unfold len. rewrite Nat2Z.id, <- !app_assoc, take_app_length.
    replace (Z.to_nat (Z.of_nat (length b) + 2)) with (length b + 2)%nat by lia.
    rewrite <- drop_drop, drop_app_length. done.
  - reflexivity.
Qed.

(** ** The adapter as a function from commands to replies *)

Definition answer (cmd : RespCommand) : GoM Engine reply_value :=
  let name := ToUpper (Name cmd) in
  if bool_decide (name = $"PING") then mret (RSimple ($"PONG"))
  else if bool_decide (name = $"GET") then
    match Args cmd with
    | [key] => v ← Get key; mret (match v with None => RNull | Some (value, _) => RBulk value end)
    | _ => mret (RError ($"wrong number of arguments for 'get' command"))
    end
  else if bool_decide (name = $"SET") then
    match Args cmd with
    | key :: value :: _ =>
      match set_ttl (Args cmd) with
      | Err msg => mret (RError msg)
      | Ok ttlSeconds =>
        r ← Put key value ttlSeconds [];
        mret (match r with Err e => RError (engine_error_msg e) | Ok _ => RSimple ($"OK") end)
      end
    | _ => mret (RError ($"wrong number of arguments for 'set' command"))
    end
  else if bool_decide (name = $"DEL") then
    match Args cmd with
    | [] => mret (RError ($"wrong number of arguments for 'del' command"))
    | keys =>
      r ← del_loop keys 0;
      mret (match r with Err e => RError (engine_error_msg e) | Ok n => RInteger n end)
    end
  else mret (RError (unknown_command (Name cmd))).

Fixpoint answers (cmds : list RespCommand) : GoM Engine (list reply_value) :=
  match cmds with
  | [] => mret []
  | cmd :: cmds => v ← answer cmd; vs ← answers cmds; mret (v :: vs)
  end.

(** The writer of each kind of reply. *)
Definition write_of (v : reply_value) : GoM Out (option oserr) :=
  match v with
  | RSimple s => WriteSimpleString s
  | RError s => WriteError s
  | RInteger n => WriteInteger n
  | RBulk b => WriteBulkString b
  | RNull => WriteNullBulkString
  end.

Lemma write_reply v e o :
  reply (write_of v) (e, mkOut o []) = (e, mkOut (o ++ encode_reply v) [], Ret None).
Proof.
  unfold reply, zoom. destruct v; cbn [encode_reply write_of fst snd]; unfold WriteSimpleString,
    WriteError, WriteInteger, WriteBulkString, WriteNullBulkString, mbind, GoM_bind;
    rewrite ?write_quiet, <- ?app_assoc; done.
Qed.

(** [dispatch] as an answer and the writing of it. *)
Lemma dispatch_unfold cmd s :
  dispatch cmd s = (v ← on_engine (answer cmd); reply (write_of v)) s.
Proof.
  unfold dispatch, answer. destruct s as [e o]. unfold on_engine, mbind, GoM_bind, zoom. cbn [fst snd].
  repeat case_bool_decide; try done.
  - destruct (Args cmd) as [|key [|]]; try done. cbn [fst snd].
    by destruct (Get key e) as [e' [[[value n]|]| |]].
  - destruct (Args cmd) as [|key [|value args]]; try done.
    destruct (set_ttl _) as [ttl|msg]; [|done]. cbn [fst snd].
    by destruct (Put key value ttl [] e) as [e' [[]| |]].
  - destruct (Args cmd) as [|key keys]; [done|]. cbn [fst snd].
    by destruct (del_loop (key :: keys) 0 e) as [e' [[]| |]].
Qed.

Lemma del_loop_returns keys n : returns idle (del_loop keys n).
Proof.
  revert n. induction keys as [|k keys IH]; intros n; cbn [del_loop]; [eauto with total|].
  apply returns_bind; [eauto with total|]. intros [v|]; [|apply IH].
  apply returns_bind; [eauto with total|]. intros [out|e]; [apply IH|eauto with total].
Qed.

Lemma answer_returns cmd : returns idle (answer cmd).
Proof.
  unfold answer. repeat case_match; eauto with total.
  apply returns_bind; [apply del_loop_returns|eauto with total].
Qed.

Lemma answers_returns cmds : returns idle (answers cmds).
Proof.
  induction cmds as [|cmd cmds IH]; cbn [answers]; [eauto with total|].
  apply returns_bind; [apply answer_returns|]. intros v. apply returns_bind; eauto with total.
Qed.

(** On an engine that is idle a command is answered, and on a connection that
    takes the reply it is written. *)
Lemma dispatch_answer cmd e e' v o :
  answer cmd e = (e', Ret v) ->
  dispatch cmd (e, mkOut o []) = (e', mkOut (o ++ encode_reply v) [], Ret None).
Proof.
  intros Ha. rewrite dispatch_unfold. erewrite bind_ret; [|unfold on_engine; by erewrite zoom_ret by exact Ha].
  cbn. apply write_reply.
Qed.

(** ** Which replies are readable *)

Definition clean (cmd : RespCommand) : Prop := x0a ∉ Name cmd.

Lemma set_ttl_safe args msg : set_ttl args = Err msg -> x0a ∉ msg.
Proof.
  unfold set_ttl. intros H. repeat case_match; simplify_eq; by_decide.
Qed.

Lemma unknown_command_safe name : x0a ∉ name -> x0a ∉ unknown_command name.
Proof.
  intros H. unfold unknown_command. repeat apply not_in_prefix; (done || by_decide).
Qed.

Lemma del_loop_count keys n e e' d :
  is_i64 n -> del_loop keys n e = (e', Ret (Ok d)) -> is_i64 d.
Proof.
  revert n e. induction keys as [|k keys IH]; intros n e Hn; cbn [del_loop].
  - intros [= _ <-]. done.
  - unfold mbind, GoM_bind. destruct (Get k e) as [e1 [[v|]| |]]; try done; [|by apply IH].
    destruct (Delete k [] e1) as [e2 [[out|er]| |]]; try done. apply IH, i64_range.
Qed.

(** A reply to a command with a clean name is readable, unless it is the text of
    an engine error or a value too long for any machine. *)
Lemma answer_safe cmd e e' v :
  clean cmd -> answer cmd e = (e', Ret v) ->
  line_safe v \/ (exists err, v = RError (engine_error_msg err)) \/
  (exists b, v = RBulk b /\ 2 ^ 62 <= len b).
Proof.
  intros Hc. unfold answer, mbind, GoM_bind. repeat case_bool_decide.
  - intros [= _ <-]. left. by_decide.
  - destruct (Args cmd) as [|key [|]]; [intros [= _ <-]; left; by_decide| |intros [= _ <-]; left; by_decide].
    destruct (Get key e) as [e1 [[[b n]|]| |]]; try done; intros [= _ <-]; [|by left].
    destruct (Z.lt_ge_cases (len b) (2 ^ 62)); [by left|right; right; eauto].
  - destruct (Args cmd) as [|key [|value args]]; [intros [= _ <-]; left; by_decide..|].
    destruct (set_ttl _) as [ttl|msg] eqn:Ht; [|intros [= _ <-]; left; by eapply set_ttl_safe].
    destruct (Put key value ttl [] e) as [e1 [[out|er]| |]]; try done; intros [= _ <-];
      [left; by_decide|right; left; eauto].
  - destruct (Args cmd) as [|key keys]; [intros [= _ <-]; left; by_decide|].
    destruct (del_loop (key :: keys) 0 e) as [e1 [[n|er]| |]] eqn:Hd; try done; intros [= _ <-];
      [left; by apply del_loop_count in Hd|right; left; eauto].
  - intros [= _ <-]. left. by apply unknown_command_safe.
Qed.

(** ** The connection *)

Lemma write_returns p : returns (fun _ => True) (write p).
Proof. intros o _. unfold write. destruct (out_script o) as [|[[n e]|] s]; by do 2 eexists. Qed.

Lemma write_of_returns v : returns (fun _ => True) (write_of v).
Proof.
  destruct v; cbn [write_of]; try apply write_returns.
  unfold WriteBulkString. apply returns_bind; [apply write_returns|]. intros [e|]; [apply returns_ret|].
  apply returns_bind; [apply write_returns|]. intros [e|]; [apply returns_ret|]. apply write_returns.
Qed.

Lemma dispatch_returns cmd : returns (fun s => idle s.1) (dispatch cmd).
Proof.
  intros s Hs. rewrite dispatch_unfold. revert s Hs. apply returns_bind.
  - eapply returns_zoom; [..|apply answer_returns]; done.
  - intros v. eapply returns_zoom; [..|apply (write_of_returns v)]; done.
Qed.

(** A command takes at least a byte of the input. *)
Lemma ReadCommand_consumes r r' cmd :
  ReadCommand r = (r', Ret (Ok cmd)) -> (length (r_rest r') < length (r_rest r))%nat.
Proof.
  assert (Hp : forall fuel n parts r r' ps, read_parts fuel n parts r = (r', Ret (Ok ps)) ->
            (length (r_rest r') <= length (r_rest r))%nat).
  { induction fuel as [|fuel IH]; intros n parts r0 r1 ps; cbn.
    - destruct (n <=? 0); [by intros [= <- _]|done].
    - destruct (n <=? 0); [by intros [= <- _]|]. unfold mbind, GoM_bind.
      pose proof (readBulkString_consumes r0) as Hb.
      destruct (readBulkString r0) as [r2 [[b|e]| |]]; try done. intros ?%IH. lia. }
  unfold ReadCommand, mbind, GoM_bind. pose proof (readLine_consumes r) as Hl.
  destruct (readLine r) as [r1 [[line|e]| |]]; try done.
  destruct line as [|b s]; [done|]. destruct b; try done.
  destruct (Atoi s) as [n|]; [|done]. destruct (n <? 1); [done|].
  unfold makeslice. destruct (_ || _); [done|]. cbn -[read_parts].
  destruct (read_parts _ n [] r1) as [r2 [[ps|e]| |]] eqn:E; try done.
  apply Hp in E. destruct ps; [done|]. intros [= <- _]. lia.
Qed.

(** A connection ends on every input: however malformed the bytes are, whatever
    the engine's disk and the client's socket do, [handleConn] returns or the
    process panics, and the engine is left idle for the other connections. *)
Theorem connection_ends r e o :
  idle e -> exists e' o' x, handleConn r (e, o) = (e', o', x) /\ x <> Blocked /\ idle e'.
Proof.
  unfold handleConn. generalize (le_n (S (length (r_rest r)))).
  generalize (S (length (r_rest r))) at 2 3 as fuel. intros fuel. revert r e o.
  induction fuel as [|fuel IH]; intros r e o Hf He; [lia|]. cbn [handle_loop].
  pose proof (read_command_returns r) as Ht.
  destruct (ReadCommand r) as [r1 [[cmd|er]|w|]] eqn:Er; [|by do 3 eexists|by do 3 eexists|done].
  apply ReadCommand_consumes in Er.
  destruct (dispatch_returns cmd (e, o) He) as ([e1 o1] & x & E & He1).
  rewrite (bind_ret _ _ _ _ _ E). destruct x as [er|]; [by do 3 eexists|].
  apply IH; [lia|done].
Qed.

(** What a client decodes from the bytes it receives, [n] replies at most. *)
Fixpoint decode_replies (n : nat) (s : bytes) : option (list reply_value) :=
  match n with
  | O => Some []
  | S n => '(v, rest) ← decode_reply s; vs ← decode_replies n rest; Some (v :: vs)
  end.

Lemma decode_encode_all vs :
  Forall line_safe vs -> decode_replies (length vs) (concat (encode_reply <$> vs)) = Some vs.
Proof.
  induction 1 as [|v vs Hv Hvs IH]; [done|]. cbn [fmap list_fmap concat length decode_replies].
  rewrite decode_encode by done. cbn [mbind option_bind]. by rewrite IH.
Qed.

Lemma handle_loop_pipelined cmds e e' vs fuel o :
  Forall allocatable cmds -> answers cmds e = (e', Ret vs) -> (length cmds < fuel)%nat ->
  handle_loop fuel (mkReader (concat (encode_command <$> cmds)) None) (e, mkOut o [])
  = (e', mkOut (o ++ concat (encode_reply <$> vs)) [], Ret tt).
Proof.
  intros Hall. revert e vs fuel o.
  induction Hall as [|cmd cmds Hc Hcs IH]; intros e vs fuel o Ha Hf; (destruct fuel as [|fuel]; [cbn in Hf; lia|]).
  - injection Ha as <- <-. cbn. by rewrite app_nil_r.
  - cbn [answers] in Ha. unfold mbind at 1, GoM_bind at 1 in Ha.
    destruct (answer cmd e) as [e1 [v| |]] eqn:E1; try done.
    unfold mbind, GoM_bind in Ha. destruct (answers cmds e1) as [e2 [vs'| |]] eqn:E2; try done.
    injection Ha as <- <-. cbn [handle_loop fmap list_fmap concat].
    rewrite read_command_encoded by done.
    rewrite (bind_ret _ _ _ _ _ (dispatch_answer _ _ _ _ o E1)).
    rewrite (IH e1 vs' fuel _ E2) by (cbn in Hf; lia). by rewrite <- app_assoc.
Qed.

Lemma encode_commands_length cmds : (length cmds <= length (concat (encode_command <$> cmds)))%nat.
Proof.
  induction cmds as [|c cmds IH]; cbn [fmap list_fmap concat length]; [lia|].
  rewrite length_app. unfold encode_command at 1. rewrite !length_app.
  change (length ($"*")) with 1%nat. lia.
Qed.

Lemma answers_length cmds e e' vs : answers cmds e = (e', Ret vs) -> length vs = length cmds.
Proof.
  revert e vs. induction cmds as [|cmd cmds IH]; intros e vs; cbn [answers].
  - by intros [= _ <-].
  - unfold mbind, GoM_bind. destruct (answer cmd e) as [e1 [v| |]]; try done.
    destruct (answers cmds e1) as [e2 [vs'| |]] eqn:E; try done. intros [= -> <-].
    cbn. f_equal. by eapply IH.
Qed.

(** Replies whose parts that come from outside the server are harmless: the text
    of an engine error, which is the operating system's, has no line feed, and a
    value is one a machine can hold. *)
Definition harmless (vs : list reply_value) : Prop :=
  (forall err, RError (engine_error_msg err) ∈ vs -> x0a ∉ engine_error_msg err) /\
  (forall b, RBulk b ∈ vs -> len b < 2 ^ 62).

Lemma answers_safe cmds e e' vs :
  Forall clean cmds -> answers cmds e = (e', Ret vs) -> harmless vs -> Forall line_safe vs.
Proof.
  intros Hc. revert e vs. induction Hc as [|cmd cmds Hcmd _ IH]; intros e vs; cbn [answers].
  - by intros [= _ <-] _.
  - unfold mbind, GoM_bind. destruct (answer cmd e) as [e1 [v| |]] eqn:Ea; try done.
    destruct (answers cmds e1) as [e2 [vs'| |]] eqn:E; try done. intros [= -> <-] [He Hb].
    constructor.
    + destruct (answer_safe _ _ _ _ Hcmd Ea) as [?|[[err ->]|(b & -> & Hlong)]]; [done|..].
      * apply He. set_solver.
      * specialize (Hb b). lapply Hb; [lia|set_solver].
    + eapply IH; [done|]. split; intros ? Hin; [apply He|apply Hb]; set_solver.
Qed.

(** C26: pipelined commands are answered one by one in order: on an idle engine, a
    connection on which a client sends the encodings of commands whose names have
    no line feed ends with the engine in the state the commands lead to one after
    another, and the bytes it received are one reply per command, which the client
    decodes: exactly the commands' answers, as long as no text of an engine error
    has a line feed and no value has 2^62 bytes.  (A name with a line feed splits its reply in two:
    [reply_splitting].)  The client's socket takes every write. *)
Theorem connection_pipelined cmds e :
  Forall allocatable cmds -> Forall clean cmds -> idle e ->
  exists e' vs, answers cmds e = (e', Ret vs) /\ length vs = length cmds /\ idle e' /\
    handleConn (mkReader (concat (encode_command <$> cmds)) None) (e, mkOut [] [])
    = (e', mkOut (concat (encode_reply <$> vs)) [], Ret tt) /\
    (harmless vs -> decode_replies (length cmds) (concat (encode_reply <$> vs)) = Some vs).
Proof.
  intros Hall Hclean He. destruct (answers_returns cmds e He) as (e' & vs & Ha & He').
  pose proof (answers_length _ _ _ _ Ha) as Hlen. exists e', vs. split_and!; try done.
  - unfold handleConn. apply (handle_loop_pipelined _ _ _ _ _ [] Hall Ha). cbn [r_rest].
    pose proof (encode_commands_length cmds). lia.
  - intros Hv. rewrite <- Hlen. apply decode_encode_all. by eapply answers_safe.
Qed.

Definition pipelined : list RespCommand := [set_cmd ($"k") ($"v"); get_cmd ($"k")].
Definition pipelined_replies : list reply_value := [RSimple ($"OK"); RBulk ($"v")].

Lemma pipelined_harmless : harmless pipelined_replies.
Proof.
  unfold harmless, pipelined_replies. split.
  - intros err. generalize (engine_error_msg err). intros msg Hin.
    rewrite !elem_of_cons in Hin. destruct Hin as [Hin|[Hin|Hin]]; [congruence..|].
    by apply not_elem_of_nil in Hin.
  - intros b Hin. rewrite !elem_of_cons in Hin. destruct Hin as [Hin|[Hin|Hin]]; [congruence| |].
    + injection Hin as ->. by vm_compute.
    + by apply not_elem_of_nil in Hin.
Qed.

Lemma connection_pipelined_witness :
  exists e', answers pipelined (fresh_engine [] at100) = (e', Ret pipelined_replies) /\ idle e' /\
    handleConn (mkReader (concat (encode_command <$> pipelined)) None)
      (fresh_engine [] at100, mkOut [] [])
    = (e', mkOut (concat (encode_reply <$> pipelined_replies)) [], Ret tt) /\
    decode_replies 2 (concat (encode_reply <$> pipelined_replies)) = Some pipelined_replies.
Proof.
  destruct (connection_pipelined pipelined (fresh_engine [] at100)) as (e' & vs & Ha & _ & Hi & Hc & Hd);
    [repeat constructor; by vm_compute|repeat constructor; by_decide|done|].
  assert (Hv : (answers pipelined (fresh_engine [] at100)).2 = Ret pipelined_replies)
    by (vm_compute; reflexivity).
  rewrite Ha in Hv. cbn [snd] in Hv. injection Hv as ->.
  exists e'. split_and!; [exact Ha|exact Hi|exact Hc|]. apply Hd. exact pipelined_harmless.
Defined.

Lemma connection_ends_witness :
  exists e' o' x, handleConn (mkReader ($"*2" ++ crlf ++ $"garbage") (Some ($"reset by peer")))
                    (fresh_engine [] at100, mkOut [] []) = (e', o', x) /\ x <> Blocked /\ idle e'.
Proof.
  exact (connection_ends (mkReader ($"*2" ++ crlf ++ $"garbage") (Some ($"reset by peer")))
           (fresh_engine [] at100) (mkOut [] []) eq_refl).
Defined.
