(* ===== verification/RespServer.v ===== *)
(** * Several RESP connections on one engine (internal/resp/server.go)

    [ListenAndServe] accepts connections and serves each in a goroutine of its
    own.  The goroutines share the engine, whose calls are critical sections, so
    a command is split into its calls ([task]) and connections interleave between
    them.  What a client sends arrives when the client sends it: a goroutine
    whose command has not arrived in full waits, for ever if the client says
    nothing more ([handleConn] sets no deadline), and so does one whose client
    does not take its replies.  Every interleaving is a run of the abstract store,
    each reply is explained by the calls its own connection made, and the server
    goes on until every open connection waits for its client. *)

From Stdlib Require Import ZArith Lia Relation_Operators Lexicographic_Product.
From stdpp Require Import relations.
From S2P Require Import Prelude WalFormat Wal WalStore Engine EngineInvariant EngineTheorems EngineTotal Store.
From S2P Require Import Resp RespTheorems RespConnection.

(** ** A command as a sequence of engine calls *)

(** What [dispatch] still has to do for a command.  [Put] reads the clock before
    it takes the lock; DEL looks each key up and deletes it in separate calls. *)
Inductive task :=
| TGet (key : bytes)
| TTTL (key value : bytes) (ttlSeconds : Z)
| TPut (key value : bytes) (expiresAtUnixNano : Z)
| TDel (keys : list bytes) (deleted : Z)
| TDelete (key : bytes) (keys : list bytes) (deleted : Z)
| TReply (v : reply_value).

Definition task_of (cmd : RespCommand) : task :=
  let name := ToUpper (Name cmd) in
  if bool_decide (name = $"PING") then TReply (RSimple ($"PONG"))
  else if bool_decide (name = $"GET") then
    match Args cmd with
    | [key] => TGet key
    | _ => TReply (RError ($"wrong number of arguments for 'get' command"))
    end
  else if bool_decide (name = $"SET") then
    match Args cmd with
    | key :: value :: _ =>
      match set_ttl (Args cmd) with
      | Err msg => TReply (RError msg)
      | Ok ttlSeconds => TTTL key value ttlSeconds
      end
    | _ => TReply (RError ($"wrong number of arguments for 'set' command"))
    end
  else if bool_decide (name = $"DEL") then
    match Args cmd with
    | [] => TReply (RError ($"wrong number of arguments for 'del' command"))
    | keys => TDel keys 0
    end
  else TReply (RError (unknown_command (Name cmd))).

Definition get_reply (v : option (bytes * Z)) : reply_value :=
  match v with None => RNull | Some (value, _) => RBulk value end.
Definition put_reply (r : result engine_error Outcome) : reply_value :=
  match r with Err e => RError (engine_error_msg e) | Ok _ => RSimple ($"OK") end.

(** One engine call of the task. *)
Definition task_step (t : task) : GoM Engine task :=
  match t with
  | TGet key => v ← Get key; mret (TReply (get_reply v))
  | TTTL key value ttlSeconds => x ← resolve_ttl ttlSeconds; mret (TPut key value x)
  | TPut key value x => r ← ApplyPut key value x []; mret (TReply (put_reply r))
  | TDel [] deleted => mret (TReply (RInteger deleted))
  | TDel (key :: keys) deleted =>
    v ← Get key;
    mret (match v with None => TDel keys deleted | Some _ => TDelete key keys deleted end)
  | TDelete key keys deleted =>
    r ← Delete key [];
    mret (match r with
          | Err e => TReply (RError (engine_error_msg e))
          | Ok _ => TDel keys (i64 (deleted + 1))
          end)
  | TReply v => mret (TReply v)
  end.

(** The calls a task makes at most. *)
Definition task_size (t : task) : nat :=
  match t with
  | TGet _ => 1
  | TTTL _ _ _ => 2
  | TPut _ _ _ => 1
  | TDel keys _ => 2 * length keys + 1
  | TDelete _ keys _ => 2 * length keys + 2
  | TReply _ => 0
  end.

Fixpoint task_run (n : nat) (t : task) : GoM Engine task :=
  match n with O => mret t | S n => t' ← task_step t; task_run n t' end.

Lemma task_run_reply n v e : task_run n (TReply v) e = (e, Ret (TReply v)).
Proof. induction n as [|n IH]; [done|]. cbn. exact IH. Qed.

Lemma task_run_del keys n e fuel :
  (2 * length keys + 1 <= fuel)%nat ->
  task_run fuel (TDel keys n) e
  = (r ← del_loop keys n;
     mret (TReply (match r with Err er => RError (engine_error_msg er) | Ok d => RInteger d end))) e.
Proof.
  revert n e fuel. induction keys as [|k keys IH]; intros n e fuel Hf;
    (destruct fuel as [|fuel]; [cbn in Hf; lia|]); [apply task_run_reply|].
  cbn [task_run task_step del_loop]. unfold mbind, GoM_bind.
  destruct (Get k e) as [e1 [[v|]| |]]; try done; cbn [mret GoM_ret].
  - destruct fuel as [|fuel]; [cbn in Hf; lia|]. cbn [task_run task_step]. unfold mbind, GoM_bind.
    destruct (Delete k [] e1) as [e2 [[out|er]| |]]; try done; cbn [mret GoM_ret].
    + rewrite IH by (cbn in Hf; lia). done.
    + apply task_run_reply.
  - rewrite IH by (cbn in Hf; lia). done.
Qed.

(** A task that is not interrupted does what [dispatch] does. *)
Lemma task_alone cmd e :
  task_run (task_size (task_of cmd)) (task_of cmd) e = (v ← answer cmd; mret (TReply v)) e.
Proof.
  unfold task_of, answer. repeat case_bool_decide; try done.
  - destruct (Args cmd) as [|key [|]]; try done. cbn. unfold mbind, GoM_bind.
    by destruct (Get key e) as [e1 [[[b n]|]| |]].
  - destruct (Args cmd) as [|key [|value args]]; try done.
    destruct (set_ttl _) as [ttl|msg]; [|done]. cbn [task_size task_run task_step].
    unfold Put, mbind, GoM_bind. destruct (resolve_ttl ttl e) as [e1 [x| |]]; try done.
    cbn [mret GoM_ret task_step]. unfold mbind, GoM_bind.
    by destruct (ApplyPut key value x [] e1) as [e2 [[]| |]].
  - destruct (Args cmd) as [|key keys]; [done|]. cbn [task_size].
    rewrite task_run_del by lia. unfold mbind, GoM_bind.
    by destruct (del_loop (key :: keys) 0 e) as [e1 [[]| |]].
Qed.

(** ** Connections *)

Inductive conn_pc := Reading | Working (t : task) | Closed.

(** A connection: what its client has sent so far, what of it is still unread,
    whether the client has ended its side (an EOF, or the fault of the reader),
    whether it takes what is written, what was written, and where the goroutine
    is. *)
Record conn := mkConn {
  cn_sent : reader; cn_in : reader; cn_ended : bool; cn_taking : bool;
  cn_out : Out; cn_pc : conn_pc
}.

(** A connection that was just accepted; the script has the outcomes of its
    writes. *)
Definition accepted (script : list (option (nat * oserr))) : conn :=
  mkConn (mkReader [] None) (mkReader [] None) false true (mkOut [] script) Reading.

(** What a client does: it sends bytes, ends its side, or stops and resumes
    taking replies. *)
Definition sends (x : bytes) (c : conn) : conn :=
  mkConn (more x None (cn_sent c)) (more x None (cn_in c)) (cn_ended c) (cn_taking c)
    (cn_out c) (cn_pc c).
Definition ends (fault : option oserr) (c : conn) : conn :=
  mkConn (more [] fault (cn_sent c)) (more [] fault (cn_in c)) true (cn_taking c)
    (cn_out c) (cn_pc c).
Definition takes (b : bool) (c : conn) : conn :=
  mkConn (cn_sent c) (cn_in c) (cn_ended c) b (cn_out c) (cn_pc c).

Inductive client_step : conn -> conn -> Prop :=
| client_sends c x : cn_ended c = false -> client_step c (sends x c)
| client_ends c fault : cn_ended c = false -> client_step c (ends fault c)
| client_takes c b : client_step c (takes b c).

(** A goroutine's next step: it moves, it waits for its client, there is none, or
    a panic ends the process. *)
Inductive outcome := Moves (e : Engine) (c : conn) | Waits | Stuck | Crashes.

(** The bytes that have arrived end before the command does. *)
Definition ran_out (e : resp_error) : bool := match e with ReadFailed _ => true | _ => false end.

Definition go_to (c : conn) (r : reader) (o : Out) (pc : conn_pc) : conn :=
  mkConn (cn_sent c) r (cn_ended c) (cn_taking c) o pc.

Definition conn_step (c : conn) (e : Engine) : outcome :=
  match cn_pc c with
  | Closed => Stuck
  | Reading =>
    match ReadCommand (cn_in c) with
    | (r, Ret (Ok cmd)) => Moves e (go_to c r (cn_out c) (Working (task_of cmd)))
    | (r, Ret (Err er)) =>
      if ran_out er && negb (cn_ended c) then Waits else Moves e (go_to c r (cn_out c) Closed)
    | (_, Panic _) => Crashes
    | (_, Blocked) => Stuck
    end
  | Working (TReply v) =>
    if negb (cn_taking c) then Waits else
    match write_of v (cn_out c) with
    | (o, Ret None) => Moves e (go_to c (cn_in c) o Reading)
    | (o, Ret (Some _)) => Moves e (go_to c (cn_in c) o Closed)
    | (_, Panic _) => Crashes
    | (_, Blocked) => Stuck
    end
  | Working t =>
    match task_step t e with
    | (e', Ret t') => Moves e' (go_to c (cn_in c) (cn_out c) (Working t'))
    | (_, Panic _) => Crashes
    | (_, Blocked) => Stuck
    end
  end.

(** The engine call a connection's next step makes. *)
Definition task_call (t : task) : option call :=
  match t with
  | TGet key | TDel (key :: _) _ => Some (CGet key)
  | TPut key value x => Some (CWrite (MPut key value x []))
  | TDelete key _ _ => Some (CWrite (MDelete key []))
  | TTTL _ _ _ | TDel [] _ | TReply _ => None
  end.
Definition conn_call (c : conn) : option call :=
  match cn_pc c with Working t => task_call t | _ => None end.

(** ** The server *)

(** [ListenAndServe] is in [Accept], or has returned. *)
Record server := mkServer {
  rs_engine : Engine; rs_listening : bool; rs_conns : list conn; rs_crashed : bool
}.

Definition set_conn (i : nat) (c : conn) (e : Engine) (s : server) : server :=
  mkServer e (rs_listening s) (<[i := c]> (rs_conns s)) (rs_crashed s).

(** The event of a step that calls the engine. *)
Definition step_event (c : option call) (e e' : Engine) (evs : list event) : Prop :=
  match c with
  | Some c => exists ev, engine_step e c ev e' /\ evs = [ev]
  | None => evs = []
  end.

(** A step of a connection's goroutine. *)
Inductive serves : server -> list (nat * event) -> server -> Prop :=
| conn_moves s i c e' c' evs :
    rs_crashed s = false -> rs_conns s !! i = Some c -> conn_step c (rs_engine s) = Moves e' c' ->
    step_event (conn_call c) (rs_engine s) e' evs ->
    serves s (pair i <$> evs) (set_conn i c' e' s)
| conn_crashes s i c :
    rs_crashed s = false -> rs_conns s !! i = Some c -> conn_step c (rs_engine s) = Crashes ->
    serves s [] (mkServer (rs_engine s) (rs_listening s) (rs_conns s) true).

Inductive server_step : server -> list (nat * event) -> server -> Prop :=
| listener_accepts s script :
    rs_crashed s = false -> rs_listening s = true ->
    server_step s []
      (mkServer (rs_engine s) true (rs_conns s ++ [accepted script]) (rs_crashed s))
| listener_fails s :
    rs_crashed s = false -> rs_listening s = true ->
    server_step s [] (mkServer (rs_engine s) false (rs_conns s) (rs_crashed s))
| client_acts s i c c' :
    rs_conns s !! i = Some c -> client_step c c' ->
    server_step s [] (set_conn i c' (rs_engine s) s)
| goroutine_steps s tr s' : serves s tr s' -> server_step s tr s'.

(** The log has room for what the connections are about to write. *)
Definition conn_room (e : Engine) (c : conn) : Prop :=
  match conn_call c with Some (CWrite m) => fits (e_log e) (mutation_record m) | _ => True end.
#[export] Instance conn_room_dec e c : Decision (conn_room e c).
Proof. unfold conn_room. repeat case_match; apply _. Defined.

Definition roomy (s : server) : Prop := Forall (conn_room (rs_engine s)) (rs_conns s).

Inductive server_run : server -> list (nat * event) -> server -> Prop :=
| server_done s : server_run s [] s
| server_then s tr1 s1 tr2 s2 :
    server_run s tr1 s1 -> roomy s1 -> server_step s1 tr2 s2 -> server_run s (tr1 ++ tr2) s2.

Definition server_init (e : Engine) : server := mkServer e true [] false.

(** ** What explains a reply *)

(** The calls, in order, with which a task comes to a reply. *)
Inductive completes : task -> list event -> reply_value -> Prop :=
| co_reply v : completes (TReply v) [] v
| co_get k now r : completes (TGet k) [EvGet k now r] (get_reply r)
| co_ttl k v ttl now evs w :
    completes (TPut k v (if 0 <? ttl then ttl_expiry now ttl else 0)) evs w ->
    completes (TTTL k v ttl) evs w
| co_put k v x now r : completes (TPut k v x) [EvWrite (MPut k v x []) now r] (put_reply r)
| co_del_end n : completes (TDel [] n) [] (RInteger n)
| co_del_absent k ks n now evs w :
    completes (TDel ks n) evs w -> completes (TDel (k :: ks) n) (EvGet k now None :: evs) w
| co_del_present k ks n now b evs w :
    completes (TDelete k ks n) evs w -> completes (TDel (k :: ks) n) (EvGet k now (Some b) :: evs) w
| co_deleted k ks n now out evs w :
    completes (TDel ks (i64 (n + 1))) evs w ->
    completes (TDelete k ks n) (EvWrite (MDelete k []) now (Ok out) :: evs) w
| co_delete_failed k ks n now er :
    completes (TDelete k ks n) [EvWrite (MDelete k []) now (Err er)] (RError (engine_error_msg er)).
#[local] Hint Constructors completes : core.

(** A step of a task leaves a task that completes what the first one began. *)
Lemma task_step_completes t e e' t' evs post w :
  task_step t e = (e', Ret t') -> step_event (task_call t) e e' evs -> completes t' post w ->
  completes t (evs ++ post) w.
Proof.
  unfold mbind, GoM_bind. destruct t as [k|k v ttl|k v x|[|k ks] n|k ks n|v];
    cbn [task_step task_call step_event engine_step]; unfold mbind, GoM_bind.
  - destruct (Get k e) as [e1 [r| |]] eqn:E; try done.
    intros [= <- <-] (ev & (r' & [= <-] & ->) & ->) Hc. inversion Hc; subst. apply co_get.
  - unfold resolve_ttl. intros Ht -> Hc. apply (co_ttl _ _ _ (e_clock e 0%nat)).
    destruct (0 <? ttl); injection Ht as <- <-; exact Hc.
  - unfold run. destruct (ApplyPut k v x [] e) as [e1 [r| |]] eqn:E; try done.
    intros [= <- <-] (ev & (r' & [= <-] & ->) & ->) Hc. inversion Hc; subst. apply co_put.
  - intros [= <- <-] -> Hc. inversion Hc; subst. apply co_del_end.
  - destruct (Get k e) as [e1 [r| |]] eqn:E; try done.
    intros [= <- <-] (ev & (r' & [= <-] & ->) & ->) Hc. cbn. destruct r; auto.
  - unfold run. destruct (Delete k [] e) as [e1 [r| |]] eqn:E; try done.
    intros [= <- <-] (ev & (r' & [= <-] & ->) & ->) Hc. cbn.
    destruct r; [by auto|]. inversion Hc; subst. apply co_delete_failed.
  - intros [= <- <-] -> Hc. done.
Qed.

(** The commands the client's bytes begin with, and what is left behind them. *)
Inductive reads : reader -> list RespCommand -> reader -> Prop :=
| reads_none r : reads r [] r
| reads_next r cmds r1 cmd r2 :
    reads r cmds r1 -> ReadCommand r1 = (r2, Ret (Ok cmd)) -> reads r (cmds ++ [cmd]) r2.

Lemma reads_more x fault r cmds r' :
  reads r cmds r' -> reads (more x fault r) cmds (more x fault r').
Proof.
  induction 1 as [|r cmds r1 cmd r2 _ IH Hc]; [constructor|]. eapply reads_next; [exact IH|].
  by apply framed_ReadCommand.
Qed.

(** A command that was answered, with its calls and its reply. *)
Record exchange := mkExchange { x_cmd : RespCommand; x_calls : list event; x_reply : reply_value }.

Definition explained_exchange (x : exchange) : Prop :=
  completes (task_of (x_cmd x)) (x_calls x) (x_reply x).

Definition calls_of (l : list exchange) : list event := concat (x_calls <$> l).
Definition replies_of (l : list exchange) : bytes := concat ((encode_reply ∘ x_reply) <$> l).

(** A connection's calls and its output are those of its commands in order: of
    all it has read while it reads, of all but the current one while it works on
    that; a connection whose socket failed has sent a prefix. *)
Definition explained (c : conn) (evs : list event) : Prop :=
  exists l, Forall explained_exchange l /\
  match cn_pc c with
  | Reading => reads (cn_sent c) (x_cmd <$> l) (cn_in c) /\ evs = calls_of l /\
               out_data (cn_out c) = replies_of l
  | Working t =>
      exists cmd begun, reads (cn_sent c) ((x_cmd <$> l) ++ [cmd]) (cn_in c) /\
        evs = calls_of l ++ begun /\ out_data (cn_out c) = replies_of l /\
        forall rest v, completes t rest v -> completes (task_of cmd) (begun ++ rest) v
  | Closed => exists r, reads (cn_sent c) (x_cmd <$> l) r /\ evs = calls_of l /\
                        out_data (cn_out c) `prefix_of` replies_of l
  end.

Lemma calls_snoc l x : calls_of (l ++ [x]) = calls_of l ++ x_calls x.
Proof. unfold calls_of. rewrite fmap_app, concat_app. cbn. by rewrite app_nil_r. Qed.

Lemma replies_snoc l x : replies_of (l ++ [x]) = replies_of l ++ encode_reply (x_reply x).
Proof. unfold replies_of. rewrite fmap_app, concat_app. cbn. by rewrite app_nil_r. Qed.

(** A write appends its bytes, or a prefix of them if it fails. *)
Lemma write_of_spec v o o' r :
  write_of v o = (o', Ret r) ->
  exists p, out_data o' = out_data o ++ p /\ p `prefix_of` encode_reply v /\
    (r = None -> p = encode_reply v).
Proof.
  assert (Hw : forall b o o' r, write b o = (o', Ret r) ->
            exists p, out_data o' = out_data o ++ p /\ p `prefix_of` b /\ (r = None -> p = b)).
  { intros b [d [|[[n e]|] sc]] o1 r1 [= <- <-]; cbn; eexists; (split; [done|]); split; try done.
    apply prefix_take. }
  destruct v as [s|s|n|b|]; cbn [write_of encode_reply]; rewrite <- ?app_assoc; try apply Hw.
  replace (encode_bulk b) with (($"$" ++ itoa (len b) ++ crlf) ++ b ++ crlf)
    by (unfold encode_bulk; by rewrite <- !app_assoc).
  unfold WriteBulkString, mbind, GoM_bind. set (head := $"$" ++ itoa (len b) ++ crlf).
  destruct (write head o) as [o1 [[e1|]| |]] eqn:E1; try done; apply Hw in E1 as (p1 & H1 & Hp1 & Ha1).
  { intros [= <- <-]. exists p1. split; [done|]. split; [by apply prefix_app_r|done]. }
  rewrite (Ha1 eq_refl) in H1. clear p1 Hp1 Ha1.
  destruct (write b o1) as [o2 [[e2|]| |]] eqn:E2; try done; apply Hw in E2 as (p2 & H2 & Hp2 & Ha2).
  { intros [= <- <-]. rewrite H2, H1, <- app_assoc. eexists. split; [done|]. split; [|done].
    by apply prefix_app, prefix_app_r. }
  rewrite (Ha2 eq_refl) in H2. clear p2 Hp2 Ha2.
  intros (p3 & H3 & Hp3 & Ha3)%Hw. rewrite H3, H2, H1, <- !app_assoc. eexists. split; [done|].
  split; [by do 2 apply prefix_app|]. intros Hr. by rewrite (Ha3 Hr).
Qed.

Lemma conn_step_explained c e e' c' evs new :
  explained c evs -> conn_step c e = Moves e' c' -> step_event (conn_call c) e e' new ->
  explained c' (evs ++ new).
Proof.
  intros (l & Hl & Hc). unfold conn_step, conn_call. destruct (cn_pc c) as [|t|] eqn:Hpc; [| |done].
  - destruct Hc as (Hr & -> & Ho). cbn. destruct (ReadCommand (cn_in c)) as [r [[cmd|er]| |]] eqn:E;
      try done; [|destruct (ran_out er && negb (cn_ended c)); [done|]];
      intros [= <- <-] ->; rewrite app_nil_r; exists l; (split; [done|]); cbn.
    + exists cmd, []. rewrite app_nil_r. split_and!; try done. by eapply reads_next.
    + exists (cn_in c). by rewrite Ho.
  - destruct Hc as (cmd & begun & Hr & -> & Ho & Hcomp). intros Hm Hev.
    assert (Ht : (exists v, t = TReply v) \/ (forall v, t <> TReply v)) by (destruct t; eauto).
    destruct Ht as [(v & ->)|Hn].
    + cbn in Hev. subst new. rewrite app_nil_r.
      assert (Hx : explained_exchange (mkExchange cmd begun v)).
      { unfold explained_exchange. cbn. rewrite <- (app_nil_r begun). apply Hcomp, co_reply. }
      destruct (cn_taking c); [|done]. cbn [negb] in Hm.
      destruct (write_of v (cn_out c)) as [o [[er|]| |]] eqn:E; try done; injection Hm as <- <-;
        apply write_of_spec in E as (p & Ep & Hp & Hall);
        exists (l ++ [mkExchange cmd begun v]); (split; [by apply Forall_app_2; [|constructor]|]); cbn;
        rewrite fmap_app, calls_snoc, replies_snoc; cbn.
      * exists (cn_in c). split_and!; try done. rewrite Ep, Ho. by apply prefix_app.
      * split_and!; try done. by rewrite Ep, Ho, Hall.
    + assert (Hs : exists t', task_step t e = (e', Ret t') /\
                c' = go_to c (cn_in c) (cn_out c) (Working t')).
      { destruct t; try (by edestruct Hn);
          match type of Hm with context [task_step ?t e] => destruct (task_step t e) as [e1 [t1| |]] end;
          try done; injection Hm as <- <-; eauto. }
      destruct Hs as (t' & Et & ->). exists l. split; [done|]. cbn. exists cmd, (begun ++ new).
      rewrite app_assoc. split_and!; try done. intros rest v Hv. rewrite <- app_assoc.
      eapply Hcomp, task_step_completes; done.
Qed.

(** ** Every interleaving is a run of the store *)

Lemma simulates_clock e e' s : same_but_clock e e' -> simulates e s -> simulates e' s.
Proof.
  intros Hs [Hinv Hsafe]. split; [by eapply engine_inv_clock|]. by destruct Hs as (-> & _).
Qed.

(** A step without an engine call reads at most the clock. *)
Lemma quiet_step c e e' c' :
  conn_call c = None -> conn_step c e = Moves e' c' -> same_but_clock e e'.
Proof.
  unfold conn_call, conn_step. destruct (cn_pc c) as [|t|]; intros Hc Hm; [| |done].
  - destruct (ReadCommand _) as [r [[cmd|er]| |]]; try done; [by injection Hm as <- _|].
    by destruct (ran_out er && _); [|injection Hm as <- _].
  - destruct t as [k|k v ttl|k v x|[|k ks] n|k ks n|v]; try done.
    + cbn in Hm. unfold resolve_ttl, mbind, GoM_bind in Hm.
      by destruct (0 <? ttl); injection Hm as <- _.
    + by injection Hm as <- _.
    + destruct (cn_taking c); [|done]. cbn [negb] in Hm.
      by destruct (write_of v _) as [o [[]| |]]; try done; injection Hm as <- _.
Qed.

(** A connection only reads and writes. *)
Lemma room_allowed e c cl : conn_room e c -> conn_call c = Some cl -> allowed e cl.
Proof.
  unfold conn_room. intros Hroom Hc. rewrite Hc in Hroom. unfold conn_call, task_call in Hc.
  by repeat case_match; simplify_eq.
Qed.

Lemma conn_step_simulated c e e' c' evs s :
  simulates e s -> conn_room e c ->
  conn_step c e = Moves e' c' -> step_event (conn_call c) e e' evs ->
  exists s', store_run s evs s' /\ simulates e' s'.
Proof.
  intros Hsim Hroom Hm Hev. destruct (conn_call c) as [cl|] eqn:Hc.
  - pose proof (room_allowed _ _ _ Hroom Hc) as Hok. destruct Hev as (ev & Hev & ->).
    destruct (step_simulated e s cl Hsim Hok) as (ev' & e1 & s' & Hst & Hss & Hsim').
    destruct (engine_step_det _ _ _ _ _ _ Hev Hst) as [<- <-].
    exists s'. split; [|done]. econstructor; [exact Hss|constructor].
  - cbn in Hev. subst evs. exists s. split; [constructor|]. eapply simulates_clock; [|done].
    by eapply quiet_step.
Qed.

(** The calls a connection made, of all the server's. *)
Definition events_of (i : nat) (tr : list (nat * event)) : list event :=
  snd <$> filter (fun x => x.1 = i) tr.

Lemma events_app i tr1 tr2 : events_of i (tr1 ++ tr2) = events_of i tr1 ++ events_of i tr2.
Proof. unfold events_of. by rewrite filter_app, fmap_app. Qed.

Lemma events_same i evs : events_of i (pair i <$> evs) = evs.
Proof.
  unfold events_of. induction evs as [|ev evs IH]; [done|].
  rewrite fmap_cons, filter_cons. cbn. rewrite decide_True by done. by rewrite fmap_cons, IH.
Qed.

Lemma events_other i j evs : i <> j -> events_of j (pair i <$> evs) = [].
Proof.
  intros Hij. unfold events_of. induction evs as [|ev evs IH]; [done|].
  rewrite fmap_cons, filter_cons. cbn. by rewrite decide_False by done.
Qed.

Record server_inv (st0 : store) (s : server) (tr : list (nat * event)) : Prop := {
  sn_store : exists st, store_run st0 (snd <$> tr) st /\ simulates (rs_engine s) st;
  sn_conns : forall i c, rs_conns s !! i = Some c -> explained c (events_of i tr);
  sn_fresh : forall i, (length (rs_conns s) <= i)%nat -> events_of i tr = []
}.

Lemma accepted_explained script : explained (accepted script) [].
Proof. exists []. split; [done|]. cbn. by split_and!; [apply reads_none|..]. Qed.

(** What the client does does not change what has happened. *)
Lemma client_step_explained c c' evs : client_step c c' -> explained c evs -> explained c' evs.
Proof.
  intros Hst (l & Hl & Hc). exists l. split; [done|].
  destruct Hst as [c x _|c fault _|c b]; cbn; [| |done];
    (destruct (cn_pc c) as [|t|]; cbn in *;
     [destruct Hc as (Hr & Hc); split; [by apply reads_more|done]
     |destruct Hc as (cmd & begun & Hr & Hc); exists cmd, begun; split; [by apply reads_more|done]
     |destruct Hc as (r & Hr & Hc)]).
  - exists (more x None r). split; [by apply reads_more|done].
  - exists (more [] fault r). split; [by apply reads_more|done].
Qed.

Lemma serves_inv st0 s tr s' new :
  server_inv st0 s tr -> roomy s -> serves s new s' -> server_inv st0 s' (tr ++ new).
Proof.
  intros [(st & Hrun & Hsim) Hconns Hfresh] Hroom Hst. revert Hsim Hconns Hfresh Hroom.
  destruct Hst as [s i c e' c' evs _ Hi Hm Hev|s i c _ Hi _]; intros Hsim Hconns Hfresh Hroom.
  2: { rewrite app_nil_r. split; [by exists st|done..]. }
  pose proof (lookup_lt_Some _ _ _ Hi) as Hlt. split; cbn.
  - unfold roomy in Hroom. rewrite Forall_lookup in Hroom.
    destruct (conn_step_simulated c _ e' c' evs st Hsim (Hroom _ _ Hi) Hm Hev) as (st' & Hr & Hs').
    exists st'. split; [|done]. rewrite fmap_app, <- list_fmap_compose.
    replace ((snd ∘ pair i) <$> evs) with evs by (symmetry; apply list_fmap_id).
    by eapply store_run_app.
  - intros j d [(<- & <- & _)|(Hij & Hj)]%list_lookup_insert_Some; rewrite events_app.
    + rewrite events_same. eapply conn_step_explained; eauto.
    + rewrite events_other, app_nil_r by done. by apply Hconns.
  - intros j Hj. rewrite length_insert in Hj. rewrite events_app, Hfresh, events_other by lia. done.
Qed.

Lemma server_step_inv st0 s tr s' new :
  server_inv st0 s tr -> roomy s -> server_step s new s' -> server_inv st0 s' (tr ++ new).
Proof.
  intros Hinv Hroom Hst. revert Hinv Hroom.
  destruct Hst as [s script _ _|s _ _|s j c c' Hj Hc|s new s' Hst]; intros Hinv Hroom;
    [| | |by eapply serves_inv];
    rewrite app_nil_r; destruct Hinv as [Hrun Hconns Hfresh]; split; try done; cbn.
  - intros i c [Hi|(Hge & Hi)]%lookup_app_Some; [by apply Hconns|].
    apply list_lookup_singleton_Some in Hi as (_ & <-). rewrite Hfresh by done.
    apply accepted_explained.
  - intros i Hi. rewrite length_app in Hi. cbn in Hi. apply Hfresh. lia.
  - intros i d [(<- & <- & _)|(Hij & Hi)]%list_lookup_insert_Some; [|by apply Hconns].
    eapply client_step_explained; [exact Hc|by apply Hconns].
  - intros i. rewrite length_insert. apply Hfresh.
Qed.

(** C27: connections share the store without seeing anything but its states.  In every
    run of the RESP server, with connections accepted at any time and their
    goroutines interleaved in any way, the engine calls of all connections
    together are a run of the abstract store; and each connection has read a
    sequence of commands off its input, has answered them one by one in order,
    and each reply follows from the calls this connection made for the command. *)
Theorem resp_linearizable e st s tr :
  simulates e st -> server_run (server_init e) tr s ->
  (exists st', store_run st (snd <$> tr) st' /\ simulates (rs_engine s) st') /\
  forall i c, rs_conns s !! i = Some c -> explained c (events_of i tr).
Proof.
  intros Hsim Hrun. assert (Hinv : server_inv st s tr).
  { remember (server_init e) as s0 eqn:Hs0. induction Hrun as [s|s tr1 s1 tr2 s2 Hr IH Hroom Hst]; subst.
    - split; [exists st; by split; [constructor|]|done|done].
    - eapply server_step_inv; eauto. }
  destruct Hinv as [H1 H2 _]. done.
Qed.

(** ** Connections end *)

(** What is unread on an open connection, and what its goroutine does before it
    reads again. *)
Definition conn_unread (c : conn) : nat :=
  match cn_pc c with Closed => 0 | _ => length (r_rest (cn_in c)) end.
Definition conn_work (c : conn) : nat :=
  match cn_pc c with Reading => 1 | Working t => task_size t + 2 | Closed => 0 end.

Lemma task_step_size t e e' t' :
  (forall v, t <> TReply v) -> task_step t e = (e', Ret t') -> (task_size t' < task_size t)%nat.
Proof.
  intros Hn. destruct t as [k|k v ttl|k v x|[|k ks] n|k ks n|v]; cbn [task_step];
    unfold mbind, GoM_bind; [..|by edestruct Hn].
  - destruct (Get k e) as [e1 [r| |]]; try done. intros [= _ <-]. cbn. lia.
  - destruct (resolve_ttl ttl e) as [e1 [r| |]]; try done. intros [= _ <-]. cbn. lia.
  - destruct (ApplyPut k v x [] e) as [e1 [r| |]]; try done. intros [= _ <-]. cbn. lia.
  - intros [= _ <-]. cbn. lia.
  - destruct (Get k e) as [e1 [r| |]]; try done. intros [= _ <-]. destruct r; cbn; lia.
  - destruct (Delete k [] e) as [e1 [r| |]]; try done. intros [= _ <-]. destruct r; cbn; lia.
Qed.

Lemma conn_step_decreases c e e' c' :
  conn_step c e = Moves e' c' ->
  (conn_unread c' < conn_unread c)%nat \/
  (conn_unread c' <= conn_unread c)%nat /\ (conn_work c' < conn_work c)%nat.
Proof.
  unfold conn_step, conn_unread, conn_work. destruct (cn_pc c) as [|t|]; [| |done].
  - destruct (ReadCommand (cn_in c)) as [r [[cmd|er]| |]] eqn:E; try done.
    + intros [= _ <-]. cbn. left. by eapply ReadCommand_consumes.
    + destruct (ran_out er && _); [done|]. intros [= _ <-]. cbn. lia.
  - intros Hm. right.
    assert (Ht : (exists v, t = TReply v) \/ (forall v, t <> TReply v)) by (destruct t; eauto).
    destruct Ht as [(v & ->)|Hn].
    + destruct (cn_taking c); [|done]. cbn [negb] in Hm.
      destruct (write_of v (cn_out c)) as [o [[er|]| |]]; try done; injection Hm as _ <-; cbn; lia.
    + pose proof (fun e' t' => task_step_size t e e' t' Hn) as Hsz.
      destruct t; try (by edestruct Hn);
        match type of Hm with context [task_step ?t e] => destruct (task_step t e) as [e1 [t1| |]] end;
        try done; injection Hm as _ <-; specialize (Hsz _ _ eq_refl); cbn in *; lia.
Qed.

Definition serving (s s' : server) : Prop := exists tr, serves s tr s'.

(** A crash ends everything; reading comes before working. *)
Definition server_left (s : server) : nat * nat :=
  ((if rs_crashed s then 0 else 1) + sum_list_with conn_unread (rs_conns s),
   sum_list_with conn_work (rs_conns s))%nat.

Lemma serving_decreases s s' :
  serving s s' -> slexprod nat nat lt lt (server_left s') (server_left s).
Proof.
  intros (tr & Hs). destruct Hs as [s i c e' c' evs Hcr Hi Hm _|s i c Hcr _ _]; unfold server_left; cbn.
  - pose proof (sum_insert conn_unread _ i c c' Hi). pose proof (sum_insert conn_work _ i c c' Hi).
    destruct (conn_step_decreases _ _ _ _ Hm) as [H1|[H1 H2]]; [left; lia|].
    destruct (Nat.eq_dec (conn_unread c') (conn_unread c)) as [Heq|]; [|left; lia].
    replace (sum_list_with conn_unread (<[i:=c']> (rs_conns s)))
      with (sum_list_with conn_unread (rs_conns s)) by lia. right. lia.
  - rewrite Hcr. left. lia.
Qed.

Lemma serving_sn s : sn serving s.
Proof.
  assert (Hwf : well_founded (flip serving)).
  { apply (wf_projected (slexprod nat nat lt lt) server_left).
    - intros x y Hs. by apply serving_decreases.
    - apply wf_slexprod; apply Nat.lt_wf_0. }
  apply Hwf.
Qed.

Lemma task_step_returns t : returns idle (task_step t).
Proof.
  destruct t as [k|k v ttl|k v x|[|k ks] n|k ks n|v]; cbn [task_step];
    (apply returns_ret || (apply returns_bind; [|intros; apply returns_ret]));
    auto using Get_returns, resolve_ttl_returns, ApplyPut_returns, Delete_returns.
Qed.

(** The connection waits for its client: for bytes of a command that has not
    arrived in full, or to take a reply. *)
Definition waiting (c : conn) : Prop :=
  (cn_pc c = Reading /\ cn_ended c = false /\
   exists r er, ReadCommand (cn_in c) = (r, Ret (Err (ReadFailed er)))) \/
  (exists v, cn_pc c = Working (TReply v) /\ cn_taking c = false).

(** An open connection can go on, waits for its client, or its parser panics. *)
Lemma conn_step_total c e :
  idle e -> cn_pc c <> Closed ->
  (exists e' c', conn_step c e = Moves e' c' /\ idle e') \/
  (conn_step c e = Waits /\ waiting c) \/ conn_step c e = Crashes.
Proof.
  intros He Hc. unfold conn_step, waiting. destruct (cn_pc c) as [|t|]; [| |done].
  - pose proof (read_command_returns (cn_in c)) as Hr.
    destruct (ReadCommand (cn_in c)) as [r [[cmd|er]|w|]]; [by eauto| |by eauto|done].
    destruct er; cbn [ran_out andb]; try (left; by eauto).
    destruct (cn_ended c); cbn; [left; by eauto|]. right; left. split; [done|]. left. eauto.
  - destruct (task_step_returns t e He) as (e' & t' & E & He').
    destruct t as [k|k v ttl|k v x|ks n|k ks n|v]; try (rewrite E; by eauto).
    destruct (cn_taking c); cbn; [|right; left; split; [done|right; by eauto]].
    destruct (write_of_returns v (cn_out c) I) as (o & [er|] & E2 & _); rewrite E2; eauto.
Qed.

(** The call of a step that moves has an answer. *)
Lemma step_event_exists c e e' c' :
  conn_step c e = Moves e' c' -> exists evs, step_event (conn_call c) e e' evs.
Proof.
  unfold conn_call, conn_step. destruct (cn_pc c) as [|t|]; cbn; eauto.
  destruct t as [k|k v ttl|k v x|[|k ks] n|k ks n|v]; cbn; eauto; unfold run, mbind, GoM_bind.
  - destruct (Get k e) as [e1 [r| |]]; try done. intros [= <- <-]. eauto 6.
  - destruct (ApplyPut k v x [] e) as [e1 [r| |]]; try done. intros [= <- <-]. eauto 6.
  - destruct (Get k e) as [e1 [r| |]]; try done. intros [= <- <-]. eauto 6.
  - destruct (Delete k [] e) as [e1 [r| |]]; try done. intros [= <- <-]. eauto 6.
Qed.

Lemma serving_idle s s' : serving s s' -> idle (rs_engine s) -> idle (rs_engine s').
Proof.
  intros (tr & Hs). destruct Hs as [s i c e' c' evs _ _ Hm _|]; [|done]. intros He. cbn.
  destruct (conn_step_total c _ He) as [(e1 & c1 & E & He1)|[[E _]|E]]; [|congruence..].
  intros Hc. unfold conn_step in Hm. by rewrite Hc in Hm.
Qed.

(** A client that has ended its side and takes what it is sent. *)
Definition done_client (c : conn) : Prop := cn_ended c = true /\ cn_taking c = true.

Lemma conn_step_client c e e' c' :
  conn_step c e = Moves e' c' -> cn_ended c' = cn_ended c /\ cn_taking c' = cn_taking c.
Proof.
  unfold conn_step. intros H. repeat case_match; simplify_eq; done.
Qed.

Lemma serving_done s s' :
  serving s s' -> Forall done_client (rs_conns s) -> Forall done_client (rs_conns s').
Proof.
  intros (tr & Hs). destruct Hs as [s i c e' c' evs _ Hi Hm _|]; [|done]. intros Hall. cbn.
  apply Forall_insert; [done|]. rewrite Forall_lookup in Hall. destruct (Hall _ _ Hi).
  apply conn_step_client in Hm as [He Ht]. split; congruence.
Qed.

Lemma serving_progress s :
  idle (rs_engine s) -> rs_crashed s = false ->
  (exists s', serving s s') \/ Forall (fun c => cn_pc c = Closed \/ waiting c) (rs_conns s).
Proof.
  intros He Hcr.
  assert (Hall : forall l, (forall c, c ∈ l -> exists i, rs_conns s !! i = Some c) ->
            (exists s', serving s s') \/ Forall (fun c => cn_pc c = Closed \/ waiting c) l).
  { induction l as [|c l IH]; intros Hl; [by right|].
    destruct IH as [?|IH]; [intros d Hd; apply Hl; by right|by left|].
    destruct (Hl c) as (i & Hi); [by left|].
    assert (Hc : cn_pc c = Closed \/ cn_pc c <> Closed) by (destruct (cn_pc c); eauto).
    destruct Hc as [Hc|Hc]; [right; by constructor; [left|]|].
    destruct (conn_step_total c _ He Hc) as [(e1 & c1 & E & _)|[[_ Hw]|E]].
    - left. destruct (step_event_exists _ _ _ _ E) as (evs & Hev). eexists _, _. by eapply conn_moves.
    - right. by constructor; [right|].
    - left. eexists _, _. by eapply conn_crashes. }
  apply Hall. intros c Hc. by apply list_elem_of_lookup.
Qed.

(** C28: the server's goroutines do all they can.  From any state with an idle
    engine, whatever the disk does and however writes fail, between two actions
    of the clients the goroutines of the connections take finitely many steps
    under every schedule; and where they stop, the process has panicked, or every
    connection that is open waits for its client, either for bytes of a command
    that has not arrived in full or to take a reply.  A client that has ended its
    side and takes its replies is not waited for: when all have, the connections
    are closed. *)
Theorem resp_server_progress s :
  idle (rs_engine s) ->
  sn serving s /\
  forall s', rtc serving s s' -> (forall s'', ~ serving s' s'') ->
    rs_crashed s' = true \/
    Forall (fun c => cn_pc c = Closed \/ waiting c) (rs_conns s') /\
    (Forall done_client (rs_conns s) -> Forall (fun c => cn_pc c = Closed) (rs_conns s')).
Proof.
  intros He. split; [apply serving_sn|]. intros s' Hr Hstop.
  assert (He' : idle (rs_engine s')) by (clear Hstop; induction Hr; eauto using serving_idle).
  destruct (rs_crashed s') eqn:Hcr; [by left|right].
  destruct (serving_progress s' He' Hcr) as [(s'' & Hs)|Hall]; [by destruct (Hstop s'')|].
  split; [done|]. intros Hdone.
  assert (Hdone' : Forall done_client (rs_conns s'))
    by (clear Hstop He' Hcr Hall He; induction Hr; eauto using serving_done).
  rewrite !Forall_forall in *. intros c Hc.
  destruct (Hall c Hc) as [?|[(_ & Hw & _)|(v & _ & Hw)]]; [done|..];
    destruct (Hdone' c Hc); congruence.
Qed.

(** ** Schedules *)

(** A schedule: accept a connection, let a client send bytes or end, or let a
    connection's goroutine take a step. *)
Inductive action := Accept | Send (i : nat) (x : bytes) | End (i : nat) | Go (i : nat).

Definition act (a : action) (s : server) : option server :=
  if rs_crashed s || bool_decide (~ roomy s) then None else
  match a with
  | Accept =>
    if rs_listening s
    then Some (mkServer (rs_engine s) true (rs_conns s ++ [accepted []]) false)
    else None
  | Send i x =>
    c ← rs_conns s !! i;
    if cn_ended c then None else Some (set_conn i (sends x c) (rs_engine s) s)
  | End i =>
    c ← rs_conns s !! i;
    if cn_ended c then None else Some (set_conn i (ends None c) (rs_engine s) s)
  | Go i =>
    c ← rs_conns s !! i;
    match conn_step c (rs_engine s) with Moves e' c' => Some (set_conn i c' e' s) | _ => None end
  end.

Fixpoint acts (l : list action) (s : server) : option server :=
  match l with [] => Some s | a :: l => s' ← act a s; acts l s' end.

Lemma act_step a s s' : act a s = Some s' -> roomy s /\ exists tr, server_step s tr s'.
Proof.
  unfold act. intros H. destruct (rs_crashed s) eqn:Hcr; [done|]. cbn [orb] in H.
  case_bool_decide as Hroom; [done|]. split; [done|].
  destruct a as [|i x|i|i].
  { destruct (rs_listening s) eqn:Hl; [|done]. injection H as <-. exists [].
    rewrite <- Hcr. by apply listener_accepts. }
  all: destruct (rs_conns s !! i) as [c|] eqn:Hi; [|done]; cbn in H.
  - destruct (cn_ended c) eqn:He; [done|]. injection H as <-. exists [].
    by eapply client_acts, client_sends.
  - destruct (cn_ended c) eqn:He; [done|]. injection H as <-. exists [].
    by eapply client_acts, client_ends.
  - destruct (conn_step c (rs_engine s)) as [e' c'| | |] eqn:E; try done. injection H as <-.
    destruct (step_event_exists _ _ _ _ E) as (evs & Hev). eexists.
    by eapply goroutine_steps, conn_moves.
Qed.

Lemma acts_run l s0 tr s s' :
  server_run s0 tr s -> acts l s = Some s' -> exists tr', server_run s0 tr' s'.
Proof.
  revert tr s. induction l as [|a l IH]; intros tr s Hr; cbn [acts].
  - intros [= <-]. eauto.
  - destruct (act a s) as [s1|] eqn:E; [|done]. apply act_step in E as (Hroom & tr1 & Hst).
    apply (IH (tr ++ tr1)). by eapply server_then.
Qed.

Definition outputs (s : server) : list bytes := (out_data ∘ cn_out) <$> rs_conns s.

(** A schedule that runs is a run of the server. *)
Lemma schedule_runs l e outs :
  outputs <$> acts l (server_init e) = Some outs ->
  exists tr s, server_run (server_init e) tr s /\ outputs s = outs.
Proof.
  destruct (acts l (server_init e)) as [s|] eqn:E; [|done]. intros [= <-].
  destruct (acts_run l _ [] _ s (server_done _) E) as (tr & Hr). eauto.
Qed.

Definition del_k : bytes := encode_command (mkResp ($"DEL") [$"k"]).

(** DEL is not atomic: with one key stored, two connections that delete it at the
    same time are both told that they deleted a key. *)
Theorem del_counted_twice :
  exists tr s, server_run (server_init after_put1) tr s /\
    outputs s = [$":1" ++ crlf; $":1" ++ crlf].
Proof.
  apply (schedule_runs [Accept; Accept; Send 0 del_k; Send 1 del_k; Go 0; Go 1; Go 0; Go 1; Go 0; Go 1; Go 0; Go 1; Go 0; Go 1]).
  vm_compute. reflexivity.
Qed.

(** A connection that sets a key while another one gets it, whose command arrives
    in two pieces. *)
Definition demo_get_bytes : bytes := encode_command (mkResp ($"GET") [$"k"]).

Definition demo_schedule : list action :=
  [Accept; Send 0 (encode_command (mkResp ($"set") [$"k"; $"v1"; $"EX"; $"60"])); Go 0;
   Accept; Send 1 (take 7 demo_get_bytes); Send 1 (drop 7 demo_get_bytes);
   Go 1; Go 0; Go 1; Go 0; Go 0; Go 1].

Definition demo_server : server :=
  default (server_init (fresh_engine [] at100)) (acts demo_schedule (server_init (fresh_engine [] at100))).

Lemma demo_outputs : outputs demo_server = [$"+OK" ++ crlf; $"$-1" ++ crlf].
Proof. vm_compute. reflexivity. Qed.

Lemma demo_server_runs : exists tr, server_run (server_init (fresh_engine [] at100)) tr demo_server.
Proof.
  eapply (acts_run demo_schedule _ [] (server_init (fresh_engine [] at100))); [constructor|].
  unfold demo_server. destruct (acts demo_schedule _) as [s|] eqn:E; [done|].
  exfalso. assert (Hs : is_Some (outputs <$> acts demo_schedule (server_init (fresh_engine [] at100))))
    by (vm_compute; eauto). rewrite E in Hs. by destruct Hs.
Qed.

Lemma resp_linearizable_witness :
  exists tr, server_run (server_init (fresh_engine [] at100)) tr demo_server /\
    outputs demo_server = [$"+OK" ++ crlf; $"$-1" ++ crlf] /\
    (exists st', store_run (mkStore [] [] 0) (snd <$> tr) st' /\ simulates (rs_engine demo_server) st') /\
    forall i c, rs_conns demo_server !! i = Some c -> explained c (events_of i tr).
Proof.
  destruct demo_server_runs as (tr & Hr). exists tr. split; [exact Hr|]. split; [exact demo_outputs|].
  apply (resp_linearizable (fresh_engine [] at100) (mkStore [] [] 0) demo_server tr); [|exact Hr].
  split; [apply fresh_inv|by left].
Defined.

(** A client whose DEL has arrived but for its last byte is waited for; when the
    byte and the end arrive, the connection ends. *)
Definition half_sent : conn := sends (take (length del_k - 1) del_k) (accepted []).
Definition all_sent : conn := ends None (sends (drop (length del_k - 1) del_k) half_sent).

Lemma resp_server_progress_witness :
  waiting half_sent /\
  let s := mkServer (fresh_engine [] at100) true [all_sent] false in
  sn serving s /\
  forall s', rtc serving s s' -> (forall s'', ~ serving s' s'') ->
    rs_crashed s' = true \/ Forall (fun c => cn_pc c = Closed) (rs_conns s').
Proof.
  split.
  - left. split; [reflexivity|]. split; [reflexivity|]. eexists _, UnexpectedEOF.
    vm_compute. reflexivity.
  - intros s. destruct (resp_server_progress s eq_refl) as [Hsn Hend]. split; [exact Hsn|].
    intros s' Hr Hstop. destruct (Hend s' Hr Hstop) as [?|[_ Hdone]]; [by left|right].
    apply Hdone. by repeat constructor.
Defined.
