(* ===== verification/Benchmark.v ===== *)
(** * The benchmark harness (internal/benchmark)

    The request generator, the recorder with its percentiles, the run that
    drives the workers, and the report.  Floating-point numbers are the IEEE
    binary64 of [SpecFloat], so that a percentile's index is the code's own
    computation.  The text
    printer of a report is in ReportText; the JSON encoder is not modelled. *)

From Stdlib Require Import ZArith Lia.
From Stdlib Require Import SpecFloat.
From stdpp Require Import sorting.
From S2P Require Import Prelude.

(** ** float64 *)

Definition float64 := spec_float.

(** [float64(n)]; a literal [n/d] is the nearest float64, as a rounded quotient. *)
Definition float_of_int (n : Z) : float64 := binary_normalize 53 1024 n 0 false.
Definition float_lit (n d : Z) : float64 := SFdiv 53 1024 (float_of_int n) (float_of_int d).

(** [int(f)]: truncation; a value out of range is the processor's indefinite
    integer (amd64). *)
Definition int_of_float (f : float64) : Z :=
  match f with
  | S754_zero _ => 0
  | S754_finite s m e =>
      let v := if 0 <=? e then Z.pos m * 2 ^ e else Z.pos m / 2 ^ (- e) in
      let z := if s then - v else v in
      if (- 2 ^ 63 <=? z) && (z <? 2 ^ 63) then z else - 2 ^ 63
  | S754_infinity _ | S754_nan => - 2 ^ 63
  end.

(** ** Workload (workload.go) *)

Inductive Op := OpGet | OpPut.

#[export] Instance Op_eq_dec : EqDecision Op.
Proof. solve_decision. Defined.

Record Request := mkRequest { rq_Op : Op; rq_Key : bytes; rq_Value : bytes; rq_TTLSeconds : Z }.

Record WorkloadConfig := mkWorkload {
  ReadRatio : float64;
  KeyCardinality : Z;
  HotKeyCount : Z;
  ValueSize : Z;
  TTLSeconds : Z
}.

(** [math/rand]: the source of a seed, and what the generator draws from it. *)
Class Rand (G : Type) := {
  rand_New : Z -> G;
  rand_Read : G -> Z -> bytes;
  rand_Float64 : G -> G * float64;
  rand_Intn : G -> Z -> G * Z
}.

(** What the package documents of [Intn] for a positive bound, and of [Read]. *)
Class RandLaws (G : Type) `{Rand G} : Prop := {
  Intn_range g n : 0 < n -> 0 <= (rand_Intn g n).2 < n;
  Read_fills g n : 0 <= n -> len (rand_Read g n) = n
}.

Definition hex_char (d : Z) : byte := default x00 ($"0123456789abcdef" !! Z.to_nat d).

(** The loop of [formatKey] over the positions [p], [p-1], ..., 2. *)
Fixpoint format_loop (fuel : nat) (p i : Z) (b : bytes) : bytes :=
  match fuel with
  | O => b
  | S fuel =>
      if 2 <=? p
      then format_loop fuel (p - 1) (Z.shiftr i 4) (<[Z.to_nat p := hex_char (Z.land i 15)]> b)
      else b
  end.

(** Seven positions are filled, so eight rounds are enough. *)
Definition formatKey (i : Z) : bytes := format_loop 8 8 i (copy_at (make 9) 0 ($"k-")).

Section Generator.
Context {G : Type} `{Rand G}.

Record Generator := mkGenerator { g_cfg : WorkloadConfig; g_rng : G; g_value : bytes }.

Definition NewGenerator (cfg : WorkloadConfig) (seed : Z) : go Generator :=
  if (ValueSize cfg <? 0) || (maxAlloc <? ValueSize cfg)
  then Panic ($"makeslice: len out of range")
  else Ret (mkGenerator cfg (rand_New seed) (rand_Read (rand_New seed) (ValueSize cfg))).

Definition draw_float : GoM Generator float64 := fun g =>
  let '(r, x) := rand_Float64 (g_rng g) in (mkGenerator (g_cfg g) r (g_value g), Ret x).

(** [Intn] panics unless its argument is positive. *)
Definition draw_intn (n : Z) : GoM Generator Z := fun g =>
  if n <=? 0 then (g, Panic ($"invalid argument to Intn")) else
  let '(r, x) := rand_Intn (g_rng g) n in (mkGenerator (g_cfg g) r (g_value g), Ret x).

Definition gen_key : GoM Generator bytes :=
  cfg ← gets g_cfg;
  let n := if KeyCardinality cfg <=? 0 then 1 else KeyCardinality cfg in
  i ← (if (0 <? HotKeyCount cfg) && (HotKeyCount cfg <? n) then
         f ← draw_float;
         if SFltb f (float_lit 8 10) then draw_intn (HotKeyCount cfg)
         else j ← draw_intn (n - HotKeyCount cfg); mret (HotKeyCount cfg + j)
       else draw_intn n);
  mret (formatKey i).

Definition Next : GoM Generator Request :=
  k ← gen_key;
  f ← draw_float;
  g ← get_state;
  mret (if SFltb f (ReadRatio (g_cfg g)) then mkRequest OpGet k [] 0
        else mkRequest OpPut k (g_value g) (TTLSeconds (g_cfg g))).

End Generator.
Arguments Generator G : clear implicits.

(** ** Recorder (stats.go) *)

(** Go maps from [Op]: an operation without an entry is [None]. *)
Record Recorder := mkRecorder {
  samples : Op -> option (list Z);
  errors : Op -> option Z;
  warmedUp : bool
}.

Definition NewRecorder : Recorder := mkRecorder (fun _ => None) (fun _ => None) false.

Definition SetWarmedUp (r : Recorder) : Recorder := mkRecorder (samples r) (errors r) true.

Definition upd {A} (f : Op -> A) (op : Op) (a : A) : Op -> A :=
  fun o => if decide (o = op) then a else f o.

(** [Record]; [failed] is [err != nil]. *)
Definition record (op : Op) (d : Z) (failed : bool) (r : Recorder) : Recorder :=
  if negb (warmedUp r) then r
  else if failed
  then mkRecorder (samples r) (upd (errors r) op (Some (default 0 (errors r op) + 1))) (warmedUp r)
  else mkRecorder (upd (samples r) op (Some (default [] (samples r op) ++ [d]))) (errors r) (warmedUp r).

Record OpStats := mkOpStats {
  Count : Z; Errors : Z;
  P50 : Z; P95 : Z; P99 : Z; P999 : Z;
  Min : Z; Max : Z; Mean : Z
}.

(** Indexing panics out of range. *)
Definition percentile (sorted : list Z) (p : float64) : go Z :=
  let idx := int_of_float (SFmul 53 1024 p (float_of_int (len sorted))) in
  let idx := if len sorted <=? idx then len sorted - 1 else idx in
  if (idx <? 0) || (len sorted <=? idx) then Panic ($"index out of range") else
  Ret (nth (Z.to_nat idx) sorted 0).

Definition p50 := float_lit 50 100.
Definition p95 := float_lit 95 100.
Definition p99 := float_lit 99 100.
Definition p999 := float_lit 999 1000.

(** [sort.Slice] by value: equal durations are the same value, so the result is
    the one of any sorting algorithm. *)
Definition sort_durations (l : list Z) : list Z := merge_sort Z.le l.

Definition op_stats (r : Recorder) (op : Op) : go OpStats :=
  let s := sort_durations (default [] (samples r op)) in
  let e := default 0 (errors r op) in
  match s with
  | [] => Ret (mkOpStats 0 e 0 0 0 0 0 0 0)
  | first :: _ =>
      let sum := fold_left (fun acc d => i64 (acc + d)) s 0 in
      a ← percentile s p50;
      b ← percentile s p95;
      c ← percentile s p99;
      d ← percentile s p999;
      mret (mkOpStats (len s) e a b c d first (List.last s 0) (i64 (Z.quot sum (len s))))
  end.

(** [Compute]: an operation has statistics if it has a sample or an error; the
    measured duration is not used. *)
Definition compute_op (r : Recorder) (op : Op) : go (option OpStats) :=
  match samples r op, errors r op with
  | None, None => Ret None
  | _, _ => s ← op_stats r op; mret (Some s)
  end.

Definition Compute (r : Recorder) (measuredDuration : Z) : go (Op -> option OpStats) :=
  g ← compute_op r OpGet;
  p ← compute_op r OpPut;
  mret (fun o => match o with OpGet => g | OpPut => p end).

(** [Duration.Seconds]: whole seconds plus the rest, each as float64. *)
Definition Seconds (d : Z) : float64 :=
  SFadd 53 1024 (float_of_int (Z.quot d (10 ^ 9)))
    (SFdiv 53 1024 (float_of_int (Z.rem d (10 ^ 9))) (float_of_int (10 ^ 9))).

Definition Throughput (s : OpStats) (measuredDuration : Z) : float64 :=
  let total := Count s + Errors s in
  if (measuredDuration <=? 0) || (total =? 0) then S754_zero false
  else SFdiv 53 1024 (float_of_int total) (Seconds measuredDuration).

(** ** A run (runner.go) *)

Record RunConfig := mkRunConfig {
  Workload : WorkloadConfig;
  Concurrency : Z;
  Warmup : Z;
  Duration : Z
}.

Record Result := mkResult {
  r_Config : RunConfig;
  MeasuredDuration : Z;
  r_Stats : Op -> option OpStats
}.

Section Run.
Context {G : Type} `{Rand G}.

(** A worker is at the head of its loop, inside [Execute], or has returned. *)
Inductive worker :=
| AtLoop (g : Generator G)
| Executing (g : Generator G) (req : Request) (start : Z)
| Returned.

(** The goroutine of [Run]: waiting for the warmup timer, for the duration timer,
    for the workers, or done. *)
Inductive main_pc :=
| WaitWarmup
| WaitDuration (measuredStart : Z)
| WaitWorkers (measured : Z)
| Finished (res : Result).

Record run_state := mkRun {
  rec : Recorder;
  workers : list worker;
  main : main_pc;
  stop_closed : bool;
  cancelled : bool;
  now : Z
}.

Definition set_worker (i : nat) (w : worker) (r : Recorder) (s : run_state) : run_state :=
  mkRun r (<[i := w]> (workers s)) (main s) (stop_closed s) (cancelled s) (now s).
Definition set_main (m : main_pc) (r : Recorder) (closed : bool) (s : run_state) : run_state :=
  mkRun r (workers s) m closed (cancelled s) (now s).

(** The workers [Run] starts, with the seeds 1, 2, ...; a panicking goroutine
    takes the process down. *)
Fixpoint start_workers (n : nat) (cfg : RunConfig) (seed : Z) : go (list worker) :=
  match n with
  | O => Ret []
  | S n => g ← NewGenerator (Workload cfg) seed;
           ws ← start_workers n cfg (seed + 1);
           mret (AtLoop g :: ws)
  end.

Definition run_init (cfg : RunConfig) (t : Z) : go run_state :=
  ws ← start_workers (Z.to_nat (Concurrency cfg)) cfg 1;
  mret (mkRun NewRecorder ws WaitWarmup false false t).

(** One step of the run.  Time passes and the context is cancelled at any point;
    a timer fires at its time or later; [Execute] returns when it likes and with
    either outcome. *)
Inductive run_step (cfg : RunConfig) (t0 : Z) : run_state -> run_state -> Prop :=
| step_time s t :
    now s <= t ->
    run_step cfg t0 s (mkRun (rec s) (workers s) (main s) (stop_closed s) (cancelled s) t)
| step_cancel s :
    run_step cfg t0 s (mkRun (rec s) (workers s) (main s) (stop_closed s) true (now s))
| step_return s i g :
    workers s !! i = Some (AtLoop g) ->
    stop_closed s || cancelled s = true ->
    run_step cfg t0 s (set_worker i Returned (rec s) s)
| step_next s i g g' req :
    workers s !! i = Some (AtLoop g) ->
    stop_closed s || cancelled s = false ->
    Next g = (g', Ret req) ->
    run_step cfg t0 s (set_worker i (Executing g' req (now s)) (rec s) s)
| step_record s i g req start failed :
    workers s !! i = Some (Executing g req start) ->
    run_step cfg t0 s
      (set_worker i (AtLoop g) (record (rq_Op req) (now s - start) failed (rec s)) s)
| step_warmed s :
    main s = WaitWarmup -> t0 + Warmup cfg <= now s ->
    run_step cfg t0 s (set_main (WaitDuration (now s)) (SetWarmedUp (rec s)) (stop_closed s) s)
| step_warmup_cancelled s :
    main s = WaitWarmup -> cancelled s = true ->
    run_step cfg t0 s (set_main (WaitWorkers 0) (rec s) true s)
| step_measured s start :
    main s = WaitDuration start ->
    (start + Duration cfg <= now s \/ cancelled s = true) ->
    run_step cfg t0 s (set_main (WaitWorkers (now s - start)) (rec s) true s)
| step_finish s measured stats :
    main s = WaitWorkers measured ->
    Forall (fun w => w = Returned) (workers s) ->
    Compute (rec s) measured = Ret stats ->
    run_step cfg t0 s (set_main (Finished (mkResult cfg measured stats)) (rec s) (stop_closed s) s).

Definition run_reaches (cfg : RunConfig) (s : run_state) : Prop :=
  exists t0 s0, run_init cfg t0 = Ret s0 /\ rtc (run_step cfg t0) s0 s.

End Run.

(** ** Report (report.go) *)

Definition opName (op : Op) : bytes := match op with OpGet => $"get" | OpPut => $"put" end.

Record OpReport := mkOpReport {
  or_Count : Z; or_Errors : Z; or_Throughput : float64;
  P50Ns : Z; P95Ns : Z; P99Ns : Z; P999Ns : Z; MinNs : Z; MaxNs : Z; MeanNs : Z
}.

(** What a process can tell of itself: the clock, [runtime.Version], [GOOS],
    [GOARCH] and [NumCPU]. *)
Record Runtime := mkRuntime {
  rt_now : Z; rt_version : bytes; rt_GOOS : bytes; rt_GOARCH : bytes; rt_NumCPU : Z
}.

Record Environment := mkEnvironment {
  Timestamp : Z; GoVersion : bytes; GOOS : bytes; GOARCH : bytes; NumCPU : Z;
  Target : bytes; TargetNote : bytes
}.

Definition CaptureEnvironment (rt : Runtime) (target targetNote : bytes) : Environment :=
  mkEnvironment (rt_now rt) (rt_version rt) (rt_GOOS rt) (rt_GOARCH rt) (rt_NumCPU rt) target targetNote.

Record Report := mkReport {
  rp_Environment : Environment;
  rp_Workload : WorkloadConfig;
  rp_Concurrency : Z;
  rp_Warmup : Z;
  rp_Duration : Z;
  rp_Measured : Z;
  Ops : gmap bytes OpReport
}.

Definition op_report (measured : Z) (s : OpStats) : OpReport :=
  mkOpReport (Count s) (Errors s) (Throughput s measured)
    (P50 s) (P95 s) (P99 s) (P999 s) (Min s) (Max s) (Mean s).

Definition add_op (res : Result) (ops : gmap bytes OpReport) (op : Op) : gmap bytes OpReport :=
  match r_Stats res op with
  | Some s => <[opName op := op_report (MeasuredDuration res) s]> ops
  | None => ops
  end.

Definition NewReport (env : Environment) (res : Result) : Report :=
  mkReport env (Workload (r_Config res)) (Concurrency (r_Config res)) (Warmup (r_Config res))
    (Duration (r_Config res)) (MeasuredDuration res)
    (fold_left (add_op res) [OpGet; OpPut] ∅).

(** A report is the statistics of its run: under the name of an operation it has
    exactly that operation's counts, throughput and latencies, and nothing under
    any other name; it carries the configuration and the environment of the run. *)
Theorem report_faithful env res :
  (forall op, Ops (NewReport env res) !! opName op = op_report (MeasuredDuration res) <$> r_Stats res op) /\
  (forall name, Ops (NewReport env res) !! name <> None -> exists op, name = opName op) /\
  rp_Workload (NewReport env res) = Workload (r_Config res) /\
  rp_Measured (NewReport env res) = MeasuredDuration res /\ rp_Environment (NewReport env res) = env.
Proof.
  unfold NewReport. cbn [fold_left Ops rp_Workload rp_Measured rp_Environment]. unfold add_op.
  assert (Hne : opName OpGet <> opName OpPut) by done. split_and!; try done.
  - intros []; destruct (r_Stats res OpGet), (r_Stats res OpPut); cbn;
      rewrite ?lookup_insert_eq, ?lookup_insert_ne, ?lookup_insert_eq, ?lookup_empty by done; done.
  - intros name. destruct (decide (name = opName OpGet)) as [->|H1]; [by exists OpGet|].
    destruct (decide (name = opName OpPut)) as [->|H2]; [by exists OpPut|].
    destruct (r_Stats res OpGet), (r_Stats res OpPut);
      rewrite ?lookup_insert_ne, ?lookup_empty by congruence; done.
Qed.

(** ** Keys *)

Lemma formatKey_digits i :
  formatKey i = $"k-" ++
    ((fun k => hex_char (Z.land (Z.shiftr i (4 * k)) 15)) <$> [6; 5; 4; 3; 2; 1; 0]).
Proof.
  unfold formatKey. cbn -[hex_char Z.land Z.shiftr].
  rewrite !Z.shiftr_shiftr by lia. by rewrite Z.shiftr_0_r.
Qed.

Lemma hex_char_inj a b : 0 <= a < 16 -> 0 <= b < 16 -> hex_char a = hex_char b -> a = b.
Proof.
  intros Ha Hb E.
  assert (Hall : forallb (fun a => forallb (fun b => (a =? b) ||
      negb (bool_decide (hex_char a = hex_char b))) (seqZ 0 16)) (seqZ 0 16) = true) by reflexivity.
  rewrite forallb_forall in Hall. specialize (Hall a ltac:(apply list_elem_of_In, elem_of_seqZ; lia)).
  rewrite forallb_forall in Hall. specialize (Hall b ltac:(apply list_elem_of_In, elem_of_seqZ; lia)).
  rewrite bool_decide_true in Hall by done. destruct (a =? b) eqn:Eab; bool_prop; [done|done].
Qed.

Lemma nibbles i : 0 <= i < 2 ^ 28 ->
  i = fold_right (fun k acc => Z.land (Z.shiftr i (4 * k)) 15 * 16 ^ k + acc) 0 [0; 1; 2; 3; 4; 5; 6].
Proof.
  intros Hi. cbn [fold_right].
  change 15 with (Z.ones 4). rewrite !Z.land_ones, !Z.shiftr_div_pow2 by lia.
  change (2 ^ (4 * 0)) with 1. change (2 ^ (4 * 1)) with 16. change (2 ^ (4 * 2)) with 256.
  change (2 ^ (4 * 3)) with 4096. change (2 ^ (4 * 4)) with 65536. change (2 ^ (4 * 5)) with 1048576.
  change (2 ^ (4 * 6)) with 16777216. change (2 ^ 4) with 16.
  change (16 ^ 0) with 1. change (16 ^ 1) with 16. change (16 ^ 2) with 256. change (16 ^ 3) with 4096.
  change (16 ^ 4) with 65536. change (16 ^ 5) with 1048576. change (16 ^ 6) with 16777216.
  Z.div_mod_to_equations. lia.
Qed.

(** Two indices below 2^28 have different keys; the key of 2^28 is the key of 0,
    so a working set of more than 2^28 keys has fewer distinct keys than
    configured. *)
Theorem keys_distinct :
  (forall i j, 0 <= i < 2 ^ 28 -> 0 <= j < 2 ^ 28 -> formatKey i = formatKey j -> i = j) /\
  formatKey (2 ^ 28) = formatKey 0.
Proof.
  split; [|reflexivity].
  intros i j Hi Hj E. rewrite !formatKey_digits in E. apply app_inv_head in E.
  cbn -[hex_char Z.land Z.shiftr] in E.
  assert (Hn : forall x k, 0 <= Z.land (Z.shiftr x k) 15 < 16).
  { intros x k. change 15 with (Z.ones 4). rewrite Z.land_ones by lia.
    apply Z.mod_pos_bound. lia. }
  injection E as E6 E5 E4 E3 E2 E1 E0.
  apply hex_char_inj in E0, E1, E2, E3, E4, E5, E6; try apply Hn.
  rewrite (nibbles i Hi), (nibbles j Hj). cbn [fold_right].
  cbn -[Z.land Z.shiftr] in *. congruence.
Qed.

(** ** Rounding *)

(** [m * 2^e] is below [2^c]. *)
Definition below (m e c : Z) : Prop := 0 <= m < 2 ^ Z.max 0 (c - e).

Lemma digits_bound p : 2 ^ (Z.pos (digits2_pos p) - 1) <= Z.pos p.
Proof.
  induction p as [p IH|p IH|]; cbn [digits2_pos]; rewrite ?Pos2Z.inj_succ; [| |done].
  all: replace (Z.succ _ - 1) with (Z.succ (Z.pos (digits2_pos p) - 1)) by lia.
  all: rewrite Z.pow_succ_r by lia; lia.
Qed.

Lemma below_digits m e c : e <= c -> below m e c -> Zdigits2 m + e <= c.
Proof.
  intros He [H0 H]. destruct m as [|p|p]; [cbn; lia| |lia].
  pose proof (digits_bound p) as Hd. rewrite Z.max_r in H by lia.
  assert (Hlt : 2 ^ (Z.pos (digits2_pos p) - 1) < 2 ^ (c - e)) by lia.
  apply Z.pow_lt_mono_r_iff in Hlt; cbn [Zdigits2]; lia.
Qed.

Lemma shr_1_m r : 0 <= shr_m r -> shr_m (shr_1 r) = shr_m r / 2.
Proof.
  destruct r as [[|[p|p|]|p] r s]; cbn; intros H; try done; try lia.
  - apply (Z.div_unique _ _ _ 1); lia.
  - apply (Z.div_unique _ _ _ 0); lia.
Qed.

Lemma below_half m e c : below m e c -> below (m / 2) (e + 1) c.
Proof.
  unfold below. intros [H0 H]. split; [apply Z.div_pos; lia|].
  destruct (Z.le_gt_cases c e).
  - rewrite Z.max_l in H by lia. rewrite Z.max_l by lia. cbn in *.
    assert (m = 0) as -> by lia. done.
  - rewrite Z.max_r in * by lia. apply Z.div_lt_upper_bound; [lia|].
    rewrite <- Z.pow_succ_r by lia. by replace (Z.succ (c - (e + 1))) with (c - e) by lia.
Qed.

Lemma below_shr p r e c :
  below (shr_m r) e c -> below (shr_m (SpecFloat.iter_pos shr_1 p r)) (e + Z.pos p) c.
Proof.
  revert r e. induction p as [p IH|p IH|]; intros r e H; cbn [SpecFloat.iter_pos].
  - replace (e + Z.pos p~1) with (e + 1 + Z.pos p + Z.pos p) by lia. apply IH, IH.
    rewrite shr_1_m by apply H. by apply below_half.
  - replace (e + Z.pos p~0) with (e + Z.pos p + Z.pos p) by lia. by apply IH, IH.
  - rewrite shr_1_m by apply H. by apply below_half.
Qed.

Lemma shr_fexp_below m e l c r e' :
  e <= c -> -1074 <= c -> below m e c -> shr_fexp 53 1024 m e l = (r, e') ->
  below (shr_m r) e' c /\ e' <= c.
Proof.
  intros He Hc Hb. pose proof (below_digits m e c He Hb) as Hd.
  assert (Hm : shr_m (shr_record_of_loc m l) = m) by (by destruct l as [|[]]).
  unfold shr_fexp, shr.
  assert (Hx : fexp 53 1024 (Zdigits2 m + e) <= c) by (unfold fexp, emin; lia).
  destruct (fexp 53 1024 (Zdigits2 m + e) - e) as [|p|p] eqn:E; intros [= <- <-].
  - by rewrite Hm.
  - split; [|lia]. apply below_shr. by rewrite Hm.
  - by rewrite Hm.
Qed.

Lemma below_succ m e c n : e <= c -> below m e c -> n = m \/ n = m + 1 -> below n e (c + 1).
Proof.
  unfold below. intros He [H0 H] Hn. rewrite Z.max_r in * by lia.
  replace (c + 1 - e) with (Z.succ (c - e)) by lia.
  rewrite Z.pow_succ_r by lia. lia.
Qed.

(** Rounding a non-negative number below [2^c] gives zero or a finite one below
    [2^(c+1)]. *)
Lemma round_below m e l c :
  e <= c -> -1074 <= c < 971 -> below m e c ->
  let f := binary_round_aux 53 1024 false m e l in
  f = S754_zero false \/
  exists m' e', f = S754_finite false m' e' /\ below (Z.pos m') e' (c + 1) /\ e' <= c + 1.
Proof.
  intros He Hc Hb. cbn zeta. unfold binary_round_aux.
  destruct (shr_fexp _ _ m e l) as [r e1] eqn:E1.
  destruct (shr_fexp_below _ _ _ _ _ _ He ltac:(lia) Hb E1) as [Hb1 He1].
  destruct (shr_fexp _ _ _ e1 loc_Exact) as [r2 e2] eqn:E2.
  assert (Hb2 : below (round_nearest_even (shr_m r) (loc_of_shr_record r)) e1 (c + 1)).
  { eapply below_succ; [exact He1|exact Hb1|].
    destruct (loc_of_shr_record r) as [|[]]; cbn; [|case_match| |]; auto. }
  destruct (fun H1 H2 => shr_fexp_below _ _ _ (c + 1) _ _ H1 H2 Hb2 E2) as [Hb3 He3]; [lia|lia|].
  destruct (shr_m r2) as [|q|q] eqn:Eq; [by left| |destruct Hb3; lia].
  right. exists q, e2. change (1024 - 53) with 971. by rewrite (proj2 (Z.leb_le e2 971)) by lia.
Qed.

Lemma pos_shift p k : Z.pos (Pos.iter xO p k) = Z.pos p * 2 ^ Z.pos k.
Proof.
  induction k as [|k IH] using Pos.peano_ind; [cbn; lia|].
  rewrite Pos.iter_succ, Pos2Z.inj_xO, IH, Pos2Z.inj_succ, Z.pow_succ_r by lia. lia.
Qed.

Lemma float_of_int_below n :
  0 < n < 2 ^ 45 ->
  exists m e, float_of_int n = S754_zero false \/
    float_of_int n = S754_finite false m e /\ below (Z.pos m) e 46 /\ e <= 46.
Proof.
  intros Hn. destruct n as [|p|p]; [lia| |lia].
  unfold float_of_int, binary_normalize, binary_round, shl_align.
  assert (Hp : below (Z.pos p) 0 45) by (split; [lia|apply Hn]).
  destruct (fexp 53 1024 (Z.pos (digits2_pos p) + 0) - 0) as [|k|k] eqn:E.
  1,2: destruct (round_below (Z.pos p) 0 loc_Exact 45 ltac:(lia) ltac:(lia) Hp)
         as [?|(m & e & ?)]; [by exists xH, 0; left|by exists m, e; right].
  edestruct (round_below (Z.pos (Pos.iter xO p k))
               (fexp 53 1024 (Z.pos (digits2_pos p) + 0)) loc_Exact 45) as [?|(m & e & ?)];
    [lia|lia| |by exists xH, 0; left|by exists m, e; right].
  unfold below in *. rewrite pos_shift. rewrite Z.max_r by lia.
  replace (45 - fexp 53 1024 (Z.pos (digits2_pos p) + 0)) with (45 + Z.pos k) by lia.
  rewrite Z.pow_add_r by lia. change (Z.max 0 (45 - 0)) with 45 in Hp. nia.
Qed.

(** A fraction of the format of the percentile literals: 53 bits below the point. *)
Definition fraction (p : float64) : bool :=
  match p with
  | S754_finite false m e => (Z.pos m <? 2 ^ 53) && (e =? -53)
  | _ => false
  end.

Lemma int_of_float_below m e c :
  below (Z.pos m) e c -> e <= c -> c <= 63 ->
  0 <= int_of_float (S754_finite false m e).
Proof.
  intros [_ H] He Hc. cbn -[Z.pow Z.leb Z.ltb]. rewrite Z.max_r in H by lia.
  assert (Hv : 0 <= (if 0 <=? e then Z.pos m * 2 ^ e else Z.pos m / 2 ^ (- e)) < 2 ^ 63).
  { assert (2 ^ c <= 2 ^ 63) by (apply Z.pow_le_mono_r; lia).
    destruct (0 <=? e) eqn:E0; bool_prop.
    - assert (2 ^ c = 2 ^ (c - e) * 2 ^ e) by (rewrite <- Z.pow_add_r by lia; f_equal; lia).
      pose proof (Z.pow_pos_nonneg 2 e). nia.
    - split; [apply Z.div_pos; lia|]. apply Z.div_lt_upper_bound; [lia|].
      replace (2 ^ (- e) * 2 ^ 63) with (2 ^ (63 - e)).
      + eapply Z.lt_le_trans; [exact H|]. apply Z.pow_le_mono_r; lia.
      + rewrite <- Z.pow_add_r by lia. f_equal. lia. }
  destruct ((_ <=? _) && _) eqn:E; [lia|].
  apply andb_false_iff in E as [E|E]; bool_prop; lia.
Qed.

(** A percentile of a non-empty slice that fits in memory is one of its samples. *)
Lemma percentile_total l p :
  l <> [] -> len l < 2 ^ 45 -> fraction p = true ->
  exists d, percentile l p = Ret d /\ d ∈ l.
Proof.
  intros Hl Hn Hp.
  assert (Hpos : 0 < len l) by (destruct l; [done|]; rewrite len_cons; pose proof (len_nonneg l); lia).
  destruct p as [| | |[] pm pe]; try done. cbn -[Z.pow] in Hp. bool_prop. subst pe.
  assert (Hidx : 0 <= int_of_float (SFmul 53 1024 (S754_finite false pm (-53)) (float_of_int (len l)))).
  { destruct (float_of_int_below (len l)) as (m & e & [->|(-> & Hb & He)]); [lia|done|].
    cbn [SFmul xorb].
    destruct (round_below (Z.pos (pm * m)) (-53 + e) loc_Exact 46) as [->|(m' & e' & -> & Hb' & He')];
      [lia|lia| |done|by eapply int_of_float_below].
    unfold below in *. rewrite Z.max_r in * by lia.
    replace (46 - (-53 + e)) with (53 + (46 - e)) by lia. rewrite Z.pow_add_r by lia. nia. }
  unfold percentile. set (i := int_of_float _) in *.
  set (j := if len l <=? i then len l - 1 else i).
  assert (Hj : 0 <= j < len l) by (unfold j; destruct (_ <=? _) eqn:E; bool_prop; lia).
  rewrite (proj2 (Z.ltb_ge j 0)), (proj2 (Z.leb_gt (len l) j)) by lia.
  eexists. split; [done|]. apply list_elem_of_In, nth_In. unfold len in Hj. lia.
Qed.

(** ** Statistics *)

Lemma sort_durations_perm l : sort_durations l ≡ₚ l.
Proof. apply merge_sort_Permutation. Qed.

Lemma sort_durations_sorted l : StronglySorted Z.le (sort_durations l).
Proof. apply StronglySorted_merge_sort; intros ?; intros; lia. Qed.

Lemma sorted_first_last x l y :
  StronglySorted Z.le (x :: l) -> y ∈ x :: l -> x <= y <= List.last (x :: l) 0.
Proof.
  revert x y. induction l as [|z l IH]; intros x y Hs Hy.
  - apply list_elem_of_singleton in Hy as ->. cbn. lia.
  - apply StronglySorted_inv in Hs as [Hs Hx]. change (List.last (x :: z :: l) 0) with (List.last (z :: l) 0).
    rewrite Forall_forall in Hx. apply elem_of_cons in Hy as [->|Hy].
    + pose proof (Hx z ltac:(left)). pose proof (IH z z Hs ltac:(left)). lia.
    + pose proof (Hx y Hy). pose proof (IH z y Hs Hy). lia.
Qed.

Lemma last_elem x (l : list Z) d : List.last (x :: l) d ∈ x :: l.
Proof.
  destruct (exists_last (l := x :: l)) as (k & y & ->); [done|].
  rewrite last_last. apply elem_of_app. right. left.
Qed.

(** The wrapping sum is the sum when it and its terms do not leave int64. *)
Lemma sum_exact l a :
  0 <= a -> Forall (Z.le 0) l -> a + fold_right Z.add 0 l < 2 ^ 63 ->
  fold_left (fun acc d => i64 (acc + d)) l a = a + fold_right Z.add 0 l.
Proof.
  revert a. induction l as [|d l IH]; intros a Ha Hl Hs; cbn [fold_left fold_right] in *; [lia|].
  apply Forall_cons in Hl as [Hd Hl].
  assert (0 <= fold_right Z.add 0 l) by (clear -Hl; induction Hl; cbn; lia).
  rewrite i64_small by (unfold is_i64; lia). rewrite IH; [lia|lia|done|lia].
Qed.

Lemma sum_bounds l lo hi :
  (forall y, y ∈ l -> lo <= y <= hi) -> len l * lo <= fold_right Z.add 0 l <= len l * hi.
Proof.
  induction l as [|d l IH]; intros H; [rewrite (len_nil (A := Z)); cbn; lia|].
  rewrite len_cons. cbn [fold_right]. pose proof (H d ltac:(left)).
  specialize (IH (fun y Hy => H y (list_elem_of_further _ _ _ Hy))). nia.
Qed.

Lemma sum_perm l k : l ≡ₚ k -> fold_right Z.add 0 l = fold_right Z.add 0 k.
Proof. induction 1; cbn; lia. Qed.

(** For any samples that fit in memory the statistics of an operation exist: they
    count the samples and the errors, every percentile is a sample, and every
    percentile lies between the minimum and the maximum, which are samples too;
    so does the mean, if the durations are not negative and their sum fits 64
    bits. *)
Theorem stats_correct r op l :
  samples r op = Some l -> l <> [] -> len l < 2 ^ 45 ->
  exists s, op_stats r op = Ret s /\ Count s = len l /\ Errors s = default 0 (errors r op) /\
    Min s ∈ l /\ Max s ∈ l /\
    (forall y, y ∈ l -> Min s <= y <= Max s) /\
    Forall (fun p => p ∈ l) [P50 s; P95 s; P99 s; P999 s] /\
    (Forall (Z.le 0) l -> fold_right Z.add 0 l < 2 ^ 63 -> Min s <= Mean s <= Max s).
Proof.
  intros Hl Hne Hn. unfold op_stats. rewrite Hl. cbn [default]. unfold id.
  pose proof (sort_durations_perm l) as Hp. pose proof (sort_durations_sorted l) as Hs.
  pose proof (Permutation_length Hp) as Hlen.
  destruct (sort_durations l) as [|x k] eqn:E; [by apply Permutation_nil_l in Hp|].
  cbv beta zeta iota.
  assert (Hlen' : len (x :: k) = len l) by (unfold len; by rewrite Hlen).
  assert (Hin : forall p, fraction p = true -> exists d, percentile (x :: k) p = Ret d /\ d ∈ l).
  { intros p Hf. destruct (percentile_total (x :: k) p) as (d & -> & Hd); [done|lia|done|].
    exists d. by rewrite <- Hp. }
  destruct (Hin p50 eq_refl) as (a & -> & Ha), (Hin p95 eq_refl) as (b & -> & Hb),
    (Hin p99 eq_refl) as (c & -> & Hc), (Hin p999 eq_refl) as (d & -> & Hd).
  eexists. split; [done|]. cbn [Count Errors Min Max P50 P95 P99 P999 Mean].
  assert (Hb' : forall y, y ∈ l -> x <= y <= List.last (x :: k) 0).
  { intros y Hy. apply sorted_first_last; [done|]. by rewrite Hp. }
  split_and!; [done|done| | |done|by repeat constructor|].
  - rewrite <- Hp. left.
  - rewrite <- Hp. apply last_elem.
  - intros Hpos Hsum. rewrite Hlen', sum_exact, (sum_perm _ _ Hp), Z.add_0_l by
      (rewrite ?(sum_perm _ _ Hp), ?Hp; done).
    pose proof (sum_bounds l _ _ Hb') as Hsb.
    assert (Hl0 : 0 < len l) by (rewrite <- Hlen', len_cons; pose proof (len_nonneg k); lia).
    assert (0 <= fold_right Z.add 0 l) by (clear -Hpos; induction Hpos; cbn; lia).
    rewrite Z.quot_div_nonneg by lia.
    assert (x <= fold_right Z.add 0 l / len l <= List.last (x :: k) 0).
    { split; [apply Z.div_le_lower_bound; lia|apply Z.div_le_upper_bound; lia]. }
    rewrite i64_small; [done|]. unfold is_i64.
    assert (0 <= fold_right Z.add 0 l / len l) by (apply Z.div_pos; lia).
    assert (fold_right Z.add 0 l / len l <= fold_right Z.add 0 l) by (apply Z.div_le_upper_bound; nia).
    lia.
Qed.

Lemma stats_correct_witness :
  let r := record OpGet 30 false (record OpGet 10 false (SetWarmedUp NewRecorder)) in
  exists s, op_stats r OpGet = Ret s /\ Count s = 2 /\ Errors s = 0 /\
    Min s ∈ [10; 30] /\ Max s ∈ [10; 30] /\
    (forall y, y ∈ [10; 30] -> Min s <= y <= Max s) /\
    Forall (fun p => p ∈ [10; 30]) [P50 s; P95 s; P99 s; P999 s] /\
    (Forall (Z.le 0) [10; 30] -> fold_right Z.add 0 [10; 30] < 2 ^ 63 -> Min s <= Mean s <= Max s).
Proof.
  refine (stats_correct (record OpGet 30 false (record OpGet 10 false (SetWarmedUp NewRecorder)))
            OpGet [10; 30] eq_refl _ _); done.
Defined.

(** The median of two samples is the larger one: the index is [int(p * n)], not
    the nearest rank of [p]. *)
Theorem percentile_not_nearest_rank : percentile [1; 2] p50 = Ret 2.
Proof. reflexivity. Qed.

(** ** Runs *)

Section RunFacts.
Context {G : Type} `{Rand G}.

Definition silent (r : Recorder) : Prop := forall op, samples r op = None /\ errors r op = None.

Definition fresh_samples (r : Recorder) : Prop :=
  forall op l, samples r op = Some l -> l <> [] /\ Forall (Z.le 0) l.

(** What holds in every state of a run: a recorder that is not warmed up is
    empty, samples are not negative, a request in progress was started in the
    past, and the main goroutine's phase agrees with the recorder. *)
Definition run_inv (cfg : RunConfig) (s : @run_state G) : Prop :=
  (warmedUp (rec s) = false -> silent (rec s)) /\
  fresh_samples (rec s) /\
  (forall i g req start, workers s !! i = Some (Executing g req start) -> start <= now s) /\
  match main s with
  | WaitWarmup => warmedUp (rec s) = false
  | WaitDuration start => start <= now s
  | WaitWorkers m =>
      (m = 0 /\ cancelled s = true /\ warmedUp (rec s) = false) \/
      (0 <= m /\ (Duration cfg <= m \/ cancelled s = true))
  | Finished res =>
      r_Config res = cfg /\ Forall (fun w => w = Returned) (workers s) /\
      ((MeasuredDuration res = 0 /\ cancelled s = true /\ forall op, r_Stats res op = None) \/
       (0 <= MeasuredDuration res /\ (Duration cfg <= MeasuredDuration res \/ cancelled s = true)))
  end.

Lemma record_silent op d f r : warmedUp r = false -> record op d f r = r.
Proof. intros Hw. unfold record. by rewrite Hw. Qed.

Lemma record_warmed op d f r : warmedUp (record op d f r) = warmedUp r.
Proof. unfold record. by repeat case_match. Qed.

Lemma record_samples op d f r :
  0 <= d -> fresh_samples r -> fresh_samples (record op d f r).
Proof.
  intros Hd Hf. unfold record. destruct (negb _); [done|]. destruct f; [done|].
  intros o l. cbn. unfold upd. case_decide as Ho; [|apply Hf].
  intros [= <-]. split; [by destruct (default [] _)|]. apply Forall_app. split; [|by constructor].
  destruct (samples r op) as [l|] eqn:E; cbn; [by apply (Hf op)|constructor].
Qed.

Lemma compute_silent r m stats :
  silent r -> Compute r m = Ret stats -> forall op, stats op = None.
Proof.
  intros Hs. unfold Compute, compute_op.
  destruct (Hs OpGet) as [-> ->], (Hs OpPut) as [-> ->]. by intros [= <-] [].
Qed.

Lemma step_main_inv (cfg : RunConfig) t0 s s' :
  run_inv cfg s -> run_step cfg t0 s s' ->
  (Forall (fun w => w = Returned) (workers s) -> Forall (fun w => w = Returned) (workers s')) /\
  now s <= now s' /\ (cancelled s = true -> cancelled s' = true).
Proof.
  intros _ Hs. destruct Hs; cbn; split_and!; try lia; try done.
  all: intros Hall; exfalso; rewrite Forall_lookup in Hall;
    match goal with Hw : workers _ !! _ = Some _ |- _ => by specialize (Hall _ _ Hw) end.
Qed.

Lemma run_inv_step cfg t0 s s' : run_inv cfg s -> run_step cfg t0 s s' -> run_inv cfg s'.
Proof.
  intros Hi Hst. pose proof (step_main_inv _ _ _ _ Hi Hst) as (Hret & Hnow & Hcan).
  destruct Hi as (Hw & Hf & Hx & Hm).
  destruct Hst as [s t Ht|s|s i g Hg Hstop|s i g g' req Hg Hstop Hn|s i g req start failed Hg
                  |s Hp Ht|s Hp Hc|s start Hp Hc|s m stats Hp Hall Hcomp]; cbn in *.
  all: split_and!; cbn; try done.
  all: try (intros j g0 req0 start0; rewrite list_lookup_insert_Some;
            intros [(-> & [= <- <- <-] & _)|[_ Hj]]; [lia|by eapply Hx]).
  - intros j g0 req0 start0 Hj. pose proof (Hx _ _ _ _ Hj). lia.
  - destruct (main s); [done|lia|done|done].
  - destruct (main s) as [| |m|res]; [done|done|destruct Hm as [(? & ? & ?)|(? & ?)]; auto|].
    destruct Hm as (? & ? & [(? & ? & ?)|(? & ?)]); auto 10.
  - intros j g0 req0 start0. rewrite list_lookup_insert_Some.
    intros [(_ & [=] & _)|[_ Hj]]. by eapply Hx.
  - destruct (main s); [done|done|done|destruct Hm as (? & ? & ?); auto].
  - destruct (main s); [done|done|done|destruct Hm as (? & ? & ?); auto].
  - rewrite record_warmed. intros Hwf. rewrite record_silent by done. by apply Hw.
  - apply record_samples; [|done]. pose proof (Hx _ _ _ _ Hg). lia.
  - intros j g0 req0 start0. rewrite list_lookup_insert_Some.
    intros [(_ & [=] & _)|[_ Hj]]. by eapply Hx.
  - rewrite record_warmed. destruct (main s); [done|done|done|destruct Hm as (? & ? & ?); auto].
  - rewrite Hp in Hm. by left.
  - rewrite Hp in Hm. right. split; [lia|]. destruct Hc; [left; lia|by right].
  - rewrite Hp in Hm. split_and!; [done|done|].
    destruct Hm as [(-> & Hca & Hwf)|Hm]; [left|by right].
    split_and!; [done|done|]. eapply compute_silent; eauto.
Qed.

Lemma start_workers_at_loop cfg n seed ws :
  start_workers n cfg seed = Ret ws -> Forall (fun w => exists g, w = AtLoop g) ws.
Proof.
  revert seed ws. induction n as [|n IH]; intros seed ws; cbn; [by intros [= <-]|].
  unfold NewGenerator. destruct (_ || _); cbn; [done|].
  destruct (start_workers n cfg (seed + 1)) as [ws'| |] eqn:E; cbn; [|done|done].
  intros [= <-]. constructor; [by eexists|by eapply IH].
Qed.

Lemma run_inv_reaches cfg s : run_reaches cfg s -> run_inv cfg s.
Proof.
  intros (t0 & s0 & Hi & Hr).
  assert (H0 : run_inv cfg s0).
  { unfold run_init in Hi. destruct (start_workers _ cfg 1) as [ws| |] eqn:E; [|done|done].
    injection Hi as <-. pose proof (start_workers_at_loop _ _ _ _ E) as Hws.
    split_and!; cbn; try done. intros i g req start Hw.
    rewrite Forall_lookup in Hws. by destruct (Hws _ _ Hw). }
  clear Hi. induction Hr as [|s0 s1 s Hst Hr IH]; [done|]. apply IH. by eapply run_inv_step.
Qed.

(** Whatever the workers, the timers and a cancellation do, a run that returns
    has stopped every worker; its measured time is at least the configured
    duration unless the run was cancelled, and one cancelled before the warmup
    ended reports no operation at all. *)
Theorem run_result cfg s res :
  run_reaches cfg s -> main s = Finished res ->
  r_Config res = cfg /\ Forall (fun w => w = Returned) (workers s) /\
  ((MeasuredDuration res = 0 /\ cancelled s = true /\ forall op, r_Stats res op = None) \/
   (0 <= MeasuredDuration res /\ (Duration cfg <= MeasuredDuration res \/ cancelled s = true))).
Proof.
  intros (_ & _ & _ & Hm)%run_inv_reaches E. by rewrite E in Hm.
Qed.

(** No sample is recorded before the warmup has ended, and every recorded latency
    is non-negative. *)
Theorem warmup_excluded cfg s :
  run_reaches cfg s ->
  (main s = WaitWarmup -> silent (rec s)) /\
  forall op l, samples (rec s) op = Some l -> Forall (Z.le 0) l.
Proof.
  intros (Hw & Hf & _ & Hm)%run_inv_reaches. split.
  - intros E. rewrite E in Hm. by apply Hw.
  - intros op l Hl. by eapply Hf.
Qed.

End RunFacts.

(** A source that always draws zero, for concrete runs. *)
Definition zero_rand : Rand unit := {|
  rand_New := fun _ => tt;
  rand_Read := fun _ n => make n;
  rand_Float64 := fun g => (g, S754_zero false);
  rand_Intn := fun g _ => (g, 0)
|}.

#[export] Instance zero_rand_laws : @RandLaws unit zero_rand.
Proof.
  split; cbn; intros g n Hn; [lia|]. unfold len, make. rewrite length_replicate. lia.
Qed.

Definition demo_run : RunConfig :=
  mkRunConfig (mkWorkload (float_lit 1 1) 10 0 4 0) 1 0 1.

(** A call that returns after the measured time was taken is still counted: here
    the time is 1 and the operation's only sample took 100. *)
Theorem late_sample_counted :
  exists (s : @run_state unit) res, @run_reaches unit zero_rand demo_run s /\ main s = Finished res /\
    MeasuredDuration res = 1 /\
    (fun st => (Count st, Max st)) <$> r_Stats res OpGet = Some (1, 100).
Proof.
  eexists _, _. split.
  - exists 0. eexists. split; [reflexivity|].
    eapply rtc_l; [by apply step_warmed; [done|cbn; lia]|].
    eapply rtc_l; [by eapply (step_next _ _ _ 0%nat); reflexivity|].
    eapply rtc_l; [by apply (step_time _ _ _ 1); cbn; lia|].
    eapply rtc_l; [by eapply step_measured; [reflexivity|cbn; left; lia]|].
    eapply rtc_l; [by apply (step_time _ _ _ 100); cbn; lia|].
    eapply rtc_l; [by eapply (step_record _ _ _ 0%nat _ _ _ false); reflexivity|].
    eapply rtc_l; [by eapply (step_return _ _ _ 0%nat); reflexivity|].
    eapply rtc_once. eapply step_finish; [reflexivity| |vm_compute; reflexivity].
    by repeat constructor.
  - by vm_compute.
Qed.
