(* ===== verification/Percentile.v ===== *)
(** * The percentiles of a benchmark run (internal/benchmark, stats.go)

    [percentile] computes its index as [int(p * float64(len))] in binary64.  This
    file bounds the rounding of that product and of the literals 0.50, 0.95, 0.99
    and 0.999, and shows that for fewer than 2^40 samples the value found is an
    exact quantile, whatever the rounding did. *)

From Stdlib Require Import ZArith Lia.
From Stdlib Require Import SpecFloat.
From stdpp Require Import sorting.
From S2P Require Import Prelude Benchmark.

(** ** Rounding to 53 bits *)

Lemma digits_above p : Z.pos p < 2 ^ Z.pos (digits2_pos p).
Proof.
  induction p as [p IH|p IH|]; cbn [digits2_pos]; rewrite ?Pos2Z.inj_succ; [| |done].
  all: rewrite Z.pow_succ_r by lia; lia.
Qed.

(** The number of bits is the one whose powers of two enclose the number. *)
Lemma digits_unique m d : 0 < d -> 2 ^ (d - 1) <= m < 2 ^ d -> Zdigits2 m = d.
Proof.
  intros Hd [Hl Hu].
  assert (0 < 2 ^ (d - 1)) by (apply Z.pow_pos_nonneg; lia).
  destruct m as [|p|p]; [lia| |lia].
  pose proof (digits_bound p). pose proof (digits_above p). cbn [Zdigits2].
  assert (Hlo : 2 ^ (d - 1) < 2 ^ Z.pos (digits2_pos p)) by lia.
  assert (Hhi : 2 ^ (Z.pos (digits2_pos p) - 1) < 2 ^ d) by lia.
  apply Z.pow_lt_mono_r_iff in Hlo, Hhi; lia.
Qed.

Lemma shr_m_iter p r :
  0 <= shr_m r -> shr_m (SpecFloat.iter_pos shr_1 p r) = shr_m r / 2 ^ Z.pos p.
Proof.
  revert r. induction p as [p IH|p IH|]; intros r H; cbn [SpecFloat.iter_pos]; [| |by apply shr_1_m].
  all: assert (Hp : 0 < 2 ^ Z.pos p) by (apply Z.pow_pos_nonneg; lia).
  - assert (H1 : 0 <= shr_m (shr_1 r)) by (rewrite shr_1_m by done; apply Z.div_pos; lia).
    assert (H2 : 0 <= shr_m (SpecFloat.iter_pos shr_1 p (shr_1 r))) by (rewrite IH by done; by apply Z.div_pos).
    rewrite (IH _ H2), (IH _ H1), (shr_1_m _ H), !Z.div_div by lia.
    replace (Z.pos p~1) with (1 + Z.pos p + Z.pos p) by lia. rewrite !Z.pow_add_r by lia. f_equal. lia.
  - assert (H1 : 0 <= shr_m (SpecFloat.iter_pos shr_1 p r)) by (rewrite IH by done; by apply Z.div_pos).
    rewrite (IH _ H1), (IH _ H), Z.div_div by lia.
    replace (Z.pos p~0) with (Z.pos p + Z.pos p) by lia. by rewrite Z.pow_add_r by lia.
Qed.

(** No bit is lost when the lost ones are zero. *)
Lemma shr_zeros p j :
  0 <= j -> SpecFloat.iter_pos shr_1 p (Build_shr_record (2 ^ Z.pos p * j) false false)
            = Build_shr_record j false false.
Proof.
  revert j. induction p as [p IH|p IH|]; intros j Hj; cbn [SpecFloat.iter_pos].
  - assert (H1 : forall m, 0 <= m -> shr_1 (Build_shr_record (2 * m) false false) = Build_shr_record m false false)
      by (by intros [|m|m]).
    replace (2 ^ Z.pos p~1 * j) with (2 * (2 ^ Z.pos p * (2 ^ Z.pos p * j)));
      [rewrite H1, IH, IH by (repeat apply Z.mul_nonneg_nonneg; auto using Z.pow_nonneg with lia); done|].
    replace (Z.pos p~1) with (1 + Z.pos p + Z.pos p) by lia. rewrite !Z.pow_add_r by lia. lia.
  - replace (2 ^ Z.pos p~0 * j) with (2 ^ Z.pos p * (2 ^ Z.pos p * j));
      [rewrite !IH by (repeat apply Z.mul_nonneg_nonneg; auto using Z.pow_nonneg with lia); done|].
    replace (Z.pos p~0) with (Z.pos p + Z.pos p) by lia. rewrite !Z.pow_add_r by lia. lia.
  - by destruct j.
Qed.

(** A mantissa of 53 bits at an exponent of the format is rounded to itself; one of
    [53 + k] bits loses its last [k], upwards or downwards. *)
Lemma shr_fexp_bits m e k :
  0 <= k -> -1074 <= e + k -> 2 ^ (52 + k) <= m < 2 ^ (53 + k) ->
  exists r, shr_fexp 53 1024 m e loc_Exact = (r, e + k) /\ shr_m r = m / 2 ^ k /\
    ((2 ^ k | m) -> loc_of_shr_record r = loc_Exact).
Proof.
  intros Hk He Hm. unfold shr_fexp.
  rewrite (digits_unique m (53 + k)) by (rewrite ?(Z.add_comm 53 k), ?Z.add_simpl_r; try lia;
    replace (k + 53 - 1) with (52 + k) by lia; rewrite (Z.add_comm k 53); lia).
  replace (fexp 53 1024 (53 + k + e) - e) with k by (unfold fexp, emin; lia).
  assert (0 <= m) by (pose proof (Z.pow_nonneg 2 (52 + k)); lia).
  destruct k as [|p|p]; [| |lia]; eexists; cbn [shr]; rewrite ?Z.add_0_r, ?Z.div_1_r; split_and!; try done.
  - by rewrite shr_m_iter.
  - intros [j Hj]. rewrite Hj, Z.mul_comm. cbn [shr_record_of_loc]. rewrite shr_zeros; [done|].
    pose proof (Z.pow_pos_nonneg 2 (Z.pos p)). nia.
Qed.

Lemma round_bits m e k :
  0 <= k -> -1074 <= e + k < 970 -> 2 ^ (52 + k) <= m < 2 ^ (53 + k) ->
  exists q e', binary_round_aux 53 1024 false m e loc_Exact = S754_finite false q e' /\
    e <= e' <= e + k + 1 /\ m - 2 ^ k < Z.pos q * 2 ^ (e' - e) <= m + 2 ^ k /\
    ((2 ^ k | m) -> Z.pos q * 2 ^ (e' - e) = m /\ e' = e + k).
Proof.
  intros Hk He Hm. unfold binary_round_aux.
  destruct (shr_fexp_bits m e k Hk ltac:(lia) Hm) as (r & -> & Hr & Hx).
  assert (H2 : 0 < 2 ^ k) by (apply Z.pow_pos_nonneg; lia).
  rewrite !Z.pow_add_r in Hm by lia.
  assert (Hs : 2 ^ 52 <= m / 2 ^ k < 2 ^ 53)
    by (split; [apply Z.div_le_lower_bound; lia|apply Z.div_lt_upper_bound; lia]).
  pose proof (Z.div_mod m (2 ^ k) ltac:(lia)) as Hdm.
  pose proof (Z.mod_pos_bound m (2 ^ k) H2) as Hmod.
  set (n := round_nearest_even _ _).
  assert (Hn : n = m / 2 ^ k \/ n = m / 2 ^ k + 1).
  { unfold n. rewrite Hr. destruct (loc_of_shr_record r) as [|[]]; cbn; [|case_match| |]; auto. }
  assert (Hn0 : (2 ^ k | m) -> n = m / 2 ^ k).
  { intros Hk0. unfold n. by rewrite Hx, Hr. }
  change (1024 - 53) with 971.
  destruct (decide (n = 2 ^ 53)) as [En|En].
  - destruct (shr_fexp_bits n (e + k) 1) as (r2 & -> & -> & _); [lia|lia|rewrite En; done|].
    rewrite En. rewrite (proj2 (Z.leb_le (e + k + 1) 971)) by lia.
    exists (2 ^ 52)%positive, (e + k + 1). split; [done|]. split; [lia|].
    replace (e + k + 1 - e) with (k + 1) by lia. rewrite Z.pow_add_r by lia.
    change (Z.pos (2 ^ 52)) with (2 ^ 52). split; [nia|]. intros Hk0. specialize (Hn0 Hk0). lia.
  - destruct (shr_fexp_bits n (e + k) 0) as (r2 & -> & -> & _); [lia|lia| |].
    { rewrite !Z.add_0_r. lia. }
    rewrite Z.pow_0_r, Z.div_1_r, Z.add_0_r. destruct n as [|q|q]; [lia| |lia].
    rewrite (proj2 (Z.leb_le (e + k) 971)) by lia.
    exists q, (e + k). split; [done|]. split; [lia|]. replace (e + k - e) with k by lia.
    split; [nia|]. intros Hk0. split; [|done]. rewrite (Hn0 Hk0). destruct Hk0 as [j ->].
    by rewrite Z.div_mul by lia.
Qed.

(** An integer below 2^40 has an exact float64, with at least 13 bits below the
    point. *)
Lemma float_of_int_exact n :
  0 < n < 2 ^ 40 ->
  exists m e, float_of_int n = S754_finite false m e /\ -52 <= e <= -13 /\
    Z.pos m = n * 2 ^ (- e) /\ 2 ^ 52 <= Z.pos m < 2 ^ 53.
Proof.
  intros Hn. destruct n as [|p|p]; [lia| |lia].
  pose proof (digits_bound p) as Hl. pose proof (digits_above p) as Hu.
  set (d := Z.pos (digits2_pos p)) in *.
  assert (Hd : d <= 40).
  { assert (Hlt : 2 ^ (d - 1) < 2 ^ 40) by lia. apply Z.pow_lt_mono_r_iff in Hlt; lia. }
  assert (Hd0 : 0 < d) by done.
  unfold float_of_int, binary_normalize, binary_round, shl_align. fold d.
  replace (fexp 53 1024 (d + 0) - 0) with (d - 53) by (unfold fexp, emin; lia).
  destruct (d - 53) as [|k|k] eqn:Ek; [lia|lia|]. cbv iota beta.
  assert (Hm : 2 ^ 52 <= Z.pos (Pos.iter xO p k) < 2 ^ 53).
  { rewrite pos_shift.
    assert (H53 : 2 ^ 53 = 2 ^ d * 2 ^ Z.pos k) by (rewrite <- Z.pow_add_r by lia; f_equal; lia).
    assert (H52 : 2 ^ 52 = 2 ^ (d - 1) * 2 ^ Z.pos k) by (rewrite <- Z.pow_add_r by lia; f_equal; lia).
    rewrite H53, H52. pose proof (Z.pow_pos_nonneg 2 (Z.pos k)). nia. }
  destruct (round_bits (Z.pos (Pos.iter xO p k)) (fexp 53 1024 (d + 0)) 0)
    as (q & e & -> & _ & _ & Hx); [lia|unfold fexp, emin; lia|done|].
  destruct (Hx (Z.divide_1_l _)) as [Hq ->]. rewrite Z.add_0_r, Z.sub_diag, Z.mul_1_r in Hq.
  eexists _, _. split; [done|]. rewrite Z.add_0_r.
  replace (fexp 53 1024 (d + 0)) with (Z.neg k) by (unfold fexp, emin; lia).
  rewrite Hq. split; [lia|]. split; [by rewrite pos_shift|done].
Qed.

Lemma product_bits p q :
  2 ^ 52 <= Z.pos p < 2 ^ 53 -> 2 ^ 52 <= Z.pos q < 2 ^ 53 ->
  exists k, 52 <= k <= 53 /\ 2 ^ (52 + k) <= Z.pos (p * q) < 2 ^ (53 + k).
Proof.
  intros Hp Hq. rewrite Pos2Z.inj_mul.
  destruct (decide (Z.pos p * Z.pos q < 2 ^ 105)); [exists 52|exists 53]; nia.
Qed.

(** A product of integers below 2^40 is exact. *)
Lemma int_mul_exact f g :
  0 < f -> 0 < g -> f * g < 2 ^ 40 ->
  int_of_float (SFmul 53 1024 (float_of_int f) (float_of_int g)) = f * g.
Proof.
  intros Hf Hg Hfg.
  destruct (float_of_int_exact f ltac:(nia)) as (m1 & e1 & -> & He1 & Hm1 & Hb1).
  destruct (float_of_int_exact g ltac:(nia)) as (m2 & e2 & -> & He2 & Hm2 & Hb2).
  cbn [SFmul xorb].
  assert (Hm : Z.pos (m1 * m2) = f * g * 2 ^ (- (e1 + e2))).
  { rewrite Pos2Z.inj_mul, Hm1, Hm2. replace (- (e1 + e2)) with (- e1 + - e2) by lia.
    rewrite Z.pow_add_r by lia. lia. }
  assert (Hw : 64 < - (e1 + e2)).
  { apply (Z.pow_lt_mono_r_iff 2); [lia|lia|]. rewrite Pos2Z.inj_mul in Hm. nia. }
  destruct (product_bits m1 m2 Hb1 Hb2) as (k & Hk & Hbits).
  destruct (round_bits _ (e1 + e2) k ltac:(lia) ltac:(lia) Hbits) as (q & e' & -> & _ & _ & Hx).
  destruct Hx as [Hq ->].
  { rewrite Hm. apply Z.divide_mul_r. exists (2 ^ (- (e1 + e2) - k)).
    rewrite <- Z.pow_add_r by lia. f_equal. lia. }
  rewrite Hm in Hq. replace (e1 + e2 + k - (e1 + e2)) with k in Hq by lia.
  assert (Hqv : Z.pos q = f * g * 2 ^ (- (e1 + e2 + k))).
  { apply (Z.mul_cancel_r _ _ (2 ^ k)); [apply Z.pow_nonzero; lia|].
    rewrite Hq, <- (Z.mul_assoc (f * g)), <- Z.pow_add_r by lia. do 2 f_equal. lia. }
  cbn -[Z.pow Z.leb Z.ltb Z.div]. rewrite (proj2 (Z.leb_gt 0 _)), Hqv by lia.
  rewrite Z.div_mul by (apply Z.pow_nonzero; lia).
  by rewrite (proj2 (Z.leb_le _ _)), (proj2 (Z.ltb_lt _ _)) by nia.
Qed.

(** ** The index *)

(** [int(p * float64(n))]. *)
Definition rank (p : float64) (n : Z) : Z := int_of_float (SFmul 53 1024 p (float_of_int n)).

(** [p] is the float64 nearest to [a / b], a fraction of at least one half. *)
Definition literal (p : float64) (a b : Z) : Prop :=
  exists m, p = S754_finite false m (-53) /\ 2 ^ 52 <= Z.pos m < 2 ^ 53 /\
    Z.abs (Z.pos m * b - a * 2 ^ 53) <= b /\ 0 < a < b /\ b <= 1000.

Lemma rank_bounds pm n :
  2 ^ 52 <= Z.pos pm < 2 ^ 53 -> 0 < n < 2 ^ 40 ->
  let i := rank (S754_finite false pm (-53)) n in
  0 <= i /\ i * 2 ^ 53 <= Z.pos pm * n + 2 ^ 40 /\ Z.pos pm * n - 2 ^ 40 < (i + 1) * 2 ^ 53.
Proof.
  intros Hp Hn. destruct (float_of_int_exact n Hn) as (m & e & Hf & He & Hm & Hb).
  unfold rank. rewrite Hf. cbn [SFmul xorb].
  destruct (product_bits pm m Hp Hb) as (k & Hk & Hpm).
  destruct (round_bits _ (-53 + e) k ltac:(lia) ltac:(lia) Hpm) as (q & e' & -> & He' & Hq & _).
  assert (Hk2 : 2 ^ k <= 2 ^ 53) by (apply Z.pow_le_mono_r; lia).
  rewrite Pos2Z.inj_mul, Hm in Hq.
  set (w := 2 ^ (- e)) in *. assert (Hw : 2 ^ 13 <= w) by (apply Z.pow_le_mono_r; lia).
  assert (Hdiv : Z.pos q / 2 ^ (- e') = Z.pos q * 2 ^ (e' - (-53 + e)) / (2 ^ 53 * w)).
  { replace (2 ^ 53 * w) with (2 ^ (- e') * 2 ^ (e' - (-53 + e)));
      [rewrite Z.div_mul_cancel_r; [done|apply Z.pow_nonzero; lia|apply Z.pow_nonzero; lia]|].
    unfold w. rewrite <- !Z.pow_add_r by lia. f_equal. lia. }
  cbn -[Z.pow Z.leb Z.ltb Z.div]. rewrite (proj2 (Z.leb_gt 0 e')), Hdiv by lia.
  set (x := Z.pos q * _) in *. assert (0 <= x) by (unfold x; apply Z.mul_nonneg_nonneg; [lia|apply Z.pow_nonneg; lia]).
  pose proof (Z.div_mod x (2 ^ 53 * w) ltac:(lia)) as Hdm.
  pose proof (Z.mod_pos_bound x (2 ^ 53 * w) ltac:(lia)) as Hmod.
  assert (Hi0 : 0 <= x / (2 ^ 53 * w)) by (apply Z.div_pos; lia).
  set (i := x / (2 ^ 53 * w)) in *.
  assert (Hup : i * 2 ^ 53 <= Z.pos pm * n + 2 ^ 40).
  { apply (Z.mul_le_mono_pos_r _ _ w); [lia|]. clear -Hdm Hmod Hq Hk2 Hw. lia. }
  assert (Hlo : Z.pos pm * n - 2 ^ 40 < (i + 1) * 2 ^ 53).
  { apply (Z.mul_lt_mono_pos_r w); [lia|]. clear -Hdm Hmod Hq Hk2 Hw. lia. }
  assert (i < 2 ^ 63).
  { assert (Z.pos pm * n <= 2 ^ 53 * 2 ^ 40) by (apply Z.mul_le_mono_nonneg; lia). clear -H0 Hup. lia. }
  rewrite (proj2 (Z.leb_le (- 2 ^ 63) i)), (proj2 (Z.ltb_lt i (2 ^ 63))) by lia. done.
Qed.

(** For a literal the roundings together shift the product by less than [1 / b], so
    no multiple of [1 / b] is crossed. *)
Lemma rank_literal p a b n :
  literal p a b -> 0 < n < 2 ^ 40 ->
  0 <= rank p n /\ b * rank p n <= a * n <= b * (rank p n + 1).
Proof.
  intros (m & -> & Hm & Hab & Ha & Hb) Hn.
  destruct (rank_bounds m n Hm Hn) as (H0 & Hu & Hl). set (i := rank _ n) in *.
  split; [done|].
  assert (Hr : Z.abs ((Z.pos m * b - a * 2 ^ 53) * n) <= b * n) by (rewrite Z.abs_mul; nia).
  assert (b * n <= 1000 * 2 ^ 40) by nia.
  split; nia.
Qed.

(** ** Quantiles *)

(** [d] is an [a / b]-quantile of the samples: at least that share of them is at
    most [d], and at most that share is smaller. *)
Definition quantile (a b : Z) (l : list Z) (d : Z) : Prop :=
  a * len l <= b * len (filter (fun x => x <= d) l) /\
  b * len (filter (fun x => x < d) l) <= a * len l.

#[export] Instance quantile_proper a b : Proper ((≡ₚ) ==> eq ==> iff) (quantile a b).
Proof.
  intros l k Hlk d d' <-. unfold quantile, len. by rewrite Hlk.
Qed.

Lemma filter_full (P : Z -> Prop) `{forall x, Decision (P x)} l : Forall P l -> filter P l = l.
Proof. induction 1 as [|x l Hx _ IH]; [done|]. by rewrite filter_cons_True, IH. Qed.

Lemma filter_none (P : Z -> Prop) `{forall x, Decision (P x)} l :
  Forall (fun x => ~ P x) l -> filter P l = [].
Proof. induction 1 as [|x l Hx _ IH]; [done|]. by rewrite filter_cons_False, IH. Qed.

(** In a sorted slice the element at [i] has [i + 1] elements up to it, and at
    most [i] below it. *)
Lemma sorted_ranks (l : list Z) (i : nat) (d : Z) :
  StronglySorted Z.le l -> l !! i = Some d ->
  (i + 1 <= length (filter (fun x => (x <= d)%Z) l))%nat /\
  (length (filter (fun x => (x < d)%Z) l) <= i)%nat.
Proof.
  intros Hs Hi. pose proof (lookup_lt_Some _ _ _ Hi) as Hlt.
  rewrite <- (take_drop_middle l i d Hi) in Hs |- *.
  apply StronglySorted_app in Hs as (Hx & _ & Hs). apply StronglySorted_inv in Hs as [_ Hd].
  assert (Ht : Forall (fun x => x <= d) (take i l)).
  { apply Forall_forall. intros x Hin. apply Hx; [done|left]. }
  rewrite !filter_app, !length_app, filter_cons_True, filter_cons_False by lia.
  rewrite (filter_full (fun x => x <= d) (take i l)) by done.
  rewrite (filter_none (fun x => x < d) (drop (S i) l))
    by (eapply Forall_impl; [exact Hd|]; cbn; lia).
  pose proof (length_filter (fun x => x < d) (take i l)). rewrite length_take in *. cbn. lia.
Qed.

(** [percentile] returns, and what it returns is a quantile of the literal. *)
Lemma percentile_quantile l p a b :
  literal p a b -> StronglySorted Z.le l -> 0 < len l < 2 ^ 40 ->
  exists i d, percentile l p = Ret d /\ l !! i = Some d /\ quantile a b l d /\
    Z.of_nat i = Z.min (rank p (len l)) (len l - 1).
Proof.
  intros Hp Hs Hn. destruct (rank_literal p a b (len l) Hp Hn) as (H0 & Hr).
  destruct Hp as (_ & _ & _ & _ & Hab & _).
  unfold percentile. fold (rank p (len l)).
  set (i := rank p (len l)) in *. set (j := if len l <=? i then len l - 1 else i).
  assert (Hj : j = Z.min i (len l - 1)) by (unfold j; destruct (_ <=? _) eqn:E; bool_prop; lia).
  rewrite (proj2 (Z.ltb_ge j 0)), (proj2 (Z.leb_gt (len l) j)) by lia.
  exists (Z.to_nat j), (nth (Z.to_nat j) l 0).
  assert (Hl : l !! Z.to_nat j = Some (nth (Z.to_nat j) l 0)).
  { destruct (lookup_lt_is_Some_2 l (Z.to_nat j)) as [d Hd]; [unfold len in *; lia|].
    by rewrite (nth_lookup_Some _ _ 0 _ Hd), Hd. }
  split_and!; [done|done| | lia].
  destruct (sorted_ranks l _ _ Hs Hl) as [Hle Hlt]. unfold quantile, len in *.
  destruct (decide (j = i)); split; nia.
Qed.

(** Two percentiles are in the order of their literals. *)
Lemma rank_mono p q a b c d n :
  literal p a b -> literal q c d -> a * d < c * b -> 0 < n < 2 ^ 40 -> rank p n <= rank q n.
Proof.
  intros Hp Hq Hlt Hn. destruct (rank_literal p a b n Hp Hn) as (Hi & Hpi & _).
  destruct (rank_literal q c d n Hq Hn) as (Hj & _ & Hqj).
  destruct Hp as (_ & _ & _ & _ & Ha & _), Hq as (_ & _ & _ & _ & Hc & _).
  apply Z.lt_succ_r. unfold Z.succ.
  assert (d * (b * rank p n) <= d * (a * n)) by nia.
  assert (b * (c * n) <= b * (d * (rank q n + 1))) by nia.
  assert (a * d * n < c * b * n) by nia.
  apply (Z.mul_lt_mono_pos_l (b * d)); [nia|]. lia.
Qed.

Lemma sorted_mono (l : list Z) i j x y :
  StronglySorted Z.le l -> l !! i = Some x -> l !! j = Some y -> (i <= j)%nat -> x <= y.
Proof.
  intros Hs Hi Hj Hij. destruct (decide (i = j)) as [->|]; [rewrite Hi in Hj; injection Hj as ->; lia|].
  rewrite <- (take_drop_middle l i x Hi) in Hs. apply StronglySorted_app in Hs as (_ & _ & Hs).
  apply StronglySorted_inv in Hs as [_ Hd]. rewrite Forall_forall in Hd. apply Hd.
  apply list_elem_of_lookup. exists (j - S i)%nat. rewrite lookup_drop. by replace (S i + _)%nat with j by lia.
Qed.

(** The percentiles of the report: each literal of the source and the share it
    stands for. *)
Lemma literals :
  literal p50 50 100 /\ literal p95 95 100 /\ literal p99 99 100 /\ literal p999 999 1000.
Proof. split_and!; (eexists; split; [vm_compute; reflexivity|lia]). Qed.

(** C39: the statistics of an operation with fewer than 2^40 samples exist, and its
    percentiles are exact: half of the samples are at most P50 and at most half are
    below it, and likewise for P95, P99 and P999, although the index is computed in
    floating point from literals that binary64 cannot represent.  They are in order
    between the least sample and the greatest. *)
Theorem stats_quantiles r op l :
  samples r op = Some l -> 0 < len l < 2 ^ 40 ->
  exists s, op_stats r op = Ret s /\ Count s = len l /\
    quantile 50 100 l (P50 s) /\ quantile 95 100 l (P95 s) /\
    quantile 99 100 l (P99 s) /\ quantile 999 1000 l (P999 s) /\
    Min s <= P50 s <= P95 s /\ P95 s <= P99 s <= P999 s /\ P999 s <= Max s /\
    Min s ∈ l /\ Max s ∈ l /\ Forall (fun d => Min s <= d <= Max s) l.
Proof.
  intros Hl Hn. unfold op_stats. rewrite Hl. cbn [default]. unfold id.
  pose proof (sort_durations_perm l) as Hp. pose proof (sort_durations_sorted l) as Hs.
  pose proof (Permutation_length Hp) as Hlen.
  assert (Hnk : len (sort_durations l) = len l) by (unfold len; by rewrite Hlen).
  destruct literals as (L50 & L95 & L99 & L999).
  set (k := sort_durations l) in *. rewrite <- Hnk in Hn.
  destruct (percentile_quantile k _ _ _ L50 Hs Hn) as (i1 & d1 & E1 & H1 & Q1 & I1).
  destruct (percentile_quantile k _ _ _ L95 Hs Hn) as (i2 & d2 & E2 & H2 & Q2 & I2).
  destruct (percentile_quantile k _ _ _ L99 Hs Hn) as (i3 & d3 & E3 & H3 & Q3 & I3).
  destruct (percentile_quantile k _ _ _ L999 Hs Hn) as (i4 & d4 & E4 & H4 & Q4 & I4).
  pose proof (rank_mono _ _ _ _ _ _ _ L50 L95 ltac:(lia) Hn).
  pose proof (rank_mono _ _ _ _ _ _ _ L95 L99 ltac:(lia) Hn).
  pose proof (rank_mono _ _ _ _ _ _ _ L99 L999 ltac:(lia) Hn).
  pose proof (sorted_mono k _ _ _ _ Hs H1 H2 ltac:(lia)).
  pose proof (sorted_mono k _ _ _ _ Hs H2 H3 ltac:(lia)).
  pose proof (sorted_mono k _ _ _ _ Hs H3 H4 ltac:(lia)).
  rewrite E1, E2, E3, E4. rewrite Hp in Q1, Q2, Q3, Q4.
  destruct k as [|x k']; [done|].
  eexists. split; [done|]. cbn [Count P50 P95 P99 P999 Min Max].
  assert (Hb : forall y, y ∈ x :: k' -> x <= y <= List.last (x :: k') 0) by (intros y; by apply sorted_first_last).
  pose proof (Hb d1 (list_elem_of_lookup_2 _ _ _ H1)). pose proof (Hb d4 (list_elem_of_lookup_2 _ _ _ H4)).
  do 5 (split; [assumption|]). do 3 (split; [lia|]). split_and!.
  - rewrite <- Hp. left.
  - rewrite <- Hp. apply last_elem.
  - apply Forall_forall. intros y Hy. rewrite <- Hp in Hy. by apply Hb.
Qed.

Lemma stats_quantiles_witness :
  let r := record OpGet 30 false (record OpGet 20 false
             (record OpGet 10 false (SetWarmedUp NewRecorder))) in
  exists s, op_stats r OpGet = Ret s /\ Count s = 3 /\
    quantile 50 100 [10; 20; 30] (P50 s) /\ quantile 95 100 [10; 20; 30] (P95 s) /\
    quantile 99 100 [10; 20; 30] (P99 s) /\ quantile 999 1000 [10; 20; 30] (P999 s) /\
    Min s <= P50 s <= P95 s /\ P95 s <= P99 s <= P999 s /\ P999 s <= Max s /\
    Min s ∈ [10; 20; 30] /\ Max s ∈ [10; 20; 30] /\ Forall (fun d => Min s <= d <= Max s) [10; 20; 30].
Proof. intros r. apply (stats_quantiles r OpGet [10; 20; 30] eq_refl). done. Defined.
