(* ===== verification/Flags.v ===== *)
(** * Command lines (the standard library's flag package, as the programs use it)

    [flag.FlagSet.Parse] over the flags a program declares, and the values a flag
    can have: strings, booleans, integers, durations.  All programs parse with
    [ExitOnError], so a bad command line ends the process with status 2 and a
    request for help with status 0. *)

From Stdlib Require Import ZArith Lia.
From Stdlib Require Import SpecFloat.
From S2P Require Import Prelude Wal Resp RespTheorems Benchmark.

(** ** Values *)

(** [strconv.ParseBool] *)
Definition ParseBool (s : bytes) : option bool :=
  if bool_decide (s ∈ [$"1"; $"t"; $"T"; $"TRUE"; $"true"; $"True"]) then Some true
  else if bool_decide (s ∈ [$"0"; $"f"; $"F"; $"FALSE"; $"false"; $"False"]) then Some false
  else None.

(** [strconv]'s [lower]: sets the bit that tells ASCII letters apart. *)
Definition lower (b : byte) : Z := Z.lor (byteZ b) 32.

(** The digit a character stands for; ten and above for letters. *)
Definition digit_value (b : byte) : option Z :=
  if is_digit b then Some (byteZ b - 48)
  else if (97 <=? lower b) && (lower b <=? 122) then Some (lower b - 97 + 10)
  else None.

(** The base and the digits of a number written with base 0. *)
Definition base_of (s : bytes) : Z * bytes :=
  match s with
  | x30 :: b :: d :: t =>
    if lower b =? 98 then (2, d :: t)
    else if lower b =? 111 then (8, d :: t)
    else if lower b =? 120 then (16, d :: t)
    else (8, b :: d :: t)
  | x30 :: t => (8, t)
  | _ => (10, s)
  end.

(** The digits' number, not bounded; underscores are skipped. *)
Fixpoint digits_value (base : Z) (s : bytes) (n : Z) : option Z :=
  match s with
  | [] => Some n
  | b :: s =>
    if byteZ b =? 95 then digits_value base s n else
    d ← digit_value b; if base <=? d then None else digits_value base s (n * base + d)
  end.

(** What [underscoreOK] saw last: the start, a digit, an underscore, or else. *)
Inductive saw := SawStart | SawDigit | SawUnderscore | SawOther.

Fixpoint underscores_ok (hex : bool) (s : bytes) (last : saw) : bool :=
  match s with
  | [] => match last with SawUnderscore => false | _ => true end
  | b :: s =>
    if is_digit b || (hex && (97 <=? lower b) && (lower b <=? 102))
    then underscores_ok hex s SawDigit
    else if byteZ b =? 95 then
      match last with SawDigit => underscores_ok hex s SawUnderscore | _ => false end
    else match last with SawUnderscore => false | _ => underscores_ok hex s SawOther end
  end.

(** The optional base prefix counts as a digit. *)
Definition underscoreOK (s : bytes) : bool :=
  match s with
  | x30 :: b :: t =>
    if (lower b =? 98) || (lower b =? 111) || (lower b =? 120)
    then underscores_ok (lower b =? 120) t SawDigit
    else underscores_ok false s SawStart
  | _ => underscores_ok false s SawStart
  end.

(** [strconv.ParseUint(s, 0, 64)] without its bound, which [ParseInt0] has. *)
Definition ParseUint0 (s : bytes) : option Z :=
  match s with
  | [] => None
  | _ =>
    let '(base, t) := base_of s in
    n ← digits_value base t 0;
    if bool_decide (x5f ∈ s) && negb (underscoreOK s) then None else Some n
  end.

(** [strconv.ParseInt(s, 0, 64)], the [Set] of int and int64 flags. *)
Definition ParseInt0 (s : bytes) : option Z :=
  n ← match s with
      | b :: t => if byteZ b =? 45 then Z.opp <$> ParseUint0 t
                  else if byteZ b =? 43 then ParseUint0 t else ParseUint0 s
      | [] => None
      end;
  if bool_decide (is_i64 n) then Some n else None.

(** *** Durations: [time.ParseDuration] *)

(** [leadingInt]: the leading digits' number and the rest; [None] is overflow. *)
Fixpoint leadingInt (x : Z) (s : bytes) : option (Z * bytes) :=
  match s with
  | b :: t =>
    if negb (is_digit b) then Some (x, s) else
    if 2 ^ 63 / 10 <? x then None else
    let x := x * 10 + (byteZ b - 48) in
    if 2 ^ 63 <? x then None else leadingInt x t
  | [] => Some (x, [])
  end.

(** [leadingFraction]: digits past 63 bits are dropped; the scale is 10 to the
    number of digits kept. *)
Fixpoint leadingFraction (x : Z) (scale : float64) (overflow : bool) (s : bytes)
    : Z * float64 * bytes :=
  match s with
  | b :: t =>
    if negb (is_digit b) then (x, scale, s) else
    if overflow then leadingFraction x scale true t else
    if (2 ^ 63 - 1) / 10 <? x then leadingFraction x scale true t else
    let y := x * 10 + (byteZ b - 48) in
    if 2 ^ 63 <? y then leadingFraction x scale true t
    else leadingFraction y (SFmul 53 1024 scale (float_of_int 10)) false t
  | [] => (x, scale, [])
  end.

(** The unit's name reaches up to the next digit or point. *)
Fixpoint unit_name (s : bytes) : bytes * bytes :=
  match s with
  | b :: t => if (byteZ b =? 46) || is_digit b then ([], s)
              else let '(u, rest) := unit_name t in (b :: u, rest)
  | [] => ([], [])
  end.

(** [unitMap]; the micro sign and the Greek letter mu both stand for micro. *)
Definition unit_value (u : bytes) : option Z :=
  if bool_decide (u = $"ns") then Some 1
  else if bool_decide (u ∈ [$"us"; [xc2; xb5; x73]; [xce; xbc; x73]]) then Some (10 ^ 3)
  else if bool_decide (u = $"ms") then Some (10 ^ 6)
  else if bool_decide (u = $"s") then Some (10 ^ 9)
  else if bool_decide (u = $"m") then Some (60 * 10 ^ 9)
  else if bool_decide (u = $"h") then Some (3600 * 10 ^ 9)
  else None.

(** The fraction's nanoseconds, by way of float64. *)
Definition fraction_of (f unit : Z) (scale : float64) : Z :=
  int_of_float (SFmul 53 1024 (float_of_int f) (SFdiv 53 1024 (float_of_int unit) scale)).

(** One number with its unit: its nanoseconds and the rest. *)
Definition duration_part (s : bytes) : option (Z * bytes) :=
  match s with
  | [] => None
  | b :: _ =>
    if negb ((byteZ b =? 46) || is_digit b) then None else
    '(v, s1) ← leadingInt 0 s;
    let pre := bool_decide (length s <> length s1) in
    let '(f, scale, s2, post) :=
      match s1 with
      | x2e :: t => let '(f, scale, t2) := leadingFraction 0 (float_of_int 1) false t in
                    (f, scale, t2, bool_decide (length t <> length t2))
      | _ => (0, float_of_int 1, s1, false)
      end in
    if negb pre && negb post then None else
    let '(u, rest) := unit_name s2 in
    if bool_decide (u = []) then None else
    unit ← unit_value u;
    if 2 ^ 63 / unit <? v then None else
    let v := v * unit in
    let v := if 0 <? f then v + fraction_of f unit scale else v in
    if 2 ^ 63 <? v then None else Some (v, rest)
  end.

(** The loop over the parts; each consumes a byte of [s]. *)
Fixpoint duration_loop (fuel : nat) (s : bytes) (d : Z) : option Z :=
  match s with
  | [] => Some d
  | _ =>
    match fuel with
    | O => None
    | S fuel =>
      '(v, rest) ← duration_part s;
      let d := d + v in
      if 2 ^ 63 <? d then None else duration_loop fuel rest d
    end
  end.

Definition ParseDuration (s : bytes) : option Z :=
  let '(neg, s) := match s with
                   | b :: t => if byteZ b =? 45 then (true, t)
                               else if byteZ b =? 43 then (false, t) else (false, s)
                   | [] => (false, [])
                   end in
  if bool_decide (s = $"0") then Some 0 else
  match s with
  | [] => None
  | _ =>
    d ← duration_loop (length s) s 0;
    if neg then Some (- d) else if 2 ^ 63 - 1 <? d then None else Some d
  end.

(** ** Parsing *)

(** A declared flag of a program with configuration [C]: its name, whether it is
    a boolean flag, and its [Set]; [None] is an error. *)
Record flag (C : Type) := mkFlag { fl_name : bytes; fl_bool : bool; fl_set : bytes -> C -> option C }.
Arguments mkFlag {C}.
Arguments fl_name {C}.
Arguments fl_bool {C}.
Arguments fl_set {C}.

Definition string_flag {C} (name : bytes) (upd : bytes -> C -> C) : flag C :=
  mkFlag name false (fun v c => Some (upd v c)).
Definition value_flag {C A} (parse : bytes -> option A) (name : bytes) (upd : A -> C -> C) : flag C :=
  mkFlag name false (fun v c => x ← parse v; Some (upd x c)).
Definition bool_flag {C} (name : bytes) (upd : bool -> C -> C) : flag C :=
  mkFlag name true (fun v c => x ← ParseBool v; Some (upd x c)).

Inductive flag_error :=
| BadSyntax (arg : bytes)
| NotDefined (name : bytes)
| NeedsArgument (name : bytes)
| InvalidValue (value name : bytes).

(** The name of a flag argument, and the value behind an equals sign that is not
    its first character. *)
Fixpoint split_value (s : bytes) : bytes * option bytes :=
  match s with
  | [] => ([], None)
  | b :: t => if byteZ b =? 61 then ([], Some t)
              else let '(n, v) := split_value t in (b :: n, v)
  end.

Inductive arg := Positional | Terminator | Malformed | Named (name : bytes) (value : option bytes).

Definition classify (s : bytes) : arg :=
  match s with
  | x2d :: b :: t =>
    let name := if byteZ b =? 45 then t else b :: t in
    if bool_decide (s = $"--") then Terminator else
    match name with
    | [] => Malformed
    | c :: n => if (byteZ c =? 45) || (byteZ c =? 61) then Malformed
                else let '(n, v) := split_value n in Named (c :: n) v
    end
  | _ => Positional
  end.

Inductive parsed (C : Type) :=
| Parsed (c : C) (rest : list bytes)
| Help
| Failed (e : flag_error).
Arguments Parsed {C}.
Arguments Help {C}.
Arguments Failed {C}.

Section Parse.
Context {C : Type} (formal : list (flag C)).

Definition lookup_flag (name : bytes) : option (flag C) :=
  list_find (fun f => fl_name f = name) formal ≫= fun x => Some x.2.

(** [Parse]: the flags up to the first argument that is none. *)
Fixpoint Parse (args : list bytes) (c : C) : parsed C :=
  match args with
  | [] => Parsed c []
  | s :: args =>
    match classify s with
    | Positional => Parsed c (s :: args)
    | Terminator => Parsed c args
    | Malformed => Failed (BadSyntax s)
    | Named name value =>
      match lookup_flag name with
      | None => if bool_decide (name ∈ [$"help"; $"h"]) then Help else Failed (NotDefined name)
      | Some f =>
        if fl_bool f then
          let v := default ($"true") value in
          match fl_set f v c with Some c => Parse args c | None => Failed (InvalidValue v name) end
        else
          match value, args with
          | Some v, _ =>
            match fl_set f v c with Some c => Parse args c | None => Failed (InvalidValue v name) end
          | None, v :: args =>
            match fl_set f v c with Some c => Parse args c | None => Failed (InvalidValue v name) end
          | None, [] => Failed (NeedsArgument name)
          end
      end
    end
  end.

(** The argument that sets a flag. *)
Definition print_flag (x : bytes * bytes) : bytes := $"--" ++ x.1 ++ $"=" ++ x.2.

(** A name that can be written on a command line. *)
Definition plain_name (n : bytes) : Prop :=
  match n with [] => False | b :: _ => byteZ b <> 45 end /\ Forall (fun b => byteZ b <> 61) n.

#[export] Instance plain_name_dec n : Decision (plain_name n).
Proof. unfold plain_name. destruct n; apply _. Defined.

Lemma split_value_name n v :
  Forall (fun b => byteZ b <> 61) n -> split_value (n ++ x3d :: v) = (n, Some v).
Proof.
  induction 1 as [|b n Hb Hn IH]; [done|]. cbn [app split_value].
  by rewrite (proj2 (Z.eqb_neq _ _) Hb), IH.
Qed.

Lemma classify_print n v : plain_name n -> classify (print_flag (n, v)) = Named n (Some v).
Proof.
  intros [Hn He]. destruct n as [|b n]; [done|]. apply Forall_cons in He as [Hb He].
  change (print_flag (b :: n, v)) with (x2d :: x2d :: b :: n ++ x3d :: v).
  unfold classify. rewrite bool_decide_false by done. change (byteZ x2d =? 45) with true. cbv iota.
  rewrite (proj2 (Z.eqb_neq _ _) Hn), (proj2 (Z.eqb_neq _ _) Hb). cbn [orb].
  by rewrite split_value_name.
Qed.

(** Setting the flags one after another; the last one of a name decides. *)
Fixpoint assign (l : list (bytes * bytes)) (c : C) : option C :=
  match l with
  | [] => Some c
  | (n, v) :: l => f ← lookup_flag n; c ← fl_set f v c; assign l c
  end.

(** Flags written as [--name=value], in front of arguments that are no flags,
    parse to the configuration they assign. *)
Lemma Parse_print l rest c c' :
  Forall (fun x => plain_name x.1) l -> assign l c = Some c' ->
  Parse ((print_flag <$> l) ++ rest) c = Parse rest c'.
Proof.
  intros Hl. revert c. induction Hl as [|[n v] l Hn Hl IH]; intros c; cbn [assign].
  - by intros [= ->].
  - intros Ha. rewrite fmap_cons. cbn [app Parse]. rewrite classify_print by exact Hn.
    destruct (lookup_flag n) as [f|]; [|done]. cbn in Ha.
    destruct (fl_set f v c) as [c1|] eqn:E; [|done]. cbn in Ha.
    destruct (fl_bool f); cbn -[Parse]; rewrite ?E; by apply IH.
Qed.

Lemma Parse_rest rest c :
  match rest with [] => True | s :: _ => classify s = Positional end -> Parse rest c = Parsed c rest.
Proof. destruct rest as [|s rest]; [done|]. cbn. by intros ->. Qed.

(** Every argument behind the first that is no flag is left alone. *)
Lemma Parse_stops l s rest c c' :
  Forall (fun x => plain_name x.1) l -> assign l c = Some c' -> classify s = Positional ->
  Parse ((print_flag <$> l) ++ s :: rest) c = Parsed c' (s :: rest).
Proof. intros Hl Ha Hs. rewrite (Parse_print l _ c c' Hl Ha). by apply Parse_rest. Qed.

End Parse.

(** ** Numbers *)

Definition print_bool (b : bool) : bytes := if b then $"true" else $"false".

Lemma ParseBool_print b : ParseBool (print_bool b) = Some b.
Proof. by destruct b. Qed.

Lemma is_digit_range b : is_digit b = true <-> 48 <= byteZ b <= 57.
Proof. unfold is_digit. rewrite andb_true_iff, !Z.leb_le. lia. Qed.

Lemma itoa_nat_digits fuel n : 0 <= n -> Forall (fun b => is_digit b = true) (itoa_nat fuel n).
Proof.
  intros Hn. apply Forall_forall. intros b Hb. apply is_digit_range.
  by eapply (itoa_nat_bytes fuel n).
Qed.

(** On decimal digits the parsers agree with [Atoi]'s. *)
Lemma digits_value_fold s n :
  Forall (fun b => is_digit b = true) s ->
  Some (default 0 (digits_value 10 s n)) = fold_left parse_step s (Some n) /\
  is_Some (digits_value 10 s n).
Proof.
  intros Hs. revert n. induction Hs as [|b s Hb Hs IH]; intros n; cbn [digits_value fold_left]; [by eauto|].
  pose proof (proj1 (is_digit_range b) Hb). rewrite (proj2 (Z.eqb_neq (byteZ b) 95)) by lia.
  unfold digit_value, parse_step at 2. rewrite Hb. cbn [mbind option_bind].
  rewrite (proj2 (Z.leb_gt _ _)) by lia.
  replace (n * 10 + (byteZ b - 48)) with (10 * n + (byteZ b - 48)) by lia. apply IH.
Qed.

Lemma itoa_nat_head fuel n :
  0 < n < 10 ^ Z.of_nat fuel -> exists b t, itoa_nat fuel n = b :: t /\ byteZ b <> 48.
Proof.
  revert n. induction fuel as [|fuel IH]; intros n Hn; [cbn in Hn; lia|].
  cbn [itoa_nat]. destruct (n <? 10) eqn:E; bool_prop.
  - exists (digit n), []. split; [done|]. unfold digit.
    rewrite byteZ_Zbyte, Z.mod_small by lia. lia.
  - rewrite Nat2Z.inj_succ, Z.pow_succ_r in Hn by lia.
    destruct (IH (n / 10)) as (b & t & -> & Hb).
    { split; [apply Z.div_str_pos; lia|apply Z.div_lt_upper_bound; lia]. }
    by exists b, (t ++ [digit (n mod 10)]).
Qed.

Lemma base_of_decimal b t : byteZ b <> 48 -> base_of (b :: t) = (10, b :: t).
Proof. intros Hb. by destruct b. Qed.

Lemma ParseUint0_itoa n : 0 <= n < 10 ^ 20 -> ParseUint0 (itoa_nat 20 n) = Some n.
Proof.
  intros Hn. destruct (Z.eq_dec n 0) as [->|Hnz]; [done|].
  pose proof (itoa_nat_digits 20 n ltac:(lia)) as Hd. pose proof (fold_itoa 20 n Hn) as Hf.
  destruct (itoa_nat_head 20 n ltac:(lia)) as (b & t & E & Hb). rewrite E in *.
  unfold ParseUint0. rewrite base_of_decimal by done.
  destruct (digits_value_fold _ 0 Hd) as [Hv [v Hs]]. rewrite Hs in *. cbn [mbind option_bind].
  rewrite (bool_decide_false (x5f ∈ _)).
  2: { rewrite Forall_forall in Hd. by intros H%Hd. }
  cbn [andb]. rewrite <- Hf, <- Hv. done.
Qed.

Lemma ParseInt0_itoa z : is_i64 z -> ParseInt0 (itoa z) = Some z.
Proof.
  intros Hz. pose proof Hz as Hz'. unfold is_i64 in Hz'. unfold itoa.
  assert (Hfin : (if bool_decide (is_i64 z) then Some z else None) = Some z) by by rewrite bool_decide_true.
  destruct (z <? 0) eqn:E; bool_prop; unfold ParseInt0.
  - change ($"-" ++ itoa_nat 20 (- z)) with (x2d :: itoa_nat 20 (- z)).
    change (byteZ x2d =? 45) with true. cbv iota. rewrite ParseUint0_itoa by lia.
    cbn. by rewrite Z.opp_involutive.
  - pose proof (itoa_nat_digits 20 z ltac:(lia)) as Hd.
    pose proof (itoa_nat_nonempty 20 z ltac:(lia)) as Hne. pose proof (ParseUint0_itoa z ltac:(lia)) as Hp.
    destruct (itoa_nat 20 z) as [|b s]; [done|].
    apply Forall_cons in Hd as [Hb%is_digit_range _]. by rewrite !(proj2 (Z.eqb_neq _ _)), Hp by lia.
Qed.

Lemma parse_step_grows s x v :
  0 <= x -> fold_left parse_step s (Some x) = Some v -> x <= v.
Proof.
  revert x. induction s as [|b s IH]; intros x Hx; cbn [fold_left]; [intros [= ->]; lia|].
  unfold parse_step at 2. cbn [mbind option_bind]. destruct (is_digit b) eqn:Hb.
  - apply is_digit_range in Hb. intros H%IH; lia.
  - assert (Hnone : fold_left parse_step s None = None) by (clear; induction s; done).
    by rewrite Hnone.
Qed.

Lemma leadingInt_digits s x v rest :
  Forall (fun b => is_digit b = true) s -> 0 <= x -> fold_left parse_step s (Some x) = Some v ->
  v <= 2 ^ 63 -> match rest with [] => True | b :: _ => is_digit b = false end ->
  leadingInt x (s ++ rest) = Some (v, rest).
Proof.
  intros Hs. revert x. induction Hs as [|b s Hb Hs IH]; intros x Hx Hf Hv Hr.
  - injection Hf as ->. destruct rest as [|b rest]; [done|]. cbn. by rewrite Hr.
  - cbn [fold_left] in Hf. unfold parse_step at 2 in Hf. cbn [mbind option_bind] in Hf. rewrite Hb in Hf.
    pose proof (proj1 (is_digit_range b) Hb). pose proof (parse_step_grows s (10 * x + (byteZ b - 48)) v ltac:(lia) Hf).
    cbn [app leadingInt]. rewrite Hb. cbn [negb].
    rewrite (proj2 (Z.ltb_ge _ _)) by (apply Z.div_le_lower_bound; lia).
    replace (x * 10 + (byteZ b - 48)) with (10 * x + (byteZ b - 48)) by lia.
    rewrite (proj2 (Z.ltb_ge _ _)) by lia. apply IH; done || lia.
Qed.

(** The loop over a duration's parts never runs out of fuel: each part takes a
    byte at least. *)
Lemma leadingInt_shorter x s n rest :
  leadingInt x s = Some (n, rest) -> (length rest <= length s)%nat.
Proof.
  revert x. induction s as [|b s IH]; intros x; cbn [leadingInt]; [by intros [= _ <-]|].
  destruct (negb _); [by intros [= _ <-]|]. destruct (_ <? x); [done|]. destruct (_ <? _); [done|].
  intros H%IH. cbn. lia.
Qed.

Lemma leadingFraction_shorter x sc o s :
  (length (leadingFraction x sc o s).2 <= length s)%nat.
Proof.
  revert x sc o. induction s as [|b s IH]; intros x sc o; cbn [leadingFraction]; [done|].
  destruct (negb _); [done|].
  assert (H : forall x sc o, (length (leadingFraction x sc o s).2 <= S (length s))%nat)
    by (intros; etrans; [apply IH|lia]).
  by repeat case_match.
Qed.

Lemma unit_name_app s : (unit_name s).1 ++ (unit_name s).2 = s.
Proof.
  induction s as [|b s IH]; [done|]. cbn. destruct (_ || _); [done|].
  destruct (unit_name s) as [u rest]. cbn in *. by rewrite IH.
Qed.

Lemma duration_part_shorter s v rest :
  duration_part s = Some (v, rest) -> (length rest < length s)%nat.
Proof.
  unfold duration_part. destruct s as [|b s]; [done|]. destruct (negb _); [done|].
  destruct (leadingInt 0 (b :: s)) as [[n s1]|] eqn:El; [|done]. apply leadingInt_shorter in El.
  cbn [mbind option_bind].
  assert (Hs2 : exists f sc s2 post, match s1 with
      | x2e :: t => let '(f, scale, t2) := leadingFraction 0 (float_of_int 1) false t in
                    (f, scale, t2, bool_decide (length t <> length t2))
      | _ => (0, float_of_int 1, s1, false)
      end = (f, sc, s2, post) /\ (length s2 <= length s1)%nat).
  { destruct s1 as [|c t]; [by do 4 eexists|]. destruct c; try by do 4 eexists.
    pose proof (leadingFraction_shorter 0 (float_of_int 1) false t) as Hf.
    destruct (leadingFraction _ _ _ _) as [[f sc] t2]. do 4 eexists. split; [done|]. cbn in *. lia. }
  destruct Hs2 as (f & sc & s2 & post & -> & Hl). destruct (_ && _); [done|].
  pose proof (unit_name_app s2) as Hu. destruct (unit_name s2) as [u r]. cbn in Hu.
  case_bool_decide; [done|]. destruct (unit_value u) as [un|]; [|done]. cbn [mbind option_bind].
  destruct (_ <? n); [done|]. destruct (2 ^ 63 <? _); [done|]. intros [= _ <-].
  subst s2. rewrite length_app in Hl. destruct u; [done|]. cbn in *. lia.
Qed.

Lemma duration_loop_fuel fuel s d :
  (length s <= fuel)%nat -> duration_loop fuel s d = duration_loop (S fuel) s d.
Proof.
  revert s d. induction fuel as [|fuel IH]; intros s d Hs;
    (destruct s as [|b s]; [done|]); [cbn in Hs; lia|].
  change (duration_loop (S (S fuel)) (b :: s) d) with
    ('(v, rest) ← duration_part (b :: s);
     let d := d + v in if 2 ^ 63 <? d then None else duration_loop (S fuel) rest d).
  cbn [duration_loop]. destruct (duration_part (b :: s)) as [[v rest]|] eqn:E; [|done].
  apply duration_part_shorter in E. cbn [mbind option_bind]. cbn in E, Hs.
  destruct (_ <? _); [done|]. apply IH. lia.
Qed.

(** ** Declared flags *)

Create HintDb flags.

(** A flag's value; a float64 flag is read by [strconv.ParseFloat]. *)
Inductive value := VString (s : bytes) | VBool (b : bool) | VInt (n : Z) | VDuration (d : Z) | VFloat (f : float64).

Class FloatSyntax := ParseFloat : bytes -> option float64.

Section Declared.
Context `{FloatSyntax}.

(** The [Set] of a flag with this default. *)
Definition parse_value (d : value) (s : bytes) : option value :=
  match d with
  | VString _ => Some (VString s)
  | VBool _ => VBool <$> ParseBool s
  | VInt _ => VInt <$> ParseInt0 s
  | VDuration _ => VDuration <$> ParseDuration s
  | VFloat _ => VFloat <$> ParseFloat s
  end.

Definition is_bool (d : value) : bool := match d with VBool _ => true | _ => false end.

(** The variables of a program's flags, by the flags' names. *)
Abbreviation variables := (gmap bytes value).

Definition formal_of (decls : list (bytes * value)) : list (flag variables) :=
  (fun '(n, d) => mkFlag n (is_bool d) (fun s m => v ← parse_value d s; Some (<[n := v]> m))) <$> decls.

Definition parse_flags (decls : list (bytes * value)) (args : list bytes) : parsed variables :=
  Parse (formal_of decls) args (list_to_map decls).

Definition str_at (m : variables) (n : bytes) : bytes :=
  match m !! n with Some (VString s) => s | _ => [] end.
Definition bool_at (m : variables) (n : bytes) : bool :=
  match m !! n with Some (VBool b) => b | _ => false end.
Definition int_at (m : variables) (n : bytes) : Z :=
  match m !! n with Some (VInt z) => z | Some (VDuration z) => z | _ => 0 end.
Definition float_at (m : variables) (n : bytes) : float64 :=
  match m !! n with Some (VFloat f) => f | _ => S754_zero false end.

(** The text of a value on a command line. *)
Definition denotes (s : bytes) (v : value) : Prop := parse_value v s = Some v.

Lemma denotes_string s : denotes s (VString s).
Proof. done. Qed.
Lemma denotes_bool b : denotes (print_bool b) (VBool b).
Proof. unfold denotes. cbn. by rewrite ParseBool_print. Qed.
Lemma denotes_int z : is_i64 z -> denotes (itoa z) (VInt z).
Proof. intros Hz. unfold denotes. cbn. by rewrite ParseInt0_itoa. Qed.
(** Two values of the same type. *)
Definition same_type (v w : value) : bool :=
  match v, w with
  | VString _, VString _ | VBool _, VBool _ | VInt _, VInt _ | VDuration _, VDuration _
  | VFloat _, VFloat _ => true
  | _, _ => false
  end.

Lemma denotes_default d v s : same_type d v = true -> denotes s v -> parse_value d s = Some v.
Proof. by destruct d, v. Qed.

(** An assignment on the command line: a flag's name, a text, its value. *)
Record setting := mkSetting { st_name : bytes; st_text : bytes; st_value : value }.

(** A flag of the name is declared, with the value's type. *)
Definition declared (decls : list (bytes * value)) (n : bytes) (v : value) : bool :=
  existsb (fun '(n', d) => bool_decide (n' = n) && same_type d v) decls.

Lemma declared_in decls n v :
  declared decls n v = true -> exists d, (n, d) ∈ decls /\ same_type d v = true.
Proof.
  unfold declared. intros ([n' d] & Hin & Hd)%existsb_exists. apply andb_prop in Hd as [Hn Hd].
  apply bool_decide_eq_true in Hn as ->. exists d. split; [by apply list_elem_of_In|done].
Qed.

Definition setting_ok (decls : list (bytes * value)) (x : setting) : Prop :=
  plain_name (st_name x) /\ declared decls (st_name x) (st_value x) = true /\
  denotes (st_text x) (st_value x).

Definition settings_ok (decls : list (bytes * value)) (l : list setting) : Prop :=
  Forall (setting_ok decls) l.

Definition command_line (l : list setting) : list bytes :=
  (fun x => print_flag (st_name x, st_text x)) <$> l.

Definition assigned (decls : list (bytes * value)) (l : list setting) : variables :=
  fold_left (fun m x => <[st_name x := st_value x]> m) l (list_to_map decls).

Lemma lookup_formal decls n d :
  NoDup decls.*1 -> (n, d) ∈ decls ->
  exists f, lookup_flag (formal_of decls) n = Some f /\
    forall s m, fl_set f s m = (v ← parse_value d s; Some (<[n := v]> m)).
Proof.
  unfold lookup_flag. induction decls as [|[n' d'] decls IH]; intros Hnd Hin; [by apply not_elem_of_nil in Hin|].
  cbn in Hnd. apply NoDup_cons in Hnd as [Hn Hnd]. cbn. destruct (decide (n' = n)) as [->|Hne].
  - apply elem_of_cons in Hin as [[= ->]|Hin]; [by eexists|].
    destruct Hn. apply list_elem_of_fmap. by exists (n, d).
  - apply elem_of_cons in Hin as [[= -> ->]|Hin]; [done|].
    destruct (IH Hnd Hin) as (f & Hf & Hs). exists f. split; [|done].
    unfold formal_of in *. cbn in *. by destruct (list_find _ _) as [[]|].
Qed.

(** A command line of settings, and arguments behind it that are no flags, parse
    to the declared variables with the settings assigned in order. *)
Lemma parse_settings decls l rest :
  NoDup decls.*1 -> settings_ok decls l ->
  match rest with [] => True | s :: _ => classify s = Positional end ->
  parse_flags decls (command_line l ++ rest) = Parsed (assigned decls l) rest.
Proof.
  intros Hnd Hok Hrest. unfold parse_flags, assigned, command_line. generalize (list_to_map (M:=gmap bytes value) decls).
  intros m. rewrite <- (Parse_rest (formal_of decls) rest _ Hrest).
  change (fun x => print_flag (st_name x, st_text x))
    with (print_flag ∘ (fun x => (st_name x, st_text x))). rewrite list_fmap_compose.
  apply Parse_print.
  - apply Forall_fmap. eapply Forall_impl; [exact Hok|]. by intros x [Hn _].
  - revert m. induction Hok as [|x l (Hn & (d & Hd & Hty)%declared_in & Ht) Hl IH]; intros m; [done|].
    cbn [fmap list_fmap assign fold_left].
    destruct (lookup_formal decls _ d Hnd Hd) as (f & -> & Hs). cbn [mbind option_bind]. rewrite Hs.
    rewrite (denotes_default _ _ _ Hty Ht). cbn [mbind option_bind]. apply IH.
Qed.

End Declared.
#[export] Hint Resolve denotes_string denotes_bool denotes_int : flags.
