(* ===== verification/ReportText.v ===== *)
(** * The text report of a benchmark (internal/benchmark, report.go)

    [WriteText] with what it uses of fmt and time: padded columns, decimal
    integers, fixed-precision float64 and [Duration.String].  The durations and
    the counts of a report can be read back exactly. *)

From Stdlib Require Import ZArith Lia.
From Stdlib Require Import SpecFloat.
From S2P Require Import Prelude Wal Resp RespTheorems Benchmark Percentile Flags.

(** ** [Duration.String] *)

(** [fmtFrac]: the last [prec] digits of [v] in front of [buf], without trailing
    zeros, and the point if any digit is printed; the buffer is filled from its
    end. *)
Fixpoint fmtFrac (prec : nat) (v : Z) (print : bool) (buf : bytes) : bytes * Z :=
  match prec with
  | O => (if print then x2e :: buf else buf, v)
  | S prec =>
      let d := v mod 10 in
      let print := print || negb (d =? 0) in
      fmtFrac prec (v / 10) print (if print then digit d :: buf else buf)
  end.

Definition fmtInt (v : Z) (buf : bytes) : bytes := itoa_nat 20 v ++ buf.

(** Below a second the unit is the largest that leaves a whole part. *)
Definition small_String (u : Z) : bytes :=
  if u =? 0 then $"0s" else
  let '(prec, unit) := if u <? 10 ^ 3 then (0%nat, $"ns")
                       else if u <? 10 ^ 6 then (3%nat, [xc2; xb5; x73])
                       else (6%nat, $"ms") in
  let '(buf, u) := fmtFrac prec u false unit in fmtInt u buf.

Definition large_String (u : Z) : bytes :=
  let '(buf, u) := fmtFrac 9 u false ($"s") in
  let buf := fmtInt (u mod 60) buf in
  let u := u / 60 in
  if u =? 0 then buf else
  let buf := fmtInt (u mod 60) (x6d :: buf) in
  let u := u / 60 in
  if u =? 0 then buf else fmtInt u (x68 :: buf).

Definition Duration_String (d : Z) : bytes :=
  let u := Z.abs d in
  let buf := if u <? 10 ^ 9 then small_String u else large_String u in
  if d <? 0 then x2d :: buf else buf.

Example Duration_String_examples :
  (Duration_String <$> [0; 7; 1500; -2000000; 1500000000; 60 * 10 ^ 9; 90061 * 10 ^ 9 + 1; - 2 ^ 63])
  = [$"0s"; $"7ns"; [x31; x2e; x35; xc2; xb5; x73]; $"-2ms"; $"1.5s"; $"1m0s"; $"25h1m1.000000001s";
     $"-2562047h47m16.854775808s"].
Proof. reflexivity. Qed.

(** ** Formats of fmt *)

(** The width of a string is its number of characters: the bytes that do not
    continue one. *)
Definition runes (s : bytes) : Z :=
  len (filter (fun b => ~ 128 <= byteZ b < 192) s).

(** [%10s] and [%-6s] *)
Definition pad_left (w : Z) (s : bytes) : bytes := replicate (Z.to_nat (w - runes s)) x20 ++ s.
Definition pad_right (w : Z) (s : bytes) : bytes := s ++ replicate (Z.to_nat (w - runes s)) x20.

(** [m * 2^e * 10^prec] to the nearest integer, a tie to the even one. *)
Definition scaled (m e prec : Z) : Z :=
  if 0 <=? e then m * 2 ^ e * 10 ^ prec else
  let n := m * 10 ^ prec in
  let q := n / 2 ^ (- e) in
  match Z.compare (2 * (n mod 2 ^ (- e))) (2 ^ (- e)) with
  | Lt => q
  | Eq => if Z.even q then q else q + 1
  | Gt => q + 1
  end.

(** The digits of a fraction, [prec] of them. *)
Fixpoint last_digits (prec : nat) (n : Z) : bytes :=
  match prec with
  | O => []
  | S prec => last_digits prec (n / 10) ++ [digit (n mod 10)]
  end.

(** [%.<prec>f]; a float64 has at most 309 digits before the point. *)
Definition fmt_f (prec : nat) (f : float64) : bytes :=
  let fixed n := itoa_nat 310 (n / 10 ^ Z.of_nat prec) ++ x2e :: last_digits prec n in
  match f with
  | S754_zero s => (if s then $"-" else []) ++ fixed 0
  | S754_finite s m e => (if s then $"-" else []) ++ fixed (scaled (Z.pos m) e (Z.of_nat prec))
  | S754_infinity s => if s then $"-Inf" else $"+Inf"
  | S754_nan => $"NaN"
  end.

Example fmt_f_examples :
  (fmt_f 2 <$> [float_lit 5 10; float_lit 1 8; float_lit 3 8; float_of_int 12345; S754_zero true])
  = [$"0.50"; $"0.12"; $"0.38"; $"12345.00"; $"-0.00"].
Proof. reflexivity. Qed.

(** ** [WriteText] *)

Definition newline : bytes := [x0a].

Definition text_target (r : Report) : bytes :=
  $"target=" ++ Target (rp_Environment r) ++ $" (" ++ TargetNote (rp_Environment r) ++ $")" ++ newline.

Definition text_workload (r : Report) : bytes :=
  let w := rp_Workload r in
  $"workload: read_ratio=" ++ fmt_f 2 (ReadRatio w) ++ $" key_cardinality=" ++ itoa (KeyCardinality w) ++
  $" hot_key_count=" ++ itoa (HotKeyCount w) ++ $" value_size=" ++ itoa (ValueSize w) ++
  $" ttl_seconds=" ++ itoa (TTLSeconds w) ++ newline.

Definition text_run (r : Report) : bytes :=
  $"concurrency=" ++ itoa (rp_Concurrency r) ++ $" warmup=" ++ Duration_String (rp_Warmup r) ++
  $" measured=" ++ Duration_String (rp_Measured r) ++ newline ++ newline.

(** Columns with one space between them. *)
Fixpoint columns (l : list bytes) : bytes :=
  match l with
  | [] => []
  | [s] => s
  | s :: l => s ++ x20 :: columns l
  end.

Definition text_header : bytes :=
  columns ([pad_right 6 ($"op"); pad_left 10 ($"count"); pad_left 8 ($"errors"); pad_left 12 ($"throughput")]
           ++ (pad_left 10 <$> [$"p50"; $"p95"; $"p99"; $"p99.9"])) ++ newline.

Definition text_row (x : bytes * OpReport) : bytes :=
  let '(name, op) := x in
  columns ([pad_right 6 name; pad_left 10 (itoa (or_Count op)); pad_left 8 (itoa (or_Errors op));
            pad_left 9 (fmt_f 1 (or_Throughput op)) ++ $"/s"]
           ++ (pad_left 10 <$> (Duration_String <$> [P50Ns op; P95Ns op; P99Ns op; P999Ns op]))) ++ newline.

(** [fmt.Fprintf] makes one write; its error is dropped. *)
Definition Fprintf (s : bytes) : GoM Out unit := _ ← write s; mret tt.

Fixpoint Fprintf_all (l : list bytes) : GoM Out unit :=
  match l with
  | [] => mret tt
  | s :: l => _ ← Fprintf s; Fprintf_all l
  end.

(** [WriteText]; [order] is the order in which the range over the map visits the
    operations. *)
Definition WriteText (order : list (bytes * OpReport)) (r : Report) : GoM Out (option oserr) :=
  _ ← Fprintf (text_target r);
  _ ← Fprintf (text_workload r);
  _ ← Fprintf (text_run r);
  _ ← Fprintf text_header;
  _ ← Fprintf_all (text_row <$> order);
  mret None.

Example text_row_example :
  text_row (opName OpGet, mkOpReport 1200 3 (float_lit 2005 10) 1500 2000000 60000000000 60500000000 0 0 0)
  = $"get          1200        3     200.5/s " ++ replicate 5 x20 ++ [x31; x2e; x35; xc2; xb5; x73]
    ++ $"        2ms       1m0s     1m0.5s" ++ newline.
Proof. reflexivity. Qed.

(** ** Reading durations back *)

Definition digits (s : bytes) : Prop := Forall (fun b => is_digit b = true) s.

Lemma digit_is_digit d : 0 <= d < 10 -> is_digit (digit d) = true.
Proof. intros Hd. apply is_digit_range. rewrite byteZ_digit; lia. Qed.

Lemma last_digits_spec n v x :
  digits (last_digits n v) /\ length (last_digits n v) = n /\
  fold_left parse_step (last_digits n v) (Some x) = Some (x * 10 ^ Z.of_nat n + v mod 10 ^ Z.of_nat n).
Proof.
  revert v. induction n as [|n IH]; intros v; cbn [last_digits].
  - rewrite Z.mod_1_r. split_and!; [constructor|done|cbn; f_equal; lia].
  - destruct (IH (v / 10)) as (Hd & Hl & Hf). pose proof (Z.mod_pos_bound v 10 ltac:(lia)).
    rewrite length_app, fold_left_app, Hf, Hl. cbn [fold_left]. rewrite parse_step_digit by lia.
    split_and!; [apply Forall_app; split; [done|repeat constructor; by apply digit_is_digit]|cbn; lia|].
    f_equal. rewrite Nat2Z.inj_succ, Z.pow_succ_r by lia.
    rewrite (Z.rem_mul_r v 10) by (try apply Z.pow_pos_nonneg; lia). lia.
Qed.

(** What [fmtFrac] puts in front of the unit. *)
Definition point (ds : bytes) : bytes := match ds with [] => [] | _ => x2e :: ds end.

Lemma fmtFrac_printing prec v buf :
  fmtFrac prec v true buf = (x2e :: last_digits prec v ++ buf, v / 10 ^ Z.of_nat prec).
Proof.
  revert v buf. induction prec as [|prec IH]; intros v buf; cbn [fmtFrac last_digits].
  - by rewrite Z.div_1_r.
  - rewrite orb_true_l, IH, <- app_assoc. cbn [app]. f_equal.
    rewrite Z.div_div, <- Z.pow_succ_r, Nat2Z.inj_succ by (try apply Z.pow_pos_nonneg; lia). done.
Qed.

Lemma fmtFrac_spec prec v buf :
  0 <= v ->
  exists ds f, fmtFrac prec v false buf = (point ds ++ buf, v / 10 ^ Z.of_nat prec) /\
    digits ds /\ (length ds <= prec)%nat /\ fold_left parse_step ds (Some 0) = Some f /\
    f * 10 ^ (Z.of_nat prec - len ds) = v mod 10 ^ Z.of_nat prec.
Proof.
  revert v. induction prec as [|prec IH]; intros v Hv; cbn [fmtFrac].
  - exists [], 0. rewrite Z.div_1_r, Z.mod_1_r. by split_and!; [|constructor| | |].
  - rewrite Nat2Z.inj_succ. pose proof (Z.pow_pos_nonneg 10 (Z.of_nat prec) ltac:(lia) ltac:(lia)).
    assert (Hdiv : v / 10 / 10 ^ Z.of_nat prec = v / 10 ^ Z.succ (Z.of_nat prec))
      by (by rewrite Z.div_div, <- Z.pow_succ_r by lia).
    destruct (v mod 10 =? 0) eqn:E; bool_prop; cbn [orb negb].
    + destruct (IH (v / 10)) as (ds & f & -> & Hd & Hl & Hf & Hm); [apply Z.div_pos; lia|].
      exists ds, f. rewrite Hdiv. split_and!; [done|done|lia|done|].
      replace (Z.succ (Z.of_nat prec) - len ds) with (Z.succ (Z.of_nat prec - len ds)) by lia.
      rewrite !Z.pow_succ_r by (unfold len; lia). rewrite (Z.rem_mul_r v 10), E by lia. lia.
    + rewrite fmtFrac_printing, Hdiv.
      destruct (last_digits_spec (S prec) v 0) as (Hd & Hl & Hf).
      exists (last_digits (S prec) v), (v mod 10 ^ Z.of_nat (S prec)).
      split_and!; [|done|lia|by rewrite Hf|].
      * cbn [last_digits]. destruct (last_digits prec (v / 10)) as [|b s]; [done|]. cbn. by rewrite <- app_assoc.
      * unfold len. rewrite Hl, Nat2Z.inj_succ, Z.sub_diag. lia.
Qed.

(** [leadingFraction] on up to nine digits: the scale is a power of ten. *)
Lemma scale_step j :
  0 <= j < 9 -> SFmul 53 1024 (float_of_int (10 ^ j)) (float_of_int 10) = float_of_int (10 ^ (j + 1)).
Proof.
  intros Hj. assert (Hall : Forall (fun j => SFmul 53 1024 (float_of_int (10 ^ j)) (float_of_int 10)
                                  = float_of_int (10 ^ (j + 1))) (seqZ 0 9))
    by (repeat constructor).
  rewrite Forall_forall in Hall. apply Hall, elem_of_seqZ. lia.
Qed.

Lemma leadingFraction_digits ds j x f rest :
  digits ds -> 0 <= x < 10 ^ j -> 0 <= j -> j + len ds <= 9 ->
  fold_left parse_step ds (Some x) = Some f ->
  match rest with [] => True | b :: _ => is_digit b = false end ->
  leadingFraction x (float_of_int (10 ^ j)) false (ds ++ rest)
  = (f, float_of_int (10 ^ (j + len ds)), rest).
Proof.
  intros Hds. revert j x. induction Hds as [|b ds Hb Hds IH]; intros j x Hx Hj Hn Hf Hr.
  - rewrite (len_nil (A := byte)), Z.add_0_r. injection Hf as ->.
    destruct rest as [|b rest]; [done|]. cbn. by rewrite Hr.
  - rewrite len_cons in Hn. pose proof (len_nonneg ds). pose proof (proj1 (is_digit_range b) Hb).
    assert (10 ^ j <= 10 ^ 8) by (apply Z.pow_le_mono_r; lia).
    cbn [fold_left] in Hf. unfold parse_step at 2 in Hf. cbn [mbind option_bind] in Hf. rewrite Hb in Hf.
    cbn [app leadingFraction]. rewrite Hb. cbn [negb].
    rewrite (proj2 (Z.ltb_ge _ _)) by (apply Z.div_le_lower_bound; lia).
    rewrite (proj2 (Z.ltb_ge _ _)) by lia. rewrite scale_step by lia.
    rewrite len_cons. replace (j + (1 + len ds)) with (j + 1 + len ds) by lia.
    replace (x * 10 + (byteZ b - 48)) with (10 * x + (byteZ b - 48)) by lia.
    apply IH; try done; try lia. rewrite Z.pow_add_r by lia. lia.
Qed.

(** A fraction of a decimal unit is exact. *)
Lemma fraction_exact f prec k :
  0 <= k <= prec -> prec <= 9 -> 0 < f < 10 ^ k ->
  fraction_of f (10 ^ prec) (float_of_int (10 ^ k)) = f * 10 ^ (prec - k).
Proof.
  intros Hk Hp Hf. unfold fraction_of.
  assert (Hdiv : SFdiv 53 1024 (float_of_int (10 ^ prec)) (float_of_int (10 ^ k)) = float_of_int (10 ^ (prec - k))).
  { assert (Hall : Forall (fun x => SFdiv 53 1024 (float_of_int (10 ^ x.1)) (float_of_int (10 ^ x.2))
                                    = float_of_int (10 ^ (x.1 - x.2)))
        (p ← seqZ 0 10; (p,.) <$> seqZ 0 (p + 1))) by (repeat constructor).
    rewrite Forall_forall in Hall. apply (Hall (prec, k)). apply list_elem_of_bind. exists prec.
    split; [apply list_elem_of_fmap; exists k; split; [done|]|]; apply elem_of_seqZ; lia. }
  rewrite Hdiv. apply int_mul_exact; [lia|apply Z.pow_pos_nonneg; lia|].
  assert (10 ^ k * 10 ^ (prec - k) <= 10 ^ 9)
    by (rewrite <- Z.pow_add_r by lia; apply Z.pow_le_mono_r; lia).
  pose proof (Z.pow_pos_nonneg 10 (prec - k)). nia.
Qed.

Definition unit_like (u : bytes) : Prop :=
  u <> [] /\ Forall (fun b => (byteZ b =? 46) || is_digit b = false) u.

(** The text behind a part: nothing, or the next part. *)
Definition part_end (rest : bytes) : Prop :=
  match rest with [] => True | b :: _ => is_digit b = true end.

Lemma unit_name_unit u rest : unit_like u -> part_end rest -> unit_name (u ++ rest) = (u, rest).
Proof.
  intros [_ Hu] Hr. induction Hu as [|b u Hb Hu IH]; cbn [app unit_name].
  - destruct rest as [|b rest]; [done|]. cbn in *. by rewrite Hr, orb_true_r.
  - by rewrite Hb, IH.
Qed.

Lemma fold_digits_bound ds x f :
  digits ds -> 0 <= x -> fold_left parse_step ds (Some x) = Some f -> x <= f < (x + 1) * 10 ^ len ds.
Proof.
  intros Hd. revert x. induction Hd as [|b ds Hb Hd IH]; intros x Hx Hf.
  - rewrite (len_nil (A := byte)). injection Hf as ->. lia.
  - cbn [fold_left] in Hf. unfold parse_step at 2 in Hf. cbn [mbind option_bind] in Hf. rewrite Hb in Hf.
    pose proof (proj1 (is_digit_range b) Hb). apply IH in Hf; [|lia].
    rewrite len_cons, Z.pow_add_r by (pose proof (len_nonneg ds); lia).
    pose proof (Z.pow_pos_nonneg 10 (len ds) ltac:(lia) (len_nonneg ds)). nia.
Qed.

(** The fraction's nanoseconds: [f] has [len ds] digits of a unit of [10^prec]. *)
Definition frac_value (prec : Z) (ds : bytes) (f : Z) : Z :=
  match ds with [] => 0 | _ => f * 10 ^ (prec - len ds) end.

(** The fraction behind the whole part is read as digits, scale and rest. *)
Lemma read_fraction ds f u rest :
  digits ds -> len ds <= 9 -> fold_left parse_step ds (Some 0) = Some f -> unit_like u ->
  exists post,
    match point ds ++ u ++ rest with
    | x2e :: t => let '(f, scale, t2) := leadingFraction 0 (float_of_int 1) false t in
                  (f, scale, t2, bool_decide (length t <> length t2))
    | _ => (0, float_of_int 1, point ds ++ u ++ rest, false)
    end = (f, float_of_int (10 ^ len ds), u ++ rest, post).
Proof.
  intros Hd Hl Hf [Hne Hu]. destruct u as [|b u]; [done|]. apply Forall_cons in Hu as [Hb _].
  destruct ds as [|c ds].
  - injection Hf as <-. exists false. cbn [point app]. by destruct b.
  - eexists. cbn [point app].
    pose proof (leadingFraction_digits (c :: ds) 0 0 f (b :: u ++ rest) Hd) as HL.
    rewrite Z.add_0_l in HL. change (10 ^ 0) with 1 in HL.
    rewrite app_comm_cons, HL; [reflexivity|lia|lia|lia|done|]. by apply orb_false_iff in Hb as [_ ->].
Qed.

Lemma duration_part_printed n ds f u U prec rest :
  0 <= n <= 2 ^ 63 -> digits ds -> fold_left parse_step ds (Some 0) = Some f ->
  unit_like u -> unit_value u = Some U -> 0 < U -> part_end rest ->
  len ds <= prec <= 9 -> ds = [] \/ U = 10 ^ prec ->
  n * U + frac_value prec ds f <= 2 ^ 63 ->
  duration_part (itoa_nat 20 n ++ point ds ++ u ++ rest) = Some (n * U + frac_value prec ds f, rest).
Proof.
  intros Hn Hd Hf Hu HU HU0 Hr Hl Hdec Hb.
  pose proof (itoa_nat_digits 20 n ltac:(lia)) as Hi. pose proof (itoa_nat_nonempty 20 n ltac:(lia)) as Hne.
  pose proof (fold_digits_bound ds 0 f Hd ltac:(lia) Hf) as Hf0.
  assert (Hv0 : 0 <= frac_value prec ds f).
  { destruct ds; [done|]. unfold frac_value. apply Z.mul_nonneg_nonneg; [lia|apply Z.pow_nonneg; lia]. }
  assert (Hhead : match point ds ++ u ++ rest with [] => True | b :: _ => is_digit b = false end).
  { destruct ds as [|? ds]; [|done]. destruct Hu as [Hu0 Hu]. destruct u as [|b u]; [done|].
    apply Forall_cons in Hu as [Hb0 _]. by apply orb_false_iff in Hb0 as [_ ?]. }
  pose proof (leadingInt_digits _ 0 n _ Hi ltac:(lia) (fold_itoa 20 n ltac:(lia)) ltac:(lia) Hhead) as HL.
  destruct (read_fraction ds f u rest Hd ltac:(lia) Hf Hu) as [post HF].
  assert (Hlen : length (itoa_nat 20 n ++ point ds ++ u ++ rest) <> length (point ds ++ u ++ rest))
    by (rewrite length_app; destruct (itoa_nat 20 n); cbn; [done|lia]).
  destruct (itoa_nat 20 n) as [|b s]; [done|]. apply Forall_cons in Hi as [Hb0 _].
  unfold duration_part. cbn [app] in *. rewrite Hb0, orb_true_r. cbn [negb].
  rewrite HL. cbn [mbind option_bind]. rewrite HF.
  rewrite (bool_decide_true (length _ <> length _)) by exact Hlen. cbn [negb andb].
  rewrite (unit_name_unit u rest Hu Hr). rewrite bool_decide_false by apply Hu.
  rewrite HU. cbn [mbind option_bind]. rewrite (proj2 (Z.ltb_ge _ _)) by (apply Z.div_le_lower_bound; lia).
  assert (Hval : (if 0 <? f then n * U + fraction_of f U (float_of_int (10 ^ len ds)) else n * U)
                 = n * U + frac_value prec ds f).
  { destruct (0 <? f) eqn:E; bool_prop.
    - destruct ds as [|c ds]; [injection Hf as <-; lia|]. destruct Hdec as [Hnil | Hdec]; [done|]; rewrite Hdec.
      f_equal. apply fraction_exact; [pose proof (len_nonneg (c :: ds)); lia|lia|lia].
    - replace f with 0 by lia. destruct ds; cbn; lia. }
  by rewrite Hval, (proj2 (Z.ltb_ge _ _)) by lia.
Qed.

Lemma part_end_itoa n s : 0 <= n -> part_end (itoa_nat 20 n ++ s).
Proof.
  intros Hn. pose proof (itoa_nat_digits 20 n Hn) as Hd. pose proof (itoa_nat_nonempty 20 n ltac:(lia)).
  destruct (itoa_nat 20 n) as [|b t]; [done|]. by apply Forall_cons in Hd as [Hb _].
Qed.

(** A whole number of a unit. *)
Lemma whole_part n u U rest :
  0 <= n <= 2 ^ 63 -> unit_like u -> unit_value u = Some U -> 0 < U -> part_end rest -> n * U <= 2 ^ 63 ->
  duration_part (itoa_nat 20 n ++ u ++ rest) = Some (n * U, rest).
Proof.
  intros Hn Hu HU HU0 Hr Hb.
  pose proof (duration_part_printed n [] 0 u U 0 rest) as H. cbn [point app frac_value] in H.
  rewrite Z.add_0_r in H. rewrite H; try done; try lia; [by constructor|by left].
Qed.

(** A number of a decimal unit with the fraction [fmtFrac] prints. *)
Lemma frac_part (prec : nat) v u :
  0 <= v -> (prec <= 9)%nat -> unit_like u -> unit_value u = Some (10 ^ Z.of_nat prec) ->
  exists ds, fmtFrac prec v false u = (point ds ++ u, v / 10 ^ Z.of_nat prec) /\
    forall n, 0 <= n -> n * 10 ^ Z.of_nat prec + v mod 10 ^ Z.of_nat prec <= 2 ^ 63 ->
      duration_part (itoa_nat 20 n ++ point ds ++ u) = Some (n * 10 ^ Z.of_nat prec + v mod 10 ^ Z.of_nat prec, []).
Proof.
  intros Hv Hp Hu HU. destruct (fmtFrac_spec prec v u Hv) as (ds & f & Hfr & Hd & Hl & Hf & Hm).
  exists ds. split; [done|]. intros n Hn Hb.
  assert (HU0 : 0 < 10 ^ Z.of_nat prec) by (apply Z.pow_pos_nonneg; lia).
  assert (Hval : frac_value (Z.of_nat prec) ds f = v mod 10 ^ Z.of_nat prec).
  { rewrite <- Hm. destruct ds; [|done]. injection Hf as <-. done. }
  pose proof (Z.mod_pos_bound v _ HU0).
  rewrite <- Hval in *. rewrite <- (app_nil_r u) at 1.
  apply duration_part_printed; auto; [nia|done|unfold len; lia].
Qed.

Lemma duration_loop_enough fuel s d :
  (length s <= fuel)%nat -> duration_loop fuel s d = duration_loop (length s) s d.
Proof.
  induction 1 as [|fuel Hle IH]; [done|]. by rewrite <- duration_loop_fuel.
Qed.

Lemma duration_loop_part s v rest d :
  duration_part s = Some (v, rest) -> d + v <= 2 ^ 63 ->
  duration_loop (length s) s d = duration_loop (length rest) rest (d + v).
Proof.
  intros Hp Hd. pose proof (duration_part_shorter _ _ _ Hp) as Hs.
  destruct s as [|b s]; [done|]. cbn [length duration_loop]. rewrite Hp. cbn [mbind option_bind].
  rewrite (proj2 (Z.ltb_ge _ _)) by lia. apply duration_loop_enough. cbn in Hs. lia.
Qed.

(** The unsigned part of a duration's text: its parts sum up to it, it starts with
    a digit and it is longer than one byte. *)
Definition reads_as (s : bytes) (u : Z) : Prop :=
  duration_loop (length s) s 0 = Some u /\ part_end s /\ (1 < length s)%nat.

Lemma units_like : Forall unit_like [$"ns"; [xc2; xb5; x73]; $"ms"; $"s"; $"m"; $"h"].
Proof. repeat constructor; done. Qed.

Lemma itoa_longer n (s : bytes) : s <> [] -> (1 < length (itoa_nat 20 n ++ s))%nat.
Proof.
  intros Hs. pose proof (itoa_nat_nonempty 20 n ltac:(lia)). rewrite length_app.
  destruct (itoa_nat 20 n), s; cbn; done || lia.
Qed.

Lemma small_reads u : 0 <= u < 10 ^ 9 -> reads_as (small_String u) u.
Proof.
  intros Hu. unfold small_String. destruct (u =? 0) eqn:E0; bool_prop; [subst u; split_and!; [reflexivity|reflexivity|cbn; lia]|].
  pose proof units_like as HU. rewrite !Forall_cons in HU. destruct HU as (Uns & Uus & Ums & _).
  assert (H : forall (prec : nat) un, (prec <= 9)%nat -> unit_like un ->
    unit_value un = Some (10 ^ Z.of_nat prec) ->
    reads_as (let '(buf, u) := fmtFrac prec u false un in fmtInt u buf) u).
  { intros prec un Hp Hl Hv. destruct (frac_part prec u un) as (ds & -> & Hpart); [lia|done|done|done|].
    assert (Hpos : 0 < 10 ^ Z.of_nat prec) by (apply Z.pow_pos_nonneg; lia).
    pose proof (Z.div_mod u (10 ^ Z.of_nat prec) ltac:(lia)) as Hdm.
    specialize (Hpart (u / 10 ^ Z.of_nat prec) ltac:(apply Z.div_pos; lia) ltac:(lia)).
    unfold fmtInt. split_and!; [|apply part_end_itoa, Z.div_pos; lia|apply itoa_longer].
    - rewrite (duration_loop_part _ _ _ 0 Hpart) by lia. cbn. f_equal. lia.
    - destruct Hl as [Hl _]. destruct un; [done|]. by destruct ds. }
  destruct (u <? 10 ^ 3); [apply (H 0%nat); done || lia|].
  destruct (u <? 10 ^ 6); [apply (H 3%nat)|apply (H 6%nat)]; done || lia.
Qed.

Lemma large_reads u : 10 ^ 9 <= u <= 2 ^ 63 -> reads_as (large_String u) u.
Proof.
  intros Hu. unfold large_String.
  pose proof units_like as HU. rewrite !Forall_cons in HU. destruct HU as (_ & _ & _ & Us & Um & Uh & _).
  destruct (frac_part 9 u ($"s")) as (ds & -> & Hpart); [lia|lia|done|done|].
  change (Z.of_nat 9) with 9 in *. set (s := u / 10 ^ 9).
  assert (Hs : 0 <= s /\ u = 10 ^ 9 * s + u mod 10 ^ 9 /\ 0 <= u mod 10 ^ 9 < 10 ^ 9).
  { unfold s. split_and!; [apply Z.div_pos; lia|apply Z.div_mod; lia|apply Z.mod_pos_bound; lia..]. }
  assert (Hm : 0 <= s / 60 /\ s = 60 * (s / 60) + s mod 60 /\ 0 <= s mod 60 < 60).
  { split_and!; [apply Z.div_pos; lia|apply Z.div_mod; lia|apply Z.mod_pos_bound; lia..]. }
  assert (Hh : 0 <= s / 60 / 60 /\ s / 60 = 60 * (s / 60 / 60) + s / 60 mod 60 /\ 0 <= s / 60 mod 60 < 60).
  { split_and!; [apply Z.div_pos; lia|apply Z.div_mod; lia|apply Z.mod_pos_bound; lia..]. }
  specialize (Hpart (s mod 60) ltac:(lia) ltac:(lia)). unfold fmtInt.
  assert (Hne : point ds ++ $"s" <> []) by (by destruct ds).
  set (S0 := itoa_nat 20 (s mod 60) ++ point ds ++ $"s") in *.
  assert (HS : part_end S0) by (apply part_end_itoa; lia).
  destruct (s / 60 =? 0) eqn:E1; bool_prop.
  { split_and!; [|done|by apply itoa_longer]. rewrite (duration_loop_part _ _ _ 0 Hpart) by lia.
    cbn. f_equal. lia. }
  pose proof (whole_part (s / 60 mod 60) ($"m") (60 * 10 ^ 9) S0 ltac:(lia) Um eq_refl ltac:(lia) HS ltac:(lia)) as HM.
  change ($"m" ++ S0) with (x6d :: S0) in HM.
  set (M0 := itoa_nat 20 (s / 60 mod 60) ++ x6d :: S0) in *.
  assert (HM0 : part_end M0) by (apply part_end_itoa; lia).
  destruct (s / 60 / 60 =? 0) eqn:E2; bool_prop.
  { split_and!; [|done|by apply itoa_longer].
    rewrite (duration_loop_part _ _ _ 0 HM), (duration_loop_part _ _ _ _ Hpart) by lia. cbn. f_equal. lia. }
  pose proof (whole_part (s / 60 / 60) ($"h") (3600 * 10 ^ 9) M0 ltac:(lia) Uh eq_refl ltac:(lia) HM0 ltac:(lia)) as HH.
  change ($"h" ++ M0) with (x68 :: M0) in HH.
  split_and!; [|apply part_end_itoa; lia|by apply itoa_longer].
  rewrite (duration_loop_part _ _ _ 0 HH), (duration_loop_part _ _ _ _ HM), (duration_loop_part _ _ _ _ Hpart) by lia.
  cbn. f_equal. lia.
Qed.

(** Every duration of 64 bits is read back from its text. *)
Lemma ParseDuration_String d : is_i64 d -> ParseDuration (Duration_String d) = Some d.
Proof.
  unfold is_i64. intros Hd. unfold Duration_String.
  set (s := if Z.abs d <? 10 ^ 9 then small_String (Z.abs d) else large_String (Z.abs d)).
  assert (Hs : reads_as s (Z.abs d)).
  { unfold s. destruct (Z.abs d <? 10 ^ 9) eqn:E; bool_prop; [apply small_reads|apply large_reads]; lia. }
  destruct Hs as (Hl & Hp & Hlen). destruct s as [|b [|c t]]; [cbn in Hlen; lia..|].
  apply is_digit_range in Hp. unfold ParseDuration. destruct (d <? 0) eqn:E; bool_prop.
  - change (byteZ x2d =? 45) with true. cbv iota. rewrite bool_decide_false by done.
    rewrite Hl. cbn. f_equal. lia.
  - rewrite !(proj2 (Z.eqb_neq _ _)) by lia. rewrite bool_decide_false by done.
    rewrite Hl. cbn [mbind option_bind]. rewrite (proj2 (Z.ltb_ge _ _)) by lia. f_equal. lia.
Qed.

Lemma denotes_duration `{FloatSyntax} d : is_i64 d -> denotes (Duration_String d) (VDuration d).
Proof. intros Hd. unfold denotes. cbn. by rewrite ParseDuration_String. Qed.

#[export] Hint Resolve denotes_duration : flags.

(** ** Reading the table back *)

Definition is_space (b : byte) : bool := (byteZ b =? 32) || (byteZ b =? 10).

(** The words of a line; [cur] is the one being read. *)
Fixpoint words (s cur : bytes) : list bytes :=
  match s with
  | [] => match cur with [] => [] | _ => [cur] end
  | b :: s =>
    if is_space b then match cur with [] => words s [] | _ => cur :: words s [] end
    else words s (cur ++ [b])
  end.

Definition word (w : bytes) : Prop := w <> [] /\ Forall (fun b => is_space b = false) w.

Lemma words_word w cur b s :
  Forall (fun b => is_space b = false) w -> cur ++ w <> [] -> is_space b = true ->
  words (w ++ b :: s) cur = (cur ++ w) :: words s [].
Proof.
  intros Hw. revert cur. induction Hw as [|c w Hc Hw IH]; intros cur Hne Hb; cbn [app words].
  - rewrite Hb. rewrite app_nil_r in *. by destruct cur.
  - rewrite Hc, IH; [|by rewrite <- app_assoc|done]. by rewrite <- app_assoc.
Qed.

Lemma words_spaces n s : words (replicate n x20 ++ s) [] = words s [].
Proof. by induction n. Qed.

(** A column shows a word, with spaces on either side. *)
Definition shows (w c : bytes) : Prop :=
  word w /\ exists i j, c = replicate i x20 ++ w ++ replicate j x20.

Lemma words_shown w c b s :
  shows w c -> is_space b = true -> words (c ++ b :: s) [] = w :: words s [].
Proof.
  intros [[Hne Hw] (i & [|j] & ->)] Hb; rewrite <- !app_assoc, words_spaces.
  - cbn [replicate app]. by rewrite words_word.
  - cbn [replicate app]. rewrite words_word by done. cbn [app]. f_equal. rewrite words_spaces.
    cbn. by rewrite Hb.
Qed.

Lemma words_columns ws cs :
  Forall2 shows ws cs -> cs <> [] -> words (columns cs ++ newline) [] = ws.
Proof.
  induction 1 as [|w c ws cs Hw Hws IH]; [done|]. intros _.
  destruct Hws as [|w' c' ws cs Hw' Hws]; [by apply (words_shown w c x0a [])|].
  cbn [columns]. rewrite <- app_assoc. cbn [app]. erewrite words_shown by done. f_equal. by apply IH.
Qed.

Lemma shows_left n w : word w -> shows w (pad_left n w).
Proof. intros Hw. split; [done|]. exists (Z.to_nat (n - runes w)), 0%nat. by rewrite app_nil_r. Qed.

Lemma shows_right n w : word w -> shows w (pad_right n w).
Proof. intros Hw. split; [done|]. by exists 0%nat, (Z.to_nat (n - runes w)). Qed.

Lemma digits_word s : digits s -> Forall (fun b => is_space b = false) s.
Proof.
  intros Hs. eapply Forall_impl; [exact Hs|]. intros b Hb%is_digit_range. unfold is_space.
  by rewrite !(proj2 (Z.eqb_neq _ _)) by lia.
Qed.

Lemma itoa_word z : word (itoa z).
Proof.
  unfold itoa. destruct (z <? 0) eqn:E; bool_prop; (split;
    [by pose proof (itoa_nat_nonempty 20 z ltac:(lia))
    |try (apply Forall_app; split; [by repeat constructor|]); apply digits_word, itoa_nat_digits; lia]).
Qed.

(** What [fmtFrac] prints in front of a unit has no space, the unit neither. *)
Lemma frac_spaces prec v buf :
  0 <= v -> Forall (fun b => is_space b = false) buf ->
  Forall (fun b => is_space b = false) (fmtFrac prec v false buf).1 /\ 0 <= (fmtFrac prec v false buf).2.
Proof.
  intros Hv Hb. destruct (fmtFrac_spec prec v buf Hv) as (ds & f & -> & Hd & _). cbn [fst snd].
  split; [|apply Z.div_pos; [done|apply Z.pow_pos_nonneg; lia]].
  apply Forall_app. split; [|done]. apply digits_word in Hd. destruct Hd; constructor; done || by constructor.
Qed.

Lemma fmtInt_word v buf :
  0 <= v -> Forall (fun b => is_space b = false) buf -> Forall (fun b => is_space b = false) (fmtInt v buf).
Proof. intros Hv Hb. apply Forall_app. split; [by apply digits_word, itoa_nat_digits|done]. Qed.

Lemma small_spaces u : 0 <= u -> Forall (fun b => is_space b = false) (small_String u).
Proof.
  intros Hu. unfold small_String. destruct (u =? 0); [by repeat constructor|].
  assert (H : forall prec un, Forall (fun b => is_space b = false) un ->
            Forall (fun b => is_space b = false) (let '(buf, v) := fmtFrac prec u false un in fmtInt v buf)).
  { intros prec un Hun. destruct (frac_spaces prec u un Hu Hun) as [H1 H2].
    destruct (fmtFrac prec u false un). by apply fmtInt_word. }
  destruct (u <? 10 ^ 3), (u <? 10 ^ 6); apply H; by repeat constructor.
Qed.

Lemma large_spaces u : 0 <= u -> Forall (fun b => is_space b = false) (large_String u).
Proof.
  intros Hu. unfold large_String.
  destruct (frac_spaces 9 u ($"s") Hu ltac:(by repeat constructor)) as [H1 H2].
  destruct (fmtFrac 9 u false ($"s")) as [buf v]. cbn [fst snd] in *.
  pose proof (Z.mod_pos_bound v 60 ltac:(lia)). pose proof (Z.mod_pos_bound (v / 60) 60 ltac:(lia)).
  assert (0 <= v / 60 / 60) by (do 2 (apply Z.div_pos; [|lia]); done).
  destruct (v / 60 =? 0); [|destruct (v / 60 / 60 =? 0)];
    repeat (apply fmtInt_word; [lia|]; try (constructor; [done|])); done.
Qed.

Lemma Duration_word d : word (Duration_String d).
Proof.
  assert (Hne : small_String (Z.abs d) <> [] /\ large_String (Z.abs d) <> []).
  { unfold small_String, large_String, fmtInt. pose proof (fun n => itoa_nat_nonempty 20 n ltac:(lia)) as H.
    split; repeat case_match; try done;
      match goal with |- itoa_nat 20 ?n ++ _ <> [] => specialize (H n); by destruct (itoa_nat 20 n) end. }
  pose proof (small_spaces (Z.abs d) ltac:(lia)). pose proof (large_spaces (Z.abs d) ltac:(lia)).
  unfold Duration_String. destruct Hne, (Z.abs d <? 10 ^ 9), (d <? 0); (split; [done|]); done || by constructor.
Qed.

Lemma scaled_nonneg m e prec : 0 <= m -> 0 <= prec -> 0 <= scaled m e prec.
Proof.
  intros Hm Hp. unfold scaled. pose proof (Z.pow_nonneg 10 prec ltac:(lia)).
  destruct (0 <=? e) eqn:E; bool_prop.
  - pose proof (Z.pow_nonneg 2 e). repeat apply Z.mul_nonneg_nonneg; lia.
  - assert (0 <= m * 10 ^ prec / 2 ^ (- e))
      by (apply Z.div_pos; [by apply Z.mul_nonneg_nonneg|apply Z.pow_pos_nonneg; lia]).
    repeat case_match; lia.
Qed.

Lemma fmt_f_spaces prec f : Forall (fun b => is_space b = false) (fmt_f prec f).
Proof.
  assert (H : forall (s : bool) n, 0 <= n -> Forall (fun b => is_space b = false)
            ((if s then $"-" else []) ++ itoa_nat 310 (n / 10 ^ Z.of_nat prec) ++ x2e :: last_digits prec n)).
  { intros s n Hn. rewrite !Forall_app, Forall_cons.
    split_and!; [destruct s; by repeat constructor| |done|]; apply digits_word.
    - apply itoa_nat_digits, Z.div_pos; [done|apply Z.pow_pos_nonneg; lia].
    - apply (last_digits_spec prec n 0). }
  destruct f as [s|s| |s m e]; [apply H; lia|destruct s; by repeat constructor|by repeat constructor|].
  apply H, scaled_nonneg; lia.
Qed.

Lemma shows_rate n f : shows (fmt_f 1 f ++ $"/s") (pad_left n (fmt_f 1 f) ++ $"/s").
Proof.
  split.
  - split; [by destruct (fmt_f 1 f)|]. apply Forall_app. split; [apply fmt_f_spaces|by repeat constructor].
  - exists (Z.to_nat (n - runes (fmt_f 1 f))), 0%nat. rewrite app_nil_r. unfold pad_left.
    by rewrite <- app_assoc.
Qed.

(** The numbers of a row: counts, and percentiles in nanoseconds. *)
Definition row_values (op : OpReport) : list Z :=
  [or_Count op; or_Errors op; P50Ns op; P95Ns op; P99Ns op; P999Ns op].

(** A reader of the table: the operation's name and the row's numbers. *)
Definition read_row (line : bytes) : option (bytes * list Z) :=
  match words line [] with
  | [name; c; e; _; p50; p95; p99; p999] =>
    ns ← mapM Atoi [c; e];
    ds ← mapM ParseDuration [p50; p95; p99; p999];
    Some (name, ns ++ ds)
  | _ => None
  end.

Lemma read_text_row name op :
  word name -> Forall is_i64 (row_values op) -> read_row (text_row (name, op)) = Some (name, row_values op).
Proof.
  intros Hn Hv. unfold row_values in *. rewrite !Forall_cons in Hv.
  destruct Hv as (H1 & H2 & H3 & H4 & H5 & H6 & _). unfold read_row, text_row.
  rewrite (words_columns ([name; itoa (or_Count op); itoa (or_Errors op); fmt_f 1 (or_Throughput op) ++ $"/s"]
             ++ (Duration_String <$> [P50Ns op; P95Ns op; P99Ns op; P999Ns op]))); [|..|done].
  - cbn [mapM fmap list_fmap app]. by rewrite !Atoi_itoa, !ParseDuration_String by done.
  - cbn [fmap list_fmap app].
    repeat (apply Forall2_cons; split); auto using Forall2_nil, shows_left, shows_right, shows_rate, itoa_word, Duration_word.
Qed.

(** ** The report *)

Lemma Fprintf_all_out l o :
  out_script o = [] -> Fprintf_all l o = (mkOut (out_data o ++ mjoin l) [], Ret tt).
Proof.
  revert o. induction l as [|s l IH]; intros [d sc]; cbn [out_script]; intros ->.
  - cbn. by rewrite app_nil_r.
  - cbn [Fprintf_all]. rewrite (bind_ret _ _ _ (mkOut (d ++ s) []) tt) by done. rewrite IH by done. cbn.
    by rewrite <- app_assoc.
Qed.

(** The lines above the table. *)
Definition text_head (r : Report) : bytes :=
  text_target r ++ text_workload r ++ text_run r ++ text_header.

Lemma WriteText_out order r o :
  out_script o = [] ->
  WriteText order r o = (mkOut (out_data o ++ text_head r ++ mjoin (text_row <$> order)) [], Ret None).
Proof.
  destruct o as [d sc]. cbn [out_script out_data]. intros ->. unfold WriteText.
  do 4 erewrite bind_ret by done. cbn [out_data]. erewrite bind_ret by (by apply Fprintf_all_out).
  unfold text_head. by rewrite !app_assoc.
Qed.

Lemma NewReport_entry env res name op :
  Ops (NewReport env res) !! name = Some op <->
  exists o s, name = opName o /\ r_Stats res o = Some s /\ op = op_report (MeasuredDuration res) s.
Proof.
  destruct (report_faithful env res) as (Hops & Hnames & _). split.
  - intros Hn. destruct (Hnames name) as [o ->]; [by rewrite Hn|].
    rewrite Hops in Hn. apply fmap_Some in Hn as (s & Hs & ->). by exists o, s.
  - intros (o & s & -> & Hs & ->). by rewrite Hops, Hs.
Qed.

(** C40: the printed report of a run can be read back.  Whatever the order in which the
    map is visited, a working standard output gets the header lines and then one
    row for each measured operation, and the words of a row are the operation's
    name, its count and errors as decimal numbers and its percentiles as
    durations that parse to exactly the nanoseconds of the statistics. *)
Theorem report_readable env res order o :
  order ≡ₚ map_to_list (Ops (NewReport env res)) ->
  (forall op s, r_Stats res op = Some s ->
     Forall is_i64 [Count s; Errors s; P50 s; P95 s; P99 s; P999 s]) ->
  out_script o = [] ->
  exists rows,
    WriteText order (NewReport env res) o
      = (mkOut (out_data o ++ text_head (NewReport env res) ++ mjoin rows) [], Ret None) /\
    length rows = size (Ops (NewReport env res)) /\
    forall name vs, Some (name, vs) ∈ (read_row <$> rows) <->
      exists op s, name = opName op /\ r_Stats res op = Some s /\
        vs = [Count s; Errors s; P50 s; P95 s; P99 s; P999 s].
Proof.
  intros Hord Hfit Ho. exists (text_row <$> order). split; [by apply WriteText_out|].
  split; [by rewrite length_fmap, Hord, length_map_to_list|].
  assert (Hin : forall name op, (name, op) ∈ order <->
    exists o s, name = opName o /\ r_Stats res o = Some s /\ op = op_report (MeasuredDuration res) s).
  { intros name op. by rewrite Hord, elem_of_map_to_list, NewReport_entry. }
  assert (Hread : forall x, x ∈ order -> read_row (text_row x) = Some (x.1, row_values x.2)).
  { intros [name op] Hx. apply Hin in Hx as (o' & s & -> & Hs & ->).
    apply read_text_row; [destruct o'; (split; [done|by repeat constructor])|by eapply Hfit]. }
  intros name vs. rewrite <- list_fmap_compose, list_elem_of_fmap. split.
  - intros ([n op] & Hr & Hx). cbn [compose] in Hr. rewrite (Hread _ Hx) in Hr. injection Hr as -> ->.
    apply Hin in Hx as (o' & s & -> & Hs & ->). by exists o', s.
  - intros (o' & s & -> & Hs & ->). exists (opName o', op_report (MeasuredDuration res) s).
    assert (Hx : (opName o', op_report (MeasuredDuration res) s) ∈ order) by (apply Hin; by exists o', s).
    split; [|done]. cbn [compose]. by rewrite (Hread _ Hx).
Qed.

Definition demo_result : Result :=
  mkResult demo_run (10 ^ 9)
    (fun op => match op with OpGet => Some (mkOpStats 3 1 1500 2000000 2000000 (61 * 10 ^ 9) 7 (61 * 10 ^ 9) 20000)
                           | OpPut => None end).

Definition demo_environment : Environment :=
  mkEnvironment 0 ($"go1.24") ($"linux") ($"amd64") 8 ($"localhost:7070") [].

Lemma report_readable_witness :
  let report := NewReport demo_environment demo_result in
  exists rows,
    WriteText (map_to_list (Ops report)) report (mkOut [] [])
      = (mkOut ([] ++ text_head report ++ mjoin rows) [], Ret None) /\
    length rows = size (Ops report) /\
    forall name vs, Some (name, vs) ∈ (read_row <$> rows) <->
      exists op s, name = opName op /\ r_Stats demo_result op = Some s /\
        vs = [Count s; Errors s; P50 s; P95 s; P99 s; P999 s].
Proof.
  intros report.
  apply (report_readable demo_environment demo_result (map_to_list (Ops report)) (mkOut [] [])); [done| |done].
  intros [] s; [|done]. intros [= <-]. unfold is_i64. repeat constructor; done.
Defined.

(** Whatever happens to its writes, [WriteText] returns no error: a report that
    could not be printed is a success. *)
Theorem text_errors_dropped order r o : exists o', WriteText order r o = (o', Ret None).
Proof.
  assert (Hf : forall s o, exists o', Fprintf s o = (o', Ret tt)).
  { intros s [d [|[[]|]]]; by eexists. }
  assert (Ha : forall l o, exists o', Fprintf_all l o = (o', Ret tt)).
  { induction l as [|s l IH]; intros o1; [by eexists|]. cbn [Fprintf_all].
    destruct (Hf s o1) as [o2 H2]. rewrite (bind_ret _ _ _ _ _ H2). apply IH. }
  unfold WriteText.
  destruct (Hf (text_target r) o) as [o1 H1]. rewrite (bind_ret _ _ _ _ _ H1).
  destruct (Hf (text_workload r) o1) as [o2 H2]. rewrite (bind_ret _ _ _ _ _ H2).
  destruct (Hf (text_run r) o2) as [o3 H3]. rewrite (bind_ret _ _ _ _ _ H3).
  destruct (Hf text_header o3) as [o4 H4]. rewrite (bind_ret _ _ _ _ _ H4).
  destruct (Ha (text_row <$> order) o4) as [o5 H5]. rewrite (bind_ret _ _ _ _ _ H5). by eexists.
Qed.
