(* ===== verification/Ctl.v ===== *)
(** * The command-line client (cmd/uddpctl/main.go)

    The commands of uddpctl over the clients of a connection, an interface of
    which [node_clients] is the implementation: the servers of Api.v behind the
    interceptors of a node.  What a command prints is a list of lines.  A
    command starts from the values of the flags, which Mains reads, and the
    remaining arguments; the five-second deadline is not modelled. *)

From Stdlib Require Import ZArith Lia.
From S2P Require Import Prelude WalFormat Wal WalStore Engine EngineInvariant EngineTheorems.
From S2P Require Import Streaming Replication Node Catalog Backup Grpc Auth Observability Api.
From S2P Require Import ApiTheorems Resp RespTheorems.

(** ** Numbers *)

(** [strconv.ParseUint(s, 10, 64)] and [strconv.ParseInt(s, 10, 32)]. *)
Definition ParseUint64 (s : bytes) : option Z :=
  n ← parse_digits s; if bool_decide (is_u64 n) then Some n else None.

Definition ParseInt32 (s : bytes) : option Z :=
  n ← Atoi s; if (- 2 ^ 31 <=? n) && (n <? 2 ^ 31) then Some n else None.

(** ** Output *)

(** What a verb prints: a string, a number, or a time the server has formatted. *)
Inductive item := Str (b : bytes) | Num (z : Z) | Time (t : Z).
Abbreviation line := (list item).

Definition kind_String (k : ChangeKind) : bytes :=
  match k with
  | CHANGE_KIND_UNSPECIFIED => $"CHANGE_KIND_UNSPECIFIED"
  | CHANGE_KIND_PUT => $"CHANGE_KIND_PUT"
  | CHANGE_KIND_DELETE => $"CHANGE_KIND_DELETE"
  end.

Definition tab : bytes := [x09].

Definition printBackupInfo (b : BackupInfo) : list line :=
  [[Str ($"namespace="); Str (bi_NamespaceId b); Str ($" recovery_point="); Num (bi_RecoveryPoint b);
    Str ($" entries="); Num (bi_EntryCount b); Str ($" created_at="); Time (bi_CreatedAt b);
    Str ($" sha256="); Str (bi_Sha256Entries b)]].

Definition print_member (n : Server) : line :=
  let voter := if s_Voter n then $" voter" else [] in
  [Str ($"  "); Str (s_ID n); Str tab; Str (s_Address n); Str voter].

Definition printCluster (c : Cluster) : list line :=
  [Str ($"leader: "); Str (cl_LeaderId c); Str ($" ("); Str (cl_LeaderRaftAddr c); Str ($")")]
  :: (print_member <$> cl_Nodes c).

(** ** Errors *)

Inductive ctl_error :=
| UsageError
| BadUsage (text : bytes)
| InvalidNumber (what arg : bytes)
| RPC (st : status)
| ReadCA (path : bytes) (e : oserr)
| NoCertificates (path : bytes)
| Dial (addr : bytes) (e : oserr).

(** ** Credentials *)

Inductive Credentials := Insecure | TLS (skipVerify : bool) (rootCAs : option bytes).

(** [readFile] is the file system, [hasCerts] whether a PEM file holds a
    certificate the pool accepts. *)
Definition dialCredentials (readFile : bytes -> result oserr bytes) (hasCerts : bytes -> bool)
    (useTLS : bool) (caPath : bytes) (insecureSkipVerify : bool) : result ctl_error Credentials :=
  if negb useTLS && bool_decide (caPath = []) && negb insecureSkipVerify then Ok Insecure else
  if bool_decide (caPath <> []) then
    match readFile caPath with
    | Err e => Err (ReadCA caPath e)
    | Ok pem => if negb (hasCerts pem) then Err (NoCertificates caPath)
                else Ok (TLS insecureSkipVerify (Some pem))
    end
  else Ok (TLS insecureSkipVerify None).

(** ** Commands *)

(** The clients of a connection: a call takes the outgoing authorization values
    and the fields of the request that the programs set. *)
Record Clients (S : Type) := mkClients {
  c_Get : list bytes -> bytes -> bytes -> handler S GetResponse;
  c_Put : list bytes -> bytes -> bytes -> bytes -> Z -> handler S MutationResponse;
  c_Delete : list bytes -> bytes -> bytes -> handler S MutationResponse;
  c_Fetch : list bytes -> bytes -> Z -> Z -> handler S FetchResponse;
  c_CommitOffset : list bytes -> bytes -> bytes -> Z -> handler S Z;
  c_FetchOffset : list bytes -> bytes -> bytes -> handler S (Z * bool);
  c_AddNode : list bytes -> bytes -> bytes -> handler S Cluster;
  c_RemoveNode : list bytes -> bytes -> handler S Cluster;
  c_ListNodes : list bytes -> handler S Cluster;
  c_CreateBackup : list bytes -> bytes -> handler S BackupInfo;
  c_RestoreBackup : list bytes -> bytes -> handler S BackupInfo;
  c_ExportNamespace : list bytes -> handler S (list SnapshotEntry);
  c_DeleteNamespace : list bytes -> bytes -> handler S Z;
  c_GetUsage : list bytes -> handler S Usage
}.
Arguments mkClients {S}.
Arguments c_Get {S}. Arguments c_Put {S}. Arguments c_Delete {S}. Arguments c_Fetch {S}.
Arguments c_CommitOffset {S}. Arguments c_FetchOffset {S}. Arguments c_AddNode {S}.
Arguments c_RemoveNode {S}. Arguments c_ListNodes {S}. Arguments c_CreateBackup {S}.
Arguments c_RestoreBackup {S}. Arguments c_ExportNamespace {S}. Arguments c_DeleteNamespace {S}.
Arguments c_GetUsage {S}.

Section commands.
Context {S : Type}.
Variable (cl : Clients S) (ctx : list bytes) (namespace : bytes).

Abbreviation command := (GoM S (result ctl_error (list line))).

Definition usage (text : bytes) : command := mret (Err (BadUsage text)).

(** An error of the call ends the command; the response is printed. *)
Definition calling {A} (h : handler S A) (print : A -> list line) : command :=
  r ← h; mret (match r with Ok x => Ok (print x) | Err st => Err (RPC st) end).

Definition cmd_get (rest : list bytes) : command :=
  match rest with
  | [key] => calling (c_Get cl ctx namespace key) (fun resp =>
      if negb (gr_Found resp) then [[Str ($"(not found)")]]
      else [[Str (gr_Value resp); Str tab; Str ($"(version="); Num (gr_Version resp); Str ($")")]])
  | _ => usage ($"usage: uddpctl get <key>")
  end.

Definition cmd_put (rest : list bytes) : command :=
  match rest with
  | [key; value] => calling (c_Put cl ctx namespace key value 0) (fun resp =>
      [[Str ($"committed at position "); Num (mr_CommitPosition resp);
        Str ($" (profile="); Str (mr_DurabilityProfile resp); Str ($")")]])
  | _ => usage ($"usage: uddpctl put <key> <value>")
  end.

Definition cmd_delete (rest : list bytes) : command :=
  match rest with
  | [key] => calling (c_Delete cl ctx namespace key) (fun resp =>
      [[Str ($"committed at position "); Num (mr_CommitPosition resp)]])
  | _ => usage ($"usage: uddpctl delete <key>")
  end.

Definition print_fetch (resp : FetchResponse) : list line :=
  ((fun r => [Num (pc_Offset r); Str tab; Str (kind_String (pc_Kind r)); Str tab;
              Str (pc_Key r); Str ($"="); Str (pc_Value r)]) <$> fr_Records resp)
  ++ [[Str ($"next_offset="); Num (fr_NextOffset resp)]].

Definition fetch_from (from maxRecords : Z) : command :=
  calling (c_Fetch cl ctx namespace from maxRecords) print_fetch.

Definition cmd_fetch (rest : list bytes) : command :=
  let parse_from a (k : Z -> command) : command :=
    match ParseUint64 a with
    | None => mret (Err (InvalidNumber ($"from-offset") a))
    | Some from => k from
    end in
  match rest with
  | [a] => parse_from a (fun from => fetch_from from 100)
  | [a; m] => parse_from a (fun from =>
      match ParseInt32 m with
      | None => mret (Err (InvalidNumber ($"max-records") m))
      | Some n => fetch_from from n
      end)
  | _ => usage ($"usage: uddpctl fetch <from-offset> [max-records]")
  end.

Definition cmd_commit_offset (rest : list bytes) : command :=
  match rest with
  | [group; o] =>
    match ParseUint64 o with
    | None => mret (Err (InvalidNumber ($"offset") o))
    | Some offset => calling (c_CommitOffset cl ctx namespace group offset) (fun resp =>
        [[Str ($"committed_offset="); Num resp]])
    end
  | _ => usage ($"usage: uddpctl commit-offset <group> <offset>")
  end.

Definition cmd_offset (rest : list bytes) : command :=
  match rest with
  | [group] => calling (c_FetchOffset cl ctx namespace group) (fun '(offset, found) =>
      if negb found then [[Str ($"(no committed offset)")]]
      else [[Str ($"offset="); Num offset]])
  | _ => usage ($"usage: uddpctl offset <group>")
  end.

Definition cmd_add_node (rest : list bytes) : command :=
  match rest with
  | [id; raftAddr] => calling (c_AddNode cl ctx id raftAddr) printCluster
  | _ => usage ($"usage: uddpctl add-node <id> <raft-addr>")
  end.

Definition cmd_remove_node (rest : list bytes) : command :=
  match rest with
  | [id] => calling (c_RemoveNode cl ctx id) printCluster
  | _ => usage ($"usage: uddpctl remove-node <id>")
  end.

Definition cmd_list_nodes (rest : list bytes) : command :=
  match rest with
  | [] => calling (c_ListNodes cl ctx) printCluster
  | _ => usage ($"usage: uddpctl list-nodes")
  end.

Definition cmd_backup (rest : list bytes) : command :=
  match rest with
  | [path] => calling (c_CreateBackup cl ctx path) printBackupInfo
  | _ => usage ($"usage: uddpctl backup <path>")
  end.

Definition cmd_restore (rest : list bytes) : command :=
  match rest with
  | [path] => calling (c_RestoreBackup cl ctx path) printBackupInfo
  | _ => usage ($"usage: uddpctl restore <path>")
  end.

Definition cmd_export (rest : list bytes) : command :=
  match rest with
  | [] => calling (c_ExportNamespace cl ctx) (fun entries =>
      (fun e => [Str (s_Key e); Str ($"="); Str (s_Value e)]) <$> entries)
  | _ => usage ($"usage: uddpctl export")
  end.

Definition cmd_delete_namespace (rest : list bytes) : command :=
  match rest with
  | [ns] => calling (c_DeleteNamespace cl ctx ns) (fun n =>
      [[Str ($"deleted "); Num n; Str ($" entries")]])
  | _ => usage ($"usage: uddpctl delete-namespace <namespace-id-to-confirm>")
  end.

Definition cmd_usage (rest : list bytes) : command :=
  match rest with
  | [] => calling (c_GetUsage cl ctx) (fun u =>
      [[Str ($"namespace="); Str (us_NamespaceId u); Str ($" key_count="); Num (us_KeyCount u);
        Str ($" approx_bytes="); Num (us_ApproxBytes u)]])
  | _ => usage ($"usage: uddpctl usage")
  end.

(** The cases of the switch, in the order of the source. *)
Definition commands : list (bytes * (list bytes -> command)) :=
  [($"get", cmd_get); ($"put", cmd_put); ($"delete", cmd_delete); ($"fetch", cmd_fetch);
   ($"commit-offset", cmd_commit_offset); ($"offset", cmd_offset); ($"add-node", cmd_add_node);
   ($"remove-node", cmd_remove_node); ($"list-nodes", cmd_list_nodes); ($"backup", cmd_backup);
   ($"restore", cmd_restore); ($"export", cmd_export); ($"delete-namespace", cmd_delete_namespace);
   ($"usage", cmd_usage)].

Fixpoint select (cases : list (bytes * (list bytes -> command))) (cmd : bytes) (rest : list bytes)
    : command :=
  match cases with
  | [] => mret (Err UsageError)
  | (name, body) :: cases => if bool_decide (cmd = name) then body rest else select cases cmd rest
  end.
End commands.

Lemma select_put {S} (cl : Clients S) ctx ns rest :
  select (commands cl ctx ns) ($"put") rest = cmd_put cl ctx ns rest.
Proof. reflexivity. Qed.

Lemma select_get {S} (cl : Clients S) ctx ns rest :
  select (commands cl ctx ns) ($"get") rest = cmd_get cl ctx ns rest.
Proof. reflexivity. Qed.

(** ** [run] *)

Record Flags := mkFlags {
  f_addr : bytes; f_namespace : bytes; f_tls : bool; f_tlsCA : bytes; f_insecure : bool;
  f_token : bytes
}.

(** The authorization values of every call. *)
Definition outgoing (token : bytes) : list bytes :=
  if bool_decide (token <> []) then [$"Bearer " ++ token] else [].

(** [run] after the flags are parsed; [env_token] is UDDP_TOKEN and [dial] opens
    the connection. *)
Definition ctl_run {S} (readFile : bytes -> result oserr bytes) (hasCerts : bytes -> bool)
    (env_token : bytes) (dial : bytes -> Credentials -> result oserr (Clients S))
    (fs : Flags) (rest : list bytes) : GoM S (result ctl_error (list line)) :=
  match rest with
  | [] => mret (Err UsageError)
  | cmd :: rest =>
    let token := if bool_decide (f_token fs = []) then env_token else f_token fs in
    match dialCredentials readFile hasCerts (f_tls fs) (f_tlsCA fs) (f_insecure fs) with
    | Err e => mret (Err e)
    | Ok creds =>
      match dial (f_addr fs) creds with
      | Err e => mret (Err (Dial (f_addr fs) e))
      | Ok cl => select (commands cl (outgoing token) (f_namespace fs)) cmd rest
      end
    end
  end.

(** ** The clients of a running node *)

Section node_clients.
Context {R T : Type} `{Raft R, Codec Command, BackupCodec T}.

(** A call of a method reaches the handler through the interceptors; the metadata
    of a call is present also when it has no authorization value. *)
Definition invoke {A} (token method : bytes) (h : handler (Srv R T) A) (ctx : list bytes)
    : handler (Metrics * Srv R T) A :=
  interceptors token (mkCall method (Some ctx)) h.

(** [order] is the iteration order of the engine's map in the calls that take a
    snapshot. *)
Definition node_clients (token : bytes) (order : list (bytes * entry))
    : Clients (Metrics * Srv R T) := mkClients
  (fun ctx ns key => invoke token ($"/uddp.native.v1.StateService/Get") (StateGet ns key) ctx)
  (fun ctx ns key value ttl =>
     invoke token ($"/uddp.native.v1.StateService/Put") (StatePut ns key value ttl []) ctx)
  (fun ctx ns key => invoke token ($"/uddp.native.v1.StateService/Delete") (StateDelete ns key []) ctx)
  (fun ctx ns from max =>
     invoke token ($"/uddp.native.v1.StreamService/Fetch") (StreamFetch ns from max) ctx)
  (fun ctx ns group offset =>
     invoke token ($"/uddp.native.v1.StreamService/CommitOffset") (StreamCommitOffset ns group offset) ctx)
  (fun ctx ns group =>
     invoke token ($"/uddp.native.v1.StreamService/FetchOffset") (StreamFetchOffset ns group) ctx)
  (fun ctx id addr => invoke token ($"/uddp.admin.v1.AdminService/AddNode") (AddNode id addr) ctx)
  (fun ctx id => invoke token ($"/uddp.admin.v1.AdminService/RemoveNode") (RemoveNode id) ctx)
  (fun ctx => invoke token ($"/uddp.admin.v1.AdminService/ListNodes") ListNodes ctx)
  (fun ctx path =>
     invoke token ($"/uddp.admin.v1.AdminService/CreateBackup") (CreateBackup order path) ctx)
  (fun ctx path => invoke token ($"/uddp.admin.v1.AdminService/RestoreBackup") (RestoreBackup path) ctx)
  (fun ctx => invoke token ($"/uddp.admin.v1.AdminService/ExportNamespace") (ExportNamespace order) ctx)
  (fun ctx ns =>
     invoke token ($"/uddp.admin.v1.AdminService/DeleteNamespace") (DeleteNamespace order ns) ctx)
  (fun ctx => invoke token ($"/uddp.admin.v1.AdminService/GetUsage") (GetUsage order) ctx).

(** The token a client presents is the one the node asks for. *)
Lemma invoke_authorized {A} token method (h : handler (Srv R T) A) m s s' r :
  h s = (s', Ret r) ->
  exists m', invoke token method h (outgoing token) (m, s) = ((m', s'), Ret r).
Proof.
  intros Hh. unfold invoke, interceptors.
  destruct (interceptor_transparent (mkCall method (Some (outgoing token)))
    (if bool_decide (token <> []) then Auth.UnaryServerInterceptor token
       (mkCall method (Some (outgoing token))) h else h) m s s' r) as (m' & HI & _); [|by exists m'].
  case_bool_decide as Ht; [|done]. unfold Auth.UnaryServerInterceptor, outgoing. cbn [authorization FullMethod].
  destruct (is_health method); [done|]. rewrite bool_decide_true by done.
  change ($"Bearer ") with bearerPrefix. rewrite presented_bearer by done.
  by rewrite ConstantTimeCompare_spec, bool_decide_true.
Qed.

(** Without the node's token a call changes nothing. *)
Lemma invoke_refused {A} token method (h : handler (Srv R T) A) ctx m s :
  token <> [] -> is_health method = false ->
  (forall v vs, ctx = v :: vs -> presented_token v <> token) ->
  exists m' st, invoke token method h ctx (m, s) = ((m', s), Ret (Err st)) /\
    st_code st = Unauthenticated.
Proof.
  intros Ht Hm Hc. unfold invoke, interceptors. rewrite bool_decide_true by done.
  assert (Ha : exists st, Auth.UnaryServerInterceptor token (mkCall method (Some ctx)) h s
                 = (s, Ret (Err st)) /\ st_code st = Unauthenticated).
  { unfold Auth.UnaryServerInterceptor. cbn [authorization FullMethod]. rewrite Hm.
    destruct ctx as [|v vs]; [by eexists|].
    rewrite ConstantTimeCompare_spec, bool_decide_false by (by eapply Hc). by eexists. }
  destruct Ha as (st & Ha & Hst).
  destruct (interceptor_transparent (mkCall method (Some ctx)) _ m s s (Err st) Ha) as (m' & HI & _).
  by exists m', st.
Qed.

(** A single node whose disk does not fail stores the value and answers with its
    position, and a read of the key returns it. *)
Lemma StatePut_calm (s : Srv R T) h a k v :
  sv_node s = None -> engine_inv (sv_engine s) h a -> calm_engine (sv_engine s) ->
  fits (e_log (sv_engine s)) (mkRecord 0 KindPut k v 0 []) -> k <> [] ->
  exists s' resp, StatePut (ID (Spec (sv_registry s))) k v 0 [] s = (s', Ret (Ok resp)) /\
    mr_CommitPosition resp = len h + 1 /\
    mr_DurabilityProfile resp = Profile (Spec (sv_registry s)) /\
    sv_registry s' = sv_registry s /\
    e_index (sv_engine s') !! k = Some (mkEntry v (len h + 1) None).
Proof.
  intros Hn Hinv Hc Hfit Hk.
  destruct (commit_calm (MPut k v 0 []) _ h a Hinv Hc Hfit) as (e1 & E1 & _ & _ & _ & Ht1).
  injection Ht1 as Hi1 _. cbn in Hi1.
  unfold StatePut, guarded. rewrite (bind_ret _ _ s s s) by done.
  rewrite checkNamespace_right. rewrite (proj2 (Z.eqb_neq (len k) 0)) by (by destruct k).
  rewrite (bind_ret _ _ s s s) by done. rewrite Hn.
  erewrite bind_ret; [|unfold eng; by erewrite zoom_ret by exact E1].
  eexists _, _. split; [reflexivity|]. cbn. split_and!; try done.
  by rewrite Hi1, lookup_insert_eq.
Qed.

Lemma StateGet_stored (s : Srv R T) k v n :
  k <> [] -> e_index (sv_engine s) !! k = Some (mkEntry v n None) ->
  exists s', StateGet (ID (Spec (sv_registry s))) k s = (s', Ret (Ok (mkGetResponse v n true))).
Proof.
  intros Hk Hi. destruct (Get_spec k (sv_engine s)) as (e' & _ & EG). rewrite Hi in EG. cbn in EG.
  unfold StateGet, guarded. rewrite (bind_ret _ _ s s s) by done.
  rewrite checkNamespace_right, (proj2 (Z.eqb_neq (len k) 0)) by (by destruct k).
  erewrite bind_ret; [|unfold eng; by erewrite zoom_ret by exact EG]. by eexists.
Qed.

(** A command that leaves the server alone and ends with an error. *)
Definition refused (c : GoM (Metrics * Srv R T) (result ctl_error (list line))) : Prop :=
  forall m s, exists m' e, c (m, s) = ((m', s), Ret (Err e)).

Lemma refused_usage text : refused (usage text).
Proof. intros m s. by eexists _, _. Qed.

Lemma refused_number what arg : refused (mret (Err (InvalidNumber what arg))).
Proof. intros m s. by eexists _, _. Qed.

Lemma refused_call {A} token t method (h : handler (Srv R T) A) print :
  token <> [] -> t <> token -> is_health method = false ->
  refused (calling (invoke token method h (outgoing t)) print).
Proof.
  intros Ht Hne Hm m s.
  destruct (invoke_refused token method h (outgoing t) m s Ht Hm) as (m' & st & HI & _).
  { intros v vs Hv. unfold outgoing in Hv. case_bool_decide as Hb; [|done].
    assert (v = bearerPrefix ++ t) as -> by (change bearerPrefix with ($"Bearer "); congruence). by rewrite presented_bearer. }
  exists m', (RPC st). unfold calling. by rewrite (bind_ret _ _ _ _ _ HI).
Qed.

Lemma refused_select cases cmd rest :
  Forall (fun c => forall rest, refused (c.2 rest)) cases -> refused (select cases cmd rest).
Proof.
  induction 1 as [|[name body] cases Hc Hcs IH]; cbn; [by intros m s; eexists _, _|].
  case_bool_decide; [apply Hc|apply IH].
Qed.

Ltac solve_refused Ht Hne :=
  match goal with
  | |- refused (usage _) => apply refused_usage
  | |- refused (mret _) => apply refused_number
  | |- refused (calling _ _) => apply (refused_call _ _ _ _ _ Ht Hne); vm_compute; reflexivity
  end.

(** C30: with another token than the node's, or none, no invocation of uddpctl changes
    the node's state, whatever the command and its arguments; each ends with an
    error. *)
Theorem ctl_unauthorized order fs readFile hasCerts env_token token args m (s : Srv R T) :
  let dial := fun (_ : bytes) (_ : Credentials) => @Ok oserr _ (node_clients token order) in
  token <> [] -> (if bool_decide (f_token fs = []) then env_token else f_token fs) <> token ->
  exists m' e, ctl_run readFile hasCerts env_token dial fs args (m, s) = ((m', s), Ret (Err e)).
Proof.
  intros dial Ht Hne. destruct args as [|cmd rest]; [by eexists _, _|].
  cbn [ctl_run]. destruct (dialCredentials _ _ _ _ _) as [cr|e]; [|by eexists _, _].
  unfold dial. apply refused_select. unfold commands.
  repeat (apply Forall_cons_2; [intros args; cbn [snd]|]); [..|apply Forall_nil_2];
    unfold cmd_get, cmd_put, cmd_delete, cmd_fetch, fetch_from, cmd_commit_offset, cmd_offset,
      cmd_add_node, cmd_remove_node, cmd_list_nodes, cmd_backup, cmd_restore, cmd_export,
      cmd_delete_namespace, cmd_usage, node_clients;
    cbn [c_Get c_Put c_Delete c_Fetch c_CommitOffset c_FetchOffset c_AddNode c_RemoveNode c_ListNodes
         c_CreateBackup c_RestoreBackup c_ExportNamespace c_DeleteNamespace c_GetUsage];
    repeat case_match; solve_refused Ht Hne.
Qed.

(** C33: uddpctl against a node, from the command line to the log and back: on a
    single node whose disk does not fail, with the node's token in the flag or
    the environment and its namespace, put prints the commit position and the
    profile of the node, and get then prints the value with that position as its
    version. *)
Theorem ctl_put_get order fs (readFile : bytes -> result oserr bytes) hasCerts env_token m
    (s : Srv R T) h a k v :
  let token := if bool_decide (f_token fs = []) then env_token else f_token fs in
  let dial := fun (_ : bytes) (_ : Credentials) => @Ok oserr _ (node_clients token order) in
  f_tlsCA fs = [] -> f_namespace fs = ID (Spec (sv_registry s)) ->
  sv_node s = None -> engine_inv (sv_engine s) h a -> calm_engine (sv_engine s) ->
  fits (e_log (sv_engine s)) (mkRecord 0 KindPut k v 0 []) -> k <> [] ->
  exists ms1 ms2,
    ctl_run readFile hasCerts env_token dial fs [$"put"; k; v] (m, s)
    = (ms1, Ret (Ok [[Str ($"committed at position "); Num (len h + 1); Str ($" (profile=");
                      Str (Profile (Spec (sv_registry s))); Str ($")")]])) /\
    ctl_run readFile hasCerts env_token dial fs [$"get"; k] ms1
    = (ms2, Ret (Ok [[Str v; Str tab; Str ($"(version="); Num (len h + 1); Str ($")")]])).
Proof.
  intros token dial Hca Hns Hn Hinv Hc Hfit Hk.
  destruct (StatePut_calm s h a k v Hn Hinv Hc Hfit Hk) as (s1 & resp & EP & Hpos & Hprof & Hreg & Hi).
  destruct (StateGet_stored s1 k v (len h + 1) Hk Hi) as (s2 & EG). rewrite Hreg in EG.
  destruct (invoke_authorized token ($"/uddp.native.v1.StateService/Put") _ m s s1 _ EP) as (m1 & IP).
  destruct (invoke_authorized token ($"/uddp.native.v1.StateService/Get") _ m1 s1 s2 _ EG) as (m2 & IG).
  assert (Hcr : exists cr, dialCredentials readFile hasCerts (f_tls fs) (f_tlsCA fs) (f_insecure fs) = Ok cr).
  { unfold dialCredentials. rewrite Hca. destruct (f_tls fs), (f_insecure fs); by eexists. }
  destruct Hcr as (cr & Hcr). exists (m1, s1), (m2, s2).
  unfold ctl_run. rewrite Hcr. fold token. unfold dial. rewrite Hns.
  cbv beta iota zeta. rewrite select_put, select_get. unfold cmd_put, cmd_get, calling. split.
  - by rewrite (bind_ret _ _ _ _ _ IP), Hpos, Hprof.
  - by rewrite (bind_ret _ _ _ _ _ IG).
Qed.

End node_clients.

#[local] Existing Instances demo_cmd_codec demo_raft demo_backup_codec.

Lemma ctl_put_get_witness :
  let fs := mkFlags ($"127.0.0.1:7070") ($"ns") false [] false ($"secret") in
  let dial := fun (_ : bytes) (_ : Credentials) => @Ok oserr _ (node_clients ($"secret") []) in
  exists ms1 ms2,
    ctl_run (fun _ => Err []) (fun _ => false) [] dial fs [$"put"; $"k"; $"v"]
      (mkMetrics ∅ [] (fun _ => 0), demo_srv (fresh_engine [] at100) ($"ns") (mkFS ∅ []))
    = (ms1, Ret (Ok [[Str ($"committed at position "); Num (len (@nil WalRecord) + 1);
                      Str ($" (profile="); Str ($"cache"); Str ($")")]])) /\
    ctl_run (fun _ => Err []) (fun _ => false) [] dial fs [$"get"; $"k"] ms1
    = (ms2, Ret (Ok [[Str ($"v"); Str tab; Str ($"(version="); Num (len (@nil WalRecord) + 1); Str ($")")]])).
Proof.
  refine (ctl_put_get [] (mkFlags ($"127.0.0.1:7070") ($"ns") false [] false ($"secret"))
    (fun _ => Err []) (fun _ => false) [] (mkMetrics ∅ [] (fun _ => 0))
    (demo_srv (fresh_engine [] at100) ($"ns") (mkFS ∅ [])) [] [] ($"k") ($"v")
    eq_refl eq_refl eq_refl (fresh_inv _ _) _ _ _); [done|by_decide|done].
Defined.

Lemma ctl_unauthorized_witness :
  exists m' e,
    ctl_run (fun _ => Err []) (fun _ => false) ($"guess")
      (fun (_ : bytes) (_ : Credentials) => @Ok oserr _ (node_clients ($"secret") []))
      (mkFlags [] ($"ns") false [] false []) [$"delete"; $"k"] (mkMetrics ∅ [] (fun _ => 0), srv1)
    = ((m', srv1), Ret (Err e)).
Proof.
  refine (ctl_unauthorized [] (mkFlags [] ($"ns") false [] false []) (fun _ => Err []) (fun _ => false)
            ($"guess") ($"secret") [$"delete"; $"k"] (mkMetrics ∅ [] (fun _ => 0)) srv1 _ _); done.
Defined.
