(* ===== verification/NodeMain.v ===== *)
(** * The node's start-up (cmd/uddp-node/main.go)

    Parsing of the peer list, the checks on the configuration, and [run] up to
    the point where the node serves.  The calls to the operating system and to
    the TLS library are arguments that give their outcomes; Lifecycle
    has the serving loop, signals and the HTTP listener. *)

From Stdlib Require Import ZArith Lia.
From S2P Require Import Prelude WalFormat Wal WalTheorems WalStore Engine EngineInvariant.
From S2P Require Import EngineTheorems Streaming Replication Node Catalog Backup Grpc Auth.
From S2P Require Import Observability Api ApiTheorems.

(** ** Peers *)

(** [strings.Split(s, sep)] for a one-byte separator. *)
Fixpoint Split (sep : byte) (s : bytes) : list bytes :=
  match s with
  | [] => [[]]
  | b :: s =>
    if bool_decide (b = sep) then [] :: Split sep s
    else match Split sep s with [] => [[b]] | x :: xs => (b :: x) :: xs end
  end.

(** [strings.SplitN(s, sep, 2)]: the parts before and behind the first separator. *)
Fixpoint SplitN2 (sep : byte) (s : bytes) : list bytes :=
  match s with
  | [] => [[]]
  | b :: s =>
    if bool_decide (b = sep) then [[]; s]
    else match SplitN2 sep s with [] => [[b]] | x :: xs => (b :: x) :: xs end
  end.

Definition comma : byte := x2c.
Definition equals : byte := x3d.

Definition parse_entry (entry : bytes) : option Peer :=
  match SplitN2 equals entry with
  | [id; addr] => if bool_decide (id = []) || bool_decide (addr = []) then None
                  else Some (mkPeer id addr)
  | _ => None
  end.

(** The loop of [parsePeers]: the first entry that is no pair ends it. *)
Fixpoint parse_entries (entries : list bytes) (peers : list Peer) : result bytes (list Peer) :=
  match entries with
  | [] => Ok peers
  | entry :: entries =>
    match parse_entry entry with
    | None => Err entry
    | Some p => parse_entries entries (peers ++ [p])
    end
  end.

(** [parsePeers]; the error carries the entry it quotes. *)
Definition parsePeers (s : bytes) : result bytes (list Peer) :=
  if bool_decide (s = []) then Ok [] else parse_entries (Split comma s) [].

(** ** Configuration *)

Record nodeConfig := mkNodeConfig {
  addr : bytes; httpAddr : bytes; dataDir : bytes; namespaceID : bytes; profile : bytes;
  tlsCert : bytes; tlsKey : bytes; authToken : bytes;
  raftID : bytes; raftAddr : bytes; raftPeers : list Peer; raftBootstrap : bool;
  raftTLSCert : bytes; raftTLSKey : bytes; raftTLSCA : bytes;
  redisAddr : bytes
}.

Definition orNone (s : bytes) : bytes := if bool_decide (s = []) then $"none" else s.

Definition set (s : bytes) : bool := bool_decide (s <> []).

Inductive start_error :=
| RaftIDRequired
| CatalogError (e : catalog_error)
| OSError (e : oserr)
| EngineError (e : open_error)
| OffsetsError (e : open_error)
| RaftTLSTogether
| StartReplication (e : oserr)
| TLSTogether
| LoadKeypair (e : oserr).

(** The outcomes of the calls [run] makes to the system. *)
Record start_env := mkStartEnv {
  se_mkdir : option oserr;
  se_raft : open_env;
  se_listen : option oserr;
  se_keypair : option oserr
}.

(** The two files of the data directory, while a node starts. *)
Record DataDir := mkDataDir { dd_wal : File; dd_offsets : File }.
Definition on_wal {A} (m : GoM File A) : GoM DataDir A :=
  zoom dd_wal (fun d f => mkDataDir f (dd_offsets d)) m.
Definition on_offsets {A} (m : GoM File A) : GoM DataDir A :=
  zoom dd_offsets (fun d f => mkDataDir (dd_wal d) f) m.

(** What a started node serves: its stores, its registry, the replication it has
    set up, whether its listener has TLS, and the RESP listener's address. *)
Record Started := mkStarted {
  st_engine : Engine;
  st_offsets : OffsetStore;
  st_registry : Registry;
  st_replication : option Opened;
  st_tls : bool;
  st_token : bytes;
  st_resp : option bytes
}.

Abbreviation starting A := (GoM DataDir (result start_error A)).

(** An error ends [run]. *)
Definition try {A B} (m : starting A) (k : A -> starting B) : starting B :=
  r ← m; match r with Ok a => k a | Err e => mret (Err e) end.
Definition returning {A} (r : result start_error A) : starting A := mret r.
Definition failing (f : oserr -> start_error) (e : option oserr) : starting unit :=
  returning (match e with Some e => Err (f e) | None => Ok tt end).

(** [filepath.Clean] on Unix: the elements of the path without empty ones and
    dots, each [..] taking back the element before it; [out] is the result so
    far, last element first. *)
Definition slash : byte := x2f.

Definition clean_step (rooted : bool) (out : list bytes) (elem : bytes) : list bytes :=
  if bool_decide (elem = []) || bool_decide (elem = $".") then out
  else if bool_decide (elem = $"..") then
    match out with
    | [] => if rooted then [] else [elem]
    | last :: rest => if bool_decide (last = $"..") then elem :: out else rest
    end
  else elem :: out.

Fixpoint slashed (elems : list bytes) : bytes :=
  match elems with
  | [] => []
  | [e] => e
  | e :: elems => e ++ slash :: slashed elems
  end.

Definition Clean (path : bytes) : bytes :=
  let rooted := bool_decide (head path = Some slash) in
  let elems := rev (fold_left (clean_step rooted) (Split slash path) []) in
  if rooted then slash :: slashed elems
  else match elems with [] => $"." | _ => slashed elems end.

(** [filepath.Join] of the data directory and a file name. *)
Definition Join (dir name : bytes) : bytes :=
  Clean (if bool_decide (dir = []) then name else dir ++ slash :: name).

Example Join_cleans :
  Join ($"./data") ($"raft") = $"data/raft" /\ Join [] ($"raft") = $"raft" /\
  Join ($"/var/lib/") ($"raft") = $"/var/lib/raft" /\ Join ($"a//b/../../..") ($"raft") = $"../raft" /\
  Join ($"/..") ($"raft") = $"/raft" /\ Join ($"a/..") ($".") = $".".
Proof. by vm_compute. Qed.

(** The raft TLS flags: all three or none. *)
Definition raft_tls (cfg : nodeConfig) : result start_error bool :=
  if set (raftTLSCert cfg) || set (raftTLSKey cfg) || set (raftTLSCA cfg) then
    if negb (set (raftTLSCert cfg) && set (raftTLSKey cfg) && set (raftTLSCA cfg))
    then Err RaftTLSTogether else Ok true
  else Ok false.

Definition replicationEnabled (cfg : nodeConfig) : bool := 0 <? len (raftPeers cfg).

Definition start_replication (env : start_env) (cfg : nodeConfig) : result start_error (option Opened) :=
  if replicationEnabled cfg then
    match raft_tls cfg with
    | Err e => Err e
    | Ok tls =>
      match Node.Open (se_raft env)
              (mkConfig (raftID cfg) (raftAddr cfg) (Join (dataDir cfg) ($"raft"))
                 (raftBootstrap cfg) (raftPeers cfg) 0 tls) with
      | Err e => Err (StartReplication e)
      | Ok n => Ok (Some n)
      end
    end
  else Ok None.

Definition server_tls (env : start_env) (cfg : nodeConfig) : result start_error bool :=
  if set (tlsCert cfg) || set (tlsKey cfg) then
    if negb (set (tlsCert cfg) && set (tlsKey cfg)) then Err TLSTogether else
    match se_keypair env with Some e => Err (LoadKeypair e) | None => Ok true end
  else Ok false.

Definition open_engine (clock : Clock) (path : bytes) : starting Engine :=
  r ← on_wal (Engine.Open clock path None);
  mret (match r with Ok e => Ok e | Err e => Err (EngineError e) end).

Definition open_offsets (path : bytes) : starting OffsetStore :=
  r ← on_offsets (Streaming.Open path);
  mret (match r with Ok o => Ok o | Err e => Err (OffsetsError e) end).

Definition node_run (clock : Clock) (env : start_env) (cfg : nodeConfig) : starting Started :=
  if replicationEnabled cfg && (negb (set (raftID cfg)) || negb (set (raftAddr cfg)))
  then mret (Err RaftIDRequired) else
  try (returning match NewNamespaceSpec (namespaceID cfg) (profile cfg) (replicationEnabled cfg) with
                 | Err e => Err (CatalogError e) | Ok spec => Ok spec end) (fun spec =>
  try (failing OSError (se_mkdir env)) (fun _ =>
  try (open_engine clock (Join (dataDir cfg) ($"partition-0.wal"))) (fun eng =>
  try (open_offsets (Join (dataDir cfg) ($"consumer-offsets.wal"))) (fun offsets =>
  try (returning (start_replication env cfg)) (fun repl =>
  try (failing OSError (se_listen env)) (fun _ =>
  try (returning (server_tls env cfg)) (fun tls =>
  mret (Ok (mkStarted eng offsets (NewRegistry spec) repl tls (authToken cfg)
              (if set (redisAddr cfg) then Some (redisAddr cfg) else None)))))))))).

(** The token the node requires: the flag, or the environment if it is empty. *)
Definition effective_token (flag env : bytes) : bytes :=
  if bool_decide (flag = []) then env else flag.

(** ** Peers: parse and print *)

Definition print_peer (p : Peer) : bytes := p_ID p ++ [equals] ++ p_Addr p.
Fixpoint print_peers (ps : list Peer) : bytes :=
  match ps with
  | [] => []
  | [p] => print_peer p
  | p :: ps => print_peer p ++ [comma] ++ print_peers ps
  end.

(** A peer that the flag can denote. *)
Definition plain_peer (p : Peer) : Prop :=
  p_ID p <> [] /\ p_Addr p <> [] /\ (equals ∉ p_ID p) /\ (comma ∉ p_ID p) /\ (comma ∉ p_Addr p).

Lemma SplitN2_first sep a b : sep ∉ a -> SplitN2 sep (a ++ sep :: b) = [a; b].
Proof.
  induction a as [|x a IH]; cbn; intros Ha; [by rewrite bool_decide_true|].
  apply not_elem_of_cons in Ha as [Hx Ha]. rewrite bool_decide_false by congruence. by rewrite IH.
Qed.

Lemma Split_one sep a : sep ∉ a -> Split sep a = [a].
Proof.
  induction a as [|x a IH]; cbn; intros Ha; [done|].
  apply not_elem_of_cons in Ha as [Hx Ha]. rewrite bool_decide_false by congruence. by rewrite IH.
Qed.

Lemma Split_first sep a b : sep ∉ a -> Split sep (a ++ sep :: b) = a :: Split sep b.
Proof.
  induction a as [|x a IH]; cbn; intros Ha; [by rewrite bool_decide_true|].
  apply not_elem_of_cons in Ha as [Hx Ha]. rewrite bool_decide_false by congruence. by rewrite IH.
Qed.

Lemma print_peer_no_comma p : plain_peer p -> comma ∉ print_peer p.
Proof.
  intros (_ & _ & _ & Hi & Ha). unfold print_peer. rewrite !elem_of_app, list_elem_of_singleton.
  intros [?|[?|?]]; done.
Qed.

Lemma Split_print ps : ps <> [] -> Forall plain_peer ps -> Split comma (print_peers ps) = print_peer <$> ps.
Proof.
  intros Hne Hp. induction Hp as [|p ps Hp Hps IH]; [done|].
  destruct ps as [|q ps]; [by apply Split_one, print_peer_no_comma|].
  change (print_peers (p :: q :: ps)) with (print_peer p ++ comma :: print_peers (q :: ps)).
  rewrite Split_first by (by apply print_peer_no_comma). by rewrite IH.
Qed.

Lemma parse_entry_print p : plain_peer p -> parse_entry (print_peer p) = Some p.
Proof.
  intros (Hi & Ha & He & _). unfold parse_entry, print_peer. cbn [app].
  rewrite SplitN2_first by done. rewrite !bool_decide_false by done. by destruct p.
Qed.

Lemma parse_entries_print ps acc :
  Forall plain_peer ps -> parse_entries (print_peer <$> ps) acc = Ok (acc ++ ps).
Proof.
  intros Hp. revert acc. induction Hp as [|p ps Hp Hps IH]; intros acc; cbn; [by rewrite app_nil_r|].
  by rewrite parse_entry_print, IH, <- app_assoc by done.
Qed.

Lemma parse_entries_sound es acc ps :
  parse_entries es acc = Ok ps ->
  exists ps', ps = acc ++ ps' /\ length ps' = length es /\
    Forall (fun p => p_ID p <> [] /\ p_Addr p <> []) ps'.
Proof.
  revert acc. induction es as [|e es IH]; intros acc; cbn.
  - intros [= <-]. exists []. by rewrite app_nil_r.
  - destruct (parse_entry e) as [p|] eqn:E; [|done]. intros (ps' & -> & Hl & Hf)%IH.
    exists (p :: ps'). rewrite <- app_assoc. cbn. split_and!; [done|by rewrite Hl|].
    constructor; [|done]. unfold parse_entry in E.
    destruct (SplitN2 equals e) as [|i [|a [|]]]; try done.
    destruct (bool_decide (i = [])) eqn:Ei; [done|].
    destruct (bool_decide (a = [])) eqn:Ea; [done|]. injection E as <-.
    by apply bool_decide_eq_false in Ei, Ea.
Qed.

(** The peer flag.  A printed list of peers parses to the same list, and what
    parses has an id and an address for every comma-separated entry. *)
Theorem peers_roundtrip :
  (forall ps, Forall plain_peer ps -> parsePeers (print_peers ps) = Ok ps) /\
  (forall s ps, parsePeers s = Ok ps -> s <> [] ->
     length ps = length (Split comma s) /\ Forall (fun p => p_ID p <> [] /\ p_Addr p <> []) ps).
Proof.
  split.
  - intros ps Hp. unfold parsePeers. destruct ps as [|p ps]; [done|].
    rewrite bool_decide_false.
    + rewrite Split_print by done. by apply (parse_entries_print _ []).
    + intros E. assert (Hs : Split comma (print_peers (p :: ps)) = [[]]) by by rewrite E.
      rewrite Split_print in Hs by done. cbn in Hs. injection Hs as Hs _.
      apply Forall_cons in Hp as [(Hi & _) _]. unfold print_peer in Hs. by destruct (p_ID p).
  - intros s ps. unfold parsePeers. case_bool_decide; [done|].
    intros (ps' & -> & Hl & Hf)%parse_entries_sound _. done.
Qed.

(** ** Starting *)

Lemma try_ok {A B} (m : starting A) (k : A -> starting B) d d' b :
  try m k d = (d', Ret (Ok b)) -> exists d1 a, m d = (d1, Ret (Ok a)) /\ k a d1 = (d', Ret (Ok b)).
Proof.
  unfold try, mbind, GoM_bind. destruct (m d) as [d1 [[a|e]| |]]; try done. by exists d1, a.
Qed.

Lemma try_step {A B} (m : starting A) (k : A -> starting B) d d1 a :
  m d = (d1, Ret (Ok a)) -> try m k d = k a d1.
Proof. intros H. unfold try. by rewrite (bind_ret _ _ _ _ _ H). Qed.

Lemma open_engine_ok clock path d f e :
  Engine.Open clock path None (dd_wal d) = (f, Ret (Ok e)) ->
  open_engine clock path d = (mkDataDir f (dd_offsets d), Ret (Ok e)).
Proof.
  intros H. unfold open_engine, on_wal. by erewrite bind_ret by (erewrite zoom_ret by exact H; done).
Qed.

Lemma open_offsets_ok path d f o :
  Streaming.Open path (dd_offsets d) = (f, Ret (Ok o)) ->
  open_offsets path d = (mkDataDir (dd_wal d) f, Ret (Ok o)).
Proof.
  intros H. unfold open_offsets, on_offsets. by erewrite bind_ret by (erewrite zoom_ret by exact H; done).
Qed.

Lemma returning_ok {A} (r : result start_error A) d d' a :
  returning r d = (d', Ret (Ok a)) -> d' = d /\ r = Ok a.
Proof. by intros [= -> ->]. Qed.

Lemma failing_ok f e d d' a : failing f e d = (d', Ret (Ok a)) -> d' = d /\ e = None.
Proof. unfold failing, returning. by destruct e as [e|]; intros [= ->]. Qed.

Lemma set_true s : set s = true <-> s <> [].
Proof. unfold set. apply bool_decide_eq_true. Qed.

Lemma set_false s : set s = false <-> s = [].
Proof. unfold set. rewrite bool_decide_eq_false. destruct s; naive_solver. Qed.

Lemma server_tls_ok env cfg b :
  server_tls env cfg = Ok b ->
  (b = true /\ tlsCert cfg <> [] /\ tlsKey cfg <> []) \/
  (b = false /\ tlsCert cfg = [] /\ tlsKey cfg = []).
Proof.
  unfold server_tls. rewrite <- !set_true, <- !set_false.
  destruct (set (tlsCert cfg)), (set (tlsKey cfg)); cbn; try done; [|by intros [= <-]; right].
  destruct (se_keypair env); [done|]. intros [= <-]. by left.
Qed.

Lemma start_replication_ok env cfg o :
  start_replication env cfg = Ok o ->
  (replicationEnabled cfg = false /\ o = None) \/
  (replicationEnabled cfg = true /\ exists tls n, o = Some n /\ raft_tls cfg = Ok tls).
Proof.
  unfold start_replication. destruct (replicationEnabled cfg); [|by intros [= <-]; left].
  destruct (raft_tls cfg) as [tls|]; [|done].
  destruct (Node.Open _ _) as [n|]; [|done]. intros [= <-]. right. split; [done|]. by exists tls, n.
Qed.

Lemma enabled_iff cfg : replicationEnabled cfg = true <-> raftPeers cfg <> [].
Proof.
  unfold replicationEnabled. rewrite Z.ltb_lt.
  destruct (raftPeers cfg) as [|p ps]; [done|]. rewrite len_cons. pose proof (len_nonneg ps).
  split; [done|lia].
Qed.

(** A node that starts is configured consistently: it serves the namespace and
    the profile of its flags, the namespace has a name, durable is declared only
    with raft running, raft runs exactly when peers are given and then the node
    has an id and an address, the listener has TLS exactly when certificate and
    key are given (one alone is refused), and the token is the configured one. *)
Theorem started_consistent clock env cfg d d' st :
  node_run clock env cfg d = (d', Ret (Ok st)) ->
  namespaceID cfg <> [] /\
  Spec (st_registry st) = mkSpec (namespaceID cfg) (profile cfg) /\
  (profile cfg = $"cache" \/ (profile cfg = $"durable" /\ st_replication st <> None)) /\
  (st_replication st <> None <-> raftPeers cfg <> []) /\
  (raftPeers cfg <> [] -> raftID cfg <> [] /\ raftAddr cfg <> []) /\
  (st_tls st = true <-> tlsCert cfg <> []) /\ (st_tls st = true <-> tlsKey cfg <> []) /\
  st_token st = authToken cfg.
Proof.
  unfold node_run. destruct (replicationEnabled cfg && _) eqn:Hid; [done|].
  intros (d1 & spec & H1 & H)%try_ok. apply returning_ok in H1 as [-> Hspec].
  apply try_ok in H as (d2 & [] & H2 & H). apply try_ok in H as (d3 & eng & _ & H).
  apply try_ok in H as (d4 & offs & _ & H). apply try_ok in H as (d5 & repl & H5 & H).
  apply try_ok in H as (d6 & [] & _ & H). apply try_ok in H as (d7 & tls & H7 & H).
  apply returning_ok in H5 as [-> H5], H7 as [-> H7]. injection H as _ <-. cbn.
  destruct (NewNamespaceSpec _ _ _) as [sp|] eqn:E; [|done]. injection Hspec as ->.
  apply NewNamespaceSpec_ok in E as (Hne & Hprof & ->).
  pose proof (enabled_iff cfg) as Hen. apply server_tls_ok in H7.
  assert (Hrepl : repl <> None <-> replicationEnabled cfg = true).
  { destruct (start_replication_ok _ _ _ H5) as [[-> ->]|[-> (tls' & n & -> & _)]]; [|done].
    by split; intros ?. }
  split_and!; try done.
  - destruct Hprof as [?|[? Hr]]; [by left|right]. split; [done|]. by apply Hrepl.
  - by rewrite Hrepl.
  - intros Hp. apply Hen in Hp. rewrite Hp in Hid. cbn in Hid. apply orb_false_elim in Hid as [Hi Ha].
    apply negb_false_iff in Hi, Ha. by rewrite <- !set_true.
  - destruct H7 as [(-> & ? & _)|(-> & ? & _)]; done.
  - destruct H7 as [(-> & _ & ?)|(-> & _ & ?)]; done.
Qed.

(** C35: a node restarts after a crash.  Started on the files that a running node
    leaves behind, with a valid configuration and no failing call, a node comes up
    whose engine is the fold of a prefix of the old log with every durable commit
    and whose offset store keeps every acknowledged consumer offset. *)
Theorem node_restarts clock env cfg e h a s ho k ko :
  engine_inv e h a -> (f_synced (w_file (e_log e)) <= k)%nat ->
  offsets_inv s ho -> (f_synced (w_file (o_log s)) <= ko)%nat ->
  namespaceID cfg <> [] -> profile cfg = $"cache" -> raftPeers cfg = [] ->
  tlsCert cfg = [] -> tlsKey cfg = [] -> se_mkdir env = None -> se_listen env = None ->
  exists d' st m mo,
    node_run clock env cfg
      (mkDataDir (crash k (w_file (e_log e))) (crash ko (w_file (o_log s)))) = (d', Ret (Ok st)) /\
    engine_inv (st_engine st) (take m h) (take m h) /\
    (forall p, durable (e_log e) h p -> p <= Z.of_nat m) /\
    offsets_inv (st_offsets st) (take mo ho) /\
    (forall group o, at_least group o s ho -> at_least group o (st_offsets st) (take mo ho)).
Proof.
  intros Hinv Hk Hoff Hko Hns Hprof Hpeers Hcert Hkey Hmk Hls.
  destruct (engine_restart clock (Join (dataDir cfg) ($"partition-0.wal")) None e h a k Hinv Hk)
    as (m & f' & e' & HO & Hinv' & _ & Hp).
  destruct (offsets_restart (Join (dataDir cfg) ($"consumer-offsets.wal")) s ho ko Hoff Hko)
    as (mo & fo & s' & HS & Hoff' & Hall).
  assert (Hen : replicationEnabled cfg = false) by (unfold replicationEnabled; by rewrite Hpeers).
  unfold node_run, start_replication, server_tls. rewrite Hen, Hcert, Hkey, Hmk, Hls.
  assert (Hspec : NewNamespaceSpec (namespaceID cfg) (profile cfg) false
                  = Ok (mkSpec (namespaceID cfg) (profile cfg))).
  { apply NewNamespaceSpec_ok. auto. }
  rewrite Hspec. cbn [andb].
  do 2 erewrite try_step by reflexivity.
  rewrite (try_step _ _ _ _ _ (open_engine_ok _ _ (mkDataDir _ _) _ _ HO)).
  rewrite (try_step _ _ _ _ _ (open_offsets_ok _ (mkDataDir _ _) _ _ HS)).
  eexists _, _, m, mo. split; [reflexivity|]. cbn. split_and!; try done. intros p Hd. by apply Hp.
Qed.

Definition demo_cfg : nodeConfig :=
  mkNodeConfig ($"127.0.0.1:7070") ($"127.0.0.1:7071") ($"data") ($"default") ($"cache") [] [] []
    [] [] [] false [] [] [] [].
Definition demo_env : start_env :=
  mkStartEnv None (mkOpenEnv None None None None None None None None) None None.

Lemma fresh_offsets_inv : offsets_inv fresh_offsets [].
Proof. split; [exact (ei_log _ _ _ (fresh_inv [] at100))|constructor]. Qed.

Lemma node_restarts_witness :
  exists d' st m mo,
    node_run at100 demo_env demo_cfg
      (mkDataDir (crash 100 (w_file (e_log after_put1))) (crash 5 (w_file (o_log fresh_offsets))))
    = (d', Ret (Ok st)) /\
    engine_inv (st_engine st) (take m log1) (take m log1) /\
    (forall p, durable (e_log after_put1) log1 p -> p <= Z.of_nat m) /\
    offsets_inv (st_offsets st) (take mo []) /\
    (forall group o, at_least group o fresh_offsets [] -> at_least group o (st_offsets st) (take mo [])).
Proof.
  refine (node_restarts at100 demo_env demo_cfg after_put1 log1 log1 fresh_offsets [] _ _
            (proj1 after_put1_inv) _ fresh_offsets_inv _ _ _ _ _ _ _ _); by_decide || done.
Defined.
