(* ===== verification/Lifecycle.v ===== *)
(** * A node from serving to exit (cmd/uddp-node/main.go, the second half of run)

    What [run] sets up once the node's stores are open: the gRPC server with its
    in-flight calls and health streams, the health status, the HTTP and RESP
    listeners, and the goroutine that handles a signal; then the return of [Serve]
    and the deferred calls.  The goroutines interleave freely.  A call of a service
    is the calls it makes on the stores, deletions and restores included; on a
    replicated node the state machine makes such calls too.  Of the gRPC and HTTP
    servers the model has what their documentation says: [GracefulStop] takes no
    new calls and waits for those in flight, [Serve] returns after that, and
    [Shutdown] closes the listener and waits for the requests in flight.  When a
    call, a stream or a request ends is up to its handler and its client.  Writes
    have room in the log ([allowed], [fits]); a handler that panics ends the
    process, which is no step here. *)

From Stdlib Require Import ZArith Lia.
From stdpp Require Import relations.
From S2P Require Import Prelude WalFormat Wal WalInvariant WalStore Engine EngineInvariant EngineTheorems Store.
From S2P Require Import Streaming Replication Node Catalog Backup Grpc Auth Observability Api ApiTheorems NodeMain.

(** ** The HTTP endpoints *)

(** Status, content type and body; [metrics] is the rendered registry. *)
Definition http_handle (metrics path : bytes) : Z * bytes * bytes :=
  if bool_decide (path = $"/metrics") then (200, $"text/plain", metrics)
  else if bool_decide (path = $"/healthz") then
    (200, $"application/json", ([x7b; x22] ++ $"status" ++ [x22; x3a; x22] ++ $"ready" ++ [x22; x7d])%list)
  else (404, $"text/plain", $"404 page not found").

(** ** The process *)

Inductive serving_status := SERVING | NOT_SERVING.
Inductive http_state := HttpListening | HttpFailed | HttpClosing | HttpShut.
Inductive grpc_state := Accepting | Draining | Stopped.

(** The signal's goroutine: waiting for the signal, then at or inside each of its
    calls ([SigHttpWait] and [SigStopping] are inside). *)
Inductive sig_pc := SigWait | SigStatus | SigHttp | SigHttpWait | SigGrpc | SigStopping | SigDone.

Inductive deferred := ShutdownRaft | CloseOffsets | CloseEngine.

(** [run]: in [Serve], returning through its deferred calls, or returned. *)
Inductive main_pc := InServe | Returning (ds : list deferred) | RunReturned.

Record proc := mkProc {
  p_engine : Engine;
  p_offsets : OffsetStore;
  p_raft : bool;                (* raft participates *)
  p_resp : bool;                (* the RESP listener was started *)
  p_health : serving_status;
  p_http : http_state;
  p_requests : nat;             (* HTTP requests in flight *)
  p_grpc : grpc_state;
  p_calls : nat;                (* unary calls in flight *)
  p_watches : nat;              (* health Watch streams *)
  p_sig : sig_pc;
  p_main : main_pc;
  p_failed : bool;              (* [Serve] failed *)
  p_done : list deferred        (* the deferred calls that were made *)
}.

Definition set_engine (p : proc) (e : Engine) : proc :=
  mkProc e (p_offsets p) (p_raft p) (p_resp p) (p_health p) (p_http p) (p_requests p)
    (p_grpc p) (p_calls p) (p_watches p) (p_sig p) (p_main p) (p_failed p) (p_done p).
Definition set_offsets (p : proc) (o : OffsetStore) : proc :=
  mkProc (p_engine p) o (p_raft p) (p_resp p) (p_health p) (p_http p) (p_requests p)
    (p_grpc p) (p_calls p) (p_watches p) (p_sig p) (p_main p) (p_failed p) (p_done p).
Definition set_raft (p : proc) (b : bool) : proc :=
  mkProc (p_engine p) (p_offsets p) b (p_resp p) (p_health p) (p_http p) (p_requests p)
    (p_grpc p) (p_calls p) (p_watches p) (p_sig p) (p_main p) (p_failed p) (p_done p).
Definition set_health (p : proc) (h : serving_status) : proc :=
  mkProc (p_engine p) (p_offsets p) (p_raft p) (p_resp p) h (p_http p) (p_requests p)
    (p_grpc p) (p_calls p) (p_watches p) (p_sig p) (p_main p) (p_failed p) (p_done p).
Definition set_http (p : proc) (h : http_state) : proc :=
  mkProc (p_engine p) (p_offsets p) (p_raft p) (p_resp p) (p_health p) h (p_requests p)
    (p_grpc p) (p_calls p) (p_watches p) (p_sig p) (p_main p) (p_failed p) (p_done p).
Definition set_requests (p : proc) (n : nat) : proc :=
  mkProc (p_engine p) (p_offsets p) (p_raft p) (p_resp p) (p_health p) (p_http p) n
    (p_grpc p) (p_calls p) (p_watches p) (p_sig p) (p_main p) (p_failed p) (p_done p).
Definition set_grpc (p : proc) (g : grpc_state) : proc :=
  mkProc (p_engine p) (p_offsets p) (p_raft p) (p_resp p) (p_health p) (p_http p)
    (p_requests p) g (p_calls p) (p_watches p) (p_sig p) (p_main p) (p_failed p) (p_done
    p).
Definition set_calls (p : proc) (n : nat) : proc :=
  mkProc (p_engine p) (p_offsets p) (p_raft p) (p_resp p) (p_health p) (p_http p)
    (p_requests p) (p_grpc p) n (p_watches p) (p_sig p) (p_main p) (p_failed p) (p_done p).
Definition set_watches (p : proc) (n : nat) : proc :=
  mkProc (p_engine p) (p_offsets p) (p_raft p) (p_resp p) (p_health p) (p_http p)
    (p_requests p) (p_grpc p) (p_calls p) n (p_sig p) (p_main p) (p_failed p) (p_done p).
Definition set_sig (p : proc) (s : sig_pc) : proc :=
  mkProc (p_engine p) (p_offsets p) (p_raft p) (p_resp p) (p_health p) (p_http p)
    (p_requests p) (p_grpc p) (p_calls p) (p_watches p) s (p_main p) (p_failed p) (p_done
    p).
Definition set_main (p : proc) (m : main_pc) : proc :=
  mkProc (p_engine p) (p_offsets p) (p_raft p) (p_resp p) (p_health p) (p_http p)
    (p_requests p) (p_grpc p) (p_calls p) (p_watches p) (p_sig p) m (p_failed p) (p_done
    p).
Definition set_failed (p : proc) : proc :=
  mkProc (p_engine p) (p_offsets p) (p_raft p) (p_resp p) (p_health p) (p_http p)
    (p_requests p) (p_grpc p) (p_calls p) (p_watches p) (p_sig p) (p_main p) true (p_done
    p).

(** A deferred call was made and [ds] are left. *)
Definition next_deferred (p : proc) (d : deferred) (ds : list deferred) : proc :=
  mkProc (p_engine p) (p_offsets p) (p_raft p) (p_resp p) (p_health p) (p_http p)
    (p_requests p) (p_grpc p) (p_calls p) (p_watches p) (p_sig p) (Returning ds) (p_failed
    p) (p_done p ++ [d]).

(** The process behind the set-up: everything listens and the status is SERVING. *)
Definition serve_init (st : Started) : proc :=
  mkProc (st_engine st) (st_offsets st) (bool_decide (is_Some (st_replication st)))
    (bool_decide (is_Some (st_resp st))) SERVING HttpListening 0 Accepting 0 0 SigWait InServe
    false [].

(** The deferred calls, last one first. *)
Definition deferreds (p : proc) : list deferred :=
  (if p_raft p then [ShutdownRaft] else []) ++ [CloseOffsets; CloseEngine].

(** ** What is done on the engine *)

(** The calls of the abstract store, and [Reset] with its result. *)
Inductive life_event := LStore (ev : event) | LReset (r : option reset_error).

Definition no_restart (c : Store.call) : Prop := match c with CRestart _ _ _ _ => False | _ => True end.

(** A call on the engine: a call of the abstract store; any fetch, which on a log
    with a failed write or a failing file the store says nothing about; snapshots
    and clock reads, which change no more than the clock; and [Reset]. *)
Inductive engine_work : Engine -> list life_event -> Engine -> Prop :=
| work_call e c ev e' :
    no_restart c -> allowed e c -> engine_step e c ev e' -> engine_work e [LStore ev] e'
| work_fetch e from limit r e' : Engine.Fetch from limit e = (e', Ret r) -> engine_work e [] e'
| work_reads e e' : same_but_clock e e' -> engine_work e [] e'
| work_reset e r e' : Reset e = (e', Ret r) -> engine_work e [LReset r] e'.

(** The abstract store through these: [Reset] empties it; one that fails leaves
    what readers see, but its file may be gone, so nothing of it is safe. *)
Inductive life_store : store -> list life_event -> store -> Prop :=
| lst_none s : life_store s [] s
| lst_event s tr s1 ev s2 :
    life_store s tr s1 -> store_step s1 ev s2 -> life_store s (tr ++ [LStore ev]) s2
| lst_reset s tr s1 : life_store s tr s1 -> life_store s (tr ++ [LReset None]) (mkStore [] [] 0)
| lst_reset_fails s tr s1 er :
    life_store s tr s1 -> life_store s (tr ++ [LReset (Some er)]) (mkStore (disk s1) (seen s1) 0).

(** ** Steps *)

(** The steps of the services and listeners, each with what it does on the
    engine.  RESP clients do not reset; [Serve] fails when [Accept] does, unless
    the server is being stopped. *)
Inductive work_step : proc -> list life_event -> proc -> Prop :=
| call_begins p : p_grpc p = Accepting -> work_step p [] (set_calls p (S (p_calls p)))
| watch_begins p : p_grpc p = Accepting -> work_step p [] (set_watches p (S (p_watches p)))
| request_begins p : p_http p = HttpListening -> work_step p [] (set_requests p (S (p_requests p)))
| call_engine p n evs e' :
    p_calls p = S n -> engine_work (p_engine p) evs e' -> work_step p evs (set_engine p e')
| call_offsets p n group o o' r :
    p_calls p = S n -> is_u64 o -> fits (o_log (p_offsets p)) (offset_record group o) ->
    Commit group o (p_offsets p) = (o', Ret r) -> work_step p [] (set_offsets p o')
| raft_engine p evs e' :
    p_raft p = true -> engine_work (p_engine p) evs e' -> work_step p evs (set_engine p e')
| resp_engine p evs e' :
    p_resp p = true -> engine_work (p_engine p) evs e' -> (forall r, evs <> [LReset r]) ->
    work_step p evs (set_engine p e')
| http_fails p : p_http p = HttpListening -> work_step p [] (set_http p HttpFailed)
| signalled p : p_sig p = SigWait -> work_step p [] (set_sig p SigStatus)
| serve_fails p :
    p_main p = InServe -> p_grpc p = Accepting ->
    work_step p [] (set_main (set_failed p) (Returning (deferreds p))).

(** What handlers and clients end. *)
Inductive ends_step : proc -> proc -> Prop :=
| call_ends p n : p_calls p = S n -> ends_step p (set_calls p n)
| watch_ends p n : p_watches p = S n -> ends_step p (set_watches p n)
| request_ends p n : p_requests p = S n -> ends_step p (set_requests p n).

(** The steps of the signal's goroutine and of [run]. *)
Inductive shut_step : proc -> proc -> Prop :=
| sig_status p : p_sig p = SigStatus -> shut_step p (set_sig (set_health p NOT_SERVING) SigHttp)
| sig_http p : p_sig p = SigHttp -> shut_step p (set_sig (set_http p HttpClosing) SigHttpWait)
| sig_http_done p :
    p_sig p = SigHttpWait -> p_requests p = 0%nat -> shut_step p (set_sig (set_http p HttpShut) SigGrpc)
| sig_stop p : p_sig p = SigGrpc -> shut_step p (set_sig (set_grpc p Draining) SigStopping)
| sig_drained p :
    p_sig p = SigStopping -> p_calls p = 0%nat -> p_watches p = 0%nat ->
    shut_step p (set_sig (set_grpc p Stopped) SigDone)
| serve_returns p :
    p_main p = InServe -> p_grpc p = Stopped -> shut_step p (set_main p (Returning (deferreds p)))
| defer_raft p ds :
    p_main p = Returning (ShutdownRaft :: ds) -> shut_step p (next_deferred (set_raft p false) ShutdownRaft ds)
| defer_offsets p ds o' r :
    p_main p = Returning (CloseOffsets :: ds) -> Streaming.Close (p_offsets p) = (o', Ret r) ->
    shut_step p (next_deferred (set_offsets p o') CloseOffsets ds)
| defer_engine p ds e' r :
    p_main p = Returning (CloseEngine :: ds) -> Engine.Close (p_engine p) = (e', Ret r) ->
    shut_step p (next_deferred (set_engine p e') CloseEngine ds)
| run_returns p : p_main p = Returning [] -> shut_step p (set_main p RunReturned).

(** When [run] has returned the process is gone. *)
Inductive life_step : proc -> list life_event -> proc -> Prop :=
| life_work p evs p' : p_main p <> RunReturned -> work_step p evs p' -> life_step p evs p'
| life_ends p p' : p_main p <> RunReturned -> ends_step p p' -> life_step p [] p'
| life_shut p p' : p_main p <> RunReturned -> shut_step p p' -> life_step p [] p'.

Inductive life_run : proc -> list life_event -> proc -> Prop :=
| life_none p : life_run p [] p
| life_then p tr p1 evs p2 : life_run p tr p1 -> life_step p1 evs p2 -> life_run p (tr ++ evs) p2.

(** ** Closing and resetting an idle log *)

(** An idle log whose file changed no byte. *)
Lemma keep_file w h f' :
  log_inv w h -> f_data f' = f_data (w_file w) -> f_synced f' = f_synced (w_file w) ->
  log_inv (set_file w f') h.
Proof.
  intros [Hw Hl Hf H5] Hd Hs. split; cbn; rewrite ?Hs; [|done|by intros; apply Hf|done].
  apply set_file_inv; [done..|]. rewrite Hs. apply Hw.
Qed.

(** Nothing is buffered between two calls, so closing changes no byte. *)
Lemma Close_idle w h :
  log_inv w h -> exists w' e, Wal.Close w = (w', Ret e) /\ log_inv w' h /\
    f_synced (w_file w') = f_synced (w_file w) /\ (e = None -> f_closed (w_file w') = true).
Proof.
  assert (Hsame : set_io w (w_file w, w_w w) = w) by (by destruct w).
  intros Hlog. pose proof Hlog as [Hw Hl Hf H5]. unfold Wal.Close, mbind, GoM_bind. cbn.
  rewrite Hl. unfold zoom, io_of. destruct (b_err (w_w w)) as [er|] eqn:Hb.
  { rewrite (bufio_Flush_stuck _ _ er) by done. do 2 eexists. split; [reflexivity|].
    rewrite Hsame. by split_and!. }
  unfold bufio_Flush. rewrite Hb, Hf by done. rewrite Hsame.
  unfold File_Close, syscall, mbind, GoM_bind. cbn.
  destruct (f_closed (w_file w)) eqn:Ec; cbn; do 2 eexists; (split; [reflexivity|]);
    (split; [by apply keep_file|]); by split_and!.
Qed.

Lemma simulates_log e st w' safe' :
  simulates e st -> log_inv w' (disk st) ->
  (safe' = 0 \/ safe' = safe st /\ f_synced (w_file w') = f_synced (w_file (e_log e))) ->
  simulates (set_log e w') (mkStore (disk st) (seen st) safe').
Proof.
  intros [[Hlog Ht Ha Hi] Hsafe] Hw Hs. split; [by split|]. cbn.
  destruct Hs as [->|[-> Hsy]]; [by left|]. destruct Hsafe as [|[Hp Hd]]; [by left|right].
  split; [done|]. by rewrite Hsy.
Qed.

Lemma engine_close e st :
  simulates e st -> exists e' r, Engine.Close e = (e', Ret r) /\ simulates e' st /\
    (r = None -> f_closed (w_file (e_log e')) = true).
Proof.
  intros Hsim. destruct (Close_idle _ _ (ei_log _ _ _ (proj1 Hsim))) as (w' & r & E & Hlog' & Hsy & Hcl).
  exists (set_log e w'), r. split; [unfold Engine.Close; by erewrite zoom_ret by exact E|].
  split; [|done]. pose proof (simulates_log e st w' (safe st) Hsim Hlog' (or_intror (conj eq_refl Hsy))).
  by destruct st.
Qed.

Lemma offsets_close o h :
  offsets_inv o h -> exists o' r, Streaming.Close o = (o', Ret r) /\ offsets_inv o' h /\
    (r = None -> f_closed (w_file (o_log o')) = true).
Proof.
  intros [Hlog Hv]. destruct (Close_idle _ _ Hlog) as (w' & r & E & Hlog' & _ & Hcl).
  eexists _, r. split; [unfold Streaming.Close; by erewrite zoom_ret by exact E|]. by split; [split|].
Qed.

(** A log that is created where nothing is, whatever fails on the way. *)
Lemma Open_removed path ws sys :
  match (Wal.Open path (None : option (replayer unit)) tt (mkFile [] 0 false None ws sys)).2 with
  | Ret (Ok (w, _)) => log_inv w []
  | Ret (Err _) => True
  | _ => False
  end.
Proof.
  assert (Hnew : forall ws sys, log_inv (mkWAL path (mkFile walHeader 5 false None ws sys)
            (mkWriter [] None) 1 [] 0 0 None false 5) []) by (intros; by split).
  destruct sys as [|[er|] sys]; [|exact I|].
  { destruct ws as [|[[n er]|] ws]; [apply Hnew|exact I|apply Hnew]. }
  destruct sys as [|[er|] sys]; [|exact I|].
  { destruct ws as [|[[n er]|] ws]; [apply Hnew|exact I|apply Hnew]. }
  destruct ws as [|[[n er]|] ws]; [|exact I|];
    (destruct sys as [|[er|] sys]; [apply Hnew|exact I|]);
    (destruct sys as [|[er|] sys]; [apply Hnew|exact I|]);
    (destruct sys as [|[er|] sys]; [apply Hnew|exact I|apply Hnew]).
Qed.

Lemma reset_simulates e st e' r :
  simulates e st -> Reset e = (e', Ret r) ->
  simulates e' (match r with None => mkStore [] [] 0 | Some _ => mkStore (disk st) (seen st) 0 end).
Proof.
  intros Hsim. destruct (Close_idle _ _ (ei_log _ _ _ (proj1 Hsim))) as (w' & err & E & Hlog' & _ & _).
  pose proof (simulates_log e st w' 0 Hsim Hlog' (or_introl eq_refl)) as Hs'.
  unfold Reset. rewrite (bind_ret _ _ e e e) by done.
  erewrite bind_ret; [|by erewrite zoom_ret by exact E].
  destruct err as [err|]; [by intros [= <- <-]|].
  rewrite (bind_ret _ _ (set_log e w') (set_log e w') w') by done.
  destruct (os_Remove (w_file w')) as [f [er|]] eqn:Er; [by intros [= <- <-]|].
  assert (Hf : exists ws sys, f = mkFile [] 0 false None ws sys)
    by (unfold os_Remove, removed, syscall in Er; cbn in Er;
        destruct (f_sys (w_file w')) as [|[?|] ?]; injection Er; intros; subst; eauto).
  destruct Hf as (ws & sys & ->). pose proof (Open_removed (Path (e_log e)) ws sys) as HO.
  unfold mbind, GoM_bind, lift_go. destruct (Wal.Open _ _ _ _).2 as [[[w u]|er]| |]; try done.
  - cbn. intros [= <- <-]. split; [|by left]. by split.
  - by intros [= <- <-].
Qed.

Lemma fetch_simulates e st from limit e' r :
  simulates e st -> Engine.Fetch from limit e = (e', Ret r) -> simulates e' st.
Proof.
  intros Hsim. assert (Hr : forall w' res, ReadRange from limit (e_log e) = (w', Ret res) ->
            w' = e_log e \/ exists f', w' = set_file (e_log e) f' /\ f_data f' = f_data (w_file (e_log e)) /\
              f_synced f' = f_synced (w_file (e_log e))).
  { intros w' res. unfold ReadRange. rewrite (bind_ret _ _ (e_log e) (e_log e) (e_log e)) by done.
    destruct (_ || _); [intros [= <- _]; by left|]. destruct (_ <=? _); [done|].
    unfold zoom, syscall, mbind, GoM_bind. intros H. right.
    destruct (f_closed (w_file (e_log e))); cbn in H.
    { injection H as <- _. by eexists. }
    destruct (f_sys (w_file (e_log e))) as [|[er|] l]; cbn in H;
      try (destruct (maxAlloc <? limit * sizeofRecord); [done|]); injection H as <- _; by eexists. }
  unfold Engine.Fetch, zoom, mbind, GoM_bind.
  destruct (ReadRange from limit (e_log e)) as [w' [[recs er]| |]] eqn:E; try done.
  intros He. assert (e' = set_log e w') as -> by (destruct er; by injection He).
  destruct (Hr _ _ eq_refl) as [->|(f' & -> & Hd & Hs)]; [by destruct e|].
  pose proof (simulates_log e st (set_file (e_log e) f') (safe st) Hsim
                (keep_file _ _ _ (ei_log _ _ _ (proj1 Hsim)) Hd Hs) (or_intror (conj eq_refl Hs))).
  by destruct st.
Qed.

Lemma engine_work_inv st0 e tr evs e' :
  (exists st, life_store st0 tr st /\ simulates e st) -> engine_work e evs e' ->
  exists st, life_store st0 (tr ++ evs) st /\ simulates e' st.
Proof.
  intros (st & Hrun & Hsim) Hw. revert Hsim.
  destruct Hw as [e c ev e' _ Hok Hst|e from limit r e' HF|e e' Hs|e r e' HR]; intros Hsim.
  - destruct (step_simulated _ _ c Hsim Hok) as (ev' & e1 & st' & Hst' & Hss & Hsim').
    destruct (engine_step_det _ _ _ _ _ _ Hst Hst') as [<- <-]. exists st'. split; [|done].
    by eapply lst_event.
  - rewrite app_nil_r. exists st. split; [done|]. by eapply fetch_simulates.
  - rewrite app_nil_r. exists st. split; [done|]. destruct Hsim as [Hinv Hsafe].
    split; [by eapply engine_inv_clock|]. by destruct Hs as (-> & _).
  - eexists. split; [|by eapply reset_simulates]. destruct r; [by apply lst_reset_fails|by eapply lst_reset].
Qed.

(** ** The invariant *)

(** What the signal's goroutine has done so far. *)
Definition past_status (s : sig_pc) : Prop := match s with SigWait | SigStatus => False | _ => True end.
Definition past_http (s : sig_pc) : Prop :=
  match s with SigWait | SigStatus | SigHttp | SigHttpWait => False | _ => True end.
Definition grpc_at (s : sig_pc) : grpc_state :=
  match s with SigStopping => Draining | SigDone => Stopped | _ => Accepting end.

(** The deferred calls still to be made. *)
Definition to_defer (p : proc) : list deferred :=
  match p_main p with InServe => deferreds p | Returning ds => ds | RunReturned => [] end.

(** [raft]: whether the node was started with replication. *)
Record life_inv (st0 : store) (raft : bool) (p : proc) (tr : list life_event) : Prop := {
  lf_store : exists st, life_store st0 tr st /\ simulates (p_engine p) st;
  lf_offsets : exists h, offsets_inv (p_offsets p) h;
  lf_health : past_status (p_sig p) -> p_health p = NOT_SERVING;
  lf_closing : p_sig p = SigHttpWait -> p_http p = HttpClosing;
  lf_http : past_http (p_sig p) -> p_http p = HttpShut /\ p_requests p = 0%nat;
  lf_grpc : p_grpc p = grpc_at (p_sig p);
  lf_calls : p_sig p = SigDone -> p_calls p = 0%nat /\ p_watches p = 0%nat;
  lf_main : p_failed p = false -> p_main p <> InServe -> p_sig p = SigDone;
  lf_raft : p_main p = InServe -> p_raft p = raft;
  lf_defer : p_done p ++ to_defer p = (if raft then [ShutdownRaft] else []) ++ [CloseOffsets; CloseEngine]
}.

Lemma work_inv st0 raft p tr evs p' :
  life_inv st0 raft p tr -> work_step p evs p' -> life_inv st0 raft p' (tr ++ evs).
Proof.
  intros [Hst (h & Ho) Hh Hcl Hht Hg Hc Hm Hr Hd] Hs.
  destruct Hs as [p Ha|p Ha|p Ha|p n evs e' Hn Hw|p n g o o' r Hn Hu Hf Hcm|p evs e' Hn Hw|p evs e' Hn Hw _
                 |p Hp|p Hp|p Hp Ha]; rewrite ?app_nil_r; split; cbn in *; eauto using engine_work_inv.
  - intros Hsd. rewrite Hg, Hsd in Ha. done.
  - intros Hsd. rewrite Hg, Hsd in Ha. done.
  - intros Hpast. destruct (Hht Hpast). congruence.
  - destruct (Commit_spec g o _ h Ho Hf Hu) as (s' & r' & h' & E & Hinv' & _).
    rewrite Hcm in E. injection E as <- <-. eauto.
  - intros Hsd. specialize (Hcl Hsd). congruence.
  - intros Hpast. destruct (Hht Hpast). congruence.
  - done.
  - done.
  - done.
  - by rewrite Hg, Hp.
  - done.
  - intros Hf Hne. by rewrite (Hm Hf Hne) in Hp.
  - done.
  - unfold to_defer in Hd. by rewrite Hp in Hd.
Qed.

Lemma ends_inv st0 raft p tr p' :
  life_inv st0 raft p tr -> ends_step p p' -> life_inv st0 raft p' tr.
Proof.
  intros [Hst Ho Hh Hcl Hht Hg Hc Hm Hr Hd] Hs.
  destruct Hs as [p n Hn|p n Hn|p n Hn]; split; cbn in *; eauto.
  - intros Hsd. destruct (Hc Hsd). congruence.
  - intros Hsd. destruct (Hc Hsd). congruence.
  - intros Hsd. destruct (Hht Hsd). congruence.
Qed.

Lemma shut_inv st0 raft p tr p' :
  life_inv st0 raft p tr -> shut_step p p' -> life_inv st0 raft p' tr.
Proof.
  intros [Hst (h & Ho) Hh Hcl Hht Hg Hc Hm Hr Hd] Hs. unfold to_defer in Hd.
  destruct Hs as [p Hp|p Hp|p Hp Hn|p Hp|p Hp Hn Hw|p Hp Hgr|p ds Hp|p ds o' r Hp E|p ds e' r Hp E|p Hp];
    split; cbn in *; rewrite ?Hp in *; eauto; try done.
  all: try (intros Hf Hne; by specialize (Hm Hf Hne)).
  - intros _ _. rewrite Hgr in Hg. by destruct (p_sig p).
  - by rewrite <- app_assoc.
  - destruct (offsets_close _ _ Ho) as (o1 & r1 & E1 & Ho1 & _). rewrite E in E1. injection E1 as <- <-. by exists h.
  - by rewrite <- app_assoc.
  - destruct Hst as (st & Hrun & Hsim). destruct (engine_close _ _ Hsim) as (e1 & r1 & E1 & Hs1 & _).
    rewrite E in E1. injection E1 as <- <-. eauto.
  - by rewrite <- app_assoc.
Qed.

Lemma life_step_inv st0 raft p tr evs p' :
  life_inv st0 raft p tr -> life_step p evs p' -> life_inv st0 raft p' (tr ++ evs).
Proof.
  intros Hinv Hs. destruct Hs as [p evs p' _ Hs|p p' _ Hs|p p' _ Hs]; rewrite ?app_nil_r;
    [by eapply work_inv|by eapply ends_inv|by eapply shut_inv].
Qed.

Definition replicated (st : Started) : bool := bool_decide (is_Some (st_replication st)).

Lemma life_run_inv s0 st h tr p :
  simulates (st_engine st) s0 -> offsets_inv (st_offsets st) h -> life_run (serve_init st) tr p ->
  life_inv s0 (replicated st) p tr.
Proof.
  intros Hsim Ho Hrun. remember (serve_init st) as p0 eqn:Hp0.
  induction Hrun as [p|p tr p1 evs p2 Hr IH Hs]; subst.
  - split; cbn; try done; [exists s0; by split; [constructor|]|by exists h].
  - eapply life_step_inv; [by apply IH|done].
Qed.

(** ** Properties *)

(** C37: shutdown is graceful.  From a node that serves, in every interleaving of the
    services' calls on the stores (deletions and restores included), the state
    machine of a replicated node, RESP clients, the signal's goroutine and [run]:
    everything done on the engine is a run of the abstract store, closing
    included; unless [Serve] failed, once [run] has left [Serve] no call, health
    stream or HTTP request is in flight, the health status is NOT_SERVING and both
    servers are down; and when [run] has returned, raft was shut down first, then
    the offsets and last the engine were closed, each once.  The log has room for
    what is written. *)
Theorem graceful_shutdown s0 st h tr p :
  simulates (st_engine st) s0 -> offsets_inv (st_offsets st) h -> life_run (serve_init st) tr p ->
  (exists s', life_store s0 tr s' /\ simulates (p_engine p) s') /\
  (p_failed p = false -> p_main p <> InServe ->
     p_calls p = 0%nat /\ p_watches p = 0%nat /\ p_requests p = 0%nat /\
     p_health p = NOT_SERVING /\ p_http p = HttpShut /\ p_grpc p = Stopped) /\
  (p_main p = RunReturned ->
     p_done p = (if replicated st then [ShutdownRaft] else []) ++ [CloseOffsets; CloseEngine]).
Proof.
  intros Hsim Ho Hrun. destruct (life_run_inv s0 st h tr p Hsim Ho Hrun) as [Hst _ Hh _ Hht Hg Hc Hm _ Hd].
  split; [done|]. split.
  - intros Hf Hne. specialize (Hm Hf Hne). rewrite Hm in *.
    destruct (Hc eq_refl). destruct (Hht I). split_and!; try done. by apply Hh.
  - intros Hret. unfold to_defer in Hd. by rewrite Hret, app_nil_r in Hd.
Qed.

(** ** Does the shutdown end? *)

(** The steps the signal's goroutine and [run] (at most three deferred calls) have
    left. *)
Definition shut_left (p : proc) : nat :=
  match p_sig p with
  | SigWait => 6 | SigStatus => 5 | SigHttp => 4 | SigHttpWait => 3 | SigGrpc => 2 | SigStopping => 1
  | SigDone => 0
  end +
  match p_main p with InServe => 5 | Returning ds => 1 + length ds | RunReturned => 0 end.

Lemma deferreds_length p : (length (deferreds p) <= 3)%nat.
Proof. unfold deferreds. destruct (p_raft p); cbn; lia. Qed.

Lemma shut_step_decreases p p' : shut_step p p' -> (shut_left p' < shut_left p)%nat.
Proof.
  intros Hs. unfold shut_left.
  destruct Hs as [p Hp|p Hp|p Hp Hn|p Hp|p Hp Hn Hw|p Hp Hgr|p ds Hp|p ds o' r Hp E|p ds e' r Hp E|p Hp];
    cbn; rewrite ?Hp; cbn; try lia.
  pose proof (deferreds_length p). lia.
Qed.

Lemma work_step_left p evs p' : work_step p evs p' -> (shut_left p' <= shut_left p)%nat.
Proof.
  intros Hs. unfold shut_left. destruct Hs as [| | | | | | | |p Hp|p Hp _]; cbn; try lia.
  - rewrite Hp. lia.
  - rewrite Hp. pose proof (deferreds_length p). lia.
Qed.

(** Runs from [p] in which the signal's goroutine and [run] take [n] steps. *)
Inductive life_steps : nat -> proc -> proc -> Prop :=
| steps_none p : life_steps 0 p p
| steps_work n p p1 evs p2 : life_steps n p p1 -> work_step p1 evs p2 -> life_steps n p p2
| steps_ends n p p1 p2 : life_steps n p p1 -> ends_step p1 p2 -> life_steps n p p2
| steps_shut n p p1 p2 : life_steps n p p1 -> shut_step p1 p2 -> life_steps (S n) p p2.

Lemma life_steps_left n p p' : life_steps n p p' -> (n + shut_left p' <= shut_left p)%nat.
Proof.
  induction 1 as [|n p p1 evs p2 _ IH Hs|n p p1 p2 _ IH Hs|n p p1 p2 _ IH Hs]; [lia|..].
  - apply work_step_left in Hs. lia.
  - destruct Hs; unfold shut_left in *; cbn in *; lia.
  - apply shut_step_decreases in Hs. lia.
Qed.

(** The shutdown has begun. *)
Definition ending (p : proc) : Prop := p_sig p <> SigWait \/ p_main p <> InServe.

(** It waits, inside [Shutdown] for an HTTP request or inside [GracefulStop] for a
    call or a health stream. *)
Definition waited (p : proc) : nat :=
  match p_sig p with
  | SigHttpWait => p_requests p
  | SigStopping => p_calls p + p_watches p
  | _ => 0
  end.
Definition waits (p : proc) : Prop := (0 < waited p)%nat.

Lemma shut_progress s0 raft p tr :
  life_inv s0 raft p tr -> ending p ->
  p_main p = RunReturned \/ (exists p', shut_step p p') \/ (p_main p = InServe /\ waits p).
Proof.
  intros [(st & _ & Hsim) (h & Ho) _ _ _ Hg _ _ _ _] He. unfold waits, waited.
  destruct (p_main p) as [|[|[] ds]|] eqn:Hp; [| | | | |by left]; right.
  - destruct (p_sig p) eqn:Hs; [by destruct He| | | | | |].
    + left. eexists. by eapply sig_status.
    + left. eexists. by eapply sig_http.
    + destruct (p_requests p) eqn:Hn; [left; eexists; by eapply sig_http_done|right].
      split; [done|lia].
    + left. eexists. by eapply sig_stop.
    + destruct (decide (p_calls p = 0 /\ p_watches p = 0)%nat) as [[Hc Hw]|Hn].
      * left. eexists. by eapply sig_drained.
      * right. split; [done|lia].
    + left. eexists. by eapply serve_returns.
  - left. eexists. by eapply run_returns.
  - left. eexists. by eapply defer_raft.
  - left. destruct (offsets_close _ _ Ho) as (o1 & r1 & E1 & _). eexists. by eapply defer_offsets.
  - left. destruct (engine_close _ _ Hsim) as (e1 & r1 & E1 & _). eexists. by eapply defer_engine.
Qed.

(** Of what is waited for no new ones begin. *)
Lemma waited_decreases s0 raft p tr evs p' :
  life_inv s0 raft p tr -> waits p -> life_step p evs p' -> (waited p' <= waited p)%nat.
Proof.
  intros [_ _ _ Hcl _ Hg _ _ _ _] Hw Hs. unfold waits, waited in *.
  destruct Hs as [p evs p' _ Hs|p p' _ Hs|p p' _ Hs]; destruct Hs; cbn in *; try lia;
    destruct (p_sig p) eqn:E; try lia; try congruence; cbn in *; try congruence.
  specialize (Hcl eq_refl). congruence.
Qed.

(** The steps with which a shutdown closes down, when nothing new begins. *)
Definition closes (p p' : proc) : Prop :=
  p_main p <> RunReturned /\ (shut_step p p' \/ ends_step p p').

Definition in_flight (p : proc) : nat := p_calls p + p_watches p + p_requests p.

Lemma closes_decreases p p' : closes p p' -> (shut_left p' + in_flight p' < shut_left p + in_flight p)%nat.
Proof.
  intros [_ [Hs|Hs]].
  - assert (in_flight p' = in_flight p) by (unfold in_flight; by destruct Hs).
    apply shut_step_decreases in Hs. lia.
  - destruct Hs as [p n Hn|p n Hn|p n Hn]; unfold shut_left, in_flight; cbn; rewrite Hn; lia.
Qed.

Lemma closes_ending p p' : ending p -> closes p p' -> ending p'.
Proof.
  intros He [_ [Hs|Hs]]; revert He; unfold ending; destruct Hs; cbn; intros He;
    try (by left); try (by right); destruct He as [He|He]; auto.
Qed.

Lemma in_flight_ends p : (0 < in_flight p)%nat -> exists p', ends_step p p'.
Proof.
  unfold in_flight. intros Hf. destruct (p_calls p) as [|n] eqn:Hc; [|eexists; by eapply call_ends].
  destruct (p_watches p) as [|n] eqn:Hw; [|eexists; by eapply watch_ends].
  destruct (p_requests p) as [|n] eqn:Hr; [lia|eexists; by eapply request_ends].
Qed.

(** C38: the shutdown waits for nothing but what clients have in flight.  In every
    state a node reaches after the signal arrived or [Serve] failed:
    the signal's goroutine and [run] have at most [shut_left p] steps left in
    every run, whatever calls begin and end beside them; as long as [run] has not
    returned one of them can be taken, or [Serve] still runs and [Shutdown] waits
    for an HTTP request or [GracefulStop] for a call or a health stream, and of
    what it waits for no new ones begin; and if those in flight end, [run] returns:
    closing down takes at most [shut_left p + in_flight p] steps and stops
    nowhere else. *)
Theorem shutdown_waits_for_clients s0 st h tr p :
  simulates (st_engine st) s0 -> offsets_inv (st_offsets st) h -> life_run (serve_init st) tr p ->
  ending p ->
  (forall n p', life_steps n p p' -> (n <= shut_left p)%nat) /\
  (p_main p = RunReturned \/ (exists p', shut_step p p') \/ (p_main p = InServe /\ waits p)) /\
  (waits p -> forall evs p', life_step p evs p' -> (waited p' <= waited p)%nat) /\
  (forall n p', nsteps closes n p p' -> (n <= shut_left p + in_flight p)%nat) /\
  (forall p', rtc closes p p' -> (forall p'', ~ closes p' p'') -> p_main p' = RunReturned).
Proof.
  intros Hsim Ho Hrun He. pose proof (life_run_inv s0 st h tr p Hsim Ho Hrun) as Hinv. split_and!.
  - intros n p' Hn. apply life_steps_left in Hn. lia.
  - by eapply shut_progress.
  - intros Hw evs p'. by eapply waited_decreases.
  - clear. intros n p' Hn. induction Hn as [p|n p p1 p2 H1 H2 IH]; [lia|].
    apply closes_decreases in H1. lia.
  - intros p' Hr Hstuck.
    assert (H : life_inv s0 (replicated st) p' tr /\ ending p').
    { clear Hstuck Hrun. induction Hr as [p|p p1 p2 H1 Hr IH]; [done|].
      apply IH; [by eapply closes_ending|].
      destruct H1 as [_ [H1|H1]]; [by eapply shut_inv|by eapply ends_inv]. }
    destruct H as [Hinv' He'].
    assert (Hne : forall p'', (shut_step p' p'' \/ ends_step p' p'') -> p_main p' = RunReturned).
    { intros p'' Hs. destruct (p_main p') eqn:Hm; [..|done]; exfalso; apply (Hstuck p'');
        (split; [by rewrite Hm|done]). }
    destruct (shut_progress _ _ _ _ Hinv' He') as [?|[[p'' H]|[Hm Hw]]]; [done|by eauto|].
    destruct (in_flight_ends p') as (p'' & H); [|by eauto].
    unfold waits, waited, in_flight in *. destruct (p_sig p'); lia.
Qed.

(** A health stream keeps the process from ending: unless [Serve] fails, [run] is
    in [Serve] as long as a stream is open, however long ago the signal arrived;
    the status update does not end it. *)
Theorem watch_keeps_serving s0 st h tr p :
  simulates (st_engine st) s0 -> offsets_inv (st_offsets st) h -> life_run (serve_init st) tr p ->
  p_failed p = false -> (0 < p_watches p)%nat -> p_main p = InServe.
Proof.
  intros Hsim Ho Hrun Hf Hw. destruct (life_run_inv s0 st h tr p Hsim Ho Hrun) as [_ _ _ _ _ _ Hc Hm _ _].
  destruct (p_main p) eqn:Hp; [done|..]; destruct (Hc (Hm Hf ltac:(done))); lia.
Qed.

(** ** Witnesses *)

Definition demo_started : Started :=
  mkStarted (fresh_engine [] at100) fresh_offsets (NewRegistry (mkSpec ($"default") ($"cache")))
    (Some (mkOpened None 5000000000)) false [] None.

(** A call puts a key while a health stream is open; then the signal arrives, and
    its goroutine is inside [GracefulStop]. *)
Definition demo_event : life_event := LStore (EvWrite put1 100 (Ok (mkOutcome 1 1 false))).
Definition demo_written : proc := set_engine (set_watches (set_calls (serve_init demo_started) 1) 1) after_put1.
Definition demo_signalled : proc := set_sig (set_calls demo_written 0) SigStatus.
Definition demo_http : proc :=
  set_sig (set_http (set_sig (set_health demo_signalled NOT_SERVING) SigHttp) HttpClosing) SigHttpWait.
Definition demo_watching : proc :=
  set_sig (set_grpc (set_sig (set_http demo_http HttpShut) SigGrpc) Draining) SigStopping.

Lemma demo_written_runs : life_run (serve_init demo_started) [demo_event] demo_written.
Proof.
  refine (life_then _ [] (set_watches (set_calls (serve_init demo_started) 1) 1) [demo_event] _ _ _).
  - refine (life_then _ [] (set_calls (serve_init demo_started) 1) [] _ _ _).
    + refine (life_then _ [] (serve_init demo_started) [] _ (life_none _) _).
      apply life_work; [done|]. by apply (call_begins (serve_init demo_started)).
    + apply life_work; [done|]. by apply (watch_begins (set_calls (serve_init demo_started) 1)).
  - apply life_work; [done|]. eapply call_engine; [reflexivity|].
    apply (work_call _ (CWrite put1)); [exact I|by_decide|].
    eexists. split; [exact put1_runs|reflexivity].
Qed.

Lemma demo_watching_runs : life_run (serve_init demo_started) [demo_event] demo_watching.
Proof.
  refine (life_then _ [demo_event] (set_sig (set_http demo_http HttpShut) SigGrpc) [] _ _ _).
  2: { apply life_shut; [done|]. by apply sig_stop. }
  refine (life_then _ [demo_event] demo_http [] _ _ _).
  2: { apply life_shut; [done|]. by apply sig_http_done. }
  refine (life_then _ [demo_event] (set_sig (set_health demo_signalled NOT_SERVING) SigHttp) [] _ _ _).
  2: { apply life_shut; [done|]. by apply sig_http. }
  refine (life_then _ [demo_event] demo_signalled [] _ _ _).
  2: { apply life_shut; [done|]. by apply sig_status. }
  refine (life_then _ [demo_event] (set_calls demo_written 0) [] _ _ _).
  2: { apply life_work; [done|]. by apply signalled. }
  refine (life_then _ [demo_event] demo_written [] _ demo_written_runs _).
  apply life_ends; [done|]. by apply call_ends.
Qed.

(** The stream ends, [Serve] returns, and [run] returns through its deferred
    calls. *)
Definition demo_served : proc := set_sig (set_grpc (set_watches demo_watching 0) Stopped) SigDone.
Definition demo_returning : proc := set_main demo_served (Returning (deferreds demo_served)).
Definition demo_raft_down : proc :=
  next_deferred (set_raft demo_returning false) ShutdownRaft [CloseOffsets; CloseEngine].
Definition demo_offsets_closed : proc :=
  next_deferred (set_offsets demo_raft_down (Streaming.Close fresh_offsets).1) CloseOffsets [CloseEngine].
Definition demo_closed : proc :=
  next_deferred (set_engine demo_offsets_closed (Engine.Close after_put1).1) CloseEngine [].
Definition demo_returned : proc := set_main demo_closed RunReturned.

Lemma demo_returned_runs : life_run (serve_init demo_started) [demo_event] demo_returned.
Proof.
  refine (life_then _ [demo_event] demo_closed [] _ _ _).
  2: { apply life_shut; [done|]. by apply run_returns. }
  refine (life_then _ [demo_event] demo_offsets_closed [] _ _ _).
  2: { apply life_shut; [done|]. apply (defer_engine _ _ _ None); [done|].
       refine (with_result (Engine.Close after_put1) _ _). vm_compute. reflexivity. }
  refine (life_then _ [demo_event] demo_raft_down [] _ _ _).
  2: { apply life_shut; [done|]. apply (defer_offsets _ _ _ None); [done|].
       refine (with_result (Streaming.Close fresh_offsets) _ _). vm_compute. reflexivity. }
  refine (life_then _ [demo_event] demo_returning [] _ _ _).
  2: { apply life_shut; [done|]. by apply (defer_raft demo_returning [CloseOffsets; CloseEngine]). }
  refine (life_then _ [demo_event] demo_served [] _ _ _).
  2: { apply life_shut; [done|]. by apply serve_returns. }
  refine (life_then _ [demo_event] (set_watches demo_watching 0) [] _ _ _).
  2: { apply life_shut; [done|]. by apply sig_drained. }
  refine (life_then _ [demo_event] demo_watching [] _ demo_watching_runs _).
  apply life_ends; [done|]. by apply watch_ends.
Qed.

Lemma fresh_simulates : simulates (fresh_engine [] at100) (mkStore [] [] 0).
Proof. split; [apply fresh_inv|by left]. Qed.

(** The run to the end: its call is the abstract store's put, and everything is
    down and closed in order. *)
Lemma graceful_shutdown_witness :
  (exists s', life_store (mkStore [] [] 0) [demo_event] s' /\ simulates (p_engine demo_returned) s') /\
  (p_calls demo_returned = 0%nat /\ p_watches demo_returned = 0%nat /\ p_requests demo_returned = 0%nat /\
     p_health demo_returned = NOT_SERVING /\ p_http demo_returned = HttpShut /\ p_grpc demo_returned = Stopped) /\
  p_done demo_returned = [ShutdownRaft; CloseOffsets; CloseEngine].
Proof.
  destruct (graceful_shutdown (mkStore [] [] 0) demo_started [] [demo_event] demo_returned
              fresh_simulates fresh_offsets_inv demo_returned_runs) as (H1 & H2 & H3).
  split; [exact H1|]. split; [by apply H2|by apply H3].
Defined.

(** Inside [GracefulStop] with a stream open: nothing but its end lets the
    shutdown go on. *)
Lemma shutdown_waits_for_clients_witness :
  waits demo_watching /\
  (forall n p', life_steps n demo_watching p' -> (n <= 6)%nat) /\
  (p_main demo_watching = RunReturned \/ (exists p', shut_step demo_watching p') \/
   (p_main demo_watching = InServe /\ waits demo_watching)) /\
  (waits demo_watching -> forall evs p', life_step demo_watching evs p' -> (waited p' <= 1)%nat) /\
  (forall n p', nsteps closes n demo_watching p' -> (n <= 7)%nat) /\
  (forall p', rtc closes demo_watching p' -> (forall p'', ~ closes p' p'') -> p_main p' = RunReturned).
Proof.
  split; [apply le_n|].
  exact (shutdown_waits_for_clients (mkStore [] [] 0) demo_started [] [demo_event] demo_watching
           fresh_simulates fresh_offsets_inv demo_watching_runs ltac:(by left)).
Defined.

Lemma watch_keeps_serving_witness :
  p_sig demo_watching = SigStopping /\ p_main demo_watching = InServe.
Proof.
  split; [reflexivity|].
  apply (watch_keeps_serving (mkStore [] [] 0) demo_started [] [demo_event] demo_watching
           fresh_simulates fresh_offsets_inv demo_watching_runs); [reflexivity|apply le_n].
Defined.
