(* ===== verification/BenchMain.v ===== *)
(** * The benchmark program (cmd/uddp-bench/main.go)

    The executor that turns a generated request into a call, and [run]: the
    configuration of the flags, the connection, the run and what is written.
    The flags are read in Mains; the run is any result the step relation of
    Benchmark reaches. *)

From Stdlib Require Import ZArith Lia.
From Stdlib Require Import SpecFloat.
From S2P Require Import Prelude WalFormat Wal WalStore Engine EngineInvariant EngineTheorems.
From S2P Require Import EngineTotal Replication Node Catalog Backup Grpc Observability Api ApiTheorems.
From S2P Require Import Services Resp Benchmark ReportText Ctl.

(** ** The executor *)

Record grpcExecutor (S : Type) := mkExecutor {
  x_client : Clients S;
  x_namespace : bytes;
  x_token : bytes
}.
Arguments mkExecutor {S}.
Arguments x_client {S}.
Arguments x_namespace {S}.
Arguments x_token {S}.

(** The error of the call; the response is dropped. *)
Definition error_of {A} (r : result status A) : option status :=
  match r with Ok _ => None | Err st => Some st end.

Definition Execute {S} (x : grpcExecutor S) (req : Request) : GoM S (option status) :=
  let ctx := outgoing (x_token x) in
  match rq_Op req with
  | OpGet => r ← c_Get (x_client x) ctx (x_namespace x) (rq_Key req); mret (error_of r)
  | OpPut => r ← c_Put (x_client x) ctx (x_namespace x) (rq_Key req) (rq_Value req) (rq_TTLSeconds req);
             mret (error_of r)
  end.

(** ** [run] *)

Record BenchFlags := mkBenchFlags {
  bf_conn : Flags;
  bf_readRatio : float64; bf_keyCardinality : Z; bf_hotKeyCount : Z; bf_valueSize : Z;
  bf_ttlSeconds : Z; bf_concurrency : Z; bf_warmup : Z; bf_duration : Z;
  bf_targetNote : bytes; bf_outputJSON : bytes
}.

Definition bench_config (fs : BenchFlags) : RunConfig :=
  mkRunConfig (mkWorkload (bf_readRatio fs) (bf_keyCardinality fs) (bf_hotKeyCount fs)
                 (bf_valueSize fs) (bf_ttlSeconds fs))
    (bf_concurrency fs) (bf_warmup fs) (bf_duration fs).

Inductive bench_error :=
| BenchConnect (e : ctl_error)
| BenchWriteText (e : oserr)
| BenchCreate (path : bytes) (e : oserr)
| BenchWriteJSON (path : bytes) (e : oserr).

(** The program's own [dialCredentials] is the text of uddpctl's. *)
Definition bench_dialCredentials : (bytes -> result oserr bytes) -> (bytes -> bool) ->
    bool -> bytes -> bool -> result ctl_error Credentials := dialCredentials.

(** The connection: the credentials, then the client. *)
Definition bench_dial {S} (readFile : bytes -> result oserr bytes) (hasCerts : bytes -> bool)
    (env_token : bytes) (dial : bytes -> Credentials -> result oserr (Clients S)) (fs : Flags)
    : result bench_error (grpcExecutor S) :=
  let token := if bool_decide (f_token fs = []) then env_token else f_token fs in
  match bench_dialCredentials readFile hasCerts (f_tls fs) (f_tlsCA fs) (f_insecure fs) with
  | Err e => Err (BenchConnect e)
  | Ok creds =>
    match dial (f_addr fs) creds with
    | Err e => Err (BenchConnect (Dial (f_addr fs) e))
    | Ok cl => Ok (mkExecutor cl (f_namespace fs) token)
    end
  end.

(** What [run] does with the result of the benchmark: the text report on standard
    output, then the file if one is asked for, whose report is returned.  [order]
    is the map's iteration order; [createErr] and [jsonErr] are the outcomes of
    creating the file and of encoding into it. *)
Definition bench_output (env : Environment) (res : Result) (outputJSON : bytes)
    (order : list (bytes * OpReport)) (createErr jsonErr : option oserr)
    : GoM Out (result bench_error (option (bytes * Report))) :=
  let report := NewReport env res in
  textErr ← WriteText order report;
  mret match textErr with
  | Some e => Err (BenchWriteText e)
  | None =>
    if bool_decide (outputJSON <> []) then
      match createErr with
      | Some e => Err (BenchCreate outputJSON e)
      | None =>
        match jsonErr with
        | Some e => Err (BenchWriteJSON outputJSON e)
        | None => Ok (Some (outputJSON, report))
        end
      end
    else Ok None
  end.

(** ** Correctness *)

Section node.
Context {R T : Type} `{Raft R, Codec Command, BackupCodec T}.

(** The executor's calls on a node reach its handlers. *)
Definition node_executor (token namespace : bytes) (order : list (bytes * entry))
    : grpcExecutor (Metrics * Srv R T) := mkExecutor (node_clients token order) namespace token.

Lemma Execute_handler {A} token method (h : handler (Srv R T) A) m s s' r :
  h s = (s', Ret r) ->
  exists m', (r ← invoke token method h (outgoing token); mret (error_of r)) (m, s)
             = ((m', s'), Ret (error_of r)).
Proof.
  intros Hh. destruct (invoke_authorized token method h m s s' r Hh) as (m' & HI). exists m'.
  by rewrite (bind_ret _ _ _ _ _ HI).
Qed.

(** A put with any time to live on a single node whose disk does not fail. *)
Lemma StatePut_ttl (s : Srv R T) h a k v ttl :
  sv_node s = None -> engine_inv (sv_engine s) h a -> calm_engine (sv_engine s) ->
  (let x := if 0 <? ttl then ttl_expiry (e_clock (sv_engine s) 0%nat) ttl else 0 in
   fits (e_log (sv_engine s)) (mkRecord 0 KindPut k v x [])) -> k <> [] ->
  exists s' resp, StatePut (ID (Spec (sv_registry s))) k v ttl [] s = (s', Ret (Ok resp)).
Proof.
  intros Hn Hinv Hc Hfit Hk. set (x := if 0 <? ttl then _ else 0) in Hfit.
  assert (Hx : exists e1, same_but_clock (sv_engine s) e1 /\
            resolve_ttl ttl (sv_engine s) = (e1, Ret x)).
  { unfold resolve_ttl, x. destruct (0 <? ttl); [|by exists (sv_engine s)].
    eexists. split; [|unfold Now, mbind, GoM_bind; reflexivity]. done. }
  destruct Hx as (e1 & Hs & Hx).
  destruct (commit_calm (MPut k v x []) e1 h a) as (e2 & E2 & _);
    [by eapply engine_inv_clock|unfold calm_engine in *; by destruct Hs as (-> & _)|by eapply fits_clock|].
  assert (HP : Put k v ttl [] (sv_engine s) = (e2, Ret (Ok (mkOutcome (len h + 1) (len h + 1) false)))).
  { unfold Put. rewrite (bind_ret _ _ _ _ _ Hx). unfold ApplyPut. rewrite (bind_ret _ _ e1 e1 e1) by done.
    exact E2. }
  unfold StatePut, guarded. rewrite (bind_ret _ _ s s s) by done.
  rewrite checkNamespace_right, (proj2 (Z.eqb_neq (len k) 0)) by (by destruct k).
  rewrite (bind_ret _ _ s s s), Hn by done.
  erewrite bind_ret; [|unfold eng; by erewrite zoom_ret by exact HP]. by eexists _, _.
Qed.

(** A benchmark of a healthy node sees no errors: on a single node whose disk does
    not fail, with the node's token and namespace, the executor's call of a
    generated request (a key of the workload, any value and time to live for
    which the log has room) returns without an error. *)
Theorem benchmark_call_succeeds token order req m (s : Srv R T) h a :
  sv_node s = None -> engine_inv (sv_engine s) h a -> calm_engine (sv_engine s) ->
  (let x := if 0 <? rq_TTLSeconds req then ttl_expiry (e_clock (sv_engine s) 0%nat) (rq_TTLSeconds req)
            else 0 in
   fits (e_log (sv_engine s)) (mkRecord 0 KindPut (rq_Key req) (rq_Value req) x [])) ->
  (exists i, rq_Key req = formatKey i) ->
  exists ms', Execute (node_executor token (ID (Spec (sv_registry s))) order) req (m, s)
              = (ms', Ret None).
Proof.
  intros Hn Hinv Hc Hfit (i & Hkey).
  assert (Hk : rq_Key req <> []) by (rewrite Hkey, formatKey_digits; done).
  unfold Execute. cbn [x_client x_token x_namespace node_executor]. destruct (rq_Op req).
  - destruct (Get_spec (rq_Key req) (sv_engine s)) as (e' & _ & EG).
    assert (HG : exists s' resp, StateGet (ID (Spec (sv_registry s))) (rq_Key req) s = (s', Ret (Ok resp))).
    { unfold StateGet, guarded. rewrite (bind_ret _ _ s s s) by done.
      rewrite checkNamespace_right, (proj2 (Z.eqb_neq (len (rq_Key req)) 0)) by (by destruct (rq_Key req)).
      erewrite bind_ret; [|unfold eng; by erewrite zoom_ret by exact EG]. by eexists _, _. }
    destruct HG as (s' & resp & HG).
    destruct (Execute_handler token ($"/uddp.native.v1.StateService/Get") _ m _ _ _ HG) as (m' & E).
    by exists (m', s').
  - destruct (StatePut_ttl s h a _ (rq_Value req) _ Hn Hinv Hc Hfit Hk) as (s' & resp & HP).
    destruct (Execute_handler token ($"/uddp.native.v1.StateService/Put") _ m _ _ _ HP) as (m' & E).
    by exists (m', s').
Qed.
End node.

#[local] Existing Instances demo_cmd_codec demo_raft demo_backup_codec.

Lemma benchmark_call_succeeds_witness :
  exists ms',
    Execute (node_executor ($"t") ($"ns") []) (mkRequest OpPut (formatKey 7) ($"v") 60)
      (mkMetrics ∅ [] (fun _ => 0), demo_srv (fresh_engine [] at100) ($"ns") (mkFS ∅ []))
    = (ms', Ret None).
Proof.
  refine (benchmark_call_succeeds ($"t") [] (mkRequest OpPut (formatKey 7) ($"v") 60)
            (mkMetrics ∅ [] (fun _ => 0)) (demo_srv (fresh_engine [] at100) ($"ns") (mkFS ∅ [])) [] []
            eq_refl (fresh_inv _ _) _ _ _); [done|by_decide|by exists 7].
Defined.
