(* ===== verification/Mains.v ===== *)
(** * The programs' entry points (main of cmd/uddp-node, cmd/uddpctl, cmd/uddp-bench)

    The flags each program declares, its [main] over a command line, and what a
    command line means: the one that spells a configuration out starts the
    program with that configuration. *)

From Stdlib Require Import ZArith Lia.
From Stdlib Require Import SpecFloat.
From S2P Require Import Prelude WalFormat Wal WalStore Engine EngineTheorems Streaming Replication Node Catalog Backup.
From S2P Require Import Grpc Auth Observability Api ApiTheorems Resp Benchmark Flags ReportText Ctl NodeMain BenchMain.

(** How a process ends, or what it goes on with. *)
Inductive outcome (A : Type) := Exits (status : Z) | Goes (a : A).
Arguments Exits {A}.
Arguments Goes {A}.

Section mains.
Context `{FloatSyntax}.

(** ** uddp-node *)

Definition node_decls : list (bytes * value) := [
  ($"addr", VString ($"127.0.0.1:7070")); ($"http-addr", VString ($"127.0.0.1:7071"));
  ($"data-dir", VString ($"./data")); ($"namespace", VString ($"default"));
  ($"profile", VString ($"cache"));
  ($"tls-cert", VString []); ($"tls-key", VString []); ($"auth-token", VString []);
  ($"raft-id", VString []); ($"raft-addr", VString []); ($"raft-peers", VString []);
  ($"raft-bootstrap", VBool false);
  ($"raft-tls-cert", VString []); ($"raft-tls-key", VString []); ($"raft-tls-ca", VString []);
  ($"redis-addr", VString [])].

(** The configuration [main] hands to [run]; [env] is UDDP_AUTH_TOKEN. *)
Definition node_config (m : gmap bytes value) (env : bytes) (peers : list Peer) : nodeConfig :=
  let s n := str_at m n in
  mkNodeConfig (s ($"addr")) (s ($"http-addr")) (s ($"data-dir")) (s ($"namespace")) (s ($"profile"))
    (s ($"tls-cert")) (s ($"tls-key")) (effective_token (s ($"auth-token")) env)
    (s ($"raft-id")) (s ($"raft-addr")) peers (bool_at m ($"raft-bootstrap"))
    (s ($"raft-tls-cert")) (s ($"raft-tls-key")) (s ($"raft-tls-ca")) (s ($"redis-addr")).

(** What [main] makes of its arguments; those behind the flags are not looked at. *)
Definition node_args (args : list bytes) (env : bytes) : outcome nodeConfig :=
  match parse_flags node_decls args with
  | Help => Exits 0
  | Failed _ => Exits 2
  | Parsed m _ =>
    match parsePeers (str_at m ($"raft-peers")) with
    | Err _ => Exits 1
    | Ok peers => Goes (node_config m env peers)
    end
  end.

(** [main] up to the point where the node serves: [log.Fatalf] exits with 1. *)
Definition node_main (clock : Clock) (senv : start_env) (args : list bytes) (env : bytes)
    : GoM DataDir (outcome Started) :=
  match node_args args env with
  | Exits status => mret (Exits status)
  | Goes cfg =>
    r ← node_run clock senv cfg;
    mret (match r with Err _ => Exits 1 | Ok st => Goes st end)
  end.

(** ** uddpctl *)

Definition ctl_decls : list (bytes * value) := [
  ($"addr", VString ($"127.0.0.1:7070")); ($"namespace", VString ($"default"));
  ($"tls", VBool false); ($"tls-ca", VString []); ($"insecure-skip-verify", VBool false);
  ($"token", VString [])].

Definition conn_flags (m : gmap bytes value) : Flags :=
  mkFlags (str_at m ($"addr")) (str_at m ($"namespace")) (bool_at m ($"tls"))
    (str_at m ($"tls-ca")) (bool_at m ($"insecure-skip-verify")) (str_at m ($"token")).

(** [main]: an error goes to stderr and the status is 1. *)
Definition ctl_main {S} (readFile : bytes -> result oserr bytes) (hasCerts : bytes -> bool)
    (env_token : bytes) (dial : bytes -> Credentials -> result oserr (Clients S)) (args : list bytes)
    : GoM S (Z * list line) :=
  match parse_flags ctl_decls args with
  | Help => mret (0, [])
  | Failed _ => mret (2, [])
  | Parsed m rest =>
    r ← ctl_run readFile hasCerts env_token dial (conn_flags m) rest;
    mret (match r with Err _ => (1, []) | Ok lines => (0, lines) end)
  end.

(** ** uddp-bench *)

Definition bench_decls : list (bytes * value) := ctl_decls ++ [
  ($"read-ratio", VFloat (float_lit 5 10)); ($"key-cardinality", VInt 10000);
  ($"hot-key-count", VInt 0); ($"value-size", VInt 128); ($"ttl-seconds", VInt 0);
  ($"concurrency", VInt 16); ($"warmup", VDuration (5 * 10 ^ 9)); ($"duration", VDuration (30 * 10 ^ 9));
  ($"target-note", VString []); ($"output-json", VString [])].

Definition bench_flags (m : gmap bytes value) : BenchFlags :=
  let i n := int_at m n in
  mkBenchFlags (conn_flags m) (float_at m ($"read-ratio")) (i ($"key-cardinality"))
    (i ($"hot-key-count")) (i ($"value-size")) (i ($"ttl-seconds")) (i ($"concurrency"))
    (i ($"warmup")) (i ($"duration")) (str_at m ($"target-note")) (str_at m ($"output-json")).

(** [main] up to the benchmark's run: the executor and the configuration it is
    run with. *)
Definition bench_start {S} (readFile : bytes -> result oserr bytes) (hasCerts : bytes -> bool)
    (env_token : bytes) (dial : bytes -> Credentials -> result oserr (Clients S)) (args : list bytes)
    : outcome (grpcExecutor S * RunConfig * BenchFlags) :=
  match parse_flags bench_decls args with
  | Help => Exits 0
  | Failed _ => Exits 2
  | Parsed m _ =>
    match bench_dial readFile hasCerts env_token dial (bf_conn (bench_flags m)) with
    | Err _ => Exits 1
    | Ok x => Goes (x, bench_config (bench_flags m), bench_flags m)
    end
  end.

(** What follows the run: the report, and the status. *)
Definition bench_finish (rt : Runtime) (fs : BenchFlags) (res : Result)
    (order : list (bytes * OpReport)) (createErr jsonErr : option oserr)
    : GoM Out (Z * option (bytes * Report)) :=
  let env := CaptureEnvironment rt (f_addr (bf_conn fs)) (bf_targetNote fs) in
  r ← bench_output env res (bf_outputJSON fs) order createErr jsonErr;
  mret match r with
  | Err _ => (1, None)
  | Ok out => (0, out)
  end.

(** ** Command lines that spell a configuration out *)

Definition node_settings (cfg : nodeConfig) : list setting :=
  let s n v := mkSetting n v (VString v) in [
  s ($"addr") (addr cfg); s ($"http-addr") (httpAddr cfg); s ($"data-dir") (dataDir cfg);
  s ($"namespace") (namespaceID cfg); s ($"profile") (profile cfg);
  s ($"tls-cert") (tlsCert cfg); s ($"tls-key") (tlsKey cfg); s ($"auth-token") (authToken cfg);
  s ($"raft-id") (raftID cfg); s ($"raft-addr") (raftAddr cfg);
  s ($"raft-peers") (print_peers (raftPeers cfg));
  mkSetting ($"raft-bootstrap") (print_bool (raftBootstrap cfg)) (VBool (raftBootstrap cfg));
  s ($"raft-tls-cert") (raftTLSCert cfg); s ($"raft-tls-key") (raftTLSKey cfg);
  s ($"raft-tls-ca") (raftTLSCA cfg); s ($"redis-addr") (redisAddr cfg)].

Definition conn_settings (fs : Flags) : list setting :=
  let s n v := mkSetting n v (VString v) in
  let b n v := mkSetting n (print_bool v) (VBool v) in [
  s ($"addr") (f_addr fs); s ($"namespace") (f_namespace fs); b ($"tls") (f_tls fs);
  s ($"tls-ca") (f_tlsCA fs); b ($"insecure-skip-verify") (f_insecure fs); s ($"token") (f_token fs)].

(** [ratio] is a text of the read ratio. *)
Definition bench_settings (fs : BenchFlags) (ratio : bytes) : list setting :=
  let i n v := mkSetting n (itoa v) (VInt v) in
  let d n v := mkSetting n (Duration_String v) (VDuration v) in
  conn_settings (bf_conn fs) ++ [
  mkSetting ($"read-ratio") ratio (VFloat (bf_readRatio fs));
  i ($"key-cardinality") (bf_keyCardinality fs); i ($"hot-key-count") (bf_hotKeyCount fs);
  i ($"value-size") (bf_valueSize fs); i ($"ttl-seconds") (bf_ttlSeconds fs);
  i ($"concurrency") (bf_concurrency fs); d ($"warmup") (bf_warmup fs); d ($"duration") (bf_duration fs);
  mkSetting ($"target-note") (bf_targetNote fs) (VString (bf_targetNote fs));
  mkSetting ($"output-json") (bf_outputJSON fs) (VString (bf_outputJSON fs))].

(** Names and types are closed terms; the hints say which texts denote a value. *)
Ltac settings :=
  repeat (apply Forall_cons; split);
  [(split; [by_decide|split; [reflexivity|cbn [st_text st_value]; auto with flags]])..|by apply Forall_nil].

Lemma node_settings_ok cfg : settings_ok node_decls (node_settings cfg).
Proof. unfold settings_ok, node_settings. settings. Qed.

Lemma conn_settings_ok fs : settings_ok ctl_decls (conn_settings fs).
Proof. unfold settings_ok, conn_settings. settings. Qed.

(** The ranges of the integer flags. *)
Definition bench_fits (fs : BenchFlags) : Prop :=
  is_i64 (bf_keyCardinality fs) /\ is_i64 (bf_hotKeyCount fs) /\ is_i64 (bf_valueSize fs) /\
  is_i64 (bf_ttlSeconds fs) /\ is_i64 (bf_concurrency fs) /\ is_i64 (bf_warmup fs) /\
  is_i64 (bf_duration fs).

Lemma bench_settings_ok fs ratio :
  bench_fits fs -> ParseFloat ratio = Some (bf_readRatio fs) ->
  settings_ok bench_decls (bench_settings fs ratio).
Proof.
  intros (? & ? & ? & ? & ? & ? & ?) Hr.
  assert (Hf : denotes ratio (VFloat (bf_readRatio fs))) by (unfold denotes; cbn; by rewrite Hr).
  unfold settings_ok, bench_settings, conn_settings. cbn [app]. settings.
Qed.

Definition with_token (cfg : nodeConfig) (t : bytes) : nodeConfig :=
  mkNodeConfig (addr cfg) (httpAddr cfg) (dataDir cfg) (namespaceID cfg) (profile cfg)
    (tlsCert cfg) (tlsKey cfg) t (raftID cfg) (raftAddr cfg) (raftPeers cfg) (raftBootstrap cfg)
    (raftTLSCert cfg) (raftTLSKey cfg) (raftTLSCA cfg) (redisAddr cfg).

Lemma node_assigned cfg env peers :
  node_config (assigned node_decls (node_settings cfg)) env peers
  = with_token (mkNodeConfig (addr cfg) (httpAddr cfg) (dataDir cfg) (namespaceID cfg) (profile cfg)
      (tlsCert cfg) (tlsKey cfg) [] (raftID cfg) (raftAddr cfg) peers (raftBootstrap cfg)
      (raftTLSCert cfg) (raftTLSKey cfg) (raftTLSCA cfg) (redisAddr cfg))
      (effective_token (authToken cfg) env) /\
  str_at (assigned node_decls (node_settings cfg)) ($"raft-peers") = print_peers (raftPeers cfg).
Proof. split; vm_compute; reflexivity. Qed.

(** The flags a node is started with: a command line that spells out a
    configuration, with the peers in the syntax of --raft-peers, is read as that
    configuration, its token taken from the environment if the flag is empty. *)
Lemma node_args_settings cfg env rest :
  Forall plain_peer (raftPeers cfg) ->
  match rest with [] => True | s :: _ => classify s = Positional end ->
  node_args (command_line (node_settings cfg) ++ rest) env
  = Goes (with_token cfg (effective_token (authToken cfg) env)).
Proof.
  intros Hp Hrest. unfold node_args.
  rewrite parse_settings; [|by_decide|apply node_settings_ok|exact Hrest].
  destruct (node_assigned cfg env (raftPeers cfg)) as [Hc Hs]. rewrite Hs.
  rewrite (proj1 peers_roundtrip (raftPeers cfg) Hp), Hc. done.
Qed.

(** C36: a command line that spells a node's configuration out, with the peers in the
    syntax of --raft-peers, runs the node with that configuration; the token is
    the one of the environment if the flag is empty, and the process exits with
    status 1 if the start fails. *)
Theorem node_command_line clock senv cfg env d :
  Forall plain_peer (raftPeers cfg) ->
  node_main clock senv (command_line (node_settings cfg)) env d
  = (r ← node_run clock senv (with_token cfg (effective_token (authToken cfg) env));
     mret (match r with Err _ => Exits 1 | Ok st => Goes st end)) d.
Proof.
  intros Hp. unfold node_main. rewrite <- (app_nil_r (command_line _)).
  by rewrite (node_args_settings cfg env [] Hp I).
Qed.

(** The clients read their flags back: uddpctl runs the command behind its flags
    with the connection they spell out, and uddp-bench dials and configures the
    run its flags spell out, for every integer and duration of 64 bits, the
    durations in the syntax the report prints them in. *)
Theorem client_command_lines {S} readFile hasCerts env_token
    (dial : bytes -> Credentials -> result oserr (Clients S)) :
  (forall fs cmd args s, classify cmd = Positional ->
     ctl_main readFile hasCerts env_token dial (command_line (conn_settings fs) ++ cmd :: args) s
     = (r ← ctl_run readFile hasCerts env_token dial fs (cmd :: args);
        mret (match r with Err _ => (1, []) | Ok lines => (0, lines) end)) s) /\
  (forall fs ratio, bench_fits fs -> ParseFloat ratio = Some (bf_readRatio fs) ->
     bench_start readFile hasCerts env_token dial (command_line (bench_settings fs ratio))
     = match bench_dial readFile hasCerts env_token dial (bf_conn fs) with
       | Err _ => Exits 1
       | Ok x => Goes (x, bench_config fs, fs)
       end).
Proof.
  split.
  - intros fs cmd args s Hcmd. unfold ctl_main.
    rewrite parse_settings; [|by_decide|apply conn_settings_ok|exact Hcmd].
    assert (Hfs : conn_flags (assigned ctl_decls (conn_settings fs)) = fs)
      by (destruct fs; vm_compute; reflexivity).
    by rewrite Hfs.
  - intros fs ratio Hfit Hr. unfold bench_start. rewrite <- (app_nil_r (command_line _)).
    rewrite parse_settings; [|by_decide|by apply bench_settings_ok|exact I].
    assert (Hfs : bench_flags (assigned bench_decls (bench_settings fs ratio)) = fs)
      by (destruct fs as [[]]; vm_compute; reflexivity).
    by rewrite Hfs.
Qed.

(** What stands behind the first argument that is no flag is dropped, flags
    included: [--raft-bootstrap false] ends the flags, and a node started so has
    neither the token nor the certificate its command line names. *)
Theorem node_ignores_leftovers :
  (forall cfg env s rest, Forall plain_peer (raftPeers cfg) -> classify s = Positional ->
     node_args (command_line (node_settings cfg) ++ s :: rest) env
     = node_args (command_line (node_settings cfg)) env) /\
  exists cfg,
    node_args [$"--raft-bootstrap"; $"false"; $"--auth-token=secret"; $"--tls-cert=c"; $"--tls-key=k"] []
    = Goes cfg /\ authToken cfg = [] /\ tlsCert cfg = [] /\ raftBootstrap cfg = true.
Proof.
  split.
  - intros cfg env s rest Hp Hs. rewrite (node_args_settings cfg env (s :: rest) Hp Hs).
    rewrite <- (app_nil_r (command_line _)). by rewrite (node_args_settings cfg env [] Hp I).
  - eexists. split; [vm_compute; reflexivity|]. by split_and!.
Qed.

End mains.

(** ** Witnesses *)

#[local] Instance demo_floats : FloatSyntax := fun s => if bool_decide (s = $"0.5") then Some p50 else None.

Definition demo_peers : list Peer := [mkPeer ($"n1") ($"127.0.0.1:18101"); mkPeer ($"n2") ($"127.0.0.1:18102")].

Lemma node_command_line_witness :
  let cfg := mkNodeConfig ($"127.0.0.1:17101") ($"127.0.0.1:17111") ($"./data/n1") ($"default") ($"durable")
               [] [] [] ($"n1") ($"127.0.0.1:18101") demo_peers true [] [] [] [] in
  let d := mkDataDir (fresh_file []) (fresh_file []) in
  node_main at100 demo_env (command_line (node_settings cfg)) ($"s3cret") d
  = (r ← node_run at100 demo_env (with_token cfg ($"s3cret"));
     mret (match r with Err _ => Exits 1 | Ok st => Goes st end)) d.
Proof.
  intros cfg d. apply (node_command_line at100 demo_env cfg ($"s3cret") d).
  repeat (apply Forall_cons; split); [by split_and!; by_decide..|by apply Forall_nil].
Defined.
